(* ===== verification/_CoqProject ===== *)
-Q . S2P
Prelude.v
Lru.v
Strconv.v
Float64.v
Rounding.v
Format.v
Shard.v
ShardSpec.v
ShardRefine.v
ShardProps.v
ShardTyping.v
Store.v
StoreSpec.v
StoreProps.v
GoStrings.v
Bufio.v
Protocol.v
Server.v
ServerSpec.v
ServerProps.v
SessionProps.v
Lifecycle.v
Config.v
Process.v
ProcessProps.v
Ops.v
OpsProps.v
Client.v
ClientProps.v
Benchmark.v
BenchmarkProps.v
BenchCli.v
BenchCliProps.v
