(* ===== verification/Prelude.v ===== *)
(** * MiniKV: a verified model of the key-value server

    MiniKV ([src/]) is an in-memory key-value server in Go: a sharded LRU store
    with TTLs, versions (CAS tokens) and a memory budget, a line-based protocol
    over TCP, a configuration file, and a benchmark with clients for MiniKV,
    Redis and memcached.  This library models it in Rocq, from the pointers of
    the LRU list to the bytes on the connection, and proves it correct against
    an abstract cache.

    ** The parts, and the files that model them

    - [internal/store/lru.go]: [Lru].  The intrusive doubly linked list over a
      heap of cells ([storedItem] with [prev] and [next]); a nil or dangling
      dereference panics.  [pushFront], [remove], [moveToFront], [back].
    - [internal/store/shard.go]: [Shard].  The state is the Go struct: the map,
      the list, [memoryBytes], [ttlCount] and the counters, with [int] and
      [uint64] arithmetic at its width.  One definition per method, in
      [Module Method] where the Go name is common ([set], [get], ...).
    - [ShardSpec]: the abstract cache, a list of entries, most recently used
      first, and what its operations guarantee.  [ShardRefine]: the methods
      implement them (class [ShardContract]).  [ShardProps]: theorems for
      clients of a shard.  [ShardTyping]: the invariant of its pointers and
      numbers.
    - [internal/store/store.go]: [Store] (configuration, FNV-1a routing, the
      public methods, the sweep, sampled statistics), [StoreSpec] (the store as
      one abstract map, proved against [ShardContract] only) and [StoreProps].
    - [internal/protocol/protocol.go]: [Protocol], on [GoStrings] (UTF-8
      decoding, [strings.Fields], lower-casing), [Strconv] ([ParseUint],
      [FormatUint]) and [Bufio] (buffered input and output).
    - [internal/server/server.go]: [Server] (authentication, [execute],
      [TakeStats] for [Stats], both connection loops), [ServerSpec] (the conversation it promises),
      [ServerProps] (executing, ending, the authentication gate) and
      [SessionProps] (whole sessions); [Lifecycle] ([ServeConn] goroutines next
      to [Shutdown] and its helper, as a transition system).
    - [internal/config/config.go]: [Config] ([Load], [setField], [validate],
      [time.ParseDuration] and [strconv.Atoi]).
    - [cmd/minikv/main.go]: [Process] ([loadConfig], [listen], [boot] for the
      start of [main] and [run], [step_process] for [run] with its listener,
      accept loop, signals and shutdown around a [Lifecycle], [sweeper] for
      [cleanupExpired]) with
      [ProcessProps]; [Ops] ([/healthz], [/doctor]) with [OpsProps].
    - [internal/benchmark/clients.go]: [Client] (the three clients, and how
      [runner.go] divides the keys), [ClientProps].
    - [internal/benchmark/runner.go] and [stats.go]: [Benchmark],
      [BenchmarkProps].
    - [cmd/minikv-bench/main.go]: [BenchCli] (selection of services, printing,
      [bench_main]), [BenchCliProps].
    - [Float64]: the few [float64] operations, bit for bit; [Rounding]: what
      they compute, as statements about integers; [Format]: the text of
      numbers ([%.Nf]) and durations.

    This file holds what they share: machine integers, bytes, the monad [M] of
    Go computations (state, panics, loops cut off) with its total-correctness
    rules [wp], the tactics [wp_steps] and [zcase], and list lemmas.

    ** What the theorems show

    - Store: from [New], any sequence of requests and sweeps completes, without
      panic, with the replies and the state of the abstract store
      ([store_refines], [shard_refines], [lru_refines]); running totals are
      exact and the budget holds in every reachable state ([shard_accounting],
      [store_budget]); eviction is exactly least recently used
      ([set_evicts_lru]); no pointer dangles and no number leaves its width
      ([shard_typed]); every branch of every operation, errors included
      ([set_outcome] and the like); a hit returns the last write
      ([get_returns_last_write]); versions are unique and a successful [Cas]
      means that nobody touched the key in between ([versions_unique],
      [cas_no_aba]).
    - Protocol: the parser inverts the encoder on pipelines
      ([parse_pipeline]), accepts only well-formed commands and consumes
      exactly their bytes ([parsed_command_wf]), and always returns
      ([parser_returns]).
    - Server: the bytes of a session are those of the specification for every
      sequence of commands, with or without a token, under any interference by
      other connections, also while statistics are sampled ([full_session]),
      nothing passes the authentication gate ([auth_gate]), and the loop ends on
      every input and connection ([serve_returns]).
    - Lifecycle: in every interleaving the connection cap holds, all resources
      are given back, and [Shutdown] returns only after a moment at which no
      connection was being served ([max_connections], [quiescent_clean],
      [shutdown_waits]).
    - Configuration: round trip and validity of what [Load] accepts.
    - Process: what a started process can rely on ([startup_sound]), when [run]
      returns ([process_exit]), a signal always leads out
      ([signal_leads_out]), a forced shutdown ends under every schedule once no
      goroutine is on its way to registration ([forced_shutdown_drains]), the
      sweeper only sweeps ([sweeper_sound]).
    - Diagnostics: [/doctor] decides exact integer thresholds although it
      computes in floating point ([doctor_verdict]); its uptime reads back as
      the nearest second ([uptime_line]).
    - Clients: the MiniKV client and the server agree end to end
      ([client_session]).
    - Benchmark: the workers' slices partition the keys, a run measures every
      key once ([benchmark_measures_all]) and the summary is right
      ([summary_correct]); the command selects the services named
      ([select_services]), prints what was measured ([bench_report]) and loses
      no digit of a duration ([duration_exact]).
    - Where the code does not do what it means to, a theorem exhibits it:
      [oversized_set_panics], [accepted_shards_panic],
      [accepted_overhead_overflows], [budget_exceeded],
      [shutdown_misses_late_connection], [idle_deadline_overrides_shutdown],
      [timeout_in_value_not_quiet].

    ** Conventions

    - Bytes are [list ascii]; [int] and [uint64] are [Z], wrapped with [int64]
      and [uint64] where the code can overflow.  Instants and durations are [Z]
      nanoseconds, the zero instant is 0 and the run-time's saturation is not
      modelled.  The clock is an argument of the store's methods, and for a
      connection an arbitrary function from the number of reads to instants:
      no theorem assumes that it is monotonic.
    - A method runs under its shard's mutex, so it is one atomic step; every
      interleaving of concurrent calls is a sequence of steps.  The version
      counter is shared by all shards.  A goroutine runs in an [environment]:
      before each of its clock reads, hence before each of its store calls, the
      other goroutines may have made any requests and sweeps, incremented
      counters, and opened or closed connections.  Statistics are no snapshot:
      the counters of the server are loaded one after the other, and each shard
      is read three times (its totals under its mutex, then two atomic
      counters), with such an interruption before every single read
      ([TakeStats], [stats_loop]); the specification says which state each
      number is of ([spec_server_stats], [spec_stats]), and [stats_torn] shows
      statistics that are of no single moment.
    - In [Lifecycle] every atomic operation of [ServeConn] and [Shutdown] is a
      step.  A connection has a number of complete commands already received
      ([pending]): they are still parsed after its deadline has passed or it was
      closed; only new data needs an open connection and a deadline not in the
      past.  [Shutdown] has its helper goroutine ([WaitReturns] is [wg.Wait]
      returning and [close(done)]), and its context may expire, and goroutines
      may reach [wg.Add], between that and its return.  The panic of a
      [WaitGroup] whose counter is raised while [Wait] is returning is not
      modelled.
    - The order in which Go ranges over a map is a parameter (class
      [MapRange]): any permutation of the map's keys.
    - Loops carry fuel: the eviction and expiry loops one turn per cell, the
      connection loop one per unread byte and one more, decimal printing one
      per digit (20 for a [uint64], 310 for a [float64]).  The theorems are
      about runs that are [Done], so the fuel is proved sufficient.
    - Values are copied on the way in and out by the code ([cloneBytes]), so
      they are values here.

    ** Not modelled

    The operating system and the standard library's network, TLS, HTTP, flag
    and logging code: what they answer (which file a path opens to, whether an
    address binds, when a signal or a tick arrives, what [Accept] returns) is an
    input.  So are the clock and the contexts of the benchmark.  The HTTP
    listener of [serveOps] and the pprof handlers are library code; only the
    table of routes and the two handlers of the repository are modelled.
    Exhaustion of memory below the allocation limit is not modelled, nor is the
    text of log lines and of Go errors that only end up in the log.  A session
    is one connection in an arbitrary environment; the joint history of several
    sessions is not constructed from their inputs. *)

From stdpp Require Export base tactics option list gmap strings fin_maps.
From Stdlib Require Export ZArith Lia Ascii.
From Stdlib Require Import Strings.Byte.

(** ** Go strings and byte slices

    A Go [string] and a Go [[]byte] are both finite sequences of bytes; the
    conversions between them copy and never re-encode.  Both are modelled as
    lists of 8-bit characters, with Go's string literals in [go_scope]. *)

Abbreviation bytes := (list ascii).

Definition bytes_of_literal (l : list Byte.byte) : bytes := map ascii_of_byte l.
Definition literal_of_bytes (l : bytes) : list Byte.byte := map byte_of_ascii l.

Declare Scope go_scope.
Delimit Scope go_scope with go.
String Notation bytes bytes_of_literal literal_of_bytes : go_scope.

Global Open Scope Z_scope.
Global Open Scope go_scope.

(** The numeric value of a byte, Go's [int(b)]. *)
Definition byteZ (c : ascii) : Z := Z.of_N (N_of_ascii c).

(** The byte with a given numeric value, Go's [byte(n)]. *)
Definition Zbyte (n : Z) : ascii := ascii_of_N (Z.to_N (n mod 256)).

(** Go's [len] of a string or slice, as an [int]. *)
Definition len {A} (l : list A) : Z := Z.of_nat (length l).

(** ** Machine integers

    [int] is 64 bits wide on every platform the server is built for.  A value
    of type [int], [int64], [uint64] or [uint32] is a [Z]; the operations that
    can leave the range are followed by the wrap-around of the type. *)

Definition MaxInt64 : Z := 9223372036854775807.
Definition MaxUint64 : Z := 18446744073709551615.

Definition int64 (z : Z) : Z := (z + 2 ^ 63) mod 2 ^ 64 - 2 ^ 63.
Definition uint64 (z : Z) : Z := z mod 2 ^ 64.
Definition uint32 (z : Z) : Z := z mod 2 ^ 32.

Lemma int64_id z : - 2 ^ 63 <= z <= MaxInt64 -> int64 z = z.
Proof. unfold int64, MaxInt64. intros. rewrite Z.mod_small; lia. Qed.

Lemma int64_range z : - 2 ^ 63 <= int64 z <= MaxInt64.
Proof.
  unfold int64, MaxInt64. pose proof (Z.mod_pos_bound (z + 2 ^ 63) (2 ^ 64)). lia.
Qed.

Lemma uint64_id z : 0 <= z <= MaxUint64 -> uint64 z = z.
Proof. unfold uint64, MaxUint64. intros. apply Z.mod_small. lia. Qed.

Lemma uint64_range z : 0 <= uint64 z <= MaxUint64.
Proof. unfold uint64, MaxUint64. pose proof (Z.mod_pos_bound z (2 ^ 64)). lia. Qed.

Lemma uint32_range z : 0 <= uint32 z < 2 ^ 32.
Proof. unfold uint32. apply Z.mod_pos_bound. lia. Qed.

Lemma byteZ_range c : 0 <= byteZ c < 256.
Proof. unfold byteZ. pose proof (N_ascii_bounded c). lia. Qed.

Lemma byteZ_inj c d : byteZ c = byteZ d -> c = d.
Proof.
  unfold byteZ. intros H%N2Z.inj.
  rewrite <- (ascii_N_embedding c), <- (ascii_N_embedding d). congruence.
Qed.

Lemma byteZ_Zbyte n : 0 <= n < 256 -> byteZ (Zbyte n) = n.
Proof.
  intros. unfold byteZ, Zbyte. rewrite Z.mod_small by lia.
  rewrite N_ascii_embedding by lia. lia.
Qed.

Lemma Zbyte_byteZ c : Zbyte (byteZ c) = c.
Proof. apply byteZ_inj, byteZ_Zbyte, byteZ_range. Qed.

Lemma len_nonneg {A} (l : list A) : 0 <= len l.
Proof. unfold len. lia. Qed.

Lemma len_app {A} (l k : list A) : len (l ++ k) = len l + len k.
Proof. unfold len. rewrite length_app. lia. Qed.

Lemma len_cons {A} (x : A) l : len (x :: l) = 1 + len l.
Proof. unfold len. simpl. lia. Qed.

Lemma len_snoc {A} (l : list A) x : len (l ++ [x]) = len l + 1.
Proof. unfold len. rewrite length_app. simpl. lia. Qed.

(** ** Effects

    Go code that reads and writes memory is a function of the state that
    returns an outcome.  [Panicked] is a run-time panic (a nil dereference, an
    index out of range): it takes the whole process down.  [OutOfFuel] marks a
    loop that was cut off; the theorems show that it never happens. *)

Inductive outcome (A : Type) : Type :=
| Done (a : A)
| Panicked
| OutOfFuel.
Arguments Done {A} a.
Arguments Panicked {A}.
Arguments OutOfFuel {A}.

Definition M (S A : Type) : Type := S -> outcome (A * S).

Global Instance M_ret {S} : MRet (M S) := fun A a s => Done (a, s).
Global Instance M_bind {S} : MBind (M S) := fun A B f m s =>
  match m s with
  | Done (a, s') => f a s'
  | Panicked => Panicked
  | OutOfFuel => OutOfFuel
  end.

Definition gets {S A} (f : S -> A) : M S A := fun s => Done (f s, s).
Definition modify {S} (f : S -> S) : M S unit := fun s => Done (tt, f s).
Definition panic {S A} : M S A := fun _ => Panicked.
Definition out_of_fuel {S A} : M S A := fun _ => OutOfFuel.

(** Unwrap an optional value that the Go code dereferences. *)
Definition must {S A} (o : option A) : M S A :=
  match o with Some a => mret a | None => panic end.

(** Run a computation on a part of the state. *)
Definition zoom {S T A} (get : S -> T) (put : T -> S -> S) (m : M T A) : M S A :=
  fun s => match m (get s) with
           | Done (a, t) => Done (a, put t s)
           | Panicked => Panicked
           | OutOfFuel => OutOfFuel
           end.

(** ** Total correctness

    [wp m s Q]: started in [s], [m] terminates normally (no panic, no loop cut
    off) and its result and final state satisfy [Q]. *)

Definition wp {S A} (m : M S A) (s : S) (Q : A -> S -> Prop) : Prop :=
  match m s with Done (a, s') => Q a s' | _ => False end.

Section WpRules.
Context {S : Type}.

Lemma wp_ret {A} (a : A) (s : S) Q : Q a s -> wp (mret a) s Q.
Proof. done. Qed.

Lemma wp_bind {A B} (f : A -> M S B) (m : M S A) s Q :
  wp m s (fun a s' => wp (f a) s' Q) -> wp (mbind f m) s Q.
Proof. unfold wp, mbind, M_bind. destruct (m s) as [[]| |]; done. Qed.

Lemma wp_gets {A} (f : S -> A) s Q : Q (f s) s -> wp (gets f) s Q.
Proof. done. Qed.

Lemma wp_modify (f : S -> S) s Q : Q tt (f s) -> wp (modify f) s Q.
Proof. done. Qed.

Lemma wp_must {A} (o : option A) a (s : S) Q : o = Some a -> Q a s -> wp (must o) s Q.
Proof. by intros ->. Qed.

Lemma wp_zoom {T A} (get : S -> T) put (m : M T A) s Q :
  wp m (get s) (fun a t => Q a (put t s)) -> wp (zoom get put m) s Q.
Proof. unfold wp, zoom. destruct (m (get s)) as [[]| |]; done. Qed.

Lemma wp_mono {A} (m : M S A) s (P Q : A -> S -> Prop) :
  wp m s P -> (forall a s', P a s' -> Q a s') -> wp m s Q.
Proof. unfold wp. destruct (m s) as [[]| |]; eauto. Qed.

Lemma wp_Done {A} (m : M S A) s Q :
  wp m s Q -> exists a s', m s = Done (a, s') /\ Q a s'.
Proof. unfold wp. destruct (m s) as [[]| |]; eauto; done. Qed.

Lemma Done_wp {A} (m : M S A) s a s' (Q : A -> S -> Prop) :
  m s = Done (a, s') -> Q a s' -> wp m s Q.
Proof. unfold wp. by intros ->. Qed.
End WpRules.

(** Sequencing is associative. *)
Lemma M_bind_assoc {S A B C} (m : M S A) (f : A -> M S B) (g : B -> M S C) s :
  (m ≫= fun a => f a ≫= g) s = ((m ≫= f) ≫= g) s.
Proof. unfold mbind, M_bind. by destruct (m s) as [[]| |]. Qed.

Lemma wp_assoc {S A B C} (m : M S A) (f : A -> M S B) (g : B -> M S C) s Q :
  wp ((m ≫= f) ≫= g) s Q -> wp (m ≫= fun a => f a ≫= g) s Q.
Proof. unfold wp. by rewrite M_bind_assoc. Qed.

Create HintDb minikv discriminated.
#[export] Hint Resolve len_nonneg byteZ_range uint64_range : minikv.

(** Run the structural rules of a computation as far as they go. *)
Ltac wp_step :=
  match goal with
  | |- wp (mbind _ _) _ _ => apply wp_bind
  | |- wp (mret _) _ _ => apply wp_ret
  | |- wp (gets _) _ _ => apply wp_gets
  | |- wp (modify _) _ _ => apply wp_modify
  | |- wp (zoom _ _ _) _ _ => apply wp_zoom
  end; cbn beta.
Ltac wp_steps := repeat wp_step; cbn beta iota.

(** Continue after a specified call: use its triple, then generalise. *)
Tactic Notation "wp_use" uconstr(H) := eapply wp_mono; [eapply H|].

(** Turn a boolean comparison of the code into the arithmetic it decides. *)
Ltac zcase :=
  match goal with
  | |- context [?x <=? ?y] => destruct (Z.leb_spec x y)
  | |- context [?x <? ?y] => destruct (Z.ltb_spec x y)
  | |- context [?x =? ?y] => destruct (Z.eqb_spec x y)
  end; cbn [negb andb orb].

(** ** Sums over lists *)

Definition sumZ (l : list Z) : Z := foldr Z.add 0 l.

Lemma sumZ_app l k : sumZ (l ++ k) = sumZ l + sumZ k.
Proof. unfold sumZ. induction l as [|x l IH]; simpl; lia. Qed.

Lemma sumZ_nonneg l : Forall (fun z => 0 <= z) l -> 0 <= sumZ l.
Proof. unfold sumZ. induction 1; simpl; lia. Qed.

Lemma sumZ_bounds_elem l : Forall (fun z => 0 <= z) l -> Forall (fun z => 0 <= z <= sumZ l) l.
Proof.
  induction 1 as [|z l Hz Hl IH]; [done|]. pose proof (sumZ_nonneg l Hl). unfold sumZ in *. simpl.
  constructor; [lia|]. eapply Forall_impl; [apply IH|]. simpl. lia.
Qed.

Lemma sumZ_rev l : sumZ (rev l) = sumZ l.
Proof.
  induction l as [|x l IH]; [done|]. simpl rev. rewrite sumZ_app, IH.
  unfold sumZ. simpl. lia.
Qed.

Global Instance sumZ_Permutation : Proper ((≡ₚ) ==> (=)) sumZ.
Proof. unfold sumZ. induction 1; simpl; lia. Qed.

(** ** Sublists *)

Lemma Forall_sublist_of {A} (P : A -> Prop) l k :
  l `sublist_of` k -> Forall P k -> Forall P l.
Proof.
  induction 1 as [|x l k Hs IH|x l k Hs IH]; [done|..]; intros [? ?]%Forall_cons; auto.
Qed.

Lemma sublist_elem {A} (l k : list A) x : l `sublist_of` k -> x ∈ l -> x ∈ k.
Proof. induction 1; set_solver. Qed.

(** A filter that every element passes. *)
Lemma filter_keep {A} (P : A -> Prop) `{!forall x, Decision (P x)} (l : list A) :
  (forall x, x ∈ l -> P x) -> filter P l = l.
Proof.
  induction l as [|x l IH]; intros Hl; [done|].
  rewrite filter_cons_True by (apply Hl; left). f_equal. apply IH. intros. apply Hl. by right.
Qed.
