(* ===== verification/Lru.v ===== *)
(** * The intrusive recency list ([src/internal/store/lru.go])

    [lruList] links the [storedItem]s of a shard through their own [prev] and
    [next] fields.  The model keeps the pointers: items live in a heap of
    cells, [nil] is [None], and each method is the same sequence of pointer
    writes as the Go method.  [dll] says which sequence of cells a list head
    and tail stand for; the theorems show that [pushFront], [remove] and
    [moveToFront] are cons, removal and move-to-front on that sequence, that
    they never dereference [nil], and that they change no other field. *)

From S2P Require Import Prelude.

(** ** Data ([store.go], [storedItem]; [lru.go], [lruList]) *)

(** The address of an allocated [storedItem], and a pointer to one. *)
Abbreviation loc := positive.
Abbreviation ptr := (option positive).

(** The fields of a [storedItem] that are not links. *)
Record entry := Entry {
  e_key : bytes;
  e_value : bytes;
  e_expiresAt : Z;   (* instant in nanoseconds; the zero [time.Time] is 0 *)
  e_size : Z;
  e_cas : Z
}.

Record storedItem := StoredItem {
  si_data : entry;
  si_prev : ptr;
  si_next : ptr
}.

Global Instance entry_eq_dec : EqDecision entry.
Proof. solve_decision. Defined.

Definition set_prev (p : ptr) (it : storedItem) : storedItem :=
  StoredItem (si_data it) p (si_next it).
Definition set_next (p : ptr) (it : storedItem) : storedItem :=
  StoredItem (si_data it) (si_prev it) p.
Definition set_data (d : entry) (it : storedItem) : storedItem :=
  StoredItem d (si_prev it) (si_next it).

Record lruList := LruList { head : ptr; tail : ptr }.

(** The memory the list methods work on: the cells and the list header. *)
Record lruState := LruState { l_heap : gmap loc storedItem; l_list : lruList }.

(** ** Memory access *)

(** Read a cell: [*p]. *)
Definition load (p : loc) : M lruState storedItem :=
  h ← gets l_heap; must (h !! p).

(** Update fields of a cell: [p.f = v]. *)
Definition update (p : loc) (f : storedItem -> storedItem) : M lruState unit :=
  it ← load p;
  modify (fun s => LruState (<[p := f it]> (l_heap s)) (l_list s)).

Definition set_head (p : ptr) : M lruState unit :=
  modify (fun s => LruState (l_heap s) (LruList p (tail (l_list s)))).
Definition set_tail (p : ptr) : M lruState unit :=
  modify (fun s => LruState (l_heap s) (LruList (head (l_list s)) p)).
Definition get_head : M lruState ptr := gets (fun s => head (l_list s)).
Definition get_tail : M lruState ptr := gets (fun s => tail (l_list s)).

(** ** Methods *)

Definition pushFront (item : loc) : M lruState unit :=
  update item (set_prev None) ;;
  hd ← get_head;
  update item (set_next hd) ;;
  (match hd with
   | Some h => update h (set_prev (Some item))
   | None => mret tt
   end) ;;
  set_head (Some item) ;;
  tl ← get_tail;
  match tl with
  | None => set_tail (Some item)
  | Some _ => mret tt
  end.

Definition remove (item : loc) : M lruState unit :=
  it ← load item;
  (match si_prev it with
   | Some p => update p (set_next (si_next it))
   | None => set_head (si_next it)
   end) ;;
  it ← load item;
  (match si_next it with
   | Some n => update n (set_prev (si_prev it))
   | None => set_tail (si_prev it)
   end) ;;
  update item (set_prev None) ;;
  update item (set_next None).

Definition moveToFront (item : loc) : M lruState unit :=
  hd ← get_head;
  if decide (hd = Some item) then mret tt
  else remove item ;; pushFront item.

Definition back : M lruState ptr := get_tail.

(** ** Representation *)

(** [dll h pp p xs q qn]: starting at pointer [p], whose predecessor is [pp],
    the cells [xs] are linked in this order both ways; [q] is the last of them
    and [qn] what follows it. *)
Fixpoint dll (h : gmap loc storedItem) (pp p : ptr) (xs : list loc) (q qn : ptr) : Prop :=
  match xs with
  | [] => p = qn /\ q = pp
  | x :: xs' => p = Some x /\
      exists it, h !! x = Some it /\ si_prev it = pp /\ dll h (Some x) (si_next it) xs' q qn
  end.

(** The list header and the heap represent the sequence [xs]. *)
Definition lru_repr (s : lruState) (xs : list loc) : Prop :=
  NoDup xs /\ dll (l_heap s) None (head (l_list s)) xs (tail (l_list s)) None.

(** Everything but the links. *)
Definition payloads (h : gmap loc storedItem) : gmap loc entry := si_data <$> h.

Lemma payloads_lookup h p it : h !! p = Some it -> payloads h !! p = Some (si_data it).
Proof. intros H. unfold payloads. by rewrite lookup_fmap, H. Qed.

Lemma payloads_lookup_inv h p e :
  payloads h !! p = Some e -> exists it, h !! p = Some it /\ si_data it = e.
Proof. unfold payloads. rewrite lookup_fmap. intros (it & H & ->)%fmap_Some. eauto. Qed.

Lemma payloads_update h p it f :
  h !! p = Some it -> payloads (<[p := f it]> h) = <[p := si_data (f it)]> (payloads h).
Proof. intros. unfold payloads. by rewrite fmap_insert. Qed.

(** An update of links only changes no payload. *)
Lemma payloads_link h p it f :
  h !! p = Some it -> si_data (f it) = si_data it -> payloads (<[p := f it]> h) = payloads h.
Proof.
  intros H Hf. rewrite (payloads_update _ _ _ _ H), Hf.
  by apply insert_id, payloads_lookup.
Qed.

(** ** Segment lemmas *)

Lemma dll_app h pp p xs ys q qn :
  dll h pp p (xs ++ ys) q qn <->
  exists j jn, dll h pp p xs j jn /\ dll h j jn ys q qn.
Proof.
  revert pp p. induction xs as [|x xs IH]; intros pp p; simpl.
  - split; [intros; by exists pp, p|]. by intros (j & jn & [-> ->] & ?).
  - setoid_rewrite IH. split.
    + intros (-> & it & ? & ? & j & jn & ? & ?). eauto 10.
    + intros (j & jn & (-> & it & ? & ? & ?) & ?). eauto 10.
Qed.

(** Cells outside a segment may change freely. *)
Lemma dll_frame h h' pp p xs q qn :
  (forall x, x ∈ xs -> h' !! x = h !! x) -> dll h pp p xs q qn -> dll h' pp p xs q qn.
Proof.
  revert pp p. induction xs as [|x xs IH]; intros pp p Hf; simpl; [done|].
  intros (-> & it & Hx & Hp & Hd). split; [done|]. exists it.
  rewrite Hf by set_solver. repeat split; auto. apply IH; set_solver.
Qed.

Lemma dll_insert_ne h x it pp p xs q qn :
  x ∉ xs -> dll h pp p xs q qn -> dll (<[x := it]> h) pp p xs q qn.
Proof.
  intros Hx. apply dll_frame. intros y Hy. apply lookup_insert_ne. set_solver.
Qed.

(** The links of a segment do not depend on payloads. *)
Lemma dll_set_data h x it d pp p xs q qn :
  h !! x = Some it ->
  dll h pp p xs q qn -> dll (<[x := set_data d it]> h) pp p xs q qn.
Proof.
  intros Hx. revert pp p. induction xs as [|y xs IH]; intros pp p; simpl; [done|].
  intros (-> & it' & Hy & Hp & Hd). split; [done|].
  destruct (decide (x = y)) as [->|].
  - simplify_eq. exists (set_data d it). rewrite lookup_insert_eq. auto.
  - exists it'. rewrite lookup_insert_ne by done. auto.
Qed.

Lemma dll_lookup h pp p xs q qn x :
  dll h pp p xs q qn -> x ∈ xs -> is_Some (h !! x).
Proof.
  intros Hd Hx. apply list_elem_of_split in Hx as (l1 & l2 & ->).
  apply dll_app in Hd as (j & jn & _ & (_ & it & ? & _)). eauto.
Qed.

(** Redirecting the predecessor pointer of a non-empty segment. *)
Lemma dll_relink_prev h pp pp' p x xs q qn it :
  x ∉ xs -> h !! x = Some it -> dll h pp p (x :: xs) q qn ->
  dll (<[x := set_prev pp' it]> h) pp' p (x :: xs) q qn.
Proof.
  intros Hx Hit (-> & it' & Hit' & _ & Hd). simplify_eq. split; [done|].
  exists (set_prev pp' it). rewrite lookup_insert_eq. repeat split.
  by apply dll_insert_ne.
Qed.

(** Redirecting the successor pointer of a segment that ends in [x]. *)
Lemma dll_relink_next h pp p xs x q qn qn' it :
  x ∉ xs -> h !! x = Some it -> dll h pp p (xs ++ [x]) q qn ->
  dll (<[x := set_next qn' it]> h) pp p (xs ++ [x]) q qn'.
Proof.
  intros Hx Hit (j & jn & H1 & H2)%dll_app. apply dll_app. exists j, jn.
  split; [by apply dll_insert_ne|].
  destruct H2 as (-> & it' & Hit' & Hp & [_ ->]). simplify_eq.
  split; [done|]. exists (set_next qn' it). by rewrite lookup_insert_eq.
Qed.

Lemma dll_last h p xs q : dll h None p xs q None -> q = last xs.
Proof.
  destruct xs as [|x xs _] using rev_ind; [by intros [_ ->]|].
  intros (j & jn & _ & (_ & it & _ & _ & [_ ->]))%dll_app.
  by rewrite last_snoc.
Qed.

Lemma dll_head h pp p xs q : dll h pp p xs q None -> p = list.head xs.
Proof. destruct xs; [by intros [-> _]|by intros [-> _]]. Qed.

(** ** Method specifications *)

Lemma wp_load p s it Q : l_heap s !! p = Some it -> Q it s -> wp (load p) s Q.
Proof. intros H HQ. unfold load. wp_steps. by eapply wp_must. Qed.

Lemma wp_update p f s it Q :
  l_heap s !! p = Some it ->
  Q tt (LruState (<[p := f it]> (l_heap s)) (l_list s)) ->
  wp (update p f) s Q.
Proof. intros H HQ. unfold update. wp_steps. eapply wp_load; [done|]. by wp_steps. Qed.

(** [pushFront] puts a cell that is not in the list before its first one. *)
Lemma pushFront_ok s xs item it :
  lru_repr s xs -> item ∉ xs -> l_heap s !! item = Some it ->
  wp (pushFront item) s (fun _ s' =>
    lru_repr s' (item :: xs) /\ payloads (l_heap s') = payloads (l_heap s)).
Proof.
  destruct s as [h [hd tl]]. intros [Hnd Hd] Hx Hit. simpl in *.
  unfold pushFront, get_head, get_tail, set_head, set_tail.
  wp_steps. eapply wp_update; [exact Hit|]. wp_steps. simpl.
  eapply wp_update; [simpl; by rewrite lookup_insert_eq|]. simpl. rewrite insert_insert_eq.
  set (it' := set_next hd (set_prev None it)).
  assert (Hpay : payloads (<[item := it']> h) = payloads h).
  { by apply (payloads_link h item it (fun it => set_next hd (set_prev None it))). }
  destruct xs as [|y xs].
  - destruct Hd as [-> ->]. wp_steps. simpl. wp_steps.
    split; [split; [apply NoDup_singleton|]|done]. simpl. split; [done|].
    exists it'. by rewrite lookup_insert_eq.
  - pose proof (dll_lookup _ _ _ _ _ _ y Hd ltac:(set_solver)) as [ity Hity].
    assert (hd = Some y) as -> by apply Hd. wp_steps.
    assert (Hne : item <> y) by set_solver.
    eapply wp_update; [simpl; by rewrite lookup_insert_ne|].
    wp_steps. simpl. pose proof (dll_last _ _ _ _ Hd) as Htl.
    destruct tl as [z|]; [|by rewrite last_cons in Htl; destruct (last xs)]. wp_steps.
    apply NoDup_cons in Hnd as HndC. destruct HndC as [Hy Hxs].
    split; [split; [by apply NoDup_cons|]|].
    + simpl. split; [done|]. exists it'.
      rewrite lookup_insert_ne, lookup_insert_eq by done. repeat split.
      eapply (dll_relink_prev _ None (Some item)); [done|by rewrite lookup_insert_ne|].
      by apply dll_insert_ne.
    + simpl. rewrite (payloads_link _ y ity); [done|by rewrite lookup_insert_ne|done].
Qed.

(** Two memory states differ only in the links of the cells [xs]. *)
Definition links_only (xs : list loc) (s s' : lruState) : Prop :=
  (forall x, x ∉ xs -> l_heap s' !! x = l_heap s !! x) /\
  payloads (l_heap s') = payloads (l_heap s).

(** First half of [remove]: the predecessor, or the header, skips to [n]. *)
Lemma unlink_prev_ok s l1 j jn n :
  NoDup l1 -> dll (l_heap s) None (head (l_list s)) l1 j jn ->
  wp (match j with
      | Some p => update p (set_next n)
      | None => set_head n
      end) s (fun _ s' =>
    dll (l_heap s') None (head (l_list s')) l1 j n /\
    tail (l_list s') = tail (l_list s) /\ links_only l1 s s').
Proof.
  destruct s as [h [hd tl]]. simpl. intros Hnd Hd.
  destruct l1 as [|p l1 _] using rev_ind.
  - destruct Hd as [-> ->]. unfold set_head. wp_steps. done.
  - apply NoDup_app in Hnd as (_ & Hp & _).
    assert (p ∉ l1) by (intros ?; eapply Hp; set_solver).
    pose proof Hd as (j' & jn' & _ & (_ & it & Hit & _ & [_ ->]))%dll_app.
    eapply wp_update; [exact Hit|]. simpl. split; [|split; [done|split; simpl]].
    + by eapply dll_relink_next.
    + intros x Hx. apply lookup_insert_ne. set_solver.
    + by apply (payloads_link _ p it).
Qed.

(** Second half of [remove]: the successor, or the header, points back to [j]. *)
Lemma unlink_next_ok s l2 j jn n :
  NoDup l2 -> dll (l_heap s) j n l2 (tail (l_list s)) None ->
  wp (match n with
      | Some p => update p (set_prev jn)
      | None => set_tail jn
      end) s (fun _ s' =>
    dll (l_heap s') jn n l2 (tail (l_list s')) None /\
    head (l_list s') = head (l_list s) /\ links_only l2 s s').
Proof.
  destruct s as [h [hd tl]]. simpl. intros Hnd Hd. destruct l2 as [|p l2].
  - destruct Hd as [-> ->]. unfold set_tail. wp_steps. done.
  - apply NoDup_cons in Hnd as [Hp _]. pose proof Hd as (-> & it & Hit & _).
    eapply wp_update; [exact Hit|]. simpl. split; [|split; [done|split; simpl]].
    + by eapply dll_relink_prev.
    + intros x Hx. apply lookup_insert_ne. set_solver.
    + by apply (payloads_link _ p it).
Qed.

(** [remove] unlinks one cell and keeps the order of the others. *)
Lemma remove_ok s l1 l2 item :
  lru_repr s (l1 ++ item :: l2) ->
  wp (remove item) s (fun _ s' =>
    lru_repr s' (l1 ++ l2) /\ payloads (l_heap s') = payloads (l_heap s)).
Proof.
  intros [Hnd Hd]. apply dll_app in Hd as (j & jn & H1 & (-> & it & Hit & <- & H2)).
  apply NoDup_app in Hnd as (N1 & N12 & [Hx N2]%NoDup_cons).
  assert (Hx1 : item ∉ l1) by (intros ?; eapply N12; set_solver).
  assert (Hd12 : forall x, x ∈ l1 -> x ∉ l2) by (intros x ??; eapply N12; set_solver).
  unfold remove. wp_steps. eapply wp_load; [exact Hit|]. wp_steps.
  wp_use (unlink_prev_ok s l1 _ _ (si_next it) N1 H1).
  intros _ s1 (D1 & T1 & F1 & P1). cbn beta. wp_steps.
  eapply wp_load; [by rewrite F1|]. wp_steps.
  wp_use (unlink_next_ok s1 l2 (Some item) (si_prev it) (si_next it) N2).
  { rewrite T1. eapply dll_frame; [|exact H2]. intros y Hy. apply F1. intros ?. by eapply Hd12. }
  intros _ s2 (D2 & T2 & F2 & P2). cbn beta.
  assert (Hit2 : l_heap s2 !! item = Some it) by by rewrite F2, F1.
  wp_steps. eapply wp_update; [exact Hit2|]. wp_steps.
  eapply wp_update; [simpl; by rewrite lookup_insert_eq|]. simpl.
  rewrite insert_insert_eq. split; [split; simpl|].
  - apply NoDup_app. split_and!; auto.
  - apply dll_insert_ne; [set_solver|]. apply dll_app. exists (si_prev it), (si_next it).
    split; [|done]. rewrite T2. eapply dll_frame; [|exact D1]. intros y Hy. apply F2. by apply Hd12.
  - rewrite <- P1, <- P2. by apply (payloads_link _ item it (fun it => set_next None (set_prev None it))).
Qed.

(** [moveToFront] brings a cell of the list to its front. *)
Lemma moveToFront_ok s l1 l2 item :
  lru_repr s (l1 ++ item :: l2) ->
  wp (moveToFront item) s (fun _ s' =>
    lru_repr s' (item :: l1 ++ l2) /\ payloads (l_heap s') = payloads (l_heap s)).
Proof.
  intros Hr. unfold moveToFront, get_head. wp_steps. pose proof Hr as [Hnd Hd].
  pose proof (dll_head _ _ _ _ _ Hd) as Hh. case_decide as Hc.
  - wp_steps. destruct l1 as [|y l1]; [done|]. rewrite Hc in Hh. simplify_eq/=.
    apply NoDup_cons in Hnd as [Hn _]. set_solver.
  - wp_steps. wp_use (remove_ok s l1 l2 item Hr). intros _ s1 [R1 P1]. cbn beta.
    assert (is_Some (l_heap s1 !! item)) as [it1 Hit1].
    { destruct (dll_lookup _ _ _ _ _ _ item Hd ltac:(set_solver)) as [it Hit].
      apply payloads_lookup in Hit. rewrite <- P1 in Hit.
      apply payloads_lookup_inv in Hit as (? & ? & _). eauto. }
    wp_use (pushFront_ok s1 (l1 ++ l2) item it1 R1); [|done|].
    + apply NoDup_app in Hnd as (_ & N12 & [? _]%NoDup_cons). rewrite elem_of_app.
      intros [?|?]; [|done]. eapply N12; set_solver.
    + intros _ s2 [R2 P2]. split; [done|congruence].
Qed.

(** [back] is the last cell, the least recently used one. *)
Lemma back_ok s xs : lru_repr s xs -> wp back s (fun r s' => r = last xs /\ s' = s).
Proof. intros [_ Hd]. split; [by eapply dll_last|done]. Qed.

(** ** Sequences of list operations *)

Inductive lru_op := PushFront (p : loc) | Remove (p : loc) | MoveToFront (p : loc).

Definition run_lru_op (o : lru_op) : M lruState unit :=
  match o with
  | PushFront p => pushFront p
  | Remove p => remove p
  | MoveToFront p => moveToFront p
  end.

Fixpoint run_lru_ops (os : list lru_op) : M lruState unit :=
  match os with [] => mret tt | o :: os' => run_lru_op o ;; run_lru_ops os' end.

(** The same operations on a plain sequence. *)
Definition list_op (xs : list loc) (o : lru_op) : list loc :=
  match o with
  | PushFront p => p :: xs
  | Remove p => filter (fun x => x <> p) xs
  | MoveToFront p => p :: filter (fun x => x <> p) xs
  end.

(** The calls the shard makes: insert allocated cells that are not linked,
    unlink or refresh linked ones. *)
Definition op_allowed (s : lruState) (xs : list loc) (o : lru_op) : bool :=
  match o with
  | PushFront p => bool_decide (p ∉ xs) && bool_decide (is_Some (payloads (l_heap s) !! p))
  | Remove p | MoveToFront p => bool_decide (p ∈ xs)
  end.

Fixpoint ops_allowed (s : lruState) (xs : list loc) (os : list lru_op) : bool :=
  match os with
  | [] => true
  | o :: os' => op_allowed s xs o && ops_allowed s (list_op xs o) os'
  end.

Lemma filter_split (l1 l2 : list loc) (p : loc) :
  NoDup (l1 ++ p :: l2) -> filter (fun x => x <> p) (l1 ++ p :: l2) = l1 ++ l2.
Proof.
  intros (N1 & N12 & [Hp N2]%NoDup_cons)%NoDup_app.
  rewrite filter_app, filter_cons, decide_False by tauto. f_equal; apply filter_keep.
  - intros x Hx ->. eapply N12; set_solver.
  - intros x Hx ->. done.
Qed.

Lemma op_allowed_payloads s s' xs o :
  payloads (l_heap s') = payloads (l_heap s) -> op_allowed s' xs o = op_allowed s xs o.
Proof. intros Hp. destruct o; simpl; by rewrite ?Hp. Qed.

Lemma ops_allowed_payloads s s' os : forall xs,
  payloads (l_heap s') = payloads (l_heap s) -> ops_allowed s' xs os = ops_allowed s xs os.
Proof. induction os as [|o os IH]; intros xs Hp; simpl; [done|]. by rewrite (op_allowed_payloads s s'), IH. Qed.

Lemma run_lru_op_ok s xs o :
  lru_repr s xs -> op_allowed s xs o = true ->
  wp (run_lru_op o) s (fun _ s' =>
    lru_repr s' (list_op xs o) /\ payloads (l_heap s') = payloads (l_heap s)).
Proof.
  intros Hr Ho. destruct o as [p|p|p]; simpl in *.
  - apply andb_prop in Ho as [Hp%bool_decide_eq_true [e He]%bool_decide_eq_true].
    apply payloads_lookup_inv in He as (it & Hit & _). by eapply pushFront_ok.
  - apply bool_decide_eq_true in Ho as (l1 & l2 & ->)%list_elem_of_split.
    rewrite filter_split by apply Hr. by apply remove_ok.
  - apply bool_decide_eq_true in Ho as (l1 & l2 & ->)%list_elem_of_split.
    rewrite filter_split by apply Hr. by apply moveToFront_ok.
Qed.

Lemma run_lru_ops_ok os : forall s xs,
  lru_repr s xs -> ops_allowed s xs os = true ->
  wp (run_lru_ops os) s (fun _ s' =>
    lru_repr s' (fold_left list_op os xs) /\ payloads (l_heap s') = payloads (l_heap s)).
Proof.
  induction os as [|o os IH]; intros s xs Hr Ho; simpl in *; wp_steps; [done|].
  apply andb_prop in Ho as [Ho Hos]. wp_use (run_lru_op_ok s xs o Hr Ho).
  intros _ s1 [R1 P1]. cbn beta. rewrite <- (ops_allowed_payloads s s1) in Hos by done.
  wp_use (IH s1 _ R1 Hos). intros _ s2 [R2 P2]. split; [done|congruence].
Qed.

(** C21: The intrusive list refines a plain sequence: any run of [pushFront],
    [remove] and [moveToFront] calls with the shard's preconditions, from an
    empty list, dereferences no nil pointer, ends with links that represent
    the sequence computed by cons and filter, changes no other field of any
    item, and [back] then returns the last element. *)
Theorem lru_refines (h : gmap loc storedItem) (os : list lru_op) :
  ops_allowed (LruState h (LruList None None)) [] os = true ->
  exists s', run_lru_ops os (LruState h (LruList None None)) = Done (tt, s') /\
    lru_repr s' (fold_left list_op os []) /\ payloads (l_heap s') = payloads h /\
    back s' = Done (last (fold_left list_op os []), s').
Proof.
  intros Ho. destruct (wp_Done _ _ _ (run_lru_ops_ok os (LruState h (LruList None None)) []
    ltac:(split; [constructor|done]) Ho)) as ([] & s' & Hrun & Hr & Hp).
  exists s'. split_and!; [done..|]. apply back_ok in Hr as Hb.
  by apply wp_Done in Hb as (r & s2 & -> & -> & ->).
Qed.

Lemma lru_refines_witness :
  let h : gmap loc storedItem :=
    <[1%positive := StoredItem (Entry "a" "x" 0 2 1) None None]>
    (<[2%positive := StoredItem (Entry "b" "y" 0 2 2) None None]> ∅) in
  let os := [PushFront 1; PushFront 2; MoveToFront 1; Remove 2]%positive in
  exists s', run_lru_ops os (LruState h (LruList None None)) = Done (tt, s') /\
    lru_repr s' [1%positive] /\ payloads (l_heap s') = payloads h /\
    back s' = Done (Some 1%positive, s').
Proof.
  intros h os. apply (lru_refines h os). vm_compute. reflexivity.
Defined.
