(* ===== verification/Strconv.v ===== *)
(** * Decimal numbers ([strconv.ParseUint], [strconv.FormatUint], [fmt] verb [%d])

    The store and the parser read and print unsigned 64-bit numbers in base 10.
    [ParseUint] is the loop of Go's library at its width, with the cut-off test
    before the multiplication and the wrap-around test after the addition; the
    lemmas relate it to the value of a digit string and to [FormatUint]. *)

From S2P Require Import Prelude.

Definition is_digit (c : ascii) : bool := (48 <=? byteZ c) && (byteZ c <=? 57).
Definition digit_value (c : ascii) : Z := byteZ c - 48.
Definition digit_char (d : Z) : ascii := Zbyte (48 + d).

(** ** Parsing *)

Inductive num_error := ErrSyntax | ErrRange.

(** [cutoff] of [ParseUint] for base 10: the smallest [n] such that [n * 10]
    does not fit. *)
Definition cutoff : Z := MaxUint64 / 10 + 1.

Fixpoint ParseUint_loop (s : bytes) (n : Z) : Z + num_error :=
  match s with
  | [] => inl n
  | c :: s' =>
      if is_digit c then
        if cutoff <=? n then inr ErrRange
        else
          let n := uint64 (n * 10) in
          let n1 := uint64 (n + digit_value c) in
          if (n1 <? n) || (MaxUint64 <? n1) then inr ErrRange
          else ParseUint_loop s' n1
      else inr ErrSyntax
  end.

Definition ParseUint (s : bytes) : Z + num_error :=
  match s with
  | [] => inr ErrSyntax
  | _ => ParseUint_loop s 0
  end.

(** ** Printing *)

(** The digits of [n], most significant first; [fuel] bounds their number. *)
Fixpoint format_loop (fuel : nat) (n : Z) (acc : bytes) : bytes :=
  match fuel with
  | O => acc
  | S fuel' =>
      let acc := digit_char (n mod 10) :: acc in
      if n <? 10 then acc else format_loop fuel' (n / 10) acc
  end.

(** A [uint64] has at most 20 decimal digits. *)
Definition FormatUint (n : Z) : bytes := format_loop 20 n [].

(** [fmt]'s [%d] on a signed integer. *)
Definition FormatInt (n : Z) : bytes :=
  if n <? 0 then "-" ++ FormatUint (- n) else FormatUint n.

(** ** Values of digit strings *)

Definition dec_value (s : bytes) : Z :=
  foldl (fun n c => n * 10 + digit_value c) 0 s.

Lemma is_digit_range c : is_digit c = true -> 0 <= digit_value c <= 9.
Proof.
  unfold is_digit, digit_value. intros [?%Z.leb_le ?%Z.leb_le]%andb_prop. lia.
Qed.

Lemma digit_char_byteZ d : 0 <= d <= 9 -> byteZ (digit_char d) = 48 + d.
Proof. intros. unfold digit_char. apply byteZ_Zbyte. lia. Qed.

Lemma is_digit_char d : 0 <= d <= 9 -> is_digit (digit_char d) = true.
Proof.
  intros. unfold is_digit. rewrite digit_char_byteZ by done.
  apply andb_true_intro. split; apply Z.leb_le; lia.
Qed.

Lemma digit_value_char d : 0 <= d <= 9 -> digit_value (digit_char d) = d.
Proof. intros. unfold digit_value. rewrite digit_char_byteZ by done. lia. Qed.

Lemma dec_value_from s n :
  foldl (fun n c => n * 10 + digit_value c) n s = n * 10 ^ len s + dec_value s.
Proof.
  unfold dec_value. revert n. induction s as [|c s IH] using rev_ind; intros n.
  - unfold len. simpl. lia.
  - do 2 rewrite foldl_snoc. rewrite (IH n), len_snoc.
    rewrite Z.pow_add_r by (try apply len_nonneg; lia). lia.
Qed.

Lemma dec_value_nonneg s : forallb is_digit s = true -> 0 <= dec_value s.
Proof.
  unfold dec_value. induction s as [|c s IH] using rev_ind; [done|].
  rewrite forallb_app, foldl_snoc. intros [H1 H2]%andb_prop. simpl in H2.
  rewrite andb_true_r in H2. apply is_digit_range in H2. specialize (IH H1). lia.
Qed.

(** ** [ParseUint] *)

Lemma ParseUint_loop_spec s n v :
  0 <= n <= MaxUint64 ->
  ParseUint_loop s n = inl v <->
  forallb is_digit s = true /\
  v = foldl (fun n c => n * 10 + digit_value c) n s /\ v <= MaxUint64.
Proof.
  revert n. induction s as [|c s IH]; intros n Hn; simpl.
  { split; [intros [= <-]; lia|intros (_ & -> & _); done]. }
  destruct (is_digit c) eqn:Hc; [|split; [done|intros [? _]; done]].
  apply is_digit_range in Hc. simpl. change cutoff with 1844674407370955162.
  assert (Hgrow : forallb is_digit s = true ->
    n * 10 + digit_value c <= foldl (fun n c => n * 10 + digit_value c) (n * 10 + digit_value c) s).
  { intros Hs. rewrite dec_value_from. apply dec_value_nonneg in Hs.
    assert (0 < 10 ^ len s) by (apply Z.pow_pos_nonneg; [lia|apply len_nonneg]). nia. }
  assert (Hu : 0 <= n * 10 + digit_value c <= MaxUint64 \/ MaxUint64 < n * 10 + digit_value c) by lia.
  destruct (Z.leb_spec 1844674407370955162 n) as [Hcut|Hcut].
  { split; [done|]. intros (Hs & -> & Hv). exfalso. specialize (Hgrow Hs). unfold MaxUint64 in *. lia. }
  rewrite (uint64_id (n * 10)) by (unfold MaxUint64 in *; lia).
  destruct Hu as [Hu|Hu].
  - rewrite uint64_id by done. destruct (Z.ltb_spec (n * 10 + digit_value c) (n * 10)); [lia|].
    destruct (Z.ltb_spec MaxUint64 (n * 10 + digit_value c)); [lia|]. simpl. by apply IH.
  - assert (uint64 (n * 10 + digit_value c) < n * 10).
    { unfold uint64, MaxUint64 in *.
      replace (n * 10 + digit_value c) with (n * 10 + digit_value c - 2 ^ 64 + 1 * 2 ^ 64) by lia.
      rewrite Z.mod_add, Z.mod_small by lia. lia. }
    destruct (Z.ltb_spec (uint64 (n * 10 + digit_value c)) (n * 10)); [|lia]. simpl.
    split; [done|]. intros (Hs & -> & Hv). exfalso. specialize (Hgrow Hs). lia.
Qed.

(** [ParseUint] accepts exactly the non-empty digit strings whose value fits
    in 64 bits, and returns that value. *)
Lemma ParseUint_spec s v :
  ParseUint s = inl v <->
  s <> [] /\ forallb is_digit s = true /\ v = dec_value s /\ v <= MaxUint64.
Proof.
  unfold ParseUint. destruct s as [|c s]; [naive_solver|].
  rewrite ParseUint_loop_spec by (unfold MaxUint64; lia). naive_solver.
Qed.

Lemma ParseUint_range s v : ParseUint s = inl v -> 0 <= v <= MaxUint64.
Proof. intros (_ & H & -> & ?)%ParseUint_spec. split; [by apply dec_value_nonneg|done]. Qed.

(** ** [FormatUint] *)

Lemma format_loop_spec fuel n acc :
  0 <= n < 10 ^ Z.of_nat fuel -> (0 < fuel)%nat ->
  exists ds, format_loop fuel n acc = ds ++ acc /\ ds <> [] /\
    forallb is_digit ds = true /\ dec_value ds = n /\ (length ds <= fuel)%nat.
Proof.
  revert n acc. induction fuel as [|fuel IH]; intros n acc Hn Hf; [lia|]. simpl.
  pose proof (Z.mod_pos_bound n 10) as Hm.
  assert (Hd : is_digit (digit_char (n mod 10)) = true) by (apply is_digit_char; lia).
  assert (Hv : digit_value (digit_char (n mod 10)) = n mod 10) by (apply digit_value_char; lia).
  destruct (Z.ltb_spec n 10).
  - exists [digit_char (n mod 10)]. unfold dec_value. simpl. rewrite Hd, Hv.
    rewrite Z.mod_small by lia. split_and!; [done..|lia|lia].
  - rewrite Nat2Z.inj_succ, Z.pow_succ_r in Hn by lia.
    destruct (IH (n / 10) (digit_char (n mod 10) :: acc)) as (ds & -> & _ & Hds & Hval & Hlen).
    + split; [apply Z.div_pos; lia|apply Z.div_lt_upper_bound; lia].
    + destruct fuel; [|lia]. change (10 ^ Z.of_nat 0) with 1 in Hn. lia.
    + exists (ds ++ [digit_char (n mod 10)]). rewrite <- app_assoc.
      split_and!; [done|by destruct ds|..].
      * rewrite forallb_app, Hds. simpl. by rewrite Hd.
      * unfold dec_value. rewrite foldl_snoc. fold (dec_value ds). rewrite Hval, Hv.
        pose proof (Z.div_mod n 10). lia.
      * rewrite length_app. simpl. lia.
Qed.

Lemma FormatUint_spec n :
  0 <= n <= MaxUint64 ->
  FormatUint n <> [] /\ forallb is_digit (FormatUint n) = true /\
  dec_value (FormatUint n) = n /\ (length (FormatUint n) <= 20)%nat.
Proof.
  intros Hn. unfold FormatUint.
  destruct (format_loop_spec 20 n []) as (ds & -> & H); [|lia|by rewrite app_nil_r].
  unfold MaxUint64 in Hn. change (10 ^ Z.of_nat 20) with 100000000000000000000. lia.
Qed.

Lemma ParseUint_FormatUint n : 0 <= n <= MaxUint64 -> ParseUint (FormatUint n) = inl n.
Proof.
  intros Hn. apply ParseUint_spec.
  destruct (FormatUint_spec n Hn) as (? & ? & ? & ?). split_and!; [done..|lia].
Qed.
