(* ===== verification/Float64.v ===== *)
(** * [float64]

    The few floating-point operations of the code, exactly: IEEE 754 binary64,
    round to nearest even, computed by the Standard Library's [SpecFloat]. *)

From Stdlib Require Import SpecFloat.
From S2P Require Import Prelude.

Abbreviation float64 := spec_float.

Definition fadd : float64 -> float64 -> float64 := SFadd 53 1024.
Definition fmul : float64 -> float64 -> float64 := SFmul 53 1024.
Definition fdiv : float64 -> float64 -> float64 := SFdiv 53 1024.
Definition fltb : float64 -> float64 -> bool := SFltb.

(** [float64(n)] of an integer. *)
Definition of_int (n : Z) : float64 := binary_normalize 53 1024 n 0 false.

(** The integers around a finite number: floor and ceiling. *)
Definition scaled (m e : Z) : Z := if 0 <=? e then m * 2 ^ e else m / 2 ^ (- e).
Definition signed (s : bool) (m : positive) : Z := if s then Zneg m else Zpos m.

(** What a conversion to an integer gives where the value is not one of that
    type; the language leaves it open, this is what amd64 does. *)
Definition indefinite : Z := - 2 ^ 63.

(** [int64(x)], [int(x)]: truncation toward zero. *)
Definition to_int (x : float64) : Z :=
  match x with
  | S754_zero _ => 0
  | S754_finite s m e =>
      let n := scaled (Zpos m) e in
      let n := if s then - n else n in
      if (- 2 ^ 63 <=? n) && (n <=? MaxInt64) then n else indefinite
  | _ => indefinite
  end.

(** [int(math.Ceil(x))]. *)
Definition ceil_to_int (x : float64) : Z :=
  match x with
  | S754_zero _ => 0
  | S754_finite s m e =>
      let n := - scaled (- signed s m) e in
      if (- 2 ^ 63 <=? n) && (n <=? MaxInt64) then n else indefinite
  | _ => indefinite
  end.

(** [time.Duration.Seconds]. *)
Definition Seconds (d : Z) : float64 :=
  fadd (of_int (Z.quot d 1000000000)) (fdiv (of_int (Z.rem d 1000000000)) (of_int 1000000000)).

Example seconds_examples :
  map (fun d => to_int (Seconds d)) [0; 999999999; 1000000000; 59999999999; -1500000000] = [0; 0; 1; 59; -1].
Proof. vm_compute. reflexivity. Qed.

Example ceil_examples :
  map ceil_to_int [fdiv (of_int 7) (of_int 2); fdiv (of_int (-7)) (of_int 2); of_int 4] = [4; -3; 4].
Proof. vm_compute. reflexivity. Qed.
