(* ===== verification/Rounding.v ===== *)
(** * Rounding to nearest even

    What the [float64] operations of [Float64] compute, stated over integers:
    the product or quotient of two numbers is the integer nearest to the exact
    rational on a grid of powers of two.  Comparisons and conversions of such
    results then reduce to integer arithmetic. *)

From Stdlib Require Import SpecFloat.
From S2P Require Import Prelude Float64.

(** ** The nearest integer *)

(** [N] is the integer nearest to [P / D]; halfway it is even. *)
Definition nearest (N P D : Z) : Prop :=
  - D <= 2 * (N * D - P) <= D /\ (Z.abs (2 * (N * D - P)) = D -> Z.even N = true).

(** Rounding is monotonic against integers. *)
Lemma nearest_le N P D K : 0 < D -> nearest N P D -> P <= K * D -> N <= K.
Proof. intros HD [Hn _] HP. assert (N * D < (K + 1) * D) by lia. nia. Qed.

Lemma nearest_ge N P D K : 0 < D -> nearest N P D -> K * D <= P -> K <= N.
Proof. intros HD [Hn _] HP. assert (K * D < (N + 1) * D) by lia. nia. Qed.

Lemma nearest_exact N K D : 0 < D -> nearest N (K * D) D -> N = K.
Proof.
  intros HD Hn. pose proof (nearest_le N (K * D) D K HD Hn ltac:(lia)).
  pose proof (nearest_ge N (K * D) D K HD Hn ltac:(lia)). lia.
Qed.

(** ** The shift register

    [located r P D]: the register holds [P / D], its integer part exactly and
    the rest as a round and a sticky bit. *)

Definition located (r : shr_record) (P D : Z) : Prop :=
  let rest := P - shr_m r * D in
  0 < D /\ 0 <= shr_m r /\ 0 <= rest < D /\
  match shr_r r, shr_s r with
  | false, false => rest = 0
  | false, true => 0 < 2 * rest < D
  | true, false => 2 * rest = D
  | true, true => D < 2 * rest
  end.

Lemma shr_1_located r P D : located r P D -> located (shr_1 r) P (2 * D).
Proof.
  intros (HD & Hm & Hr & Hb). destruct r as [m b s]. cbn [shr_m shr_r shr_s] in *. unfold located.
  destruct m as [|[p|p|]|p]; [| | | |lia]; destruct b, s; cbn [shr_1 orb shr_m shr_r shr_s]; split_and!; lia.
Qed.

Lemma iter_pos_located p : forall r P D, located r P D -> located (SpecFloat.iter_pos shr_1 p r) P (2 ^ Zpos p * D).
Proof.
  induction p as [p IH|p IH|]; intros r P D Hr; cbn [SpecFloat.iter_pos].
  - replace (2 ^ Zpos p~1 * D) with (2 ^ Zpos p * (2 ^ Zpos p * (2 * D))).
    + by apply IH, IH, shr_1_located.
    + replace (Zpos p~1) with (Zpos p + Zpos p + 1) by lia. rewrite !Z.pow_add_r by lia. lia.
  - replace (2 ^ Zpos p~0 * D) with (2 ^ Zpos p * (2 ^ Zpos p * D)); [by apply IH, IH|].
    replace (Zpos p~0) with (Zpos p + Zpos p) by lia. rewrite Z.pow_add_r by lia. lia.
  - by apply shr_1_located.
Qed.

Lemma located_nearest r P D : located r P D -> nearest (round_nearest_even (shr_m r) (loc_of_shr_record r)) P D.
Proof.
  intros (HD & Hm & Hr & Hb). destruct r as [m b s]. cbn [shr_m shr_r shr_s] in *. unfold nearest.
  destruct b, s; cbn [loc_of_shr_record round_nearest_even].
  - split; lia.
  - destruct (Z.even m) eqn:E; (split; [lia|intros _]); [done|]. by rewrite Z.even_add, E.
  - split; lia.
  - split; lia.
Qed.

Lemma exact_located m D : 0 <= m -> 0 < D -> located (shr_record_of_loc m loc_Exact) (m * D) D.
Proof. intros. unfold located. cbn. lia. Qed.

(** ** Digits *)

Lemma digits_spec p : 2 ^ (Zpos (digits2_pos p) - 1) <= Zpos p < 2 ^ Zpos (digits2_pos p).
Proof.
  induction p as [p IH|p IH|]; cbn [digits2_pos]; [| |done].
  all: rewrite Pos2Z.inj_succ; set (d := Zpos (digits2_pos p)) in *; assert (0 < d) by (subst d; lia).
  all: replace (Z.succ d - 1) with (Z.succ (d - 1)) by lia; rewrite !Z.pow_succ_r by lia; lia.
Qed.

Lemma digits_unique p k : 0 < k -> 2 ^ (k - 1) <= Zpos p < 2 ^ k -> Zpos (digits2_pos p) = k.
Proof.
  intros Hk Hp. pose proof (digits_spec p) as Hd. set (d := Zpos (digits2_pos p)) in *.
  destruct (Z.lt_trichotomy d k) as [H|[H|H]]; [|done|].
  - pose proof (Z.pow_le_mono_r 2 d (k - 1)). lia.
  - pose proof (Z.pow_le_mono_r 2 k (d - 1)). lia.
Qed.

(** ** Rounding *)

Abbreviation digits p := (Zpos (digits2_pos p)).

(** A mantissa of [float64] with its leading bit. *)
Definition normal (m : positive) : Prop := 2 ^ 52 <= Zpos m < 2 ^ 53.

(** The number with mantissa [m] and exponent [e] is [N] on the grid [2 ^ g]. *)
Definition on_grid (N g : Z) (m : positive) (e : Z) : Prop :=
  normal m /\ 2 ^ 52 <= N <= 2 ^ 53 /\ g <= e <= g + 1 /\ N = Zpos m * 2 ^ (e - g).

Lemma digits_ge p k : 0 <= k -> 2 ^ k <= Zpos p -> k < digits p.
Proof.
  intros Hk Hp. pose proof (digits_spec p) as [_ Hd]. apply (Z.pow_lt_mono_r_iff 2); lia.
Qed.

Lemma digits_le p k : 0 <= k -> Zpos p < 2 ^ k -> digits p <= k.
Proof.
  intros Hk Hp. pose proof (digits_spec p) as [Hd _].
  assert (digits p - 1 < k) by (apply (Z.pow_lt_mono_r_iff 2); lia). lia.
Qed.

Lemma shr_fexp_located m e l P D :
  located (shr_record_of_loc m l) P D -> 53 <= Zdigits2 m -> -900 <= e ->
  let k := Zdigits2 m - 53 in
  exists r, shr_fexp 53 1024 m e l = (r, e + k) /\ located r P (2 ^ k * D).
Proof.
  intros Hl Hd He k. unfold shr_fexp, fexp, emin.
  replace (Z.max (Zdigits2 m + e - 53) (3 - 1024 - 53) - e) with k by lia.
  destruct k as [|p|p] eqn:E; [rewrite Z.add_0_r| |lia]; cbn [shr]; eexists; (split; [reflexivity|]).
  - by rewrite Z.mul_1_l.
  - by apply iter_pos_located.
Qed.

(** The integer part after the shift has exactly 53 digits, so rounding gives
    at most [2 ^ 53]. *)
Lemma shifted_bounds m0 l P D r k :
  0 <= k -> digits m0 = 53 + k -> located (shr_record_of_loc (Zpos m0) l) P D -> located r P (2 ^ k * D) ->
  2 ^ 52 <= shr_m r < 2 ^ 53.
Proof.
  intros Hk Hd (HD & _ & Hm & _) (HD' & Hr & Hrest & _).
  pose proof (digits_spec m0) as Hs. rewrite Hd in Hs.
  replace (53 + k - 1) with (52 + k) in Hs by lia. rewrite !Z.pow_add_r in Hs by lia.
  assert (Hpk : 0 < 2 ^ k) by (apply Z.pow_pos_nonneg; lia).
  assert (Em : shr_m (shr_record_of_loc (Zpos m0) l) = Zpos m0) by (by destruct l as [|[]]).
  rewrite Em in Hm. set (x := shr_m r) in *. split.
  - assert (2 ^ 52 * (2 ^ k * D) < (x + 1) * (2 ^ k * D)) by nia. nia.
  - assert (x * (2 ^ k * D) < 2 ^ 53 * (2 ^ k * D)) by nia. nia.
Qed.

Lemma round_aux_correct m0 ex l P D :
  53 <= digits m0 <= 120 -> -900 <= ex <= 800 -> located (shr_record_of_loc (Zpos m0) l) P D ->
  let k := digits m0 - 53 in
  exists N m e, binary_round_aux 53 1024 false (Zpos m0) ex l = S754_finite false m e /\
    nearest N P (2 ^ k * D) /\ on_grid N (ex + k) m e.
Proof.
  intros Hd He Hl k. unfold binary_round_aux.
  destruct (shr_fexp_located (Zpos m0) ex l P D Hl ltac:(cbn; lia) ltac:(lia)) as (r & -> & Hr).
  fold k in Hr. change (Zdigits2 (Zpos m0) - 53) with k.
  pose proof (shifted_bounds m0 l P D r k ltac:(lia) ltac:(lia) Hl Hr) as Hb.
  pose proof (located_nearest _ _ _ Hr) as Hn.
  set (N := round_nearest_even _ _) in *.
  assert (HN : 2 ^ 52 <= N <= 2 ^ 53).
  { unfold N, round_nearest_even. destruct (loc_of_shr_record r) as [|[]]; [lia| |lia|lia].
    destruct (Z.even (shr_m r)); lia. }
  destruct N as [|p|p] eqn:E; [lia| |lia].
  destruct (Z.eq_dec (Zpos p) (2 ^ 53)) as [Htop|Htop].
  - assert (Hp : p = (2 ^ 53)%positive) by (apply Pos2Z.inj; rewrite Htop; reflexivity).
    unfold shr_fexp, fexp, emin. rewrite Hp.
    replace (Z.max _ _ - (ex + k)) with 1 by (cbn [Zdigits2]; change (digits (2 ^ 53)) with 54; lia).
    cbn -[Z.leb Z.add]. destruct (Z.leb_spec (ex + k + 1) (1024 - 53)); [|lia].
    eexists (2 ^ 53)%Z, _, _. split; [reflexivity|]. split; [by rewrite <- Htop|]. unfold on_grid, normal.
    replace (ex + k + 1 - (ex + k)) with 1 by lia. split_and!; try lia; reflexivity.
  - assert (Hdp : digits p = 53) by (apply digits_unique; [lia|]; change (2 ^ (53 - 1)) with (2 ^ 52); lia).
    destruct (shr_fexp_located (Zpos p) (ex + k) loc_Exact (Zpos p * 1) 1 (exact_located (Zpos p) 1 ltac:(lia) ltac:(lia))
      ltac:(cbn [Zdigits2]; lia) ltac:(lia)) as (r' & -> & Hr').
    cbn [Zdigits2] in *. rewrite Hdp in *. change (53 - 53) with 0 in *. rewrite Z.add_0_r.
    assert (Em : shr_m r' = Zpos p).
    { destruct Hr' as (_ & _ & Hrest & _). change (2 ^ 0 * 1) with 1 in Hrest. lia. }
    rewrite Em. destruct (Z.leb_spec (ex + k) (1024 - 53)); [|lia].
    exists (Zpos p), p, (ex + k). split_and!; [done..|]. unfold on_grid, normal. rewrite Z.sub_diag. split_and!; lia.
Qed.

(** ** Integers *)

Lemma iter_xO p d : Zpos (Pos.iter xO p d) = Zpos p * 2 ^ Zpos d.
Proof.
  induction d as [|d IH] using Pos.peano_ind; [cbn; lia|].
  rewrite Pos.iter_succ, Pos2Z.inj_xO, IH, Pos2Z.inj_succ, Z.pow_succ_r by lia. lia.
Qed.

(** Integers below [2 ^ 53] are represented exactly. *)
Lemma of_int_exact n : 0 < n < 2 ^ 53 ->
  exists m e, of_int n = S754_finite false m e /\ normal m /\ -52 <= e <= 0 /\ Zpos m = n * 2 ^ (- e).
Proof.
  intros Hn. destruct n as [|p|p]; [lia| |lia]. unfold of_int, binary_normalize, binary_round.
  pose proof (digits_spec p) as Hs. pose proof (digits_le p 53 ltac:(lia) ltac:(lia)) as Hle.
  set (d := digits p) in *. assert (Hd : 0 < d) by (subst d; lia). unfold fexp, emin.
  replace (Z.max (d + 0 - 53) (3 - 1024 - 53)) with (d - 53) by lia.
  assert (Hmz : exists mz, shl_align p 0 (d - 53) = (mz, d - 53) /\ Zpos mz = Zpos p * 2 ^ (53 - d) /\ normal mz).
  { assert (Hnorm : 2 ^ 52 <= Zpos p * 2 ^ (53 - d) < 2 ^ 53).
    { replace 52 with ((d - 1) + (53 - d)) by lia. replace (2 ^ 53) with (2 ^ (d + (53 - d))) by (f_equal; lia).
      rewrite !Z.pow_add_r by lia. assert (0 < 2 ^ (53 - d)) by (apply Z.pow_pos_nonneg; lia). nia. }
    unfold shl_align. destruct (d - 53 - 0) as [|q|q] eqn:E; [|lia|].
    - assert (d = 53) as -> by lia. exists p. split_and!; [done|lia|]. unfold normal. cbn in Hnorm. lia.
    - exists (Pos.iter xO p q). rewrite iter_xO. replace (Zpos q) with (53 - d) by lia.
      split_and!; [done..|]. unfold normal. by rewrite iter_xO; replace (Zpos q) with (53 - d) by lia. }
  destruct Hmz as (mz & -> & Hz & Hnorm).
  assert (Hdz : digits mz = 53) by (apply digits_unique; [lia|apply Hnorm]).
  destruct (round_aux_correct mz (d - 53) loc_Exact (Zpos mz * 1) 1 ltac:(lia) ltac:(lia)
    (exact_located (Zpos mz) 1 ltac:(lia) ltac:(lia))) as (N & m & e & -> & HN & Hm & _ & He & EN).
  rewrite Hdz in *. change (2 ^ (53 - 53) * 1) with 1 in HN. apply nearest_exact in HN; [|lia].
  exists m, e. split; [done|]. split; [done|]. unfold normal in *.
  destruct (Z.eq_dec e (d - 53)) as [->|].
  - replace (d - 53 - (d - 53 + (53 - 53))) with 0 in EN by lia. rewrite Z.pow_0_r in EN.
    replace (- (d - 53)) with (53 - d) by lia. lia.
  - replace (e - (d - 53 + (53 - 53))) with 1 in EN by lia. lia.
Qed.

(** ** Products and quotients *)

Lemma fmul_correct m1 e1 m2 e2 :
  normal m1 -> normal m2 -> -900 <= e1 + e2 <= 800 ->
  exists N m e k, fmul (S754_finite false m1 e1) (S754_finite false m2 e2) = S754_finite false m e /\
    nearest N (Zpos m1 * Zpos m2) (2 ^ k) /\ 52 <= k <= 53 /\ on_grid N (e1 + e2 + k) m e.
Proof.
  intros H1 H2 He. unfold fmul, SFmul. cbn [xorb]. unfold normal in H1, H2.
  assert (Hlo : 2 ^ 104 <= Zpos (m1 * m2)) by (change (2 ^ 104) with (2 ^ 52 * 2 ^ 52); nia).
  assert (Hhi : Zpos (m1 * m2) < 2 ^ 106) by (change (2 ^ 106) with (2 ^ 53 * 2 ^ 53); nia).
  pose proof (digits_ge (m1 * m2) 104 ltac:(lia) Hlo). pose proof (digits_le (m1 * m2) 106 ltac:(lia) Hhi).
  destruct (round_aux_correct (m1 * m2) (e1 + e2) loc_Exact (Zpos (m1 * m2) * 1) 1 ltac:(lia) He
    (exact_located (Zpos (m1 * m2)) 1 ltac:(lia) ltac:(lia))) as (N & m & e & E & HN & Hg).
  exists N, m, e, (digits (m1 * m2) - 53). rewrite !Z.mul_1_r in HN. split_and!; try done; lia.
Qed.

Lemma new_location_located q r m2 : 0 <= q -> 0 <= r < m2 ->
  located (shr_record_of_loc q (new_location m2 r)) (q * m2 + r) m2.
Proof.
  intros Hq Hr. unfold new_location, new_location_even, new_location_odd, located.
  destruct (Z.even m2) eqn:Ev; destruct (Z.eqb_spec r 0) as [->|]; try (cbn; lia).
  - destruct (Z.compare_spec (2 * r) m2); cbn; lia.
  - assert (Hodd : m2 mod 2 = 1).
    { rewrite Zmod_odd. rewrite <- Z.negb_even, Ev. done. }
    pose proof (Z.div_mod m2 2 ltac:(lia)).
    destruct (Z.compare_spec (2 * r + 1) m2); cbn; lia.
Qed.

Lemma fdiv_correct m1 e1 m2 e2 :
  normal m1 -> normal m2 -> -800 <= e1 - e2 <= 800 ->
  exists N m e k, fdiv (S754_finite false m1 e1) (S754_finite false m2 e2) = S754_finite false m e /\
    nearest N (Zpos m1 * 2 ^ 53) (2 ^ k * Zpos m2) /\ 0 <= k <= 1 /\ on_grid N (e1 - e2 - 53 + k) m e.
Proof.
  intros H1 H2 He. unfold fdiv, SFdiv, SFdiv_core_binary. cbn [xorb Zdigits2].
  rewrite (digits_unique m1 53), (digits_unique m2 53) by (done || lia).
  unfold fexp, emin. replace (Z.min _ (e1 - e2)) with (e1 - e2 - 53) by lia.
  replace (e1 - e2 - (e1 - e2 - 53)) with 53 by lia.
  rewrite Z.shiftl_mul_pow2 by lia. unfold normal in H1, H2.
  pose proof (Z.div_eucl_eq (Zpos m1 * 2 ^ 53) (Zpos m2) ltac:(lia)) as Hq.
  pose proof (Z.mod_pos_bound (Zpos m1 * 2 ^ 53) (Zpos m2) ltac:(lia)) as Hr. unfold Z.modulo in Hr.
  destruct (Z.div_eucl (Zpos m1 * 2 ^ 53) (Zpos m2)) as [q r].
  assert (Hqb : 2 ^ 52 <= q < 2 ^ 54).
  { split; [|change (2 ^ 54) with (2 * 2 ^ 53); nia].
    assert (2 ^ 52 * Zpos m2 < (q + 1) * Zpos m2) by (change (2 ^ 53) with (2 * 2 ^ 52) in *; nia). nia. }
  destruct q as [|q|q]; [lia| |lia].
  pose proof (digits_ge q 52 ltac:(lia) ltac:(lia)). pose proof (digits_le q 54 ltac:(lia) ltac:(lia)).
  destruct (round_aux_correct q (e1 - e2 - 53) (new_location (Zpos m2) r) _ _ ltac:(lia) ltac:(lia)
    (new_location_located (Zpos q) r (Zpos m2) ltac:(lia) Hr)) as (N & m & e & E & HN & Hg).
  exists N, m, e, (digits q - 53). replace (Zpos q * Zpos m2 + r) with (Zpos m1 * 2 ^ 53) in HN by lia.
  split_and!; try done; lia.
Qed.

(** ** Quotients of integers and multiples of a constant *)

Lemma nearest_scale N P D c : 0 < c -> nearest N (P * c) (D * c) -> nearest N P D.
Proof.
  intros Hc [Hn Ht]. unfold nearest. replace (2 * (N * (D * c) - P * c)) with (2 * (N * D - P) * c) in * by lia.
  split; [nia|]. intros E. apply Ht. rewrite Z.abs_mul, E. lia.
Qed.

(** [float64(a) / float64(b)] is [a / b], rounded on a grid [2 ^ g] that is at
    least as fine as the integers. *)
Lemma fdiv_ints a b : 0 < a <= 2 ^ 51 -> 0 < b < 2 ^ 53 ->
  exists N g m e, fdiv (of_int a) (of_int b) = S754_finite false m e /\ g <= 0 /\
    nearest N (a * 2 ^ (- g)) b /\ on_grid N g m e.
Proof.
  intros Ha Hb. destruct (of_int_exact a ltac:(lia)) as (m1 & e1 & -> & H1 & He1 & E1).
  destruct (of_int_exact b Hb) as (m2 & e2 & -> & H2 & He2 & E2).
  destruct (fdiv_correct m1 e1 m2 e2 H1 H2 ltac:(lia)) as (N & m & e & k & E & HN & Hk & Hg).
  set (g := e1 - e2 - 53 + k) in *. exists N, g, m, e. split; [done|].
  assert (Hpow : forall j, 0 <= j -> 0 < 2 ^ j) by (intros; apply Z.pow_pos_nonneg; lia).
  assert (Hle : g <= 0).
  { destruct (Z.le_gt_cases g 0); [done|exfalso]. destruct Hg as (_ & HNb & _).
    pose proof (nearest_le N _ _ (2 ^ 51) ltac:(specialize (Hpow k); nia) HN) as Hmax.
    enough (N <= 2 ^ 51) by lia. apply Hmax. rewrite E1, E2.
    replace (a * 2 ^ (- e1) * 2 ^ 53) with (a * 2 ^ (53 - e1)) 
      by (rewrite <- Z.mul_assoc, <- Z.pow_add_r by lia; do 2 f_equal; lia).
    replace (2 ^ 51 * (2 ^ k * (b * 2 ^ (- e2)))) with (2 ^ 51 * b * 2 ^ (k - e2)).
    2:{ replace (k - e2) with (k + - e2) by lia. rewrite Z.pow_add_r by lia. lia. }
    pose proof (Z.pow_le_mono_r 2 (53 - e1) (k - e2)). specialize (Hpow (53 - e1)). nia. }
  split; [done|]. split; [|done].
  apply (nearest_scale _ _ _ (2 ^ (k - e2))); [apply Hpow; lia|].
  replace (a * 2 ^ (- g) * 2 ^ (k - e2)) with (Zpos m1 * 2 ^ 53).
  2:{ rewrite E1, <- !Z.mul_assoc, <- !Z.pow_add_r by lia. do 2 f_equal. lia. }
  replace (b * 2 ^ (k - e2)) with (2 ^ k * Zpos m2); [done|].
  rewrite E2. replace (k - e2) with (k + - e2) by lia. rewrite Z.pow_add_r by lia. lia.
Qed.

(** A constant [c * 2 ^ ec] times an integer. *)
Lemma fmul_int c ec n : normal c -> -800 <= ec <= 700 -> 0 < n < 2 ^ 53 ->
  exists N j m e, fmul (S754_finite false c ec) (of_int n) = S754_finite false m e /\ 0 <= j /\
    nearest N (Zpos c * n) (2 ^ j) /\ on_grid N (ec + j) m e.
Proof.
  intros Hc Hec Hn. destruct (of_int_exact n Hn) as (m2 & e2 & -> & H2 & He2 & E2).
  destruct (fmul_correct c ec m2 e2 Hc H2 ltac:(lia)) as (N & m & e & k & E & HN & Hk & Hg).
  exists N, (k + e2), m, e. split; [done|]. split; [lia|].
  replace (ec + (k + e2)) with (ec + e2 + k) by lia. split; [|done].
  apply (nearest_scale _ _ _ (2 ^ (- e2))); [apply Z.pow_pos_nonneg; lia|].
  rewrite <- Z.pow_add_r by lia. replace (k + e2 + - e2) with k by lia.
  by replace (Zpos c * n * 2 ^ (- e2)) with (Zpos c * Zpos m2) by (rewrite E2; lia).
Qed.

(** ** Comparisons *)

(** Normal numbers compare like their values, scaled by any [2 ^ K] that makes
    both integers. *)
Lemma fltb_normal m1 e1 m2 e2 K : normal m1 -> normal m2 -> 0 <= e1 + K -> 0 <= e2 + K ->
  fltb (S754_finite false m1 e1) (S754_finite false m2 e2) =
  (Zpos m1 * 2 ^ (e1 + K) <? Zpos m2 * 2 ^ (e2 + K)).
Proof.
  intros H1 H2 K1 K2. unfold fltb, SFltb, SFcompare, normal in *.
  assert (Hstep : forall i j (x y : Z), 0 <= i -> i < j -> 2 ^ 52 <= x < 2 ^ 53 -> 2 ^ 52 <= y < 2 ^ 53 ->
    x * 2 ^ i < y * 2 ^ j).
  { intros i j x y Hi Hij Hx Hy. assert (Hp : 0 < 2 ^ i) by (apply Z.pow_pos_nonneg; lia).
    pose proof (Z.pow_le_mono_r 2 (i + 1) j ltac:(lia) ltac:(lia)) as Hj. rewrite Z.pow_add_r in Hj by lia.
    change (2 ^ 53) with (2 * 2 ^ 52) in *. nia. }
  destruct (Z.compare_spec e1 e2) as [->|He|He].
  - change (Pos.compare_cont Eq m1 m2) with (Pos.compare m1 m2).
    assert (Hp : 0 < 2 ^ (e2 + K)) by (apply Z.pow_pos_nonneg; lia).
    destruct (Pos.compare_spec m1 m2), (Z.ltb_spec (Zpos m1 * 2 ^ (e2 + K)) (Zpos m2 * 2 ^ (e2 + K)));
      subst; try done; nia.
  - specialize (Hstep (e1 + K) (e2 + K) (Zpos m1) (Zpos m2) K1 ltac:(lia) H1 H2).
    destruct (Z.ltb_spec (Zpos m1 * 2 ^ (e1 + K)) (Zpos m2 * 2 ^ (e2 + K))); [done|lia].
  - specialize (Hstep (e2 + K) (e1 + K) (Zpos m2) (Zpos m1) K2 ltac:(lia) H2 H1).
    destruct (Z.ltb_spec (Zpos m1 * 2 ^ (e1 + K)) (Zpos m2 * 2 ^ (e2 + K))); [lia|done].
Qed.

(** A constant against a number on a grid that is finer than the constant's. *)
Lemma fltb_grid c ec N g m e : normal c -> on_grid N g m e -> g <= ec ->
  fltb (S754_finite false c ec) (S754_finite false m e) = (Zpos c * 2 ^ (ec - g) <? N).
Proof.
  intros Hc (Hm & _ & He & ->) Hg. rewrite (fltb_normal c ec m e (- g)); [|done|done|lia|lia].
  by replace (ec + - g) with (ec - g) by lia.
Qed.

(** Against a number on a coarser grid the constant is the smaller one. *)
Lemma fltb_coarse c ec N g m e : normal c -> on_grid N g m e -> ec < g ->
  fltb (S754_finite false c ec) (S754_finite false m e) = true.
Proof.
  intros Hc (Hm & _ & He & _) Hg. unfold fltb, SFltb, SFcompare.
  destruct (Z.compare_spec ec e); [lia|done|lia].
Qed.

Lemma grid_pow g : g <= 0 -> 1 <= 2 ^ (- g).
Proof. intros. assert (0 < 2 ^ (- g)) by (apply Z.pow_pos_nonneg; lia). lia. Qed.

(** Comparing a quotient with an integer constant [k = c * 2 ^ ec] is exact. *)
Lemma quotient_above k c ec a b : normal c -> ec <= 0 -> of_int k = S754_finite false c ec ->
  Zpos c = k * 2 ^ (- ec) -> 0 < k -> 0 < a <= 2 ^ 50 -> 0 < b < 2 ^ 50 ->
  fltb (of_int k) (fdiv (of_int a) (of_int b)) = (k * b <? a).
Proof.
  intros Hc Hec -> Ek Hk Ha Hb. destruct (fdiv_ints a b ltac:(lia) ltac:(lia)) as (N & g & m & e & -> & Hg & HN & Hgrid).
  pose proof (grid_pow g Hg) as Hp.
  assert (Hfine : 2 * b < 2 * 2 ^ (- g) * 2).
  { pose proof Hgrid as (_ & HNb & _). destruct HN as [HN _]. nia. }
  destruct (Z.le_gt_cases g ec) as [Hge|Hge].
  - rewrite (fltb_grid c ec N g m e Hc Hgrid Hge).
    assert (EK : Zpos c * 2 ^ (ec - g) = k * 2 ^ (- g)).
    { rewrite Ek, <- Z.mul_assoc, <- Z.pow_add_r by lia. do 2 f_equal. lia. }
    rewrite EK. destruct (Z.ltb_spec (k * b) a) as [Hlt|Hle].
    + apply Z.ltb_lt. destruct HN as [HN _]. nia.
    + apply Z.ltb_ge. apply (nearest_le N (a * 2 ^ (- g)) b); [lia|done|]. nia.
  - rewrite (fltb_coarse c ec N g m e Hc Hgrid Hge). symmetry. apply Z.ltb_lt.
    pose proof Hgrid as (_ & HNb & _). unfold normal in Hc. destruct HN as [HN _].
    assert (Hpow : 2 ^ (- ec) = 2 ^ (- g) * 2 ^ (g - ec)) by (rewrite <- Z.pow_add_r by lia; f_equal; lia).
    assert (2 <= 2 ^ (g - ec)) by (change 2 with (2 ^ 1) at 1; apply Z.pow_le_mono_r; lia).
    assert (Hk2 : k * (2 * 2 ^ (- g)) <= Zpos c) by nia.
    assert (Hk1 : k * 2 ^ (- g) <= 2 ^ 52 - 1) by lia.
    apply (Z.mul_lt_mono_pos_r (2 ^ (- g))); [lia|].
    pose proof (Z.mul_le_mono_nonneg_r _ _ b ltac:(lia) Hk1).
    pose proof (Z.mul_le_mono_nonneg_r _ _ b ltac:(lia) (proj1 HNb)). lia.
Qed.

(** ** The constant 0.95 *)

(** The literal [0.95], and also [float64(95) / float64(100)]: four tenths of a
    unit in the last place below the real number. *)
Definition f095 : float64 := S754_finite false 8556839292003942 (-53).

Example f095_literal : f095 = fdiv (of_int 95) (of_int 100).
Proof. vm_compute. reflexivity. Qed.

Lemma f095_normal : normal 8556839292003942.
Proof. unfold normal. lia. Qed.

(** Comparing a quotient with it is comparing with 95 percent exactly. *)
Lemma quotient_above_095 a b : 0 < a <= 2 ^ 50 -> 0 < b < 2 ^ 50 ->
  fltb f095 (fdiv (of_int a) (of_int b)) = (95 * b <? 100 * a).
Proof.
  intros Ha Hb. destruct (fdiv_ints a b ltac:(lia) ltac:(lia)) as (N & g & m & e & -> & Hg & HN & Hgrid).
  pose proof Hgrid as (_ & HNb & _). destruct HN as [HN _].
  destruct (Z.lt_trichotomy g (-53)) as [Hg1|[->|Hg1]].
  - unfold f095. rewrite (fltb_grid _ _ N g m e f095_normal Hgrid) by lia.
    assert (Hp : 2 ^ (- g) = 2 ^ 54 * 2 ^ (-54 - g)) by (rewrite <- Z.pow_add_r by lia; f_equal; lia).
    assert (Hq : 0 < 2 ^ (-54 - g)) by (apply Z.pow_pos_nonneg; lia).
    assert (H1 : 2 <= 2 ^ (-53 - g)) by (change 2 with (2 ^ 1) at 1; apply Z.pow_le_mono_r; lia).
    destruct (Z.ltb_spec (8556839292003942 * 2 ^ (-53 - g)) N); [lia|]. symmetry. apply Z.ltb_ge.
    assert (H2 : a * 2 ^ 54 <= a * 2 ^ (- g)) by (rewrite Hp; nia).
    assert (H3 : N * b <= 2 ^ 53 * b) by (apply Z.mul_le_mono_nonneg_r; lia). lia.
  - unfold f095. rewrite (fltb_grid _ _ N (-53) m e f095_normal Hgrid) by lia.
    change (2 ^ (-53 - -53)) with 1. change (2 ^ (- -53)) with (2 ^ 53) in HN.
    destruct (Z.ltb_spec (8556839292003942 * 1) N) as [H1|H1]; symmetry; [apply Z.ltb_lt|apply Z.ltb_ge].
    + assert (8556839292003943 * b <= N * b) by (apply Z.mul_le_mono_nonneg_r; lia). lia.
    + assert (N * b <= 8556839292003942 * b) by (apply Z.mul_le_mono_nonneg_r; lia). lia.
  - unfold f095. rewrite (fltb_coarse _ _ N g m e f095_normal Hgrid) by lia. symmetry. apply Z.ltb_lt.
    assert (H1 : 2 ^ (- g) <= 2 ^ 52) by (apply Z.pow_le_mono_r; lia).
    assert (H2 : a * 2 ^ (- g) <= a * 2 ^ 52) by (apply Z.mul_le_mono_nonneg_l; lia).
    assert (H3 : 2 ^ 52 * b <= N * b) by (apply Z.mul_le_mono_nonneg_r; lia). lia.
Qed.

(** ** Ceilings *)

(** The ceiling of a number on a grid is [k] where the exact bounds say so. *)
Lemma ceil_on_grid N g m e k : on_grid N g m e -> g <= 0 -> 0 < k < 2 ^ 51 ->
  (k - 1) * 2 ^ (- g) < N <= k * 2 ^ (- g) -> ceil_to_int (S754_finite false m e) = k.
Proof.
  intros (Hm & _ & He & EN) Hg Hk HN. unfold normal in Hm.
  assert (Hneg : e < 0).
  { destruct (Z.lt_ge_cases e 0); [done|exfalso].
    assert (2 ^ (- g) <= 2 ^ (e - g)) by (apply Z.pow_le_mono_r; lia). nia. }
  assert (Hsplit : 2 ^ (- g) = 2 ^ (- e) * 2 ^ (e - g)) by (rewrite <- Z.pow_add_r by lia; f_equal; lia).
  assert (Hc : 0 < 2 ^ (e - g)) by (apply Z.pow_pos_nonneg; lia).
  assert (Hb : (k - 1) * 2 ^ (- e) < Zpos m <= k * 2 ^ (- e)).
  { rewrite Hsplit, EN, !Z.mul_assoc in HN. split; apply (Z.mul_lt_mono_pos_r (2 ^ (e - g))) || apply (Z.mul_le_mono_pos_r _ _ (2 ^ (e - g))); lia. }
  unfold ceil_to_int, scaled, signed. destruct (Z.leb_spec 0 e); [lia|].
  assert (Ek : - (- Zpos m / 2 ^ (- e)) = k).
  { assert (0 < 2 ^ (- e)) by (apply Z.pow_pos_nonneg; lia).
    enough (- Zpos m / 2 ^ (- e) = - k) by lia. symmetry. apply (Z.div_unique _ _ _ (k * 2 ^ (- e) - Zpos m)); lia. }
  rewrite Ek. destruct (Z.leb_spec (- 2 ^ 63) k), (Z.leb_spec k MaxInt64); try done; unfold MaxInt64 in *; lia.
Qed.

(** [int(math.Ceil(p / 100 * float64(n)))] is the exact ceiling, for a constant
    [c * 2 ^ -53] just below a percentage that is a multiple of five. *)
Lemma ceil_percent p c n : normal c -> p * 2 ^ 53 - 40 <= 100 * Zpos c <= p * 2 ^ 53 ->
  p mod 5 = 0 -> 0 < p < 100 -> 0 < n <= 2 ^ 48 ->
  ceil_to_int (fmul (S754_finite false c (-53)) (of_int n)) = (p * n + 99) / 100.
Proof.
  intros Hc Hp H5 Hp0 Hn.
  destruct (fmul_int c (-53) n Hc ltac:(lia) ltac:(lia)) as (N & j & m & e & -> & Hj & HN & Hgrid).
  pose proof Hgrid as (_ & HNb & _). unfold normal in Hc. pose proof HN as [HN' _].
  assert (Hpj : 0 < 2 ^ j) by (apply Z.pow_pos_nonneg; lia).
  assert (H1 : 2 ^ 52 * 2 ^ j <= N * 2 ^ j) by (apply Z.mul_le_mono_nonneg_r; lia).
  assert (H2 : Zpos c * n <= 2 ^ 53 * n) by (apply Z.mul_le_mono_nonneg_r; lia).
  assert (Hj53 : j <= 53).
  { destruct (Z.le_gt_cases j 53); [done|exfalso].
    assert (2 ^ 54 <= 2 ^ j) by (apply Z.pow_le_mono_r; lia). lia. }
  set (k := (p * n + 99) / 100).
  assert (Hk : 100 * (k - 1) < p * n <= 100 * k).
  { pose proof (Z.div_mod (p * n + 99) 100). pose proof (Z.mod_pos_bound (p * n + 99) 100). fold k in H. lia. }
  assert (Hk5 : 100 * (k - 1) + 5 <= p * n).
  { pose proof (Z.div_mod p 5). rewrite H5 in H. assert (Ep : p * n = 5 * (p / 5 * n)) by nia. rewrite Ep in *. lia. }
  assert (Epow : 2 ^ (- (-53 + j)) * 2 ^ j = 2 ^ 53) by (rewrite <- Z.pow_add_r by lia; f_equal; lia).
  assert (H3 : 100 * (Zpos c * n) <= p * n * 2 ^ 53) by nia.
  assert (H4 : p * n * 2 ^ 53 - 40 * n <= 100 * (Zpos c * n)) by nia.
  apply (ceil_on_grid N (-53 + j)); [done|lia| |split].
  - assert (0 < p * n) by nia. assert (p * n <= 99 * n) by (apply Z.mul_le_mono_nonneg_r; lia). lia.
  - apply (Z.mul_lt_mono_pos_r (2 ^ j)); [done|]. rewrite <- Z.mul_assoc, Epow. lia.
  - apply (nearest_le N (Zpos c * n) (2 ^ j)); [done..|]. rewrite <- Z.mul_assoc, Epow. lia.
Qed.
