(* ===== verification/Format.v ===== *)
(** * Text of numbers and durations

    [fmt]'s [%.Nf] on a [float64], as the library prints it: the exact value of
    the number, rounded half to even at the last digit; and the text of a
    [time.Duration] with [Round].  The lemmas say which decimal the digits
    denote, and that a quotient of integers divided by a power of ten is
    printed as if no rounding had happened. *)

From Stdlib Require Import SpecFloat.
From S2P Require Import Prelude Strconv Float64 Rounding.

(** ** [%.Nf] *)

(** The integer nearest to [P / D], halves to the even one. *)
Definition round_half_even (P D : Z) : Z :=
  let q := P / D in
  match (2 * (P mod D) ?= D) with
  | Lt => q
  | Gt => q + 1
  | Eq => if Z.even q then q else q + 1
  end.

(** The last [k] digits of [n], zeros in front. *)
Fixpoint pad_digits (k : nat) (n : Z) : bytes :=
  match k with
  | O => []
  | S k' => pad_digits k' (n / 10) ++ [digit_char (n mod 10)]
  end.

(** [n] units of [10 ^ -prec]. A finite [float64] has at most 309 digits in
    front of the point. *)
Definition decimal (prec : nat) (n : Z) : bytes :=
  let unit := 10 ^ Z.of_nat prec in
  format_loop 310 (n / unit) [] ++
  match prec with O => [] | _ => "." ++ pad_digits prec (n mod unit) end.

(** The number of units of [10 ^ -prec] in [m * 2 ^ e]. *)
Definition fixed_units (prec : nat) (m e : Z) : Z :=
  if 0 <=? e then m * 10 ^ Z.of_nat prec * 2 ^ e
  else round_half_even (m * 10 ^ Z.of_nat prec) (2 ^ (- e)).

Definition FormatFixed (prec : nat) (x : float64) : bytes :=
  match x with
  | S754_nan => "NaN"
  | S754_infinity s => if s then "-Inf" else "+Inf"
  | S754_zero s => (if s then "-" else []) ++ decimal prec 0
  | S754_finite s m e => (if s then "-" else []) ++ decimal prec (fixed_units prec (Zpos m) e)
  end.

Example FormatFixed_examples :
  map (fun '(p, x) => FormatFixed p x)
    [(0%nat, fdiv (of_int 1) (of_int 2)); (0%nat, fdiv (of_int 3) (of_int 2)); (1%nat, fdiv (of_int 1) (of_int 3));
     (2%nat, fdiv (of_int (-1)) (of_int 1000)); (3%nat, of_int 0); (2%nat, fdiv (of_int 1) (of_int 0));
     (2%nat, fdiv (of_int 0) (of_int 0)); (1%nat, of_int 123456789)] =
  ["0"; "2"; "0.3"; "-0.00"; "0.000"; "+Inf"; "NaN"; "123456789.0"].
Proof. vm_compute. reflexivity. Qed.

(** ** [time.Duration] *)

(** [lessThanHalf], on unsigned 64-bit numbers. *)
Definition lessThanHalf (x y : Z) : bool := uint64 (uint64 x + uint64 x) <? uint64 y.

(** [d.Round(m)]: to the nearest multiple, halves away from zero; a result that
    does not fit is the extreme duration. *)
Definition Round (m d : Z) : Z :=
  if m <=? 0 then d
  else
    let r := Z.rem d m in
    if d <? 0 then
      let r := - r in
      if lessThanHalf r m then int64 (d + r)
      else let d1 := int64 (d - m + r) in if d1 <? d then d1 else - 2 ^ 63
    else if lessThanHalf r m then int64 (d - r)
    else let d1 := int64 (d + m - r) in if d <? d1 then d1 else MaxInt64.

(** [fmtFrac]: the text so far, what is left of [v], and whether a digit has
    been printed; trailing zeros are not. *)
Fixpoint fmtFrac_loop (prec : nat) (v : Z) (print : bool) (acc : bytes) : bytes * Z :=
  match prec with
  | O => ((if print then "." ++ acc else acc), v)
  | S prec' =>
      let digit := v mod 10 in
      let print := print || negb (digit =? 0) in
      fmtFrac_loop prec' (v / 10) print (if print then digit_char digit :: acc else acc)
  end.

Definition fmtFrac (v : Z) (prec : nat) (acc : bytes) : bytes * Z := fmtFrac_loop prec v false acc.

(** [fmtInt]; a [uint64] has at most 20 digits. *)
Definition fmtInt (v : Z) (acc : bytes) : bytes := format_loop 20 v acc.

(** [d.String()]. *)
Definition duration_string (d : Z) : bytes :=
  let neg := d <? 0 in
  let u := uint64 (if neg then - d else d) in
  let body :=
    if u <? 1000000000 then
      if u =? 0 then "0s"
      else
        let '(prec, suffix) :=
          if u <? 1000 then (0%nat, "ns")
          else if u <? 1000000 then (3%nat, ["194"; "181"; "s"]%char)
          else (6%nat, "ms") in
        let '(acc, v) := fmtFrac u prec suffix in fmtInt v acc
    else
      let '(acc, v) := fmtFrac u 9 "s" in
      let acc := fmtInt (v mod 60) acc in
      let v := v / 60 in
      if 0 <? v then
        let acc := fmtInt (v mod 60) ("m" ++ acc) in
        let v := v / 60 in
        if 0 <? v then fmtInt v ("h" ++ acc) else acc
      else acc in
  if neg then "-" ++ body else body.

Example duration_string_examples :
  map duration_string [0; 1; 1100; 2200000; 3300000000; 245000000000; 245001000000; 18367001000000; -1500; 8639000000000] =
  ["0s"; "1ns"; ["1"; "."; "1"; "194"; "181"; "s"]%char; "2.2ms"; "3.3s"; "4m5s"; "4m5.001s"; "5h6m7.001s";
   ["-"; "1"; "."; "5"; "194"; "181"; "s"]%char; "2h23m59s"].
Proof. vm_compute. reflexivity. Qed.

Example Round_examples :
  map (Round 1000000000) [1499999999; 1500000000; -1499999999; -1500000000; MaxInt64] =
  [1000000000; 2000000000; -1000000000; -2000000000; 9223372036854775807].
Proof. vm_compute. reflexivity. Qed.

(** ** Rounding half to even *)

Lemma round_half_even_nearest P D : 0 < D -> nearest (round_half_even P D) P D.
Proof.
  intros HD. pose proof (Z.div_mod P D ltac:(lia)) as E. pose proof (Z.mod_pos_bound P D HD) as Hr.
  unfold round_half_even, nearest. set (q := P / D) in *. set (r := P mod D) in *.
  destruct (Z.compare_spec (2 * r) D); [destruct (Z.even q) eqn:Ev|..].
  - split; [lia|done].
  - split; [lia|]. intros _. rewrite Z.even_add, Ev. done.
  - split; lia.
  - split; lia.
Qed.

(** At most one integer is nearest. *)
Lemma nearest_unique N N' P D : 0 < D -> nearest N P D -> nearest N' P D -> N = N'.
Proof.
  intros HD [H1 E1] [H2 E2].
  assert (Hd : N = N' \/ N' = N + 1 \/ N = N' + 1) by nia.
  destruct Hd as [|[-> | ->]]; [done|exfalso..].
  - specialize (E1 ltac:(lia)). specialize (E2 ltac:(lia)). rewrite Z.even_add, E1 in E2. done.
  - specialize (E1 ltac:(lia)). specialize (E2 ltac:(lia)). rewrite Z.even_add, E2 in E1. done.
Qed.

Lemma round_half_even_unique N P D : 0 < D -> nearest N P D -> round_half_even P D = N.
Proof. intros HD Hn. eapply nearest_unique; [done|by apply round_half_even_nearest|done]. Qed.

(** ** Digits *)

Lemma format_loop_fuel f f' n acc : 0 <= n < 10 ^ Z.of_nat f -> (0 < f <= f')%nat ->
  format_loop f' n acc = format_loop f n acc.
Proof.
  revert f' n acc. induction f as [|f IH]; intros [|f'] n acc Hn Hf; [lia..|]. cbn [format_loop].
  destruct (Z.ltb_spec n 10); [done|]. rewrite Nat2Z.inj_succ, Z.pow_succ_r in Hn by lia.
  apply IH.
  - split; [apply Z.div_pos; lia|apply Z.div_lt_upper_bound; lia].
  - destruct f; [|lia]. change (10 ^ Z.of_nat 0) with 1 in Hn. lia.
Qed.

Lemma pad_digits_spec k n : 0 <= n ->
  length (pad_digits k n) = k /\ forallb is_digit (pad_digits k n) = true /\
  dec_value (pad_digits k n) = n mod 10 ^ Z.of_nat k.
Proof.
  revert n. induction k as [|k IH]; intros n Hn; cbn [pad_digits].
  { change (10 ^ Z.of_nat 0) with 1. rewrite Z.mod_1_r. done. }
  destruct (IH (n / 10) ltac:(apply Z.div_pos; lia)) as (Hl & Hd & Hv).
  pose proof (Z.mod_pos_bound n 10 ltac:(lia)) as Hm. split_and!.
  - rewrite length_app, Hl. cbn. lia.
  - rewrite forallb_app, Hd. cbn [forallb]. by rewrite is_digit_char by lia.
  - unfold dec_value in *. rewrite foldl_snoc, Hv, digit_value_char by lia.
    rewrite Nat2Z.inj_succ, Z.pow_succ_r, Z.rem_mul_r by lia. lia.
Qed.

(** What the digits denote: [n] units, [prec] of them after the point. *)
Lemma decimal_spec prec n : 0 <= n < 10 ^ 310 ->
  exists ip fp, decimal prec n = ip ++ match prec with O => [] | _ => "." ++ fp end /\
    ip <> [] /\ forallb is_digit (ip ++ fp) = true /\ length fp = prec /\ dec_value (ip ++ fp) = n.
Proof.
  intros Hn. set (unit := 10 ^ Z.of_nat prec).
  assert (Hu : 0 < unit) by (apply Z.pow_pos_nonneg; lia).
  assert (Hq : 0 <= n / unit < 10 ^ Z.of_nat 310).
  { split; [apply Z.div_pos; lia|]. change (Z.of_nat 310) with 310.
    apply Z.div_lt_upper_bound; [done|]. nia. }
  destruct (format_loop_spec 310 _ [] Hq ltac:(lia)) as (ip & E & Hne & Hd & Hv & _).
  rewrite app_nil_r in E. pose proof (Z.mod_pos_bound n unit Hu) as Hm.
  destruct (pad_digits_spec prec (n mod unit) ltac:(lia)) as (Hl & Hfd & Hfv).
  exists ip, (pad_digits prec (n mod unit)). unfold decimal. fold unit. rewrite E. split_and!; [done..| | |].
  - by rewrite forallb_app, Hd, Hfd.
  - done.
  - unfold dec_value in *. rewrite foldl_app, Hv, dec_value_from. unfold len, dec_value. rewrite Hfv, Hl. fold unit.
    rewrite Z.mod_mod by lia. pose proof (Z.div_mod n unit ltac:(lia)). lia.
Qed.

(** Below [10 ^ 20] the part in front of the point is [%d]'s. *)
Lemma decimal_uint prec n : 0 <= n < 10 ^ 20 ->
  decimal prec n = FormatUint (n / 10 ^ Z.of_nat prec) ++
    match prec with O => [] | _ => "." ++ pad_digits prec (n mod 10 ^ Z.of_nat prec) end.
Proof.
  intros Hn. assert (0 < 10 ^ Z.of_nat prec) by (apply Z.pow_pos_nonneg; lia).
  unfold decimal, FormatUint. rewrite (format_loop_fuel 20 310); [done| |lia]. change (Z.of_nat 20) with 20.
  split; [apply Z.div_pos; lia|]. apply Z.div_lt_upper_bound; [done|]. nia.
Qed.

(** ** Printing a quotient by a power of ten *)

(** [%.Nf] of [a / 10^N] computed in floating point prints [a] with the point
    moved: neither the division nor the printing loses a digit. *)
Lemma FormatFixed_quotient prec a : (prec <= 15)%nat -> 0 <= a <= 2 ^ 51 ->
  FormatFixed prec (fdiv (of_int a) (of_int (10 ^ Z.of_nat prec))) = decimal prec a.
Proof.
  intros Hp Ha. set (b := 10 ^ Z.of_nat prec).
  assert (Hb : 0 < b < 2 ^ 53).
  { subst b. split; [apply Z.pow_pos_nonneg; lia|]. pose proof (Z.pow_le_mono_r 10 (Z.of_nat prec) 15). lia. }
  destruct (decide (a = 0)) as [->|Hne].
  { destruct (of_int_exact b Hb) as (m & e & -> & _). done. }
  destruct (fdiv_ints a b ltac:(lia) Hb) as (N & g & m & e & -> & Hg & [HN _] & Hm & HNb & He & EN).
  unfold FormatFixed. cbn [app]. f_equal. unfold fixed_units. fold b. unfold normal in Hm.
  destruct (Z.leb_spec 0 e) as [Hpos|Hneg].
  - exfalso. assert (Hs : 1 <= 2 ^ e) by (pose proof (Z.pow_pos_nonneg 2 e); lia). pose proof (grid_pow g Hg) as Hs'.
    replace (e - g) with (e + - g) in EN by lia. rewrite Z.pow_add_r in EN by lia.
    set (x := 2 ^ e) in *. set (y := 2 ^ (- g)) in *. subst N.
    assert (2 ^ 52 * b <= Zpos m * x * b) by nia. nia.
  - apply round_half_even_unique; [apply Z.pow_pos_nonneg; lia|].
    replace (- g) with (- e + (e - g)) in HN by lia. rewrite Z.pow_add_r in HN by lia.
    assert (Hk : 1 <= 2 ^ (e - g)) by (pose proof (Z.pow_pos_nonneg 2 (e - g)); lia).
    assert (Hx : 1 <= 2 ^ (- e)) by (pose proof (Z.pow_pos_nonneg 2 (- e)); lia).
    set (x := 2 ^ (- e)) in *. set (k := 2 ^ (e - g)) in *. subst N.
    assert (Hd : - b <= 2 * (Zpos m * b - a * x) <= b) by nia.
    assert (Hbx : b < x) by nia. unfold nearest. split; lia.
Qed.
