(* ===== verification/Shard.v ===== *)
(** * One shard of the store ([src/internal/store/shard.go])

    A shard owns a map from keys to items, the recency list over the same
    items, and the counters that account for them.  Its methods are modelled as
    written: items are heap cells shared by the map and the list, each method
    is the sequence of reads and writes the Go method makes, sizes are [int]s
    that wrap around, and the range loops over [sh.items] run in an arbitrary
    order ([MapRange]).  A method runs under the shard's mutex, so it is one
    step; the clock it reads ([sh.now()]) is its argument [now]. *)

From S2P Require Import Prelude Lru Strconv.

(** ** Data and helpers of [store.go] *)

Inductive error :=
| ErrNotFound | ErrNotInteger | ErrOverflow
| ErrValueTooLarge | ErrMemoryLimitExceeded | ErrCasMismatch.

Global Instance error_eq_dec : EqDecision error.
Proof. solve_decision. Defined.

(** What [Get] hands to its caller. *)
Record Item := MkItem { Value : bytes; CAS : Z }.

(** [time.Time.IsZero]. *)
Definition IsZero (t : Z) : bool := t =? 0.

Definition expiresAt (now ttl : Z) : Z := if ttl <=? 0 then 0 else now + ttl.

Definition expired (i : entry) (now : Z) : bool :=
  negb (IsZero (e_expiresAt i)) && negb (now <? e_expiresAt i).

Definition cloneBytes (value : bytes) : bytes :=
  if len value =? 0 then [] else value.

Definition isDecimal (value : bytes) : bool :=
  if len value =? 0 then false
  else forallb (fun b => negb ((byteZ b <? 48) || (57 <? byteZ b))) value.

(** Iteration order of [for _, item := range sh.items]: Go leaves it
    unspecified, every element comes once. *)
Class MapRange := {
  range_order : gmap bytes loc -> list loc;
  range_order_perm : forall m, range_order m ≡ₚ (map_to_list m).*2
}.

(** ** State *)

Record shard := Shard {
  items : gmap bytes loc;
  lru : lruList;
  memoryBytes : Z;
  ttlCount : Z;
  maxValueBytes : Z;
  maxMemoryBytes : Z;
  itemOverheadBytes : Z;
  evictions : Z;
  expirations : Z
}.

(** A shard together with the cells its pointers lead to and the counter
    [casCounter] it shares with the other shards.  The cells of a shard are
    reachable from that shard only. *)
Record state := State { sh : shard; heap : gmap loc storedItem; casCounter : Z }.

Definition with_items f (s : state) : state :=
  let '(State (Shard i l m t mv mm o ev ex) h c) := s in
  State (Shard (f i) l m t mv mm o ev ex) h c.
Definition with_memory f (s : state) : state :=
  let '(State (Shard i l m t mv mm o ev ex) h c) := s in
  State (Shard i l (f m) t mv mm o ev ex) h c.
Definition with_ttlCount f (s : state) : state :=
  let '(State (Shard i l m t mv mm o ev ex) h c) := s in
  State (Shard i l m (f t) mv mm o ev ex) h c.
Definition with_evictions f (s : state) : state :=
  let '(State (Shard i l m t mv mm o ev ex) h c) := s in
  State (Shard i l m t mv mm o (f ev) ex) h c.
Definition with_expirations f (s : state) : state :=
  let '(State (Shard i l m t mv mm o ev ex) h c) := s in
  State (Shard i l m t mv mm o ev (f ex)) h c.
Definition with_cas f (s : state) : state :=
  let '(State x h c) := s in State x h (f c).

(** The memory of the recency list inside a shard. *)
Definition lru_get (s : state) : lruState := LruState (heap s) (lru (sh s)).
Definition lru_put (t : lruState) (s : state) : state :=
  let '(State (Shard i _ m n mv mm o ev ex) _ c) := s in
  State (Shard i (l_list t) m n mv mm o ev ex) (l_heap t) c.

(** Run a method of [sh.lru], or an access to an item, inside a shard. *)
Definition on_lru {A} (m : M lruState A) : M state A := zoom lru_get lru_put m.
Definition item (p : loc) : M state storedItem := on_lru (load p).
Definition data (p : loc) : M state entry := it ← item p; mret (si_data it).

(** [sh.items[key]], with the comma-ok form as an option. *)
Definition lookup_key (key : bytes) : M state (option loc) :=
  gets (fun s => items (sh s) !! key).

(** [sh.casCounter.Add(1)]: returns the new value. *)
Definition casCounter_Add1 : M state Z :=
  modify (with_cas (fun c => uint64 (c + 1))) ;; gets casCounter.

(** [&storedItem{...}]: a cell at an unused address. *)
Definition new_item (e : entry) : M state loc :=
  h ← gets heap;
  let p := fresh (dom h : gset loc) in
  modify (fun s => State (sh s) (<[p := StoredItem e None None]> (heap s)) (casCounter s)) ;;
  mret p.

(** ** Internal methods *)

Definition newShard (MaxValueBytes ItemOverheadBytes perShardMemory : Z) : shard :=
  Shard ∅ (LruList None None) 0 0 MaxValueBytes perShardMemory ItemOverheadBytes 0 0.

Definition itemSize (key : bytes) (valueBytes : Z) : M state Z :=
  o ← gets (fun s => itemOverheadBytes (sh s));
  mret (int64 (int64 (len key + valueBytes) + o)).

Definition deleteLocked (p : loc) : M state unit :=
  it ← data p;
  modify (with_items (fun m => delete (e_key it) m)) ;;
  on_lru (remove p) ;;
  modify (with_memory (fun m => int64 (m - e_size it))) ;;
  if negb (IsZero (e_expiresAt it)) then modify (with_ttlCount (fun t => t - 1))
  else mret tt.

(** The body of both sweeps: delete the expired items among [ps] and count them. *)
Fixpoint expire_loop (now : Z) (ps : list loc) (removed : Z) : M state Z :=
  match ps with
  | [] => mret removed
  | p :: ps' =>
      it ← data p;
      if expired it now then deleteLocked p ;; expire_loop now ps' (removed + 1)
      else expire_loop now ps' removed
  end.

Section Sweeps.
Context `{MapRange}.

Definition removeExpiredLocked (now : Z) : M state unit :=
  m ← gets (fun s => items (sh s));
  removed ← expire_loop now (range_order m) 0;
  if 0 <? removed then modify (with_expirations (fun n => uint64 (n + uint64 removed)))
  else mret tt.

Definition cleanupExpired (now : Z) : M state Z :=
  m ← gets (fun s => items (sh s));
  removed ← expire_loop now (range_order m) 0;
  (if 0 <? removed then modify (with_expirations (fun n => uint64 (n + uint64 removed)))
   else mret tt) ;;
  mret removed.
End Sweeps.

(** [for candidate != nil && candidate.key == protectedKey { candidate = candidate.prev }] *)
Fixpoint skip_protected (fuel : nat) (protectedKey : bytes) (candidate : ptr) : M state ptr :=
  match fuel with
  | O => out_of_fuel
  | S fuel' =>
      match candidate with
      | None => mret None
      | Some c =>
          it ← item c;
          if decide (e_key (si_data it) = protectedKey)
          then skip_protected fuel' protectedKey (si_prev it)
          else mret (Some c)
      end
  end.

Definition count_evictions (evicted : Z) : M state unit :=
  if 0 <? evicted then modify (with_evictions (fun n => uint64 (n + uint64 evicted)))
  else mret tt.

Fixpoint evict_loop (fuel : nat) (protectedKey : bytes) (projected evicted : Z) : M state bool :=
  match fuel with
  | O => out_of_fuel
  | S fuel' =>
      max ← gets (fun s => maxMemoryBytes (sh s));
      if max <? projected then
        n ← gets (fun s => size (items (sh s)));
        b ← on_lru back;
        candidate ← skip_protected (S n) protectedKey b;
        match candidate with
        | None => count_evictions evicted ;; mret false
        | Some c =>
            it ← data c;
            deleteLocked c ;;
            evict_loop fuel' protectedKey (int64 (projected - e_size it)) (evicted + 1)
        end
      else count_evictions evicted ;; mret true
  end.

(** Every turn deletes an item, so one turn more than there are items is enough. *)
Definition evictUntilFitsLocked (protectedKey : bytes) (projected : Z) : M state bool :=
  n ← gets (fun s => size (items (sh s)));
  evict_loop (S n) protectedKey projected 0.

(** ** Methods *)

Module Method.
Section Methods.
Context `{MapRange}.

(** [sh.memoryBytes - oldSize + size] *)
Definition project (oldSize size : Z) : M state Z :=
  m ← gets (fun s => memoryBytes (sh s));
  mret (int64 (int64 (m - oldSize) + size)).

(** Write the new contents of an existing item and refresh its recency
    ([existing.value = value; ...; sh.lru.moveToFront(existing)]), keeping
    [ttlCount] in step with its expiry. *)
Definition refresh (p : loc) (value : bytes) (expiry size newCAS : Z) : M state unit :=
  existing ← data p;
  let hadTTL := negb (IsZero (e_expiresAt existing)) in
  on_lru (update p (set_data (Entry (e_key existing) value expiry size newCAS))) ;;
  on_lru (moveToFront p) ;;
  if hadTTL && IsZero expiry then modify (with_ttlCount (fun t => t - 1))
  else if negb hadTTL && negb (IsZero expiry) then modify (with_ttlCount (fun t => t + 1))
  else mret tt.

(** The block [if projected > sh.maxMemoryBytes { ... }] of [set]: the final
    projection, or [None] where the block returns [ErrMemoryLimitExceeded]. *)
Definition set_room (key : bytes) (size oldSize projected max now : Z) : M state (option Z) :=
  if max <? projected then
    ttls ← gets (fun s => ttlCount (sh s));
    '(oldSize, projected) ←
      (if 0 <? ttls then
         removeExpiredLocked now ;;
         found ← lookup_key key;
         oldSize ← (match found with
                    | Some old => it ← data old; mret (e_size it)
                    | None => mret 0
                    end);
         projected ← project oldSize size;
         mret (oldSize, projected)
       else mret (oldSize, projected));
    if max <? projected then
      ok ← evictUntilFitsLocked key projected;
      if negb ok then mret None
      else projected ← project oldSize size; mret (Some projected)
    else mret (Some projected)
  else mret (Some projected).

Definition set (key value : bytes) (ttl now : Z) : M state (option error) :=
  maxValue ← gets (fun s => maxValueBytes (sh s));
  if maxValue <? len value then mret (Some ErrValueTooLarge) else
  found ← lookup_key key;
  oldSize ← (match found with
             | Some old =>
                 it ← data old;
                 if expired it now then deleteLocked old ;; mret 0
                 else mret (e_size it)
             | None => mret 0
             end);
  size ← itemSize key (len value);
  max ← gets (fun s => maxMemoryBytes (sh s));
  if max <? size then mret (Some ErrMemoryLimitExceeded) else
  projected ← project oldSize size;
  room ← set_room key size oldSize projected max now;
  match room with
  | None => mret (Some ErrMemoryLimitExceeded)
  | Some projected =>
      let expiry := expiresAt now ttl in
      newCAS ← casCounter_Add1;
      found ← lookup_key key;
      (match found with
       | Some existing => refresh existing value expiry size newCAS
       | None =>
           p ← new_item (Entry key value expiry size newCAS);
           modify (with_items (fun m => <[key := p]> m)) ;;
           on_lru (pushFront p) ;;
           if negb (IsZero expiry) then modify (with_ttlCount (fun t => t + 1)) else mret tt
       end) ;;
      modify (with_memory (fun _ => projected)) ;;
      mret None
  end.

Definition get (key : bytes) (now : Z) : M state (option Item) :=
  found ← lookup_key key;
  match found with
  | None => mret None
  | Some p =>
      it ← data p;
      if expired it now then deleteLocked p ;; mret None
      else
        on_lru (moveToFront p) ;;
        mret (Some (MkItem (cloneBytes (e_value it)) (e_cas it)))
  end.

(** The same block of [cas]: the item and the final projection, or the error
    it returns with. *)
Definition cas_room (key : bytes) (size : Z) (existing : loc) (projected max now : Z)
    : M state (loc * Z + error) :=
  if max <? projected then
    ttls ← gets (fun s => ttlCount (sh s));
    swept ← (if 0 <? ttls then
               removeExpiredLocked now ;;
               found ← lookup_key key;
               match found with
               | None => mret None
               | Some existing =>
                   it ← data existing;
                   projected ← project (e_size it) size;
                   mret (Some (existing, projected))
               end
             else mret (Some (existing, projected)));
    match swept with
    | None => mret (inr ErrNotFound)
    | Some (existing, projected) =>
        if max <? projected then
          ok ← evictUntilFitsLocked key projected;
          if negb ok then mret (inr ErrMemoryLimitExceeded)
          else
            it ← data existing;
            projected ← project (e_size it) size;
            mret (inl (existing, projected))
        else mret (inl (existing, projected))
    end
  else mret (inl (existing, projected)).

Definition cas (key value : bytes) (ttl expected now : Z) : M state (option error) :=
  maxValue ← gets (fun s => maxValueBytes (sh s));
  if maxValue <? len value then mret (Some ErrValueTooLarge) else
  found ← lookup_key key;
  match found with
  | None => mret (Some ErrNotFound)
  | Some existing =>
      it ← data existing;
      if expired it now then deleteLocked existing ;; mret (Some ErrNotFound) else
      if negb (e_cas it =? expected) then mret (Some ErrCasMismatch) else
      size ← itemSize key (len value);
      max ← gets (fun s => maxMemoryBytes (sh s));
      if max <? size then mret (Some ErrMemoryLimitExceeded) else
      projected ← project (e_size it) size;
      room ← cas_room key size existing projected max now;
      match room with
      | inr err => mret (Some err)
      | inl (existing, projected) =>
          let expiry := expiresAt now ttl in
          newCAS ← casCounter_Add1;
          refresh existing value expiry size newCAS ;;
          modify (with_memory (fun _ => projected)) ;;
          mret None
      end
  end.

Definition delete (key : bytes) (now : Z) : M state bool :=
  found ← lookup_key key;
  match found with
  | None => mret false
  | Some p =>
      it ← data p;
      if expired it now then deleteLocked p ;; mret false
      else deleteLocked p ;; mret true
  end.

(** The same block of [incr]. *)
Definition incr_room (key : bytes) (nextSize : Z) (p : loc) (projected max now : Z)
    : M state (loc * Z + error) :=
  if max <? projected then
    ttls ← gets (fun s => ttlCount (sh s));
    swept ← (if 0 <? ttls then
               removeExpiredLocked now ;;
               found ← lookup_key key;
               match found with
               | None => mret None
               | Some p =>
                   it ← data p;
                   projected ← project (e_size it) nextSize;
                   mret (Some (p, projected))
               end
             else mret (Some (p, projected)));
    match swept with
    | None => mret (inr ErrNotFound)
    | Some (p, projected) =>
        ok ← (if max <? projected then evictUntilFitsLocked key projected
              else mret true);
        if negb ok then mret (inr ErrMemoryLimitExceeded)
        else
          it ← data p;
          projected ← project (e_size it) nextSize;
          mret (inl (p, projected))
    end
  else mret (inl (p, projected)).

Definition incr (key : bytes) (delta now : Z) : M state (Z + error) :=
  found ← lookup_key key;
  match found with
  | None => mret (inr ErrNotFound)
  | Some p =>
      it ← data p;
      if expired it now then deleteLocked p ;; mret (inr ErrNotFound) else
      if negb (isDecimal (e_value it)) then mret (inr ErrNotInteger) else
      match ParseUint (e_value it) with
      | inr _ => mret (inr ErrNotInteger)
      | inl current =>
          if MaxUint64 - current <? delta then mret (inr ErrOverflow) else
          let next := uint64 (current + delta) in
          let nextValue := FormatUint next in
          maxValue ← gets (fun s => maxValueBytes (sh s));
          if maxValue <? len nextValue then mret (inr ErrValueTooLarge) else
          nextSize ← itemSize key (len nextValue);
          max ← gets (fun s => maxMemoryBytes (sh s));
          if max <? nextSize then mret (inr ErrMemoryLimitExceeded) else
          projected ← project (e_size it) nextSize;
          room ← incr_room key nextSize p projected max now;
          match room with
          | inr err => mret (inr err)
          | inl (p, projected) =>
              newCAS ← casCounter_Add1;
              it ← data p;
              on_lru (update p (set_data
                (Entry (e_key it) nextValue (e_expiresAt it) nextSize newCAS))) ;;
              on_lru (moveToFront p) ;;
              modify (with_memory (fun _ => projected)) ;;
              mret (inl next)
          end
      end
  end.

Definition memoryBytesSnapshot : M state Z := gets (fun s => memoryBytes (sh s)).

End Methods.
End Method.
