(* ===== verification/ShardSpec.v ===== *)
(** * What a shard promises

    The abstract shard: a list of entries, most recently used first, with
    distinct keys, and two counters.  There are no pointers, no running totals
    and no machine integers here; every operation is a function on that list.
    [ShardRefine] shows that the methods of [Shard] implement these functions;
    this file proves what the functions guarantee: the memory budget, exact LRU
    order of eviction, and which entries each operation keeps. *)

From S2P Require Import Prelude Lru Strconv Shard.

(** ** Entries by key *)

Abbreviation entries := (list entry).
Abbreviation keys es := (map e_key es).

Definition find_key (k : bytes) (es : entries) : option entry :=
  find (fun e => bool_decide (e_key e = k)) es.

Definition remove_key (k : bytes) (es : entries) : entries :=
  filter (fun e => e_key e <> k) es.

Definition total (es : entries) : Z := sumZ (map e_size es).

Definition hasTTL (e : entry) : bool := negb (IsZero (e_expiresAt e)).

Definition live (now : Z) (es : entries) : entries :=
  filter (fun e => expired e now = false) es.

(** ** Configuration and state *)

Record limits := Limits { l_maxValue : Z; l_maxMemory : Z; l_overhead : Z }.

Record cache := Cache { c_entries : entries; c_evictions : Z; c_expirations : Z }.

Definition size_of (L : limits) (k : bytes) (n : Z) : Z := len k + n + l_overhead L.

(** Does an item of [size] bytes under key [k] fit beside the other entries? *)
Definition fits (L : limits) (k : bytes) (size : Z) (es : entries) : bool :=
  total (remove_key k es) + size <=? l_maxMemory L.

(** ** Making room *)

(** Drop the entry under [k] if it is past its expiry. *)
Definition drop_expired (k : bytes) (now : Z) (es : entries) : entries :=
  match find_key k es with
  | Some e => if expired e now then remove_key k es else es
  | None => es
  end.

Definition bump (n : Z) (c : Z) : Z := if 0 <? n then uint64 (c + uint64 n) else c.

Definition sweep (now : Z) (c : cache) : cache :=
  let es := live now (c_entries c) in
  Cache es (c_evictions c)
    (bump (len (c_entries c) - len es) (c_expirations c)).

(** Evict from the least recently used end ([rs] lists that end first), never
    the protected key, until [projected] is within the limit.  Returns what is
    left, the new projection and the number of evictions. *)
Fixpoint evict_from (max : Z) (k : bytes) (projected : Z) (rs : entries) : entries * Z * Z :=
  match rs with
  | [] => ([], projected, 0)
  | e :: rs' =>
      if projected <=? max then (rs, projected, 0)
      else if decide (e_key e = k) then
        let '(kept, p, n) := evict_from max k projected rs' in (e :: kept, p, n)
      else
        let '(kept, p, n) := evict_from max k (projected - e_size e) rs' in (kept, p, n + 1)
  end.

Definition evict (L : limits) (k : bytes) (size : Z) (c : cache) : cache :=
  let '(kept, _, n) :=
    evict_from (l_maxMemory L) k (total (remove_key k (c_entries c)) + size) (rev (c_entries c)) in
  Cache (rev kept) (bump n (c_evictions c)) (c_expirations c).

(** Expired entries go first; live ones are evicted only if that is not enough. *)
Definition make_room (L : limits) (k : bytes) (size now : Z) (c : cache) : cache :=
  if fits L k size (c_entries c) then c
  else
    let c := sweep now c in
    if fits L k size (c_entries c) then c else evict L k size c.

(** ** Operations *)

Definition with_entries (es : entries) (c : cache) : cache :=
  Cache es (c_evictions c) (c_expirations c).

(** Store [e] as the most recently used entry. *)
Definition put (e : entry) (c : cache) : cache :=
  with_entries (e :: remove_key (e_key e) (c_entries c)) c.

Module Spec.

Definition set (L : limits) (k v : bytes) (ttl now : Z) (cc : cache * Z)
    : option error * (cache * Z) :=
  let '(c, n) := cc in
  if l_maxValue L <? len v then (Some ErrValueTooLarge, (c, n)) else
  let c := with_entries (drop_expired k now (c_entries c)) c in
  let size := size_of L k (len v) in
  if l_maxMemory L <? size then (Some ErrMemoryLimitExceeded, (c, n)) else
  let c := make_room L k size now c in
  let n := uint64 (n + 1) in
  (None, (put (Entry k v (expiresAt now ttl) size n) c, n)).

Definition get (k : bytes) (now : Z) (cc : cache * Z) : option Item * (cache * Z) :=
  let '(c, n) := cc in
  match find_key k (c_entries c) with
  | None => (None, (c, n))
  | Some e =>
      if expired e now then (None, (with_entries (remove_key k (c_entries c)) c, n))
      else (Some (MkItem (e_value e) (e_cas e)), (put e c, n))
  end.

Definition cas (L : limits) (k v : bytes) (ttl expected now : Z) (cc : cache * Z)
    : option error * (cache * Z) :=
  let '(c, n) := cc in
  if l_maxValue L <? len v then (Some ErrValueTooLarge, (c, n)) else
  match find_key k (c_entries c) with
  | None => (Some ErrNotFound, (c, n))
  | Some e =>
      if expired e now
      then (Some ErrNotFound, (with_entries (remove_key k (c_entries c)) c, n))
      else if negb (e_cas e =? expected) then (Some ErrCasMismatch, (c, n))
      else
        let size := size_of L k (len v) in
        if l_maxMemory L <? size then (Some ErrMemoryLimitExceeded, (c, n)) else
        let c := make_room L k size now c in
        let n := uint64 (n + 1) in
        (None, (put (Entry k v (expiresAt now ttl) size n) c, n))
  end.

Definition delete (k : bytes) (now : Z) (cc : cache * Z) : bool * (cache * Z) :=
  let '(c, n) := cc in
  match find_key k (c_entries c) with
  | None => (false, (c, n))
  | Some e => (negb (expired e now), (with_entries (remove_key k (c_entries c)) c, n))
  end.

Definition incr (L : limits) (k : bytes) (delta now : Z) (cc : cache * Z)
    : (Z + error) * (cache * Z) :=
  let '(c, n) := cc in
  match find_key k (c_entries c) with
  | None => (inr ErrNotFound, (c, n))
  | Some e =>
      if expired e now
      then (inr ErrNotFound, (with_entries (remove_key k (c_entries c)) c, n))
      else
        match ParseUint (e_value e) with
        | inr _ => (inr ErrNotInteger, (c, n))
        | inl current =>
            if MaxUint64 <? current + delta then (inr ErrOverflow, (c, n)) else
            let v := FormatUint (current + delta) in
            let size := size_of L k (len v) in
            if l_maxValue L <? len v then (inr ErrValueTooLarge, (c, n))
            else if l_maxMemory L <? size then (inr ErrMemoryLimitExceeded, (c, n))
            else
              let c := make_room L k size now c in
              let n := uint64 (n + 1) in
              (inl (current + delta), (put (Entry k v (e_expiresAt e) size n) c, n))
        end
  end.

Definition cleanupExpired (now : Z) (cc : cache * Z) : Z * (cache * Z) :=
  let '(c, n) := cc in
  (len (c_entries c) - len (live now (c_entries c)), (sweep now c, n)).

End Spec.

(** ** Lemmas on entries by key *)

Lemma find_key_Some k es e :
  find_key k es = Some e -> exists l1 l2, es = l1 ++ e :: l2 /\ e_key e = k /\ k ∉ keys l1.
Proof.
  unfold find_key. induction es as [|x es IH]; simpl; [done|].
  case_bool_decide as Hk.
  - intros [= ->]. exists [], es. set_solver.
  - intros (l1 & l2 & -> & He & Hl)%IH. exists (x :: l1), l2. set_solver.
Qed.

Lemma find_key_None k es : find_key k es = None <-> k ∉ keys es.
Proof.
  unfold find_key. induction es as [|x es IH]; simpl; [set_solver|].
  case_bool_decide as Hk; rewrite ?IH, not_elem_of_cons; naive_solver.
Qed.

Lemma find_key_elem k es e : find_key k es = Some e -> e ∈ es /\ e_key e = k.
Proof. intros (l1 & l2 & -> & He & _)%find_key_Some. set_solver. Qed.

Lemma find_key_unique es e :
  NoDup (keys es) -> e ∈ es -> find_key (e_key e) es = Some e.
Proof.
  unfold find_key. induction es as [|x es IH]; simpl; [set_solver|].
  intros [Hx Hnd]%NoDup_cons [->|He]%elem_of_cons.
  - by rewrite bool_decide_true.
  - rewrite bool_decide_false; [by apply IH|]. intros Heq. apply Hx. rewrite Heq.
    by apply list_elem_of_fmap_2.
Qed.

Lemma find_key_iff es k e :
  NoDup (keys es) -> find_key k es = Some e <-> e ∈ es /\ e_key e = k.
Proof.
  intros Hnd. split; [apply find_key_elem|]. intros [He <-]. by apply find_key_unique.
Qed.

Lemma remove_key_absent k es : k ∉ keys es -> remove_key k es = es.
Proof.
  unfold remove_key. induction es as [|x es IH]; simpl; [done|].
  rewrite not_elem_of_cons. intros [Hx Hes].
  rewrite filter_cons_True by done. by rewrite IH.
Qed.

Lemma remove_key_app k l1 l2 : remove_key k (l1 ++ l2) = remove_key k l1 ++ remove_key k l2.
Proof. apply filter_app. Qed.

Lemma remove_key_cons_eq k e es : e_key e = k -> remove_key k (e :: es) = remove_key k es.
Proof. intros. unfold remove_key. by rewrite filter_cons_False by naive_solver. Qed.

Lemma remove_key_cons_ne k e es :
  e_key e <> k -> remove_key k (e :: es) = e :: remove_key k es.
Proof. intros. unfold remove_key. by rewrite filter_cons_True. Qed.

Lemma remove_key_split l1 e l2 :
  NoDup (keys (l1 ++ e :: l2)) -> remove_key (e_key e) (l1 ++ e :: l2) = l1 ++ l2.
Proof.
  rewrite map_app. simpl. intros (N1 & N2 & [Hx N3]%NoDup_cons)%NoDup_app.
  rewrite remove_key_app, remove_key_cons_eq by done.
  rewrite !remove_key_absent; [done|done|].
  intros ?. eapply N2; [done|set_solver].
Qed.

Lemma elem_of_remove_key k es e : e ∈ remove_key k es <-> e ∈ es /\ e_key e <> k.
Proof. unfold remove_key. rewrite list_elem_of_filter. naive_solver. Qed.

Lemma keys_sublist es es' : es' `sublist_of` es -> keys es' `sublist_of` keys es.
Proof. induction 1; simpl; by constructor. Qed.

Lemma NoDup_keys_sublist es es' :
  es' `sublist_of` es -> NoDup (keys es) -> NoDup (keys es').
Proof. intros Hs%keys_sublist ?. by eapply sublist_NoDup. Qed.

Lemma remove_key_sublist k es : remove_key k es `sublist_of` es.
Proof. apply sublist_filter. Qed.

Lemma live_sublist now es : live now es `sublist_of` es.
Proof. apply sublist_filter. Qed.

Lemma remove_key_not_in k es : k ∉ keys (remove_key k es).
Proof. intros (e & -> & [_ ?]%elem_of_remove_key)%list_elem_of_fmap. done. Qed.

Lemma find_key_remove_eq k es : find_key k (remove_key k es) = None.
Proof. apply find_key_None, remove_key_not_in. Qed.

Lemma find_key_remove_ne k k' es :
  k <> k' -> find_key k' (remove_key k es) = find_key k' es.
Proof.
  intros Hne. induction es as [|e es IH]; [done|].
  destruct (decide (e_key e = k)) as [He|He].
  - rewrite remove_key_cons_eq, IH by done. unfold find_key. simpl.
    by rewrite bool_decide_false by congruence.
  - rewrite remove_key_cons_ne by done. unfold find_key in *. simpl.
    case_bool_decide; [done|exact IH].
Qed.

(** ** Accounted sizes *)

Definition sizes_nonneg (es : entries) : Prop := Forall (fun e => 0 <= e_size e) es.

Lemma total_app l1 l2 : total (l1 ++ l2) = total l1 + total l2.
Proof. unfold total. by rewrite map_app, sumZ_app. Qed.

Lemma total_cons e es : total (e :: es) = e_size e + total es.
Proof. done. Qed.

Lemma total_rev es : total (rev es) = total es.
Proof. unfold total. by rewrite map_rev, sumZ_rev. Qed.

Lemma total_nonneg es : sizes_nonneg es -> 0 <= total es.
Proof. intros H. apply sumZ_nonneg. by apply Forall_map. Qed.

Lemma total_sublist es es' : es' `sublist_of` es -> sizes_nonneg es -> total es' <= total es.
Proof.
  induction 1 as [|e l1 l2 Hs IH|e l1 l2 Hs IH]; [done|..];
    intros [? ?]%Forall_cons; rewrite ?total_cons; specialize (IH ltac:(done)); lia.
Qed.

Lemma total_split l1 e l2 : total (l1 ++ e :: l2) = e_size e + total (l1 ++ l2).
Proof. rewrite !total_app, total_cons. lia. Qed.

Lemma total_remove_key k es e :
  NoDup (keys es) -> find_key k es = Some e ->
  total (remove_key k es) = total es - e_size e.
Proof.
  intros Hnd (l1 & l2 & -> & <- & _)%find_key_Some.
  rewrite remove_key_split, total_split by done. lia.
Qed.

(** ** Eviction *)

Definition protected (k : bytes) (es : entries) : entries := filter (fun e => e_key e = k) es.

Lemma remove_key_protected k es : remove_key k (protected k es) = [].
Proof.
  unfold protected. induction es as [|e es IH]; [done|].
  destruct (decide (e_key e = k)).
  - rewrite filter_cons_True by done. by rewrite remove_key_cons_eq.
  - by rewrite filter_cons_False.
Qed.

Lemma remove_key_rev k es : remove_key k (rev es) = rev (remove_key k es).
Proof.
  induction es as [|e es IH]; [done|]. simpl. rewrite remove_key_app, IH.
  destruct (decide (e_key e = k)).
  - by rewrite !remove_key_cons_eq, app_nil_r.
  - by rewrite !remove_key_cons_ne.
Qed.

Lemma protected_rev k es : protected k (rev es) = rev (protected k es).
Proof.
  unfold protected. induction es as [|e es IH]; [done|]. simpl. rewrite filter_app, IH.
  destruct (decide (e_key e = k)).
  - by rewrite !filter_cons_True.
  - by rewrite !filter_cons_False, app_nil_r.
Qed.

Lemma evict_from_spec max k p rs kept p' n :
  evict_from max k p rs = (kept, p', n) ->
  exists r1 r2, rs = r1 ++ r2 /\ kept = protected k r1 ++ r2 /\
    p' = p - total (remove_key k r1) /\ n = len (remove_key k r1) /\
    (r2 = [] \/ p' <= max) /\
    (forall a e b, r1 = a ++ e :: b -> max < p - total (remove_key k a)).
Proof.
  revert p kept p' n. induction rs as [|e rs IH]; intros p kept p' n; simpl.
  { intros [= <- <- <-]. exists [], []. split_and!; auto; [cbn; lia|by intros [] ??]. }
  destruct (Z.leb_spec p max) as [Hp|Hp].
  { intros [= <- <- <-]. exists [], (e :: rs). split_and!; auto; [cbn; lia|by intros [] ??]. }
  case_decide as Hk; destruct (evict_from _ _ _ rs) as [[kept0 p0] n0] eqn:E;
    intros [= <- <- <-]; apply IH in E as (r1 & r2 & -> & -> & -> & -> & Hr & Hmin);
    exists (e :: r1), r2; (split; [done|]); unfold protected.
  - rewrite filter_cons_True, remove_key_cons_eq by done. split_and!; try done.
    intros [|y a] e' b; simpl; intros [= <- Hr1]; [cbn; lia|].
    rewrite remove_key_cons_eq by done. by eapply Hmin.
  - rewrite filter_cons_False, remove_key_cons_ne, total_cons, len_cons by done.
    split_and!; [done|lia|lia|done|].
    intros [|y a] e' b; simpl; intros [= <- Hr1]; [cbn; lia|].
    rewrite remove_key_cons_ne, total_cons by done. apply Hmin in Hr1. lia.
Qed.

(** Eviction takes the least recently used entries, all but the protected one
    of a suffix of the recency order; enough of them; and no more than needed. *)
Lemma evict_spec L k size c :
  exists front back, c_entries c = front ++ back /\
    c_entries (evict L k size c) = front ++ protected k back /\
    c_evictions (evict L k size c) = bump (len (remove_key k back)) (c_evictions c) /\
    c_expirations (evict L k size c) = c_expirations c /\
    (size <= l_maxMemory L -> fits L k size (c_entries (evict L k size c)) = true) /\
    (forall a e b, back = a ++ e :: b ->
       l_maxMemory L < total (remove_key k (front ++ a ++ [e])) + size).
Proof.
  unfold evict. destruct (evict_from _ _ _ _) as [[kept p'] n] eqn:E.
  apply evict_from_spec in E as (r1 & r2 & Hrs & -> & Hp' & -> & Hr & Hmin).
  assert (Hes : c_entries c = rev r2 ++ rev r1).
  { by rewrite <- (rev_involutive (c_entries c)), Hrs, rev_app_distr. }
  exists (rev r2), (rev r1). simpl. rewrite rev_app_distr, <- protected_rev.
  split_and!; try done.
  - unfold len. by rewrite remove_key_rev, length_rev.
  - intros Hs. apply Z.leb_le. rewrite remove_key_app, remove_key_protected, app_nil_r.
    rewrite Hes, remove_key_app, total_app, !remove_key_rev, !total_rev in Hp'.
    rewrite remove_key_rev, total_rev. destruct Hr as [->|Hr]; [cbn|]; lia.
  - intros a e b Hb. rewrite Hb in Hes. apply (f_equal (@rev entry)) in Hb.
    rewrite rev_involutive, rev_app_distr in Hb. simpl in Hb. rewrite <- app_assoc in Hb.
    pose proof (Hmin _ _ _ Hb) as Hlt. rewrite Hes in Hlt.
    change (e :: b) with ([e] ++ b) in Hlt.
    rewrite remove_key_rev, total_rev in Hlt.
    rewrite !remove_key_app, !total_app in *. lia.
Qed.

Lemma protected_sublist k es : protected k es `sublist_of` es.
Proof. apply sublist_filter. Qed.

Lemma evict_sublist L k size c : c_entries (evict L k size c) `sublist_of` c_entries c.
Proof.
  destruct (evict_spec L k size c) as (f & b & -> & -> & _).
  apply sublist_app; [done|apply protected_sublist].
Qed.

Lemma sweep_sublist now c : c_entries (sweep now c) `sublist_of` c_entries c.
Proof. apply live_sublist. Qed.

Lemma make_room_sublist L k size now c :
  c_entries (make_room L k size now c) `sublist_of` c_entries c.
Proof.
  unfold make_room. destruct (fits _ _ _ _); [done|]. destruct (fits _ _ _ _).
  - apply sweep_sublist.
  - etrans; [apply evict_sublist|apply sweep_sublist].
Qed.

Lemma make_room_fits L k size now c :
  size <= l_maxMemory L -> fits L k size (c_entries (make_room L k size now c)) = true.
Proof.
  intros Hs. unfold make_room. destruct (fits _ _ _ (c_entries c)) eqn:E; [done|].
  destruct (fits _ _ _ (c_entries (sweep now c))) eqn:E'; [done|].
  destruct (evict_spec L k size (sweep now c)) as (f & b & _ & _ & _ & _ & H & _). auto.
Qed.

(** The protected key survives eviction; any entry under it does. *)
Lemma evict_protects L k size c e :
  e_key e = k -> e ∈ c_entries c -> e ∈ c_entries (evict L k size c).
Proof.
  intros Hk. destruct (evict_spec L k size c) as (f & b & -> & -> & _).
  rewrite !elem_of_app. intros [?|?]; [auto|right].
  unfold protected. by apply list_elem_of_filter.
Qed.

Lemma elem_of_live now es e : e ∈ live now es <-> e ∈ es /\ expired e now = false.
Proof. unfold live. rewrite list_elem_of_filter. naive_solver. Qed.

Lemma make_room_protects L k size now c e :
  e_key e = k -> expired e now = false ->
  e ∈ c_entries c -> e ∈ c_entries (make_room L k size now c).
Proof.
  intros Hk Hx He. unfold make_room. destruct (fits _ _ _ _); [done|].
  assert (e ∈ c_entries (sweep now c)) by by apply elem_of_live.
  destruct (fits _ _ _ _); [done|]. by apply evict_protects.
Qed.

(** ** Well-formedness *)

Definition wf_limits (L : limits) : Prop :=
  0 < l_maxValue L /\ 0 < l_maxMemory L /\ 0 <= l_overhead L.

Definition entry_ok (L : limits) (e : entry) : Prop :=
  e_size e = size_of L (e_key e) (len (e_value e)) /\ len (e_value e) <= l_maxValue L.

Record wf (L : limits) (c : cache) : Prop := Wf {
  wf_nodup : NoDup (keys (c_entries c));
  wf_entries : Forall (entry_ok L) (c_entries c);
  wf_total : total (c_entries c) <= l_maxMemory L
}.

Lemma entry_ok_nonneg L e : wf_limits L -> entry_ok L e -> 0 <= e_size e.
Proof.
  intros (_ & _ & ?) [-> _]. unfold size_of.
  pose proof (len_nonneg (e_key e)). pose proof (len_nonneg (e_value e)). lia.
Qed.

Lemma wf_nonneg L c : wf_limits L -> wf L c -> sizes_nonneg (c_entries c).
Proof.
  intros HL Hwf. eapply Forall_impl; [apply (wf_entries _ _ Hwf)|].
  intros e. by apply entry_ok_nonneg.
Qed.

(** Dropping entries keeps a shard well-formed. *)
Lemma wf_sublist L c c' :
  wf_limits L -> wf L c -> c_entries c' `sublist_of` c_entries c -> wf L c'.
Proof.
  intros HL Hwf Hs. split.
  - by eapply NoDup_keys_sublist, wf_nodup.
  - eapply Forall_sublist_of; [done|apply Hwf].
  - etrans; [apply total_sublist; [done|by eapply wf_nonneg]|apply Hwf].
Qed.

(** So does storing an entry that fits. *)
Lemma wf_put L c e :
  wf_limits L -> wf L c -> entry_ok L e ->
  fits L (e_key e) (e_size e) (c_entries c) = true -> wf L (put e c).
Proof.
  intros HL Hwf He Hf%Z.leb_le. unfold put. split; simpl.
  - apply NoDup_cons. split; [apply remove_key_not_in|].
    eapply NoDup_keys_sublist; [apply remove_key_sublist|apply Hwf].
  - constructor; [done|]. eapply Forall_sublist_of; [apply remove_key_sublist|apply Hwf].
  - rewrite total_cons. lia.
Qed.

(** Moving an entry to the front keeps the total. *)
Lemma wf_touch L c k e :
  wf_limits L -> wf L c -> find_key k (c_entries c) = Some e -> wf L (put e c).
Proof.
  intros HL Hwf Hf. pose proof (find_key_elem _ _ _ Hf) as [He <-].
  apply wf_put; [done..| |].
  - pose proof (wf_entries _ _ Hwf) as HF. rewrite Forall_forall in HF. by apply HF.
  - apply Z.leb_le. erewrite total_remove_key by (done || apply Hwf).
    pose proof (wf_total _ _ Hwf). lia.
Qed.

Lemma drop_expired_sublist k now es : drop_expired k now es `sublist_of` es.
Proof.
  unfold drop_expired. destruct (find_key k es); [|done].
  destruct (expired _ _); [apply remove_key_sublist|done].
Qed.

(** Writing [v] under [k] after making room for it. *)
Lemma wf_write L c k v t size now n :
  wf_limits L -> wf L c -> len v <= l_maxValue L ->
  size = size_of L k (len v) -> size <= l_maxMemory L ->
  wf L (put (Entry k v t size n) (make_room L k size now c)).
Proof.
  intros HL Hwf Hv -> Hs. apply wf_put; [done| |by split|].
  - eapply wf_sublist; [done..|]. apply make_room_sublist.
  - by apply make_room_fits.
Qed.

(** ** Operations as a transition system *)

Inductive op :=
| OpSet (k v : bytes) (ttl : Z)
| OpGet (k : bytes)
| OpCas (k v : bytes) (ttl expected : Z)
| OpDelete (k : bytes)
| OpIncr (k : bytes) (delta : Z)
| OpCleanup.

Inductive reply :=
| RError (e : option error)
| RItem (i : option Item)
| RDeleted (b : bool)
| RIncr (r : Z + error)
| RCount (n : Z).

Definition spec_step (L : limits) (o : op) (now : Z) (cc : cache * Z) : reply * (cache * Z) :=
  match o with
  | OpSet k v ttl => let '(r, cc) := Spec.set L k v ttl now cc in (RError r, cc)
  | OpGet k => let '(r, cc) := Spec.get k now cc in (RItem r, cc)
  | OpCas k v ttl x => let '(r, cc) := Spec.cas L k v ttl x now cc in (RError r, cc)
  | OpDelete k => let '(r, cc) := Spec.delete k now cc in (RDeleted r, cc)
  | OpIncr k d => let '(r, cc) := Spec.incr L k d now cc in (RIncr r, cc)
  | OpCleanup => let '(r, cc) := Spec.cleanupExpired now cc in (RCount r, cc)
  end.

Lemma spec_step_wf L o now c n r c' n' :
  wf_limits L -> wf L c -> spec_step L o now (c, n) = (r, (c', n')) -> wf L c'.
Proof.
  intros HL Hwf.
  assert (Hrem : forall k, wf L (with_entries (remove_key k (c_entries c)) c)).
  { intros k. eapply wf_sublist; [done..|]. apply remove_key_sublist. }
  assert (Hdrop : forall k, wf L (with_entries (drop_expired k now (c_entries c)) c)).
  { intros k. eapply wf_sublist; [done..|]. apply drop_expired_sublist. }
  destruct o as [k v ttl|k|k v ttl x|k|k d|]; simpl; intros Hstep.
  - destruct (Z.ltb_spec (l_maxValue L) (len v)); [simplify_eq; auto|].
    destruct (Z.ltb_spec (l_maxMemory L) (size_of L k (len v))); simplify_eq; [by auto|].
    by apply wf_write.
  - destruct (find_key k (c_entries c)) as [e|] eqn:E; [|simplify_eq; auto].
    destruct (expired e now); simplify_eq; [by auto|]. by eapply wf_touch.
  - destruct (Z.ltb_spec (l_maxValue L) (len v)); [simplify_eq; auto|].
    destruct (find_key k (c_entries c)) as [e|] eqn:E; [|simplify_eq; auto].
    destruct (expired e now); [simplify_eq; auto|].
    destruct (e_cas e =? x); simpl in Hstep; [|simplify_eq; auto].
    destruct (Z.ltb_spec (l_maxMemory L) (size_of L k (len v))); simplify_eq; [by auto|].
    by apply wf_write.
  - destruct (find_key k (c_entries c)) as [e|] eqn:E; simplify_eq; auto.
  - destruct (find_key k (c_entries c)) as [e|] eqn:E; [|simplify_eq; auto].
    destruct (expired e now); [simplify_eq; auto|].
    destruct (ParseUint (e_value e)) as [cur|]; [|simplify_eq; auto].
    destruct (Z.ltb_spec MaxUint64 (cur + d)); [simplify_eq; auto|].
    destruct (Z.ltb_spec (l_maxValue L) (len (FormatUint (cur + d)))); [simplify_eq; auto|].
    destruct (Z.ltb_spec (l_maxMemory L) (size_of L k (len (FormatUint (cur + d)))));
      simplify_eq; [by auto|]. by apply wf_write.
  - simplify_eq. eapply wf_sublist; [done..|]. apply sweep_sublist.
Qed.

(** ** What survives *)

(** In a part of a duplicate-free list that keeps [k]'s entry, [k] is found as before. *)
Lemma find_key_sublist k es es' :
  NoDup (keys es) -> es' `sublist_of` es ->
  (forall e, find_key k es = Some e -> e ∈ es') -> find_key k es' = find_key k es.
Proof.
  intros Hnd Hs Hkeep. destruct (find_key k es) as [e|] eqn:E.
  - pose proof (find_key_elem _ _ _ E) as [_ Hk]. apply find_key_iff; [by eapply NoDup_keys_sublist|].
    split; [by apply Hkeep|done].
  - apply find_key_None. intros (e & -> & He)%list_elem_of_fmap.
    apply find_key_None in E. apply E. eapply list_elem_of_fmap_2. by eapply sublist_elem.
Qed.

(** A part of a list never shows another entry under a key. *)
Lemma find_key_sublist_Some k es es' e :
  NoDup (keys es) -> es' `sublist_of` es -> find_key k es' = Some e -> find_key k es = Some e.
Proof.
  intros Hnd Hs [He Hk]%find_key_elem. apply find_key_iff; [done|].
  split; [by eapply sublist_elem|done].
Qed.

Lemma find_key_evict L k size c :
  NoDup (keys (c_entries c)) ->
  find_key k (c_entries (evict L k size c)) = find_key k (c_entries c).
Proof.
  intros Hnd. apply find_key_sublist; [done|apply evict_sublist|].
  intros e [He Hk]%find_key_elem. by apply evict_protects.
Qed.

Lemma find_key_sweep k now c :
  NoDup (keys (c_entries c)) ->
  (forall e, find_key k (c_entries c) = Some e -> expired e now = false) ->
  find_key k (c_entries (sweep now c)) = find_key k (c_entries c).
Proof.
  intros Hnd Hx. apply find_key_sublist; [done|apply sweep_sublist|].
  intros e He. apply elem_of_live. split; [by apply find_key_elem in He as []|by apply Hx].
Qed.

Lemma find_key_drop_expired k now es e :
  NoDup (keys es) -> find_key k (drop_expired k now es) = Some e ->
  find_key k es = Some e /\ expired e now = false.
Proof.
  intros Hnd. unfold drop_expired. destruct (find_key k es) as [f|] eqn:E; [|by rewrite E].
  destruct (expired f now) eqn:Hx; [by rewrite find_key_remove_eq|].
  rewrite E. intros [= ->]. done.
Qed.

(** The accounted size under a key, 0 when there is none. *)
Definition old_size (k : bytes) (es : entries) : Z :=
  match find_key k es with Some e => e_size e | None => 0 end.

Lemma total_remove_old k es :
  NoDup (keys es) -> total (remove_key k es) = total es - old_size k es.
Proof.
  intros Hnd. unfold old_size. destruct (find_key k es) as [e|] eqn:E.
  - by apply total_remove_key.
  - apply find_key_None in E. rewrite remove_key_absent by done. lia.
Qed.

Lemma evict_from_fits max k size es kept p' m :
  size <= max -> evict_from max k (total (remove_key k es) + size) (rev es) = (kept, p', m) ->
  p' <= max.
Proof.
  intros Hs E. apply evict_from_spec in E as (r1 & r2 & Hrs & _ & -> & _ & [->|?] & _); [|done].
  rewrite app_nil_r in Hrs. rewrite <- Hrs, remove_key_rev, total_rev. lia.
Qed.

Lemma find_key_make_room L k size now c :
  NoDup (keys (c_entries c)) ->
  (forall e, find_key k (c_entries c) = Some e -> expired e now = false) ->
  find_key k (c_entries (make_room L k size now c)) = find_key k (c_entries c).
Proof.
  intros Hnd Hx. unfold make_room. destruct (fits _ _ _ (c_entries c)); [done|].
  assert (Hnd' : NoDup (keys (c_entries (sweep now c)))).
  { eapply NoDup_keys_sublist; [apply sweep_sublist|done]. }
  destruct (fits _ _ _ _); [|rewrite find_key_evict by done]; by apply find_key_sweep.
Qed.

(** ** Effect of an operation on lookups *)

(** What a completed operation wrote: the key and the value. *)
Definition written (o : op) (r : reply) : option (bytes * bytes) :=
  match o, r with
  | OpSet k v _, RError None => Some (k, v)
  | OpCas k v _ _, RError None => Some (k, v)
  | OpIncr k _, RIncr (inl m) => Some (k, FormatUint m)
  | _, _ => None
  end.

Definition deleted (o : op) (r : reply) : option bytes :=
  match o, r with
  | OpDelete k, RDeleted true => Some k
  | _, _ => None
  end.

(** [es'] shows nothing that [es] does not show. *)
Definition shows_less (es es' : entries) : Prop :=
  forall k e, find_key k es' = Some e -> find_key k es = Some e.

Lemma shows_less_sublist es es' :
  NoDup (keys es) -> es' `sublist_of` es -> shows_less es es'.
Proof. intros Hnd Hs k e. by apply find_key_sublist_Some. Qed.

Lemma shows_less_trans es1 es2 es3 :
  shows_less es1 es2 -> shows_less es2 es3 -> shows_less es1 es3.
Proof. intros H1 H2 k e He. by apply H1, H2. Qed.

Lemma shows_less_remove_key k es : shows_less es (remove_key k es).
Proof.
  intros k' e He. destruct (decide (k = k')) as [->|].
  - by rewrite find_key_remove_eq in He.
  - by rewrite find_key_remove_ne in He.
Qed.

Lemma find_key_put_eq e c : find_key (e_key e) (c_entries (put e c)) = Some e.
Proof. unfold find_key. simpl. by rewrite bool_decide_true. Qed.

Lemma find_key_put_ne e c k :
  k <> e_key e -> find_key k (c_entries (put e c)) = find_key k (c_entries c).
Proof.
  intros Hk. unfold find_key at 1. simpl. rewrite bool_decide_false by done.
  apply find_key_remove_ne. done.
Qed.

(** Looking an entry up only refreshes it. *)
Lemma shows_less_touch k e c :
  find_key k (c_entries c) = Some e -> shows_less (c_entries c) (c_entries (put e c)).
Proof.
  intros Hf k' e'. pose proof (find_key_elem _ _ _ Hf) as [_ Hk].
  destruct (decide (k' = e_key e)) as [->|].
  - rewrite find_key_put_eq. intros [= ->]. congruence.
  - by rewrite find_key_put_ne.
Qed.

(** A write under [k] makes its entry visible and shows no other entry anew. *)
Definition write_effect (es : entries) (k v : bytes) (n : Z) (es' : entries) : Prop :=
  (exists e, find_key k es' = Some e /\ e_value e = v /\ e_cas e = n) /\
  forall k' e, k' <> k -> find_key k' es' = Some e -> find_key k' es = Some e.

Lemma write_effect_put L c k v t size now n es :
  NoDup (keys (c_entries c)) -> shows_less es (c_entries c) ->
  write_effect es k v n (c_entries (put (Entry k v t size n) (make_room L k size now c))).
Proof.
  intros Hnd Hs. split.
  - eexists. split; [apply (find_key_put_eq (Entry k v t size n))|done].
  - intros k' e Hk. rewrite find_key_put_ne by done. intros He. apply Hs.
    by eapply (shows_less_sublist (c_entries c)); [|apply make_room_sublist|].
Qed.

Definition effect (o : op) (r : reply) (es : entries) (n : Z) (es' : entries) (n' : Z) : Prop :=
  (forall k, deleted o r = Some k -> find_key k es' = None) /\
  match written o r with
  | Some (k, v) => n' = uint64 (n + 1) /\ write_effect es k v n' es'
  | None => n' = n /\ shows_less es es'
  end.

Lemma spec_step_effect L o now c n r c' n' :
  wf L c -> spec_step L o now (c, n) = (r, (c', n')) ->
  effect o r (c_entries c) n (c_entries c') n'.
Proof.
  intros Hwf. pose proof (wf_nodup _ _ Hwf) as Hnd.
  assert (Hrem : forall k, shows_less (c_entries c) (remove_key k (c_entries c)))
    by (intros; apply shows_less_remove_key).
  assert (Hdrop : forall k, shows_less (c_entries c) (drop_expired k now (c_entries c)))
    by (intros; apply shows_less_sublist; [done|apply drop_expired_sublist]).
  assert (Hid : shows_less (c_entries c) (c_entries c)) by (intros ??; done).
  destruct o as [k v ttl|k|k v ttl x|k|k d|]; simpl; intros Hstep; unfold effect; simpl.
  - destruct (l_maxValue L <? len v); [simplify_eq; simpl; done|].
    destruct (l_maxMemory L <? size_of L k (len v)); simplify_eq; simpl; [by auto|].
    split; [done|]. split; [done|]. apply write_effect_put; [|apply Hdrop]. simpl.
    eapply NoDup_keys_sublist; [apply drop_expired_sublist|done].
  - destruct (find_key k (c_entries c)) as [e|] eqn:E; [|simplify_eq; simpl; done].
    destruct (expired e now); simplify_eq; simpl; [done|].
    split; [done|]. split; [done|]. by eapply shows_less_touch.
  - destruct (l_maxValue L <? len v); [simplify_eq; simpl; done|].
    destruct (find_key k (c_entries c)) as [e|] eqn:E; [|simplify_eq; simpl; done].
    destruct (expired e now); [simplify_eq; simpl; done|].
    destruct (e_cas e =? x); simpl in Hstep; [|simplify_eq; simpl; done].
    destruct (l_maxMemory L <? size_of L k (len v)); simplify_eq; simpl; [done|].
    split; [done|]. split; [done|]. by apply write_effect_put.
  - destruct (find_key k (c_entries c)) as [e|] eqn:E; simplify_eq; simpl; [|done].
    split; [|done]. intros k'. destruct (negb _); [|done]. intros [= <-]. apply find_key_remove_eq.
  - destruct (find_key k (c_entries c)) as [e|] eqn:E; [|simplify_eq; simpl; done].
    destruct (expired e now); [simplify_eq; simpl; done|].
    destruct (ParseUint (e_value e)) as [cur|]; [|simplify_eq; simpl; done].
    destruct (MaxUint64 <? cur + d); [simplify_eq; simpl; done|].
    destruct (l_maxValue L <? _); [simplify_eq; simpl; done|].
    destruct (l_maxMemory L <? _); simplify_eq; simpl; [done|].
    split; [done|]. split; [done|]. by apply write_effect_put.
  - simplify_eq. split; [done|]. split; [done|].
    apply shows_less_sublist; [done|apply live_sublist].
Qed.

(** ** Making room, as seen by the other keys *)

Lemma remove_key_live k now es : remove_key k (live now es) = live now (remove_key k es).
Proof.
  unfold live. induction es as [|e es IH]; [done|]. destruct (decide (e_key e = k)).
  - rewrite (remove_key_cons_eq k e es) by done. rewrite filter_cons. case_decide; [|done].
    by rewrite remove_key_cons_eq.
  - rewrite (remove_key_cons_ne k e es) by done. rewrite !filter_cons. case_decide; [|done].
    by rewrite remove_key_cons_ne, IH.
Qed.

Lemma remove_key_twice k es : remove_key k (remove_key k es) = remove_key k es.
Proof. apply remove_key_absent, remove_key_not_in. Qed.

Lemma remove_key_drop_expired k now es : remove_key k (drop_expired k now es) = remove_key k es.
Proof.
  unfold drop_expired. destruct (find_key k es); [|done].
  destruct (expired _ _); [apply remove_key_twice|done].
Qed.

(** A position in a filtered list comes from a position in the list. *)
Lemma remove_key_split_inv k es a g b :
  remove_key k es = a ++ g :: b ->
  exists a0 b0, es = a0 ++ g :: b0 /\ a = remove_key k a0 /\ e_key g <> k.
Proof.
  revert a. induction es as [|e es IH]; intros a; [by destruct a|].
  destruct (decide (e_key e = k)) as [He|He].
  - rewrite remove_key_cons_eq by done. intros (a0 & b0 & -> & -> & Hg)%IH.
    exists (e :: a0), b0. by rewrite remove_key_cons_eq.
  - rewrite remove_key_cons_ne by done. destruct a as [|x a]; simpl; intros [= -> Heq].
    + by exists [], es.
    + apply IH in Heq as (a0 & b0 & -> & -> & Hg). exists (x :: a0), b0.
      by rewrite remove_key_cons_ne.
Qed.

(** Which other entries stay: all of them if the write fits; otherwise the
    live ones, less the least recently used of them, as few as possible. *)
Definition room_spec (L : limits) (size now : Z) (others kept : entries) (ev ev' : Z) : Prop :=
  (total others + size <= l_maxMemory L /\ kept = others /\ ev' = ev) \/
  (l_maxMemory L < total others + size /\ exists gone,
     live now others = kept ++ gone /\ total kept + size <= l_maxMemory L /\
     ev' = bump (len gone) ev /\
     forall a g b, gone = a ++ g :: b -> l_maxMemory L < total (kept ++ a ++ [g]) + size).

Lemma make_room_spec L k size now c :
  size <= l_maxMemory L ->
  room_spec L size now (remove_key k (c_entries c))
    (remove_key k (c_entries (make_room L k size now c)))
    (c_evictions c) (c_evictions (make_room L k size now c)).
Proof.
  intros Hs. pose proof (make_room_fits L k size now c Hs) as Hfit%Z.leb_le.
  unfold make_room in *. destruct (fits L k size (c_entries c)) eqn:F1; unfold fits in F1.
  { left. apply Z.leb_le in F1. done. }
  right. apply Z.leb_gt in F1. split; [done|]. rewrite <- remove_key_live.
  destruct (fits L k size (c_entries (sweep now c))) eqn:F2.
  { exists []. rewrite app_nil_r. split_and!; try done. by intros []. }
  destruct (evict_spec L k size (sweep now c)) as (f & b & Hfb & He & Hev & _ & _ & Hmin).
  rewrite He in *. rewrite remove_key_app, remove_key_protected, app_nil_r in *.
  change (live now (c_entries c)) with (c_entries (sweep now c)). rewrite Hfb, remove_key_app.
  exists (remove_key k b). split_and!; try done.
  intros a g b' Hb. apply remove_key_split_inv in Hb as (a0 & b0 & -> & -> & Hg).
  specialize (Hmin a0 g b0 eq_refl). rewrite !remove_key_app in Hmin.
  by rewrite remove_key_cons_ne in Hmin.
Qed.
