(* ===== verification/ShardRefine.v ===== *)
(** * The shard implements its specification

    [rep] relates the pointer-level state of a shard to an abstract cache: the
    recency list spells out the entries in order, the map leads to the same
    cells, and the running counters equal the totals they stand for.  Each
    method of [Shard], started in a represented state, runs to completion (no
    nil dereference, no loop cut off, no wrap-around) and ends in a state that
    represents the result of the corresponding function of [ShardSpec]. *)

From S2P Require Import Prelude Lru Strconv Shard ShardSpec.

(** ** The representation relation *)

Definition ttls (es : entries) : Z := len (filter (fun e => hasTTL e = true) es).

Definition small (es : entries) : Prop := sizes_nonneg es /\ total es <= MaxInt64.

(** Everything but the running totals. *)
Record rep_core (L : limits) (st : state) (ps : list loc) (es : entries) (ev ex n : Z) : Prop := {
  rep_lru : lru_repr (lru_get st) ps;
  rep_data : Forall2 (fun p e => payloads (heap st) !! p = Some e) ps es;
  rep_items : forall k p, items (sh st) !! k = Some p <->
    p ∈ ps /\ exists e, payloads (heap st) !! p = Some e /\ e_key e = k;
  rep_maxValue : maxValueBytes (sh st) = l_maxValue L;
  rep_maxMemory : maxMemoryBytes (sh st) = l_maxMemory L;
  rep_overhead : itemOverheadBytes (sh st) = l_overhead L;
  rep_evictions : evictions (sh st) = ev;
  rep_expirations : expirations (sh st) = ex;
  rep_cas : casCounter st = n
}.

Definition rep (L : limits) (st : state) (ps : list loc) (c : cache) (n : Z) : Prop :=
  rep_core L st ps (c_entries c) (c_evictions c) (c_expirations c) n /\
  (memoryBytes (sh st) = total (c_entries c) /\ ttlCount (sh st) = ttls (c_entries c)) /\
  small (c_entries c).

(** The shard state [st] represents the cache [c] and the counter value [n]. *)
Definition sim (L : limits) (st : state) (cc : cache * Z) : Prop :=
  exists ps, rep L st ps (fst cc) (snd cc).

(** ** Reading the representation *)

Lemma small_sublist es es' : es' `sublist_of` es -> small es -> small es'.
Proof.
  intros Hs [H1 H2]. split; [by eapply Forall_sublist_of|].
  pose proof (total_sublist _ _ Hs H1). lia.
Qed.

Section Core.
Context {L : limits} {st : state} {ps : list loc} {es : entries} {ev ex n : Z}.
Hypothesis Hrep : rep_core L st ps es ev ex n.

Lemma rep_nodup : NoDup ps.
Proof. apply (rep_lru _ _ _ _ _ _ _ Hrep). Qed.

Lemma rep_length : length ps = length es.
Proof. by eapply Forall2_length, rep_data. Qed.

(** Two listed cells with the same key are the same cell. *)
Lemma rep_key_inj p q e f :
  p ∈ ps -> q ∈ ps -> payloads (heap st) !! p = Some e -> payloads (heap st) !! q = Some f ->
  e_key e = e_key f -> p = q.
Proof.
  intros Hp Hq He Hf Hk.
  assert (items (sh st) !! e_key e = Some p) by (apply (rep_items _ _ _ _ _ _ _ Hrep); eauto).
  assert (items (sh st) !! e_key e = Some q) by (apply (rep_items _ _ _ _ _ _ _ Hrep); eauto).
  congruence.
Qed.

Lemma rep_keys_nodup : NoDup (keys es).
Proof.
  apply NoDup_alt. intros i j k Hi Hj.
  rewrite list_lookup_fmap in Hi, Hj.
  apply fmap_Some in Hi as (e & Hi & ->), Hj as (f & Hj & Hk).
  destruct (Forall2_lookup_r _ _ _ _ _ (rep_data _ _ _ _ _ _ _ Hrep) Hi) as (p & Hp & Hpe).
  destruct (Forall2_lookup_r _ _ _ _ _ (rep_data _ _ _ _ _ _ _ Hrep) Hj) as (q & Hq & Hqf).
  pose proof (rep_key_inj p q e f ltac:(eapply list_elem_of_lookup_2, Hp)
    ltac:(eapply list_elem_of_lookup_2, Hq) Hpe Hqf Hk) as <-.
  eapply NoDup_lookup; [apply rep_nodup|done..].
Qed.

(** A key that the map knows. *)
Lemma rep_found k p :
  items (sh st) !! k = Some p ->
  exists p1 p2 l1 e l2, ps = p1 ++ p :: p2 /\ es = l1 ++ e :: l2 /\ length p1 = length l1 /\
    payloads (heap st) !! p = Some e /\ e_key e = k /\
    find_key k es = Some e /\ remove_key k es = l1 ++ l2.
Proof.
  intros (Hp & e & He & Hk)%(rep_items _ _ _ _ _ _ _ Hrep).
  apply list_elem_of_split in Hp as (p1 & p2 & Hps).
  pose proof (rep_data _ _ _ _ _ _ _ Hrep) as HF. rewrite Hps in HF.
  apply Forall2_app_inv_l in HF as (l1 & l2' & H1 & H2 & Hes).
  apply Forall2_cons_inv_l in H2 as (e' & l2 & He' & H2 & ->).
  assert (e' = e) as -> by congruence.
  exists p1, p2, l1, e, l2. split_and!; try done; [by eapply Forall2_length|..]; subst k.
  - apply find_key_unique; [apply rep_keys_nodup|set_solver].
  - pose proof rep_keys_nodup as Hnd. rewrite Hes in *. by apply remove_key_split.
Qed.

Lemma rep_missing k : items (sh st) !! k = None -> find_key k es = None.
Proof.
  intros Hk. apply find_key_None. intros (e & -> & He)%list_elem_of_fmap.
  apply list_elem_of_lookup in He as [i Hi].
  destruct (Forall2_lookup_r _ _ _ _ _ (rep_data _ _ _ _ _ _ _ Hrep) Hi) as (p & Hp & Hpe).
  assert (items (sh st) !! e_key e = Some p); [|congruence].
  apply (rep_items _ _ _ _ _ _ _ Hrep). split; [by eapply list_elem_of_lookup_2|eauto].
Qed.

(** The map's cells are the listed cells, in some order. *)
Lemma rep_items_perm : (map_to_list (items (sh st))).*2 ≡ₚ ps.
Proof.
  apply NoDup_Permutation; [|apply rep_nodup|].
  - apply NoDup_fmap_2_strong; [|apply NoDup_map_to_list].
    intros [k p] [k' p'] Hk%elem_of_map_to_list Hk'%elem_of_map_to_list. simpl. intros <-.
    apply (rep_items _ _ _ _ _ _ _ Hrep) in Hk as (_ & e & He & <-).
    apply (rep_items _ _ _ _ _ _ _ Hrep) in Hk' as (_ & e' & He' & <-). congruence.
  - intros p. rewrite list_elem_of_fmap. split.
    + intros ([k q] & -> & Hk%elem_of_map_to_list).
      by apply (rep_items _ _ _ _ _ _ _ Hrep) in Hk as [? _].
    + intros Hp. apply list_elem_of_lookup in Hp as Hi. destruct Hi as [i Hi].
      destruct (Forall2_lookup_l _ _ _ _ _ (rep_data _ _ _ _ _ _ _ Hrep) Hi) as (e & _ & He).
      exists (e_key e, p). split; [done|]. apply elem_of_map_to_list.
      apply (rep_items _ _ _ _ _ _ _ Hrep). eauto.
Qed.

Lemma rep_size : size (items (sh st)) = length es.
Proof.
  rewrite <- rep_length, <- rep_items_perm, length_fmap. by rewrite <- length_map_to_list.
Qed.
End Core.

(** ** Item access and deletion *)

Lemma wp_item p st it Q : heap st !! p = Some it -> Q it st -> wp (item p) st Q.
Proof.
  intros H HQ. unfold item, on_lru. wp_steps. eapply wp_load; [done|]. by destruct st as [[] ? ?].
Qed.

Lemma wp_data p st e Q : payloads (heap st) !! p = Some e -> Q e st -> wp (data p) st Q.
Proof.
  intros (it & H & <-)%payloads_lookup_inv HQ. unfold data. wp_steps.
  eapply wp_item; [done|]. by wp_steps.
Qed.

Lemma ttls_app l1 l2 : ttls (l1 ++ l2) = ttls l1 + ttls l2.
Proof. unfold ttls. by rewrite filter_app, len_app. Qed.

Lemma ttls_cons e es : ttls (e :: es) = (if hasTTL e then 1 else 0) + ttls es.
Proof. unfold ttls. rewrite filter_cons. destruct (hasTTL e); simpl; rewrite ?len_cons; lia. Qed.

Lemma ttls_nonneg es : 0 <= ttls es.
Proof. apply len_nonneg. Qed.

(** The item under [k] is the same cell, and no cell changed its contents. *)
Definition same_item (k : bytes) (st st' : state) : Prop :=
  items (sh st') !! k = items (sh st) !! k /\ payloads (heap st') = payloads (heap st).

(** [deleteLocked] takes one entry out of the map, the list and the totals. *)
Lemma deleteLocked_ok L st p1 p p2 l1 e l2 c n :
  rep L st (p1 ++ p :: p2) c n -> c_entries c = l1 ++ e :: l2 -> length p1 = length l1 ->
  wp (deleteLocked p) st (fun _ st' =>
    rep L st' (p1 ++ p2) (with_entries (l1 ++ l2) c) n /\
    payloads (heap st') = payloads (heap st) /\
    forall k, k <> e_key e -> same_item k st st').
Proof.
  intros (Hc & [Hmem Htt] & Hsm) Hes Hlen. rewrite Hes in *.
  pose proof (rep_data _ _ _ _ _ _ _ Hc) as HF.
  pose proof (rep_nodup Hc) as Hnd.
  assert (Hsm' : small (l1 ++ l2)).
  { eapply small_sublist; [|exact Hsm]. by apply sublist_app, sublist_cons. }
  apply Forall2_app_inv in HF as [HF1 HF2]; [|done].
  apply Forall2_cons in HF2 as [He HF2].
  unfold deleteLocked, on_lru. wp_steps. eapply wp_data; [exact He|]. wp_steps.
  wp_use (remove_ok _ p1 p2 p).
  { destruct st as [[] ? ?]. exact (rep_lru _ _ _ _ _ _ _ Hc). }
  intros _ s' [Hr Hp]. cbn beta. wp_steps.
  assert (Hin : forall q, q ∈ p1 ++ p2 <-> q ∈ p1 ++ p :: p2 /\ q <> p).
  { apply NoDup_app in Hnd as (N1 & N2 & [N3 N4]%NoDup_cons). intros q. set_solver. }
  assert (Hitems : forall k q, delete (e_key e) (items (sh st)) !! k = Some q <->
    q ∈ p1 ++ p2 /\ exists e, payloads (heap st) !! q = Some e /\ e_key e = k).
  { intros k q. rewrite lookup_delete_Some, (rep_items _ _ _ _ _ _ _ Hc), Hin. split.
    - intros (Hk & Hq & f & Hf & <-). split; [split; [done|]|eauto]. intros ->. congruence.
    - intros ([Hq Hqp] & f & Hf & <-). split; [|eauto]. intros Hk. apply Hqp.
      eapply (rep_key_inj Hc); eauto; set_solver. }
  rewrite ttls_app, ttls_cons in Htt.
  rewrite total_split in Hmem. destruct Hsm as [Hsm0 Hsm1]. rewrite total_split in Hsm1.
  apply Forall_app in Hsm0 as [_ [Hse _]%Forall_cons].
  pose proof (total_nonneg _ (proj1 Hsm')) as Hnn.
  fold (hasTTL e). destruct Hc as [_ _ _ Hmv Hmm Ho Hev Hex Hcas].
  destruct st as [[i l m t mv mm o ev ex] h c0]; simpl in *.
  assert (Hm : int64 (m - e_size e) = total (l1 ++ l2)) by (rewrite int64_id; unfold MaxInt64 in *; lia).
  assert (Hsame : forall k, k <> e_key e -> delete (e_key e) i !! k = i !! k).
  { intros k Hk. by apply lookup_delete_ne. }
  destruct (hasTTL e); wp_steps; simpl; (split; [|split; [done|by intros k Hk; split; auto]]);
    (split; [split|split; [split|]]); simpl;
    rewrite ?Hp, ?ttls_app; try done; try lia; by apply Forall2_app.
Qed.

Lemma with_entries_id c : with_entries (c_entries c) c = c.
Proof. by destruct c. Qed.

(** Deletion by key. *)
Lemma delete_key_ok L st ps c n k p :
  rep L st ps c n -> items (sh st) !! k = Some p ->
  wp (deleteLocked p) st (fun _ st' =>
    sim L st' (with_entries (remove_key k (c_entries c)) c, n) /\
    payloads (heap st') = payloads (heap st)).
Proof.
  intros Hr Hk. pose proof Hr as (Hc & _).
  destruct (rep_found Hc k p Hk) as (p1 & p2 & l1 & e & l2 & -> & Hes & Hlen & _ & _ & _ & ->).
  wp_use (deleteLocked_ok L st p1 p p2 l1 e l2 c n Hr Hes Hlen).
  intros _ st' (Hr' & Hp & _). split; [by eexists|done].
Qed.

(** ** Sweeping expired items *)

Lemma live_split_expired now l1 e l2 :
  expired e now = true -> live now (l1 ++ e :: l2) = live now (l1 ++ l2).
Proof.
  intros He. unfold live. rewrite !filter_app, filter_cons_False by congruence. done.
Qed.

Lemma live_id now es : (forall e, e ∈ es -> expired e now = false) -> live now es = es.
Proof.
  induction es as [|e es IH]; intros H; [done|]. unfold live in *.
  rewrite filter_cons_True by (apply H; set_solver). f_equal. apply IH. set_solver.
Qed.

(** The loop over any enumeration [qs] of the cells that may be expired. *)
Lemma expire_loop_ok L now n qs : forall st ps c removed,
  rep L st ps c n -> NoDup qs -> (forall q, q ∈ qs -> q ∈ ps) ->
  (forall q e, q ∈ ps -> q ∉ qs -> payloads (heap st) !! q = Some e -> expired e now = false) ->
  wp (expire_loop now qs removed) st (fun r st' =>
    r = removed + (len (c_entries c) - len (live now (c_entries c))) /\
    sim L st' (with_entries (live now (c_entries c)) c, n)).
Proof.
  induction qs as [|q qs IH]; intros st ps c removed Hr Hnd Hsub Hdone; simpl.
  - pose proof Hr as (Hc & _). wp_steps. rewrite live_id.
    + split; [lia|]. exists ps. by rewrite with_entries_id.
    + intros e He. apply list_elem_of_lookup in He as [i Hi].
      destruct (Forall2_lookup_r _ _ _ _ _ (rep_data _ _ _ _ _ _ _ Hc) Hi) as (p & Hp & Hpe).
      eapply (Hdone p); [by eapply list_elem_of_lookup_2|set_solver|done].
  - apply NoDup_cons in Hnd as [Hq Hnd]. pose proof Hr as (Hc & _).
    assert (Hqp : q ∈ ps) by set_solver.
    assert (exists e, payloads (heap st) !! q = Some e) as [e He].
    { apply list_elem_of_lookup in Hqp as [i Hi].
      destruct (Forall2_lookup_l _ _ _ _ _ (rep_data _ _ _ _ _ _ _ Hc) Hi) as (e & _ & He). eauto. }
    assert (Hk : items (sh st) !! e_key e = Some q).
    { apply (rep_items _ _ _ _ _ _ _ Hc). eauto. }
    destruct (rep_found Hc _ _ Hk) as (p1 & p2 & l1 & e' & l2 & -> & Hes & Hlen & He' & _ & _ & _).
    assert (e' = e) as -> by congruence.
    wp_steps. eapply wp_data; [exact He|]. destruct (expired e now) eqn:Hx.
    + wp_steps. wp_use (deleteLocked_ok L st p1 q p2 l1 e l2 c n Hr Hes Hlen).
      intros _ st' (Hr' & Hp & _). cbn beta. rewrite Hes, live_split_expired by done.
      assert (HN : NoDup (p1 ++ q :: p2)) by apply (rep_nodup Hc).
      apply NoDup_app in HN as (N1 & N2 & [N3 N4]%NoDup_cons).
      wp_use (IH st' _ _ (removed + 1) Hr' Hnd).
      * intros x Hx'. specialize (Hsub x ltac:(set_solver)).
        assert (x <> q) by (intros ->; done). set_solver.
      * intros x f Hx1 Hx2. rewrite Hp. apply Hdone; [set_solver|].
        rewrite not_elem_of_cons. split; [|done]. intros ->.
        apply elem_of_app in Hx1 as [?|?]; [|done]. apply (N2 q); [done|set_solver].
      * simpl. intros r st'' [-> Hs]. split; [|done].
        rewrite !len_app, len_cons. lia.
    + wp_use (IH st _ c removed Hr Hnd); [set_solver| |done].
      intros x f Hx1 Hx2 Hf. destruct (decide (x = q)) as [->|]; [congruence|].
      eapply Hdone; [done|set_solver|done].
Qed.

Lemma ttls_zero es now : ttls es = 0 -> live now es = es.
Proof.
  intros H. apply live_id. intros e He. unfold expired. fold (hasTTL e).
  destruct (hasTTL e) eqn:E; [|done]. exfalso.
  assert (e ∈ filter (fun e => hasTTL e = true) es) as Hin by by apply list_elem_of_filter.
  unfold ttls, len in H. destruct (filter _ es); [set_solver|]. simpl in H. lia.
Qed.

Lemma sweep_no_ttl now c : ttls (c_entries c) = 0 -> sweep now c = c.
Proof.
  intros H. unfold sweep. rewrite ttls_zero, Z.sub_diag by done. by destruct c.
Qed.

Section Sweeps.
Context `{MapRange}.

Lemma expire_all_ok L now st ps c n removed :
  rep L st ps c n ->
  wp (expire_loop now (range_order (items (sh st))) removed) st (fun r st' =>
    r = removed + (len (c_entries c) - len (live now (c_entries c))) /\
    sim L st' (with_entries (live now (c_entries c)) c, n)).
Proof.
  intros Hr. pose proof Hr as (Hc & _).
  assert (Hperm : range_order (items (sh st)) ≡ₚ ps).
  { by rewrite range_order_perm, (rep_items_perm Hc). }
  apply (expire_loop_ok L now n _ st ps); [done|..].
  - rewrite Hperm. apply (rep_nodup Hc).
  - intros q. by rewrite Hperm.
  - intros q e Hq Hn. rewrite Hperm in Hn. done.
Qed.

Lemma live_len now es : len (live now es) <= len es.
Proof. unfold len. pose proof (sublist_length _ _ (live_sublist now es)). lia. Qed.

(** Counting the swept items. *)
Lemma bump_expirations_ok L st c n r :
  sim L st (c, n) ->
  wp (if 0 <? r then modify (with_expirations (fun n => uint64 (n + uint64 r))) else mret tt) st
    (fun _ st' => sim L st' (Cache (c_entries c) (c_evictions c) (bump r (c_expirations c)), n)).
Proof.
  intros (ps & Hc & Hm & Hs). unfold bump. destruct (0 <? r); wp_steps; exists ps.
  - destruct st as [[] ? ?], Hc. simpl in *. subst.
    split; [by split|done].
  - by destruct c.
Qed.

Lemma removeExpiredLocked_ok L now st ps c n :
  rep L st ps c n ->
  wp (removeExpiredLocked now) st (fun _ st' => sim L st' (sweep now c, n)).
Proof.
  intros Hr. unfold removeExpiredLocked. wp_steps.
  wp_use (expire_all_ok L now st ps c n 0 Hr). intros r st' [-> Hs]. cbn beta.
  wp_use (bump_expirations_ok _ _ _ _ _ Hs). intros [] st''. done.
Qed.

Lemma cleanupExpired_ok L now st cc :
  sim L st cc ->
  wp (cleanupExpired now) st (fun r st' =>
    r = fst (Spec.cleanupExpired now cc) /\ sim L st' (snd (Spec.cleanupExpired now cc))).
Proof.
  destruct cc as [c n]. intros [ps Hr]. unfold cleanupExpired. wp_steps.
  wp_use (expire_all_ok L now st ps c n 0 Hr). intros r st' [-> Hs]. cbn beta. wp_steps.
  wp_use (bump_expirations_ok _ _ _ _ _ Hs). intros [] st'' Hs'. wp_steps. done.
Qed.
End Sweeps.

(** ** Evicting live items *)

(** The [prev] link of a cell leads to the cell before it. *)
Lemma dll_prev h p xs x ys q :
  dll h None p (xs ++ x :: ys) q None -> exists it, h !! x = Some it /\ si_prev it = last xs.
Proof.
  intros (j & jn & H1 & (_ & it & Hit & Hp & _))%dll_app. exists it. split; [done|].
  rewrite Hp. clear -H1. destruct xs as [|y xs _] using rev_ind; [by destruct H1|].
  apply dll_app in H1 as (? & ? & _ & (_ & ? & _ & _ & [_ ->])). by rewrite last_snoc.
Qed.

Definition all_protected (k : bytes) (es : entries) : Prop := Forall (fun e => e_key e = k) es.

(** Nothing can be evicted, or nothing needs to be. *)
Lemma evict_from_idle max k p rs :
  p <= max \/ all_protected k rs -> evict_from max k p rs = (rs, p, 0).
Proof.
  intros H. induction rs as [|e rs IH]; simpl; [done|].
  destruct (Z.leb_spec p max) as [|Hp]; [done|]. destruct H as [?|[? ?]%Forall_cons]; [lia|].
  rewrite decide_True by done. by rewrite IH by auto.
Qed.

(** Eviction from a list in which only protected entries follow the victim [e]. *)
Lemma evict_from_victim max k p e l2 rs :
  all_protected k l2 -> e_key e <> k -> max < p ->
  evict_from max k p (l2 ++ e :: rs) =
  let '(kept, p', n) := evict_from max k (p - e_size e) (l2 ++ rs) in (kept, p', n + 1).
Proof.
  intros Hl2 He Hp. induction Hl2 as [|x l2 Hx _ IH]; simpl.
  - destruct (Z.leb_spec p max); [lia|]. by rewrite decide_False.
  - destruct (Z.leb_spec p max); [lia|]. rewrite decide_True, IH by done.
    destruct (Z.leb_spec (p - e_size e) max) as [Hle|].
    + by rewrite evict_from_idle by auto.
    + destruct (decide (e_key x = k)); [|done]. by destruct (evict_from _ _ _ (l2 ++ rs)) as [[]].
Qed.

Lemma count_evictions_ok L st c n r :
  sim L st (c, n) ->
  wp (count_evictions r) st (fun _ st' =>
    sim L st' (Cache (c_entries c) (bump r (c_evictions c)) (c_expirations c), n) /\
    forall k, same_item k st st').
Proof.
  intros (ps & Hc & Hm & Hs). unfold bump, count_evictions.
  destruct (0 <? r); wp_steps; (split; [exists ps|]).
  - destruct st as [[] ? ?], Hc. simpl in *. subst. split; [by split|done].
  - by destruct st as [[] ? ?].
  - by destruct c.
  - done.
Qed.

(** The inner loop walks back from a cell to the first one it may evict. *)
Lemma skip_protected_ok st k p q : forall fuel ps es qs,
  dll (heap st) None p (ps ++ qs) q None ->
  Forall2 (fun p e => payloads (heap st) !! p = Some e) ps es -> (length ps < fuel)%nat ->
  wp (skip_protected fuel k (last ps)) st (fun r st' => st' = st /\
    match r with
    | None => all_protected k es
    | Some c => exists p1 p2 l1 e l2, ps = p1 ++ c :: p2 /\ es = l1 ++ e :: l2 /\
        length p1 = length l1 /\ payloads (heap st) !! c = Some e /\
        e_key e <> k /\ all_protected k l2
    end).
Proof.
  induction fuel as [|fuel IH]; intros ps es qs Hd HF Hf; [lia|].
  destruct ps as [|c ps _] using rev_ind; simpl.
  { apply Forall2_nil_inv_l in HF as ->. wp_steps. split; [done|constructor]. }
  apply Forall2_app_inv_l in HF as (l1 & le & HF & He & ->).
  apply Forall2_cons_inv_l in He as (e & ? & He & [= ->]%Forall2_nil_inv_l & ->).
  rewrite <- app_assoc in Hd. destruct (dll_prev _ _ _ _ _ _ Hd) as (it & Hit & Hprev).
  apply payloads_lookup in Hit as Hit'. rewrite He in Hit'. simplify_eq.
  rewrite last_snoc. wp_steps. eapply wp_item; [exact Hit|]. case_decide as Hk.
  - rewrite Hprev. rewrite length_app in Hf. simpl in Hf.
    wp_use (IH ps l1 (c :: qs) Hd HF ltac:(lia)). intros r st' [-> Hr]. split; [done|].
    destruct r as [c'|]; [|by apply Forall_app; split; [|apply Forall_singleton]].
    destruct Hr as (p1 & p2 & m1 & e' & m2 & -> & -> & Hl & Hc & Hne & Hall).
    exists p1, (p2 ++ [c]), m1, e', (m2 ++ [si_data it]). rewrite <- !app_assoc.
    split_and!; try done. by apply Forall_app; split; [|apply Forall_singleton].
  - wp_steps. split; [done|]. exists ps, [], l1, (si_data it), [].
    split_and!; try done; [by eapply Forall2_length|by constructor].
Qed.

(** One deletion of the loop. *)
Lemma evict_one_ok L st c n p1 q p2 l1 e l2 fuel k projected evicted
    (Q : bool -> state -> Prop) :
  rep L st (p1 ++ q :: p2) c n -> c_entries c = l1 ++ e :: l2 -> length p1 = length l1 ->
  payloads (heap st) !! q = Some e -> 0 <= l_maxMemory L < projected -> projected <= MaxInt64 ->
  (forall st', rep L st' (p1 ++ p2) (with_entries (l1 ++ l2) c) n ->
     (forall k, k <> e_key e -> same_item k st st') ->
     - 2 ^ 63 <= projected - e_size e <= MaxInt64 ->
     wp (evict_loop fuel k (projected - e_size e) (evicted + 1)) st' Q) ->
  wp (it ← data q; deleteLocked q ;;
      evict_loop fuel k (int64 (projected - e_size it)) (evicted + 1)) st Q.
Proof.
  intros Hr Hes Hlen Hq Hmax Hp HQ. pose proof Hr as (_ & _ & Hsm).
  wp_steps. eapply wp_data; [exact Hq|]. wp_steps.
  wp_use (deleteLocked_ok L st p1 q p2 l1 e l2 c n Hr Hes Hlen).
  intros _ st' (Hr' & _ & Hsame). cbn beta. rewrite Hes in Hsm. destruct Hsm as [Hn Ht].
  rewrite total_split in Ht. apply Forall_app in Hn as [Hn1 [He Hn2]%Forall_cons].
  assert (0 <= total (l1 ++ l2)) by by apply total_nonneg, Forall_app.
  assert (- 2 ^ 63 <= projected - e_size e <= MaxInt64) as Hb by (unfold MaxInt64 in *; lia).
  rewrite int64_id by done. by apply HQ.
Qed.

Lemma evict_stop_ok L st c n evicted (b : bool) :
  sim L st (c, n) ->
  wp (count_evictions evicted ;; mret b) st (fun r st' => r = b /\
    sim L st' (Cache (c_entries c) (bump evicted (c_evictions c)) (c_expirations c), n) /\
    forall k, same_item k st st').
Proof.
  intros Hs. wp_steps. wp_use (count_evictions_ok _ _ _ _ evicted Hs).
  intros [] st' Hs'. by wp_steps.
Qed.

(** The eviction loop computes [evict_from] on the recency order. *)
Lemma evict_loop_ok L k n (HL : 0 <= l_maxMemory L) : forall fuel st ps c projected evicted kept p' m,
  rep L st ps c n -> (length (c_entries c) < fuel)%nat -> - 2 ^ 63 <= projected <= MaxInt64 ->
  evict_from (l_maxMemory L) k projected (rev (c_entries c)) = (kept, p', m) ->
  wp (evict_loop fuel k projected evicted) st (fun r st' =>
    r = (p' <=? l_maxMemory L) /\
    sim L st' (Cache (rev kept) (bump (evicted + m) (c_evictions c)) (c_expirations c), n) /\
    same_item k st st').
Proof.
  induction fuel as [|fuel IH]; intros st ps c projected evicted kept p' m Hr Hfuel Hp Hev; [lia|].
  assert (Hsim : sim L st (c, n)) by by eexists.
  pose proof Hr as (Hc & _). cbn [evict_loop]. wp_steps.
  rewrite (rep_maxMemory _ _ _ _ _ _ _ Hc).
  assert (Hidle : forall b, projected <= l_maxMemory L \/ all_protected k (rev (c_entries c)) ->
    b = (projected <=? l_maxMemory L) ->
    wp (count_evictions evicted ;; mret b) st (fun r st' =>
      r = (p' <=? l_maxMemory L) /\
      sim L st' (Cache (rev kept) (bump (evicted + m) (c_evictions c)) (c_expirations c), n) /\
      same_item k st st')).
  { intros b Hb ->. rewrite (evict_from_idle _ _ _ _ Hb) in Hev. simplify_eq.
    rewrite rev_involutive, Z.add_0_r.
    wp_use (evict_stop_ok L st c n evicted _ Hsim). intros r st' (-> & Hs & Hsame). done. }
  destruct (Z.ltb_spec (l_maxMemory L) projected) as [Hlt|Hle];
    [|by apply Hidle; [left|symmetry; apply Z.leb_le]].
  wp_steps. unfold on_lru, back. wp_steps. unfold get_tail. wp_steps.
  replace (lru_put (lru_get st) st) with st by by destruct st as [[] ? ?].
  destruct (rep_lru _ _ _ _ _ _ _ Hc) as [_ Hd]. rewrite <- (app_nil_r ps) in Hd.
  pose proof Hd as Hl. rewrite app_nil_r in Hl. cbn [l_list l_heap lru_get] in Hl, Hd |- *.
  rewrite (rep_size Hc), (dll_last _ _ _ _ Hl).
  wp_use (skip_protected_ok st k _ _ _ ps (c_entries c) [] Hd (rep_data _ _ _ _ _ _ _ Hc)).
  { rewrite (rep_length Hc). lia. }
  intros [q|] st' [-> Hfound]; cbn beta iota.
  2:{ apply Hidle; [right; by apply Forall_rev|symmetry; apply Z.leb_gt; lia]. }
  destruct Hfound as (p1 & p2 & l1 & e & l2 & -> & Hes & Hlen & Hq & Hk & Hall).
  rewrite Hes, rev_app_distr in Hev. simpl in Hev. rewrite <- app_assoc in Hev. simpl in Hev.
  rewrite evict_from_victim in Hev by (by apply Forall_rev || done).
  rewrite <- rev_app_distr in Hev.
  destruct (evict_from _ _ _ _) as [[kept' p''] m'] eqn:Hev'. simplify_eq.
  eapply (evict_one_ok L st c n p1 q p2 l1 e l2); [done..|lia|lia|].
  intros st' Hr' Hsame Hb. assert (length (l1 ++ l2) < fuel)%nat as Hfuel'.
  { rewrite Hes, length_app in Hfuel. simpl in Hfuel. rewrite length_app. lia. }
  wp_use (IH st' _ _ _ (evicted + 1) kept p' m' Hr' Hfuel' Hb Hev').
  intros r st'' (-> & Hs & Hi & Hp'). split; [done|].
  replace (evicted + (m' + 1)) with (evicted + 1 + m') by lia.
  destruct (Hsame k) as [Hi' Hp'']; [done|]. split; [done|]. split; congruence.
Qed.

(** ** Bounds that rule out wrap-around *)

(** Budgets up to half the [int] range: a projection adds two of them. *)
Definition int_limits (L : limits) : Prop :=
  wf_limits L /\ 2 * l_maxMemory L <= MaxInt64.

(** The size of any admissible value under this key is an [int]. *)
Definition key_ok (L : limits) (k : bytes) : Prop :=
  len k + l_maxValue L + l_overhead L <= MaxInt64.

(** A represented, well-formed shard. *)
Definition good (L : limits) (st : state) (cc : cache * Z) : Prop :=
  sim L st cc /\ wf L (fst cc).

Lemma wf_old_size L c k :
  wf_limits L -> wf L c -> 0 <= old_size k (c_entries c) <= total (c_entries c).
Proof.
  intros HL Hwf. pose proof (wf_nonneg _ _ HL Hwf) as Hn. unfold old_size.
  destruct (find_key k (c_entries c)) as [e|] eqn:E; [|pose proof (total_nonneg _ Hn); lia].
  pose proof (total_remove_key _ _ _ (wf_nodup _ _ Hwf) E) as Ht.
  assert (0 <= total (remove_key k (c_entries c))).
  { eapply total_nonneg, Forall_sublist_of; [apply remove_key_sublist|done]. }
  apply find_key_elem in E as [E _]. unfold sizes_nonneg in Hn. rewrite Forall_forall in Hn.
  specialize (Hn e E). lia.
Qed.

Lemma itemSize_ok L st ps c n k (v : bytes) :
  wf_limits L -> rep L st ps c n -> key_ok L k -> len v <= l_maxValue L ->
  wp (itemSize k (len v)) st (fun r st' => r = size_of L k (len v) /\ 0 <= r /\ st' = st).
Proof.
  intros HL (Hc & _) Hk Hv. unfold itemSize. wp_steps.
  rewrite (rep_overhead _ _ _ _ _ _ _ Hc). unfold key_ok, wf_limits, size_of in *.
  pose proof (len_nonneg k). pose proof (len_nonneg v).
  rewrite !int64_id; unfold MaxInt64 in *; rewrite ?int64_id; unfold MaxInt64; lia || (split_and!; [lia..|done]).
Qed.

(** [project] computes the size of everything but the old item, plus the new one. *)
Lemma project_ok L st ps c n k size :
  int_limits L -> rep L st ps c n -> wf L c -> 0 <= size <= l_maxMemory L ->
  wp (Method.project (old_size k (c_entries c)) size) st (fun r st' =>
    r = total (remove_key k (c_entries c)) + size /\ st' = st).
Proof.
  intros [HL HM] (Hc & [Hm _] & _) Hwf Hs. unfold Method.project. wp_steps. rewrite Hm.
  pose proof (wf_old_size L c k HL Hwf). pose proof (wf_total _ _ Hwf).
  rewrite total_remove_old by apply Hwf.
  rewrite !int64_id; unfold MaxInt64 in *; rewrite ?int64_id; unfold MaxInt64; lia || (split; [lia|done]).
Qed.

Lemma evictUntilFitsLocked_ok L st ps c n k size :
  int_limits L -> rep L st ps c n -> wf L c -> 0 <= size <= l_maxMemory L ->
  wp (evictUntilFitsLocked k (total (remove_key k (c_entries c)) + size)) st (fun r st' =>
    r = true /\ sim L st' (evict L k size c, n) /\ same_item k st st').
Proof.
  intros [HL HM] Hr Hwf Hs. pose proof Hr as (Hc & _). unfold evictUntilFitsLocked. wp_steps.
  rewrite (rep_size Hc).
  destruct (evict_from (l_maxMemory L) k (total (remove_key k (c_entries c)) + size)
    (rev (c_entries c))) as [[kept p'] m] eqn:E.
  pose proof (evict_from_fits _ _ _ _ _ _ _ (proj2 Hs) E) as Hp'.
  pose proof (wf_old_size L c k HL Hwf). pose proof (wf_total _ _ Hwf).
  pose proof (total_remove_old k (c_entries c) (wf_nodup _ _ Hwf)).
  wp_use (evict_loop_ok L k n _ _ st ps c _ 0 _ _ _ Hr _ _ E).
  - intros r st' (-> & Hsim & Hsame). split; [by apply Z.leb_le|]. unfold evict. by rewrite E.
  Unshelve. all: destruct HL as (? & ? & ?); unfold MaxInt64 in *; lia.
Qed.

(** ** Writing an item *)

Lemma Forall2_insert_ne (H : gmap loc entry) p e' qs es :
  p ∉ qs -> Forall2 (fun q e => H !! q = Some e) qs es ->
  Forall2 (fun q e => <[p := e']> H !! q = Some e) qs es.
Proof.
  intros Hp HF. induction HF as [|q e qs es He _ IH]; constructor.
  - rewrite lookup_insert_ne; [done|set_solver].
  - apply IH. set_solver.
Qed.

(** Two shard states that agree on the running totals and the counter. *)
Definition same_totals (st st' : state) : Prop :=
  memoryBytes (sh st') = memoryBytes (sh st) /\ ttlCount (sh st') = ttlCount (sh st).

(** Moving a listed cell to the front. *)
Lemma front_ok L st p1 p p2 l1 e l2 ev ex n :
  rep_core L st (p1 ++ p :: p2) (l1 ++ e :: l2) ev ex n -> length p1 = length l1 ->
  wp (on_lru (moveToFront p)) st (fun _ st' =>
    rep_core L st' (p :: p1 ++ p2) (e :: l1 ++ l2) ev ex n /\ same_totals st st').
Proof.
  intros Hc Hlen. unfold on_lru. wp_steps.
  wp_use (moveToFront_ok _ p1 p2 p (rep_lru _ _ _ _ _ _ _ Hc)). intros _ s' [Hr Hp].
  destruct Hc as [_ HF Hit Hmv Hmm Ho Hev Hex Hcas].
  destruct st as [[i l m t mv mm o ev' ex'] h c0]; simpl in *. split; [|done].
  apply Forall2_app_inv in HF as [HF1 [He HF2]%Forall2_cons]; [|done].
  split; simpl; rewrite ?Hp; try done.
  - constructor; [done|by apply Forall2_app].
  - intros k q. rewrite Hit. split; intros [Hq ?]; (split; [set_solver|done]).
Qed.

(** Overwriting the contents of a listed cell, its key excepted. *)
Lemma write_ok L st p1 p p2 l1 e e' l2 ev ex n :
  rep_core L st (p1 ++ p :: p2) (l1 ++ e :: l2) ev ex n -> length p1 = length l1 ->
  e_key e' = e_key e ->
  wp (on_lru (update p (set_data e'))) st (fun _ st' =>
    rep_core L st' (p1 ++ p :: p2) (l1 ++ e' :: l2) ev ex n /\ same_totals st st').
Proof.
  intros Hc Hlen Hk. unfold on_lru. wp_steps. pose proof (rep_nodup Hc) as HN.
  destruct Hc as [[Hnd Hd] HF Hit Hmv Hmm Ho Hev Hex Hcas].
  apply Forall2_app_inv in HF as [HF1 [He HF2]%Forall2_cons]; [|done].
  apply NoDup_app in HN as (_ & N2 & [N3 _]%NoDup_cons).
  apply payloads_lookup_inv in He as (it & Hh & <-).
  eapply wp_update; [exact Hh|].
  destruct st as [[i l m t mv mm o ev' ex'] h c0]; simpl in *. split; [|done].
  assert (Hpay : payloads (<[p := set_data e' it]> h) = <[p := e']> (payloads h)).
  { by rewrite (payloads_update h p it (set_data e')). }
  split; simpl; rewrite ?Hpay; try done.
  - split; [done|]. simpl in *. by apply dll_set_data.
  - apply Forall2_app; [|constructor; [by rewrite lookup_insert_eq|]]; apply Forall2_insert_ne; try done.
    intros ?. apply (N2 p); [done|set_solver].
  - intros k q. rewrite Hit. apply payloads_lookup in Hh.
    split; intros [Hq (f & Hf & <-)]; (split; [done|]);
      destruct (decide (p = q)) as [<-|Hne].
    + exists e'. rewrite lookup_insert_eq. split; congruence.
    + exists f. by rewrite lookup_insert_ne.
    + rewrite lookup_insert_eq in Hf. simplify_eq. eauto.
    + rewrite lookup_insert_ne in Hf by done. eauto.
Qed.

(** Rewriting the item under [k] and refreshing its recency. *)
Lemma touch_ok L st ps es ev ex n k p e' :
  rep_core L st ps es ev ex n -> items (sh st) !! k = Some p -> e_key e' = k ->
  wp (on_lru (update p (set_data e')) ;; on_lru (moveToFront p)) st (fun _ st' =>
    (exists ps', rep_core L st' ps' (e' :: remove_key k es) ev ex n) /\ same_totals st st').
Proof.
  intros Hc Hk He'.
  destruct (rep_found Hc k p Hk) as (p1 & p2 & l1 & e & l2 & -> & -> & Hlen & _ & Hek & _ & ->).
  wp_steps. wp_use (write_ok L st p1 p p2 l1 e e' l2 ev ex n Hc Hlen); [congruence|].
  intros _ st1 [Hc1 [Hm1 Ht1]]. cbn beta.
  wp_use (front_ok L st1 p1 p p2 l1 e' l2 ev ex n Hc1 Hlen).
  intros _ st2 [Hc2 [Hm2 Ht2]]. split; [by eexists|split; congruence].
Qed.

Lemma rep_core_with_ttl L st ps es ev ex n f :
  rep_core L st ps es ev ex n -> rep_core L (with_ttlCount f st) ps es ev ex n.
Proof. intros []. destruct st as [[] ? ?]. by split. Qed.

Lemma rep_core_with_memory L st ps es ev ex n f :
  rep_core L st ps es ev ex n -> rep_core L (with_memory f st) ps es ev ex n.
Proof. intros []. destruct st as [[] ? ?]. by split. Qed.

(** [ttlCount] after replacing the entry under [k]. *)
Lemma ttls_remove_key k es e :
  NoDup (keys es) -> find_key k es = Some e ->
  ttls es = (if hasTTL e then 1 else 0) + ttls (remove_key k es).
Proof.
  intros Hnd (l1 & l2 & -> & <- & _)%find_key_Some. rewrite remove_key_split by done.
  rewrite !ttls_app, ttls_cons. lia.
Qed.

Lemma refresh_ok L st ps es ev ex n k p v expiry size cas :
  rep_core L st ps es ev ex n -> items (sh st) !! k = Some p -> ttlCount (sh st) = ttls es ->
  let e' := Entry k v expiry size cas in
  wp (Method.refresh p v expiry size cas) st (fun _ st' =>
    (exists ps', rep_core L st' ps' (e' :: remove_key k es) ev ex n) /\
    ttlCount (sh st') = ttls (e' :: remove_key k es)).
Proof.
  intros Hc Hk Ht e'. unfold Method.refresh.
  destruct (rep_found Hc k p Hk) as (_ & _ & _ & e & _ & _ & _ & _ & He & Hek & Hf & _).
  pose proof (ttls_remove_key k es e (rep_keys_nodup Hc) Hf) as Htr.
  apply wp_bind. eapply wp_data; [exact He|]. cbn beta zeta. rewrite Hek. fold e'.
  pose proof (touch_ok L st ps es ev ex n k p e' Hc Hk eq_refl) as Htouch.
  apply wp_Done in Htouch as ([] & st1 & Hrun & (ps1 & Hc1) & [_ Ht1]).
  unfold mbind, M_bind in Hrun. unfold wp, mbind, M_bind.
  destruct (on_lru (update p (set_data e')) st) as [[[] st0]| |]; try done.
  rewrite Hrun. change (negb (IsZero (e_expiresAt e))) with (hasTTL e).
  assert (IsZero expiry = negb (hasTTL e')) as -> by by unfold hasTTL; rewrite negb_involutive.
  rewrite ttls_cons.
  destruct (hasTTL e), (hasTTL e'); cbn; (split;
    [exists ps1; done || by apply rep_core_with_ttl|destruct st1 as [[] ? ?]; simpl in *; lia]).
Qed.

(** Inserting a new item in front. *)
Lemma insert_ok L st ps es ev ex n e :
  rep_core L st ps es ev ex n -> items (sh st) !! e_key e = None ->
  ttlCount (sh st) = ttls es ->
  wp (p ← new_item e;
      modify (with_items (fun m => <[e_key e := p]> m)) ;;
      on_lru (pushFront p) ;;
      if negb (IsZero (e_expiresAt e)) then modify (with_ttlCount (fun t => t + 1)) else mret tt)
    st (fun _ st' =>
      (exists ps', rep_core L st' ps' (e :: remove_key (e_key e) es) ev ex n) /\
      ttlCount (sh st') = ttls (e :: remove_key (e_key e) es)).
Proof.
  intros Hc Hk Ht. pose proof (rep_missing Hc _ Hk) as Hn%find_key_None.
  rewrite remove_key_absent, ttls_cons by done. fold (hasTTL e).
  destruct Hc as [[Hnd Hd] HF Hit Hmv Hmm Ho Hev Hex Hcas].
  unfold new_item, on_lru. wp_steps.
  set (p := fresh (dom (heap st) : gset loc)).
  assert (Hp : heap st !! p = None) by (apply not_elem_of_dom, is_fresh).
  clearbody p. assert (Hps : p ∉ ps).
  { intros Hin. destruct (dll_lookup _ _ _ _ _ _ p Hd Hin) as [? Hs]. simpl in Hs. congruence. }
  destruct st as [[i l m t mv mm o ev' ex'] h c0]; simpl in *.
  wp_use (pushFront_ok _ ps p (StoredItem e None None)).
  - split; [done|]. simpl. by apply dll_insert_ne.
  - done.
  - simpl. by rewrite lookup_insert_eq.
  - intros _ s' [Hr Hpay]. simpl in *. cbn beta.
    assert (Hpay' : payloads (l_heap s') = <[p := e]> (payloads h)).
    { rewrite Hpay. unfold payloads. by rewrite fmap_insert. }
    assert (Hitems : forall k q, <[e_key e := p]> i !! k = Some q <->
      q ∈ p :: ps /\ exists e0, <[p := e]> (payloads h) !! q = Some e0 /\ e_key e0 = k).
    { intros k q. rewrite elem_of_cons. split.
      - intros [[<- <-]|[Hne Hq]]%lookup_insert_Some.
        + rewrite lookup_insert_eq. eauto.
        + apply Hit in Hq as (Hq & f & Hf & <-). split; [auto|]. exists f.
          rewrite lookup_insert_ne; [done|]. intros ->. done.
      - intros ([->|Hq] & f & Hf & <-).
        + rewrite lookup_insert_eq in Hf. simplify_eq. by rewrite lookup_insert_eq.
        + rewrite lookup_insert_ne in Hf by (intros ->; done).
          assert (i !! e_key f = Some q) as Hiq by (apply Hit; eauto).
          rewrite lookup_insert_ne; [done|]. congruence. }
    destruct (hasTTL e); wp_steps; simpl; (split; [exists (p :: ps)|lia]);
      split; simpl; rewrite ?Hpay'; try done;
      (constructor; [by rewrite lookup_insert_eq|by apply Forall2_insert_ne]).
Qed.

(** ** Lookups *)

Section Methods.
Context `{MapRange} {L : limits} (HL : int_limits L).

Lemma get_ok st cc k now :
  good L st cc ->
  wp (Method.get k now) st (fun r st' =>
    r = fst (Spec.get k now cc) /\ sim L st' (snd (Spec.get k now cc))).
Proof.
  destruct cc as [c n]. intros [[ps Hr] Hwf]. simpl in *. pose proof Hr as (Hc & [Hm Ht] & Hs).
  unfold Method.get, lookup_key. wp_steps.
  destruct (items (sh st) !! k) as [p|] eqn:Hk.
  2:{ rewrite (rep_missing Hc k Hk). wp_steps. split; [done|]. by exists ps. }
  destruct (rep_found Hc k p Hk) as (p1 & p2 & l1 & e & l2 & -> & Hes & Hlen & He & Hek & -> & Hrem).
  wp_steps. eapply wp_data; [exact He|]. destruct (expired e now).
  - wp_steps. wp_use (delete_key_ok L st _ c n k p Hr Hk). intros _ st' [Hs' _]. by wp_steps.
  - wp_steps. rewrite Hes in Hc. wp_use (front_ok L st p1 p p2 l1 e l2 _ _ n Hc Hlen).
    intros _ st' [Hc' [Hm' Ht']]. cbn beta. wp_steps. split.
    + simpl. unfold cloneBytes, len. by destruct (e_value e).
    + exists (p :: p1 ++ p2). unfold rep, put. simpl. rewrite Hek, Hrem.
      split; [done|]. rewrite Hm', Ht', Hm, Ht, Hes.
      split; [split; [by rewrite total_split|rewrite !ttls_app, !ttls_cons, !ttls_app; lia]|].
      rewrite Hes in Hs. destruct Hs as [Hs1 Hs2]. rewrite total_split in Hs2. split; [|done].
      unfold sizes_nonneg in *. rewrite Forall_cons, Forall_app.
      apply Forall_app in Hs1 as [? [? ?]%Forall_cons]. done.
Qed.

Lemma delete_ok st cc k now :
  good L st cc ->
  wp (Method.delete k now) st (fun r st' =>
    r = fst (Spec.delete k now cc) /\ sim L st' (snd (Spec.delete k now cc))).
Proof.
  destruct cc as [c n]. intros [[ps Hr] Hwf]. simpl in *. pose proof Hr as (Hc & _).
  unfold Method.delete, lookup_key. wp_steps.
  destruct (items (sh st) !! k) as [p|] eqn:Hk.
  2:{ rewrite (rep_missing Hc k Hk). wp_steps. split; [done|]. by exists ps. }
  destruct (rep_found Hc k p Hk) as (_ & _ & _ & e & _ & _ & _ & _ & He & _ & -> & _).
  wp_steps. eapply wp_data; [exact He|].
  destruct (expired e now); wp_steps; wp_use (delete_key_ok L st _ c n k p Hr Hk);
    intros _ st' [Hs' _]; by wp_steps.
Qed.
End Methods.

(** ** Making room *)

Section Room.
Context `{MapRange} {L : limits} (HL : int_limits L).

Lemma lookup_size_ok st ps c n k :
  rep L st ps c n ->
  wp (found ← lookup_key k;
      match found with
      | Some old => it ← data old; mret (e_size it)
      | None => mret 0
      end) st (fun r st' => r = old_size k (c_entries c) /\ st' = st).
Proof.
  intros (Hc & _). unfold lookup_key, old_size. wp_steps.
  destruct (items (sh st) !! k) as [p|] eqn:Hk.
  - destruct (rep_found Hc k p Hk) as (_ & _ & _ & e & _ & _ & _ & _ & He & _ & -> & _).
    wp_steps. by eapply wp_data.
  - by rewrite (rep_missing Hc k Hk).
Qed.

Lemma good_sweep st c n now : good L st (c, n) -> wf L (sweep now c).
Proof. intros [_ Hwf]. eapply wf_sublist; [apply HL|done|apply sweep_sublist]. Qed.

Lemma ttl_test es : (0 <? ttls es) = false -> ttls es = 0.
Proof. intros ?%Z.ltb_ge. pose proof (ttls_nonneg es). lia. Qed.

(** [set]: the projection after expired items were swept. *)
Lemma set_sweep_ok st c n k size now :
  good L st (c, n) -> 0 <= size <= l_maxMemory L ->
  wp (if 0 <? ttls (c_entries c) then
        removeExpiredLocked now ;;
        found ← lookup_key k;
        oldSize ← (match found with
                   | Some old => it ← data old; mret (e_size it)
                   | None => mret 0
                   end);
        projected ← Method.project oldSize size;
        mret (oldSize, projected)
      else mret (old_size k (c_entries c), total (remove_key k (c_entries c)) + size)) st
    (fun r st' =>
      r = (old_size k (c_entries (sweep now c)),
           total (remove_key k (c_entries (sweep now c))) + size) /\
      good L st' (sweep now c, n)).
Proof.
  intros Hg Hs. pose proof (good_sweep _ _ _ now Hg) as Hwf'.
  destruct (0 <? ttls (c_entries c)) eqn:Ht.
  - destruct Hg as [[ps Hr] Hwf]. wp_steps. wp_use (removeExpiredLocked_ok L now st ps c n Hr).
    intros _ st1 [ps1 Hr1]. cbn beta. apply wp_assoc, wp_bind.
    wp_use (lookup_size_ok st1 ps1 _ n k Hr1). intros r st' [-> ->]. cbn beta. wp_steps.
    wp_use (project_ok L st1 ps1 _ n k size HL Hr1 Hwf' Hs). intros r st' [-> ->]. cbn beta.
    wp_steps. split; [done|]. split; [by exists ps1|done].
  - rewrite sweep_no_ttl by by apply ttl_test. by wp_steps.
Qed.

Lemma fits_ltb k size es :
  fits L k size es = negb (l_maxMemory L <? total (remove_key k es) + size).
Proof. unfold fits. apply Z.leb_antisym. Qed.

Lemma good_make_room st c n k size now st' :
  good L st (c, n) -> sim L st' (make_room L k size now c, n) ->
  good L st' (make_room L k size now c, n).
Proof.
  intros [_ Hwf] Hs. split; [done|]. eapply wf_sublist; [apply HL|done|apply make_room_sublist].
Qed.

Lemma set_room_ok st c n k size now :
  good L st (c, n) -> 0 <= size <= l_maxMemory L ->
  wp (Method.set_room k size (old_size k (c_entries c))
        (total (remove_key k (c_entries c)) + size) (l_maxMemory L) now) st
    (fun r st' =>
      let c' := make_room L k size now c in
      r = Some (total (remove_key k (c_entries c')) + size) /\ good L st' (c', n)).
Proof.
  intros Hg Hs. unfold Method.set_room, make_room. rewrite !fits_ltb.
  destruct (l_maxMemory L <? total (remove_key k (c_entries c)) + size) eqn:Hover;
    [|by wp_steps]. cbn [negb].
  pose proof Hg as [[ps Hr] Hwf]. pose proof Hr as (_ & [_ Ht] & _). wp_steps. rewrite Ht.
  wp_use (set_sweep_ok st c n k size now Hg Hs). intros r st1 [-> Hg1]. cbn beta iota.
  destruct (l_maxMemory L <? total (remove_key k (c_entries (sweep now c))) + size) eqn:Hover1;
    cbn [negb]; [|by wp_steps].
  destruct Hg1 as [[ps1 Hr1] Hwf1]. wp_steps.
  wp_use (evictUntilFitsLocked_ok L st1 ps1 _ n k size HL Hr1 Hwf1 Hs).
  intros r st2 (-> & [ps2 Hr2] & _). cbn beta iota. cbn [negb]. wp_steps.
  assert (Hwf2 : wf L (evict L k size (sweep now c))).
  { eapply wf_sublist; [apply HL|done|apply evict_sublist]. }
  replace (old_size k (c_entries (sweep now c)))
    with (old_size k (c_entries (evict L k size (sweep now c)))).
  2:{ unfold old_size. by rewrite find_key_evict by apply Hwf1. }
  wp_use (project_ok L st2 ps2 _ n k size HL Hr2 Hwf2 Hs). intros r st' [-> ->]. cbn beta.
  wp_steps. split; [done|]. split; [by exists ps2|done].
Qed.

(** The item under [k] is at [p] and is not expired. *)
Definition holds (st : state) (c : cache) (k : bytes) (p : loc) (now : Z) : Prop :=
  items (sh st) !! k = Some p /\
  forall e, find_key k (c_entries c) = Some e -> expired e now = false.

Lemma item_size_ok st ps c n k p Q :
  rep L st ps c n -> items (sh st) !! k = Some p ->
  (forall e, e_size e = old_size k (c_entries c) -> payloads (heap st) !! p = Some e ->
     find_key k (c_entries c) = Some e -> Q e st) ->
  wp (data p) st Q.
Proof.
  intros (Hc & _) Hk HQ.
  destruct (rep_found Hc k p Hk) as (_ & _ & _ & e & _ & _ & _ & _ & He & _ & Hf & _).
  eapply wp_data; [exact He|]. apply HQ; [by unfold old_size; rewrite Hf|done..].
Qed.

(** [cas], [incr]: the item and the projection after the sweep. *)
Lemma item_sweep_ok st c n k p size now :
  good L st (c, n) -> holds st c k p now -> 0 <= size <= l_maxMemory L ->
  wp (if 0 <? ttls (c_entries c) then
        removeExpiredLocked now ;;
        found ← lookup_key k;
        match found with
        | None => mret None
        | Some q =>
            it ← data q;
            projected ← Method.project (e_size it) size;
            mret (Some (q, projected))
        end
      else mret (Some (p, total (remove_key k (c_entries c)) + size))) st
    (fun r st' => exists q,
      r = Some (q, total (remove_key k (c_entries (sweep now c))) + size) /\
      good L st' (sweep now c, n) /\ holds st' (sweep now c) k q now).
Proof.
  intros Hg [Hk Hx] Hs. pose proof (good_sweep _ _ _ now Hg) as Hwf'.
  destruct (0 <? ttls (c_entries c)) eqn:Ht.
  2:{ rewrite sweep_no_ttl by by apply ttl_test. wp_steps. by exists p. }
  destruct Hg as [[ps Hr] Hwf]. wp_steps. wp_use (removeExpiredLocked_ok L now st ps c n Hr).
  intros _ st1 [ps1 Hr1]. cbn beta. unfold lookup_key. wp_steps.
  pose proof (find_key_sweep k now c (wf_nodup _ _ Hwf) Hx) as Hfs.
  destruct (items (sh st1) !! k) as [q|] eqn:Hq.
  - wp_steps. eapply item_size_ok; [done..|]. intros e He _ Hfe. rewrite He. wp_steps.
    wp_use (project_ok L st1 ps1 _ n k size HL Hr1 Hwf' Hs). intros r st' [-> ->]. cbn beta.
    wp_steps. exists q. split; [done|]. split; [split; [by exists ps1|done]|].
    split; [done|]. intros e'. rewrite Hfs. apply Hx.
  - pose proof Hr as (Hc & _). pose proof Hr1 as (Hc1 & _). exfalso.
    destruct (rep_found Hc k p Hk) as (_ & _ & _ & e & _ & _ & _ & _ & _ & _ & Hf & _).
    pose proof (rep_missing Hc1 k Hq) as Hn. cbn [fst] in Hn, Hf. congruence.
Qed.

(** [cas], [incr]: the item and the projection after eviction. *)
Lemma item_evict_ok st c n k p size now {A} (m : loc -> Z -> M state A) (fail : M state A) Q :
  good L st (c, n) -> holds st c k p now -> 0 <= size <= l_maxMemory L ->
  (forall st', good L st' (evict L k size c, n) -> items (sh st') !! k = Some p ->
     wp (m p (total (remove_key k (c_entries (evict L k size c))) + size)) st' Q) ->
  wp (ok ← evictUntilFitsLocked k (total (remove_key k (c_entries c)) + size);
      if negb ok then fail
      else it ← data p; projected ← Method.project (e_size it) size; m p projected) st Q.
Proof.
  intros [[ps Hr] Hwf] [Hk _] Hs HQ. wp_steps.
  wp_use (evictUntilFitsLocked_ok L st ps c n k size HL Hr Hwf Hs).
  intros r st2 (-> & [ps2 Hr2] & Hsame & _). cbn beta. cbn [negb]. wp_steps.
  assert (Hwf2 : wf L (evict L k size c)).
  { eapply wf_sublist; [apply HL|done|apply evict_sublist]. }
  eapply item_size_ok; [done|by rewrite Hsame|]. intros e -> _ _. wp_steps.
  wp_use (project_ok L st2 ps2 _ n k size HL Hr2 Hwf2 Hs). intros r st' [-> ->]. cbn beta.
  apply HQ; [split; [by exists ps2|done]|congruence].
Qed.

Lemma cas_room_ok st c n k p size now :
  good L st (c, n) -> holds st c k p now -> 0 <= size <= l_maxMemory L ->
  wp (Method.cas_room k size p (total (remove_key k (c_entries c)) + size) (l_maxMemory L) now) st
    (fun r st' => exists q, let c' := make_room L k size now c in
      r = inl (q, total (remove_key k (c_entries c')) + size) /\
      items (sh st') !! k = Some q /\ good L st' (c', n)).
Proof.
  intros Hg Hh Hs. unfold Method.cas_room, make_room. rewrite !fits_ltb.
  destruct (l_maxMemory L <? total (remove_key k (c_entries c)) + size) eqn:Hover;
    [|wp_steps; exists p; destruct Hh; done]. cbn [negb].
  pose proof Hg as [[ps Hr] Hwf]. pose proof Hr as (_ & [_ Ht] & _). wp_steps. rewrite Ht.
  wp_use (item_sweep_ok st c n k p size now Hg Hh Hs). intros r st1 (q & -> & Hg1 & Hh1).
  cbn beta iota.
  destruct (l_maxMemory L <? total (remove_key k (c_entries (sweep now c))) + size) eqn:Hover1;
    cbn [negb]; [|wp_steps; exists q; destruct Hh1; done].
  eapply (item_evict_ok st1 _ n k q size now
    (fun p x => mret (inl (p, x)))); [done..|]. intros st' Hg' Hq. wp_steps. by exists q.
Qed.

Lemma incr_room_ok st c n k p size now :
  good L st (c, n) -> holds st c k p now -> 0 <= size <= l_maxMemory L ->
  wp (Method.incr_room k size p (total (remove_key k (c_entries c)) + size) (l_maxMemory L) now) st
    (fun r st' => exists q, let c' := make_room L k size now c in
      r = inl (q, total (remove_key k (c_entries c')) + size) /\
      items (sh st') !! k = Some q /\ good L st' (c', n)).
Proof.
  intros Hg Hh Hs. unfold Method.incr_room, make_room. rewrite !fits_ltb.
  destruct (l_maxMemory L <? total (remove_key k (c_entries c)) + size) eqn:Hover;
    [|wp_steps; exists p; destruct Hh; done]. cbn [negb].
  pose proof Hg as [[ps Hr] Hwf]. pose proof Hr as (_ & [_ Ht] & _). wp_steps. rewrite Ht.
  wp_use (item_sweep_ok st c n k p size now Hg Hh Hs). intros r st1 (q & -> & Hg1 & Hh1).
  cbn beta iota.
  destruct (l_maxMemory L <? total (remove_key k (c_entries (sweep now c))) + size) eqn:Hover1;
    cbn [negb].
  - eapply (item_evict_ok st1 _ n k q size now
      (fun p x => mret (inl (p, x)))); [done..|]. intros st' Hg' Hq. wp_steps. by exists q.
  - pose proof Hg1 as [[ps1 Hr1] Hwf1]. destruct Hh1 as [Hq _]. wp_steps. cbn [negb].
    wp_steps. eapply item_size_ok; [done..|]. intros e -> _ _. wp_steps.
    wp_use (project_ok L st1 ps1 _ n k size HL Hr1 Hwf1 Hs). intros r st' [-> ->]. cbn beta.
    wp_steps. by exists q.
Qed.
End Room.

(** ** The mutating methods *)

Lemma casCounter_Add1_ok L st ps c n :
  rep L st ps c n ->
  wp casCounter_Add1 st (fun r st' =>
    r = uint64 (n + 1) /\ rep L st' ps c (uint64 (n + 1)) /\ items (sh st') = items (sh st)).
Proof.
  intros (Hc & Hm & Hs). unfold casCounter_Add1. wp_steps. destruct Hc as [? ? ? ? ? ? ? ? <-].
  destruct st as [x h c0]. split; [done|]. split; [|done]. split; [by split|done].
Qed.

(** Setting [memoryBytes] to the projection completes a write. *)
Lemma commit_ok L st c n e :
  int_limits L -> wf L (put e c) ->
  (exists ps, rep_core L st ps (e :: remove_key (e_key e) (c_entries c))
     (c_evictions c) (c_expirations c) n) ->
  ttlCount (sh st) = ttls (e :: remove_key (e_key e) (c_entries c)) ->
  sim L (with_memory (fun _ => total (remove_key (e_key e) (c_entries c)) + e_size e) st) (put e c, n).
Proof.
  intros [HL HM] Hwf [ps Hc] Ht. exists ps. split; [by apply rep_core_with_memory|].
  pose proof (wf_nonneg _ _ HL Hwf) as Hn. pose proof (wf_total _ _ Hwf) as Hle. simpl in *.
  destruct st as [[] ? ?]. simpl in *. split; [split; [rewrite total_cons; lia|done]|].
  split; [done|]. destruct HL as (_ & ? & _). lia.
Qed.

Section Writes.
Context `{MapRange} {L : limits} (HL : int_limits L).

Lemma set_drop_ok st c n k now :
  good L st (c, n) ->
  wp (found ← lookup_key k;
      match found with
      | Some old =>
          it ← data old;
          if expired it now then deleteLocked old ;; mret 0 else mret (e_size it)
      | None => mret 0
      end) st (fun r st' =>
    let c1 := with_entries (drop_expired k now (c_entries c)) c in
    r = old_size k (c_entries c1) /\ good L st' (c1, n)).
Proof.
  intros [[ps Hr] Hwf]. cbn [fst snd] in *. pose proof Hr as (Hc & _).
  assert (Hwf1 : wf L (with_entries (drop_expired k now (c_entries c)) c)).
  { eapply wf_sublist; [apply HL|done|apply drop_expired_sublist]. }
  unfold lookup_key. wp_steps. simpl. unfold drop_expired, old_size in *.
  destruct (items (sh st) !! k) as [p|] eqn:Hk.
  - destruct (rep_found Hc k p Hk) as (_ & _ & _ & e & _ & _ & _ & _ & He & _ & Hf & _).
    rewrite Hf in *. wp_steps. eapply wp_data; [exact He|]. destruct (expired e now).
    + wp_steps. wp_use (delete_key_ok L st ps c n k p Hr Hk). intros _ st' [Hs _]. cbn beta.
      wp_steps. by rewrite find_key_remove_eq.
    + wp_steps. rewrite Hf. split; [done|]. split; [|done]. exists ps. by rewrite with_entries_id.
  - rewrite (rep_missing Hc k Hk) in *. wp_steps. rewrite (rep_missing Hc k Hk).
    split; [done|]. split; [|done]. exists ps. by rewrite with_entries_id.
Qed.

(** The last part of [set]: stamp, insert or refresh, commit. *)
Lemma set_store_ok st c n k v expiry size :
  good L st (c, n) -> wf L (put (Entry k v expiry size (uint64 (n + 1))) c) ->
  wp (newCAS ← casCounter_Add1;
      found ← lookup_key k;
      (match found with
       | Some existing => Method.refresh existing v expiry size newCAS
       | None =>
           p ← new_item (Entry k v expiry size newCAS);
           modify (with_items (fun m => <[k := p]> m)) ;;
           on_lru (pushFront p) ;;
           if negb (IsZero expiry) then modify (with_ttlCount (fun t => t + 1)) else mret tt
       end) ;;
      modify (with_memory (fun _ => total (remove_key k (c_entries c)) + size)) ;;
      mret (@None error)) st
    (fun r st' => r = None /\
      sim L st' (put (Entry k v expiry size (uint64 (n + 1))) c, uint64 (n + 1))).
Proof.
  intros [[ps Hr] Hwf] Hwf'. cbn [fst snd] in *. wp_steps.
  wp_use (casCounter_Add1_ok L st ps c n Hr). intros r st1 (-> & Hr1 & _). cbn beta.
  unfold lookup_key. wp_steps. pose proof Hr1 as (Hc1 & [_ Ht1] & _).
  set (e := Entry k v expiry size (uint64 (n + 1))) in *.
  destruct (items (sh st1) !! k) as [p|] eqn:Hk.
  - wp_use (refresh_ok L st1 ps _ _ _ _ k p v expiry size _ Hc1 Hk Ht1).
    intros _ st2 [Hc2 Ht2]. cbn beta. wp_steps. split; [done|].
    by apply (commit_ok L st2 c _ e HL Hwf').
  - wp_use (insert_ok L st1 ps _ _ _ _ e Hc1 Hk Ht1).
    intros _ st2 [Hc2 Ht2]. cbn beta. wp_steps. split; [done|].
    by apply (commit_ok L st2 c _ e HL Hwf').
Qed.

Lemma set_ok st cc k v ttl now :
  good L st cc -> key_ok L k ->
  wp (Method.set k v ttl now) st (fun r st' =>
    r = fst (Spec.set L k v ttl now cc) /\ sim L st' (snd (Spec.set L k v ttl now cc))).
Proof.
  destruct cc as [c n]. intros Hg Hk. pose proof Hg as [[ps Hr] Hwf]. pose proof Hr as (Hc & _).
  unfold Method.set, Spec.set. wp_steps. rewrite (rep_maxValue _ _ _ _ _ _ _ Hc).
  destruct (Z.ltb_spec (l_maxValue L) (len v)) as [Hv|Hv]; [wp_steps; by destruct Hg|].
  apply wp_assoc, wp_bind. wp_use (set_drop_ok st c n k now Hg). intros r st1 [-> Hg1]. cbn beta.
  set (c1 := with_entries (drop_expired k now (c_entries c)) c) in *.
  pose proof Hg1 as [[ps1 Hr1] Hwf1]. pose proof Hr1 as (Hc1 & _). wp_steps.
  wp_use (itemSize_ok L st1 ps1 _ n k v (proj1 HL) Hr1 Hk Hv). intros r st' (-> & Hs0 & ->).
  cbn beta. wp_steps. rewrite (rep_maxMemory _ _ _ _ _ _ _ Hc1).
  destruct (Z.ltb_spec (l_maxMemory L) (size_of L k (len v))) as [Hs|Hs]; [wp_steps; by destruct Hg1|].
  set (size := size_of L k (len v)) in *. wp_steps.
  wp_use (project_ok L st1 ps1 c1 n k size HL Hr1 Hwf1 (conj Hs0 Hs)). intros r st' [-> ->].
  cbn beta. wp_steps. wp_use (set_room_ok HL st1 c1 n k size now Hg1 (conj Hs0 Hs)).
  intros r st2 [-> Hg2]. cbn beta iota zeta.
  apply set_store_ok; [done|]. by apply wf_write; [apply HL|..].
Qed.

Lemma cas_ok st cc k v ttl x now :
  good L st cc -> key_ok L k ->
  wp (Method.cas k v ttl x now) st (fun r st' =>
    r = fst (Spec.cas L k v ttl x now cc) /\ sim L st' (snd (Spec.cas L k v ttl x now cc))).
Proof.
  destruct cc as [c n]. intros Hg Hk. pose proof Hg as [[ps Hr] Hwf]. pose proof Hr as (Hc & _).
  unfold Method.cas, Spec.cas. wp_steps. rewrite (rep_maxValue _ _ _ _ _ _ _ Hc).
  destruct (Z.ltb_spec (l_maxValue L) (len v)) as [Hv|Hv]; [wp_steps; by destruct Hg|].
  unfold lookup_key. wp_steps. cbn [fst snd] in *.
  destruct (items (sh st) !! k) as [p|] eqn:Hi.
  2:{ rewrite (rep_missing Hc k Hi). wp_steps. by destruct Hg. }
  destruct (rep_found Hc k p Hi) as (_ & _ & _ & e & _ & _ & _ & _ & He & Hek & Hf & _).
  rewrite Hf. wp_steps. eapply wp_data; [exact He|]. destruct (expired e now) eqn:Hx.
  { wp_steps. wp_use (delete_key_ok L st ps c n k p Hr Hi). intros _ st' [Hs' _]. by wp_steps. }
  destruct (e_cas e =? x); cbn [negb]; [|wp_steps; by destruct Hg]. wp_steps.
  wp_use (itemSize_ok L st ps c n k v (proj1 HL) Hr Hk Hv). intros r st' (-> & Hs0 & ->).
  cbn beta. wp_steps. rewrite (rep_maxMemory _ _ _ _ _ _ _ Hc).
  destruct (Z.ltb_spec (l_maxMemory L) (size_of L k (len v))) as [Hs|Hs]; [wp_steps; by destruct Hg|].
  set (size := size_of L k (len v)) in *. wp_steps.
  replace (e_size e) with (old_size k (c_entries c)) by by unfold old_size; rewrite Hf.
  wp_use (project_ok L st ps c n k size HL Hr Hwf (conj Hs0 Hs)). intros r st' [-> ->].
  cbn beta. wp_steps. wp_use (cas_room_ok HL st c n k p size now Hg _ (conj Hs0 Hs)).
  intros r st2 (q & -> & Hq & [[ps2 Hr2] Hwf2]). cbn beta iota zeta. wp_steps.
  wp_use (casCounter_Add1_ok L st2 ps2 _ _ Hr2). intros r st3 (-> & Hr3 & Hi3). cbn beta.
  pose proof Hr3 as (Hc3 & [_ Ht3] & _). rewrite <- Hi3 in Hq. wp_steps.
  wp_use (refresh_ok L st3 ps2 _ _ _ _ k q v (expiresAt now ttl) size _ Hc3 Hq Ht3).
  intros _ st4 [Hc4 Ht4]. cbn beta. wp_steps. split; [done|].
  apply (commit_ok L st4 _ _ (Entry k v (expiresAt now ttl) size (uint64 (n + 1))) HL); [|done..].
  by apply wf_write; [apply HL|..].
  Unshelve. split; [done|]. intros e' He'. congruence.
Qed.

(** The pre-check of [incr] rejects nothing that [ParseUint] accepts. *)
Lemma isDecimal_ParseUint v : isDecimal v = false -> exists err, ParseUint v = inr err.
Proof.
  intros Hd. destruct (ParseUint v) as [z|err] eqn:E; [|eauto]. exfalso.
  apply ParseUint_spec in E as (Hn & Hdig & _). unfold isDecimal in Hd.
  destruct (Z.eqb_spec (len v) 0) as [Hl|_]; [destruct v; [done|unfold len in Hl; simpl in Hl; lia]|].
  rewrite <- not_true_iff_false in Hd. apply Hd. rewrite <- Hdig. clear.
  induction v as [|b v IH]; simpl; [done|]. rewrite IH. f_equal. unfold is_digit.
  by rewrite negb_orb, <- !Z.leb_antisym.
Qed.

(** The last part of [incr]: stamp, rewrite, commit. *)
Lemma incr_store_ok st c n k q v size e next :
  good L st (c, n) -> items (sh st) !! k = Some q -> find_key k (c_entries c) = Some e ->
  let e' := Entry k v (e_expiresAt e) size (uint64 (n + 1)) in
  wf L (put e' c) ->
  wp (newCAS ← casCounter_Add1;
      it ← data q;
      on_lru (update q (set_data (Entry (e_key it) v (e_expiresAt it) size newCAS))) ;;
      on_lru (moveToFront q) ;;
      modify (with_memory (fun _ => total (remove_key k (c_entries c)) + size)) ;;
      mret (inl next : Z + error)) st
    (fun r st' => r = inl next /\ sim L st' (put e' c, uint64 (n + 1))).
Proof.
  intros [[ps Hr] Hwf] Hq Hf e' Hwf'. cbn [fst snd] in *. wp_steps.
  wp_use (casCounter_Add1_ok L st ps c n Hr). intros r st1 (-> & Hr1 & Hi1). cbn beta.
  rewrite <- Hi1 in Hq. pose proof Hr1 as (Hc1 & [_ Ht1] & _). wp_steps.
  destruct (rep_found Hc1 k q Hq) as (_ & _ & _ & f & _ & _ & _ & _ & He & Hek & Hf' & _).
  assert (f = e) as -> by congruence. eapply wp_data; [exact He|]. rewrite Hek. fold e'.
  apply wp_assoc, wp_bind. wp_use (touch_ok L st1 ps _ _ _ _ k q e' Hc1 Hq eq_refl).
  intros _ st2 [Hc2 [_ Ht2]]. cbn beta. wp_steps. split; [done|].
  apply (commit_ok L st2 c _ e' HL Hwf' Hc2). rewrite Ht2, Ht1, ttls_cons.
  change (hasTTL e') with (hasTTL e). apply ttls_remove_key; [apply Hwf|done].
Qed.

Lemma incr_ok st cc k delta now :
  good L st cc -> key_ok L k -> 0 <= delta ->
  wp (Method.incr k delta now) st (fun r st' =>
    r = fst (Spec.incr L k delta now cc) /\ sim L st' (snd (Spec.incr L k delta now cc))).
Proof.
  destruct cc as [c n]. intros Hg Hk Hd. pose proof Hg as [[ps Hr] Hwf]. pose proof Hr as (Hc & _).
  unfold Method.incr, Spec.incr, lookup_key. wp_steps. cbn [fst snd] in *.
  destruct (items (sh st) !! k) as [p|] eqn:Hi.
  2:{ rewrite (rep_missing Hc k Hi). wp_steps. by destruct Hg. }
  destruct (rep_found Hc k p Hi) as (_ & _ & _ & e & _ & _ & _ & _ & He & Hek & Hf & _).
  rewrite Hf. wp_steps. eapply wp_data; [exact He|]. destruct (expired e now) eqn:Hx.
  { wp_steps. wp_use (delete_key_ok L st ps c n k p Hr Hi). intros _ st' [Hs' _]. by wp_steps. }
  destruct (isDecimal (e_value e)) eqn:Hdec; cbn [negb].
  2:{ destruct (isDecimal_ParseUint _ Hdec) as [err ->]. wp_steps. by destruct Hg. }
  destruct (ParseUint (e_value e)) as [cur|] eqn:Hp; [|wp_steps; by destruct Hg].
  apply ParseUint_range in Hp.
  replace (MaxUint64 - cur <? delta) with (MaxUint64 <? cur + delta)
    by (apply eq_true_iff_eq; rewrite !Z.ltb_lt; lia).
  destruct (Z.ltb_spec MaxUint64 (cur + delta)) as [Ho|Ho]; [wp_steps; by destruct Hg|].
  rewrite uint64_id by lia. wp_steps. rewrite (rep_maxValue _ _ _ _ _ _ _ Hc).
  set (v := FormatUint (cur + delta)).
  destruct (Z.ltb_spec (l_maxValue L) (len v)) as [Hv|Hv]; [wp_steps; by destruct Hg|]. wp_steps.
  wp_use (itemSize_ok L st ps c n k v (proj1 HL) Hr Hk Hv). intros r st' (-> & Hs0 & ->).
  cbn beta. wp_steps. rewrite (rep_maxMemory _ _ _ _ _ _ _ Hc).
  destruct (Z.ltb_spec (l_maxMemory L) (size_of L k (len v))) as [Hs|Hs]; [wp_steps; by destruct Hg|].
  set (size := size_of L k (len v)) in *. wp_steps.
  replace (e_size e) with (old_size k (c_entries c)) by by unfold old_size; rewrite Hf.
  wp_use (project_ok L st ps c n k size HL Hr Hwf (conj Hs0 Hs)). intros r st' [-> ->].
  cbn beta. wp_steps. wp_use (incr_room_ok HL st c n k p size now Hg _ (conj Hs0 Hs)).
  intros r st2 (q & -> & Hq & Hg2). cbn beta iota zeta.
  apply incr_store_ok; [done..| |by apply wf_write; [apply HL|..]].
  rewrite find_key_make_room; [done|apply Hwf|]. intros e' He'. congruence.
  Unshelve. split; [done|]. intros e' He'. congruence.
Qed.
End Writes.

(** ** The shard as an implementation of the abstract transition system *)

(** Operations a shard with limits [L] executes without wrap-around: keys
    whose items have an [int] size, and a [uint64] increment. *)
Definition op_ok (L : limits) (o : op) : Prop :=
  match o with
  | OpSet k _ _ | OpCas k _ _ _ => key_ok L k
  | OpIncr k delta => key_ok L k /\ 0 <= delta <= MaxUint64
  | OpGet _ | OpDelete _ | OpCleanup => True
  end.

Section Step.
Context `{MapRange}.

Definition step (o : op) (now : Z) : M state reply :=
  match o with
  | OpSet k v ttl => r ← Method.set k v ttl now; mret (RError r)
  | OpGet k => r ← Method.get k now; mret (RItem r)
  | OpCas k v ttl x => r ← Method.cas k v ttl x now; mret (RError r)
  | OpDelete k => r ← Method.delete k now; mret (RDeleted r)
  | OpIncr k d => r ← Method.incr k d now; mret (RIncr r)
  | OpCleanup => r ← cleanupExpired now; mret (RCount r)
  end.
End Step.

(** What a shard promises to the store that owns it: it starts empty, and
    every operation takes it from a represented state to the one the
    specification prescribes, with the reply the specification gives. *)
Class ShardContract (L : limits) (run : op -> Z -> M state reply)
    (R : state -> cache * Z -> Prop) : Prop := {
  contract_init : forall n,
    R (State (newShard (l_maxValue L) (l_overhead L) (l_maxMemory L)) ∅ n) (Cache [] 0 0, n);
  contract_counter : forall x h c n m, R (State x h n) (c, n) -> R (State x h m) (c, m);
  contract_cas : forall st c n, R st (c, n) -> casCounter st = n;
  contract_wf : forall st cc, R st cc -> wf L (fst cc);
  contract_step : forall st cc o now, R st cc -> op_ok L o ->
    wp (run o now) st (fun r st' =>
      r = fst (spec_step L o now cc) /\ R st' (snd (spec_step L o now cc)));
  contract_totals : forall st cc, R st cc ->
    memoryBytes (sh st) = total (c_entries (fst cc)) /\
    size (items (sh st)) = length (c_entries (fst cc)) /\
    maxMemoryBytes (sh st) = l_maxMemory L /\
    evictions (sh st) = c_evictions (fst cc) /\ expirations (sh st) = c_expirations (fst cc)
}.

Lemma init_good L n :
  wf_limits L ->
  good L (State (newShard (l_maxValue L) (l_overhead L) (l_maxMemory L)) ∅ n) (Cache [] 0 0, n).
Proof.
  intros HL. split.
  - exists []. split; [split|split]; try done; simpl.
    + split; [constructor|done].
    + intros k p. rewrite lookup_empty. set_solver.
    + split; [constructor|]. done.
  - split; simpl; [constructor|constructor|]. unfold total. simpl. destruct HL. lia.
Qed.

Lemma step_good `{MapRange} L st cc o now :
  int_limits L -> good L st cc -> op_ok L o ->
  wp (step o now) st (fun r st' =>
    r = fst (spec_step L o now cc) /\ good L st' (snd (spec_step L o now cc))).
Proof.
  intros HL Hg Ho.
  assert (Hwf : forall st', sim L st' (snd (spec_step L o now cc)) ->
    good L st' (snd (spec_step L o now cc))).
  { intros st' Hs. split; [done|]. destruct cc as [c n], Hg as [_ Hw].
    destruct (spec_step L o now (c, n)) as [r [c' n']] eqn:E. by eapply spec_step_wf; [apply HL|..]. }
  destruct o as [k v ttl|k|k v ttl x|k|k d|]; simpl in *; wp_steps.
  - wp_use (set_ok HL st cc k v ttl now Hg Ho). intros r st' [-> Hs]. wp_steps.
    destruct (Spec.set _ _ _ _ _ _). auto.
  - wp_use (get_ok st cc k now Hg). intros r st' [-> Hs]. wp_steps.
    destruct (Spec.get _ _ _). auto.
  - wp_use (cas_ok HL st cc k v ttl x now Hg Ho). intros r st' [-> Hs]. wp_steps.
    destruct (Spec.cas _ _ _ _ _ _ _). auto.
  - wp_use (delete_ok st cc k now Hg). intros r st' [-> Hs]. wp_steps.
    destruct (Spec.delete _ _ _). auto.
  - destruct Ho as [Ho Hd]. wp_use (incr_ok HL st cc k d now Hg Ho (proj1 Hd)).
    intros r st' [-> Hs]. wp_steps. destruct (Spec.incr _ _ _ _ _). auto.
  - wp_use (cleanupExpired_ok L now st cc (proj1 Hg)). intros r st' [-> Hs]. wp_steps.
    destruct (Spec.cleanupExpired _ _). auto.
Qed.

Lemma good_counter L x h c n m : good L (State x h n) (c, n) -> good L (State x h m) (c, m).
Proof.
  intros [(ps & Hc & Hm & Hs) Hwf]. split; [|done]. exists ps.
  split; [|done]. destruct Hc. by split.
Qed.

Global Instance shard_contract `{MapRange} L (HL : int_limits L) :
  ShardContract L step (good L).
Proof.
  split.
  - intros n. by apply init_good, HL.
  - apply good_counter.
  - intros st c n [(ps & Hc & _) _]. by destruct Hc.
  - by intros st cc [_ Hwf].
  - intros st cc o now. by apply step_good.
  - intros st cc [(ps & Hc & [Hm _] & _) _]. rewrite (rep_size Hc). by destruct Hc.
Qed.
