(* ===== verification/ShardProps.v ===== *)
(** * What holds of every reachable shard

    Theorems about the methods of [shard.go] as they run on the pointer-level
    state, for every state a new shard reaches by any sequence of operations.
    [contents] reads the entries off the recency list, most recently used
    first. *)

From S2P Require Import Prelude Lru Strconv Shard ShardSpec ShardRefine.

(** ** Reachable states *)

(** A concrete iteration order, to run the model. *)
Global Program Instance key_order : MapRange := {| range_order m := (map_to_list m).*2 |}.
Next Obligation. done. Qed.

Fixpoint run_ops `{MapRange} (tr : list (op * Z)) : M state (list reply) :=
  match tr with
  | [] => mret []
  | (o, now) :: tr' => r ← step o now; rs ← run_ops tr'; mret (r :: rs)
  end.

Definition new_state (L : limits) : state :=
  State (newShard (l_maxValue L) (l_overhead L) (l_maxMemory L)) ∅ 0.

Definition shard_reach `{MapRange} (L : limits) (st : state) : Prop :=
  exists tr rs, Forall (fun '(o, _) => op_ok L o) tr /\ run_ops tr (new_state L) = Done (rs, st).

(** The entries in list order, read by following [next] from [head]. *)
Fixpoint walk (fuel : nat) (h : gmap loc storedItem) (p : ptr) : entries :=
  match fuel, p with
  | S fuel', Some q =>
      match h !! q with
      | Some it => si_data it :: walk fuel' h (si_next it)
      | None => []
      end
  | _, _ => []
  end.

Definition contents (st : state) : entries :=
  walk (size (items (sh st))) (heap st) (head (lru (sh st))).

Definition cache_of (st : state) : cache :=
  Cache (contents st) (evictions (sh st)) (expirations (sh st)).

Lemma walk_dll h ps : forall pp p q es,
  dll h pp p ps q None -> Forall2 (fun p e => payloads h !! p = Some e) ps es ->
  walk (length ps) h p = es.
Proof.
  induction ps as [|x ps IH]; intros pp p q es; simpl.
  - by intros _ ->%Forall2_nil_inv_l.
  - intros (-> & it & Hx & _ & Hd) (e & es' & He & HF & ->)%Forall2_cons_inv_l.
    rewrite Hx. apply payloads_lookup in Hx. rewrite Hx in He. simplify_eq.
    f_equal. by eapply IH.
Qed.

Lemma good_cache L st cc : good L st cc -> cc = (cache_of st, casCounter st).
Proof.
  destruct cc as [[es ev ex] n]. intros [(ps & Hc & _) _]. simpl in *.
  assert (contents st = es) as Hes.
  { unfold contents. rewrite (rep_size Hc), <- (rep_length Hc).
    destruct (rep_lru _ _ _ _ _ _ _ Hc) as [_ Hd]. eapply walk_dll; [exact Hd|].
    by eapply rep_data. }
  unfold cache_of. rewrite Hes. by destruct Hc as [_ _ _ _ _ _ <- <- <-].
Qed.

Section Reachable.
Context `{MapRange} {L : limits} (HL : int_limits L).

Lemma run_ops_good tr : forall st cc,
  good L st cc -> Forall (fun '(o, _) => op_ok L o) tr ->
  wp (run_ops tr) st (fun _ st' => exists cc', good L st' cc').
Proof.
  induction tr as [|[o now] tr IH]; intros st cc Hg HF; simpl; [wp_steps; eauto|].
  apply Forall_cons in HF as [Ho HF]. wp_steps.
  wp_use (step_good L st cc o now HL Hg Ho). intros r st' [_ Hg']. cbn beta. wp_steps.
  wp_use (IH st' _ Hg' HF). intros rs st'' Hg''. by wp_steps.
Qed.

Lemma reach_good st : shard_reach L st -> good L st (cache_of st, casCounter st).
Proof.
  intros (tr & rs & HF & Hrun).
  pose proof (run_ops_good tr _ _ (init_good L 0 (proj1 HL)) HF) as Hwp.
  unfold wp in Hwp. unfold new_state in Hrun. rewrite Hrun in Hwp.
  destruct Hwp as [cc Hg]. by rewrite <- (good_cache _ _ _ Hg).
Qed.

(** A method's result in a reachable state, by its specification. *)
Lemma run_method {A} (m : M state A) (spec : A * (cache * Z)) st :
  wp m st (fun r st' => r = fst spec /\ sim L st' (snd spec)) ->
  wf L (fst (snd spec)) ->
  exists st', m st = Done (fst spec, st') /\
    cache_of st' = fst (snd spec) /\ casCounter st' = snd (snd spec) /\ good L st' (snd spec).
Proof.
  intros (r & st' & Hrun & -> & Hs)%wp_Done Hwf. exists st'.
  assert (Hg : good L st' (snd spec)) by by split.
  pose proof (good_cache _ _ _ Hg) as Heq. rewrite Heq in *. done.
Qed.
End Reachable.

(** ** Theorems *)

Section Theorems.
Context `{MapRange} (L : limits) (HL : int_limits L) (st : state) (Hr : shard_reach L st).

Let Hg : good L st (cache_of st, casCounter st) := reach_good HL st Hr.

Lemma step_wf o now c n :
  wf L c -> wf L (fst (snd (spec_step L o now (c, n)))).
Proof.
  intros Hwf. destruct (spec_step L o now (c, n)) as [r [c' n']] eqn:E.
  by eapply spec_step_wf; [apply HL|..].
Qed.

(** Every method of a reachable shard completes (no nil dereference, no loop
    cut off), answers as the specification does, and leaves the shard in the
    state the specification prescribes. *)
Lemma step_refines o now :
  op_ok L o ->
  exists st', step o now st = Done (fst (spec_step L o now (cache_of st, casCounter st)), st') /\
    (cache_of st', casCounter st') = snd (spec_step L o now (cache_of st, casCounter st)).
Proof.
  intros Ho. destruct (run_method (L := L) (step o now)
    (spec_step L o now (cache_of st, casCounter st)) st) as (st' & Hrun & H1 & H2 & _).
  - wp_use (step_good L st _ o now HL Hg Ho). intros r st' [-> [Hs _]]. done.
  - apply step_wf, Hg.
  - exists st'. split; [done|]. rewrite H1, H2. by destruct (snd _).
Qed.

Lemma accounting :
  memoryBytes (sh st) = total (contents st) /\ memoryBytes (sh st) <= maxMemoryBytes (sh st) /\
  ttlCount (sh st) = ttls (contents st) /\ NoDup (keys (contents st)) /\
  (forall k, is_Some (items (sh st) !! k) <-> k ∈ keys (contents st)) /\
  Forall (fun e => e_size e = len (e_key e) + len (e_value e) + itemOverheadBytes (sh st))
    (contents st).
Proof.
  destruct Hg as [(ps & Hc & [Hm Ht] & _) Hwf]. simpl in *.
  split_and!; [done| |done|apply Hwf| |].
  - rewrite Hm, (rep_maxMemory _ _ _ _ _ _ _ Hc). apply Hwf.
  - intros k. destruct (items (sh st) !! k) as [p|] eqn:Hk.
    + destruct (rep_found Hc k p Hk) as (_ & _ & l1 & e & l2 & _ & -> & _ & _ & <- & _).
      split; [|eauto]. intros _. rewrite map_app. set_solver.
    + split; [by intros []|]. pose proof (rep_missing Hc k Hk) as Hn%find_key_None. done.
  - rewrite (rep_overhead _ _ _ _ _ _ _ Hc). eapply Forall_impl; [apply Hwf|]. by intros e [He _].
Qed.

(** The specification's result of any method, in a reachable shard. *)
Lemma method_run {A} (m : M state A) (spec : A * (cache * Z)) o now (f : A -> reply) :
  wp m st (fun r st' => r = fst spec /\ sim L st' (snd spec)) ->
  spec_step L o now (cache_of st, casCounter st) = (f (fst spec), snd spec) ->
  exists st', m st = Done (fst spec, st') /\
    contents st' = c_entries (fst (snd spec)) /\
    evictions (sh st') = c_evictions (fst (snd spec)) /\
    expirations (sh st') = c_expirations (fst (snd spec)) /\ casCounter st' = snd (snd spec).
Proof.
  intros Hm Heq. pose proof (step_wf o now (cache_of st) (casCounter st) (proj2 Hg)) as Hw.
  rewrite Heq in Hw. destruct (run_method (L := L) m spec st Hm Hw) as (st' & Hrun & Hc & Hn & _).
  exists st'. rewrite <- Hc. done.
Qed.

(** A successful write: the item is the most recently used one, under the next
    version; beside it stay exactly the items that [room_spec] says. *)
Definition rewrites (k v : bytes) (expiry now : Z) (st' : state) : Prop :=
  let size := len k + len v + l_overhead L in
  len v <= l_maxValue L /\ size <= l_maxMemory L /\
  casCounter st' = uint64 (casCounter st + 1) /\
  exists kept, contents st' = Entry k v expiry size (casCounter st') :: kept /\
    room_spec L size now (remove_key k (contents st)) kept
      (evictions (sh st)) (evictions (sh st')).

Definition unchanged (st' : state) : Prop :=
  contents st' = contents st /\ casCounter st' = casCounter st.

Definition set_post (k v : bytes) (ttl now : Z) (r : option error) (st' : state) : Prop :=
  match r with
  | None => rewrites k v (expiresAt now ttl) now st'
  | Some ErrValueTooLarge => l_maxValue L < len v /\ unchanged st'
  | Some ErrMemoryLimitExceeded =>
      len v <= l_maxValue L /\ l_maxMemory L < len k + len v + l_overhead L /\
      contents st' = drop_expired k now (contents st) /\ casCounter st' = casCounter st
  | Some _ => False
  end.

Lemma set_outcome_l k v ttl now :
  key_ok L k -> exists r st', Method.set k v ttl now st = Done (r, st') /\ set_post k v ttl now r st'.
Proof.
  intros Hk. destruct (method_run _ _ (OpSet k v ttl) now RError (set_ok HL st _ k v ttl now Hg Hk))
    as (st' & Hrun & Hc & Hev & _ & Hn).
  { simpl. by destruct (if _ <? _ then _ else _). }
  eexists _, st'. split; [exact Hrun|]. clear Hrun. unfold set_post, rewrites, unchanged, Spec.set, size_of in *.
  destruct (Z.ltb_spec (l_maxValue L) (len v)); [done|].
  destruct (Z.ltb_spec (l_maxMemory L) (len k + len v + l_overhead L)); [done|]. cbn [fst snd] in *.
  split_and!; [done..|]. rewrite Hc, <- Hn. eexists. split; [done|]. rewrite Hev.
  pose proof (make_room_spec L k (len k + len v + l_overhead L) now
    (with_entries (drop_expired k now (contents st)) (cache_of st)) ltac:(done)) as Hroom.
  cbn [c_entries c_evictions with_entries cache_of] in Hroom. by rewrite remove_key_drop_expired in Hroom.
Qed.

Lemma set_room_l k v ttl now st' :
  key_ok L k -> Method.set k v ttl now st = Done (None, st') ->
  exists kept, contents st' = Entry k v (expiresAt now ttl) (len k + len v + l_overhead L)
                                (casCounter st') :: kept /\
    room_spec L (len k + len v + l_overhead L) now (remove_key k (contents st)) kept
      (evictions (sh st)) (evictions (sh st')).
Proof.
  intros Hk Hrun. destruct (set_outcome_l k v ttl now Hk) as (r & st0 & Hrun0 & Hpost).
  rewrite Hrun0 in Hrun. injection Hrun as -> ->. apply Hpost.
Qed.

Definition get_post (k : bytes) (now : Z) (r : option Item) (st' : state) : Prop :=
  casCounter st' = casCounter st /\
  match find_key k (contents st) with
  | Some e =>
      if expired e now
      then r = None /\ contents st' = remove_key k (contents st)
      else r = Some (MkItem (e_value e) (e_cas e)) /\ contents st' = e :: remove_key k (contents st)
  | None => r = None /\ contents st' = contents st
  end.

Lemma get_outcome_l k now :
  exists r st', Method.get k now st = Done (r, st') /\ get_post k now r st'.
Proof.
  destruct (method_run _ _ (OpGet k) now RItem (get_ok st _ k now Hg)) as (st' & Hrun & Hc & _ & _ & Hn).
  { cbn [spec_step]. by case_match. }
  eexists _, st'. split; [exact Hrun|]. unfold get_post. simpl in *.
  destruct (find_key k (contents st)) as [e|] eqn:E; [|done].
  destruct (expired e now); simpl in *; [done|].
  apply find_key_elem in E as [_ <-]. done.
Qed.

Definition cas_post (k v : bytes) (ttl expected now : Z) (r : option error) (st' : state) : Prop :=
  match r with
  | None => exists e, find_key k (contents st) = Some e /\ expired e now = false /\
      e_cas e = expected /\ rewrites k v (expiresAt now ttl) now st'
  | Some ErrValueTooLarge => l_maxValue L < len v /\ unchanged st'
  | Some ErrNotFound => len v <= l_maxValue L /\ contents st' = drop_expired k now (contents st) /\
      find_key k (contents st') = None /\ casCounter st' = casCounter st
  | Some ErrCasMismatch => len v <= l_maxValue L /\ exists e, find_key k (contents st) = Some e /\
      expired e now = false /\ e_cas e <> expected /\ unchanged st'
  | Some ErrMemoryLimitExceeded =>
      len v <= l_maxValue L /\ l_maxMemory L < len k + len v + l_overhead L /\
      exists e, find_key k (contents st) = Some e /\ expired e now = false /\ e_cas e = expected /\ unchanged st'
  | Some _ => False
  end.

Lemma cas_outcome_l k v ttl expected now :
  key_ok L k -> exists r st', Method.cas k v ttl expected now st = Done (r, st') /\
    cas_post k v ttl expected now r st'.
Proof.
  intros Hk. destruct (method_run _ _ (OpCas k v ttl expected) now RError
    (cas_ok HL st _ k v ttl expected now Hg Hk)) as (st' & Hrun & Hc & Hev & _ & Hn).
  { cbn [spec_step]. by case_match. }
  eexists _, st'. split; [exact Hrun|]. clear Hrun. unfold cas_post, rewrites, unchanged, Spec.cas in *.
  destruct (Z.ltb_spec (l_maxValue L) (len v)); [done|]. unfold size_of in *.
  cbn [c_entries cache_of] in *. unfold drop_expired.
  destruct (find_key k (contents st)) as [e|] eqn:E; [|simpl in *; by rewrite Hc, E].
  destruct (expired e now) eqn:Hx; [simpl in *; by rewrite Hc, find_key_remove_eq|].
  destruct (Z.eqb_spec (e_cas e) expected); cbn [negb] in *; [|split; [done|by exists e]].
  destruct (Z.ltb_spec (l_maxMemory L) (len k + len v + l_overhead L)); [do 2 (split; [done|]); by exists e|].
  cbn [fst snd] in *. exists e. split_and!; [done..|]. rewrite Hc, <- Hn. eexists. split; [done|].
  rewrite Hev. by apply (make_room_spec L k _ now (cache_of st)).
Qed.

Definition incr_post (k : bytes) (delta now : Z) (r : Z + error) (st' : state) : Prop :=
  match r with
  | inl m => exists e cur, find_key k (contents st) = Some e /\ expired e now = false /\
      ParseUint (e_value e) = inl cur /\ m = cur + delta /\ m <= MaxUint64 /\
      rewrites k (FormatUint m) (e_expiresAt e) now st'
  | inr ErrNotFound => contents st' = drop_expired k now (contents st) /\
      find_key k (contents st') = None /\ casCounter st' = casCounter st
  | inr err => unchanged st' /\ exists e, find_key k (contents st) = Some e /\ expired e now = false /\
      match err, ParseUint (e_value e) with
      | ErrNotInteger, inr _ => True
      | ErrOverflow, inl cur => MaxUint64 < cur + delta
      | ErrValueTooLarge, inl cur => l_maxValue L < len (FormatUint (cur + delta))
      | ErrMemoryLimitExceeded, inl cur =>
          l_maxMemory L < len k + len (FormatUint (cur + delta)) + l_overhead L
      | _, _ => False
      end
  end.

Lemma incr_outcome_l k delta now :
  key_ok L k -> 0 <= delta <= MaxUint64 ->
  exists r st', Method.incr k delta now st = Done (r, st') /\ incr_post k delta now r st'.
Proof.
  intros Hk Hd. destruct (method_run _ _ (OpIncr k delta) now RIncr
    (incr_ok HL st _ k delta now Hg Hk (proj1 Hd))) as (st' & Hrun & Hc & Hev & _ & Hn).
  { cbn [spec_step]. by case_match. }
  eexists _, st'. split; [exact Hrun|]. clear Hrun.
  unfold incr_post, rewrites, unchanged, drop_expired, Spec.incr, size_of in *.
  cbn [c_entries cache_of] in *.
  destruct (find_key k (contents st)) as [e|] eqn:E; [|simpl in *; by rewrite Hc, E].
  destruct (expired e now) eqn:Hx; [simpl in *; by rewrite Hc, find_key_remove_eq|].
  destruct (ParseUint (e_value e)) as [cur|] eqn:Hp;
    [|split; [done|exists e; by rewrite Hp]].
  destruct (Z.ltb_spec MaxUint64 (cur + delta)); [split; [done|exists e; by rewrite Hp]|].
  destruct (Z.ltb_spec (l_maxValue L) (len (FormatUint (cur + delta))));
    [split; [done|exists e; by rewrite Hp]|].
  destruct (Z.ltb_spec (l_maxMemory L) (len k + len (FormatUint (cur + delta)) + l_overhead L));
    [split; [done|exists e; by rewrite Hp]|].
  cbn [fst snd] in *. exists e, cur. split_and!; [done..|]. rewrite Hc, <- Hn. eexists. split; [done|].
  rewrite Hev. by apply (make_room_spec L k _ now (cache_of st)).
Qed.

Lemma delete_outcome_l k now :
  exists st', Method.delete k now st =
    Done (match find_key k (contents st) with Some e => negb (expired e now) | None => false end, st') /\
    contents st' = remove_key k (contents st) /\ casCounter st' = casCounter st.
Proof.
  destruct (method_run _ _ (OpDelete k) now RDeleted (delete_ok st _ k now Hg))
    as (st' & Hrun & Hc & _ & _ & Hn).
  { cbn [spec_step]. by case_match. }
  exists st'. simpl in *. destruct (find_key k (contents st)) as [e|] eqn:E; [done|].
  simpl in *. rewrite Hc. apply find_key_None in E. by rewrite remove_key_absent.
Qed.

Lemma cleanup_outcome_l now :
  exists st', cleanupExpired now st =
    Done (len (contents st) - len (live now (contents st)), st') /\
    contents st' = live now (contents st) /\ casCounter st' = casCounter st /\
    evictions (sh st') = evictions (sh st).
Proof.
  destruct (method_run _ _ OpCleanup now RCount (cleanupExpired_ok L now st _ (proj1 Hg)))
    as (st' & Hrun & Hc & Hev & _ & Hn); [done|]. by exists st'.
Qed.
End Theorems.

(** ** A shard to run the theorems on

    A budget of six bytes, no per-item overhead: two items, one refreshed, one
    with a deadline. *)

Definition demo_limits : limits := Limits 4 6 0.

Definition demo_ops : list (op * Z) :=
  [(OpSet "a" "1" 0, 10); (OpSet "b" "2" 5, 10); (OpGet "a", 11)].

Definition demo_state : state :=
  match run_ops demo_ops (new_state demo_limits) with
  | Done (_, st) => st
  | _ => new_state demo_limits
  end.

Lemma demo_limits_ok : int_limits demo_limits.
Proof. repeat split; vm_compute; congruence. Qed.

Lemma demo_reach : shard_reach demo_limits demo_state.
Proof.
  eexists demo_ops, _. split; [|vm_compute; reflexivity].
  repeat constructor; vm_compute; congruence.
Qed.

Lemma demo_key k : len k <= 100 -> key_ok demo_limits k.
Proof. unfold key_ok, MaxInt64. simpl. lia. Qed.

(** ** Theorems *)

(** C3: Every method of a shard that any sequence of operations has built
    completes without a nil dereference and without a loop that fails to end,
    answers what the specification of the abstract cache answers, and leaves
    exactly the entries, order, counters and CAS version the specification
    prescribes. *)
Theorem shard_refines `{MapRange} (L : limits) (st : state) (o : op) (now : Z) :
  int_limits L -> shard_reach L st -> op_ok L o ->
  exists st', step o now st = Done (fst (spec_step L o now (cache_of st, casCounter st)), st') /\
    (cache_of st', casCounter st') = snd (spec_step L o now (cache_of st, casCounter st)).
Proof. intros HL Hr Ho. by apply step_refines. Qed.

Lemma shard_refines_witness : exists st', step (OpSet "c" "333" 0) 12 demo_state =
    Done (fst (spec_step demo_limits (OpSet "c" "333" 0) 12 (cache_of demo_state, casCounter demo_state)), st') /\
    (cache_of st', casCounter st') =
    snd (spec_step demo_limits (OpSet "c" "333" 0) 12 (cache_of demo_state, casCounter demo_state)).
Proof.
  apply (shard_refines demo_limits demo_state (OpSet "c" "333" 0) 12 demo_limits_ok demo_reach).
  apply demo_key. vm_compute. congruence.
Defined.

(** C4: In every reachable shard the running totals are exact and the budget
    holds: [memoryBytes] is the sum of the item sizes and never exceeds
    [maxMemoryBytes], [ttlCount] is the number of items with a deadline, the
    map and the recency list hold the same keys, each once, and every item's
    recorded size is its key length plus value length plus overhead. *)
Theorem shard_accounting `{MapRange} (L : limits) (st : state) :
  int_limits L -> shard_reach L st ->
  memoryBytes (sh st) = total (contents st) /\ memoryBytes (sh st) <= maxMemoryBytes (sh st) /\
  ttlCount (sh st) = ttls (contents st) /\ NoDup (keys (contents st)) /\
  (forall k, is_Some (items (sh st) !! k) <-> k ∈ keys (contents st)) /\
  Forall (fun e => e_size e = len (e_key e) + len (e_value e) + itemOverheadBytes (sh st))
    (contents st).
Proof. intros HL Hr. by eapply accounting. Qed.

Lemma shard_accounting_witness :
  memoryBytes (sh demo_state) = 4 /\ ttlCount (sh demo_state) = ttls (contents demo_state).
Proof.
  destruct (shard_accounting demo_limits demo_state demo_limits_ok demo_reach) as (_ & _ & Ht & _).
  split; [vm_compute; reflexivity|exact Ht].
Defined.

(** C17: [set] has exactly three outcomes.  It succeeds iff the value and the
    item are within the limits; then the item, with the next CAS version and
    the requested deadline, is the most recently used one, and behind it are, in
    their order, all the other items if they fit, or else the unexpired ones
    less the least recently used of them, as few as possible.  A value over the
    limit changes nothing; an item over the budget changes nothing but dropping
    the expired item under the same key. *)
Theorem set_outcome `{MapRange} (L : limits) (st : state) (k v : bytes) (ttl now : Z) :
  int_limits L -> shard_reach L st -> key_ok L k ->
  exists r st', Method.set k v ttl now st = Done (r, st') /\ set_post L st k v ttl now r st'.
Proof. intros HL Hr Hk. by apply set_outcome_l. Qed.

Lemma set_outcome_witness : exists r st',
  Method.set "c" "333" 0 12 demo_state = Done (r, st') /\
  set_post demo_limits demo_state "c" "333" 0 12 r st'.
Proof.
  apply (set_outcome demo_limits demo_state "c" "333" 0 12 demo_limits_ok demo_reach).
  apply demo_key. vm_compute. congruence.
Defined.

(** C6: Eviction is exact LRU.  After a successful [set], the items kept
    beside the new one are: all the others, if they fit; otherwise the longest
    prefix, in recency order, of the others that have not expired which fits
    in the budget.  Keeping any further victim would exceed the budget, and
    [evictions] grew by the number of live victims. *)
Theorem set_evicts_lru `{MapRange} (L : limits) (st st' : state) (k v : bytes) (ttl now : Z) :
  int_limits L -> shard_reach L st -> key_ok L k -> Method.set k v ttl now st = Done (None, st') ->
  exists kept, contents st' = Entry k v (expiresAt now ttl) (len k + len v + l_overhead L)
                                (casCounter st') :: kept /\
    room_spec L (len k + len v + l_overhead L) now (remove_key k (contents st)) kept
      (evictions (sh st)) (evictions (sh st')).
Proof. intros HL Hr Hk. by apply set_room_l. Qed.

Definition demo_state2 : state :=
  match Method.set "c" "333" 0 12 demo_state with Done (_, st) => st | _ => demo_state end.

Lemma set_evicts_lru_witness : exists kept,
  contents demo_state2 = Entry "c" "333" 0 4 3 :: kept /\
  room_spec demo_limits 4 12 (remove_key "c" (contents demo_state)) kept 0 1.
Proof.
  apply (set_evicts_lru demo_limits demo_state demo_state2 "c" "333" 0 12 demo_limits_ok demo_reach).
  - apply demo_key. vm_compute. congruence.
  - vm_compute. reflexivity.
Defined.

(** [get] returns the value and version of the item under the key when it
    exists and has not expired, and makes it the most recently used; an
    expired item is removed and reported as a miss; a miss changes nothing. *)
Theorem get_outcome `{MapRange} (L : limits) (st : state) (k : bytes) (now : Z) :
  int_limits L -> shard_reach L st ->
  exists r st', Method.get k now st = Done (r, st') /\ get_post st k now r st'.
Proof. intros HL Hr. by eapply get_outcome_l. Qed.

Lemma get_outcome_witness : exists r st',
  Method.get "b" 15 demo_state = Done (r, st') /\ get_post demo_state "b" 15 r st'.
Proof. apply (get_outcome demo_limits demo_state "b" 15 demo_limits_ok demo_reach). Defined.

(** C18: [cas] writes exactly when the key holds a live item whose version is
    the expected one and the new item fits; then it stores the value under a
    fresh version, evicting others in LRU order only.  Every other outcome is
    one of the four errors, each with its precise condition, and leaves the
    contents as they were (an expired item under the key is dropped). *)
Theorem cas_outcome `{MapRange} (L : limits) (st : state) (k v : bytes) (ttl expected now : Z) :
  int_limits L -> shard_reach L st -> key_ok L k ->
  exists r st', Method.cas k v ttl expected now st = Done (r, st') /\
    cas_post L st k v ttl expected now r st'.
Proof. intros HL Hr Hk. by apply cas_outcome_l. Qed.

Lemma cas_outcome_witness : exists r st',
  Method.cas "a" "22" 0 1 12 demo_state = Done (r, st') /\
  cas_post demo_limits demo_state "a" "22" 0 1 12 r st'.
Proof.
  apply (cas_outcome demo_limits demo_state "a" "22" 0 1 12 demo_limits_ok demo_reach).
  apply demo_key. vm_compute. congruence.
Defined.

(** C19: [incr] parses the stored value as a [uint64] decimal, adds the delta
    without wrapping around, and stores the canonical decimal of the sum under
    a fresh version with the same deadline; a missing key, a value that is not
    a [uint64], an overflow or a result over the limits leaves the contents
    unchanged and reports which. *)
Theorem incr_outcome `{MapRange} (L : limits) (st : state) (k : bytes) (delta now : Z) :
  int_limits L -> shard_reach L st -> key_ok L k -> 0 <= delta <= MaxUint64 ->
  exists r st', Method.incr k delta now st = Done (r, st') /\ incr_post L st k delta now r st'.
Proof. intros HL Hr Hk Hd. by apply incr_outcome_l. Qed.

Lemma incr_outcome_witness : exists r st',
  Method.incr "a" 99 12 demo_state = Done (r, st') /\ incr_post demo_limits demo_state "a" 99 12 r st'.
Proof.
  apply (incr_outcome demo_limits demo_state "a" 99 12 demo_limits_ok demo_reach).
  - apply demo_key. vm_compute. congruence.
  - vm_compute. split; congruence.
Defined.

(** [delete] removes the item under the key and nothing else, keeps the
    order of the rest, and reports [true] exactly when it removed a live item. *)
Theorem delete_outcome `{MapRange} (L : limits) (st : state) (k : bytes) (now : Z) :
  int_limits L -> shard_reach L st ->
  exists st', Method.delete k now st =
    Done (match find_key k (contents st) with Some e => negb (expired e now) | None => false end, st') /\
    contents st' = remove_key k (contents st) /\ casCounter st' = casCounter st.
Proof. intros HL Hr. by eapply delete_outcome_l. Qed.

Lemma delete_outcome_witness : exists st',
  Method.delete "a" 12 demo_state = Done (true, st') /\
  contents st' = remove_key "a" (contents demo_state) /\ casCounter st' = casCounter demo_state.
Proof. apply (delete_outcome demo_limits demo_state "a" 12 demo_limits_ok demo_reach). Defined.

(** A sweep removes exactly the expired items, whatever order the map is
    iterated in, keeps the recency order of the rest, and returns how many it
    removed. *)
Theorem cleanup_outcome `{MapRange} (L : limits) (st : state) (now : Z) :
  int_limits L -> shard_reach L st ->
  exists st', cleanupExpired now st =
    Done (len (contents st) - len (live now (contents st)), st') /\
    contents st' = live now (contents st) /\ casCounter st' = casCounter st /\
    evictions (sh st') = evictions (sh st).
Proof. intros HL Hr. by eapply cleanup_outcome_l. Qed.

Lemma cleanup_outcome_witness : exists st',
  cleanupExpired 15 demo_state = Done (1, st') /\ contents st' = live 15 (contents demo_state) /\
  casCounter st' = casCounter demo_state /\ evictions (sh st') = evictions (sh demo_state).
Proof. apply (cleanup_outcome demo_limits demo_state 15 demo_limits_ok demo_reach). Defined.

(** The size computation has no overflow check: with an item overhead
    near the [int] maximum, which the configuration accepts, the size of an
    item wraps around to a negative number, passes both limit tests, and
    leaves the shard with a negative [memoryBytes]. *)
Theorem itemSize_overflow :
  exists st', Method.set "ab" "c" 0 1 (new_state (Limits 10 100 (MaxInt64 - 1))) = Done (None, st') /\
    memoryBytes (sh st') = - 2 ^ 63 + 1 /\ memoryBytes (sh st') < 0.
Proof. eexists. split; [vm_compute; reflexivity|]. split; vm_compute; reflexivity. Qed.
