(* ===== verification/ShardTyping.v ===== *)
(** * The type invariant of a shard

    What the Go type of a shard does not say but every method relies on: the
    pointers in the map and in the items are nil or lead to items of the same
    shard, the links of the recency list are inverse to each other, and every
    number is within its width.  [shard_typed] proves it of every reachable
    shard; in particular no method meets a dangling pointer. *)

From S2P Require Import Prelude Lru Strconv Shard ShardSpec ShardRefine ShardProps.

(** ** The invariant *)

(** [q] points to an item the map knows under its own key. *)
Definition registered (st : state) (q : loc) (it : storedItem) : Prop :=
  heap st !! q = Some it /\ items (sh st) !! e_key (si_data it) = Some q.

Record typed (st : state) : Prop := {
  typed_items : forall k p, items (sh st) !! k = Some p ->
    exists it, registered st p it /\ e_key (si_data it) = k;
  typed_next : forall p it, registered st p it ->
    match si_next it with
    | Some q => exists it', registered st q it' /\ si_prev it' = Some p
    | None => tail (lru (sh st)) = Some p
    end;
  typed_prev : forall p it, registered st p it ->
    match si_prev it with
    | Some q => exists it', registered st q it' /\ si_next it' = Some p
    | None => head (lru (sh st)) = Some p
    end;
  typed_head : match head (lru (sh st)) with
    | Some p => exists it, registered st p it /\ si_prev it = None
    | None => items (sh st) = ∅
    end;
  typed_tail : match tail (lru (sh st)) with
    | Some p => exists it, registered st p it /\ si_next it = None
    | None => items (sh st) = ∅
    end;
  typed_memory : 0 <= memoryBytes (sh st) <= MaxInt64;
  typed_ttl : 0 <= ttlCount (sh st) <= Z.of_nat (size (items (sh st)));
  typed_counters : 0 <= evictions (sh st) <= MaxUint64 /\ 0 <= expirations (sh st) <= MaxUint64 /\
    0 <= casCounter st <= MaxUint64;
  typed_cas : forall p it, registered st p it -> 0 <= e_cas (si_data it) <= MaxUint64
}.

(** ** Links of a doubly linked list *)

Section Links.
Context {h : gmap loc storedItem} {p q : ptr} {ps : list loc} (Hd : dll h None p ps q None).

Lemma dll_cell x : x ∈ ps -> exists it, h !! x = Some it /\
  match si_next it with
  | Some y => y ∈ ps /\ exists it', h !! y = Some it' /\ si_prev it' = Some x
  | None => q = Some x
  end /\
  match si_prev it with
  | Some y => y ∈ ps /\ exists it', h !! y = Some it' /\ si_next it' = Some x
  | None => p = Some x
  end.
Proof.
  intros Hx. apply list_elem_of_split in Hx as (l1 & l2 & E). rewrite E in *.
  apply dll_app in Hd as (j & jn & H1 & (-> & it & Hit & Hp & H2)). exists it. split; [done|]. split.
  - destruct l2 as [|y l2]; cbn [dll] in H2.
    + destruct H2 as [-> ->]. done.
    + destruct H2 as (-> & it' & Hit' & Hp' & _). split; [set_solver|eauto].
  - destruct l1 as [|y l1 _] using rev_ind.
    + destruct H1 as [-> ->]. by rewrite Hp.
    + apply dll_app in H1 as (j' & jn' & _ & (-> & it' & Hit' & _ & [Hn ->])). rewrite Hp.
      split; [set_solver|eauto].
Qed.

Lemma dll_head_cell : match p with Some x => x ∈ ps /\ exists it, h !! x = Some it /\ si_prev it = None | None => ps = [] end.
Proof.
  destruct ps as [|x l]; cbn [dll] in Hd; [by destruct Hd as [-> _]|].
  destruct Hd as (-> & it & Hit & Hp & _). split; [set_solver|eauto].
Qed.

Lemma dll_tail_cell : match q with Some x => x ∈ ps /\ exists it, h !! x = Some it /\ si_next it = None | None => ps = [] end.
Proof.
  destruct ps as [|x l _] using rev_ind; [by destruct Hd as [_ ->]|].
  apply dll_app in Hd as (j & jn & _ & (-> & it & Hit & _ & [Hn ->])). split; [set_solver|eauto].
Qed.
End Links.

(** ** Widths *)

Definition widths (cc : cache * Z) : Prop :=
  0 <= c_evictions (fst cc) <= MaxUint64 /\ 0 <= c_expirations (fst cc) <= MaxUint64 /\ 0 <= snd cc <= MaxUint64 /\
  Forall (fun e => 0 <= e_cas e <= MaxUint64) (c_entries (fst cc)).

Lemma bump_range n c : 0 <= c <= MaxUint64 -> 0 <= bump n c <= MaxUint64.
Proof. intros Hc. unfold bump. destruct (0 <? n); [apply uint64_range|done]. Qed.

Lemma widths_sublist c n es : widths (c, n) -> es `sublist_of` c_entries c -> widths (with_entries es c, n).
Proof. intros (H1 & H2 & H3 & H4) Hs. refine (conj H1 (conj H2 (conj H3 _))). by eapply Forall_sublist_of. Qed.

Lemma widths_sweep now c n : widths (c, n) -> widths (sweep now c, n).
Proof.
  intros (H1 & H2 & H3 & H4). refine (conj H1 (conj (bump_range _ _ H2) (conj H3 _))).
  eapply Forall_sublist_of; [apply live_sublist|done].
Qed.

Lemma widths_make_room L k size now c n : widths (c, n) -> widths (make_room L k size now c, n).
Proof.
  intros Hw. unfold make_room. destruct (fits _ _ _ _); [done|]. apply (widths_sweep now) in Hw.
  destruct (fits _ _ _ _); [done|]. pose proof (evict_sublist L k size (sweep now c)) as Hs.
  destruct Hw as (H1 & H2 & H3 & H4). revert Hs. unfold evict.
  destruct (evict_from _ _ _ _) as [[kept p] m]. intros Hs. cbn [fst snd c_entries] in *.
  refine (conj (bump_range _ _ H1) (conj H2 (conj H3 _))). by eapply Forall_sublist_of.
Qed.

Lemma widths_put e c n : widths (c, n) -> 0 <= e_cas e <= MaxUint64 -> widths (put e c, n).
Proof.
  intros (H1 & H2 & H3 & H4) He. refine (conj H1 (conj H2 (conj H3 _))). constructor; [done|].
  eapply Forall_sublist_of; [apply remove_key_sublist|done].
Qed.

Lemma widths_counter c n m : widths (c, n) -> 0 <= m <= MaxUint64 -> widths (c, m).
Proof. by intros (H1 & H2 & _ & H4). Qed.

Lemma widths_version e c n : widths (c, n) -> e_cas e = uint64 (n + 1) -> widths (put e c, uint64 (n + 1)).
Proof.
  intros Hw He. apply widths_put; [|rewrite He; apply uint64_range]. eapply widths_counter; [done|apply uint64_range].
Qed.

#[local] Hint Resolve widths_sublist widths_sweep widths_make_room widths_version
  remove_key_sublist drop_expired_sublist : core.

Lemma step_widths L o now cc : widths cc -> widths (snd (spec_step L o now cc)).
Proof.
  destruct cc as [c n]. intros Hw.
  destruct o as [k v ttl|k|k v ttl x|k|k d|]; cbn [spec_step];
    unfold Spec.set, Spec.get, Spec.cas, Spec.delete, Spec.incr, Spec.cleanupExpired; cbv zeta;
    repeat (case_match; simplify_eq/=); eauto; [|by apply widths_sweep].
  apply widths_put; [done|]. destruct Hw as (_ & _ & _ & Hc). rewrite Forall_forall in Hc.
  match goal with E : find_key _ _ = Some _ |- _ => apply find_key_elem in E as [E _] end. by apply Hc.
Qed.

(** ** Reachable shards *)

Section Reachable.
Context `{MapRange} (L : limits) (HL : int_limits L).

Lemma run_ops_widths tr : forall st cc,
  good L st cc -> widths cc -> Forall (fun '(o, _) => op_ok L o) tr ->
  wp (run_ops tr) st (fun _ st' => exists cc', good L st' cc' /\ widths cc').
Proof.
  induction tr as [|[o now] tr IH]; intros st cc Hg Hw HF; simpl; [wp_steps; eauto|].
  apply Forall_cons in HF as [Ho HF]. wp_steps.
  wp_use (step_good L st cc o now HL Hg Ho). intros r st' [_ Hg']. cbn beta. wp_steps.
  wp_use (IH st' _ Hg' (step_widths L o now cc Hw) HF). intros rs st'' Hg''. by wp_steps.
Qed.

Lemma reach_widths st : shard_reach L st -> exists cc, good L st cc /\ widths cc.
Proof.
  intros (tr & rs & HF & Hrun).
  assert (Hw : widths (Cache [] 0 0, 0)) by (unfold widths, MaxUint64; cbn; split_and!; lia || constructor).
  pose proof (run_ops_widths tr _ _ (init_good L 0 (proj1 HL)) Hw HF) as Hwp.
  unfold wp in Hwp. unfold new_state in Hrun. by rewrite Hrun in Hwp.
Qed.

Context {st : state} {ps : list loc} {es : entries} {ev ex n : Z} (Hc : rep_core L st ps es ev ex n).

(** The listed cells are the registered ones. *)
Lemma registered_listed p it : registered st p it -> p ∈ ps.
Proof. intros [_ Hi]. by apply (rep_items _ _ _ _ _ _ _ Hc) in Hi as [? _]. Qed.

Lemma listed_registered p it : p ∈ ps -> heap st !! p = Some it -> registered st p it.
Proof.
  intros Hp Hit. split; [done|]. apply (rep_items _ _ _ _ _ _ _ Hc). split; [done|].
  exists (si_data it). split; [by apply payloads_lookup|done].
Qed.

Lemma items_empty : ps = [] -> items (sh st) = ∅.
Proof.
  intros ->. apply map_empty. intros k. destruct (items (sh st) !! k) as [p|] eqn:E; [|done].
  apply (rep_items _ _ _ _ _ _ _ Hc) in E as [Hp _]. by apply elem_of_nil in Hp.
Qed.

Lemma listed_entry p it : p ∈ ps -> heap st !! p = Some it -> si_data it ∈ es.
Proof.
  intros Hp Hit. apply list_elem_of_lookup in Hp as [i Hi].
  destruct (Forall2_lookup_l _ _ _ _ _ (rep_data _ _ _ _ _ _ _ Hc) Hi) as (e & He & Hpe).
  apply payloads_lookup in Hit. rewrite Hit in Hpe. injection Hpe as ->. by eapply list_elem_of_lookup_2.
Qed.
End Reachable.

Lemma ttls_range es : 0 <= ttls es <= len es.
Proof. unfold ttls, len. pose proof (length_filter (fun e => hasTTL e = true) es). lia. Qed.

(** C15: Every reachable shard is well typed: the map leads from each key to an
    item with that key; the next and previous pointers of an item, and the ends
    of the recency list, are nil or lead to items of the map, next and previous
    undo each other, and nil is found exactly at the two ends; the byte count
    fits an [int64], the number of items with a deadline is between zero and
    the number of items, and every counter and CAS version fits a [uint64]. *)
Theorem shard_typed `{MapRange} (L : limits) (st : state) : int_limits L -> shard_reach L st -> typed st.
Proof.
  intros HL Hr. destruct (reach_widths L HL st Hr) as ([c n] & [(ps & Hc & [Hm Ht] & Hs) Hwf] & Hw).
  cbn [fst snd] in *. destruct (rep_lru _ _ _ _ _ _ _ Hc) as [_ Hd]. cbn [lru_get l_heap l_list] in Hd.
  assert (Hreg : forall x, x ∈ ps -> exists it, registered st x it).
  { intros x Hx. destruct (dll_cell Hd x Hx) as (it & Hit & _). exists it. by apply (listed_registered L Hc). }
  split.
  - intros k p Hi. pose proof Hi as [Hp (e & He & Hk)]%(rep_items _ _ _ _ _ _ _ Hc).
    apply payloads_lookup_inv in He as (it & Hit & <-). exists it. split; [|done]. by apply (listed_registered L Hc).
  - intros p it Hp. pose proof (registered_listed L Hc _ _ Hp) as Hin.
    destruct (dll_cell Hd p Hin) as (it' & Hit & Hn & _). destruct Hp as [Hp _]. rewrite Hp in Hit. injection Hit as <-.
    destruct (si_next it); [|done]. destruct Hn as (Hy & it' & Hit' & E). exists it'. split; [by apply (listed_registered L Hc)|done].
  - intros p it Hp. pose proof (registered_listed L Hc _ _ Hp) as Hin.
    destruct (dll_cell Hd p Hin) as (it' & Hit & _ & Hn). destruct Hp as [Hp _]. rewrite Hp in Hit. injection Hit as <-.
    destruct (si_prev it); [|done]. destruct Hn as (Hy & it' & Hit' & E). exists it'. split; [by apply (listed_registered L Hc)|done].
  - pose proof (dll_head_cell Hd) as Hh. destruct (head _); [|by apply (items_empty L Hc)].
    destruct Hh as (Hx & it & Hit & E). exists it. split; [by apply (listed_registered L Hc)|done].
  - pose proof (dll_tail_cell Hd) as Hh. destruct (tail _); [|by apply (items_empty L Hc)].
    destruct Hh as (Hx & it & Hit & E). exists it. split; [by apply (listed_registered L Hc)|done].
  - rewrite Hm. split; [by apply sumZ_nonneg, Forall_map, Hs|apply Hs].
  - rewrite Ht, (rep_size Hc). apply ttls_range.
  - destruct Hw as (H1 & H2 & H3 & _). cbn [fst snd] in *.
    by rewrite (rep_evictions _ _ _ _ _ _ _ Hc), (rep_expirations _ _ _ _ _ _ _ Hc), (rep_cas _ _ _ _ _ _ _ Hc).
  - intros p it Hp. pose proof (registered_listed L Hc _ _ Hp) as Hin. destruct Hp as [Hp _].
    destruct Hw as (_ & _ & _ & H4). rewrite Forall_forall in H4. apply H4. by eapply (listed_entry L Hc).
Qed.

Lemma shard_typed_witness : typed demo_state /\ is_Some (items (sh demo_state) !! ("b" : bytes)).
Proof.
  split; [apply (shard_typed demo_limits demo_state demo_limits_ok demo_reach)|].
  vm_compute. eexists. reflexivity.
Defined.
