(* ===== verification/Store.v ===== *)
(** * The sharded store ([src/internal/store/store.go])

    A [Store] is a slice of shards and one counter of CAS versions they share.
    Every public method hashes the key to a shard and runs the shard's method
    there; the sweeper and the statistics visit all shards in order.  The
    theorems here use a shard only through [ShardContract]. *)

From S2P Require Import Prelude Lru Strconv Shard ShardSpec ShardRefine.

(** ** Configuration *)

Record Config := MkConfig {
  MaxValueBytes : Z;
  MaxMemoryBytes : Z;
  ItemOverheadBytes : Z;
  Shards : Z
}.

Definition DefaultShards : Z := 16.

Definition DefaultConfig : Config :=
  MkConfig (1024 * 1024) (64 * 1024 * 1024) 64 DefaultShards.

Definition normalizeConfig (config : Config) : Config :=
  let defaults := DefaultConfig in
  MkConfig
    (if MaxValueBytes config <=? 0 then MaxValueBytes defaults else MaxValueBytes config)
    (if MaxMemoryBytes config <=? 0 then MaxMemoryBytes defaults else MaxMemoryBytes config)
    (if ItemOverheadBytes config <? 0 then ItemOverheadBytes defaults else ItemOverheadBytes config)
    (if Shards config <=? 0 then Shards defaults else Shards config).

(** ** State *)

(** A shard with the cells it owns. *)
Record cell := Cell { c_shard : shard; c_heap : gmap loc storedItem }.

Record Store := MkStore { shards : list cell; cas_counter : Z }.

Definition perShardMemory (config : Config) : Z :=
  let m := Z.quot (MaxMemoryBytes config) (Shards config) in if m <? 1 then 1 else m.

Definition New (config : Config) : Store :=
  let config := normalizeConfig config in
  MkStore
    (replicate (Z.to_nat (Shards config))
       (Cell (newShard (MaxValueBytes config) (ItemOverheadBytes config) (perShardMemory config)) ∅))
    0.

(** ** Routing *)

Definition fnv_offset : Z := 2166136261.
Definition fnv_prime : Z := 16777619.

Definition fnv1a (key : bytes) : Z :=
  fold_left (fun h c => uint32 (Z.lxor h (byteZ c) * fnv_prime)) key fnv_offset.

(** [None] where [h % uint32(n)] divides by zero. *)
Definition shardIndex (key : bytes) (n : Z) : option Z :=
  if uint32 n =? 0 then None else Some (fnv1a key mod uint32 n).

(** The position of the shard for [key]; an index out of range panics. *)
Definition shardFor (key : bytes) : M Store nat :=
  n ← gets (fun s => len (shards s));
  i ← must (shardIndex key n);
  mret (Z.to_nat i).

(** Run a method of the shard at position [i]. *)
Definition on_shard {A} (i : nat) (m : M state A) : M Store A := fun s =>
  match shards s !! i with
  | None => Panicked
  | Some (Cell x h) =>
      match m (State x h (cas_counter s)) with
      | Done (a, State x' h' n') => Done (a, MkStore (<[i := Cell x' h']> (shards s)) n')
      | Panicked => Panicked
      | OutOfFuel => OutOfFuel
      end
  end.

(** ** Methods

    [now] is what the shard reads from [Now] during the call. *)

Section Methods.
Context `{MapRange}.

Definition Set_ (key value : bytes) (ttl : Z) (now : Z) : M Store (option error) :=
  i ← shardFor key; on_shard i (Method.set key value ttl now).

Definition Get (key : bytes) (now : Z) : M Store (option Item) :=
  i ← shardFor key; on_shard i (Method.get key now).

Definition Delete (key : bytes) (now : Z) : M Store bool :=
  i ← shardFor key; on_shard i (Method.delete key now).

Definition Incr (key : bytes) (delta : Z) (now : Z) : M Store (Z + error) :=
  i ← shardFor key; on_shard i (Method.incr key delta now).

Definition Cas (key value : bytes) (ttl expected : Z) (now : Z) : M Store (option error) :=
  i ← shardFor key; on_shard i (Method.cas key value ttl expected now).

(** [for _, sh := range s.shards], from position [i] on, [n] shards left;
    [clock i] is what shard [i] reads from [Now]. *)
Fixpoint cleanup_loop (n i : nat) (clock : nat -> Z) (total : Z) : M Store Z :=
  match n with
  | O => mret total
  | S n' =>
      r ← on_shard i (cleanupExpired (clock i));
      cleanup_loop n' (S i) clock (total + r)
  end.

Definition CleanupExpired (clock : nat -> Z) : M Store Z :=
  n ← gets (fun s => length (shards s)); cleanup_loop n 0 clock 0.

End Methods.

(** ** Sampling

    [MemoryBytes] and [Stats] visit the shards one after another, and each
    visit holds one mutex or is one atomic load, so other goroutines use the
    store in between.  The store is the part [kv] of a larger state; [between]
    is what happens before each read. *)

Record Stats := MkStats {
  st_Items : Z;
  st_MemoryBytes : Z;
  st_MaxMemoryBytes : Z;
  st_Evictions : Z;
  st_Expirations : Z;
  st_ItemsPerShard : list Z;
  st_NumShards : Z
}.

Section Sampling.
Context {T : Type} (kv : T -> Store) (between : M T unit).

(** Read from shard [i] with the read-only method [m]. *)
Definition peek {A} (i : nat) (m : M state A) : M T A := fun s =>
  match shards (kv s) !! i with
  | None => Panicked
  | Some (Cell x h) =>
      match m (State x h (cas_counter (kv s))) with
      | Done (a, _) => Done (a, s)
      | Panicked => Panicked
      | OutOfFuel => OutOfFuel
      end
  end.

Definition sample {A} (i : nat) (m : M state A) : M T A := between ;; peek i m.

Fixpoint memory_loop (n i : nat) (total : Z) : M T Z :=
  match n with
  | O => mret total
  | S n' =>
      r ← sample i Method.memoryBytesSnapshot;
      memory_loop n' (S i) (int64 (total + r))
  end.

Definition MemoryBytes : M T Z :=
  n ← gets (fun s => length (shards (kv s))); memory_loop n 0 0.

(** What [Stats] reads of a shard under its mutex: the number of items, the
    bytes in use and the budget. *)
Definition shard_totals : M state (Z * Z * Z) :=
  gets (fun s => (Z.of_nat (size (items (sh s))), memoryBytes (sh s), maxMemoryBytes (sh s))).

Definition add_totals (out : Stats) (items memory maxMemory : Z) : Stats :=
  MkStats (st_Items out + items) (int64 (st_MemoryBytes out + memory))
    (int64 (st_MaxMemoryBytes out + maxMemory)) (st_Evictions out) (st_Expirations out)
    (st_ItemsPerShard out ++ [items]) (st_NumShards out).

Definition add_evictions (out : Stats) (n : Z) : Stats :=
  MkStats (st_Items out) (st_MemoryBytes out) (st_MaxMemoryBytes out) (uint64 (st_Evictions out + n))
    (st_Expirations out) (st_ItemsPerShard out) (st_NumShards out).

Definition add_expirations (out : Stats) (n : Z) : Stats :=
  MkStats (st_Items out) (st_MemoryBytes out) (st_MaxMemoryBytes out) (st_Evictions out)
    (uint64 (st_Expirations out + n)) (st_ItemsPerShard out) (st_NumShards out).

(** The loop of [Stats] from shard [i] on: the mutex is released before the two
    atomic counters are loaded. *)
Fixpoint stats_loop (n i : nat) (out : Stats) : M T Stats :=
  match n with
  | O => mret out
  | S n' =>
      '(items, memory, maxMemory) ← sample i shard_totals;
      evicted ← sample i (gets (fun s => evictions (sh s)));
      expired ← sample i (gets (fun s => expirations (sh s)));
      stats_loop n' (S i)
        (add_expirations (add_evictions (add_totals out items memory maxMemory) evicted) expired)
  end.

Definition StoreStats : M T Stats :=
  n ← gets (fun s => length (shards (kv s)));
  stats_loop n 0 (MkStats 0 0 0 0 0 [] (Z.of_nat n)).
End Sampling.

(** A store that nobody else uses. *)
Definition alone : M Store unit := mret tt.

(** Routing is total and stable for every accepted shard count: the hash
    picks a shard in range that depends on the key alone, and the method runs
    there.  A shard count that is a multiple of 2^32 instead divides by zero
    on the first request. *)
Theorem routing (key : bytes) (n : Z) :
  0 < n <= MaxInt64 ->
  match shardIndex key n with
  | Some i => 0 <= i < n /\ i = fnv1a key mod uint32 n
  | None => exists q, n = q * 2 ^ 32
  end.
Proof.
  intros Hn. unfold shardIndex, uint32. destruct (Z.eqb_spec (n mod 2 ^ 32) 0) as [E|E].
  - exists (n / 2 ^ 32). pose proof (Z.div_mod n (2 ^ 32)). lia.
  - pose proof (Z.mod_pos_bound n (2 ^ 32)). pose proof (Z.mod_le n (2 ^ 32)).
    pose proof (Z.mod_pos_bound (fnv1a key) (n mod 2 ^ 32)). lia.
Qed.

Lemma routing_witness : match shardIndex "user:1" 16 with
  | Some i => 0 <= i < 16 /\ i = fnv1a "user:1" mod uint32 16
  | None => exists q, 16 = q * 2 ^ 32
  end /\ shardIndex "user:1" (2 ^ 32) = None.
Proof. split; [apply (routing "user:1" 16); vm_compute; split; congruence|reflexivity]. Defined.
