(* ===== verification/StoreSpec.v ===== *)
(** * The store as one abstract map

    [store_rel] relates the sharded store to a list of abstract caches and the
    shared version counter.  Every public method, and every turn of the
    sweeper, refines the specification of the one shard it touches.  On top of
    that refinement the file proves what clients rely on across any
    interleaving of requests and sweeps: a hit returns the last value written,
    versions are unique and never come back, and the memory budget holds. *)

From S2P Require Import Prelude Lru Strconv Shard ShardSpec ShardRefine Store.

(** ** Events

    A request that reached a shard, or the sweeper's visit of one shard.  A
    history is a sequence of events with their replies: all shards are locked
    independently, so any interleaving of concurrent calls is one. *)

Inductive event :=
| EvOp (o : op) (now : Z)
| EvSweep (i : nat) (now : Z).

Definition op_key (o : op) : option bytes :=
  match o with
  | OpSet k _ _ | OpGet k | OpCas k _ _ _ | OpDelete k | OpIncr k _ => Some k
  | OpCleanup => None
  end.

Section Events.
Context `{MapRange}.

(** The public method an operation calls; the sweep has its own event. *)
Definition store_op (o : op) (now : Z) : M Store reply :=
  match o with
  | OpSet k v ttl => r ← Set_ k v ttl now; mret (RError r)
  | OpGet k => r ← Get k now; mret (RItem r)
  | OpCas k v ttl x => r ← Cas k v ttl x now; mret (RError r)
  | OpDelete k => r ← Delete k now; mret (RDeleted r)
  | OpIncr k d => r ← Incr k d now; mret (RIncr r)
  | OpCleanup => r ← CleanupExpired (fun _ => now); mret (RCount r)
  end.

Definition run_event (e : event) : M Store reply :=
  match e with
  | EvOp o now => store_op o now
  | EvSweep i now => r ← on_shard i (cleanupExpired now); mret (RCount r)
  end.

Fixpoint run_events (es : list event) : M Store (list reply) :=
  match es with
  | [] => mret []
  | e :: es' => r ← run_event e; rs ← run_events es'; mret (r :: rs)
  end.
End Events.

(** ** The abstract store *)

Record astore := AStore { a_caches : list cache; a_cas : Z }.

Definition index (k : bytes) (n : nat) : nat := Z.to_nat (fnv1a k mod Z.of_nat n).

(** What the store holds under a key. *)
Definition view (a : astore) (k : bytes) : option entry :=
  c ← a_caches a !! index k (length (a_caches a)); find_key k (c_entries c).

(** One shard's step. *)
Definition shard_step (L : limits) (i : nat) (o : op) (now : Z) (a : astore) : reply * astore :=
  match a_caches a !! i with
  | None => (RCount 0, a)
  | Some c =>
      let '(r, (c', n)) := spec_step L o now (c, a_cas a) in
      (r, AStore (<[i := c']> (a_caches a)) n)
  end.

Definition spec_event (L : limits) (e : event) (a : astore) : reply * astore :=
  match e with
  | EvOp o now =>
      match op_key o with
      | Some k => shard_step L (index k (length (a_caches a))) o now a
      | None => (RCount 0, a)
      end
  | EvSweep i now => shard_step L i OpCleanup now a
  end.

Fixpoint spec_events (L : limits) (es : list event) (a : astore) : list reply * astore :=
  match es with
  | [] => ([], a)
  | e :: es' =>
      let '(r, a') := spec_event L e a in
      let '(rs, a'') := spec_events L es' a' in (r :: rs, a'')
  end.

(** ** What sampling reports *)

Definition cache_at (i : nat) (a : astore) : cache := default (Cache [] 0 0) (a_caches a !! i).

(** What is resident in shard [i] when its totals are read.  [snap k] is the
    store after the [k]-th interruption; every shard is read three times. *)
Definition seen (snap : nat -> astore) (i : nat) : entries := c_entries (cache_at i (snap (3 * i + 1)%nat)).

(** The statistics of [N] shards after the turns for the first [n]: totals over
    the items seen in each shard, and sums of the counters as they were when
    each was loaded. *)
Definition spec_stats_upto (L : limits) (N : nat) (snap : nat -> astore) (n : nat) : Stats :=
  MkStats (sumZ (map (fun i => len (seen snap i)) (seq 0 n)))
    (sumZ (map (fun i => total (seen snap i)) (seq 0 n)))
    (Z.of_nat n * l_maxMemory L)
    (foldl (fun t i => uint64 (t + c_evictions (cache_at i (snap (3 * i + 2)%nat)))) 0 (seq 0 n))
    (foldl (fun t i => uint64 (t + c_expirations (cache_at i (snap (3 * i + 3)%nat)))) 0 (seq 0 n))
    (map (fun i => len (seen snap i)) (seq 0 n)) (Z.of_nat N).

Definition spec_stats (L : limits) (N : nat) (snap : nat -> astore) : Stats := spec_stats_upto L N snap N.

(** The store after each of a series of interruptions. *)
Fixpoint snapshots (L : limits) (others : nat -> list event) (a : astore) (k : nat) : astore :=
  match k with
  | O => a
  | S k' => snd (spec_events L (others k') (snapshots L others a k'))
  end.

(** Events the model runs: requests with a key, within the limits, and sweeps
    of existing shards. *)
Definition event_ok (L : limits) (n : nat) (e : event) : Prop :=
  match e with
  | EvOp o _ => op_ok L o /\ is_Some (op_key o)
  | EvSweep i _ => (i < n)%nat
  end.

(** ** Refinement *)

Lemma shardIndex_index k n :
  (0 < n)%nat -> Z.of_nat n < 2 ^ 32 ->
  shardIndex k (Z.of_nat n) = Some (fnv1a k mod Z.of_nat n).
Proof.
  intros H0 H1. unfold shardIndex, uint32. rewrite Z.mod_small by lia.
  destruct (Z.eqb_spec (Z.of_nat n) 0); [lia|done].
Qed.

Lemma index_lt k n : (0 < n)%nat -> (index k n < n)%nat.
Proof. intros. unfold index. pose proof (Z.mod_pos_bound (fnv1a k) (Z.of_nat n)). lia. Qed.

(** No event changes the number of shards. *)
Section Shards.
Context (L : limits).

Lemma shard_step_length i o now a :
  length (a_caches (snd (shard_step L i o now a))) = length (a_caches a).
Proof.
  unfold shard_step. destruct (a_caches a !! i); [|done].
  destruct (spec_step _ _ _ _) as [? []]. simpl. apply length_insert.
Qed.

Lemma spec_event_length e a : length (a_caches (snd (spec_event L e a))) = length (a_caches a).
Proof. destruct e as [o now|]; simpl; [destruct (op_key o); [|done]|]; apply shard_step_length. Qed.

Lemma spec_events_length es : forall a, length (a_caches (snd (spec_events L es a))) = length (a_caches a).
Proof.
  induction es as [|e es IH]; intros a; cbn [spec_events]; [done|].
  pose proof (spec_event_length e a) as E. destruct (spec_event L e a) as [r a1]. specialize (IH a1).
  destruct (spec_events L es a1). cbn [fst snd] in *. congruence.
Qed.
End Shards.

Lemma snapshots_length L others a k : length (a_caches (snapshots L others a k)) = length (a_caches a).
Proof. induction k as [|k IH]; cbn [snapshots]; [done|]. by rewrite spec_events_length. Qed.

Lemma snapshots_still L others a k : (forall j, others j = []) -> snapshots L others a k = a.
Proof. intros Hq. induction k as [|k IH]; [done|]. cbn [snapshots]. by rewrite Hq, IH. Qed.

Lemma cache_at_all {A} (f : cache -> A) a :
  map (fun i => f (cache_at i a)) (seq 0 (length (a_caches a))) = map f (a_caches a).
Proof.
  apply list_eq. intros i. rewrite !list_lookup_fmap. destruct (a_caches a !! i) as [c|] eqn:E.
  - pose proof (lookup_lt_Some _ _ _ E). rewrite lookup_seq_lt by done. simpl. unfold cache_at. by rewrite E.
  - pose proof (lookup_ge_None_1 _ _ E). by rewrite lookup_seq_ge.
Qed.

Section Refinement.
Context `{MapRange} (L : limits) (R : state -> cache * Z -> Prop) `{!ShardContract L step R}.

Definition store_rel (s : Store) (a : astore) : Prop :=
  Forall2 (fun x c => R (State (c_shard x) (c_heap x) (cas_counter s)) (c, a_cas a))
    (shards s) (a_caches a) /\
  cas_counter s = a_cas a /\ (0 < length (shards s))%nat /\ len (shards s) < 2 ^ 32.

Lemma store_rel_length s a : store_rel s a -> length (shards s) = length (a_caches a).
Proof. intros [HF _]. by eapply Forall2_length. Qed.

(** Tagging the reply inside or outside the shard is the same. *)
Lemma on_shard_bind {A} i (m : M state A) (f : A -> reply) s Q :
  wp (on_shard i (r ← m; mret (f r))) s Q ->
  wp (on_shard i m) s (fun r s' => wp (mret (f r)) s' Q).
Proof.
  unfold wp, mbind, M_bind, on_shard. destruct (shards s !! i) as [[x h]|]; [|done].
  by destruct (m _) as [[? []]| |].
Qed.

(** Running one shard's operation. *)
Lemma on_shard_ok s a i o now :
  store_rel s a -> op_ok L o -> (i < length (shards s))%nat ->
  wp (on_shard i (step o now)) s (fun r s' =>
    r = fst (shard_step L i o now a) /\ store_rel s' (snd (shard_step L i o now a))).
Proof.
  intros (HF & Hn & H0 & H1) Ho Hi. apply lookup_lt_is_Some in Hi as [[x h] Hx].
  destruct (Forall2_lookup_l _ _ _ _ _ HF Hx) as (c & Hc & HR). simpl in HR.
  pose proof (contract_step _ _ o now HR Ho) as Hstep.
  apply wp_Done in Hstep as (r & [x' h' n'] & Hrun & -> & HR').
  unfold wp, on_shard, shard_step. rewrite Hx, Hrun, Hc.
  destruct (spec_step L o now (c, a_cas a)) as [r0 [c' n0]]. simpl in *. split; [done|].
  apply contract_cas in HR' as Hn'. simpl in Hn'. subst n0.
  split_and!; simpl; [|done|by rewrite length_insert|unfold len; by rewrite length_insert].
  apply Forall2_insert; [|exact HR'].
  eapply Forall2_impl; [exact HF|]. simpl. intros [x2 h2] c2. simpl. rewrite Hn.
  apply contract_counter.
Qed.

Lemma shardFor_ok s a k :
  store_rel s a ->
  wp (shardFor k) s (fun i s' => i = index k (length (a_caches a)) /\ s' = s).
Proof.
  intros Hrel. pose proof (store_rel_length _ _ Hrel) as Hl. destruct Hrel as (_ & _ & H0 & H1).
  unfold shardFor. wp_steps. eapply wp_must; [by apply shardIndex_index|].
  wp_steps. unfold index. by rewrite Hl.
Qed.

(** Any event. *)
Lemma run_event_ok s a e :
  store_rel s a -> event_ok L (length (shards s)) e ->
  wp (run_event e) s (fun r s' =>
    r = fst (spec_event L e a) /\ store_rel s' (snd (spec_event L e a))).
Proof.
  intros Hrel He. pose proof (store_rel_length _ _ Hrel) as Hl.
  destruct e as [o now|i now].
  2:{ apply wp_bind, (on_shard_bind _ _ RCount), (on_shard_ok _ _ _ OpCleanup); done. }
  destruct He as [Ho [k Hk]]. simpl. rewrite Hk.
  assert (Hi : (index k (length (a_caches a)) < length (shards s))%nat).
  { rewrite Hl. apply index_lt. destruct Hrel as (_ & _ & ? & _). lia. }
  destruct o; simpl in Hk; simplify_eq; simpl store_op; apply wp_bind, wp_bind;
    (wp_use (shardFor_ok s a k Hrel); intros i s' [-> ->]; cbn beta);
    [apply (on_shard_bind _ _ RError), (on_shard_ok _ _ _ (OpSet _ _ _))
    |apply (on_shard_bind _ _ RItem), (on_shard_ok _ _ _ (OpGet _))
    |apply (on_shard_bind _ _ RError), (on_shard_ok _ _ _ (OpCas _ _ _ _))
    |apply (on_shard_bind _ _ RDeleted), (on_shard_ok _ _ _ (OpDelete _))
    |apply (on_shard_bind _ _ RIncr), (on_shard_ok _ _ _ (OpIncr _ _))]; done.
Qed.

(** Any sequence of admissible events from a related state. *)
Lemma run_events_ok es : forall s a,
  store_rel s a -> Forall (event_ok L (length (shards s))) es ->
  wp (run_events es) s (fun rs s' =>
    rs = fst (spec_events L es a) /\ store_rel s' (snd (spec_events L es a))).
Proof.
  induction es as [|e es IH]; intros s a Hrel HF; cbn [run_events spec_events]; wp_steps; [done|].
  apply Forall_cons in HF as [He HF]. wp_use (run_event_ok s a e Hrel He).
  intros r s1 [-> R1]. cbn beta. wp_steps.
  assert (Hlen : length (shards s1) = length (shards s)).
  { rewrite (store_rel_length _ _ R1), (store_rel_length _ _ Hrel). apply spec_event_length. }
  wp_use (IH s1 _ R1); [by rewrite Hlen|]. intros rs s2 [-> R2]. wp_steps.
  destruct (spec_event L e a) as [r a1]. cbn [fst snd] in *. by destruct (spec_events L es a1).
Qed.

End Refinement.

(** ** Histories *)

Definition ev_written (e : event) (r : reply) : option (bytes * bytes) :=
  match e with EvOp o _ => written o r | EvSweep _ _ => None end.

Definition ev_deleted (e : event) (r : reply) : option bytes :=
  match e with EvOp o _ => deleted o r | EvSweep _ _ => None end.

(** The value a client last wrote under [k] and has not deleted since. *)
Definition last_value (k : bytes) (h : list (event * reply)) : option bytes :=
  fold_left (fun m '(e, r) =>
    match ev_written e r with
    | Some (k', v) => if decide (k' = k) then Some v else m
    | None => if decide (ev_deleted e r = Some k) then None else m
    end) h None.

(** [k] was neither written nor deleted. *)
Definition untouched (k : bytes) (h : list (event * reply)) : Prop :=
  Forall (fun '(e, r) => (forall v, ev_written e r <> Some (k, v)) /\ ev_deleted e r <> Some k) h.

Definition awf (L : limits) (a : astore) : Prop :=
  Forall (wf L) (a_caches a) /\ (0 < length (a_caches a))%nat.

(** How one event changes what the store shows. *)
Definition view_effect (e : event) (r : reply) (a a' : astore) : Prop :=
  (forall k, ev_deleted e r = Some k -> view a' k = None) /\
  match ev_written e r with
  | Some (k, v) =>
      a_cas a' = uint64 (a_cas a + 1) /\
      (exists x, view a' k = Some x /\ e_value x = v /\ e_cas x = a_cas a') /\
      forall k' x, k' <> k -> view a' k' = Some x -> view a k' = Some x
  | None => a_cas a' = a_cas a /\ forall k x, view a' k = Some x -> view a k = Some x
  end.

Section Effects.
Context (L : limits) (HL : wf_limits L).

Lemma shard_step_awf i o now a : awf L a -> awf L (snd (shard_step L i o now a)).
Proof.
  intros [HF H0]. split; [|by rewrite shard_step_length]. unfold shard_step.
  destruct (a_caches a !! i) as [c|] eqn:Hc; [|done].
  destruct (spec_step L o now (c, a_cas a)) as [r [c' n']] eqn:E. simpl.
  apply Forall_insert; [done|]. eapply spec_step_wf; [done| |exact E].
  rewrite Forall_lookup in HF. by eapply HF.
Qed.

Lemma spec_event_awf e a : awf L a -> awf L (snd (spec_event L e a)).
Proof. intros. destruct e as [o now|]; simpl; [destruct (op_key o); [|done]|]; by apply shard_step_awf. Qed.

(** The effect of a shard's step, seen through the routing. *)
Lemma view_shard_step i o now a k :
  view (snd (shard_step L i o now a)) k =
  match a_caches a !! i with
  | Some c => if decide (index k (length (a_caches a)) = i)
              then find_key k (c_entries (fst (snd (spec_step L o now (c, a_cas a)))))
              else view a k
  | None => view a k
  end.
Proof.
  unfold view at 1. rewrite shard_step_length. unfold shard_step.
  destruct (a_caches a !! i) as [c|] eqn:Hc; [|done].
  destruct (spec_step L o now (c, a_cas a)) as [r [c' n']]. simpl.
  case_decide as Hi.
  - subst i. rewrite list_lookup_insert_eq by (by eapply lookup_lt_Some). done.
  - rewrite list_lookup_insert_ne by done. done.
Qed.

Lemma view_at a k c : a_caches a !! index k (length (a_caches a)) = Some c ->
  view a k = find_key k (c_entries c).
Proof. intros H. unfold view. by rewrite H. Qed.

Lemma shard_step_effect i o now a :
  awf L a -> (forall k, op_key o = Some k -> i = index k (length (a_caches a))) ->
  view_effect (EvOp o now) (fst (shard_step L i o now a)) a (snd (shard_step L i o now a)) \/
  (a_caches a !! i = None /\ shard_step L i o now a = (RCount 0, a)).
Proof.
  intros [HF H0] Hkey. destruct (a_caches a !! i) as [c|] eqn:Hc.
  2:{ right. split; [done|]. unfold shard_step. by rewrite Hc. }
  left. pose proof (view_shard_step i o now a) as Hview. rewrite Hc in Hview.
  unfold view_effect. simpl ev_written. simpl ev_deleted. unfold shard_step in *. rewrite Hc in *.
  destruct (spec_step L o now (c, a_cas a)) as [r [c' n']] eqn:E. simpl in *.
  assert (Hwf : wf L c) by (rewrite Forall_lookup in HF; by eapply HF).
  pose proof (spec_step_effect _ _ _ _ _ _ _ _ Hwf E) as [Hdel Heff].
  assert (Hat : forall k, index k (length (a_caches a)) = i -> view a k = find_key k (c_entries c)).
  { intros k <-. by apply view_at. }
  split.
  - intros k Hk. rewrite Hview. rewrite decide_True; [by apply Hdel|].
    symmetry. apply Hkey. destruct o, r as [| |[]| |]; simpl in *; congruence.
  - destruct (written o r) as [[k v]|] eqn:Hw.
    + destruct Heff as [-> [(x & Hx & Hv & Hn) Hoth]].
      assert (Hi : index k (length (a_caches a)) = i).
      { symmetry. apply Hkey. destruct o, r as [[]| | |[]|]; simpl in Hw; simplify_eq; done. }
      split; [done|]. split.
      * exists x. rewrite Hview, decide_True by done. done.
      * intros k' y Hne. rewrite Hview. case_decide as Hi'; [|done].
        rewrite (Hat k' Hi'). by apply Hoth.
    + destruct Heff as [-> Hless]. split; [done|]. intros k x. rewrite Hview.
      case_decide as Hi; [|done]. rewrite (Hat k Hi). apply Hless.
Qed.

Lemma spec_event_effect e a :
  awf L a -> view_effect e (fst (spec_event L e a)) a (snd (spec_event L e a)).
Proof.
  intros Ha. assert (Hid : forall e, view_effect e (RCount 0) a a).
  { intros [o ?|]; unfold view_effect; simpl; [destruct o; simpl|]; auto; split; done. }
  destruct e as [o now|i now]; simpl.
  - destruct (op_key o) as [k|] eqn:Hk; [|apply Hid].
    destruct (shard_step_effect (index k (length (a_caches a))) o now a Ha) as [?|[_ ->]]; [|done|apply Hid].
    intros k' ?. congruence.
  - destruct (shard_step_effect i OpCleanup now a Ha) as [[Hd Hw]|[_ ->]]; [done| |apply Hid].
    by split.
Qed.
End Effects.

(** ** Invariants along histories *)

Definition hist (L : limits) (es : list event) (a : astore) : list (event * reply) :=
  zip es (fst (spec_events L es a)).

Lemma spec_events_cons L e es a :
  spec_events L (e :: es) a =
  (fst (spec_event L e a) :: fst (spec_events L es (snd (spec_event L e a))),
   snd (spec_events L es (snd (spec_event L e a)))).
Proof.
  simpl. destruct (spec_event L e a) as [r a']. simpl.
  by destruct (spec_events L es a') as [rs a''].
Qed.

Lemma hist_cons L e es a :
  hist L (e :: es) a = (e, fst (spec_event L e a)) :: hist L es (snd (spec_event L e a)).
Proof. unfold hist. by rewrite spec_events_cons. Qed.

(** Everything shown is the last value written. *)
Definition shows_last (h : list (event * reply)) (a : astore) : Prop :=
  forall k x, view a k = Some x -> last_value k h = Some (e_value x).

(** Versions are positive, issued, and no two keys share one. *)
Definition versions_ok (a : astore) : Prop :=
  0 <= a_cas a /\
  (forall k x, view a k = Some x -> 1 <= e_cas x <= a_cas a) /\
  (forall k k' x y, view a k = Some x -> view a k' = Some y -> e_cas x = e_cas y -> k = k').

(** Since [k] showed [x0], it is untouched, or whatever it shows is newer. *)
Definition same_or_newer (k : bytes) (x0 : entry) (h : list (event * reply)) (a : astore) : Prop :=
  e_cas x0 <= a_cas a /\
  ((untouched k h /\ forall x, view a k = Some x -> x = x0) \/
   (forall x, view a k = Some x -> e_cas x0 < e_cas x)).

Section Invariants.
Context (L : limits) (HL : wf_limits L).

Lemma spec_events_awf es a : awf L a -> awf L (snd (spec_events L es a)).
Proof.
  revert a. induction es as [|e es IH]; intros a Ha; [done|].
  rewrite spec_events_cons. simpl. by apply IH, spec_event_awf.
Qed.

Lemma snapshots_awf others a k : awf L a -> awf L (snapshots L others a k).
Proof. intros Ha. induction k as [|k IH]; [done|]. by apply spec_events_awf. Qed.

(** Every shard is within its budget. *)
Lemma awf_total a i : awf L a -> 0 <= total (c_entries (cache_at i a)) <= l_maxMemory L.
Proof.
  intros [HF _]. unfold cache_at. destruct (a_caches a !! i) as [c|] eqn:Hc; cbn.
  - pose proof (Forall_lookup_1 _ _ _ _ HF Hc) as Hw. split; [|apply Hw].
    apply sumZ_nonneg, Forall_map. by apply (wf_nonneg L _ HL Hw).
  - unfold wf_limits in HL. unfold sumZ. cbn. lia.
Qed.

Lemma last_value_snoc k h e r :
  last_value k (h ++ [(e, r)]) =
  match ev_written e r with
  | Some (k', v) => if decide (k' = k) then Some v else last_value k h
  | None => if decide (ev_deleted e r = Some k) then None else last_value k h
  end.
Proof. unfold last_value. by rewrite fold_left_app. Qed.

Lemma shows_last_event h e a :
  awf L a -> shows_last h a ->
  shows_last (h ++ [(e, fst (spec_event L e a))]) (snd (spec_event L e a)).
Proof.
  intros Ha Hh k x Hx. rewrite last_value_snoc.
  destruct (spec_event_effect L e a Ha) as [Hdel Hw].
  destruct (ev_written e _) as [[k' v]|].
  - destruct Hw as (_ & (y & Hy & Hv & _) & Hoth). case_decide as Hk; [congruence|].
    apply Hh, Hoth; [congruence|done].
  - case_decide as Hk; [apply Hdel in Hk; congruence|]. by apply Hh, Hw.
Qed.

Lemma shows_last_events es h a :
  awf L a -> shows_last h a ->
  shows_last (h ++ hist L es a) (snd (spec_events L es a)).
Proof.
  revert h a. induction es as [|e es IH]; intros h a Ha Hh.
  - unfold hist. simpl. by rewrite app_nil_r.
  - rewrite hist_cons, spec_events_cons. simpl.
    change (h ++ ?x :: ?t) with (h ++ [x] ++ t). rewrite app_assoc.
    apply IH; [by apply spec_event_awf|by apply shows_last_event].
Qed.

(** The counter moves by at most one per event. *)
Lemma spec_event_cas e a :
  awf L a -> 0 <= a_cas a -> a_cas a + 1 <= MaxUint64 ->
  a_cas a <= a_cas (snd (spec_event L e a)) <= a_cas a + 1 /\
  (ev_written e (fst (spec_event L e a)) <> None -> a_cas (snd (spec_event L e a)) = a_cas a + 1).
Proof.
  intros Ha H0 H1. destruct (spec_event_effect L e a Ha) as [_ Hw].
  destruct (ev_written e _) as [[k v]|].
  - destruct Hw as [-> _]. rewrite uint64_id by lia. lia.
  - destruct Hw as [-> _]. split; [lia|done].
Qed.

Lemma versions_event e a :
  awf L a -> a_cas a + 1 <= MaxUint64 -> versions_ok a -> versions_ok (snd (spec_event L e a)).
Proof.
  intros Ha H1 (H0 & Hr & Hu). pose proof (spec_event_cas e a Ha H0 H1) as [Hc Hc'].
  destruct (spec_event_effect L e a Ha) as [_ Hw].
  destruct (ev_written e _) as [[k v]|]; (split; [lia|]).
  - rewrite Hc' in * by done. destruct Hw as (_ & (y & Hy & _ & Hn) & Hoth).
    assert (Hcase : forall k' x, view (snd (spec_event L e a)) k' = Some x ->
      (k' = k /\ e_cas x = a_cas a + 1) \/ (view a k' = Some x /\ 1 <= e_cas x <= a_cas a)).
    { intros k' x Hx. destruct (decide (k' = k)) as [->|Hne].
      - left. split; [done|]. congruence.
      - right. apply Hoth in Hx; [|done]. eauto. }
    split.
    + intros k' x [[_ ->]|[_ ?]]%Hcase; lia.
    + intros k1 k2 x1 x2 [[-> E1]|[V1 E1]]%Hcase [[-> E2]|[V2 E2]]%Hcase Heq; try lia; eauto.
  - destruct Hw as [-> Hless]. split; intros; eauto.
Qed.

Lemma same_or_newer_event k x0 h e a :
  awf L a -> a_cas a + 1 <= MaxUint64 -> 0 <= a_cas a -> same_or_newer k x0 h a ->
  same_or_newer k x0 (h ++ [(e, fst (spec_event L e a))]) (snd (spec_event L e a)).
Proof.
  intros Ha H1 H0 [Hle Hinv]. pose proof (spec_event_cas e a Ha H0 H1) as [Hc Hc'].
  split; [lia|]. destruct (spec_event_effect L e a Ha) as [Hdel Hw].
  destruct (ev_written e _) as [[k' v]|] eqn:E.
  - rewrite Hc' in * by done. destruct Hw as (_ & (y & Hy & _ & Hn) & Hoth).
    destruct (decide (k' = k)) as [->|Hne].
    + right. intros x Hx. assert (x = y) as -> by congruence. lia.
    + destruct Hinv as [[Hu Hs]|Hs]; [left|right; intros x Hx; by apply Hs, Hoth].
      split; [|intros x Hx; by apply Hs, Hoth].
      apply Forall_app. split; [done|]. apply Forall_singleton. rewrite E.
      split; [congruence|]. destruct e as [o ?|]; simpl in *; [|done].
      destruct o, (fst _) as [| |[]| |]; simpl in *; congruence.
  - destruct Hw as [_ Hless]. destruct (decide (ev_deleted e (fst (spec_event L e a)) = Some k)) as [Hd|Hd].
    + right. intros x Hx. rewrite (Hdel k Hd) in Hx. done.
    + destruct Hinv as [[Hu Hs]|Hs]; [left|right; eauto]. split; [|eauto].
      apply Forall_app. split; [done|]. apply Forall_singleton. rewrite E. done.
Qed.

(** All three invariants over a whole history; [N] events issue at most [N] versions. *)
Lemma versions_events es a :
  awf L a -> a_cas a + len es <= MaxUint64 -> versions_ok a ->
  versions_ok (snd (spec_events L es a)) /\ a_cas (snd (spec_events L es a)) <= a_cas a + len es.
Proof.
  revert a. induction es as [|e es IH]; intros a Ha H1 Hv; [simpl; split; [done|]; unfold len; simpl; lia|].
  rewrite len_cons in *. pose proof (len_nonneg es). destruct Hv as [H0 Hv].
  pose proof (spec_event_cas e a Ha H0 ltac:(lia)) as [Hc _].
  rewrite spec_events_cons. simpl.
  destruct (IH (snd (spec_event L e a))) as [IH1 IH2].
  - by apply spec_event_awf.
  - lia.
  - apply versions_event; [done|lia|by split].
  - split; [done|]. lia.
Qed.

Lemma same_or_newer_events k x0 es h a :
  awf L a -> a_cas a + len es <= MaxUint64 -> 0 <= a_cas a -> same_or_newer k x0 h a ->
  same_or_newer k x0 (h ++ hist L es a) (snd (spec_events L es a)).
Proof.
  revert h a. induction es as [|e es IH]; intros h a Ha H1 H0 Hs.
  - unfold hist. simpl. by rewrite app_nil_r.
  - rewrite len_cons in H1. pose proof (len_nonneg es).
    pose proof (spec_event_cas e a Ha H0 ltac:(lia)) as [Hc _].
    rewrite hist_cons, spec_events_cons. simpl.
    change (h ++ ?x :: ?t) with (h ++ [x] ++ t). rewrite app_assoc.
    apply IH; [by apply spec_event_awf|lia|lia|apply same_or_newer_event; [done|lia|done|done]].
Qed.
End Invariants.
