(* ===== verification/StoreProps.v ===== *)
(** * What clients of the store rely on

    Theorems about the public methods of [store.go] on every store that
    [New] and any sequence of requests and sweeps builds.  Each is stated on
    the concrete runs; the proofs go through the refinement of [StoreSpec]. *)

From S2P Require Import Prelude Lru Strconv Shard ShardSpec ShardRefine ShardProps Store StoreSpec.

(** ** Reachable stores *)

Definition limits_of (config : Config) : limits :=
  let nc := normalizeConfig config in
  Limits (MaxValueBytes nc) (perShardMemory nc) (ItemOverheadBytes nc).

Definition num_shards (config : Config) : nat := Z.to_nat (Shards (normalizeConfig config)).

(** Fewer than 2^32 shards, and budgets within half the [int] range. *)
Definition config_ok (config : Config) : Prop :=
  Shards (normalizeConfig config) < 2 ^ 32 /\ 2 * MaxMemoryBytes (normalizeConfig config) <= MaxInt64.

(** [s] is what the events [es] make of a new store, with the replies [rs]. *)
Definition store_reach `{MapRange} (config : Config) (es : list event) (rs : list reply) (s : Store) : Prop :=
  Forall (event_ok (limits_of config) (num_shards config)) es /\
  run_events es (New config) = Done (rs, s).

(** The empty abstract store. *)
Definition anew (n : nat) : astore := AStore (replicate n (Cache [] 0 0)) 0.

Lemma normalize_bounds config :
  let nc := normalizeConfig config in
  0 < MaxValueBytes nc /\ 0 < MaxMemoryBytes nc /\ 0 <= ItemOverheadBytes nc /\ 0 < Shards nc.
Proof.
  destruct config as [v m o n]. cbv [normalizeConfig DefaultConfig DefaultShards MaxValueBytes MaxMemoryBytes
    ItemOverheadBytes Shards]. split_and!; zcase; lia.
Qed.

Lemma perShardMemory_bounds config :
  0 < MaxMemoryBytes config -> 0 < Shards config ->
  1 <= perShardMemory config <= MaxMemoryBytes config /\
  Shards config * perShardMemory config <= Z.max (MaxMemoryBytes config) (Shards config).
Proof.
  intros Hm Hs. unfold perShardMemory. cbv zeta.
  rewrite Z.quot_div_nonneg by lia.
  pose proof (Z.div_pos (MaxMemoryBytes config) (Shards config)).
  pose proof (Z.mul_div_le (MaxMemoryBytes config) (Shards config) ltac:(lia)).
  pose proof (Z.div_le_upper_bound (MaxMemoryBytes config) (Shards config) (MaxMemoryBytes config) ltac:(lia) ltac:(nia)).
  zcase; lia.
Qed.

Lemma limits_of_ok config : config_ok config -> int_limits (limits_of config).
Proof.
  intros [_ Hm]. pose proof (normalize_bounds config) as (H1 & H2 & H3 & H4).
  pose proof (perShardMemory_bounds _ H2 H4) as [Hp _].
  unfold int_limits, wf_limits, limits_of. cbn [l_maxValue l_maxMemory l_overhead]. lia.
Qed.

Section Reach.
Context `{MapRange} (config : Config) (Hok : config_ok config).

Abbreviation L := (limits_of config).
Abbreviation rel := (store_rel (good L)).

Let HL : int_limits L := limits_of_ok config Hok.
Local Instance contract : ShardContract L step (good L) := shard_contract L HL.

Lemma new_rel : rel (New config) (anew (num_shards config)).
Proof.
  pose proof (normalize_bounds config) as (_ & _ & _ & Hs). pose proof (proj1 Hok) as Hn.
  unfold store_rel, New, anew, num_shards. cbn [shards a_caches cas_counter a_cas].
  unfold len. rewrite length_replicate. split_and!; [|done|lia|lia].
  apply Forall2_replicate. apply (contract_init (L := L)).
Qed.

Lemma anew_awf : awf L (anew (num_shards config)).
Proof.
  pose proof (store_rel_length _ _ _ new_rel) as Hl. destruct new_rel as (_ & _ & H0 & _).
  split; [|lia]. apply Forall_replicate. apply (contract_wf _ _ (contract_init 0)).
Qed.

Lemma events_ok es s a :
  rel s a -> Forall (event_ok L (length (shards s))) es ->
  wp (run_events es) s (fun rs s' =>
    rs = fst (spec_events L es a) /\ rel s' (snd (spec_events L es a))).
Proof. apply run_events_ok, contract. Qed.

Lemma reach_rel es rs s :
  store_reach config es rs s ->
  rs = fst (spec_events L es (anew (num_shards config))) /\
  rel s (snd (spec_events L es (anew (num_shards config)))) /\
  awf L (snd (spec_events L es (anew (num_shards config)))).
Proof.
  intros [HF Hrun]. pose proof (store_rel_length _ _ _ new_rel) as Hl.
  unfold anew in Hl. cbn [a_caches] in Hl. rewrite length_replicate in Hl.
  pose proof (events_ok es _ _ new_rel ltac:(by rewrite Hl)) as Hwp.
  unfold wp in Hwp. rewrite Hrun in Hwp. destruct Hwp as [-> Hr].
  split_and!; [done..|]. apply spec_events_awf; [apply HL|apply anew_awf].
Qed.

Lemma run_event_rel s a e r s' :
  rel s a -> event_ok L (length (shards s)) e -> run_event e s = Done (r, s') ->
  r = fst (spec_event L e a) /\ rel s' (snd (spec_event L e a)).
Proof.
  intros Hrel He Hrun. pose proof (run_event_ok L (good L) s a e Hrel He) as Hwp.
  unfold wp in Hwp. by rewrite Hrun in Hwp.
Qed.

Lemma reach_shards es rs s : store_reach config es rs s -> length (shards s) = num_shards config.
Proof.
  intros Hr. pose proof (reach_rel _ _ _ Hr) as (_ & R & _). rewrite (store_rel_length _ _ _ R).
  clear. generalize (eq_refl (length (a_caches (anew (num_shards config))))).
  generalize (anew (num_shards config)) at 1 3. unfold anew. cbn [a_caches]. rewrite length_replicate.
  induction es as [|e es IH]; intros a Ha; [done|]. rewrite spec_events_cons. apply IH.
  by rewrite spec_event_length.
Qed.
End Reach.

(** ** Calls as events *)

Lemma tag_reply {A} (m : M Store A) (f : A -> reply) s r s' :
  m s = Done (r, s') -> (x ← m; mret (f x)) s = Done (f r, s').
Proof. intros H. unfold mbind, M_bind. by rewrite H. Qed.

Section Abstract.
Context (L : limits) (HL : wf_limits L).

Lemma awf_cache a k : awf L a -> exists c, a_caches a !! index k (length (a_caches a)) = Some c.
Proof. intros [_ H0]. apply lookup_lt_is_Some. by apply index_lt. Qed.

Lemma spec_get a k now :
  awf L a ->
  fst (spec_event L (EvOp (OpGet k) now) a) =
  RItem (e ← view a k; if expired e now then None else Some (MkItem (e_value e) (e_cas e))).
Proof.
  intros Ha. destruct (awf_cache a k Ha) as [c Hc]. unfold view, spec_event, shard_step.
  simpl. rewrite Hc. simpl. destruct (find_key k (c_entries c)) as [e|]; simpl; [|done].
  by destruct (expired e now).
Qed.

Lemma spec_cas_written a k v ttl x now :
  awf L a -> fst (spec_event L (EvOp (OpCas k v ttl x) now) a) = RError None ->
  exists e, view a k = Some e /\ e_cas e = x /\ expired e now = false.
Proof.
  intros Ha. destruct (awf_cache a k Ha) as [c Hc]. unfold view, spec_event, shard_step.
  simpl. rewrite Hc. simpl. destruct (l_maxValue L <? len v); [done|].
  destruct (find_key k (c_entries c)) as [e|]; simpl; [|done].
  destruct (expired e now) eqn:Hx; [done|]. destruct (Z.eqb_spec (e_cas e) x); [|done].
  intros _. by exists e.
Qed.

(** A successful [set] shows its value, deadline and version. *)
Lemma spec_set_written a k v ttl now :
  awf L a -> fst (spec_event L (EvOp (OpSet k v ttl) now) a) = RError None ->
  let a' := snd (spec_event L (EvOp (OpSet k v ttl) now) a) in
  exists size, view a' k = Some (Entry k v (expiresAt now ttl) size (a_cas a')).
Proof.
  intros Ha. destruct (awf_cache a k Ha) as [c Hc]. simpl. rewrite view_shard_step, Hc.
  rewrite decide_True by done. unfold shard_step. rewrite Hc. simpl.
  destruct (l_maxValue L <? len v); [done|]. destruct (l_maxMemory L <? _); [done|]. simpl.
  intros _. eexists. unfold find_key. simpl. by rewrite bool_decide_eq_true_2.
Qed.

Lemma shard_step_cleanup a i c now :
  a_caches a !! i = Some c ->
  shard_step L i OpCleanup now a =
  (RCount (len (c_entries c) - len (live now (c_entries c))),
   AStore (<[i := sweep now c]> (a_caches a)) (a_cas a)).
Proof. intros Hc. unfold shard_step. by rewrite Hc. Qed.

Lemma versions_new n : versions_ok (anew n).
Proof.
  assert (Hv : forall k x, view (anew n) k = Some x -> False).
  { intros k x. unfold view, anew. simpl. rewrite length_replicate.
    destruct (replicate n _ !! _) as [c|] eqn:E; [|done].
    by apply lookup_replicate in E as [-> _]. }
  split_and!; [done|..]; intros; exfalso; eauto.
Qed.

Lemma shows_last_new n : shows_last [] (anew n).
Proof.
  intros k x. unfold view, anew. simpl. rewrite length_replicate.
  destruct (replicate n _ !! _) as [c|] eqn:E; [|done].
  by apply lookup_replicate in E as [-> _].
Qed.
End Abstract.

(** [Get] answers from the view. *)
Lemma get_view `{MapRange} config s a k now :
  config_ok config -> store_rel (good (limits_of config)) s a -> awf (limits_of config) a ->
  exists s', Get k now s =
    Done (e ← view a k; if expired e now then None else Some (MkItem (e_value e) (e_cas e)), s').
Proof.
  intros Hok Hrel Ha. pose proof (shard_contract _ (limits_of_ok config Hok)) as HC.
  destruct (wp_Done _ _ _ (run_event_ok _ _ _ _ (EvOp (OpGet k) now) Hrel ltac:(simpl; eauto)))
    as (r & s' & Hrun & -> & _).
  rewrite (spec_get _ _ _ _ Ha) in Hrun. exists s'. cbn [run_event store_op] in Hrun.
  unfold mbind at 1, M_bind at 1 in Hrun. destruct (Get k now s) as [[r s2]| |]; [|done..].
  by injection Hrun as -> ->.
Qed.

(** A hit, seen in the abstract store. *)
Lemma get_hit `{MapRange} config es rs s k now it s' :
  config_ok config -> store_reach config es rs s -> Get k now s = Done (Some it, s') ->
  let a := snd (spec_events (limits_of config) es (anew (num_shards config))) in
  exists e, view a k = Some e /\ Value it = e_value e /\ CAS it = e_cas e /\
    store_rel (good (limits_of config)) s' (snd (spec_event (limits_of config) (EvOp (OpGet k) now) a)).
Proof.
  intros Hok Hr Hget a. destruct (reach_rel config Hok _ _ _ Hr) as (-> & Hrel & Ha).
  pose proof (run_event_rel config Hok _ _ (EvOp (OpGet k) now) _ _ Hrel ltac:(simpl; eauto)
    (tag_reply _ RItem _ _ _ Hget)) as [Heq Hrel1].
  rewrite (spec_get _ _ _ _ Ha) in Heq. injection Heq as Heq.
  unfold a. destruct (view _ k) as [e|]; simpl in Heq; [|done].
  destruct (expired e now); simplify_eq. by exists e.
Qed.

(** ** Totals over the shards *)

(** The entries resident in each shard, in shard order. *)
Definition resident (s : Store) : list entries :=
  map (fun x => contents (State (c_shard x) (c_heap x) (cas_counter s))) (shards s).

Lemma rel_resident L s a :
  int_limits L -> store_rel (good L) s a -> resident s = map c_entries (a_caches a).
Proof.
  intros HL [HF [Hn _]]. unfold resident. revert HF. generalize (a_caches a) as cs.
  rewrite <- Hn. induction (shards s) as [|x xs IH]; intros cs HF.
  - by apply Forall2_nil_inv_l in HF as ->.
  - apply Forall2_cons_inv_l in HF as (c & cs' & Hg & HF & ->). simpl. rewrite (IH _ HF). f_equal.
    pose proof (good_cache _ _ _ Hg) as Heq. by injection Heq as ->.
Qed.

(** ** Sampling a store in use *)

Lemma sum_seq_bounds (f : nat -> Z) (b : Z) n : (forall i, (i < n)%nat -> 0 <= f i <= b) ->
  0 <= sumZ (map f (seq 0 n)) <= Z.of_nat n * b.
Proof.
  intros Hb. assert (Hall : Forall (fun i => 0 <= f i <= b) (seq 0 n)).
  { apply Forall_seq. intros j Hj. apply Hb. lia. }
  rewrite <- (length_seq n 0) at 3. induction Hall as [|i l Hi _ IH]; [done|]. cbn [map length].
  change (sumZ (?z :: ?y)) with (z + sumZ y). lia.
Qed.

Section Sampling.
Context (L : limits) (HL : int_limits L) (N : nat) (Hbudget : Z.of_nat N * l_maxMemory L <= MaxInt64).
Context {T : Type} (kv : T -> Store) (between : M T unit) (snap : nat -> astore) (at_ : nat -> T -> Prop).
(* [at_ k t]: the [k]-th interruption has just happened. *)
Context (Hat : forall k t, at_ k t -> store_rel (good L) (kv t) (snap k) /\ length (a_caches (snap k)) = N).
Context (Hbetween : forall k t, at_ k t -> wp between t (fun _ t' => at_ (S k) t')).

(** What one shard shows when it is read. *)
Lemma sample_ok {A} (m : M state A) (f : shard -> A) i k t : at_ k t -> (i < N)%nat ->
  (forall st, exists st', m st = Done (f (sh st), st')) ->
  wp (sample kv between i m) t (fun r t' => at_ (S k) t' /\ exists x,
    r = f x /\ let c := cache_at i (snap (S k)) in
    memoryBytes x = total (c_entries c) /\ Z.of_nat (size (items x)) = len (c_entries c) /\
    maxMemoryBytes x = l_maxMemory L /\ evictions x = c_evictions c /\ expirations x = c_expirations c).
Proof.
  intros Hk Hi Hm. unfold sample. wp_steps. wp_use (Hbetween k t Hk). intros [] t1 H1. cbn beta.
  pose proof (shard_contract L HL) as HC. destruct (Hat _ _ H1) as [[HF [Hn _]] Hlen].
  destruct (lookup_lt_is_Some_2 (a_caches (snap (S k))) i) as [c Hc]; [lia|].
  destruct (Forall2_lookup_r _ _ _ _ _ HF Hc) as ([x h] & Hx & Hg). simpl in Hg.
  unfold peek, wp. rewrite Hx. destruct (Hm (State x h (cas_counter (kv t1)))) as [st' ->]. split; [done|].
  exists x. split; [done|]. unfold cache_at. rewrite Hc. cbn [default from_option id].
  destruct (contract_totals _ _ Hg) as (E1 & E2 & E3 & E4 & E5). cbn [fst sh] in *. unfold len. by rewrite E2.
Qed.

(** Within one shard's budget, whenever it is read. *)
Lemma cache_at_bounds k t i : at_ k t -> 0 <= total (c_entries (cache_at i (snap k))) <= l_maxMemory L.
Proof.
  intros Hk. pose proof (shard_contract L HL) as HC. destruct (Hat _ _ Hk) as [[HF _] _].
  destruct HL as [Hwf _]. unfold cache_at.
  destruct (a_caches (snap k) !! i) as [c|] eqn:Hc; cbn; [|unfold wf_limits in Hwf; unfold sumZ; cbn; lia].
  destruct (Forall2_lookup_r _ _ _ _ _ HF Hc) as (x & _ & Hg). pose proof (contract_wf _ _ Hg) as Hw. cbn [fst] in Hw.
  split; [|apply Hw]. apply sumZ_nonneg, Forall_map. by apply (wf_nonneg L _ Hwf Hw).
Qed.

(** The turn for shard [n]. *)
Lemma spec_stats_turn n : (n < N)%nat ->
  (forall i, (i <= n)%nat -> 0 <= total (seen snap i) <= l_maxMemory L) -> 0 <= l_maxMemory L ->
  add_expirations (add_evictions (add_totals (spec_stats_upto L N snap n) (len (seen snap n))
    (total (seen snap n)) (l_maxMemory L)) (c_evictions (cache_at n (snap (3 * n + 2)%nat))))
    (c_expirations (cache_at n (snap (3 * n + 3)%nat))) = spec_stats_upto L N snap (S n).
Proof.
  intros Hn Hb H0. unfold spec_stats_upto, add_totals, add_evictions, add_expirations.
  cbn [st_Items st_MemoryBytes st_MaxMemoryBytes st_Evictions st_Expirations st_ItemsPerShard st_NumShards].
  rewrite seq_S, !map_app, !sumZ_app, !foldl_app. cbn [map foldl]. rewrite Nat.add_0_l.
  pose proof (sum_seq_bounds (fun i => total (seen snap i)) (l_maxMemory L) n ltac:(intros; apply Hb; lia)) as Hs.
  pose proof (Hb n ltac:(lia)).
  assert (Z.of_nat n * l_maxMemory L + l_maxMemory L <= Z.of_nat N * l_maxMemory L) by nia.
  rewrite !int64_id by lia. repeat change (sumZ [?z]) with (z + 0). f_equal; lia.
Qed.

Lemma stats_loop_ok n : forall i t, at_ (3 * i) t -> (i + n)%nat = N ->
  (forall j, (j < i)%nat -> 0 <= total (seen snap j) <= l_maxMemory L) ->
  wp (stats_loop kv between n i (spec_stats_upto L N snap i)) t (fun st t' =>
    st = spec_stats L N snap /\ at_ (3 * N) t' /\
    forall j, (j < N)%nat -> 0 <= total (seen snap j) <= l_maxMemory L).
Proof.
  assert (Hmax : 0 <= l_maxMemory L) by (destruct HL as [Hwf _]; unfold wf_limits in Hwf; lia).
  induction n as [|n IH]; intros i t Hi Hn Hbs; cbn [stats_loop].
  - wp_steps. rewrite Nat.add_0_r in Hn. subst i. done.
  - wp_steps. wp_use (sample_ok shard_totals (fun x => (Z.of_nat (size (items x)), memoryBytes x, maxMemoryBytes x))
      i _ t Hi ltac:(lia)); [by eexists|]. intros r t1 [H1 (x & -> & E1 & E2 & E3 & _)]. cbn beta iota. wp_steps.
    wp_use (sample_ok (gets (fun s => evictions (sh s))) evictions i _ t1 H1 ltac:(lia)); [by eexists|].
    intros r t2 [H2 (x2 & -> & _ & _ & _ & E4 & _)]. cbn beta. wp_steps.
    wp_use (sample_ok (gets (fun s => expirations (sh s))) expirations i _ t2 H2 ltac:(lia)); [by eexists|].
    intros r t3 [H3 (x3 & -> & _ & _ & _ & _ & E5)]. cbn beta.
    pose proof (cache_at_bounds _ _ i H1) as Hb.
    rewrite E1, E2, E3, E4, E5.
    replace (S (3 * i)) with (3 * i + 1)%nat in * by lia. replace (S (3 * i + 1)) with (3 * i + 2)%nat in * by lia.
    replace (S (3 * i + 2)) with (3 * i + 3)%nat in * by lia. fold (seen snap i) in Hb |- *.
    assert (Hbs' : forall j, (j < S i)%nat -> 0 <= total (seen snap j) <= l_maxMemory L).
    { intros j Hj. destruct (decide (j = i)) as [->|]; [done|apply Hbs; lia]. }
    rewrite spec_stats_turn; [|lia|intros; apply Hbs'; lia|done].
    apply IH; [by replace (3 * S i)%nat with (3 * i + 3)%nat by lia|lia|done].
Qed.

(** [Stats] reports what it saw of each shard when it was there. *)
Lemma StoreStats_ok t : at_ 0 t ->
  wp (StoreStats kv between) t (fun st t' => st = spec_stats L N snap /\ at_ (3 * N) t' /\
    forall j, (j < N)%nat -> 0 <= total (seen snap j) <= l_maxMemory L).
Proof.
  intros H0. destruct (Hat _ _ H0) as [Hrel Hlen]. pose proof (store_rel_length _ _ _ Hrel) as Hl.
  unfold StoreStats. wp_steps. rewrite Hl, Hlen. apply (stats_loop_ok N 0 t H0); [done|]. intros j Hj. lia.
Qed.

(** The bytes in shard [i] when [MemoryBytes] is there. *)
Definition held (i : nat) : Z := total (c_entries (cache_at i (snap (S i)))).

Lemma memory_loop_ok n : forall i t, at_ i t -> (i + n)%nat = N ->
  (forall j, (j < i)%nat -> 0 <= held j <= l_maxMemory L) ->
  wp (memory_loop kv between n i (sumZ (map held (seq 0 i)))) t (fun r t' =>
    r = sumZ (map held (seq 0 N)) /\ forall j, (j < N)%nat -> 0 <= held j <= l_maxMemory L).
Proof.
  assert (Hmax : 0 <= l_maxMemory L) by (destruct HL as [Hwf _]; unfold wf_limits in Hwf; lia).
  induction n as [|n IH]; intros i t Hi Hn Hbs; cbn [memory_loop].
  - wp_steps. rewrite Nat.add_0_r in Hn. by subst i.
  - wp_steps. wp_use (sample_ok Method.memoryBytesSnapshot memoryBytes i _ t Hi ltac:(lia)); [by eexists|].
    intros r t1 [H1 (x & -> & E & _)]. cbn beta. pose proof (cache_at_bounds _ _ i H1) as Hb.
    rewrite E. change (total _) with (held i) in Hb |- *.
    pose proof (sum_seq_bounds held (l_maxMemory L) i Hbs) as Hs.
    assert (Z.of_nat i * l_maxMemory L + l_maxMemory L <= Z.of_nat N * l_maxMemory L) by nia.
    rewrite int64_id by lia.
    replace (sumZ (map held (seq 0 i)) + held i) with (sumZ (map held (seq 0 (S i))))
      by (rewrite seq_S, map_app, sumZ_app; unfold sumZ; simpl; lia).
    apply IH; [done|lia|]. intros j Hj. destruct (decide (j = i)) as [->|]; [done|apply Hbs; lia].
Qed.

Lemma MemoryBytes_ok t : at_ 0 t -> wp (MemoryBytes kv between) t (fun r t' =>
  r = sumZ (map held (seq 0 N)) /\ forall j, (j < N)%nat -> 0 <= held j <= l_maxMemory L).
Proof.
  intros H0. destruct (Hat _ _ H0) as [Hrel Hlen]. pose proof (store_rel_length _ _ _ Hrel) as Hl.
  unfold MemoryBytes. wp_steps. rewrite Hl, Hlen. apply (memory_loop_ok N 0 t H0); [done|]. intros j Hj. lia.
Qed.
End Sampling.

(** A store with what others do to it before each read. *)
Definition meanwhile `{MapRange} (others : nat -> list event) : M (Store * nat) unit := fun t =>
  match run_events (others t.2) t.1 with
  | Done (_, s') => Done (tt, (s', S t.2))
  | Panicked => Panicked
  | OutOfFuel => OutOfFuel
  end.

Section Totals.
Context `{MapRange} (config : Config) (Hok : config_ok config).

Abbreviation L := (limits_of config).
Abbreviation N := (num_shards config).

Lemma shard_budget :
  0 < perShardMemory (normalizeConfig config) /\
  Z.of_nat (num_shards config) * perShardMemory (normalizeConfig config) <=
    Z.max (MaxMemoryBytes (normalizeConfig config)) (Shards (normalizeConfig config)) <= MaxInt64.
Proof.
  pose proof (normalize_bounds config) as (_ & H2 & _ & H4). destruct Hok as [H5 H6].
  pose proof (perShardMemory_bounds _ H2 H4) as [Hp Hs].
  unfold num_shards. rewrite Z2Nat.id by lia. unfold MaxInt64 in *. lia.
Qed.

(** The abstract store after the events [es]. *)
Definition abstract (es : list event) : astore := snd (spec_events L es (anew N)).

Lemma reach_abstract es rs s : store_reach config es rs s ->
  store_rel (good L) s (abstract es) /\ length (a_caches (abstract es)) = N.
Proof.
  intros Hr. destruct (reach_rel config Hok _ _ _ Hr) as (_ & Hrel & _). split; [done|].
  unfold abstract. by rewrite <- (store_rel_length _ _ _ Hrel), (reach_shards config Hok _ _ _ Hr).
Qed.

Lemma resident_at {A} (f : entries -> A) es rs s : store_reach config es rs s ->
  map f (resident s) = map (fun i => f (c_entries (cache_at i (abstract es)))) (seq 0 N).
Proof.
  intros Hr. destruct (reach_abstract _ _ _ Hr) as [Hrel Hlen].
  rewrite (rel_resident _ _ _ (limits_of_ok config Hok) Hrel), map_map, <- Hlen.
  symmetry. apply (cache_at_all (fun c => f (c_entries c))).
Qed.

(** The store others use, after [k] interruptions. *)
Section Others.
Context (others : nat -> list event) (Hothers : forall k, Forall (event_ok L N) (others k)).
Context (es : list event) (rs : list reply) (s : Store) (Hr : store_reach config es rs s).

Definition moved (k : nat) (t : Store * nat) : Prop :=
  store_rel (good L) t.1 (snapshots L others (abstract es) k) /\ t.2 = k.

Lemma moved_at k t : moved k t -> store_rel (good L) t.1 (snapshots L others (abstract es) k) /\
  length (a_caches (snapshots L others (abstract es) k)) = N.
Proof. intros [Hm _]. split; [done|]. rewrite snapshots_length. by apply (reach_abstract _ _ _ Hr). Qed.

Lemma moved_meanwhile k t : moved k t -> wp (meanwhile others) t (fun _ t' => moved (S k) t').
Proof.
  intros Hm. destruct (moved_at _ _ Hm) as [Hrel Hlen]. destruct Hm as [_ Hk]. destruct t as [s1 n]. cbn in *. subst n.
  pose proof (shard_contract L (limits_of_ok config Hok)) as HC.
  destruct (wp_Done _ _ _ (run_events_ok L (good L) (others k) s1 _ Hrel
    ltac:(rewrite (store_rel_length _ _ _ Hrel), Hlen; apply Hothers))) as (rs' & s' & E & _ & R').
  unfold meanwhile, wp. cbn. by rewrite E.
Qed.

Lemma moved_start : moved 0 (s, 0%nat).
Proof. split; [|done]. apply (reach_abstract _ _ _ Hr). Qed.
End Others.
End Totals.

(** ** The sweeper's pass over all shards *)

(** How many entries a sweep at [now] removes. *)
Definition dead (now : Z) (es : entries) : Z := len es - len (live now es).

Section CleanupPass.
Context `{MapRange} (config : Config) (Hok : config_ok config) (clock : nat -> Z).

Abbreviation L := (limits_of config).
Abbreviation rel := (store_rel (good L)).

Lemma sweep_shard_ok s a i c :
  rel s a -> a_caches a !! i = Some c ->
  wp (on_shard i (cleanupExpired (clock i))) s (fun r s' =>
    r = dead (clock i) (c_entries c) /\
    rel s' (AStore (<[i := sweep (clock i) c]> (a_caches a)) (a_cas a))).
Proof.
  intros Hrel Hc. pose proof (shard_contract _ (limits_of_ok config Hok)) as HC.
  assert (Hi : (i < length (shards s))%nat).
  { rewrite (store_rel_length _ _ _ Hrel). by eapply lookup_lt_Some. }
  pose proof (on_shard_ok L (good L) s a i OpCleanup (clock i) Hrel ltac:(done) Hi) as Hwp.
  apply (on_shard_bind i (cleanupExpired (clock i)) RCount) in Hwp.
  wp_use Hwp. intros r s' [Hr Hrel']. rewrite (shard_step_cleanup _ _ _ _ _ Hc) in *.
  simpl in *. by simplify_eq.
Qed.

Lemma cleanup_loop_ok n : forall i s a tot,
  rel s a -> (i + n = length (a_caches a))%nat ->
  wp (cleanup_loop n i clock tot) s (fun r s' => exists a', rel s' a' /\
    a_caches a' = take i (a_caches a) ++
      imap (fun j c => sweep (clock (i + j)%nat) c) (drop i (a_caches a)) /\
    r = tot + sumZ (imap (fun j c => dead (clock (i + j)%nat) (c_entries c)) (drop i (a_caches a)))).
Proof.
  induction n as [|n IH]; intros i s a tot Hrel Hn; cbn [cleanup_loop].
  - wp_steps. exists a. rewrite drop_ge, take_ge by lia. simpl. rewrite app_nil_r.
    unfold sumZ. simpl. split_and!; [done..|lia].
  - destruct (lookup_lt_is_Some_2 (a_caches a) i ltac:(lia)) as [c Hc]. wp_steps.
    wp_use (sweep_shard_ok s a i c Hrel Hc). intros r s1 [-> R1]. cbn beta.
    wp_use (IH (S i) s1 _ (tot + dead (clock i) (c_entries c)) R1);
      [cbn [a_caches]; rewrite length_insert; lia|].
    intros r s2 (a' & R2 & Ha' & ->). exists a'. cbn [a_caches] in *.
    rewrite (drop_S _ _ _ Hc). rewrite Ha', drop_insert_lt by lia.
    assert (Ht : take (S i) (<[i:=sweep (clock i) c]> (a_caches a)) =
      take i (a_caches a) ++ [sweep (clock i) c]).
    { rewrite (take_S_r _ _ (sweep (clock i) c)); [by rewrite take_insert_ge by lia|].
      apply list_lookup_insert_eq. by eapply lookup_lt_Some. }
    rewrite Ht, <- app_assoc. simpl. rewrite Nat.add_0_r. split_and!; [done| |].
    + do 2 f_equal. apply imap_ext. intros j x _. simpl. do 2 f_equal. lia.
    + change (sumZ (?x :: ?l)) with (x + sumZ l). rewrite <- Z.add_assoc. do 3 f_equal.
      apply imap_ext. intros j x _. simpl. do 2 f_equal. lia.
Qed.

Lemma CleanupExpired_ok s a :
  rel s a -> wp (CleanupExpired clock) s (fun r s' => exists a', rel s' a' /\
    a_caches a' = imap (fun i c => sweep (clock i) c) (a_caches a) /\
    r = sumZ (imap (fun i c => dead (clock i) (c_entries c)) (a_caches a))).
Proof.
  intros Hrel. unfold CleanupExpired. wp_steps.
  wp_use (cleanup_loop_ok (length (shards s)) 0 s a 0 Hrel); [by eapply store_rel_length|].
  intros r s' (a' & R' & Ha' & ->). exists a'. split_and!; done.
Qed.
End CleanupPass.

(** ** A store to run the theorems on *)

Definition demo_config : Config := MkConfig 8 24 0 2.

Definition demo_events : list event :=
  [EvOp (OpSet "x" "1" 0) 10; EvOp (OpSet "y" "2" 5) 11; EvOp (OpIncr "x" 41) 12; EvSweep 1 13].

Definition demo_store : Store :=
  match run_events demo_events (New demo_config) with Done (_, s) => s | _ => New demo_config end.

Definition demo_replies : list reply :=
  match run_events demo_events (New demo_config) with Done (rs, _) => rs | _ => [] end.

Lemma demo_config_ok : config_ok demo_config.
Proof. split; vm_compute; congruence. Qed.

Lemma demo_store_reach : store_reach demo_config demo_events demo_replies demo_store.
Proof.
  split; [|vm_compute; reflexivity].
  repeat constructor; simpl; eauto; vm_compute; congruence.
Qed.

(** ** Theorems *)

(** C1: The store refines its specification: from [New], any sequence of
    requests and per-shard sweeps runs to completion (no index out of range,
    no division by zero, no nil dereference), every reply is the one the
    abstract store gives, and the final state represents the abstract one. *)
Theorem store_refines `{MapRange} (config : Config) (es : list event) :
  config_ok config -> Forall (event_ok (limits_of config) (num_shards config)) es ->
  exists s', run_events es (New config) =
      Done (fst (spec_events (limits_of config) es (anew (num_shards config))), s') /\
    store_rel (good (limits_of config)) s'
      (snd (spec_events (limits_of config) es (anew (num_shards config)))).
Proof.
  intros Hok HF. pose proof (store_rel_length _ _ _ (new_rel config Hok)) as Hl.
  unfold anew in Hl. cbn [a_caches] in Hl. rewrite length_replicate in Hl.
  destruct (wp_Done _ _ _ (events_ok config Hok es _ _ (new_rel config Hok) ltac:(by rewrite Hl)))
    as (rs & s' & Hrun & -> & Hrel). by exists s'.
Qed.

Lemma store_refines_witness : exists s', run_events demo_events (New demo_config) =
    Done (fst (spec_events (limits_of demo_config) demo_events (anew 2)), s') /\
  store_rel (good (limits_of demo_config)) s'
    (snd (spec_events (limits_of demo_config) demo_events (anew 2))).
Proof. apply (store_refines demo_config demo_events demo_config_ok (proj1 demo_store_reach)). Defined.

(** C5: A hit is never stale.  Whatever requests and sweeps ran before, in any
    interleaving, when [Get] returns an item its value is the one most
    recently written under that key (by a successful [Set], [Cas] or [Incr])
    and not deleted since: eviction and expiry lose items, they never bring
    back an older one or mix up keys. *)
Theorem get_returns_last_write `{MapRange} (config : Config) es rs s k now it s' :
  config_ok config -> store_reach config es rs s -> Get k now s = Done (Some it, s') ->
  last_value k (zip es rs) = Some (Value it).
Proof.
  intros Hok Hr Hget. destruct (get_hit _ _ _ _ _ _ _ _ Hok Hr Hget) as (e & He & -> & _).
  destruct (reach_rel config Hok _ _ _ Hr) as [-> _].
  by apply (shows_last_events _ (proj1 (limits_of_ok _ Hok)) es [] _ (anew_awf config Hok)
    (shows_last_new _)) in He.
Qed.

Lemma get_returns_last_write_witness : exists it s', Get "x" 20 demo_store = Done (Some it, s') /\
  Value it = "42" /\ last_value "x" (zip demo_events demo_replies) = Some (Value it).
Proof.
  eexists (MkItem "42" 3), _. split; [vm_compute; reflexivity|]. split; [reflexivity|].
  eapply (get_returns_last_write demo_config demo_events demo_replies demo_store "x" 20 _ _
    demo_config_ok demo_store_reach). vm_compute. reflexivity.
Defined.

(** C7: Compare-and-swap has no ABA problem.  If [Cas] with the version that
    an earlier [Get] returned succeeds, then nobody wrote or deleted the key in
    between, whatever else happened, as long as fewer than 2^64 operations ran
    (the version counter is a [uint64]). *)
Theorem cas_no_aba `{MapRange} (config : Config) es rs s k now it s1 es' rs' s2 v ttl now' s3 :
  config_ok config -> store_reach config es rs s -> Get k now s = Done (Some it, s1) ->
  Forall (event_ok (limits_of config) (num_shards config)) es' ->
  run_events es' s1 = Done (rs', s2) -> key_ok (limits_of config) k ->
  Cas k v ttl (CAS it) now' s2 = Done (None, s3) ->
  len es + len es' + 1 <= MaxUint64 -> untouched k (zip es' rs').
Proof.
  intros Hok Hr Hget Hes' Hrun Hk Hcas Hbound.
  destruct (reach_rel config Hok _ _ _ Hr) as (-> & Hrel & Ha).
  pose proof (proj1 (limits_of_ok _ Hok)) as HL.
  destruct (get_hit _ _ _ _ _ _ _ _ Hok Hr Hget) as (x0 & Hx0 & _ & Htok & Hrel1).
  destruct (versions_events _ HL es _ (anew_awf config Hok) ltac:(pose proof (len_nonneg es'); simpl; lia)
    (versions_new _)) as [(H0 & Hver & _) Hcnt].
  set (a := snd (spec_events _ es _)) in *. rewrite Htok in Hcas.
  pose proof (reach_shards config Hok _ _ _ Hr) as Hlen.
  assert (Hlen1 : length (shards s1) = num_shards config).
  { by rewrite <- Hlen, (store_rel_length _ _ _ Hrel), (store_rel_length _ _ _ Hrel1), spec_event_length. }
  pose proof (events_ok config Hok es' _ _ Hrel1 ltac:(by rewrite Hlen1)) as Hwp.
  unfold wp in Hwp. rewrite Hrun in Hwp. destruct Hwp as [-> Hrel2].
  pose proof (spec_event_awf _ HL (EvOp (OpGet k) now) _ Ha) as Ha1.
  pose proof (run_event_rel config Hok _ _ (EvOp (OpCas k v ttl (e_cas x0)) now') _ _ Hrel2
    ltac:(simpl; eauto) (tag_reply _ RError _ _ _ Hcas)) as [Hc _].
  symmetry in Hc. apply spec_cas_written in Hc as (e & He & Hce & _); [|by apply spec_events_awf].
  pose proof (same_or_newer_events _ HL k x0 (EvOp (OpGet k) now :: es') [] a Ha) as Hson.
  rewrite len_cons in Hson. simpl a_cas in Hcnt.
  destruct Hson as [_ [[Hu _]|Hnew]]; [lia|done| | |].
  - split; [eapply Hver; eauto|]. left. split; [constructor|]. congruence.
  - rewrite hist_cons in Hu. by apply Forall_cons in Hu as [_ Hu].
  - rewrite spec_events_cons in Hnew. apply Hnew in He. lia.
Qed.

Lemma cas_no_aba_witness : exists s1 rs' s2 s3,
  Get "x" 20 demo_store = Done (Some (MkItem "42" 3), s1) /\
  run_events [EvOp (OpSet "z" "9" 0) 21; EvOp (OpGet "x") 22] s1 = Done (rs', s2) /\
  Cas "x" "43" 0 3 23 s2 = Done (None, s3) /\
  untouched "x" (zip [EvOp (OpSet "z" "9" 0) 21; EvOp (OpGet "x") 22] rs').
Proof.
  eexists _, _, _, _. split; [vm_compute; reflexivity|]. split; [vm_compute; reflexivity|].
  split; [vm_compute; reflexivity|].
  eapply (cas_no_aba demo_config demo_events demo_replies demo_store "x" 20 (MkItem "42" 3) _
    _ _ _ "43" 0 23 _ demo_config_ok demo_store_reach); [vm_compute; reflexivity| |
    vm_compute; reflexivity| |vm_compute; reflexivity|];
    repeat constructor; simpl; eauto; vm_compute; congruence.
Defined.

(** C20: At any moment no two keys carry the same version: hits on different
    keys have different CAS tokens. *)
Theorem versions_unique `{MapRange} (config : Config) es rs s k1 now1 it1 s1 k2 now2 it2 s2 :
  config_ok config -> store_reach config es rs s -> len es <= MaxUint64 ->
  Get k1 now1 s = Done (Some it1, s1) -> Get k2 now2 s = Done (Some it2, s2) ->
  k1 <> k2 -> CAS it1 <> CAS it2.
Proof.
  intros Hok Hr Hlen Hget1 Hget2 Hne Heq. apply Hne.
  destruct (get_hit _ _ _ _ _ _ _ _ Hok Hr Hget1) as (e1 & V1 & _ & C1 & _).
  destruct (get_hit _ _ _ _ _ _ _ _ Hok Hr Hget2) as (e2 & V2 & _ & C2 & _).
  destruct (versions_events _ (proj1 (limits_of_ok _ Hok)) es _ (anew_awf config Hok)
    ltac:(simpl; lia) (versions_new _)) as [(_ & _ & Hu) _].
  eapply Hu; [exact V1|exact V2|congruence].
Qed.

Lemma versions_unique_witness : exists s1 s2,
  Get "x" 12 demo_store = Done (Some (MkItem "42" 3), s1) /\
  Get "y" 12 demo_store = Done (Some (MkItem "2" 2), s2) /\
  CAS (MkItem "42" 3) <> CAS (MkItem "2" 2).
Proof.
  eexists _, _. split; [vm_compute; reflexivity|]. split; [vm_compute; reflexivity|].
  eapply (versions_unique demo_config demo_events demo_replies demo_store "x" 12 _ _ "y" 12 _ _
    demo_config_ok demo_store_reach); [| vm_compute; reflexivity|vm_compute; reflexivity|congruence].
  vm_compute. congruence.
Defined.

(** What was stored is what is read: after a successful [Set], [Get] on
    the same key at any instant before the deadline ([ttl <= 0]: any instant)
    returns exactly the stored bytes and the version just issued. *)
Theorem set_then_get `{MapRange} (config : Config) es rs s k v ttl now s1 now' :
  config_ok config -> store_reach config es rs s -> key_ok (limits_of config) k ->
  Set_ k v ttl now s = Done (None, s1) -> ttl <= 0 \/ now' < now + ttl ->
  exists s2, Get k now' s1 = Done (Some (MkItem v (cas_counter s1)), s2).
Proof.
  intros Hok Hr Hk Hset Hnow. destruct (reach_rel config Hok _ _ _ Hr) as (-> & Hrel & Ha).
  pose proof (proj1 (limits_of_ok _ Hok)) as HL.
  pose proof (run_event_rel config Hok _ _ (EvOp (OpSet k v ttl) now) _ _ Hrel
    ltac:(simpl; eauto) (tag_reply _ RError _ _ _ Hset)) as [Heq Hrel1].
  symmetry in Heq. apply spec_set_written in Heq as [size Hv]; [|done].
  pose proof (spec_event_awf _ HL (EvOp (OpSet k v ttl) now) _ Ha) as Ha1.
  destruct (get_view config s1 _ k now' Hok Hrel1 Ha1) as [s2 ->]. exists s2. rewrite Hv. simpl.
  assert (Hexp : forall sz c, expired (Entry k v (expiresAt now ttl) sz c) now' = false).
  { intros. unfold expired, expiresAt, IsZero. simpl. destruct (Z.leb_spec ttl 0); [done|].
    apply andb_false_iff. right. apply negb_false_iff, Z.ltb_lt. lia. }
  rewrite Hexp. by destruct Hrel1 as (_ & -> & _).
Qed.

Definition demo_store_z : Store :=
  match Set_ "z" "hello" 5 30 demo_store with Done (_, s) => s | _ => demo_store end.

Lemma set_then_get_witness : exists s2,
  Get "z" 34 demo_store_z = Done (Some (MkItem "hello" (cas_counter demo_store_z)), s2).
Proof.
  apply (set_then_get demo_config demo_events demo_replies demo_store "z" "hello" 5 30 demo_store_z 34
    demo_config_ok demo_store_reach).
  - vm_compute. congruence.
  - vm_compute. reflexivity.
  - right. vm_compute. reflexivity.
Defined.

(** C16: The memory budget holds for the whole store at every moment.  The sizes
    of the resident items add up to at most the configured [MaxMemoryBytes] (or
    one byte per shard where there are more shards than bytes), and so does what
    [Stats] and [MemoryBytes] report even while other goroutines use the store
    between their visits of the shards; [Stats] reports the exact bytes it saw
    in each shard, which are those of the resident items if nobody interferes. *)
Theorem store_budget `{MapRange} (config : Config) es rs s (others : nat -> list event) :
  config_ok config -> store_reach config es rs s ->
  (forall k, Forall (event_ok (limits_of config) (num_shards config)) (others k)) ->
  let nc := normalizeConfig config in
  let limit := Z.max (MaxMemoryBytes nc) (Shards nc) in
  let snap := snapshots (limits_of config) others (abstract config es) in
  0 <= sumZ (map total (resident s)) <= limit /\
  (Shards nc <= MaxMemoryBytes nc -> limit = MaxMemoryBytes nc) /\
  (exists t s', StoreStats fst (meanwhile others) (s, 0%nat) = Done (t, s') /\
    st_MemoryBytes t = sumZ (map (fun i => total (seen snap i)) (seq 0 (num_shards config))) /\
    0 <= st_MemoryBytes t <= st_MaxMemoryBytes t /\ st_MaxMemoryBytes t <= limit /\
    ((forall k, others k = []) -> st_MemoryBytes t = sumZ (map total (resident s)))) /\
  (exists b s', MemoryBytes fst (meanwhile others) (s, 0%nat) = Done (b, s') /\ 0 <= b <= limit /\
    ((forall k, others k = []) -> b = sumZ (map total (resident s)))).
Proof.
  intros Hok Hr Ho nc limit snap. pose proof (limits_of_ok config Hok) as HL.
  pose proof (shard_budget config Hok) as [H0 H1]. cbn zeta in H1.
  assert (Hlim : Z.of_nat (num_shards config) * l_maxMemory (limits_of config) <= limit <= MaxInt64) by exact H1.
  pose proof (moved_start config Hok others es rs s Hr) as Hst.
  destruct (reach_rel config Hok _ _ _ Hr) as (_ & _ & Ha).
  assert (Hstill : (forall k, others k = []) -> forall k, snap k = abstract config es)
    by (intros He k; by apply snapshots_still).
  pose proof (resident_at config Hok total _ _ _ Hr) as Hres. split_and!.
  1,2: rewrite Hres; pose proof (sum_seq_bounds (fun i => total (c_entries (cache_at i (abstract config es))))
    (l_maxMemory (limits_of config)) (num_shards config) (fun i _ => awf_total _ (proj1 HL) _ i Ha)) as Hb; lia.
  - unfold limit. lia.
  - destruct (wp_Done _ _ _ (StoreStats_ok _ HL (num_shards config) ltac:(lia) fst (meanwhile others) snap _
      (moved_at config Hok others es rs s Hr) (moved_meanwhile config Hok others Ho es rs s Hr) _ Hst))
      as (t & s' & E & -> & _ & Hb).
    exists (spec_stats (limits_of config) (num_shards config) snap), s'. split; [done|].
    pose proof (sum_seq_bounds _ _ _ Hb) as Hs. unfold spec_stats, spec_stats_upto. cbn [st_MemoryBytes st_MaxMemoryBytes].
    split; [done|]. do 2 (split; [lia|]). intros He. rewrite Hres. f_equal. apply map_ext. intros i. unfold seen. by rewrite Hstill.
  - destruct (wp_Done _ _ _ (MemoryBytes_ok _ HL (num_shards config) ltac:(lia) fst (meanwhile others) snap _
      (moved_at config Hok others es rs s Hr) (moved_meanwhile config Hok others Ho es rs s Hr) _ Hst))
      as (b & s' & E & -> & Hb).
    eexists _, s'. split; [exact E|]. pose proof (sum_seq_bounds _ _ _ Hb) as Hs. split; [lia|].
    intros He. rewrite Hres. f_equal. apply map_ext. intros i. unfold held. by rewrite Hstill.
Qed.

(** Another client stores an item after the first shard was sampled. *)
Definition demo_meanwhile (k : nat) : list event :=
  match k with 1%nat => [EvOp (OpSet "z" "hello" 0) 20] | _ => [] end.

Lemma store_budget_witness :
  0 <= sumZ (map total (resident demo_store)) <= 24 /\
  (exists t s', StoreStats fst (meanwhile demo_meanwhile) (demo_store, 0%nat) = Done (t, s') /\
    0 <= st_MemoryBytes t <= st_MaxMemoryBytes t /\ st_MaxMemoryBytes t <= 24) /\
  (exists b s', MemoryBytes fst (meanwhile demo_meanwhile) (demo_store, 0%nat) = Done (b, s') /\ 0 <= b <= 24).
Proof.
  destruct (store_budget demo_config demo_events demo_replies demo_store demo_meanwhile demo_config_ok demo_store_reach)
    as (H1 & _ & (t & s' & H2 & _ & H3 & H4 & _) & (b & s2 & H5 & H6 & _)).
  - intros [|[|k]]; cbn; [constructor| |constructor]. constructor; [|constructor].
    split; [vm_compute; congruence|by eexists].
  - split; [exact H1|]. split; [exists t, s'; split; [exact H2|split; [exact H3|exact H4]]|].
    exists b, s2. split; [exact H5|exact H6].
Defined.

(** Statistics sampled while another client writes need not be those of any one
    moment: here the two items are counted before, and their evictions after,
    a write that replaces both. *)
Example stats_torn :
  exists s t s', run_events [EvOp (OpSet "a" "123" 0) 1; EvOp (OpSet "b" "123" 0) 2] (New (MkConfig 8 8 0 1)) =
      Done ([RError None; RError None], s) /\
    StoreStats fst (meanwhile (fun k => match k with 1%nat => [EvOp (OpSet "c" "1234567" 0) 3] | _ => [] end))
      (s, 0%nat) = Done (t, s') /\ st_Items t = 2 /\ st_Evictions t = 2 /\
    (exists u, StoreStats id alone s = Done (u, s) /\ st_Items u = 2 /\ st_Evictions u = 0) /\
    (exists u, StoreStats id alone s'.1 = Done (u, s'.1) /\ st_Items u = 1 /\ st_Evictions u = 2).
Proof.
  eexists _, _, _. do 2 (split; [vm_compute; reflexivity|]). do 2 (split; [reflexivity|]).
  split; (eexists; split; [vm_compute; reflexivity|split; reflexivity]).
Qed.

(** The documented total budget can be exceeded: with more shards than
    bytes each shard still gets one byte, so a budget of two bytes over eight
    shards holds three bytes of items. *)
Theorem budget_exceeded :
  let config := MkConfig 8 2 0 8 in
  let es := [EvOp (OpSet "a" "" 0) 1; EvOp (OpSet "b" "" 0) 2; EvOp (OpSet "c" "" 0) 3] in
  exists s t, store_reach config es [RError None; RError None; RError None] s /\
    StoreStats id alone s = Done (t, s) /\
    st_MemoryBytes t = 3 /\ MaxMemoryBytes (normalizeConfig config) = 2.
Proof.
  eexists _, _. split; [split; [|vm_compute; reflexivity]|split; [vm_compute; reflexivity|split; vm_compute; reflexivity]].
  repeat constructor; simpl; eauto; vm_compute; congruence.
Qed.

(** The background sweep visits every shard once: it returns the exact
    number of items past their deadline at the instant each shard was visited,
    those are the items it removes, and every shard keeps the rest in recency
    order. *)
Theorem cleanup_all_shards `{MapRange} (config : Config) es rs s (clock : nat -> Z) :
  config_ok config -> store_reach config es rs s ->
  exists s', CleanupExpired clock s =
      Done (sumZ (imap (fun i es => dead (clock i) es) (resident s)), s') /\
    resident s' = imap (fun i es => live (clock i) es) (resident s).
Proof.
  intros Hok Hr. destruct (reach_rel config Hok _ _ _ Hr) as (_ & Hrel & _).
  pose proof (limits_of_ok _ Hok) as HL.
  destruct (wp_Done _ _ _ (CleanupExpired_ok config Hok clock s _ Hrel))
    as (r & s' & Hrun & a' & R' & Ha' & ->).
  exists s'. rewrite Hrun. rewrite (rel_resident _ _ _ HL Hrel), (rel_resident _ _ _ HL R'), Ha'. split.
  - by rewrite imap_fmap.
  - rewrite imap_fmap. apply (fmap_imap (fun i c => sweep (clock i) c) c_entries).
Qed.

Lemma cleanup_all_shards_witness : exists s', CleanupExpired (fun _ => 16) demo_store = Done (1, s') /\
  resident s' = imap (fun _ es => live 16 es) (resident demo_store).
Proof.
  destruct (cleanup_all_shards demo_config demo_events demo_replies demo_store (fun _ => 16)
    demo_config_ok demo_store_reach) as (s' & Hrun & Hres).
  exists s'. split; [|exact Hres]. rewrite Hrun. do 2 f_equal; vm_compute; reflexivity.
Defined.
