(* ===== verification/GoStrings.v ===== *)
(** * Strings as the protocol reads them

    What the server uses of Go's [unicode/utf8], [unicode] and [strings]:
    decoding the runes of a string the way [range] does (an ill-formed byte is
    U+FFFD of width one), [strings.Fields], and [strings.ToLower] as far as a
    comparison with ASCII words can tell.  The lemmas relate them to plain
    bytes: ASCII characters are always runes of their own, and splitting a
    line of space-separated tokens gives the tokens back. *)

From S2P Require Import Prelude.

(** ** Runes *)

Definition RuneError : Z := 65533.

Definition between (lo hi x : Z) : bool := (lo <=? x) && (x <=? hi).

(** A continuation byte. *)
Definition cont (b : ascii) : bool := between 128 191 (byteZ b).

(** The second bytes that may follow a first byte of a longer sequence. *)
Definition accept (c0 : Z) (b1 : ascii) : bool :=
  if c0 =? 224 then between 160 191 (byteZ b1)
  else if c0 =? 237 then between 128 159 (byteZ b1)
  else if c0 =? 240 then between 144 191 (byteZ b1)
  else if c0 =? 244 then between 128 143 (byteZ b1)
  else cont b1.

(** [utf8.DecodeRuneInString]: the first rune and its width. *)
Definition decode_rune (s : bytes) : Z * nat :=
  match s with
  | [] => (RuneError, 0%nat)
  | b0 :: t =>
      let c0 := byteZ b0 in
      if c0 <? 128 then (c0, 1%nat)
      else if between 194 223 c0 then
        match t with
        | b1 :: _ =>
            if cont b1 then ((c0 - 192) * 64 + (byteZ b1 - 128), 2%nat) else (RuneError, 1%nat)
        | _ => (RuneError, 1%nat)
        end
      else if between 224 239 c0 then
        match t with
        | b1 :: b2 :: _ =>
            if accept c0 b1 && cont b2 then
              ((c0 - 224) * 4096 + (byteZ b1 - 128) * 64 + (byteZ b2 - 128), 3%nat)
            else (RuneError, 1%nat)
        | _ => (RuneError, 1%nat)
        end
      else if between 240 244 c0 then
        match t with
        | b1 :: b2 :: b3 :: _ =>
            if accept c0 b1 && cont b2 && cont b3 then
              ((c0 - 240) * 262144 + (byteZ b1 - 128) * 4096 + (byteZ b2 - 128) * 64
                 + (byteZ b3 - 128), 4%nat)
            else (RuneError, 1%nat)
        | _ => (RuneError, 1%nat)
        end
      else (RuneError, 1%nat)
  end.

(** The runes of a string with the bytes each one spans; [skip] bytes of the
    current rune are still to be passed over. *)
Fixpoint segments_from (skip : nat) (s : bytes) : list (Z * bytes) :=
  match s with
  | [] => []
  | _ :: t =>
      match skip with
      | S k => segments_from k t
      | O => let '(r, w) := decode_rune s in (r, take w s) :: segments_from (w - 1) t
      end
  end.

Definition segments (s : bytes) : list (Z * bytes) := segments_from 0 s.

(** [for _, r := range s]. *)
Definition runes (s : bytes) : list Z := map fst (segments s).

(** ** [strings.Fields] *)

(** [unicode.IsSpace]. *)
Definition isSpace (r : Z) : bool :=
  between 9 13 r || (r =? 32) || (r =? 133) || (r =? 160) || (r =? 5760) ||
  between 8192 8202 r || (r =? 8232) || (r =? 8233) || (r =? 8239) || (r =? 8287) || (r =? 12288).

Fixpoint fields_loop (cur : bytes) (l : list (Z * bytes)) : list bytes :=
  match l with
  | [] => match cur with [] => [] | _ => [cur] end
  | (r, b) :: l' =>
      if isSpace r then
        match cur with [] => fields_loop [] l' | _ => cur :: fields_loop [] l' end
      else fields_loop (cur ++ b) l'
  end.

Definition Fields (s : bytes) : list bytes := fields_loop [] (segments s).

(** ** [strings.ToLower], compared with an ASCII word *)

(** [unicode.ToLower] where the result is ASCII; U+0130 and U+212A are the two
    runes outside ASCII whose lower case is an ASCII letter.  Every other rune
    outside ASCII maps to a rune outside ASCII and is left as it is. *)
Definition lower_rune (r : Z) : Z :=
  if between 65 90 r then r + 32
  else if r =? 304 then 105
  else if r =? 8490 then 107
  else r.

(** [strings.ToLower(s) == word]. *)
Definition lower_is (s word : bytes) : bool :=
  bool_decide (map lower_rune (runes s) = map byteZ word).

(** ** Lemmas *)

Lemma between_spec lo hi x : BoolSpec (lo <= x <= hi) (~ lo <= x <= hi) (between lo hi x).
Proof. unfold between. repeat zcase; constructor; lia. Qed.

(** Case analysis on every range test of a decoder. *)
Ltac ranges :=
  repeat match goal with
  | |- context [between ?lo ?hi ?x] => destruct (between_spec lo hi x); simpl
  | H : context [between ?lo ?hi ?x] |- _ => destruct (between_spec lo hi x); simpl in H
  | |- context [?x =? ?y] => destruct (Z.eqb_spec x y); simpl
  | |- context [?x <? ?y] => destruct (Z.ltb_spec x y); simpl
  end.

(** The bytes that are never a rune of their own. *)
Definition high (c : ascii) : Prop := 128 <= byteZ c.

(** The shape of the first rune: an ASCII byte is its own rune; any other rune
    is not ASCII and spans no ASCII byte. *)
Record decoded (b : ascii) (t : bytes) (r : Z) (w : nat) : Prop := {
  dec_eq : decode_rune (b :: t) = (r, w);
  dec_width : (1 <= w <= S (length t))%nat;
  dec_high : Forall high (take (w - 1) t);
  dec_ascii : byteZ b < 128 -> r = byteZ b /\ w = 1%nat;
  dec_wide : 128 <= byteZ b -> 128 <= r
}.

Lemma cont_true b : cont b = true -> 128 <= byteZ b <= 191.
Proof. unfold cont. by ranges. Qed.

Lemma accept_true c b : accept c b = true ->
  128 <= byteZ b <= 191 /\ (c = 224 -> 160 <= byteZ b) /\ (c = 240 -> 144 <= byteZ b).
Proof. unfold accept, cont. ranges; intros; first [done|lia]. Qed.

Lemma decode_shape b t : exists r w, decoded b t r w.
Proof.
  destruct (decode_rune (b :: t)) as [r w] eqn:E. exists r, w.
  enough (decode_rune (b :: t) = (r, w) -> (1 <= w <= S (length t))%nat /\
    Forall high (take (w - 1) t) /\ (byteZ b < 128 -> r = byteZ b /\ w = 1%nat) /\
    (128 <= byteZ b -> 128 <= r)) as H by (destruct (H E) as (? & ? & ? & ?); by split).
  clear E. unfold decode_rune, RuneError.
  assert (Hinv : (65533, 1%nat) = (r, w) -> 128 <= byteZ b -> (1 <= w <= S (length t))%nat /\
    Forall high (take (w - 1) t) /\ (byteZ b < 128 -> r = byteZ b /\ w = 1%nat) /\
    (128 <= byteZ b -> 128 <= r)).
  { intros [= <- <-] ?. rewrite take_0. split_and!; try lia. constructor. }
  destruct (Z.ltb_spec (byteZ b) 128).
  { intros [= <- <-]. rewrite take_0. split_and!; try lia. constructor. }
  destruct (between_spec 194 223 (byteZ b)).
  { destruct t as [|b1 t]; [auto|]. destruct (cont b1) eqn:C1; [|auto].
    apply cont_true in C1. intros [= <- <-]. simpl. rewrite ?take_0. split_and!; try lia.
    repeat constructor. unfold high. lia. }
  destruct (between_spec 224 239 (byteZ b)).
  { destruct t as [|b1 [|b2 t]]; [auto..|]. destruct (accept (byteZ b) b1 && cont b2) eqn:C1; [|auto].
    apply andb_prop in C1 as [C1%accept_true C2%cont_true]. intros [= <- <-]. simpl. rewrite ?take_0.
    split_and!; try lia. repeat (apply Forall_cons; split; [unfold high; lia|]). constructor. }
  destruct (between_spec 240 244 (byteZ b)); [|auto].
  destruct t as [|b1 [|b2 [|b3 t]]]; [auto..|].
  destruct (accept (byteZ b) b1 && cont b2 && cont b3) eqn:C1; [|auto].
  apply andb_prop in C1 as [[C1%accept_true C2%cont_true]%andb_prop C3%cont_true].
  intros [= <- <-]. simpl. rewrite ?take_0.
  split_and!; try lia. repeat (apply Forall_cons; split; [unfold high; lia|]). constructor.
Qed.

(** [t] cannot continue a rune: it is empty or starts with an ASCII byte. *)
Definition fresh_start (t : bytes) : Prop :=
  match t with [] => True | b :: _ => byteZ b < 128 end.

Lemma cont_low b : byteZ b < 128 -> cont b = false.
Proof. intros Hb. unfold cont. by ranges; [lia|]. Qed.

Lemma accept_low c b : byteZ b < 128 -> accept c b = false.
Proof. intros Hb. unfold accept, cont. ranges; done || lia. Qed.

Lemma decode_app b s t : fresh_start t -> decode_rune ((b :: s) ++ t) = decode_rune (b :: s).
Proof.
  intros Ht. simpl. destruct (byteZ b <? 128); [done|].
  destruct (between 194 223 (byteZ b)).
  { destruct s as [|b1 s]; [|done]. destruct t; [done|]. simpl in *. by rewrite cont_low. }
  destruct (between 224 239 (byteZ b)).
  { destruct s as [|b1 [|b2 s]]; [| |done]; destruct t as [|c1 t]; simpl in *; try done.
    - destruct t; [done|]. by rewrite accept_low.
    - by rewrite cont_low, andb_false_r. }
  destruct (between 240 244 (byteZ b)); [|done].
  destruct s as [|b1 [|b2 [|b3 s]]]; [| | |done]; destruct t as [|c1 t]; simpl in *; try done.
  - destruct t as [|c2 [|c3 t]]; [done..|]. by rewrite accept_low.
  - destruct t; [done|]. by rewrite cont_low, andb_false_r.
  - by rewrite (cont_low c1), andb_false_r.
Qed.

Lemma segments_from_app t : fresh_start t -> forall s k, (k <= length s)%nat ->
  segments_from k (s ++ t) = segments_from k s ++ segments t.
Proof.
  intros Ht. induction s as [|b s IH]; intros k Hk; simpl in Hk.
  { assert (k = 0%nat) as -> by lia. done. }
  destruct k as [|k]; [|simpl; apply IH; lia].
  destruct (decode_shape b s) as (r & w & [Hd Hw _ _ _]).
  assert (Hd' : decode_rune (b :: s ++ t) = (r, w)) by (rewrite <- Hd; exact (decode_app b s t Ht)).
  cbn [app segments_from]. rewrite Hd, Hd'. cbn [app]. rewrite IH by lia.
  do 2 f_equal. change (b :: s ++ t) with ((b :: s) ++ t). rewrite take_app_le; [done|simpl; lia].
Qed.

Lemma segments_app s t : fresh_start t -> segments (s ++ t) = segments s ++ segments t.
Proof. intros Ht. apply segments_from_app; [done|lia]. Qed.

(** The segments are the string. *)
Lemma segments_from_concat s : forall k, concat (map snd (segments_from k s)) = drop k s.
Proof.
  induction s as [|b s IH]; intros k; [by rewrite drop_nil|].
  destruct k as [|k]; [|apply IH]. cbn [segments_from].
  destruct (decode_shape b s) as (r & w & [-> Hw _ _ _]). cbn [map snd concat].
  rewrite IH. destruct w as [|w]; [lia|]. simpl. rewrite Nat.sub_0_r. by rewrite take_drop.
Qed.

Lemma segments_concat s : concat (map snd (segments s)) = s.
Proof. apply segments_from_concat. Qed.

(** A test that only ASCII characters can pass may look at bytes. *)
Lemma existsb_runes (f : Z -> bool) s :
  (forall r, 128 <= r -> f r = false) -> existsb f (runes s) = existsb (fun c => f (byteZ c)) s.
Proof.
  intros Hf. unfold runes, segments. enough (H : forall s k, Forall high (take k s) ->
    existsb f (map fst (segments_from k s)) = existsb (fun c => f (byteZ c)) s) by by apply H.
  clear s. induction s as [|b s IH]; intros k Hk; [done|]. destruct k as [|k]; simpl in *.
  - destruct (decode_shape b s) as (r & w & [Hd Hw Hh Ha Hwd]). unfold decode_rune in Hd. rewrite Hd.
    simpl. rewrite (IH _ Hh). f_equal. destruct (Z.lt_ge_cases (byteZ b) 128) as [Hb|Hb].
    + by destruct (Ha Hb) as [-> _].
    + rewrite !Hf; [done|lia|by apply Hwd].
  - apply Forall_cons in Hk as [Hb Hk]. rewrite (IH _ Hk). by rewrite Hf.
Qed.

(** ** Cutting a string at rune boundaries *)

Lemma segments_from_drop s : forall k, segments_from k s = segments (drop k s).
Proof.
  unfold segments. induction s as [|b s IH]; intros k; [by rewrite drop_nil|].
  destruct k as [|k]; [done|]. simpl. apply IH.
Qed.

Lemma segments_cons b t r w :
  decoded b t r w -> segments (b :: t) = (r, take w (b :: t)) :: segments (drop w (b :: t)).
Proof.
  intros [Hd Hw _ _ _]. unfold segments at 1. cbn [segments_from]. rewrite Hd, segments_from_drop.
  destruct w as [|w]; [lia|]. simpl. by rewrite Nat.sub_0_r.
Qed.

(** Cutting a string after its first rune or later does not change that rune. *)
Lemma decode_take b t r w n :
  decoded b t r w -> (w <= n)%nat -> decode_rune (take n (b :: t)) = (r, w).
Proof.
  intros [Hd Hw _ _ _] Hn. rewrite <- Hd. destruct n as [|n]; [lia|]. revert Hd. simpl.
  destruct (byteZ b <? 128); [done|]. destruct (between 194 223 (byteZ b)).
  { destruct t as [|b1 t], n as [|n]; simpl; try done.
    destruct (cont b1); intros [= <- <-]; [lia|done]. }
  destruct (between 224 239 (byteZ b)).
  { destruct t as [|b1 [|b2 t]], n as [|[|n]]; simpl; try done;
      (destruct (accept (byteZ b) b1 && cont b2); intros [= <- <-]; [lia|done]). }
  destruct (between 240 244 (byteZ b)); [|done].
  destruct t as [|b1 [|b2 [|b3 t]]], n as [|[|[|n]]]; simpl; try done;
    (destruct (accept (byteZ b) b1 && cont b2 && cont b3); intros [= <- <-]; [lia|done]).
Qed.

(** The segments of a prefix that ends at a rune boundary. *)
Lemma segments_prefix l1 : forall l2 s,
  segments s = l1 ++ l2 -> segments (concat (map snd l1)) = l1.
Proof.
  induction l1 as [|x l1 IH]; intros l2 s Hs; [done|].
  destruct s as [|b t]; [done|]. destruct (decode_shape b t) as (r & w & Hd).
  pose proof (segments_concat (b :: t)) as Hc. rewrite Hs, map_app, concat_app in Hc.
  rewrite (segments_cons _ _ _ _ Hd) in Hs. injection Hs as <- Hs.
  specialize (IH _ _ Hs). cbn [map snd concat] in *. rewrite <- app_assoc in Hc.
  set (c := concat (map snd l1)) in *. destruct Hd as [Hd Hw Hh Ha Hwd].
  assert (Hpre : take w (b :: t) ++ c = take (w + length c) (b :: t)).
  { rewrite <- Hc at 2. rewrite app_assoc.
    rewrite take_app_length' by (rewrite length_app, length_take; simpl; lia). done. }
  destruct w as [|w]; [lia|]. assert (Hd2 : decoded b (take w t ++ c) r (S w)).
  { split; [|rewrite length_app, length_take; lia| |done|done].
    - change (b :: take w t ++ c) with (take (S w) (b :: t) ++ c). rewrite Hpre.
      apply decode_take; [by split|lia].
    - simpl in *. rewrite Nat.sub_0_r in *. by rewrite take_app_length' by (rewrite length_take; lia). }
  change (take (S w) (b :: t) ++ c) with (b :: take w t ++ c). rewrite (segments_cons _ _ _ _ Hd2).
  change (b :: take w t ++ c) with (take (S w) (b :: t) ++ c).
  rewrite take_app_length', drop_app_length' by (rewrite length_take; simpl; lia). by rewrite IH.
Qed.

Lemma segments_suffix l1 : forall l2 s,
  segments s = l1 ++ l2 -> segments (concat (map snd l2)) = l2.
Proof.
  induction l1 as [|x l1 IH]; intros l2 s Hs; simpl in Hs.
  { rewrite <- Hs. by rewrite segments_concat. }
  destruct s as [|b t]; [done|]. destruct (decode_shape b t) as (r & w & Hd).
  rewrite (segments_cons _ _ _ _ Hd) in Hs. injection Hs as _ Hs. by eapply IH.
Qed.

(** ** Tokens *)

Definition no_space (l : list (Z * bytes)) : bool := forallb (fun x => negb (isSpace (fst x))) l.

(** A non-empty string without white space, as [Fields] returns them. *)
Definition token (s : bytes) : bool := negb (bool_decide (s = [])) && no_space (segments s).

Lemma no_space_app l1 l2 : no_space (l1 ++ l2) = no_space l1 && no_space l2.
Proof. apply forallb_app. Qed.

Lemma fields_loop_no_space l : forall cur rest,
  no_space l = true -> fields_loop cur (l ++ rest) = fields_loop (cur ++ concat (map snd l)) rest.
Proof.
  induction l as [|[r b] l IH]; intros cur rest Hl; simpl in *; [by rewrite app_nil_r|].
  apply andb_prop in Hl as [Hr%negb_true_iff Hl]. rewrite Hr, IH by done. by rewrite <- app_assoc.
Qed.

Lemma segments_ascii b t : byteZ b < 128 -> segments (b :: t) = (byteZ b, [b]) :: segments t.
Proof.
  intros Hb. destruct (decode_shape b t) as (r & w & Hd). rewrite (segments_cons _ _ _ _ Hd).
  destruct (dec_ascii _ _ _ _ Hd Hb) as [-> ->]. done.
Qed.

Lemma Fields_last w : token w = true -> Fields w = [w].
Proof.
  intros [Hw Hn]%andb_prop. unfold Fields. rewrite <- (app_nil_r (segments w)).
  rewrite fields_loop_no_space by done. simpl. rewrite segments_concat. by destruct w.
Qed.

Lemma Fields_word w rest : token w = true -> Fields (w ++ " " ++ rest) = w :: Fields rest.
Proof.
  intros [Hw Hn]%andb_prop. unfold Fields. rewrite segments_app by done.
  rewrite fields_loop_no_space by done. simpl app at 1. rewrite segments_concat.
  change (" " ++ rest) with (" "%char :: rest). rewrite segments_ascii by done.
  cbn [fields_loop]. simpl isSpace. cbv iota. by destruct w.
Qed.

Fixpoint join (ws : list bytes) : bytes :=
  match ws with
  | [] => []
  | [w] => w
  | w :: ws' => w ++ " " ++ join ws'
  end.

(** Splitting a line of space-separated tokens gives the tokens back. *)
Lemma Fields_join ws : forallb token ws = true -> Fields (join ws) = ws.
Proof.
  induction ws as [|w ws IH]; intros Hws; [done|]. apply andb_prop in Hws as [Hw Hws].
  destruct ws as [|w2 ws]; [by apply Fields_last|].
  change (join (w :: w2 :: ws)) with (w ++ " " ++ join (w2 :: ws)).
  by rewrite Fields_word, IH.
Qed.

(** A field is a run of segments without a space. *)
Definition run_of (l : list (Z * bytes)) (f : bytes) : Prop :=
  exists l1 m l2, l = l1 ++ m ++ l2 /\ f = concat (map snd m) /\ no_space m = true /\ f <> [].

Lemma fields_loop_runs l : forall lc, no_space lc = true ->
  Forall (run_of (lc ++ l)) (fields_loop (concat (map snd lc)) l).
Proof.
  induction l as [|[r b] l IH]; intros lc Hlc; simpl.
  - rewrite app_nil_r. destruct (concat (map snd lc)) as [|c cs] eqn:E; [constructor|].
    apply Forall_singleton. exists [], lc, []. rewrite app_nil_r, E. done.
  - destruct (isSpace r) eqn:Hr.
    + assert (Hrest : Forall (run_of (lc ++ (r, b) :: l)) (fields_loop [] l)).
      { eapply Forall_impl; [exact (IH [] eq_refl)|]. intros f (l1 & m & l2 & Hl & Hf). simpl in Hl.
        exists (lc ++ (r, b) :: l1), m, l2. split; [|done]. rewrite <- app_assoc. simpl. by rewrite <- Hl. }
      destruct (concat (map snd lc)) as [|c cs] eqn:E; [done|]. constructor; [|done].
      exists [], lc, ((r, b) :: l). rewrite E. done.
    + replace (lc ++ (r, b) :: l) with ((lc ++ [(r, b)]) ++ l) by (by rewrite <- app_assoc).
      replace (concat (map snd lc) ++ b) with (concat (map snd (lc ++ [(r, b)])))
        by (rewrite map_app, concat_app; simpl; by rewrite app_nil_r).
      apply IH. rewrite no_space_app, Hlc. simpl. by rewrite Hr.
Qed.

(** What [Fields] returns are tokens. *)
Lemma Fields_tokens s : forallb token (Fields s) = true.
Proof.
  apply forallb_forall. intros f Hf.
  assert (HF : Forall (run_of (segments s)) (Fields s)) by apply (fields_loop_runs (segments s) [] eq_refl).
  rewrite List.Forall_forall in HF. destruct (HF f Hf) as (l1 & m & l2 & Hl & -> & Hm & Hne).
  unfold token. apply andb_true_intro. split; [by apply negb_true_iff, bool_decide_eq_false|].
  apply segments_suffix in Hl. apply segments_prefix in Hl. by rewrite Hl.
Qed.

(** A string of visible ASCII characters without spaces is a token. *)
Lemma ascii_runes s : forallb (fun c => byteZ c <? 128) s = true ->
  segments s = map (fun c => (byteZ c, [c])) s.
Proof.
  induction s as [|b s IH]; intros Hs; [done|]. simpl in Hs. apply andb_prop in Hs as [Hb%Z.ltb_lt Hs].
  rewrite segments_ascii by done. simpl. by rewrite IH.
Qed.

(** A test that every character outside ASCII passes may look at bytes too. *)
Lemma existsb_runes_high (f : Z -> bool) s :
  (forall r, 128 <= r -> f r = true) -> existsb f (runes s) = existsb (fun c => f (byteZ c)) s.
Proof.
  intros Hf. unfold runes. induction s as [|b s IH]; [done|].
  destruct (Z.lt_ge_cases (byteZ b) 128) as [Hb|Hb].
  - rewrite segments_ascii by done. simpl. by rewrite IH.
  - destruct (decode_shape b s) as (r & w & Hd). rewrite (segments_cons _ _ _ _ Hd). simpl.
    rewrite !Hf; [done|lia|]. by apply (dec_wide _ _ _ _ Hd).
Qed.

Lemma existsb_map {A B} (f : B -> bool) (g : A -> B) l : existsb f (map g l) = existsb (fun x => f (g x)) l.
Proof. induction l as [|x l IH]; simpl; [done|]. by rewrite IH. Qed.

Lemma existsb_false_elem {A} (f : A -> bool) l x : existsb f l = false -> x ∈ l -> f x = false.
Proof.
  intros Hl Hx. destruct (f x) eqn:E; [|done]. apply list_elem_of_In in Hx.
  rewrite <- Hl. symmetry. apply existsb_exists. eauto.
Qed.

(** A token holds no newline. *)
Lemma token_no_newline w : token w = true -> "010"%char ∉ w.
Proof.
  intros [_ Hn]%andb_prop Hin.
  pose proof (existsb_runes (fun r => r =? 10) w) as He.
  rewrite (proj2 (existsb_exists _ w)) in He; [|exists "010"%char; split; [by apply list_elem_of_In|done]].
  specialize (He ltac:(intros r Hr; apply Z.eqb_neq; lia)).
  apply existsb_exists in He as (r & Hr & ->%Z.eqb_eq). unfold runes in Hr.
  apply in_map_iff in Hr as ([r b] & Hr & Hin'). simpl in Hr. subst r.
  unfold no_space in Hn. rewrite forallb_forall in Hn. by apply Hn in Hin'.
Qed.

Lemma join_no_newline ws : forallb token ws = true -> "010"%char ∉ join ws.
Proof.
  induction ws as [|w ws IH]; intros Hws; [simpl; set_solver|].
  apply andb_prop in Hws as [Hw Hws]. apply token_no_newline in Hw.
  destruct ws as [|w2 ws]; [done|].
  change (join (w :: w2 :: ws)) with (w ++ " " ++ join (w2 :: ws)).
  rewrite !not_elem_of_app. split_and!; [done| |by apply IH].
  intros Hx%list_elem_of_singleton. discriminate.
Qed.

(** ASCII characters without spaces make a token. *)
Definition visible (c : ascii) : bool := between 33 126 (byteZ c).

Lemma visible_token s : s <> [] -> forallb visible s = true -> token s = true.
Proof.
  intros Hs Hv. unfold token. apply andb_true_intro. split; [by apply negb_true_iff, bool_decide_eq_false|].
  rewrite forallb_forall in Hv. rewrite ascii_runes.
  - unfold no_space. apply forallb_forall. intros x (c & <- & Hc)%in_map_iff. simpl.
    apply Hv in Hc. unfold visible, isSpace in *. ranges; done || lia.
  - apply forallb_forall. intros c Hc%Hv. unfold visible in Hc. apply Z.ltb_lt. ranges; done || lia.
Qed.
