(* ===== verification/Bufio.v ===== *)
(** * Buffered input

    The part of Go's [bufio.Reader] and [io.ReadFull] that the parser and the
    benchmark clients use.  A connection is the bytes that will arrive on it
    and the error that ends it; how they are split over packets does not
    matter to these functions, only the size of the buffer does. *)

From S2P Require Import Prelude.

Inductive read_error := EOF | Timeout | IOError.

Global Instance read_error_eq_dec : EqDecision read_error.
Proof. solve_decision. Defined.

Record reader := Reader { unread : bytes; rd_err : read_error }.

(** [bufio.NewReader]'s buffer. *)
Definition bufSize : nat := 4096.

(** The largest allocation the runtime accepts on 64-bit Linux. *)
Definition maxAlloc : Z := 2 ^ 48.

Definition consume (n : nat) : M reader unit :=
  modify (fun r => Reader (drop n (unread r)) (rd_err r)).

(** The prefix of [s] up to and including the first [delim]. *)
Fixpoint through (delim : ascii) (s : bytes) : option bytes :=
  match s with
  | [] => None
  | c :: s' => if decide (c = delim) then Some [c]
               else l ← through delim s'; Some (c :: l)
  end.

Inductive slice_error := ErrBufferFull | ReadErr (e : read_error).

(** [ReadSlice]: a line that fits the buffer; a full buffer without the
    delimiter is consumed, and so is what is left before the end. *)
Definition ReadSlice (delim : ascii) : M reader (bytes + slice_error) :=
  s ← gets unread;
  match through delim (take bufSize s) with
  | Some line => consume (length line) ;; mret (inl line)
  | None =>
      if decide (bufSize <= length s)%nat
      then consume bufSize ;; mret (inr ErrBufferFull)
      else e ← gets rd_err; consume (length s) ;; mret (inr (ReadErr e))
  end.

(** [ReadString]: a line of any length. *)
Definition ReadString (delim : ascii) : M reader (bytes + read_error) :=
  s ← gets unread;
  match through delim s with
  | Some line => consume (length line) ;; mret (inl line)
  | None => e ← gets rd_err; consume (length s) ;; mret (inr e)
  end.

(** [make([]byte, n)] followed by [io.ReadFull] into it; [None] is a short read.
    A length that is negative or too large panics. *)
Definition make_read (n : Z) : M reader (option bytes) :=
  if (n <? 0) || (maxAlloc <? n) then panic
  else
    s ← gets unread;
    consume (Z.to_nat n) ;;
    mret (if n <=? len s then Some (take (Z.to_nat n) s) else None).

(** ** Lemmas *)

Lemma through_spec d s line :
  through d s = Some line -> exists l rest, line = l ++ [d] /\ s = line ++ rest /\ (d ∉ l).
Proof.
  revert line. induction s as [|c s IH]; intros line; simpl; [done|].
  case_decide as Hc.
  - intros [= <-]. exists [], s. subst. split_and!; [done..|set_solver].
  - destruct (through d s) as [l0|]; simpl; [|done]. intros [= <-].
    destruct (IH l0 eq_refl) as (l & rest & -> & -> & Hn). exists (c :: l), rest.
    split_and!; [done..|]. intros [->|?]%elem_of_cons; done.
Qed.

Lemma through_app d l rest : d ∉ l -> through d (l ++ [d] ++ rest) = Some (l ++ [d]).
Proof.
  induction l as [|c l IH]; intros Hn; simpl; [by rewrite decide_True|].
  apply not_elem_of_cons in Hn as [Hc Hn]. rewrite decide_False by congruence.
  change (d :: rest) with ([d] ++ rest). by rewrite IH.
Qed.

Lemma through_None d s : through d s = None -> d ∉ s.
Proof.
  induction s as [|c s IH]; simpl; [set_solver|]. case_decide as Hc; [done|].
  destruct (through d s); simpl; [done|]. intros _ [->|?]%elem_of_cons; [done|by apply IH].
Qed.

(** A line within the buffer is returned whole. *)
Lemma ReadSlice_line d l rest e :
  d ∉ l -> (length l < bufSize)%nat ->
  ReadSlice d (Reader (l ++ [d] ++ rest) e) = Done (inl (l ++ [d]), Reader rest e).
Proof.
  intros Hd Hl. unfold ReadSlice, mbind, M_bind, gets. cbn [unread].
  rewrite take_app_ge, (take_app_ge [d]) by (simpl; lia).
  rewrite through_app by done. unfold consume, modify. cbn [unread rd_err].
  rewrite app_assoc, drop_app_length. done.
Qed.

(** What [ReadSlice] returns and leaves. *)
Lemma ReadSlice_cases d s e :
  (exists l rest, s = l ++ [d] ++ rest /\ (d ∉ l) /\ (length l < bufSize)%nat /\
     ReadSlice d (Reader s e) = Done (inl (l ++ [d]), Reader rest e)) \/
  ((bufSize <= length s)%nat /\ (d ∉ take bufSize s) /\
     ReadSlice d (Reader s e) = Done (inr ErrBufferFull, Reader (drop bufSize s) e)) \/
  ((length s < bufSize)%nat /\ (d ∉ s) /\
     ReadSlice d (Reader s e) = Done (inr (ReadErr e), Reader [] e)).
Proof.
  destruct (through d (take bufSize s)) as [line|] eqn:E.
  - left. destruct (through_spec _ _ _ E) as (l & rest & -> & Hs & Hn).
    exists l, (rest ++ drop bufSize s).
    assert (Heq : s = l ++ [d] ++ rest ++ drop bufSize s).
    { rewrite <- (take_drop bufSize s) at 1. rewrite Hs. by rewrite <- !app_assoc. }
    assert (Hlen : (length l < bufSize)%nat).
    { apply (f_equal length) in Hs. rewrite length_take, !length_app in Hs. cbn [length] in Hs. lia. }
    split_and!; [done..|]. rewrite Heq at 1. by apply ReadSlice_line.
  - right. apply through_None in E as Hn. unfold ReadSlice, mbind, M_bind, gets. cbn [unread rd_err].
    rewrite E. case_decide as Hl; [left|right].
    + by split_and!.
    + rewrite take_ge in Hn by lia. split_and!; [lia|done|].
      unfold consume, modify. cbn [unread rd_err]. by rewrite drop_ge.
Qed.

Lemma ReadString_line d l rest e :
  d ∉ l -> ReadString d (Reader (l ++ [d] ++ rest) e) = Done (inl (l ++ [d]), Reader rest e).
Proof.
  intros Hd. unfold ReadString, mbind, M_bind, gets. cbn [unread].
  rewrite through_app by done. unfold consume, modify. cbn [unread rd_err].
  rewrite app_assoc, drop_app_length. done.
Qed.

Lemma make_read_exact n s rest e :
  len s = n -> n <= maxAlloc -> make_read n (Reader (s ++ rest) e) = Done (Some s, Reader rest e).
Proof.
  intros <- Hn. pose proof (len_nonneg s). pose proof (len_nonneg rest). unfold make_read.
  destruct (Z.ltb_spec (len s) 0); [lia|]. destruct (Z.ltb_spec maxAlloc (len s)); [lia|].
  cbn [orb]. unfold mbind, M_bind, gets, consume, modify, mret, M_ret. cbn [unread rd_err].
  rewrite len_app. destruct (Z.leb_spec (len s) (len s + len rest)); [|lia].
  unfold len. rewrite Nat2Z.id, take_app_length, drop_app_length. done.
Qed.

(** ** Buffered output

    [bufio.Writer] over a connection.  [room] is how many bytes the peer still
    accepts, [None] for any number: a write beyond that sends what fits and
    fails.  An error sticks to the writer. *)

Record writer := Writer { sent : bytes; buffered : bytes; room : option nat; failed : bool }.

Definition new_writer (room : option nat) : writer := Writer [] [] room false.

(** One [Write] on the connection: how many bytes of [p] it takes. *)
Definition taken (w : writer) (p : bytes) : nat :=
  match room w with None => length p | Some n => Nat.min n (length p) end.

Definition less_room (w : writer) (n : nat) : option nat :=
  match room w with None => None | Some m => Some (m - n)%nat end.

(** Send [p] past the buffer. *)
Definition send (p : bytes) (w : writer) : writer :=
  let n := taken w p in
  Writer (sent w ++ take n p) (buffered w) (less_room w n) (bool_decide (n < length p)%nat).

(** [Flush]; the result is [true] for success. *)
Definition Flush : M writer bool := fun w =>
  if failed w then Done (false, w)
  else if bool_decide (buffered w = []) then Done (true, w)
  else
    let w' := send (buffered w) w in
    Done (negb (failed w'),
          Writer (sent w') (drop (taken w (buffered w)) (buffered w)) (room w') (failed w')).

Definition available (w : writer) : nat := (bufSize - length (buffered w))%nat.

Definition append (p : bytes) (w : writer) : writer :=
  Writer (sent w) (buffered w ++ p) (room w) (failed w).

(** [Write] and [WriteString].  The loop of the library turns at most twice:
    it fills and flushes a buffer that is not empty, then sends the rest past
    it if that is still too long. *)
Definition Write (p : bytes) : M writer bool := fun w =>
  if failed w then Done (false, w)
  else if decide (length p <= available w)%nat then Done (true, append p w)
  else if bool_decide (buffered w = []) then
    let w' := send p w in Done (negb (failed w'), w')
  else
    let n := available w in
    match Flush (append (take n p) w) with
    | Done (true, w1) =>
        let p' := drop n p in
        if decide (length p' <= available w1)%nat then Done (true, append p' w1)
        else let w' := send p' w1 in Done (negb (failed w'), w')
    | r => r
    end.

(** Everything written so far, delivered or not. *)
Definition stream (w : writer) : bytes := sent w ++ buffered w.

(** A healthy writer: no error yet, the peer takes everything. *)
Definition healthy (w : writer) : Prop := failed w = false /\ room w = None.

Lemma send_healthy p w : healthy w ->
  send p w = Writer (sent w ++ p) (buffered w) None false.
Proof.
  intros [Hf Hr]. unfold send, taken, less_room. rewrite Hr, take_ge by lia.
  by rewrite bool_decide_eq_false_2 by lia.
Qed.

Lemma Flush_healthy w : healthy w -> Flush w = Done (true, Writer (stream w) [] None false).
Proof.
  intros Hw. pose proof Hw as [Hf Hr]. unfold Flush, stream. rewrite Hf.
  destruct (bool_decide_reflect (buffered w = [])) as [E|E].
  - rewrite E, app_nil_r. destruct w. simpl in *. by subst.
  - rewrite send_healthy by done. simpl. unfold taken. by rewrite Hr, drop_ge by lia.
Qed.

Lemma Write_healthy p w : healthy w ->
  exists w', Write p w = Done (true, w') /\ healthy w' /\ stream w' = stream w ++ p.
Proof.
  intros Hw. pose proof Hw as [Hf Hr]. unfold Write. rewrite Hf. unfold stream.
  case_decide; [exists (append p w); simpl; by rewrite <- app_assoc|].
  destruct (bool_decide_reflect (buffered w = [])) as [E|E].
  - rewrite send_healthy by done. simpl. eexists. split; [done|]. simpl. rewrite E, !app_nil_r. done.
  - rewrite Flush_healthy by done. unfold stream, append at 1 2. cbn [sent buffered].
    set (w1 := Writer _ [] None false). destruct (decide (length (drop (available w) p) <= available w1)%nat).
    + eexists. split; [reflexivity|]. simpl. rewrite <- !app_assoc. simpl. by rewrite take_drop.
    + rewrite send_healthy by done. eexists. split; [reflexivity|]. simpl.
      rewrite <- !app_assoc, app_nil_r. by rewrite take_drop.
Qed.
