(* ===== verification/Protocol.v ===== *)
(** * The wire protocol ([src/internal/protocol/protocol.go])

    [ReadCommand] reads one command line, and for [set] and [cas] the value
    that follows it, from a connection.  An error is a value of [perr]; the
    allocation of the value buffer can panic. *)

From S2P Require Import Prelude Strconv GoStrings Bufio.

Definition MaxKeyBytes : Z := 250.

(** ** Data *)

Module Cmd.
Inductive Op :=
| OpGet | OpSet | OpDelete | OpIncr | OpPing | OpAuth | OpMget | OpGets | OpCas | OpStats.
End Cmd.

Record Command := MkCommand {
  cmd_Op : Cmd.Op;
  cmd_Key : bytes;
  cmd_Keys : list bytes;
  cmd_Value : bytes;
  cmd_TTLSeconds : Z;
  cmd_Delta : Z;
  cmd_Token : bytes;
  cmd_CAS : Z
}.

Global Instance Op_eq_dec : EqDecision Cmd.Op.
Proof. solve_decision. Defined.
Global Instance Command_eq_dec : EqDecision Command.
Proof. solve_decision. Defined.

(** The composite literals of the parser, with the fields they set. *)
Definition cmd_plain (o : Cmd.Op) : Command := MkCommand o [] [] [] 0 0 [] 0.
Definition cmd_auth (token : bytes) : Command := MkCommand Cmd.OpAuth [] [] [] 0 0 token 0.
Definition cmd_key (o : Cmd.Op) (key : bytes) : Command := MkCommand o key [] [] 0 0 [] 0.
Definition cmd_set (key value : bytes) (ttl : Z) : Command :=
  MkCommand Cmd.OpSet key [] value ttl 0 [] 0.
Definition cmd_incr (key : bytes) (delta : Z) : Command :=
  MkCommand Cmd.OpIncr key [] [] 0 delta [] 0.
Definition cmd_keys (o : Cmd.Op) (keys : list bytes) : Command := MkCommand o [] keys [] 0 0 [] 0.
Definition cmd_cas (key value : bytes) (ttl version : Z) : Command :=
  MkCommand Cmd.OpCas key [] value ttl 0 [] version.

(** [protocolError(message)] wraps [ErrProtocol]; read errors pass through. *)
Inductive perr := ErrProtocol (message : bytes) | ErrRead (e : read_error).

(** ** Tokens *)

Definition validKey (key : bytes) : bool :=
  if bool_decide (key = []) || (MaxKeyBytes <? len key) then false
  else negb (existsb (fun r => (r <=? 32) || (r =? 127)) (runes key)).

Definition validToken (token : bytes) : bool := validKey token.

Definition parseUintToken (token name : bytes) : Z + perr :=
  if bool_decide (token = []) then inr (ErrProtocol (name ++ " must be an unsigned integer"))
  else if existsb (fun r => (r <? 48) || (57 <? r)) (runes token)
  then inr (ErrProtocol (name ++ " must be an unsigned integer"))
  else match ParseUint token with
       | inr _ => inr (ErrProtocol (name ++ " is too large"))
       | inl value => inl value
       end.

Definition parseByteCount (token : bytes) : Z + perr :=
  match parseUintToken token "byte count" with
  | inr err => inr err
  | inl value =>
      if MaxInt64 <? value then inr (ErrProtocol "byte count is too large") else inl value
  end.

Definition keysFromFields (fields : list bytes) : list bytes + perr :=
  match fields with
  | [] => inr (ErrProtocol "at least one key is required")
  | _ => if forallb validKey fields then inl fields else inr (ErrProtocol "invalid key")
  end.

(** ** Reading *)

Definition readLineSlice : M reader (bytes + perr) :=
  r ← ReadSlice "010"%char;
  mret (match r with
        | inl line => inl line
        | inr ErrBufferFull => inr (ErrProtocol "command line too long")
        | inr (ReadErr e) => inr (ErrRead e)
        end).

Definition fail (message : bytes) : M reader (Command + perr) := mret (inr (ErrProtocol message)).

(** The block that [set] and [cas] share: allocate [size+2] bytes, fill them,
    check the trailing CRLF, and build the command from the first [size]. *)
Definition read_value (size : Z) (build : bytes -> Command) : M reader (Command + perr) :=
  r ← make_read (int64 (size + 2));
  match r with
  | None => fail "incomplete value"
  | Some value =>
      if bool_decide (value !! Z.to_nat size = Some "013"%char) &&
         bool_decide (value !! Z.to_nat (size + 1) = Some "010"%char)
      then mret (inl (build (take (Z.to_nat size) value)))
      else fail "value must end with CRLF"
  end.

(** [case "set":], on [fields[1:]]. *)
Definition read_set (args : list bytes) : M reader (Command + perr) :=
  let usage := fail "usage: set <key> [ttl-seconds] <bytes>" in
  let body key ttlSeconds sizeToken :=
    match parseByteCount sizeToken with
    | inr err => mret (inr err)
    | inl size => read_value size (fun value => cmd_set key value ttlSeconds)
    end in
  match args with
  | [key; sizeToken] => if negb (validKey key) then usage else body key 0 sizeToken
  | [key; ttlToken; sizeToken] =>
      if negb (validKey key) then usage
      else match parseUintToken ttlToken "TTL" with
           | inr err => mret (inr err)
           | inl ttl => body key ttl sizeToken
           end
  | _ => usage
  end.

(** [case "cas":], on [fields[1:]]. *)
Definition read_cas (args : list bytes) : M reader (Command + perr) :=
  let usage := fail "usage: cas <key> [<ttl-seconds>] <cas-version> <bytes>" in
  let body key ttlSeconds versionToken sizeToken :=
    match parseUintToken versionToken "cas-version" with
    | inr err => mret (inr err)
    | inl version =>
        match parseByteCount sizeToken with
        | inr err => mret (inr err)
        | inl size => read_value size (fun value => cmd_cas key value ttlSeconds version)
        end
    end in
  match args with
  | [key; versionToken; sizeToken] =>
      if negb (validKey key) then usage else body key 0 versionToken sizeToken
  | [key; ttlToken; versionToken; sizeToken] =>
      if negb (validKey key) then usage
      else match parseUintToken ttlToken "TTL" with
           | inr err => mret (inr err)
           | inl ttl => body key ttl versionToken sizeToken
           end
  | _ => usage
  end.

(** The [switch] on the command word. *)
Definition dispatch (word : bytes) (args : list bytes) : M reader (Command + perr) :=
  if lower_is word "ping" then
    match args with [] => mret (inl (cmd_plain Cmd.OpPing)) | _ => fail "usage: ping" end
  else if lower_is word "auth" then
    match args with
    | [token] => if validToken token then mret (inl (cmd_auth token)) else fail "usage: auth <token>"
    | _ => fail "usage: auth <token>"
    end
  else if lower_is word "get" then
    match args with
    | [key] => if validKey key then mret (inl (cmd_key Cmd.OpGet key)) else fail "usage: get <key>"
    | _ => fail "usage: get <key>"
    end
  else if lower_is word "set" then read_set args
  else if lower_is word "delete" then
    match args with
    | [key] => if validKey key then mret (inl (cmd_key Cmd.OpDelete key))
               else fail "usage: delete <key>"
    | _ => fail "usage: delete <key>"
    end
  else if lower_is word "incr" then
    match args with
    | [key; deltaToken] =>
        if negb (validKey key) then fail "usage: incr <key> <delta>"
        else match parseUintToken deltaToken "delta" with
             | inr err => mret (inr err)
             | inl delta => mret (inl (cmd_incr key delta))
             end
    | _ => fail "usage: incr <key> <delta>"
    end
  else if lower_is word "stats" then
    match args with [] => mret (inl (cmd_plain Cmd.OpStats)) | _ => fail "usage: stats" end
  else if lower_is word "mget" then
    mret (match keysFromFields args with
          | inr err => inr err
          | inl keys => inl (cmd_keys Cmd.OpMget keys)
          end)
  else if lower_is word "gets" then
    mret (match keysFromFields args with
          | inr err => inr err
          | inl keys => inl (cmd_keys Cmd.OpGets keys)
          end)
  else if lower_is word "cas" then read_cas args
  else fail "unknown command".

Definition ReadCommand : M reader (Command + perr) :=
  r ← readLineSlice;
  match r with
  | inr err => mret (inr err)
  | inl lineBytes =>
      if (len lineBytes <? 2) ||
         negb (bool_decide (lineBytes !! (length lineBytes - 2)%nat = Some "013"%char))
      then fail "command line must end with CRLF"
      else
        let line := take (length lineBytes - 2) lineBytes in
        match Fields line with
        | [] => fail "empty command"
        | word :: args => dispatch word args
        end
  end.

(** ** Encoding: how a client writes a command *)

Definition CRLF : bytes := ["013"%char; "010"%char].

(** The words of the command line. *)
Definition words (c : Command) : list bytes :=
  match cmd_Op c with
  | Cmd.OpPing => ["ping"]
  | Cmd.OpStats => ["stats"]
  | Cmd.OpAuth => ["auth"; cmd_Token c]
  | Cmd.OpGet => ["get"; cmd_Key c]
  | Cmd.OpDelete => ["delete"; cmd_Key c]
  | Cmd.OpIncr => ["incr"; cmd_Key c; FormatUint (cmd_Delta c)]
  | Cmd.OpMget => "mget" :: cmd_Keys c
  | Cmd.OpGets => "gets" :: cmd_Keys c
  | Cmd.OpSet => ["set"; cmd_Key c; FormatUint (cmd_TTLSeconds c); FormatUint (len (cmd_Value c))]
  | Cmd.OpCas => ["cas"; cmd_Key c; FormatUint (cmd_TTLSeconds c); FormatUint (cmd_CAS c);
                  FormatUint (len (cmd_Value c))]
  end.

(** The value block that follows the line. *)
Definition payload (c : Command) : bytes :=
  match cmd_Op c with Cmd.OpSet | Cmd.OpCas => cmd_Value c ++ CRLF | _ => [] end.

Definition encode (c : Command) : bytes := join (words c) ++ CRLF ++ payload c.

(** ** Well-formed commands *)

Definition is_uint64 (n : Z) : bool := between 0 MaxUint64 n.
Definition key_wf (k : bytes) : bool := validKey k && token k.
Definition value_wf (v : bytes) : bool := len v + 2 <=? maxAlloc.

(** Exactly the fields of its kind are set, keys are valid and free of white
    space, numbers are [uint64]s and the value can be allocated. *)
Definition command_wf (c : Command) : bool :=
  match cmd_Op c with
  | Cmd.OpPing | Cmd.OpStats => bool_decide (c = cmd_plain (cmd_Op c))
  | Cmd.OpAuth => bool_decide (c = cmd_auth (cmd_Token c)) && key_wf (cmd_Token c)
  | Cmd.OpGet | Cmd.OpDelete => bool_decide (c = cmd_key (cmd_Op c) (cmd_Key c)) && key_wf (cmd_Key c)
  | Cmd.OpIncr => bool_decide (c = cmd_incr (cmd_Key c) (cmd_Delta c)) && key_wf (cmd_Key c) &&
      is_uint64 (cmd_Delta c)
  | Cmd.OpMget | Cmd.OpGets => bool_decide (c = cmd_keys (cmd_Op c) (cmd_Keys c)) &&
      negb (bool_decide (cmd_Keys c = [])) && forallb key_wf (cmd_Keys c)
  | Cmd.OpSet => bool_decide (c = cmd_set (cmd_Key c) (cmd_Value c) (cmd_TTLSeconds c)) &&
      key_wf (cmd_Key c) && is_uint64 (cmd_TTLSeconds c) && value_wf (cmd_Value c)
  | Cmd.OpCas => bool_decide (c = cmd_cas (cmd_Key c) (cmd_Value c) (cmd_TTLSeconds c) (cmd_CAS c)) &&
      key_wf (cmd_Key c) && is_uint64 (cmd_TTLSeconds c) && is_uint64 (cmd_CAS c) && value_wf (cmd_Value c)
  end.

(** The command line, with its CRLF, fits the read buffer.  Only [mget] and
    [gets] can be longer. *)
Definition line_fits (c : Command) : bool := len (join (words c)) + 2 <=? Z.of_nat bufSize.

(** ** Tokens at the byte level *)

Lemma validKey_spec key :
  validKey key = true <->
  1 <= len key <= MaxKeyBytes /\ forall b, b ∈ key -> 32 < byteZ b /\ byteZ b <> 127.
Proof.
  unfold validKey. rewrite existsb_runes by (intros r Hr; ranges; zcase; done || lia).
  assert (Hk : key = [] <-> len key = 0).
  { unfold len. destruct key; simpl; split; intros; done || lia. }
  pose proof (len_nonneg key). destruct (bool_decide_reflect (key = [])) as [E|E]; cbn [orb].
  { split; [done|]. intros [? _]. apply Hk in E. lia. }
  destruct (Z.ltb_spec MaxKeyBytes (len key)); [split; [done|]; intros [? _]; lia|].
  rewrite negb_true_iff. split.
  - intros Hn. split; [assert (len key <> 0) by tauto; lia|]. intros b Hb.
    apply (existsb_false_elem _ _ _ Hn) in Hb. apply orb_false_iff in Hb as [?%Z.leb_gt ?%Z.eqb_neq]. done.
  - intros [_ Hb]. destruct (existsb _ key) eqn:E2; [|done].
    apply existsb_exists in E2 as (b & Hin%list_elem_of_In & Hf). apply Hb in Hin as [H1 H2].
    apply orb_prop in Hf as [?%Z.leb_le|?%Z.eqb_eq]; lia.
Qed.

Lemma digits_range s : forallb is_digit s = true -> forall c, c ∈ s -> 48 <= byteZ c <= 57.
Proof.
  rewrite forallb_forall. intros Hs c Hc%list_elem_of_In%Hs. unfold is_digit in Hc.
  apply andb_prop in Hc as [?%Z.leb_le ?%Z.leb_le]. done.
Qed.

(** [parseUintToken] is [ParseUint] with the protocol's messages. *)
Lemma parseUintToken_spec t name n : parseUintToken t name = inl n <-> ParseUint t = inl n.
Proof.
  unfold parseUintToken. rewrite existsb_runes_high by (intros r Hr; repeat zcase; done || lia).
  destruct (bool_decide_reflect (t = [])) as [->|Ht]; [done|].
  destruct (existsb _ t) eqn:E; [|destruct (ParseUint t); split; by intros [= ->] || done].
  split; [done|]. intros (_ & Hd & _)%ParseUint_spec. exfalso.
  apply existsb_exists in E as (c & Hc%list_elem_of_In & Hf).
  pose proof (digits_range _ Hd _ Hc). apply orb_prop in Hf as [?%Z.ltb_lt|?%Z.ltb_lt]; lia.
Qed.

Lemma parseUintToken_FormatUint n name :
  is_uint64 n = true -> parseUintToken (FormatUint n) name = inl n.
Proof.
  unfold is_uint64. intros Hn. apply parseUintToken_spec, ParseUint_FormatUint.
  destruct (between_spec 0 MaxUint64 n); done.
Qed.

Lemma FormatUint_token n : is_uint64 n = true -> token (FormatUint n) = true.
Proof.
  unfold is_uint64. destruct (between_spec 0 MaxUint64 n) as [Hn|]; [|done]. intros _.
  destruct (FormatUint_spec n Hn) as (Hne & Hd & _). apply visible_token; [done|].
  apply forallb_forall. intros c Hc%list_elem_of_In. pose proof (digits_range _ Hd _ Hc).
  unfold visible. ranges; done || lia.
Qed.

Lemma parseByteCount_FormatUint n :
  0 <= n <= MaxInt64 -> parseByteCount (FormatUint n) = inl n.
Proof.
  intros Hn. unfold parseByteCount. rewrite parseUintToken_FormatUint.
  - zcase; [lia|done].
  - unfold is_uint64, MaxUint64, MaxInt64 in *. ranges; done || lia.
Qed.

(** ** Reading what a client writes *)

Lemma int64_add2 n : 0 <= n -> n + 2 <= MaxInt64 -> int64 (n + 2) = n + 2.
Proof. intros. apply int64_id. lia. Qed.

Lemma maxAlloc_lt : maxAlloc < MaxInt64 - 2.
Proof. done. Qed.

Lemma read_value_ok v build rest e :
  value_wf v = true ->
  read_value (len v) build (Reader (v ++ CRLF ++ rest) e) = Done (inl (build v), Reader rest e).
Proof.
  intros Hv%Z.leb_le. pose proof maxAlloc_lt. pose proof (len_nonneg v).
  unfold read_value, mbind, M_bind. rewrite int64_add2 by lia. rewrite app_assoc.
  rewrite (make_read_exact (len v + 2)); [|rewrite len_app; done|lia].
  rewrite (bool_decide_eq_true_2 (_ !! Z.to_nat (len v) = _)), (bool_decide_eq_true_2 (_ = _)).
  - cbn [andb]. unfold len. rewrite Nat2Z.id, take_app_length. done.
  - unfold len. rewrite lookup_app_r by lia.
    by replace (Z.to_nat (Z.of_nat (length v) + 1) - length v)%nat with 1%nat by lia.
  - unfold len. rewrite Nat2Z.id, lookup_app_r, Nat.sub_diag by lia. done.
Qed.

(** A command line of tokens reaches the dispatcher as those tokens. *)
Lemma ReadCommand_line word args rest e :
  forallb token (word :: args) = true ->
  len (join (word :: args)) + 2 <= Z.of_nat bufSize ->
  ReadCommand (Reader (join (word :: args) ++ CRLF ++ rest) e) = dispatch word args (Reader rest e).
Proof.
  intros Ht Hl. pose proof (join_no_newline _ Ht) as Hn. pose proof (Fields_join _ Ht) as Hf.
  set (l := join (word :: args)) in *. unfold ReadCommand, readLineSlice, mbind, M_bind.
  replace (l ++ CRLF ++ rest) with ((l ++ ["013"%char]) ++ ["010"%char] ++ rest) by (by rewrite <- app_assoc).
  rewrite ReadSlice_line.
  2:{ rewrite not_elem_of_app. split; [done|]. intros ?%list_elem_of_singleton. discriminate. }
  2:{ rewrite length_app. unfold len in Hl. cbn [length]. lia. }
  unfold mret, M_ret. rewrite <- app_assoc. unfold len. rewrite length_app. cbn [length app].
  destruct (Z.ltb_spec (Z.of_nat (length l + 2)) 2); [lia|].
  replace (length l + 2 - 2)%nat with (length l) by lia.
  rewrite lookup_app_r, Nat.sub_diag by lia. cbn [lookup list_lookup].
  rewrite bool_decide_eq_true_2 by done. cbn [negb orb]. by rewrite take_app_length, Hf.
Qed.

(** Decide the comparisons of a concrete command word. *)
Ltac known_word :=
  unfold dispatch;
  repeat match goal with
  | |- context [lower_is ?w ?x] =>
      let v := eval vm_compute in (lower_is w x) in
      replace (lower_is w x) with v by (vm_compute; reflexivity)
  end; cbv iota.

(** Split the conjuncts of a well-formedness test. *)
Ltac split_wf :=
  repeat match goal with
  | H : _ && _ = true |- _ => apply andb_prop in H as [? ?]
  | H : bool_decide _ = true |- _ => apply bool_decide_eq_true in H
  | H : negb (bool_decide _) = true |- _ => apply negb_true_iff, bool_decide_eq_false in H
  | H : key_wf _ = true |- _ => apply andb_prop in H as [? ?]
  end.

Lemma value_size v : value_wf v = true -> 0 <= len v <= MaxInt64 /\ is_uint64 (len v) = true.
Proof.
  intros Hv%Z.leb_le. pose proof maxAlloc_lt. pose proof (len_nonneg v).
  split; [lia|]. unfold is_uint64, MaxUint64, MaxInt64 in *. ranges; done || lia.
Qed.

Lemma words_tokens c : command_wf c = true -> forallb token (words c) = true.
Proof.
  unfold command_wf, words. destruct (cmd_Op c); intros Hwf; split_wf; cbn [forallb];
    repeat match goal with
    | H : token _ = true |- _ => rewrite H
    | H : is_uint64 _ = true |- _ => rewrite (FormatUint_token _ H)
    | H : value_wf ?v = true |- _ => rewrite (FormatUint_token _ (proj2 (value_size v H))); clear H
    end; try reflexivity.
  all: change (token _ && ?b) with b; apply forallb_forall; intros k Hk;
    match goal with H : forallb key_wf _ = true |- _ => rewrite forallb_forall in H; apply H in Hk end;
    split_wf; done.
Qed.

Lemma keysFromFields_wf keys :
  keys <> [] -> forallb key_wf keys = true -> keysFromFields keys = inl keys.
Proof.
  intros Hne Hk. unfold keysFromFields. destruct keys as [|k keys]; [done|].
  replace (forallb validKey (k :: keys)) with true; [done|]. symmetry. apply forallb_forall.
  rewrite forallb_forall in Hk. intros x Hx%Hk. by split_wf.
Qed.

Lemma dispatch_encode c word args rest e :
  command_wf c = true -> words c = word :: args ->
  dispatch word args (Reader (payload c ++ rest) e) = Done (inl c, Reader rest e).
Proof.
  unfold command_wf, words, payload. destruct c as [o key keys value ttl delta tok version].
  cbn [cmd_Op cmd_Key cmd_Keys cmd_Value cmd_TTLSeconds cmd_Delta cmd_Token cmd_CAS].
  destruct o; intros Hwf [= <- <-]; known_word; split_wf;
    match goal with H : MkCommand _ _ _ _ _ _ _ _ = _ |- _ => injection H as; subst end;
    unfold validToken, read_set, read_cas;
    repeat match goal with
    | H : validKey _ = true |- _ => rewrite H; clear H
    | H : value_wf _ = true |- context [parseByteCount] =>
        rewrite parseByteCount_FormatUint by apply (value_size _ H)
    | H : is_uint64 _ = true |- _ => rewrite (parseUintToken_FormatUint _ _ H); clear H
    end; cbn [negb]; try done.
  - rewrite <- app_assoc. by apply read_value_ok.
  - by rewrite keysFromFields_wf.
  - by rewrite keysFromFields_wf.
  - rewrite <- app_assoc. by apply read_value_ok.
Qed.

(** One well-formed command is read back, and nothing beyond it is consumed. *)
Lemma ReadCommand_encode c rest e :
  command_wf c = true -> line_fits c = true ->
  ReadCommand (Reader (encode c ++ rest) e) = Done (inl c, Reader rest e).
Proof.
  intros Hwf Hfit%Z.leb_le. pose proof (words_tokens c Hwf) as Ht.
  destruct (words c) as [|word args] eqn:E; [by destruct c as [[]]|].
  unfold encode. rewrite E in *. rewrite <- !app_assoc. rewrite ReadCommand_line by done.
  by apply dispatch_encode.
Qed.

(** ** What the parser accepts *)

(** The buffer length either is [size+2] or wraps around to a negative number. *)
Lemma int64_add2_cases n : 0 <= n <= MaxInt64 -> int64 (n + 2) = n + 2 \/ int64 (n + 2) < 0.
Proof.
  intros Hn. destruct (Z.le_gt_cases (n + 2) MaxInt64); [left; apply int64_id; lia|right].
  unfold int64, MaxInt64 in *. Z.to_euclidean_division_equations. lia.
Qed.

Lemma read_value_inv size build s e c r' :
  0 <= size <= MaxInt64 -> read_value size build (Reader s e) = Done (inl c, r') ->
  exists v, c = build v /\ value_wf v = true /\ s = v ++ CRLF ++ unread r' /\ rd_err r' = e.
Proof.
  intros Hs. unfold read_value, make_read, mbind, M_bind.
  destruct (int64_add2_cases size Hs) as [->|Hneg].
  2:{ destruct (Z.ltb_spec (int64 (size + 2)) 0); [done|lia]. }
  destruct (Z.ltb_spec (size + 2) 0); [lia|].
  destruct (Z.ltb_spec maxAlloc (size + 2)); [done|]. cbn [orb].
  unfold gets, consume, modify, mret, M_ret, fail. cbn [unread rd_err].
  destruct (Z.leb_spec (size + 2) (len s)) as [Hl|]; [|done].
  replace (Z.to_nat (size + 2)) with (S (S (Z.to_nat size))) by lia.
  replace (Z.to_nat (size + 1)) with (S (Z.to_nat size)) by lia. set (n := Z.to_nat size).
  destruct (bool_decide_reflect (take (S (S n)) s !! n = Some "013"%char)) as [C1|]; [|done].
  destruct (bool_decide_reflect (take (S (S n)) s !! S n = Some "010"%char)) as [C2|]; [|done].
  cbn [andb]. intros [= <- <-]. cbn [unread rd_err]. rewrite lookup_take_lt in C1, C2 by lia.
  exists (take n s). rewrite take_take, Nat.min_l by lia. split_and!; [done| | |done].
  - apply Z.leb_le. unfold len in *. rewrite length_take. lia.
  - rewrite <- (take_drop (S (S n)) s) at 1. rewrite (take_S_r _ _ _ C2), (take_S_r _ _ _ C1).
    by rewrite <- !app_assoc.
Qed.

Lemma parseByteCount_inv t n : parseByteCount t = inl n -> 0 <= n <= MaxInt64.
Proof.
  unfold parseByteCount. destruct (parseUintToken t "byte count") as [m|] eqn:E; [|done].
  apply parseUintToken_spec, ParseUint_range in E. zcase; [done|]. intros [= <-]. lia.
Qed.

Lemma parseUintToken_inv t name n : parseUintToken t name = inl n -> is_uint64 n = true.
Proof.
  intros Hn%parseUintToken_spec%ParseUint_range. unfold is_uint64. ranges; done || lia.
Qed.

(** A command was built from valid parts and the value bytes were consumed. *)
Definition accepted (s : bytes) (e : read_error) (c : Command) (r' : reader) : Prop :=
  command_wf c = true /\ rd_err r' = e /\ s = payload c ++ unread r'.

Lemma read_set_inv args s e c r' :
  forallb token args = true -> read_set args (Reader s e) = Done (inl c, r') -> accepted s e c r'.
Proof.
  intros Ht. unfold read_set.
  assert (Hbody : forall key ttl t, validKey key = true -> token key = true -> is_uint64 ttl = true ->
    match parseByteCount t with
    | inr err => mret (inr err)
    | inl size => read_value size (fun value => cmd_set key value ttl)
    end (Reader s e) = Done (inl c, r') -> accepted s e c r').
  { intros key ttl t Hk Hkt Httl. destruct (parseByteCount t) as [size|] eqn:E; [|done].
    intros (v & -> & Hv & -> & He)%read_value_inv; [|by eapply parseByteCount_inv].
    split_and!; [|done|exact (app_assoc _ _ _)]. unfold command_wf, key_wf. simpl.
    rewrite Hk, Hkt, Httl, Hv. by rewrite bool_decide_eq_true_2. }
  destruct args as [|key [|t1 [|t2 [|]]]]; try done; cbn [forallb] in Ht;
    apply andb_prop in Ht as [Hk _]; destruct (validKey key) eqn:V; cbn [negb]; try done.
  - by apply Hbody.
  - destruct (parseUintToken t1 "TTL") as [ttl|] eqn:E; [|done].
    apply Hbody; [done..|]. by eapply parseUintToken_inv.
Qed.

Lemma read_cas_inv args s e c r' :
  forallb token args = true -> read_cas args (Reader s e) = Done (inl c, r') -> accepted s e c r'.
Proof.
  intros Ht. unfold read_cas.
  assert (Hbody : forall key ttl t1 t2, validKey key = true -> token key = true -> is_uint64 ttl = true ->
    match parseUintToken t1 "cas-version" with
    | inr err => mret (inr err)
    | inl version =>
        match parseByteCount t2 with
        | inr err => mret (inr err)
        | inl size => read_value size (fun value => cmd_cas key value ttl version)
        end
    end (Reader s e) = Done (inl c, r') -> accepted s e c r').
  { intros key ttl t1 t2 Hk Hkt Httl. destruct (parseUintToken t1 _) as [version|] eqn:E1; [|done].
    apply parseUintToken_inv in E1. destruct (parseByteCount t2) as [size|] eqn:E; [|done].
    intros (v & -> & Hv & -> & He)%read_value_inv; [|by eapply parseByteCount_inv].
    split_and!; [|done|exact (app_assoc _ _ _)]. unfold command_wf, key_wf. simpl.
    rewrite Hk, Hkt, Httl, E1, Hv. by rewrite bool_decide_eq_true_2. }
  destruct args as [|key [|t1 [|t2 [|t3 [|]]]]]; try done; cbn [forallb] in Ht;
    apply andb_prop in Ht as [Hk _]; destruct (validKey key) eqn:V; cbn [negb]; try done.
  - by apply Hbody.
  - destruct (parseUintToken t1 "TTL") as [ttl|] eqn:E; [|done].
    apply Hbody; [done..|]. by eapply parseUintToken_inv.
Qed.

Lemma keysFromFields_inv fields keys :
  forallb token fields = true -> keysFromFields fields = inl keys ->
  keys = fields /\ keys <> [] /\ forallb key_wf keys = true.
Proof.
  unfold keysFromFields. destruct fields as [|f fs]; [done|]. intros Ht.
  destruct (forallb validKey (f :: fs)) eqn:V; [|done]. intros [= <-]. split_and!; [done..|].
  apply forallb_forall. intros k Hk. rewrite forallb_forall in Ht, V. unfold key_wf.
  by rewrite Ht, V.
Qed.

(** Close a branch that builds a command without a value. *)
Local Ltac plain_command :=
  let H := fresh in
  unfold mret, M_ret; intros H; injection H as <- <-; split_and!; [|done|done];
  unfold command_wf, key_wf; cbn [forallb] in *; split_wf; simpl;
  repeat match goal with
  | H : validKey _ = true |- _ => rewrite H; clear H
  | H : token _ = true |- _ => rewrite H; clear H
  | H : is_uint64 _ = true |- _ => rewrite H; clear H
  | H : forallb key_wf _ = true |- _ => unfold key_wf in H; rewrite H; clear H
  | H : ?k <> [] |- _ => rewrite (bool_decide_eq_false_2 (k = [])) by done; clear H
  end; rewrite ?bool_decide_eq_true_2 by done; done.

Lemma dispatch_inv word args s e c r' :
  forallb token args = true -> dispatch word args (Reader s e) = Done (inl c, r') -> accepted s e c r'.
Proof.
  intros Ht. unfold dispatch, validToken.
  destruct (lower_is word "ping"); [destruct args; [plain_command|done]|].
  destruct (lower_is word "auth").
  { destruct args as [|k []]; [done| |done]. destruct (validKey k) eqn:V; [|done]. plain_command. }
  destruct (lower_is word "get").
  { destruct args as [|k []]; [done| |done]. destruct (validKey k) eqn:V; [|done]. plain_command. }
  destruct (lower_is word "set"); [by apply read_set_inv|].
  destruct (lower_is word "delete").
  { destruct args as [|k []]; [done| |done]. destruct (validKey k) eqn:V; [|done]. plain_command. }
  destruct (lower_is word "incr").
  { destruct args as [|k [|d []]]; try done. destruct (validKey k) eqn:V; cbn [negb]; [|done].
    destruct (parseUintToken d "delta") eqn:E; [|done]. apply parseUintToken_inv in E. plain_command. }
  destruct (lower_is word "stats"); [destruct args; [plain_command|done]|].
  destruct (lower_is word "mget").
  { destruct (keysFromFields args) as [keys|] eqn:E; [|done].
    apply keysFromFields_inv in E as (_ & Hne & Hk); [|done]. plain_command. }
  destruct (lower_is word "gets").
  { destruct (keysFromFields args) as [keys|] eqn:E; [|done].
    apply keysFromFields_inv in E as (_ & Hne & Hk); [|done]. plain_command. }
  destruct (lower_is word "cas"); [by apply read_cas_inv|done].
Qed.

(** ** The command line *)

Lemma CRLF_line (l : bytes) :
  (2 <= length (l ++ ["010"%char]))%nat ->
  (l ++ ["010"%char]) !! (length (l ++ ["010"%char]) - 2)%nat = Some "013"%char ->
  exists line, l = line ++ ["013"%char] /\ take (length (l ++ ["010"%char]) - 2) (l ++ ["010"%char]) = line.
Proof.
  rewrite length_app. cbn [length]. intros Hl Hc. destruct l as [|x line _] using rev_ind; [simpl in Hl; lia|].
  rewrite length_app in *. cbn [length] in *.
  replace (length line + 1 + 1 - 2)%nat with (length line) in * by lia.
  rewrite <- app_assoc in *. rewrite lookup_app_r, Nat.sub_diag in Hc by lia. injection Hc as ->.
  exists line. by rewrite take_app_length.
Qed.

(** [ReadCommand] fails on the line, or dispatches on its fields. *)
Lemma ReadCommand_cases s e :
  (exists err r', ReadCommand (Reader s e) = Done (inr err, r')) \/
  (exists line rest word args, s = line ++ CRLF ++ rest /\ Fields line = word :: args /\
     ("010"%char ∉ line) /\ ReadCommand (Reader s e) = dispatch word args (Reader rest e)).
Proof.
  unfold ReadCommand, readLineSlice, mbind, M_bind.
  destruct (ReadSlice_cases "010"%char s e) as [(l & rest & -> & Hn & Hl & ->)|[(_ & _ & ->)|(_ & _ & ->)]];
    [|left; eauto..].
  unfold mret, M_ret.
  destruct (Z.ltb_spec (len (l ++ ["010"%char])) 2) as [|H2]; cbn [orb]; [left; unfold fail; eauto|].
  unfold len in H2.
  destruct (bool_decide_reflect ((l ++ ["010"%char]) !! (length (l ++ ["010"%char]) - 2)%nat =
    Some "013"%char)) as [Hc|]; cbn [negb]; [|left; unfold fail; eauto].
  apply CRLF_line in Hc as (line & -> & ->); [|lia].
  destruct (Fields line) as [|word args] eqn:E; [left; unfold fail; eauto|].
  right. exists line, rest, word, args. rewrite not_elem_of_app in Hn. rewrite <- !app_assoc. naive_solver.
Qed.

Lemma Fields_args line word args : Fields line = word :: args -> forallb token args = true.
Proof. intros Hf. pose proof (Fields_tokens line) as Ht. rewrite Hf in Ht. by apply andb_prop in Ht as [_ Ht]. Qed.

(** Byte counts whose buffer cannot be allocated. *)
Definition oversized (t : bytes) : Prop := exists n, ParseUint t = inl n /\ maxAlloc < n + 2.

Lemma read_value_panics t size build r :
  parseByteCount t = inl size -> read_value size build r = Panicked -> oversized t.
Proof.
  intros Hp Hr. pose proof (parseByteCount_inv _ _ Hp) as Hs. exists size.
  assert (ParseUint t = inl size) as ->.
  { unfold parseByteCount in Hp. destruct (parseUintToken t _) as [n|] eqn:E; [|done].
    apply parseUintToken_spec in E. destruct (MaxInt64 <? n); [done|]. congruence. }
  split; [done|]. revert Hr. unfold read_value, make_read, mbind, M_bind.
  pose proof maxAlloc_lt. destruct (int64_add2_cases size Hs) as [Heq|Hneg].
  - rewrite Heq. destruct (Z.ltb_spec (size + 2) 0); [lia|]. destruct (Z.ltb_spec maxAlloc (size + 2)); [done|].
    cbn [orb]. unfold gets, consume, modify, mret, M_ret, fail. simpl. by repeat case_match.
  - intros _. destruct (Z.le_gt_cases (size + 2) MaxInt64); [rewrite int64_id in Hneg by lia; lia|lia].
Qed.

(** The run completes, or panics and [P] says why. *)
Definition completes_or {A} (P : Prop) (o : outcome A) : Prop :=
  match o with Done _ => True | Panicked => P | OutOfFuel => False end.

Lemma read_value_total t size build r (P : Prop) :
  parseByteCount t = inl size -> (oversized t -> P) -> completes_or P (read_value size build r).
Proof.
  intros Hp HP. destruct (read_value size build r) eqn:E; [done| |].
  - by eapply HP, read_value_panics.
  - revert E. unfold read_value, make_read, mbind, M_bind, gets, consume, modify, mret, M_ret, fail.
    by repeat case_match.
Qed.

Lemma dispatch_total word args r :
  completes_or (exists t, t ∈ args /\ oversized t) (dispatch word args r).
Proof.
  unfold dispatch, read_set, read_cas, fail.
  repeat match goal with
  | |- completes_or _ (mret _ _) => exact I
  | |- completes_or _ (read_value _ _ _) =>
      eapply read_value_total; [done|]; intros Hx; eexists; split; [|exact Hx]; set_solver
  | |- context [match ?x with _ => _ end] => destruct x eqn:?
  end.
Qed.

(** An accepted command, the line it came on, and what was consumed. *)
Lemma ReadCommand_inv s e c r' :
  ReadCommand (Reader s e) = Done (inl c, r') ->
  command_wf c = true /\ rd_err r' = e /\
  exists line, s = line ++ CRLF ++ payload c ++ unread r' /\ ("010"%char ∉ line).
Proof.
  intros Hr. destruct (ReadCommand_cases s e)
    as [(err & r & Hc)|(line & rest & word & args & -> & Hf & Hn & Hc)].
  - rewrite Hc in Hr. discriminate.
  - rewrite Hc in Hr. apply dispatch_inv in Hr as (Hwf & He & ->); [|by eapply Fields_args].
    split_and!; [done..|]. exists line. done.
Qed.

(** Where the parser can panic. *)
Definition oversized_line (s : bytes) : Prop :=
  exists line rest t, s = line ++ CRLF ++ rest /\ t ∈ Fields line /\ oversized t.

Lemma ReadCommand_total s e : completes_or (oversized_line s) (ReadCommand (Reader s e)).
Proof.
  destruct (ReadCommand_cases s e)
    as [(err & r & ->)|(line & rest & word & args & -> & Hf & _ & ->)]; [done|].
  pose proof (dispatch_total word args (Reader rest e)) as Ht.
  destruct (dispatch word args (Reader rest e)); [done| |done].
  destruct Ht as (t & Hin & Hs). exists line, rest, t. rewrite Hf. set_solver.
Qed.

(** ** Theorems *)

Fixpoint ReadCommands (n : nat) : M reader (list (Command + perr)) :=
  match n with
  | O => mret []
  | S n' => c ← ReadCommand; cs ← ReadCommands n'; mret (c :: cs)
  end.

(** C8: Round trip with pipelining: whatever sequence of well-formed commands
    a client writes back to back, binary values included, the parser returns
    exactly those commands in order and leaves the bytes after them unread. *)
Theorem parse_pipeline (cs : list Command) (rest : bytes) (e : read_error) :
  forallb command_wf cs = true -> forallb line_fits cs = true ->
  ReadCommands (length cs) (Reader (concat (map encode cs) ++ rest) e) =
  Done (map inl cs, Reader rest e).
Proof.
  induction cs as [|c cs IH]; intros Hwf Hfit; [done|]. simpl in Hwf, Hfit.
  apply andb_prop in Hwf as [Hc Hwf], Hfit as [Hf Hfit]. cbn [map concat length ReadCommands].
  rewrite <- app_assoc. unfold mbind, M_bind. rewrite ReadCommand_encode by done.
  unfold mbind, M_bind in IH. rewrite IH by done. done.
Qed.

Lemma parse_pipeline_witness :
  let cs := [cmd_set "k" ["013"; "010"; "000"; "255"]%char 60; cmd_keys Cmd.OpMget ["k"; "other"];
             cmd_cas "k" "" 0 7; cmd_incr "n" 18446744073709551615] in
  ReadCommands 4 (Reader (concat (map encode cs) ++ "pin") EOF) = Done (map inl cs, Reader "pin" EOF).
Proof.
  intros cs. apply (parse_pipeline cs "pin" EOF); vm_compute; reflexivity.
Defined.

(** C12: Whatever bytes arrive, a command the parser returns is well formed:
    every key is 1 to 250 bytes without control characters or white space,
    every number is a [uint64], only the fields of its kind are set, and the
    bytes consumed are one CRLF-terminated line plus exactly the announced
    value and its CRLF. *)
Theorem parsed_command_wf (s : bytes) (e : read_error) (c : Command) (r' : reader) :
  ReadCommand (Reader s e) = Done (inl c, r') ->
  command_wf c = true /\ rd_err r' = e /\
  exists line, s = line ++ CRLF ++ payload c ++ unread r' /\ ("010"%char ∉ line).
Proof. apply ReadCommand_inv. Qed.

Lemma parsed_command_wf_witness :
  let s := "  SET  user:1 2" ++ CRLF ++ "hi" ++ CRLF ++ "get x" in
  exists r', ReadCommand (Reader s EOF) = Done (inl (cmd_set "user:1" "hi" 0), r') /\
    command_wf (cmd_set "user:1" "hi" 0) = true /\ rd_err r' = EOF /\
    exists line, s = line ++ CRLF ++ payload (cmd_set "user:1" "hi" 0) ++ unread r' /\ ("010"%char ∉ line).
Proof.
  intros s. exists (Reader "get x" EOF).
  assert (E : ReadCommand (Reader s EOF) = Done (inl (cmd_set "user:1" "hi" 0), Reader "get x" EOF))
    by (vm_compute; reflexivity).
  split; [exact E|]. exact (parsed_command_wf s EOF _ _ E).
Defined.

(** The key check, written over Unicode code points, is a check on bytes:
    a key is valid iff it has 1 to 250 bytes, none of them a control
    character, a space or DEL. *)
Theorem validKey_bytes (key : bytes) :
  validKey key = true <->
  1 <= len key <= MaxKeyBytes /\ forall b, b ∈ key -> 32 < byteZ b /\ byteZ b <> 127.
Proof. apply validKey_spec. Qed.

(** The parser always returns, on any input and any connection error; the
    only way it fails to is the run-time panic of the value allocation, and
    then some field of the line is a decimal number too large for a buffer. *)
Theorem parser_returns (s : bytes) (e : read_error) :
  completes_or (oversized_line s) (ReadCommand (Reader s e)).
Proof. apply ReadCommand_total. Qed.

(** C36: A single request line crashes the process: [set] with a byte count the
    parser accepts ([<= MaxInt64]) but [make] does not makes the goroutine
    panic, whatever follows and before any authentication. *)
Theorem oversized_set_panics (key : bytes) (n : Z) (rest : bytes) (e : read_error) :
  key_wf key = true -> maxAlloc < n + 2 -> n <= MaxInt64 ->
  ReadCommand (Reader (join ["set"; key; FormatUint n] ++ CRLF ++ rest) e) = Panicked.
Proof.
  intros [Hk Ht]%andb_prop Hn Hm. assert (H0 : 2 <= maxAlloc) by done.
  assert (Hu : is_uint64 n = true) by (unfold is_uint64, MaxUint64, MaxInt64 in *; ranges; done || lia).
  rewrite ReadCommand_line.
  - known_word. unfold read_set. rewrite Hk. cbn [negb]. rewrite parseByteCount_FormatUint by lia.
    unfold read_value, make_read, mbind, M_bind.
    destruct (int64_add2_cases n ltac:(lia)) as [->|Hneg].
    + destruct (Z.ltb_spec maxAlloc (n + 2)); [|lia]. by rewrite orb_true_r.
    + destruct (Z.ltb_spec (int64 (n + 2)) 0); [done|lia].
  - cbn [forallb]. rewrite Ht, (FormatUint_token n Hu). done.
  - apply validKey_spec in Hk as [Hlen _]. unfold MaxKeyBytes in Hlen.
    assert (Hf : len (FormatUint n) <= 20).
    { unfold is_uint64 in Hu. destruct (between_spec 0 MaxUint64 n) as [Hb|]; [|done].
      destruct (FormatUint_spec n Hb) as (_ & _ & _ & ?). unfold len. lia. }
    cbn [join]. rewrite !len_app.
    change (len "set") with 3. change (len " ") with 1. change (Z.of_nat bufSize) with 4096. lia.
Qed.

Lemma oversized_set_panics_witness :
  ReadCommand (Reader (join ["set"; "k"; FormatUint MaxInt64] ++ CRLF ++ []) EOF) = Panicked.
Proof.
  apply (oversized_set_panics "k" MaxInt64 [] EOF); vm_compute; congruence.
Defined.
