(* ===== verification/Server.v ===== *)
(** * Serving a connection ([src/internal/server/server.go])

    One connection is served by one goroutine: read a command, check
    authentication, execute it on the store, write the reply, flush.  The
    session state holds the server, the two ends of the connection and how
    often the goroutine was interrupted.  The server is shared: before each read
    of the clock, and before each counter and shard that [Stats] samples, other
    connections and the sweeper use it, which is part of the [environment] a
    goroutine runs in. *)

From S2P Require Import Prelude Strconv Float64 Shard Store StoreSpec GoStrings Bufio Protocol.

(** ** State *)

(** The operator-facing counters. *)
Inductive counter :=
| connectionsOpened | connectionsRejected | authFailures | clientErrors | serverErrors
| cmdGet | cmdSet | cmdDelete | cmdIncr | cmdMget | cmdGets | cmdCas | cmdStats | cmdAuth | cmdPing.

Global Instance counter_eq_dec : EqDecision counter.
Proof. solve_decision. Defined.

Record Server := MkServer {
  sv_store : Store;
  authToken : bytes;
  startedAt : Z;
  connectionsActive : Z;
  counts : counter -> Z
}.

(** [New(kv)] followed by [WithAuthToken]. *)
Definition NewServer (kv : Store) (token : bytes) (now : Z) : Server :=
  MkServer kv token now 0 (fun _ => 0).

(** What a goroutine shares with the others: the server, and how often it was
    interrupted so far. *)
Record shared := Shared { on_server : Server; steps : nat }.

Record session := Session { srv : Server; inp : reader; out : writer; ticks : nat }.

Definition shared_of (s : session) : shared := Shared (srv s) (ticks s).
Definition on_shared {A} (m : M shared A) : M session A :=
  zoom shared_of (fun x s => Session (on_server x) (inp s) (out s) (steps x)) m.

Definition on_reader {A} (m : M reader A) : M session A :=
  zoom inp (fun r s => Session (srv s) r (out s) (ticks s)) m.
Definition on_writer {A} (m : M writer A) : M session A :=
  zoom out (fun w s => Session (srv s) (inp s) w (ticks s)) m.
Definition on_store {A} (m : M Store A) : M session A :=
  zoom (fun s => sv_store (srv s))
    (fun kv s => let v := srv s in
       Session (MkServer kv (authToken v) (startedAt v) (connectionsActive v) (counts v))
         (inp s) (out s) (ticks s)) m.

(** [s.c.Add(1)] on an [atomic.Uint64]. *)
Definition bump_counter (c : counter) (f : counter -> Z) : counter -> Z :=
  fun d => if decide (d = c) then uint64 (f d + 1) else f d.
Definition Add1 (c : counter) : M session unit :=
  modify (fun s => let v := srv s in
    Session (MkServer (sv_store v) (authToken v) (startedAt v) (connectionsActive v)
               (bump_counter c (counts v))) (inp s) (out s) (ticks s)).

(** ** The other goroutines *)

(** What they do while a goroutine is interrupted: requests and sweeps on the
    store, increments of counters, connections opened less connections closed.
    Each is atomic, under a shard's mutex or on an atomic counter, and the
    goroutine sees none of them except through the store and [Stats]. *)
Record interference := Interference {
  i_events : list event;
  i_counts : list counter;
  i_active : Z
}.

(** What the others do in the [n]-th interruption, and the clock after it. *)
Record environment := Env { clock : nat -> Z; others : nat -> interference }.

(** A server with a single connection. *)
Definition quiet (clock : nat -> Z) : environment := Env clock (fun _ => Interference [] [] 0).

Definition interfere `{MapRange} (i : interference) : M shared unit :=
  zoom (fun x => sv_store (on_server x))
    (fun kv x => let v := on_server x in
       Shared (MkServer kv (authToken v) (startedAt v) (connectionsActive v) (counts v)) (steps x))
    (run_events (i_events i)) ;;
  modify (fun x => let v := on_server x in
    Shared (MkServer (sv_store v) (authToken v) (startedAt v) (int64 (connectionsActive v + i_active i))
              (foldl (fun f c => bump_counter c f) (counts v) (i_counts i))) (steps x)).

Section Pausing.
Context `{MapRange} (env : environment).

(** The others run. *)
Definition pause : M shared unit :=
  n ← gets steps;
  interfere (others env n) ;;
  modify (fun x => Shared (on_server x) (S n)).

(** [time.Now()]. *)
Definition read_clock : M shared Z := n ← gets steps; pause ;; mret (clock env n).

(** [s.c.Load()]. *)
Definition load_counter (c : counter) : M shared Z := pause ;; gets (fun x => counts (on_server x) c).
End Pausing.

(** ** Statistics *)

Record ServerStats := MkServerStats {
  ss_StartedAt : Z;
  ss_Uptime : Z;
  ss_ConnectionsOpened : Z;
  ss_ConnectionsActive : Z;
  ss_ConnectionsRejected : Z;
  ss_AuthFailures : Z;
  ss_ClientErrors : Z;
  ss_ServerErrors : Z;
  ss_CmdGet : Z;
  ss_CmdSet : Z;
  ss_CmdDelete : Z;
  ss_CmdIncr : Z;
  ss_CmdMget : Z;
  ss_CmdGets : Z;
  ss_CmdCas : Z;
  ss_CmdStats : Z;
  ss_CmdAuth : Z;
  ss_CmdPing : Z;
  ss_Store : Stats
}.

(** [Stats] of the server: the clock, then one counter after the other, then the
    store shard by shard, all while the others run. *)
Definition TakeStats `{MapRange} (env : environment) : M shared ServerStats :=
  started ← gets (fun x => startedAt (on_server x));
  now ← read_clock env;
  opened ← load_counter env connectionsOpened;
  active ← (pause env ;; gets (fun x => connectionsActive (on_server x)));
  rejected ← load_counter env connectionsRejected;
  failed ← load_counter env authFailures;
  client ← load_counter env clientErrors;
  server ← load_counter env serverErrors;
  get ← load_counter env cmdGet;
  set ← load_counter env cmdSet;
  delete ← load_counter env cmdDelete;
  incr ← load_counter env cmdIncr;
  mget ← load_counter env cmdMget;
  gets_ ← load_counter env cmdGets;
  cas ← load_counter env cmdCas;
  stats ← load_counter env cmdStats;
  auth ← load_counter env cmdAuth;
  ping ← load_counter env cmdPing;
  store ← StoreStats (fun x => sv_store (on_server x)) (pause env);
  mret (MkServerStats started (now - started) opened active rejected failed client server
          get set delete incr mget gets_ cas stats auth ping store).

(** What the functions return as a Go [error]; [None] is [nil]. *)
Inductive serr := WriteError | StoreError (e : error).
Abbreviation result := (option serr).

Definition write (p : bytes) : M session result :=
  ok ← on_writer (Write p); mret (if (ok : bool) then None else Some WriteError).

Definition flush : M session result :=
  ok ← on_writer Flush; mret (if (ok : bool) then None else Some WriteError).

(** [if err := m; err != nil { return err }; k] *)
Definition and_then (m k : M session result) : M session result :=
  r ← m; match r with None => k | Some e => mret (Some e) end.

Definition writeLine (line : bytes) : M session result :=
  and_then (write line) (write CRLF).

(** ** Executing a command *)

Section Execute.
Context `{MapRange} (env : environment).

Definition tick : M session Z := on_shared (read_clock env).

Definition store_call {A} (m : Z -> M Store A) : M session A := now ← tick; on_store (m now).

(** The lines of one [VALUE] block. *)
Definition write_item (header value : bytes) : M session result :=
  and_then (writeLine header) (and_then (write value) (write CRLF)).

Definition value_header (key : bytes) (it : Item) : bytes :=
  "VALUE " ++ key ++ " " ++ FormatInt (len (Value it)).

Definition gets_header (key : bytes) (it : Item) : bytes :=
  value_header key it ++ " " ++ FormatUint (CAS it).

(** The loops of [mget] and [gets]. *)
Fixpoint write_items (header : bytes -> Item -> bytes) (keys : list bytes) : M session result :=
  match keys with
  | [] => writeLine "END"
  | key :: keys' =>
      item ← store_call (Get key);
      match item with
      | None => write_items header keys'
      | Some it =>
          and_then (write_item (header key it) (Value it)) (write_items header keys')
      end
  end.

Definition maxTTLSeconds : Z := MaxInt64 / 1000000000.

Definition ttl_of (seconds : Z) : Z := int64 (int64 seconds * 1000000000).

(** The table of [writeStats]. *)
Definition stat_lines (st : ServerStats) : list (bytes * bytes) :=
  [("uptime_seconds", FormatInt (to_int (Seconds (ss_Uptime st))));
   ("connections_opened", FormatUint (ss_ConnectionsOpened st));
   ("connections_active", FormatInt (ss_ConnectionsActive st));
   ("connections_rejected", FormatUint (ss_ConnectionsRejected st));
   ("auth_failures", FormatUint (ss_AuthFailures st));
   ("client_errors", FormatUint (ss_ClientErrors st));
   ("server_errors", FormatUint (ss_ServerErrors st));
   ("cmd_get", FormatUint (ss_CmdGet st));
   ("cmd_set", FormatUint (ss_CmdSet st));
   ("cmd_delete", FormatUint (ss_CmdDelete st));
   ("cmd_incr", FormatUint (ss_CmdIncr st));
   ("cmd_mget", FormatUint (ss_CmdMget st));
   ("cmd_gets", FormatUint (ss_CmdGets st));
   ("cmd_cas", FormatUint (ss_CmdCas st));
   ("cmd_stats", FormatUint (ss_CmdStats st));
   ("cmd_auth", FormatUint (ss_CmdAuth st));
   ("cmd_ping", FormatUint (ss_CmdPing st));
   ("items", FormatInt (st_Items (ss_Store st)));
   ("memory_bytes", FormatInt (st_MemoryBytes (ss_Store st)));
   ("max_memory_bytes", FormatInt (st_MaxMemoryBytes (ss_Store st)));
   ("evictions", FormatUint (st_Evictions (ss_Store st)));
   ("expirations", FormatUint (st_Expirations (ss_Store st)));
   ("shards", FormatInt (st_NumShards (ss_Store st)))].

Fixpoint write_stat_lines (lines : list (bytes * bytes)) : M session result :=
  match lines with
  | [] => writeLine "END"
  | (name, value) :: lines' =>
      and_then (writeLine ("STAT " ++ name ++ " " ++ value)) (write_stat_lines lines')
  end.

Definition writeStats (st : ServerStats) : M session result := write_stat_lines (stat_lines st).

(** The reply to a write command's error; [None] where [execute] returns the
    error itself. *)
Definition set_reply (r : option error) : option bytes :=
  match r with
  | None => Some "STORED"
  | Some ErrValueTooLarge => Some "SERVER_ERROR value too large"
  | Some ErrMemoryLimitExceeded => Some "SERVER_ERROR memory limit exceeded"
  | Some _ => None
  end.

Definition cas_reply (r : option error) : option bytes :=
  match r with
  | None => Some "STORED"
  | Some ErrCasMismatch => Some "EXISTS"
  | Some ErrNotFound => Some "NOT_FOUND"
  | Some ErrValueTooLarge => Some "SERVER_ERROR value too large"
  | Some ErrMemoryLimitExceeded => Some "SERVER_ERROR memory limit exceeded"
  | Some _ => None
  end.

Definition incr_reply (r : Z + error) : option bytes :=
  match r with
  | inl value => Some ("VALUE " ++ FormatUint value)
  | inr ErrNotFound => Some "NOT_FOUND"
  | inr ErrNotInteger => Some "CLIENT_ERROR value is not an unsigned integer"
  | inr ErrOverflow => Some "CLIENT_ERROR increment would overflow uint64"
  | inr ErrValueTooLarge => Some "SERVER_ERROR value too large"
  | inr ErrMemoryLimitExceeded => Some "SERVER_ERROR memory limit exceeded"
  | inr _ => None
  end.

(** Write the reply line, or return the store's error. *)
Definition reply_or (line : option bytes) (e : option error) : M session result :=
  match line, e with
  | Some l, _ => writeLine l
  | None, Some err => mret (Some (StoreError err))
  | None, None => mret None
  end.

Definition execute (command : Command) : M session result :=
  match cmd_Op command with
  | Cmd.OpPing => writeLine "PONG"
  | Cmd.OpStats => st ← on_shared (TakeStats env); writeStats st
  | Cmd.OpGet =>
      item ← store_call (Get (cmd_Key command));
      match item with
      | None => writeLine "END"
      | Some it => and_then (write_item (value_header (cmd_Key command) it) (Value it)) (writeLine "END")
      end
  | Cmd.OpSet =>
      if maxTTLSeconds <? cmd_TTLSeconds command then writeLine "CLIENT_ERROR TTL is too large"
      else
        r ← store_call (Set_ (cmd_Key command) (cmd_Value command) (ttl_of (cmd_TTLSeconds command)));
        reply_or (set_reply r) r
  | Cmd.OpDelete =>
      ok ← store_call (Delete (cmd_Key command));
      writeLine (if (ok : bool) then "DELETED" else "NOT_FOUND")
  | Cmd.OpMget => write_items value_header (cmd_Keys command)
  | Cmd.OpGets => write_items gets_header (cmd_Keys command)
  | Cmd.OpCas =>
      if maxTTLSeconds <? cmd_TTLSeconds command then writeLine "CLIENT_ERROR TTL is too large"
      else
        r ← store_call (Cas (cmd_Key command) (cmd_Value command)
                          (ttl_of (cmd_TTLSeconds command)) (cmd_CAS command));
        reply_or (cas_reply r) r
  | Cmd.OpIncr =>
      r ← store_call (Incr (cmd_Key command) (cmd_Delta command));
      reply_or (incr_reply r) (match r with inl _ => None | inr e => Some e end)
  | Cmd.OpAuth => writeLine "CLIENT_ERROR unknown command"
  end.

(** ** The connection loop *)

Definition countCommand (op : Cmd.Op) : M session unit :=
  match op with
  | Cmd.OpGet => Add1 cmdGet
  | Cmd.OpSet => Add1 cmdSet
  | Cmd.OpDelete => Add1 cmdDelete
  | Cmd.OpIncr => Add1 cmdIncr
  | Cmd.OpMget => Add1 cmdMget
  | Cmd.OpGets => Add1 cmdGets
  | Cmd.OpCas => Add1 cmdCas
  | Cmd.OpStats => Add1 cmdStats
  | Cmd.OpPing => Add1 cmdPing
  | Cmd.OpAuth => mret tt
  end.

Definition constantTimeEqual (got want : bytes) : bool := bool_decide (got = want).

(** [(ok, terminal)]. *)
Definition handleAuthGate (command : Command) : M session (bool * bool) :=
  if negb (bool_decide (cmd_Op command = Cmd.OpAuth)) then
    writeLine "CLIENT_ERROR auth required" ;; mret (false, true)
  else
    Add1 cmdAuth ;;
    want ← gets (fun s => authToken (srv s));
    if negb (constantTimeEqual (cmd_Token command) want) then
      Add1 authFailures ;; writeLine "CLIENT_ERROR auth failed" ;; mret (false, true)
    else writeLine "AUTHENTICATED" ;; mret (true, false).

(** How a turn of the loop ends. *)
Inductive turn := Continue (authenticated : bool) | Return (r : result).

Definition flush_then (t : turn) : M session turn :=
  r ← flush; mret (match r with None => t | Some e => Return (Some e) end).

Definition return_flush : M session turn := r ← flush; mret (Return r).

(** The body of the loop after a command was read; [Serve] and [serveConn]
    share it line by line. *)
Definition handle (authenticated : bool) (command : Command) : M session turn :=
  if negb authenticated then
    '(ok, terminal) ← handleAuthGate command;
    if negb ok then flush_then (if (terminal : bool) then Return None else Continue authenticated)
    else flush_then (Continue true)
  else if bool_decide (cmd_Op command = Cmd.OpAuth) then
    Add1 cmdAuth ;;
    want ← gets (fun s => authToken (srv s));
    if bool_decide (want = []) then
      writeLine "CLIENT_ERROR auth not configured" ;; return_flush
    else if negb (constantTimeEqual (cmd_Token command) want) then
      Add1 authFailures ;; writeLine "CLIENT_ERROR auth failed" ;; return_flush
    else writeLine "AUTHENTICATED" ;; flush_then (Continue true)
  else
    countCommand (cmd_Op command) ;;
    err ← execute command;
    match err with
    | Some e => Add1 serverErrors ;; mret (Return (Some e))
    | None => flush_then (Continue true)
    end.

(** [handleReadError]: end of input and timeouts close quietly. *)
Definition handleReadError (err : perr) : M session result :=
  match err with
  | ErrRead EOF | ErrRead Timeout => mret None
  | _ => Add1 clientErrors ;; writeLine "CLIENT_ERROR bad command" ;; flush
  end.

(** What [Serve] does instead: only end of input is quiet. *)
Definition serve_read_error (err : perr) : M session result :=
  match err with
  | ErrRead EOF => mret None
  | _ => Add1 clientErrors ;; writeLine "CLIENT_ERROR bad command" ;; flush
  end.

Fixpoint serve_loop (on_error : perr -> M session result) (fuel : nat) (authenticated : bool)
    : M session result :=
  match fuel with
  | O => out_of_fuel
  | S fuel' =>
      r ← on_reader ReadCommand;
      match r with
      | inr err => on_error err
      | inl command =>
          t ← handle authenticated command;
          match t with
          | Return res => mret res
          | Continue auth => serve_loop on_error fuel' auth
          end
      end
  end.

(** The whole connection: authenticated from the start iff no token is
    configured, and the deferred flush at the end.  A command takes at least
    the two bytes of its CRLF, so one turn per byte is more than enough. *)
Definition connection (on_error : perr -> M session result) : M session result :=
  auth ← gets (fun s => bool_decide (authToken (srv s) = []));
  n ← gets (fun s => length (unread (inp s)));
  r ← serve_loop on_error (S n) auth;
  flush ;;
  mret r.

Definition Serve : M session result := connection serve_read_error.
Definition serveConn : M session result := connection handleReadError.

End Execute.
