(* ===== verification/ServerSpec.v ===== *)
(** * The conversation a server promises

    An executable specification of a connection: [spec_run] is the text sent
    for any sequence of commands, with or without a configured token, as a
    function of the abstract store, the counters and the environment (the clock
    and what the other goroutines do meanwhile).  Nothing in it mentions
    buffers, pointers or shards' layout. *)

From S2P Require Import Prelude Strconv Shard ShardSpec Store StoreSpec GoStrings Bufio Protocol Server.

(** ** Replies *)

Definition line (l : bytes) : bytes := l ++ CRLF.

Definition item_block (header : bytes -> Item -> bytes) (key : bytes) (it : Item) : bytes :=
  line (header key it) ++ line (Value it).

(** The text of a lookup, and of every other reply. *)
Definition found_text (header : bytes -> Item -> bytes) (key : bytes) (r : reply) : bytes :=
  match r with RItem (Some it) => item_block header key it | _ => [] end.

Definition error_text (f : option error -> option bytes) (r : reply) : bytes :=
  match r with
  | RError e => match f e with Some l => line l | None => [] end
  | _ => []
  end.

Definition reply_text (o : op) (r : reply) : bytes :=
  match o, r with
  | OpSet _ _ _, _ => error_text set_reply r
  | OpCas _ _ _ _, _ => error_text cas_reply r
  | OpDelete _, RDeleted ok => line (if ok then "DELETED" else "NOT_FOUND")
  | OpIncr _ _, RIncr x => match incr_reply x with Some l => line l | None => [] end
  | _, _ => []
  end.

Definition stats_text (st : ServerStats) : bytes :=
  concat (map (fun '(name, value) => line ("STAT " ++ name ++ " " ++ value)) (stat_lines st)) ++ line "END".

(** The counter of a command. *)
Definition op_counter (o : Cmd.Op) : counter :=
  match o with
  | Cmd.OpGet => cmdGet | Cmd.OpSet => cmdSet | Cmd.OpDelete => cmdDelete | Cmd.OpIncr => cmdIncr
  | Cmd.OpPing => cmdPing | Cmd.OpAuth => cmdAuth | Cmd.OpMget => cmdMget | Cmd.OpGets => cmdGets
  | Cmd.OpCas => cmdCas | Cmd.OpStats => cmdStats
  end.

(** ** The abstract server *)

Record aserver := AServer {
  as_store : astore;
  as_counts : counter -> Z;
  as_active : Z;
  as_ticks : nat
}.

Definition count (k : counter) (v : aserver) : aserver :=
  AServer (as_store v) (bump_counter k (as_counts v)) (as_active v) (as_ticks v).

Section Spec.
Context (L : limits) (env : environment) (token : bytes) (t0 : Z).

Definition spec_interfere (i : interference) (v : aserver) : aserver :=
  AServer (snd (spec_events L (i_events i) (as_store v)))
    (foldl (fun f c => bump_counter c f) (as_counts v) (i_counts i))
    (int64 (as_active v + i_active i)) (as_ticks v).

(** An interruption: the others run. *)
Definition spec_tick (v : aserver) : aserver :=
  let v' := spec_interfere (others env (as_ticks v)) v in
  AServer (as_store v') (as_counts v') (as_active v') (S (as_ticks v)).

(** The server after [k] interruptions. *)
Definition later (k : nat) (v : aserver) : aserver := Nat.iter k spec_tick v.

(** ** Commands *)

Definition spec_op (o : op) (v : aserver) : reply * aserver :=
  let v' := spec_tick v in
  let '(r, a') := spec_event L (EvOp o (clock env (as_ticks v))) (as_store v') in
  (r, AServer a' (as_counts v') (as_active v') (as_ticks v')).

Definition spec_reply (o : op) (v : aserver) : bytes * aserver :=
  let '(r, v') := spec_op o v in (reply_text o r, v').

Fixpoint spec_items (header : bytes -> Item -> bytes) (keys : list bytes) (v : aserver) : bytes * aserver :=
  match keys with
  | [] => (line "END", v)
  | key :: keys' =>
      let '(r, v') := spec_op (OpGet key) v in
      let '(txt, v'') := spec_items header keys' v' in
      (found_text header key r ++ txt, v'')
  end.

(** Statistics: the clock is read after one interruption, every counter after
    one more, and the shards, three reads each, after that. *)
Definition spec_server_stats (v : aserver) : ServerStats :=
  let c k x := as_counts (later k v) x in
  MkServerStats t0 (clock env (as_ticks v) - t0) (c 2%nat connectionsOpened) (as_active (later 3 v))
    (c 4%nat connectionsRejected) (c 5%nat authFailures) (c 6%nat clientErrors) (c 7%nat serverErrors)
    (c 8%nat cmdGet) (c 9%nat cmdSet) (c 10%nat cmdDelete) (c 11%nat cmdIncr) (c 12%nat cmdMget) (c 13%nat cmdGets)
    (c 14%nat cmdCas) (c 15%nat cmdStats) (c 16%nat cmdAuth) (c 17%nat cmdPing)
    (spec_stats L (length (a_caches (as_store v))) (fun k => as_store (later k (later 17 v)))).

Definition spec_statistics (v : aserver) : bytes * aserver :=
  (stats_text (spec_server_stats v), later (3 * length (a_caches (as_store v))) (later 17 v)).

(** What executing a command writes. *)
Definition spec_command (c : Command) (v : aserver) : bytes * aserver :=
  match cmd_Op c with
  | Cmd.OpPing => (line "PONG", v)
  | Cmd.OpGet => spec_items value_header [cmd_Key c] v
  | Cmd.OpMget => spec_items value_header (cmd_Keys c) v
  | Cmd.OpGets => spec_items gets_header (cmd_Keys c) v
  | Cmd.OpSet =>
      if maxTTLSeconds <? cmd_TTLSeconds c then (line "CLIENT_ERROR TTL is too large", v)
      else spec_reply (OpSet (cmd_Key c) (cmd_Value c) (ttl_of (cmd_TTLSeconds c))) v
  | Cmd.OpCas =>
      if maxTTLSeconds <? cmd_TTLSeconds c then (line "CLIENT_ERROR TTL is too large", v)
      else spec_reply (OpCas (cmd_Key c) (cmd_Value c) (ttl_of (cmd_TTLSeconds c)) (cmd_CAS c)) v
  | Cmd.OpDelete => spec_reply (OpDelete (cmd_Key c)) v
  | Cmd.OpIncr => spec_reply (OpIncr (cmd_Key c) (cmd_Delta c)) v
  | Cmd.OpStats => spec_statistics v
  | Cmd.OpAuth => (line "CLIENT_ERROR unknown command", v)
  end.

(** ** Sessions *)

(** One command: its text, whether the connection goes on, and the server. *)
Definition spec_turn (authenticated : bool) (c : Command) (v : aserver) : bytes * bool * aserver :=
  if bool_decide (cmd_Op c = Cmd.OpAuth) then
    let v := count cmdAuth v in
    if authenticated && bool_decide (token = []) then (line "CLIENT_ERROR auth not configured", false, v)
    else if bool_decide (cmd_Token c = token) then (line "AUTHENTICATED", true, v)
    else (line "CLIENT_ERROR auth failed", false, count authFailures v)
  else if negb authenticated then (line "CLIENT_ERROR auth required", false, v)
  else
    let '(txt, v') := spec_command c (count (op_counter (cmd_Op c)) v) in (txt, true, v').

(** A connection: it ends after the first command that closes it. *)
Fixpoint spec_run (authenticated : bool) (cs : list Command) (v : aserver) : bytes * aserver :=
  match cs with
  | [] => ([], v)
  | c :: cs' =>
      match spec_turn authenticated c v with
      | (txt, true, v') => let '(rest, v'') := spec_run true cs' v' in (txt ++ rest, v'')
      | (txt, false, v') => (txt, v')
      end
  end.
End Spec.

(** What the others may do: requests within the limits, sweeps of existing
    shards. *)
Definition env_ok (L : limits) (n : nat) (env : environment) : Prop :=
  forall t, Forall (event_ok L n) (i_events (others env t)).

Lemma quiet_ok L n clock : env_ok L n (quiet clock).
Proof. intros t. constructor. Qed.

(** No step changes the number of shards. *)
Section Shards.
Context (L : limits) (env : environment) (t0 : Z).

Definition num_caches (v : aserver) : nat := length (a_caches (as_store v)).

Lemma spec_tick_shards v : num_caches (spec_tick L env v) = num_caches v.
Proof. apply spec_events_length. Qed.

Lemma spec_op_shards o v : num_caches (snd (spec_op L env o v)) = num_caches v.
Proof.
  rewrite <- (spec_tick_shards v). unfold spec_op.
  pose proof (spec_event_length L (EvOp o (clock env (as_ticks v))) (as_store (spec_tick L env v))) as E.
  destruct (spec_event L _ _) as [r a']. exact E.
Qed.

Lemma spec_items_shards header keys : forall v, num_caches (snd (spec_items L env header keys v)) = num_caches v.
Proof.
  induction keys as [|k keys IH]; intros v; cbn [spec_items]; [done|].
  pose proof (spec_op_shards (OpGet k) v) as E. destruct (spec_op L env _ v) as [r v1]. specialize (IH v1).
  destruct (spec_items L env header keys v1) as [txt v2]. cbn [snd] in *. congruence.
Qed.
End Shards.
