(* ===== verification/ServerProps.v ===== *)
(** * What holds of every connection

    The connection loop next to its specification [ServerSpec]: writing,
    executing a command, and what is true of any connection, failing peers
    included: it ends, and nothing passes the authentication gate. *)

From S2P Require Import Prelude Strconv Shard ShardSpec ShardRefine ShardProps Store StoreSpec StoreProps.
From S2P Require Import GoStrings Bufio Protocol Server ServerSpec.

(** ** Writing *)

(** [s'] is [s] with [p] written. *)
Definition emits (s : session) (p : bytes) (s' : session) : Prop :=
  srv s' = srv s /\ inp s' = inp s /\ ticks s' = ticks s /\
  healthy (out s') /\ stream (out s') = stream (out s) ++ p.

Lemma emits_trans s p s1 q s2 : emits s p s1 -> emits s1 q s2 -> emits s (p ++ q) s2.
Proof.
  intros (A1 & B1 & C1 & D1 & E1) (A2 & B2 & C2 & D2 & E2). unfold emits.
  rewrite A2, B2, C2, E2, E1, app_assoc. done.
Qed.

Lemma emit_ok s p : healthy (out s) -> wp (write p) s (fun r s' => r = None /\ emits s p s').
Proof.
  intros Hw. destruct (Write_healthy p (out s) Hw) as (w' & Hrun & Hw' & Hs).
  unfold write, on_writer. wp_steps. unfold wp. rewrite Hrun. by split_and!.
Qed.

Lemma flush_ok s : healthy (out s) ->
  wp flush s (fun r s' => r = None /\ emits s [] s' /\ sent (out s') = stream (out s) /\ buffered (out s') = []).
Proof.
  intros Hw. unfold flush, on_writer. wp_steps. unfold wp. rewrite Flush_healthy by done.
  unfold emits, stream. simpl. rewrite !app_nil_r. done.
Qed.

Lemma and_then_ok s p q m k :
  wp m s (fun r s' => r = None /\ emits s p s') ->
  (forall s1, emits s p s1 -> wp k s1 (fun r s' => r = None /\ emits s1 q s')) ->
  wp (and_then m k) s (fun r s' => r = None /\ emits s (p ++ q) s').
Proof.
  intros Hm Hk. unfold and_then. wp_steps. eapply wp_mono; [exact Hm|]. intros r s1 [-> E1]. cbn beta.
  eapply wp_mono; [by apply Hk|]. intros r s2 [-> E2]. split; [done|by eapply emits_trans].
Qed.

Lemma emits_healthy s p s' : emits s p s' -> healthy (out s').
Proof. by intros (_ & _ & _ & ? & _). Qed.

Lemma writeLine_ok s l : healthy (out s) ->
  wp (writeLine l) s (fun r s' => r = None /\ emits s (line l) s').
Proof.
  intros Hw. apply and_then_ok; [by apply emit_ok|]. intros s1 E1. by apply emit_ok, (emits_healthy _ _ _ E1).
Qed.

Lemma write_item_ok s header key it : healthy (out s) ->
  wp (write_item (header key it) (Value it)) s (fun r s' => r = None /\ emits s (item_block header key it) s').
Proof.
  intros Hw. apply and_then_ok; [by apply writeLine_ok|]. intros s1 E1%emits_healthy.
  apply and_then_ok; [by apply emit_ok|]. intros s2 E2%emits_healthy. by apply emit_ok.
Qed.

(** ** Executing *)

(** Every valid key gives an item size within the [int] range. *)
Definition keys_fit (L : limits) : Prop := MaxKeyBytes + l_maxValue L + l_overhead L <= MaxInt64.

Lemma keys_fit_ok L k : keys_fit L -> key_wf k = true -> key_ok L k.
Proof.
  intros Hf [Hk%validKey_spec _]%andb_prop. unfold keys_fit, key_ok in *. lia.
Qed.

(** ** The shared server *)

Section Sharing.
Context `{MapRange} (L : limits) (HL : int_limits L).
Context (N : nat) (env : environment) (Henv : env_ok L N env) (token : bytes) (t0 : Z).

(** The shared server is in the state [v] of the specification. *)
Record shares (x : shared) (v : aserver) : Prop := {
  sh_store : store_rel (good L) (sv_store (on_server x)) (as_store v);
  sh_shards : num_caches v = N;
  sh_counts : counts (on_server x) = as_counts v;
  sh_active : connectionsActive (on_server x) = as_active v;
  sh_steps : steps x = as_ticks v;
  sh_token : authToken (on_server x) = token;
  sh_start : startedAt (on_server x) = t0
}.

Lemma pause_ok x v : shares x v -> wp (pause env) x (fun _ x' => shares x' (spec_tick L env v)).
Proof.
  intros [R Hn C A T K S0]. pose proof (shard_contract L HL) as HC.
  pose proof (store_rel_length _ _ _ R) as Hlen. unfold num_caches in Hn.
  unfold pause, interfere. wp_steps. rewrite T.
  wp_use (run_events_ok L (good L) (i_events (others env (as_ticks v))) _ _ R); [by rewrite Hlen, Hn; apply Henv|].
  intros rs kv [_ R']. wp_steps. split; cbn; try done; [|congruence..]. by rewrite <- Hn; apply (spec_tick_shards L env).
Qed.

Lemma read_clock_ok x v : shares x v ->
  wp (read_clock env) x (fun now x' => now = clock env (as_ticks v) /\ shares x' (spec_tick L env v)).
Proof.
  intros Hx. unfold read_clock. wp_steps. rewrite (sh_steps _ _ Hx). wp_use (pause_ok x v Hx).
  intros [] x1 H1. by wp_steps.
Qed.

Lemma load_ok c x v : shares x v ->
  wp (load_counter env c) x (fun n x' => n = as_counts (spec_tick L env v) c /\ shares x' (spec_tick L env v)).
Proof.
  intros Hx. unfold load_counter. wp_steps. wp_use (pause_ok x v Hx). intros [] x1 H1. wp_steps.
  split; [|done]. by rewrite (sh_counts _ _ H1).
Qed.

Context (Hbudget : Z.of_nat N * l_maxMemory L <= MaxInt64).

Lemma sampled_ok x v : shares x v ->
  wp (StoreStats (fun x => sv_store (on_server x)) (pause env)) x (fun st x' =>
    st = spec_stats L N (fun k => as_store (later L env k v)) /\ shares x' (later L env (3 * N) v)).
Proof.
  intros Hx. eapply wp_mono.
  - apply (StoreStats_ok L HL N Hbudget _ (pause env) (fun k => as_store (later L env k v))
      (fun k x => shares x (later L env k v))); [| |exact Hx].
    + intros k y Hy. split; [apply (sh_store _ _ Hy)|apply (sh_shards _ _ Hy)].
    + intros k y Hy. apply (pause_ok _ _ Hy).
  - intros st x' (-> & Hx' & _). done.
Qed.

(** Loading a counter takes the server one interruption further. *)
Lemma load_later c k x v : shares x (later L env k v) ->
  wp (load_counter env c) x (fun n x' => n = as_counts (later L env (S k) v) c /\ shares x' (later L env (S k) v)).
Proof. apply load_ok. Qed.

Ltac loaded Hx := apply wp_bind; eapply wp_mono; [exact (load_later _ _ _ _ Hx)|];
  clear Hx; intros ? ? [-> Hx]; cbn beta.

(** [Stats] samples the counters and the shards as specified. *)
Lemma TakeStats_ok x v : shares x v ->
  wp (TakeStats env) x (fun st x' =>
    st = spec_server_stats L env t0 v /\ shares x' (later L env (3 * N) (later L env 17 v))).
Proof.
  intros Hx. pose proof (sh_start _ _ Hx) as Hs. pose proof (sh_shards _ _ Hx) as Hn. unfold num_caches in Hn.
  unfold TakeStats. apply wp_bind, wp_gets. rewrite Hs. apply wp_bind.
  eapply wp_mono; [exact (read_clock_ok _ _ Hx)|]. clear Hx. intros now x1 [-> Hx]. cbn beta.
  change (shares x1 (later L env 1 v)) in Hx. loaded Hx. apply wp_bind, wp_bind.
  eapply (wp_mono _ _ (fun _ x' => shares x' (later L env 3 v))); [exact (pause_ok _ _ Hx)|].
  clear Hx. intros [] x2 Hx. apply wp_gets. rewrite (sh_active _ _ Hx). do 14 loaded Hx.
  apply wp_bind. eapply wp_mono; [exact (sampled_ok _ _ Hx)|]. clear Hx. intros st x3 [-> Hx]. apply wp_ret.
  unfold spec_server_stats. rewrite Hn. split; [reflexivity|exact Hx].
Qed.
End Sharing.

(** A server over [N] shards whose other goroutines behave. *)
Section Execution.
Context `{MapRange} (L : limits) (HL : int_limits L) (Hfit : keys_fit L).
Context (N : nat) (Hbudget : Z.of_nat N * l_maxMemory L <= MaxInt64).
Context (env : environment) (Henv : env_ok L N env) (token : bytes) (t0 : Z).

(** The session is in the state [v] of the specification. *)
Record observes (s : session) (v : aserver) : Prop := {
  obs_store : store_rel (good L) (sv_store (srv s)) (as_store v);
  obs_shards : num_caches v = N;
  obs_counts : counts (srv s) = as_counts v;
  obs_active : connectionsActive (srv s) = as_active v;
  obs_ticks : ticks s = as_ticks v;
  obs_token : authToken (srv s) = token;
  obs_start : startedAt (srv s) = t0;
  obs_healthy : healthy (out s)
}.

(** Since [s], the text [txt] was written and the server became [v]. *)
Definition said (s : session) (txt : bytes) (v : aserver) (s' : session) : Prop :=
  observes s' v /\ inp s' = inp s /\ stream (out s') = stream (out s) ++ txt.

Lemma said_start s v : observes s v -> said s [] v s.
Proof. intros Ho. split_and!; [done..|]. by rewrite app_nil_r. Qed.

Lemma said_emits s txt v s1 q s2 : said s txt v s1 -> emits s1 q s2 -> said s (txt ++ q) v s2.
Proof.
  intros ([] & I1 & S1) (E1 & I2 & E3 & Hh & S2).
  split_and!; [split; rewrite ?E1, ?E3; done|by rewrite I2|by rewrite S2, S1, app_assoc].
Qed.

(** The server moves on and nothing is written. *)
Lemma said_step s txt v s1 v2 s2 : said s txt v s1 ->
  observes s2 v2 -> inp s2 = inp s1 -> out s2 = out s1 -> said s txt v2 s2.
Proof. intros (_ & I1 & S1) O2 I2 E2. split_and!; [done|congruence|by rewrite E2]. Qed.

Lemma say_ok s txt v s1 l : said s txt v s1 ->
  wp (writeLine l) s1 (fun r s' => r = None /\ said s (txt ++ line l) v s').
Proof.
  intros Hs. wp_use (writeLine_ok s1 l (obs_healthy _ _ (proj1 Hs))). intros r s2 [-> E2].
  split; [done|by eapply said_emits].
Qed.

Lemma Add1_ok k s txt v s1 : said s txt v s1 -> wp (Add1 k) s1 (fun _ s' => said s txt (count k v) s').
Proof.
  intros Hs. pose proof Hs as ([] & _). unfold Add1. wp_steps. eapply said_step; [exact Hs| |done..].
  split; try done. cbn [srv counts count as_counts]. congruence.
Qed.

(** A step on the shared server. *)
Lemma shared_ok {A} (m : M shared A) (P : A -> Prop) v2 s txt v s1 : said s txt v s1 ->
  (forall x, shares L N token t0 x v -> wp m x (fun a x' => P a /\ shares L N token t0 x' v2)) ->
  wp (on_shared m) s1 (fun a s' => P a /\ said s txt v2 s').
Proof.
  intros Hs Hm. pose proof Hs as ([R Hn C A' T K S0 Hh] & _). unfold on_shared. wp_steps.
  eapply wp_mono; [apply Hm; by split|]. intros a x' [Ha [R' Hn' C' A2 T' K' S']]. split; [done|].
  eapply said_step; [exact Hs| |done..]. by split.
Qed.

Lemma tick_ok s txt v s1 : said s txt v s1 ->
  wp (tick env) s1 (fun now s' => now = clock env (as_ticks v) /\ said s txt (spec_tick L env v) s').
Proof. intros Hs. exact (shared_ok _ _ _ _ _ _ _ Hs (fun x => read_clock_ok L HL N env Henv token t0 x v)). Qed.

(** A call into the store, as the event it is. *)
Lemma store_call_ok {A} (m : Z -> M Store A) (f : A -> reply) o s txt v s1 :
  (forall now st, store_op o now st = (r ← m now; mret (f r)) st) ->
  said s txt v s1 -> op_ok L o -> is_Some (op_key o) ->
  wp (store_call env m) s1 (fun r s' => f r = fst (spec_op L env o v) /\ said s txt (snd (spec_op L env o v)) s').
Proof.
  intros Hop Hs Ho Hk. unfold store_call. wp_steps. wp_use (tick_ok _ _ _ _ Hs). intros now s2 [-> S2]. cbn beta.
  pose proof S2 as ([R Hn C A' T K S0 Hh] & _). pose proof (shard_contract L HL) as HC.
  set (now := clock env (as_ticks v)).
  pose proof (run_event_ok L (good L) _ _ (EvOp o now) R (conj Ho Hk)) as Hwp.
  cbn [run_event] in Hwp. unfold wp in Hwp. rewrite Hop in Hwp. unfold mbind, M_bind in Hwp.
  unfold on_store. wp_steps. unfold wp.
  destruct (m now (sv_store (srv s2))) as [[r kv]| |] eqn:E; [|done..]. destruct Hwp as [Hr Hrel].
  pose proof (spec_op_shards L env o v) as Hsh. pose proof (spec_tick_shards L env v) as Hst.
  unfold spec_op in *. fold now in Hsh |- *. destruct (spec_event L (EvOp o now) _) as [r0 a'].
  cbn [fst snd] in *. split; [done|]. eapply said_step; [exact S2| |done..]. split; try done. congruence.
Qed.

(** The loops of [get], [mget] and [gets]. *)
Lemma write_items_ok header keys : forall s txt v s1, said s txt v s1 ->
  wp (write_items env header keys) s1 (fun r s' => r = None /\
    let '(t, v') := spec_items L env header keys v in said s (txt ++ t) v' s').
Proof.
  induction keys as [|key keys IH]; intros s txt v s1 Hs; cbn [write_items spec_items]; [by apply say_ok|].
  wp_steps. wp_use (store_call_ok (Get key) RItem (OpGet key) _ _ _ _ (fun _ _ => eq_refl) Hs); [done|by eexists|].
  intros r s2 [Hr S2]. cbn beta. destruct (spec_op L env (OpGet key) v) as [r0 v1]. simpl in Hr, S2. subst r0.
  destruct r as [it|]; cbn [found_text].
  - unfold and_then. wp_steps. wp_use (write_item_ok s2 header key it (obs_healthy _ _ (proj1 S2))).
    intros r s3 [-> E3]. cbn beta. pose proof (said_emits _ _ _ _ _ _ S2 E3) as S3.
    wp_use (IH _ _ _ _ S3). intros r s4 [-> S4]. split; [done|].
    destruct (spec_items L env header keys v1) as [t v2]. by rewrite <- app_assoc in S4.
  - wp_use (IH _ _ _ _ S2). intros r s4 [-> S4]. split; [done|].
    by destruct (spec_items L env header keys v1) as [t v2].
Qed.

(** A single store operation with a one-line reply. *)
Lemma reply_ok {A} (m : Z -> M Store A) (f : A -> reply) o s txt v s1 (k : A -> M session result) :
  (forall now st, store_op o now st = (r ← m now; mret (f r)) st) ->
  said s txt v s1 -> op_ok L o -> is_Some (op_key o) ->
  (forall r s2, f r = fst (spec_op L env o v) -> healthy (out s2) ->
     wp (k r) s2 (fun res s' => res = None /\ emits s2 (reply_text o (f r)) s')) ->
  wp (r ← store_call env m; k r) s1 (fun res s' => res = None /\
    let '(t, v') := spec_reply L env o v in said s (txt ++ t) v' s').
Proof.
  intros Hop Hs Ho Hkey Hk. wp_steps.
  wp_use (store_call_ok m f o _ _ _ _ Hop Hs Ho Hkey). intros r s2 [Hr S2]. cbn beta.
  wp_use (Hk r s2 Hr (obs_healthy _ _ (proj1 S2))). intros res s3 [-> E3]. split; [done|].
  unfold spec_reply. destruct (spec_op L env o v) as [r0 v1]. simpl in *. subst r0. by eapply said_emits.
Qed.

(** The store only returns errors the server has a reply for. *)
Lemma spec_op_reply o v : exists r, fst (spec_op L env o v) = r /\
  exists now a, r = fst (spec_event L (EvOp o now) a).
Proof.
  eexists. split; [done|]. unfold spec_op.
  exists (clock env (as_ticks v)), (as_store (spec_tick L env v)). by destruct (spec_event L _ _).
Qed.

Lemma set_reply_total k v ttl w e :
  RError e = fst (spec_op L env (OpSet k v ttl) w) -> exists l, set_reply e = Some l.
Proof.
  destruct (spec_op_reply (OpSet k v ttl) w) as (r & -> & now & a & ->).
  unfold spec_event, shard_step. simpl. destruct (a_caches a !! _) as [c|]; [|done]. simpl.
  repeat (case_match; simplify_eq/=); intros [= ->]; simpl; eauto.
Qed.

Lemma cas_reply_total k v ttl x w e :
  RError e = fst (spec_op L env (OpCas k v ttl x) w) -> exists l, cas_reply e = Some l.
Proof.
  destruct (spec_op_reply (OpCas k v ttl x) w) as (r & -> & now & a & ->).
  unfold spec_event, shard_step. simpl. destruct (a_caches a !! _) as [c|]; [|done]. simpl.
  repeat (case_match; simplify_eq/=); intros [= ->]; simpl; eauto.
Qed.

Lemma incr_reply_total k d w x :
  RIncr x = fst (spec_op L env (OpIncr k d) w) -> exists l, incr_reply x = Some l.
Proof.
  destruct (spec_op_reply (OpIncr k d) w) as (r & -> & now & a & ->).
  unfold spec_event, shard_step. simpl. destruct (a_caches a !! _) as [c|]; [|done]. simpl.
  repeat (case_match; simplify_eq/=); intros [= ->]; simpl; eauto.
Qed.

Lemma write_stat_lines_ok ls : forall s txt v s1, said s txt v s1 ->
  wp (write_stat_lines ls) s1 (fun r s' => r = None /\
    said s (txt ++ concat (map (fun '(name, value) => line ("STAT " ++ name ++ " " ++ value)) ls) ++ line "END") v s').
Proof.
  induction ls as [|[name value] ls IH]; intros s txt v s1 Hs; cbn [write_stat_lines map concat].
  - by apply say_ok.
  - unfold and_then. wp_steps. wp_use (say_ok _ _ _ _ ("STAT " ++ name ++ " " ++ value) Hs).
    intros r s2 [-> S2]. cbn beta iota. wp_use (IH _ _ _ _ S2). intros r s3 [-> S3]. split; [done|].
    rewrite <- app_assoc in S3. by rewrite <- app_assoc.
Qed.

Lemma statistics_ok s txt v s1 : said s txt v s1 ->
  wp (st ← on_shared (TakeStats env); writeStats st) s1 (fun r s' => r = None /\
    let '(t, v') := spec_statistics L env t0 v in said s (txt ++ t) v' s').
Proof.
  intros Hs. pose proof (obs_shards _ _ (proj1 Hs)) as Hn. unfold num_caches in Hn. apply wp_bind.
  eapply wp_mono; [apply (shared_ok _ _ _ _ _ _ _ Hs (fun x => TakeStats_ok L HL N env Henv token t0 Hbudget x v))|].
  intros st s2 [-> S2]. unfold spec_statistics. rewrite Hn. by apply write_stat_lines_ok.
Qed.

(** [execute] writes the specified text and performs the specified change. *)
Lemma execute_ok c s txt v s1 :
  command_wf c = true -> said s txt v s1 ->
  wp (execute env c) s1 (fun r s' => r = None /\
    let '(t, v') := spec_command L env t0 c v in said s (txt ++ t) v' s').
Proof.
  intros Hwf Hs. unfold command_wf in Hwf. unfold execute, spec_command.
  destruct (cmd_Op c); try apply andb_prop in Hwf as [Hwf Hwf2].
  - exact (write_items_ok value_header [cmd_Key c] _ _ _ _ Hs).
  - destruct (maxTTLSeconds <? _); [by apply say_ok|].
    apply (reply_ok _ RError (OpSet _ _ _)); try done; [|].
    + apply andb_prop in Hwf as [[_ Hk]%andb_prop _]. by apply keys_fit_ok.
    + intros r s2 [l Hl]%set_reply_total Hw. simpl. rewrite Hl. by apply writeLine_ok.
  - apply (reply_ok _ RDeleted (OpDelete _)); try done. intros r s2 _ Hw. by apply writeLine_ok.
  - apply andb_prop in Hwf as [_ Hk]. apply (reply_ok _ RIncr (OpIncr _ _)); try done; [|].
    + split; [by apply keys_fit_ok|]. unfold is_uint64 in Hwf2.
      by destruct (between_spec 0 MaxUint64 (cmd_Delta c)).
    + intros r s2 [l Hl]%incr_reply_total Hw. simpl. rewrite Hl. by apply writeLine_ok.
  - by apply say_ok.
  - by apply say_ok.
  - by apply write_items_ok.
  - by apply write_items_ok.
  - destruct (maxTTLSeconds <? _); [by apply say_ok|].
    apply (reply_ok _ RError (OpCas _ _ _ _)); try done; [|].
    + apply andb_prop in Hwf as [[[_ Hk]%andb_prop _]%andb_prop _]. by apply keys_fit_ok.
    + intros r s2 [l Hl]%cas_reply_total Hw. simpl. rewrite Hl. by apply writeLine_ok.
  - by apply statistics_ok.
Qed.
End Execution.

(** ** Any connection, failing peers included *)

(** Neither the store nor the input changed. *)
Definition steady (s s' : session) : Prop :=
  inp s' = inp s /\ authToken (srv s') = authToken (srv s) /\ sv_store (srv s') = sv_store (srv s).

Lemma steady_refl s : steady s s.
Proof. done. Qed.

Lemma steady_trans s s1 s2 : steady s s1 -> steady s1 s2 -> steady s s2.
Proof. unfold steady. intros (-> & -> & ->). done. Qed.

#[export] Hint Resolve steady_refl steady_trans : minikv.

Lemma Flush_total w : exists b w', Flush w = Done (b, w').
Proof. unfold Flush. repeat case_match; eauto. Qed.

Lemma Write_total p w : exists b w', Write p w = Done (b, w').
Proof.
  unfold Write. repeat case_decide; repeat case_match; eauto.
  all: destruct (Flush_total (append (take (available w) p) w)) as (? & ? & ?); congruence.
Qed.

Lemma write_steady p s : wp (write p) s (fun _ s' => steady s s').
Proof.
  unfold write, on_writer. wp_steps. destruct (Write_total p (out s)) as (b & w' & E).
  eapply Done_wp; [exact E|]. by wp_steps.
Qed.

Lemma flush_steady s : wp flush s (fun _ s' => steady s s').
Proof.
  unfold flush, on_writer. wp_steps. destruct (Flush_total (out s)) as (b & w' & E).
  eapply Done_wp; [exact E|]. by wp_steps.
Qed.

Lemma Add1_steady c s : wp (Add1 c) s (fun _ s' => steady s s').
Proof. by unfold Add1; wp_steps. Qed.

Lemma bind_steady {A B} (m : M session A) (k : A -> M session B) s :
  wp m s (fun _ s' => steady s s') ->
  (forall a s1, wp (k a) s1 (fun _ s' => steady s1 s')) ->
  wp (m ≫= k) s (fun _ s' => steady s s').
Proof.
  intros Hm Hk. wp_steps. eapply wp_mono; [exact Hm|]. intros a s1 H1. cbn beta.
  eapply wp_mono; [apply Hk|]. intros b s2 H2. exact (steady_trans _ _ _ H1 H2).
Qed.

Lemma writeLine_steady l s : wp (writeLine l) s (fun _ s' => steady s s').
Proof.
  unfold writeLine, and_then. apply bind_steady; [apply write_steady|].
  intros [e|] s1; [by wp_steps|apply write_steady].
Qed.

#[export] Hint Resolve write_steady flush_steady Add1_steady writeLine_steady : minikv.

Lemma handleAuthGate_steady c s : wp (handleAuthGate c) s (fun r s' => steady s s' /\
  if fst r then cmd_Op c = Cmd.OpAuth /\ cmd_Token c = authToken (srv s) else snd r = true).
Proof.
  unfold handleAuthGate, constantTimeEqual.
  destruct (bool_decide_reflect (cmd_Op c = Cmd.OpAuth)) as [Ho|]; cbn [negb].
  2:{ wp_steps. wp_use (writeLine_steady "CLIENT_ERROR auth required" s). intros ? s1 H1. by wp_steps. }
  wp_steps. wp_use (Add1_steady cmdAuth s). intros [] s1 H1. cbn beta. wp_steps.
  destruct (bool_decide_reflect (cmd_Token c = authToken (srv s1))) as [Ht|]; cbn [negb]; wp_steps.
  - wp_use (writeLine_steady "AUTHENTICATED" s1). intros ? s2 H2. wp_steps.
    split; [eauto using steady_trans|]. split; [done|]. by destruct H1 as (_ & <- & _).
  - wp_use (Add1_steady authFailures s1). intros [] s2 H2. cbn beta. wp_steps.
    wp_use (writeLine_steady "CLIENT_ERROR auth failed" s2). intros ? s3 H3. wp_steps.
    split; [|done]. eauto using steady_trans.
Qed.

(** Before authentication a turn never touches the store, and only the right
    token lets the loop go on. *)
Lemma handle_unauthenticated env `{MapRange} c s :
  wp (handle env false c) s (fun t s' => steady s s' /\
    forall auth, t = Continue auth -> auth = true /\ cmd_Op c = Cmd.OpAuth /\ cmd_Token c = authToken (srv s)).
Proof.
  unfold handle. cbn [negb]. wp_steps. wp_use (handleAuthGate_steady c s).
  intros [ok terminal] s1 [H1 Hok]. cbn beta iota. unfold flush_then.
  destruct ok; cbn [negb] in *.
  - wp_steps. wp_use (flush_steady s1). intros r s2 H2. wp_steps. split; [eauto using steady_trans|].
    intros auth Ha. simpl in Hok. destruct Hok. destruct r; by simplify_eq.
  - wp_steps. wp_use (flush_steady s1). intros r s2 H2. wp_steps. split; [eauto using steady_trans|].
    intros auth Ha. simpl in Hok. subst terminal. by destruct r.
Qed.

Lemma bad_command_steady s :
  wp (Add1 clientErrors ;; writeLine "CLIENT_ERROR bad command" ;; flush) s (fun _ s' => steady s s').
Proof.
  apply bind_steady; [apply Add1_steady|]. intros [] s1.
  apply bind_steady; [apply writeLine_steady|]. intros _ s2. apply flush_steady.
Qed.

Lemma read_errors_steady err s :
  wp (handleReadError err) s (fun _ s' => steady s s') /\
  wp (serve_read_error err) s (fun _ s' => steady s s').
Proof.
  destruct err as [|[]]; split; try apply bad_command_steady; simpl; wp_steps; apply steady_refl.
Qed.

Section Total.
Context `{MapRange} (L : limits) (HL : int_limits L) (Hfit : keys_fit L).
Context (N : nat) (Hbudget : Z.of_nat N * l_maxMemory L <= MaxInt64).
Context (env : environment) (Henv : env_ok L N env).

(** The store stays one that represents an abstract store. *)
Definition sound (s : session) : Prop :=
  exists a, store_rel (good L) (sv_store (srv s)) a /\ length (a_caches a) = N.

Definition lives (s s' : session) : Prop := inp s' = inp s /\ sound s'.

Lemma steady_sound s s' : sound s -> steady s s' -> lives s s'.
Proof. intros (a & Ha & Hn) (Hi & _ & Hs). split; [done|]. exists a. by rewrite Hs. Qed.

Lemma lives_trans s s1 s2 : lives s s1 -> lives s1 s2 -> lives s s2.
Proof. intros [I1 _] [I2 ?]. split; [congruence|done]. Qed.

Lemma bind_lives {A B} (m : M session A) (k : A -> M session B) s :
  wp m s (fun _ s' => lives s s') ->
  (forall a s1, sound s1 -> wp (k a) s1 (fun _ s' => lives s1 s')) ->
  wp (m ≫= k) s (fun _ s' => lives s s').
Proof.
  intros Hm Hk. wp_steps. eapply wp_mono; [exact Hm|]. intros a s1 [I1 S1]. cbn beta.
  eapply wp_mono; [by apply Hk|]. intros b s2 H2. eapply lives_trans; [|exact H2]. by split.
Qed.

Lemma steady_lives {A} (m : M session A) s :
  sound s -> wp m s (fun _ s' => steady s s') -> wp m s (fun _ s' => lives s s').
Proof. intros Hs Hm. eapply wp_mono; [exact Hm|]. intros a s' H'. by apply steady_sound. Qed.

Lemma ret_lives {A} (a : A) s : sound s -> wp (mret a) s (fun _ s' => lives s s').
Proof. intros Hs. wp_steps. by split. Qed.

Lemma gets_lives {A} (f : session -> A) s : sound s -> wp (gets f) s (fun _ s' => lives s s').
Proof. intros Hs. wp_steps. by split. Qed.

(** A step on the shared server that follows some specification. *)
Lemma shared_lives {A} (m : M shared A) s : sound s ->
  (forall token t0 x v, shares L N token t0 x v -> exists v', wp m x (fun _ x' => shares L N token t0 x' v')) ->
  wp (on_shared m) s (fun _ s' => lives s s').
Proof.
  intros (a & Ha & Hn) Hm. unfold on_shared. wp_steps.
  destruct (Hm (authToken (srv s)) (startedAt (srv s)) (shared_of s)
    (AServer a (counts (srv s)) (connectionsActive (srv s)) (ticks s))) as [v' Hwp]; [by split|].
  eapply wp_mono; [exact Hwp|]. intros r x' [R' Hn' _ _ _ _ _]. split; [done|]. by eexists.
Qed.

Lemma tick_lives s : sound s -> wp (tick env) s (fun _ s' => lives s s').
Proof.
  intros Hs. apply shared_lives; [done|]. intros token t0 x v Hx. eexists.
  eapply wp_mono; [exact (read_clock_ok L HL N env Henv _ _ x v Hx)|]. by intros r x' [_ ?].
Qed.

Lemma TakeStats_lives s : sound s -> wp (on_shared (TakeStats env)) s (fun _ s' => lives s s').
Proof.
  intros Hs. apply shared_lives; [done|]. intros token t0 x v Hx. eexists.
  eapply wp_mono; [exact (TakeStats_ok L HL N env Henv _ _ Hbudget x v Hx)|]. by intros r x' [_ ?].
Qed.

Lemma store_call_lives {A} (m : Z -> M Store A) (f : A -> reply) o s :
  (forall now st, store_op o now st = (r ← m now; mret (f r)) st) ->
  sound s -> op_ok L o -> is_Some (op_key o) ->
  wp (store_call env m) s (fun _ s' => lives s s').
Proof.
  intros Hop Hs Ho Hk. apply bind_lives; [by apply tick_lives|]. intros now s1 (a & Ha & Hn).
  pose proof (shard_contract L HL) as HC.
  pose proof (run_event_ok L (good L) _ a (EvOp o now) Ha (conj Ho Hk)) as Hwp.
  cbn [run_event] in Hwp. unfold wp in Hwp. rewrite Hop in Hwp. unfold mbind, M_bind in Hwp.
  unfold on_store. wp_steps. unfold wp.
  destruct (m now (sv_store (srv s1))) as [[r kv]| |] eqn:E; [|done..].
  destruct Hwp as [_ Hrel]. split; [done|]. eexists. split; [exact Hrel|]. by rewrite spec_event_length.
Qed.

Lemma get_lives k s : sound s -> wp (store_call env (Get k)) s (fun _ s' => lives s s').
Proof. intros Hs. by apply (store_call_lives _ RItem (OpGet k)). Qed.

Lemma writeLine_lives l s : sound s -> wp (writeLine l) s (fun _ s' => lives s s').
Proof. intros Hs. apply steady_lives; [done|apply writeLine_steady]. Qed.

Lemma write_lives l s : sound s -> wp (write l) s (fun _ s' => lives s s').
Proof. intros Hs. apply steady_lives; [done|apply write_steady]. Qed.

Lemma flush_lives s : sound s -> wp flush s (fun _ s' => lives s s').
Proof. intros Hs. apply steady_lives; [done|apply flush_steady]. Qed.

Lemma Add1_lives c s : sound s -> wp (Add1 c) s (fun _ s' => lives s s').
Proof. intros Hs. apply steady_lives; [done|apply Add1_steady]. Qed.

Lemma and_then_lives m k s :
  wp m s (fun _ s' => lives s s') ->
  (forall s1, sound s1 -> wp k s1 (fun _ s' => lives s1 s')) ->
  wp (and_then m k) s (fun _ s' => lives s s').
Proof.
  intros Hm Hk. apply bind_lives; [done|]. intros [e|] s1 H1; [by apply ret_lives|by apply Hk].
Qed.

Hint Resolve ret_lives gets_lives tick_lives get_lives writeLine_lives write_lives flush_lives
  Add1_lives : minikv.

Lemma write_items_lives header keys : forall s, sound s ->
  wp (write_items env header keys) s (fun _ s' => lives s s').
Proof.
  induction keys as [|k keys IH]; intros s Hs; cbn [write_items]; [by apply writeLine_lives|].
  apply bind_lives; [by apply get_lives|]. intros [it|] s1 H1; [|by apply IH].
  apply and_then_lives; [|done]. apply and_then_lives; [by apply writeLine_lives|].
  intros. apply and_then_lives; eauto with minikv.
Qed.

Lemma write_stat_lines_lives ls : forall s, sound s -> wp (write_stat_lines ls) s (fun _ s' => lives s s').
Proof.
  induction ls as [|[] ls IH]; intros s Hs; cbn [write_stat_lines]; [by apply writeLine_lives|].
  apply and_then_lives; eauto with minikv.
Qed.

Lemma reply_or_lives l e s : sound s -> wp (reply_or l e) s (fun _ s' => lives s s').
Proof. intros Hs. destruct l, e; simpl; eauto with minikv. Qed.

Hint Resolve write_items_lives write_stat_lines_lives reply_or_lives : minikv.

(** [execute] completes on any connection and keeps the store sound. *)
Lemma execute_lives c s :
  command_wf c = true -> sound s -> wp (execute env c) s (fun _ s' => lives s s').
Proof.
  intros Hwf Hs. unfold command_wf in Hwf. unfold execute.
  destruct (cmd_Op c); try apply andb_prop in Hwf as [Hwf Hwf2]; eauto with minikv.
  - apply bind_lives; [by apply get_lives|]. intros [it|] s1 H1; [|by apply writeLine_lives].
    apply and_then_lives; [|eauto with minikv]. apply and_then_lives; [by apply writeLine_lives|].
    intros. apply and_then_lives; eauto with minikv.
  - destruct (maxTTLSeconds <? _); [by apply writeLine_lives|].
    apply bind_lives; [|intros; by apply reply_or_lives].
    apply (store_call_lives _ RError (OpSet (cmd_Key c) (cmd_Value c) (ttl_of (cmd_TTLSeconds c)))); try done.
    apply andb_prop in Hwf as [[_ Hk]%andb_prop _]. by apply keys_fit_ok.
  - apply bind_lives; [|intros; by apply writeLine_lives]. by apply (store_call_lives _ RDeleted (OpDelete (cmd_Key c))).
  - apply bind_lives; [|intros; by apply reply_or_lives].
    apply (store_call_lives _ RIncr (OpIncr (cmd_Key c) (cmd_Delta c))); try done.
    apply andb_prop in Hwf as [_ Hk]. split; [by apply keys_fit_ok|]. unfold is_uint64 in Hwf2.
    by destruct (between_spec 0 MaxUint64 (cmd_Delta c)).
  - destruct (maxTTLSeconds <? _); [by apply writeLine_lives|].
    apply bind_lives; [|intros; by apply reply_or_lives].
    apply (store_call_lives _ RError (OpCas (cmd_Key c) (cmd_Value c) (ttl_of (cmd_TTLSeconds c)) (cmd_CAS c))); try done.
    apply andb_prop in Hwf as [[[_ Hk]%andb_prop _]%andb_prop _]. by apply keys_fit_ok.
  - apply bind_lives; [by apply TakeStats_lives|]. intros st s1 H1. by apply write_stat_lines_lives.
Qed.

Lemma countCommand_lives o s : sound s -> wp (countCommand o) s (fun _ s' => lives s s').
Proof. intros Hs. destruct o; simpl; eauto with minikv. Qed.

Lemma handleAuthGate_lives c s : sound s -> wp (handleAuthGate c) s (fun _ s' => lives s s').
Proof.
  intros Hs. apply steady_lives; [done|]. eapply wp_mono; [apply handleAuthGate_steady|].
  by intros r s' [? _].
Qed.

Hint Resolve countCommand_lives handleAuthGate_lives : minikv.

Lemma handle_lives auth c s :
  command_wf c = true -> sound s -> wp (handle env auth c) s (fun _ s' => lives s s').
Proof.
  intros Hwf Hs. unfold handle, flush_then, return_flush.
  destruct auth; cbn [negb]; [destruct (bool_decide _)|].
  - apply bind_lives; [by apply Add1_lives|]. intros [] s1 H1.
    apply bind_lives; [by apply gets_lives|]. intros want s2 H2. destruct (bool_decide _).
    { apply bind_lives; [by apply writeLine_lives|]. intros _ s3 H3. apply bind_lives; eauto with minikv. }
    destruct (negb _).
    { apply bind_lives; [by apply Add1_lives|]. intros [] s3 H3.
      apply bind_lives; [by apply writeLine_lives|]. intros _ s4 H4. apply bind_lives; eauto with minikv. }
    apply bind_lives; [by apply writeLine_lives|]. intros _ s3 H3. apply bind_lives; eauto with minikv.
  - apply bind_lives; [by apply countCommand_lives|]. intros [] s1 H1.
    apply bind_lives; [by apply execute_lives|]. intros [e|] s2 H2; apply bind_lives; eauto with minikv.
  - apply bind_lives; [by apply handleAuthGate_lives|]. intros [[] t] s1 H1; cbn [negb];
      apply bind_lives; eauto with minikv.
Qed.

(** Where serving can panic: at an oversized byte count in the input. *)
Definition oversized_input (s : bytes) : Prop := exists s1 s2, s = s1 ++ s2 /\ oversized_line s2.

Lemma completes_mono {A} (P Q : Prop) (o : outcome A) : (P -> Q) -> completes_or P o -> completes_or Q o.
Proof. destruct o; simpl; auto. Qed.

Lemma serve_loop_total on_error :
  (forall err s, sound s -> wp (on_error err) s (fun _ s' => lives s s')) ->
  forall fuel auth s, sound s -> (length (unread (inp s)) < fuel)%nat ->
  completes_or (oversized_input (unread (inp s))) (serve_loop env on_error fuel auth s).
Proof.
  intros Herr. induction fuel as [|fuel IH]; intros auth s Hs Hf; [lia|]. cbn [serve_loop].
  unfold mbind, M_bind, on_reader, zoom. destruct (inp s) as [i e] eqn:Hi. cbn [unread] in *.
  pose proof (ReadCommand_total i e) as Ht.
  destruct (ReadCommand (Reader i e)) as [[[c|err] r']| |] eqn:Hr; [..|done].
  - apply ReadCommand_inv in Hr as (Hwf & _ & l & -> & _).
    set (s0 := Session _ _ _ _). assert (Hs0 : sound s0) by exact Hs.
    destruct (wp_Done _ _ _ (handle_lives auth c s0 Hwf Hs0)) as (t & s1 & -> & Hin & H1).
    assert (Hinp : inp s1 = r') by exact Hin.
    destruct t as [auth'|]; [|done]. eapply completes_mono; [|apply (IH auth' s1 H1)]; rewrite Hinp.
    + intros (s2 & s3 & -> & Ho). exists (l ++ CRLF ++ payload c ++ s2), s3. by rewrite <- !app_assoc.
    + rewrite !length_app in Hf. simpl in Hf. lia.
  - by destruct (wp_Done _ _ _ (Herr err (Session (srv s) r' (out s) (ticks s)) Hs)) as (? & ? & -> & _).
  - by exists [], i.
Qed.

Lemma connection_total on_error s :
  (forall err s, sound s -> wp (on_error err) s (fun _ s' => lives s s')) -> sound s ->
  completes_or (oversized_input (unread (inp s))) (connection env on_error s).
Proof.
  intros Herr Hs. unfold connection. unfold mbind at 1 2, M_bind at 1 2, gets. 
  pose proof (serve_loop_total on_error Herr (S (length (unread (inp s))))
    (bool_decide (authToken (srv s) = [])) s Hs ltac:(lia)) as Hl.
  unfold mbind at 1, M_bind at 1.
  destruct (serve_loop _ _ _ _ s) as [[r s']| |]; [|done..].
  destruct (wp_Done _ _ _ (flush_steady s')) as (? & ? & E & _). unfold mbind, M_bind. by rewrite E.
Qed.

Lemma read_errors_live err s : sound s ->
  wp (handleReadError err) s (fun _ s' => lives s s') /\
  wp (serve_read_error err) s (fun _ s' => lives s s').
Proof. intros Hs. split; apply steady_lives; try done; apply read_errors_steady. Qed.
End Total.

(** Both loops are quiet at the end of the input. *)
Definition is_server `{MapRange} env (m : M session result) : Prop :=
  m = Serve env \/ m = serveConn env.

(** What holds of both loops. *)
Lemma is_server_wp `{MapRange} env m s (Q : result -> session -> Prop) :
  is_server env m ->
  (forall on_error, (forall s, on_error (ErrRead EOF) s = Done (None, s)) -> wp (connection env on_error) s Q) ->
  exists r s', m s = Done (r, s') /\ Q r s'.
Proof. intros [->| ->] Hconn; apply wp_Done, Hconn; done. Qed.

(** A new connection to a server over [kv] that will send [input]. *)
Definition new_session (kv : Store) (token : bytes) (t0 : Z) (input : reader) (room : option nat) : session :=
  Session (NewServer kv token t0) input (new_writer room) 0.

(** What a client that fails to authenticate is told. *)
Definition rejection (c : Command) : bytes :=
  if bool_decide (cmd_Op c = Cmd.OpAuth) then "CLIENT_ERROR auth failed" else "CLIENT_ERROR auth required".

Lemma handleAuthGate_rejects c s :
  healthy (out s) -> ~ (cmd_Op c = Cmd.OpAuth /\ cmd_Token c = authToken (srv s)) ->
  wp (handleAuthGate c) s (fun r s' => r = (false, true) /\ healthy (out s') /\
    stream (out s') = stream (out s) ++ line (rejection c)).
Proof.
  intros Hw Hno. unfold handleAuthGate, rejection, constantTimeEqual.
  destruct (bool_decide_reflect (cmd_Op c = Cmd.OpAuth)); cbn [negb]; wp_steps.
  - unfold Add1. wp_steps. cbn [srv authToken]. rewrite bool_decide_eq_false_2 by tauto. cbn [negb]. wp_steps.
    set (s0 := Session _ _ _ _). wp_use (writeLine_ok s0 "CLIENT_ERROR auth failed" Hw).
    intros r s1 [_ (_ & _ & _ & Hh & Hs)]. by wp_steps.
  - wp_use (writeLine_ok s "CLIENT_ERROR auth required" Hw). intros r s1 [_ (_ & _ & _ & Hh & Hs)]. by wp_steps.
Qed.

(** C22: Serving always ends.  Whatever bytes a client sends, whenever its
    connection fails to read or to write, authenticated or not, the loop
    returns; the only other outcome is the panic of an oversized value
    announced in the input. *)
Theorem serve_returns `{MapRange} config es rs kv env token t0 input room m :
  config_ok config -> keys_fit (limits_of config) -> store_reach config es rs kv ->
  env_ok (limits_of config) (num_shards config) env -> is_server env m ->
  completes_or (oversized_input (unread input)) (m (new_session kv token t0 input room)).
Proof.
  intros Hok Hfit Hr Henv Hm. destruct (reach_rel config Hok _ _ _ Hr) as (_ & Hrel & _).
  assert (Hs : sound (limits_of config) (num_shards config) (new_session kv token t0 input room)).
  { eexists. split; [exact Hrel|]. by rewrite <- (store_rel_length _ _ _ Hrel), (reach_shards config Hok _ _ _ Hr). }
  pose proof (limits_of_ok config Hok) as HL. pose proof (shard_budget config Hok) as [_ Hb].
  destruct Hm as [->| ->];
    (apply (connection_total (limits_of config) HL Hfit (num_shards config) ltac:(cbn; lia) env Henv); [intros; by apply read_errors_live|done]).
Qed.

(** C9: The authentication gate.  When a token is configured, nothing a client
    sends reads or changes the store unless its first command is [auth] with
    exactly that token: not a data command, not a wrong token, not a malformed
    line, whatever happens to the connection. *)
Theorem auth_gate `{MapRange} env (s : session) m r s' :
  is_server env m -> authToken (srv s) <> [] -> m s = Done (r, s') ->
  sv_store (srv s') = sv_store (srv s) \/
  exists c r', ReadCommand (inp s) = Done (inl c, r') /\ cmd_Op c = Cmd.OpAuth /\
    cmd_Token c = authToken (srv s).
Proof.
  intros Hm Htok. assert (Hconn : forall on_error, (forall err s, wp (on_error err) s (fun _ s' => steady s s')) ->
    connection env on_error s = Done (r, s') ->
    sv_store (srv s') = sv_store (srv s) \/
    exists c r', ReadCommand (inp s) = Done (inl c, r') /\ cmd_Op c = Cmd.OpAuth /\
      cmd_Token c = authToken (srv s)).
  { intros on_error Herr. unfold connection, mbind, M_bind, gets. rewrite bool_decide_eq_false_2 by done.
    cbn [serve_loop]. unfold mbind, M_bind, on_reader, zoom.
    assert (Hend : forall s0 s1 (x : result), steady s0 s1 -> sv_store (srv s0) = sv_store (srv s) ->
      match flush s1 with Done (_, s2) => (mret x : M session result) s2 | Panicked => Panicked | OutOfFuel => OutOfFuel end =
        Done (r, s') -> sv_store (srv s') = sv_store (srv s)).
    { intros s0 s1 x (_ & _ & E1) E0. destruct (wp_Done _ _ _ (flush_steady s1)) as (? & s2 & -> & _ & _ & E2).
      intros [= _ <-]. congruence. }
    destruct (ReadCommand (inp s)) as [[[c|err] r']| |]; [..|done|done].
    - set (s0 := Session _ _ _ _).
      destruct (wp_Done _ _ _ (handle_unauthenticated env c s0)) as (t & s1 & -> & St & Ht).
      destruct t as [auth|res]; [|intros Hr'; left; exact (Hend s0 s1 res St eq_refl Hr')].
      intros _. right. exists c, r'. destruct (Ht auth eq_refl) as (_ & ? & ?). done.
    - set (s0 := Session _ _ _ _). destruct (wp_Done _ _ _ (Herr err s0)) as (res & s1 & -> & St).
      intros Hr'. left. exact (Hend s0 s1 res St eq_refl Hr'). }
  destruct Hm as [->| ->]; apply Hconn; intros err s0; apply read_errors_steady.
Qed.

(** A clock, and another client that writes the key "k" before this connection
    reads the clock for the second time, and another key at its twenty-first
    interruption. *)
Definition demo_env : environment :=
  Env (fun n => 100 + Z.of_nat n)
    (fun n => match n with
              | 1%nat => Interference [EvOp (OpSet "k" "zz" 0) 101; EvSweep 0 101] [connectionsOpened; cmdSet] 1
              | 20%nat => Interference [EvOp (OpSet "w" "y" 0) 120] [cmdSet] 0
              | _ => Interference [] [] 0
              end).

Lemma demo_env_ok : env_ok (limits_of demo_config) (num_shards demo_config) demo_env.
Proof.
  intros t. unfold demo_env. cbn [others].
  do 21 (destruct t as [|t]; [cbn; repeat constructor; vm_compute; eauto; congruence || lia|]). cbn. constructor.
Qed.

Lemma demo_new_reach : store_reach demo_config [] [] (New demo_config).
Proof. split; [constructor|reflexivity]. Qed.

Lemma serve_returns_witness :
  completes_or (oversized_input "set k x") (Serve demo_env (new_session (New demo_config) "t" 0
    (Reader "set k x" Timeout) (Some 3%nat))).
Proof.
  apply (serve_returns demo_config [] [] (New demo_config) demo_env "t" 0 (Reader "set k x" Timeout)
    (Some 3%nat) (Serve demo_env) demo_config_ok); [vm_compute; congruence|exact demo_new_reach|exact demo_env_ok|].
  left. reflexivity.
Defined.

Lemma auth_gate_witness :
  let s := new_session (New demo_config) "secret" 0 (Reader (encode (cmd_set "k" "v" 0)) EOF) None in
  exists r s', Serve demo_env s = Done (r, s') /\
  (sv_store (srv s') = sv_store (srv s) \/
   exists c r', ReadCommand (inp s) = Done (inl c, r') /\ cmd_Op c = Cmd.OpAuth /\
     cmd_Token c = authToken (srv s)).
Proof.
  intros s. eexists _, _. split; [vm_compute; reflexivity|].
  eapply (auth_gate demo_env s (Serve demo_env)); [left; reflexivity|discriminate|].
  vm_compute. reflexivity.
Defined.

(** A client that fails to authenticate gets exactly one line, which says
    whether a token was required or wrong, and the connection ends there,
    whatever else it had sent. *)
Theorem auth_rejected `{MapRange} env kv token t0 input c r' m :
  is_server env m -> token <> [] ->
  ReadCommand input = Done (inl c, r') -> ~ (cmd_Op c = Cmd.OpAuth /\ cmd_Token c = token) ->
  exists s', m (new_session kv token t0 input None) = Done (None, s') /\
    sent (out s') = line (rejection c) /\ buffered (out s') = [] /\ inp s' = r'.
Proof.
  intros Hm Htok Hread Hno. set (s := new_session kv token t0 input None).
  assert (Hconn : forall on_error, (forall s, on_error (ErrRead EOF) s = Done (None, s)) ->
    wp (connection env on_error) s (fun r s' => r = None /\
      sent (out s') = line (rejection c) /\ buffered (out s') = [] /\ inp s' = r')).
  { intros on_error _. unfold connection. wp_steps. rewrite bool_decide_eq_false_2 by done.
    cbn [serve_loop]. unfold on_reader. wp_steps. eapply Done_wp; [exact Hread|]. cbn beta iota.
    unfold handle. cbn [negb]. wp_steps. set (s0 := Session _ _ _ _).
    assert (Hst : healthy (out s0)) by done.
    assert (wp (handleAuthGate c) s0 (fun r s' => (r = (false, true) /\ healthy (out s') /\
      stream (out s') = line (rejection c)) /\ steady s0 s')) as Hg.
    { destruct (wp_Done _ _ _ (handleAuthGate_rejects c s0 Hst Hno)) as (r & s1 & E & Hp).
      pose proof (handleAuthGate_steady c s0) as Hst1. unfold wp in *. rewrite E in *. by destruct Hst1. }
    wp_use Hg. intros r s1 [(-> & H1 & S1) (I1 & _)]. cbn beta iota. cbn [negb]. unfold flush_then. wp_steps.
    wp_use (flush_ok s1 H1). intros r s2 (-> & (_ & I2 & _ & H2 & _) & Hs2 & Hb2). wp_steps.
    wp_use (flush_ok s2 H2). intros r s3 (-> & (_ & I3 & _) & Hs3 & Hb3). wp_steps.
    split_and!; [done| |done|by rewrite I3, I2, I1].
    rewrite Hs3. unfold stream. by rewrite Hs2, Hb2, app_nil_r, S1. }
  destruct (is_server_wp env m s _ Hm Hconn) as (r & s' & Hrun & -> & Hp). by exists s'.
Qed.

Lemma auth_rejected_witness :
  exists s', serveConn demo_env (new_session (New demo_config) "secret" 0
      (Reader (encode (cmd_auth "guess") ++ encode (cmd_key Cmd.OpGet "k")) EOF) None) = Done (None, s') /\
    sent (out s') = line (rejection (cmd_auth "guess")) /\ buffered (out s') = [] /\
    inp s' = Reader (encode (cmd_key Cmd.OpGet "k")) EOF.
Proof.
  apply (auth_rejected demo_env (New demo_config) "secret" 0 _ (cmd_auth "guess") _
    (serveConn demo_env)); [right; reflexivity|discriminate|vm_compute; reflexivity|].
  intros [_ H]. discriminate H.
Defined.

(** A deadline that passes in the middle of a value is not quiet: the
    parser reports it as a malformed command, so the client is sent an error
    line and the client-error counter grows, while the same deadline between
    commands closes the connection silently. *)
Theorem timeout_in_value_not_quiet :
  let run input := serveConn demo_env (new_session (New demo_config) [] 0 (Reader input Timeout) None) in
  (exists s', run "get " = Done (None, s') /\ sent (out s') = [] /\ counts (srv s') clientErrors = 0) /\
  (exists s', run (join ["set"; "k"; "5"] ++ CRLF ++ "ab") = Done (None, s') /\
     sent (out s') = line "CLIENT_ERROR bad command" /\ counts (srv s') clientErrors = 1).
Proof.
  split; (eexists; split; [vm_compute; reflexivity|]; split; vm_compute; reflexivity).
Qed.
