(* ===== verification/SessionProps.v ===== *)
(** * A whole session

    The connection loops implement the specification [spec_run]: every turn of
    the loop is a turn of the specification, authentication and statistics
    included, with other goroutines using the same server in between. *)

From S2P Require Import Prelude Strconv Shard ShardSpec ShardRefine ShardProps Store StoreSpec StoreProps.
From S2P Require Import GoStrings Bufio Protocol Server ServerSpec ServerProps.

(** ** One turn *)

Section Turns.
Context `{MapRange} (L : limits) (HL : int_limits L) (Hfit : keys_fit L).
Context (N : nat) (Hbudget : Z.of_nat N * l_maxMemory L <= MaxInt64).
Context (env : environment) (Henv : env_ok L N env) (token : bytes) (t0 : Z).

Abbreviation observes := (observes L N token t0).
Abbreviation said := (said L N token t0).

(** [txt] was written since [s], and everything is flushed. *)
Definition told (s : session) (txt : bytes) (v : aserver) (s' : session) : Prop :=
  said s txt v s' /\ buffered (out s') = [].

Lemma flush_said s txt v s1 : said s txt v s1 ->
  wp flush s1 (fun r s' => r = None /\ told s txt v s').
Proof.
  intros Hs. wp_use (flush_ok s1 (obs_healthy _ _ _ _ _ _ (proj1 Hs))). intros r s2 (-> & E2 & _ & Hb).
  split; [done|]. split; [|done]. rewrite <- (app_nil_r txt). by eapply said_emits.
Qed.

Lemma flush_then_ok s txt v s1 t : said s txt v s1 ->
  wp (flush_then t) s1 (fun r s' => r = t /\ told s txt v s').
Proof. intros Hs. unfold flush_then. wp_steps. wp_use (flush_said _ _ _ _ Hs). intros r s2 [-> Ht]. by wp_steps. Qed.

Lemma return_flush_ok s txt v s1 : said s txt v s1 ->
  wp return_flush s1 (fun r s' => r = Return None /\ told s txt v s').
Proof. intros Hs. unfold return_flush. wp_steps. wp_use (flush_said _ _ _ _ Hs). intros r s2 [-> Ht]. by wp_steps. Qed.

(** Say a line, then go on with [k]. *)
Lemma say_then {A} s txt v s1 l (k : M session A) Q :
  said s txt v s1 -> (forall s2, said s (txt ++ line l) v s2 -> wp k s2 Q) -> wp (writeLine l ;; k) s1 Q.
Proof.
  intros Hs Hk. wp_steps. wp_use (say_ok _ _ _ _ _ _ _ _ l Hs). intros r s2 [_ S2]. cbn beta. by apply Hk.
Qed.

Lemma count_then {A} s txt v s1 c (k : M session A) Q :
  said s txt v s1 -> (forall s2, said s txt (count c v) s2 -> wp k s2 Q) -> wp (Add1 c ;; k) s1 Q.
Proof. intros Hs Hk. wp_steps. wp_use (Add1_ok _ _ _ _ c _ _ _ _ Hs). intros [] s2 S2. by apply Hk. Qed.

Lemma auth_turn_ok authenticated c s v : cmd_Op c = Cmd.OpAuth -> observes s v ->
  wp (handle env authenticated c) s (fun t s' =>
    let '(txt, go, v') := spec_turn L env token t0 authenticated c v in
    t = (if go then Continue true else Return None) /\ told s txt v' s').
Proof.
  intros Hop Ho. unfold handle, spec_turn, handleAuthGate, constantTimeEqual.
  rewrite (bool_decide_eq_true_2 (cmd_Op c = Cmd.OpAuth)) by done.
  destruct authenticated; cbn [negb andb].
  - eapply count_then; [by apply said_start|]. intros s1 S1. wp_steps. rewrite (obs_token _ _ _ _ _ _ (proj1 S1)).
    destruct (bool_decide_reflect (token = [])); [|destruct (bool_decide_reflect (cmd_Token c = token)); cbn [negb]].
    + eapply say_then; [done|]. intros s2. apply return_flush_ok.
    + eapply say_then; [done|]. intros s2. apply flush_then_ok.
    + eapply count_then; [done|]. intros s2 S2. eapply say_then; [done|]. intros s3. apply return_flush_ok.
  - apply wp_bind. eapply (count_then s [] v); [by apply said_start|]. intros s1 S1. wp_steps.
    rewrite (obs_token _ _ _ _ _ _ (proj1 S1)).
    destruct (bool_decide_reflect (cmd_Token c = token)); cbn [negb].
    + eapply say_then; [done|]. intros s2 S2. wp_steps. cbn [negb]. by apply flush_then_ok.
    + eapply count_then; [done|]. intros s2 S2. eapply say_then; [done|]. intros s3 S3. wp_steps. cbn [negb].
      by apply flush_then_ok.
Qed.

(** A turn of the loop is a turn of the specification. *)
Lemma turn_ok authenticated c s v : command_wf c = true -> observes s v ->
  wp (handle env authenticated c) s (fun t s' =>
    let '(txt, go, v') := spec_turn L env token t0 authenticated c v in
    t = (if go then Continue true else Return None) /\ told s txt v' s').
Proof.
  intros Hwf Ho. destruct (decide (cmd_Op c = Cmd.OpAuth)) as [Ha|Ha]; [by apply auth_turn_ok|].
  pose proof (said_start _ _ _ _ _ _ Ho) as Hs. unfold handle, handleAuthGate, spec_turn.
  rewrite !(bool_decide_eq_false_2 (cmd_Op c = Cmd.OpAuth)) by done. destruct authenticated; cbn [negb].
  - assert (Hcount : wp (countCommand (cmd_Op c)) s (fun _ s' => said s [] (count (op_counter (cmd_Op c)) v) s')).
    { destruct (cmd_Op c); try done; by apply Add1_ok. }
    wp_steps. wp_use Hcount. intros [] s1 S1. cbn beta. wp_steps.
    wp_use (execute_ok L HL Hfit N Hbudget env Henv token t0 c s _ _ _ Hwf S1). intros r s2 [-> S2].
    destruct (spec_command L env t0 c _) as [txt v']. by apply flush_then_ok.
  - apply wp_bind. eapply say_then; [done|]. intros s1 S1. wp_steps. cbn [negb]. by apply flush_then_ok.
Qed.

(** ** All the turns *)

(** [bs] is one way to write [c]. *)
Definition reads_as (bs : bytes) (c : Command) : Prop :=
  command_wf c = true /\ forall rest, ReadCommand (Reader (bs ++ rest) EOF) = Done (inl c, Reader rest EOF).

Lemma serve_loop_run on_error cs : forall wires fuel authenticated s v,
  (forall s, on_error (ErrRead EOF) s = Done (None, s)) ->
  (length cs < fuel)%nat -> Forall2 reads_as wires cs -> inp s = Reader (concat wires) EOF -> observes s v ->
  wp (serve_loop env on_error fuel authenticated) s (fun r s' => r = None /\
    let '(txt, v') := spec_run L env token t0 authenticated cs v in
    observes s' v' /\ stream (out s') = stream (out s) ++ txt).
Proof.
  induction cs as [|c cs IH]; intros wires [|fuel] auth s v Herr Hfuel Hwires Hin Ho; simpl in Hfuel; try lia.
  - apply Forall2_nil_inv_r in Hwires as ->.
    cbn [serve_loop spec_run]. wp_steps. unfold on_reader. wp_steps. rewrite Hin. unfold wp. simpl.
    rewrite Herr. simpl. rewrite app_nil_r. split; [done|]. split; [|done]. by destruct Ho; split.
  - apply Forall2_cons_inv_r in Hwires as (bs & wires' & (Hc & Hread) & Hwires & ->).
    cbn [serve_loop spec_run]. wp_steps. unfold on_reader. wp_steps. rewrite Hin. cbn [concat].
    eapply Done_wp; [apply Hread|]. cbn beta iota. wp_steps.
    set (s0 := Session _ _ _ _). assert (Ho0 : observes s0 v) by (by destruct Ho; split).
    wp_use (turn_ok auth c s0 v Hc Ho0). intros t s1.
    destruct (spec_turn L env token t0 auth c v) as [[txt go] v1]. intros (-> & (O1 & I1 & St1) & B1).
    destruct go; cbn beta iota; wp_steps; [|by split_and!].
    wp_use (IH wires' fuel true s1 v1 Herr ltac:(lia) Hwires I1 O1).
    intros r s2 [-> S2]. split; [done|]. destruct (spec_run L env token t0 true cs v1) as [rest v2].
    destruct S2 as [O2 St2]. rewrite St1, <- app_assoc in St2. done.
Qed.
End Turns.

Lemma encode_reads cs : forallb command_wf cs = true -> forallb line_fits cs = true ->
  Forall2 reads_as (map encode cs) cs.
Proof.
  induction cs as [|c cs IH]; [constructor|]. cbn [forallb map].
  intros [Hc Hwf]%andb_prop [Hf Hlf]%andb_prop. constructor; [|by apply IH].
  split; [done|]. intros rest. by apply ReadCommand_encode.
Qed.

Lemma reads_nonempty wires cs : Forall2 reads_as wires cs -> (length cs <= length (concat wires))%nat.
Proof.
  induction 1 as [|bs c wires cs [_ Hread] _ IH]; [done|]. cbn [concat length]. rewrite length_app.
  destruct bs; [specialize (Hread []); by vm_compute in Hread|simpl; lia].
Qed.

(** A new connection, seen by the specification. *)
Definition new_aserver (config : Config) (es : list event) : aserver :=
  AServer (snd (spec_events (limits_of config) es (anew (num_shards config)))) (fun _ => 0) 0 0.

(** The whole connection, for commands written in any form the parser accepts. *)
Lemma connection_runs `{MapRange} config es rs kv env wires cs token t0 m :
  config_ok config -> keys_fit (limits_of config) -> store_reach config es rs kv ->
  env_ok (limits_of config) (num_shards config) env -> Forall2 reads_as wires cs -> is_server env m ->
  let '(txt, v) := spec_run (limits_of config) env token t0 (bool_decide (token = [])) cs (new_aserver config es) in
  exists s', m (new_session kv token t0 (Reader (concat wires) EOF) None) = Done (None, s') /\
    sent (out s') = txt /\ buffered (out s') = [] /\
    store_rel (good (limits_of config)) (sv_store (srv s')) (as_store v) /\
    counts (srv s') = as_counts v.
Proof.
  intros Hok Hfit Hr Henv Hwires Hm. destruct (reach_rel config Hok _ _ _ Hr) as (_ & Hrel & _).
  set (s := new_session kv token t0 _ None). pose proof (shard_budget config Hok) as [_ Hb].
  assert (Hobs : observes (limits_of config) (num_shards config) token t0 s (new_aserver config es)).
  { split; try done. unfold num_caches. cbn [new_aserver as_store].
    by rewrite <- (store_rel_length _ _ _ Hrel), (reach_shards config Hok _ _ _ Hr). }
  assert (Hconn : forall on_error, (forall s, on_error (ErrRead EOF) s = Done (None, s)) ->
    wp (connection env on_error) s (fun r s' => r = None /\
      let '(txt, v) := spec_run (limits_of config) env token t0 (bool_decide (token = [])) cs (new_aserver config es) in
      sent (out s') = txt /\ buffered (out s') = [] /\
      store_rel (good (limits_of config)) (sv_store (srv s')) (as_store v) /\ counts (srv s') = as_counts v)).
  { intros on_error Herr. unfold connection. wp_steps.
    wp_use (serve_loop_run (limits_of config) (limits_of_ok config Hok) Hfit (num_shards config) ltac:(cbn; lia) env Henv
      token t0 on_error cs wires _ (bool_decide (token = [])) s _ Herr); [|done|done|exact Hobs|].
    { pose proof (reads_nonempty _ _ Hwires). unfold s. simpl. lia. }
    intros r s1 [-> S1]. cbn beta. wp_steps.
    destruct (spec_run _ env token t0 _ cs _) as [txt v]. destruct S1 as [[R1 _ C1 _ _ _ _ H1] St1].
    wp_use (flush_ok s1 H1). intros r s2 (-> & (V2 & _) & Hsent & Hbuf). wp_steps. split; [done|].
    by rewrite Hsent, St1, V2. }
  destruct (spec_run _ env token t0 _ cs _) as [txt v].
  destruct (is_server_wp env m s _ Hm Hconn) as (r & s' & Hrun & -> & Hpost). by exists s'.
Qed.

(** ** Theorems *)

(** C2: The complete contract of a connection.  Whatever token is configured,
    whatever well-formed commands a client pipelines, [auth] and [stats]
    included, in any order, and whatever requests, sweeps and counter updates
    other goroutines interleave with it, the bytes sent back are exactly those
    of the specification, up to the reply that closes the connection if there
    is one: nothing but [auth] with the right token opens a protected server, a
    wrong token or an authentication without a configured one closes it,
    [stats] reports every counter as it was when it was loaded, one after the
    other, and the exact totals of each shard as they were when it was visited,
    with the others running in between.  The store and every counter end as
    specified. *)
Theorem full_session `{MapRange} config es rs kv env cs token t0 m :
  config_ok config -> keys_fit (limits_of config) -> store_reach config es rs kv ->
  env_ok (limits_of config) (num_shards config) env ->
  forallb command_wf cs = true -> forallb line_fits cs = true -> is_server env m ->
  let '(txt, v) := spec_run (limits_of config) env token t0 (bool_decide (token = [])) cs (new_aserver config es) in
  exists s', m (new_session kv token t0 (Reader (concat (map encode cs)) EOF) None) = Done (None, s') /\
    sent (out s') = txt /\ buffered (out s') = [] /\
    store_rel (good (limits_of config)) (sv_store (srv s')) (as_store v) /\
    counts (srv s') = as_counts v.
Proof.
  intros Hok Hfit Hr Henv Hwf Hlf Hm. by eapply connection_runs; [..|apply encode_reads|].
Qed.

(** A protected server: the client authenticates, another client overwrites
    its key, it asks for statistics, while which another client writes, and
    authenticates again with a wrong token. *)
Definition demo_protected : list Command :=
  [cmd_auth "secret"; cmd_set "k" "v" 0; cmd_key Cmd.OpGet "k"; cmd_plain Cmd.OpStats; cmd_auth "guess";
   cmd_plain Cmd.OpPing].

Lemma full_session_witness :
  let '(txt, v) := spec_run (limits_of demo_config) demo_env "secret" 0 false demo_protected (new_aserver demo_config []) in
  take 46 txt = line "AUTHENTICATED" ++ line "STORED" ++ line "VALUE k 2" ++ line "zz" ++ line "END" ++ "STA" /\
  as_counts v authFailures = 1 /\ as_counts v cmdPing = 0 /\
  exists s', serveConn demo_env (new_session (New demo_config) "secret" 0
      (Reader (concat (map encode demo_protected)) EOF) None) = Done (None, s') /\
    sent (out s') = txt /\ buffered (out s') = [] /\
    store_rel (good (limits_of demo_config)) (sv_store (srv s')) (as_store v) /\
    counts (srv s') = as_counts v.
Proof.
  pose proof (full_session demo_config [] [] (New demo_config) demo_env demo_protected "secret" 0
    (serveConn demo_env) demo_config_ok ltac:(vm_compute; congruence) demo_new_reach demo_env_ok
    ltac:(vm_compute; reflexivity) ltac:(vm_compute; reflexivity) ltac:(right; reflexivity)) as H.
  change (bool_decide ("secret" = ([] : bytes))) with false in H.
  destruct (spec_run (limits_of demo_config) demo_env "secret" 0 false demo_protected
    (new_aserver demo_config [])) as [txt v] eqn:E.
  assert (Ht : take 46 (fst (txt, v)) = line "AUTHENTICATED" ++ line "STORED" ++ line "VALUE k 2" ++ line "zz" ++
    line "END" ++ "STA") by (rewrite <- E; vm_compute; reflexivity).
  assert (Hf : as_counts (snd (txt, v)) authFailures = 1) by (rewrite <- E; vm_compute; reflexivity).
  assert (Hp : as_counts (snd (txt, v)) cmdPing = 0) by (rewrite <- E; vm_compute; reflexivity).
  repeat (split; [assumption|]). exact H.
Defined.
