(* ===== verification/Lifecycle.v ===== *)
(** * Connections and shutdown ([src/internal/server/server.go])

    [ServeConn] runs in one goroutine per connection, next to [Shutdown].  The
    model is a transition system: every goroutine has a program counter, every
    atomic operation of the code (an atomic add, a channel operation, a
    critical section of [connsMu], a [WaitGroup] call) is one step, and a run
    is any interleaving of steps.  Reading goes through a buffer: what a
    connection delivered before it was closed, or before its deadline passed,
    is still parsed and executed. *)

From S2P Require Import Prelude.

(** ** State *)

(** Where a goroutine is in [ServeConn]: which operation comes next. *)
Inductive phase :=
| Accepted      (* connectionsOpened.Add(1) *)
| Opened        (* acquireSlot *)
| Refused       (* connectionsRejected.Add(1), the error line, conn.Close *)
| Slotted       (* wg.Add(1) *)
| Joined        (* registerConn *)
| Registered    (* connectionsActive.Add(1) *)
| LoopTop       (* serveConn: SetReadDeadline *)
| Reading       (* ReadCommand *)
| Working       (* handling a command *)
| Leaving       (* deferred conn.Close *)
| Closed        (* deferred connectionsActive.Add(-1) *)
| Inactive      (* deferred deregisterConn *)
| Deregistered  (* deferred wg.Done *)
| Departed      (* deferred releaseSlot *)
| Gone          (* returned after serving *)
| Turned.       (* returned after a refusal *)

Global Instance phase_eq_dec : EqDecision phase.
Proof. solve_decision. Defined.

Inductive deadline := NoDeadline | IdleDeadline | PastDeadline.

Global Instance deadline_eq_dec : EqDecision deadline.
Proof. solve_decision. Defined.

(** [pending]: the complete commands already received into the buffers of the
    process and not parsed yet. *)
Record conn := Conn { ph : phase; dl : deadline; is_closed : bool; pending : nat }.

(** Where [Shutdown] is: in its [select], waiting for [done] after the forced
    closing, or back in its caller. *)
Inductive shutdown := NotCalled | Waiting | Forced | Returned (clean : bool).

Record life := Life {
  threads : list conn;            (* goroutine [i] serves connection [i] *)
  cap : option Z;                 (* capacity of the semaphore, if there is one *)
  idle : bool;                    (* idleTimeout > 0 *)
  sem : Z;                        (* tokens in the semaphore *)
  wg : Z;
  conns : gset nat;
  active : Z;
  opened : Z;
  rejected : Z;
  down : shutdown;
  drained : bool                  (* the channel [done] of Shutdown is closed *)
}.

Definition new_life (cap : option Z) (idle : bool) : life :=
  Life [] cap idle 0 0 ∅ 0 0 0 NotCalled false.

(** [WithMaxConnections]. *)
Definition WithMaxConnections (n : Z) : option Z := if 0 <? n then Some n else None.

(** ** Steps *)

Definition set_phase (i : nat) (p : phase) (s : life) : life :=
  Life (alter (fun c => Conn p (dl c) (is_closed c) (pending c)) i (threads s)) (cap s) (idle s) (sem s) (wg s)
    (conns s) (active s) (opened s) (rejected s) (down s) (drained s).
Definition set_conn (i : nat) (f : conn -> conn) (s : life) : life :=
  Life (alter f i (threads s)) (cap s) (idle s) (sem s) (wg s)
    (conns s) (active s) (opened s) (rejected s) (down s) (drained s).
Definition add_sem (d : Z) (s : life) : life :=
  Life (threads s) (cap s) (idle s) (sem s + d) (wg s) (conns s) (active s) (opened s) (rejected s) (down s) (drained s).
Definition add_wg (d : Z) (s : life) : life :=
  Life (threads s) (cap s) (idle s) (sem s) (wg s + d) (conns s) (active s) (opened s) (rejected s) (down s) (drained s).
Definition set_conns (f : gset nat -> gset nat) (s : life) : life :=
  Life (threads s) (cap s) (idle s) (sem s) (wg s) (f (conns s)) (active s) (opened s) (rejected s) (down s) (drained s).
Definition add_active (d : Z) (s : life) : life :=
  Life (threads s) (cap s) (idle s) (sem s) (wg s) (conns s) (active s + d) (opened s) (rejected s) (down s) (drained s).
Definition add_opened (s : life) : life :=
  Life (threads s) (cap s) (idle s) (sem s) (wg s) (conns s) (active s) (opened s + 1) (rejected s) (down s) (drained s).
Definition add_rejected (s : life) : life :=
  Life (threads s) (cap s) (idle s) (sem s) (wg s) (conns s) (active s) (opened s) (rejected s + 1) (down s) (drained s).
Definition set_down (d : shutdown) (s : life) : life :=
  Life (threads s) (cap s) (idle s) (sem s) (wg s) (conns s) (active s) (opened s) (rejected s) d (drained s).

Definition close_done (s : life) : life :=
  Life (threads s) (cap s) (idle s) (sem s) (wg s) (conns s) (active s) (opened s) (rejected s) (down s) true.

(** [acquireSlot]: a non-blocking send on the semaphore. *)
Definition acquireSlot (i : nat) (s : life) : life :=
  match cap s with
  | None => set_phase i Slotted s
  | Some n => if sem s <? n then set_phase i Slotted (add_sem 1 s) else set_phase i Refused s
  end.

Definition releaseSlot (s : life) : life :=
  match cap s with None => s | Some _ => add_sem (-1) s end.

(** What the rest of the world does for a step of a connection's loop. *)
Inductive input :=
| Data (n : nat)   (* conn.Read delivers bytes; they complete [n] commands *)
| More             (* ReadCommand returns a command; handling it does not end the loop *)
| Stop.            (* ReadCommand fails: end of input, a malformed command, a closed
                      connection, an expired deadline; handling ends the loop: a failed
                      authentication, an error of execute or Flush *)

Global Instance input_eq_dec : EqDecision input.
Proof. solve_decision. Defined.

(** [conn.Read] can deliver bytes: the connection is open and its deadline has
    not been set to the past. *)
Definition readable (c : conn) : bool := negb (is_closed c) && negb (bool_decide (dl c = PastDeadline)).

(** [ReadCommand]: commands that are complete in the buffer are returned
    without reading from the connection; only then is the connection read. *)
Definition read_step (i : nat) (inp : input) (c : conn) (s : life) : option life :=
  match pending c, inp with
  | S n, More => Some (set_conn i (fun c => Conn Working (dl c) (is_closed c) n) s)
  | O, Data n =>
      if readable c then Some (set_conn i (fun c => Conn Reading (dl c) (is_closed c) n) s) else None
  | O, Stop => Some (set_phase i Leaving s)
  | _, _ => None
  end.

(** One step of goroutine [i]; only the loop consults the input. *)
Definition advance (i : nat) (inp : input) (s : life) : option life :=
  c ← threads s !! i;
  match ph c with
  | Accepted => Some (set_phase i Opened (add_opened s))
  | Opened => Some (acquireSlot i s)
  | Refused => Some (set_conn i (fun c => Conn Turned (dl c) true (pending c)) (add_rejected s))
  | Slotted => Some (set_phase i Joined (add_wg 1 s))
  | Joined => Some (set_phase i Registered (set_conns (fun m => {[i]} ∪ m) s))
  | Registered => Some (set_phase i LoopTop (add_active 1 s))
  | LoopTop =>
      Some (set_conn i (fun c => Conn Reading (if idle s then IdleDeadline else dl c) (is_closed c)
        (pending c)) s)
  | Reading => read_step i inp c s
  | Working =>
      match inp with
      | More => Some (set_phase i LoopTop s)
      | Stop => Some (set_phase i Leaving s)
      | Data _ => None
      end
  | Leaving => Some (set_conn i (fun c => Conn Closed (dl c) true (pending c)) s)
  | Closed => Some (set_phase i Inactive (add_active (-1) s))
  | Inactive => Some (set_phase i Deregistered (set_conns (fun m => m ∖ {[i]}) s))
  | Deregistered => Some (set_phase i Departed (add_wg (-1) s))
  | Departed => Some (set_phase i Gone (releaseSlot s))
  | Gone | Turned => None
  end.

(** The critical sections of [Shutdown]: over all registered connections. *)
Definition for_conns (f : conn -> conn) (s : life) : life :=
  Life (imap (fun i c => if decide (i ∈ conns s) then f c else c) (threads s)) (cap s) (idle s) (sem s)
    (wg s) (conns s) (active s) (opened s) (rejected s) (down s) (drained s).

Inductive action :=
| Accept                        (* a new goroutine for a new connection *)
| Step (i : nat) (inp : input)
| ShutdownStart                 (* SetReadDeadline on every registered connection *)
| WaitReturns                   (* the helper goroutine: wg.Wait returns, close(done) *)
| ShutdownExpire                (* select takes ctx.Done: close every registered connection *)
| ShutdownReturn.               (* <-done, in the select or after the forced closing *)

Global Instance action_eq_dec : EqDecision action.
Proof. solve_decision. Defined.

Definition exec (a : action) (s : life) : option life :=
  match a with
  | Accept =>
      Some (Life (threads s ++ [Conn Accepted NoDeadline false 0]) (cap s) (idle s) (sem s) (wg s)
              (conns s) (active s) (opened s) (rejected s) (down s) (drained s))
  | Step i inp => advance i inp s
  | ShutdownStart =>
      match down s with
      | NotCalled =>
          Some (set_down Waiting (for_conns (fun c => Conn (ph c) PastDeadline (is_closed c) (pending c)) s))
      | _ => None
      end
  | WaitReturns =>
      match down s with
      | NotCalled => None
      | _ => if (wg s =? 0) && negb (drained s) then Some (close_done s) else None
      end
  | ShutdownExpire =>
      match down s with
      | Waiting => Some (set_down Forced (for_conns (fun c => Conn (ph c) (dl c) true (pending c)) s))
      | _ => None
      end
  | ShutdownReturn =>
      if drained s then
        match down s with
        | Waiting => Some (set_down (Returned true) s)
        | Forced => Some (set_down (Returned false) s)
        | _ => None
        end
      else None
  end.

(** Runs. *)
Inductive reach (cap0 : option Z) (idle0 : bool) : life -> Prop :=
| reach_init : reach cap0 idle0 (new_life cap0 idle0)
| reach_step s a s' : reach cap0 idle0 s -> exec a s = Some s' -> reach cap0 idle0 s'.

Fixpoint run (acts : list action) (s : life) : option life :=
  match acts with [] => Some s | a :: acts' => s' ← exec a s; run acts' s' end.

(** ** The invariant *)

(** The phases between an operation and the deferred one that undoes it. *)
Definition holds_slot (p : phase) : bool :=
  match p with Accepted | Opened | Refused | Gone | Turned => false | _ => true end.
Definition in_group (p : phase) : bool :=
  holds_slot p && negb (bool_decide (p = Slotted)) && negb (bool_decide (p = Departed)).
Definition in_conns (p : phase) : bool :=
  in_group p && negb (bool_decide (p = Joined)) && negb (bool_decide (p = Deregistered)).
Definition is_active (p : phase) : bool :=
  in_conns p && negb (bool_decide (p = Registered)) && negb (bool_decide (p = Inactive)).
Definition was_opened (p : phase) : bool := negb (bool_decide (p = Accepted)).
Definition was_rejected (p : phase) : bool := bool_decide (p = Turned).

(** How many goroutines are in such a phase. *)
Definition cnt (f : phase -> bool) (l : list conn) : Z :=
  sumZ (map (fun c => Z.b2z (f (ph c))) l).

Record life_inv (s : life) : Prop := {
  inv_sem : sem s = match cap s with None => 0 | Some _ => cnt holds_slot (threads s) end;
  inv_cap : forall n, cap s = Some n -> 0 < n -> sem s <= n;
  inv_wg : wg s = cnt in_group (threads s);
  inv_active : active s = cnt is_active (threads s);
  inv_opened : opened s = cnt was_opened (threads s);
  inv_rejected : rejected s = cnt was_rejected (threads s);
  inv_conns : forall i, i ∈ conns s <-> exists c, threads s !! i = Some c /\ in_conns (ph c) = true
}.

Lemma cnt_nonneg f l : 0 <= cnt f l.
Proof.
  unfold cnt. induction l as [|c l IH]; [done|]. unfold sumZ in *. simpl. destruct (f (ph c)); simpl; lia.
Qed.

Lemma cnt_app f l1 l2 : cnt f (l1 ++ l2) = cnt f l1 + cnt f l2.
Proof. unfold cnt. by rewrite map_app, sumZ_app. Qed.

(** Moving one goroutine. *)
Lemma cnt_alter f g l i c :
  l !! i = Some c -> cnt f (alter g i l) = cnt f l - Z.b2z (f (ph c)) + Z.b2z (f (ph (g c))).
Proof.
  revert i. unfold cnt. induction l as [|d l IH]; intros [|i] Hi; simplify_eq/=; [lia|].
  rewrite (IH i Hi). lia.
Qed.

Lemma cnt_same f l l' : map ph l = map ph l' -> cnt f l = cnt f l'.
Proof.
  unfold cnt. intros E. replace (map (fun c => Z.b2z (f (ph c))) l) with (map (fun p => Z.b2z (f p)) (map ph l)).
  - rewrite E. by rewrite map_map.
  - by rewrite map_map.
Qed.

Lemma imap_ph (P : nat -> conn -> conn) l :
  (forall i c, ph (P i c) = ph c) -> map ph (imap P l) = map ph l.
Proof.
  revert P. induction l as [|c l IH]; intros P HP; [done|]. simpl. rewrite HP. f_equal. apply IH. intros. apply HP.
Qed.

(** The membership part, when goroutine [i] moves. *)
Lemma conns_alter (m m' : gset nat) (l : list conn) (i : nat) (g : conn -> conn) (c : conn) :
  (forall j, j ∈ m <-> exists d, l !! j = Some d /\ in_conns (ph d) = true) ->
  l !! i = Some c ->
  (forall j, j <> i -> j ∈ m' <-> j ∈ m) -> (i ∈ m' <-> in_conns (ph (g c)) = true) ->
  forall j, j ∈ m' <-> exists d, alter g i l !! j = Some d /\ in_conns (ph d) = true.
Proof.
  intros Hm Hi Hoth Hself j. destruct (decide (j = i)) as [->|Hj].
  - rewrite list_lookup_alter_eq, Hi. simpl. rewrite Hself. naive_solver.
  - rewrite list_lookup_alter_ne by done. rewrite Hoth by done. apply Hm.
Qed.

Lemma new_life_inv c0 i0 : life_inv (new_life c0 i0).
Proof.
  split; simpl; try done.
  - by destruct c0.
  - intros; lia.
  - intros i. split; [set_solver|]. intros (c & Hc & _). by rewrite lookup_nil in Hc.
Qed.

Lemma for_conns_inv f d s :
  (forall c, ph (f c) = ph c) -> life_inv s -> life_inv (set_down d (for_conns f s)).
Proof.
  intros Hf [I1 I2 I3 I4 I5 I6 I7].
  assert (Hph : forall g, cnt g (imap (fun i c => if decide (i ∈ conns s) then f c else c) (threads s)) =
    cnt g (threads s)).
  { intros g. apply cnt_same, imap_ph. intros i c. by case_decide. }
  split; unfold for_conns; simpl; rewrite ?Hph; try done.
  intros i. rewrite I7. setoid_rewrite list_lookup_imap.
  split; intros (c & Hc & Hp).
  - rewrite Hc. simpl. eexists. split; [done|]. case_decide; rewrite ?Hf; done.
  - destruct (threads s !! i) as [c0|] eqn:E; [|done]. simpl in Hc. simplify_eq. exists c0.
    split; [done|]. case_decide; rewrite ?Hf in Hp; done.
Qed.

Lemma set_down_inv d s : life_inv s -> life_inv (set_down d s).
Proof. intros [I1 I2 I3 I4 I5 I6 I7]. by split. Qed.

Lemma close_done_inv s : life_inv s -> life_inv (close_done s).
Proof. intros [I1 I2 I3 I4 I5 I6 I7]. by split. Qed.

(** How a move from phase [p] to phase [q] changes a count. *)
Definition delta (f : phase -> bool) (p q : phase) : Z := Z.b2z (f q) - Z.b2z (f p).

(** A step of goroutine [i] keeps the invariant if it changes every counter as
    its own move does. *)
Lemma move_inv s s' i c g q :
  life_inv s -> threads s !! i = Some c -> threads s' = alter g i (threads s) -> ph (g c) = q ->
  cap s' = cap s ->
  sem s' = sem s + match cap s with None => 0 | Some _ => delta holds_slot (ph c) q end ->
  (forall n, cap s = Some n -> 0 < n -> sem s' <= n) ->
  wg s' = wg s + delta in_group (ph c) q -> active s' = active s + delta is_active (ph c) q ->
  opened s' = opened s + delta was_opened (ph c) q ->
  rejected s' = rejected s + delta was_rejected (ph c) q ->
  conns s' = (if in_conns q then {[i]} ∪ conns s else conns s ∖ {[i]}) ->
  life_inv s'.
Proof.
  intros [I1 I2 I3 I4 I5 I6 I7] Hi Ht Hq Hcap Hsem Hle Hwg Hact Hop Hrej Hcon. unfold delta in *.
  split; rewrite ?Ht, ?(cnt_alter _ _ _ _ _ Hi), ?Hq, ?Hcap; try lia; [| |].
  - destruct (cap s); lia.
  - done.
  - rewrite Hcon. eapply conns_alter; [exact I7|exact Hi| |rewrite Hq]; destruct (in_conns q); set_solver.
Qed.

Lemma conns_in s i c : life_inv s -> threads s !! i = Some c ->
  conns s = (if in_conns (ph c) then {[i]} ∪ conns s else conns s ∖ {[i]}).
Proof.
  intros HI Hi. pose proof (inv_conns s HI i) as Hc. rewrite Hi in Hc.
  destruct (in_conns (ph c)) eqn:E; apply set_eq; intros j.
  - assert (Hin : i ∈ conns s) by (apply Hc; eauto). set_solver.
  - assert (Hin : i ∉ conns s) by (intros (c0 & [= <-] & Hx)%Hc; congruence). set_solver.
Qed.

(** Check the side conditions of [move_inv] for a concrete step. *)
Ltac moved HI Hi Hp Hcon :=
  eapply (move_inv _ _ _ _ _ _ HI Hi); [reflexivity|reflexivity|..]; rewrite ?Hp; cbn;
  repeat match goal with
  | |- context [delta ?f ?p ?q] => let v := eval vm_compute in (delta f p q) in change (delta f p q) with v
  end;
  first [reflexivity | exact Hcon | lia | done | (destruct (cap _); lia) | idtac].

Lemma acquireSlot_inv s i c :
  life_inv s -> threads s !! i = Some c -> ph c = Opened -> life_inv (acquireSlot i s).
Proof.
  intros HI Hi Hp. pose proof (conns_in s i c HI Hi) as Hcon. pose proof (inv_cap s HI) as Hle.
  rewrite Hp in Hcon. unfold acquireSlot.
  destruct (cap s) as [n|] eqn:Hcap; [destruct (Z.ltb_spec (sem s) n)|]; moved HI Hi Hp Hcon;
    rewrite ?Hcap; try lia; intros m [= <-] Hpos; specialize (Hle _ eq_refl Hpos); lia.
Qed.

Lemma releaseSlot_inv s i c :
  life_inv s -> threads s !! i = Some c -> ph c = Departed -> life_inv (set_phase i Gone (releaseSlot s)).
Proof.
  intros HI Hi Hp. pose proof (conns_in s i c HI Hi) as Hcon. pose proof (inv_cap s HI) as Hle.
  rewrite Hp in Hcon. unfold releaseSlot.
  destruct (cap s) as [n|] eqn:Hcap; moved HI Hi Hp Hcon;
    rewrite ?Hcap; try lia; intros m [= <-] Hpos; specialize (Hle _ eq_refl Hpos); lia.
Qed.

Lemma advance_inv i inp s s' : life_inv s -> advance i inp s = Some s' -> life_inv s'.
Proof.
  intros HI. pose proof (inv_cap s HI) as Hle. unfold advance.
  destruct (threads s !! i) as [c|] eqn:Hi; [|done]. simpl.
  pose proof (conns_in s i c HI Hi) as Hcon.
  destruct (ph c) eqn:Hp; try (intros E; simplify_eq; rewrite ?Hp in Hcon; moved HI Hi Hp Hcon; fail).
  - intros [= <-]. by eapply acquireSlot_inv.
  - unfold read_step. destruct (pending c), inp; try done; [destruct (readable c); [|done]|..];
      intros [= <-]; moved HI Hi Hp Hcon.
  - destruct inp; try done; intros [= <-]; moved HI Hi Hp Hcon.
  - intros [= <-]. by eapply releaseSlot_inv.
Qed.

Lemma accept_inv s s' : life_inv s -> exec Accept s = Some s' -> life_inv s'.
Proof.
  intros [I1 I2 I3 I4 I5 I6 I7] [= <-].
  assert (Hnew : forall f, f Accepted = false ->
    cnt f (threads s ++ [Conn Accepted NoDeadline false 0]) = cnt f (threads s)).
  { intros f Hf. rewrite cnt_app. unfold cnt at 2, sumZ. simpl. rewrite Hf. simpl. lia. }
  split; cbn [threads sem cap wg active opened rejected conns]; rewrite ?Hnew by done; try done.
  - intros i. rewrite I7. split; intros (c & Hc & Hp); exists c; (split; [|done]).
    + by apply lookup_app_l_Some.
    + apply lookup_app_Some in Hc as [?|[_ Hc]]; [done|].
      apply list_lookup_singleton_Some in Hc as [_ <-]. discriminate Hp.
Qed.

Lemma exec_inv a s s' : life_inv s -> exec a s = Some s' -> life_inv s'.
Proof.
  intros HI. destruct a as [|i inp| | | |]; simpl.
  - by apply accept_inv.
  - by apply advance_inv.
  - destruct (down s); intros [= <-]. by apply for_conns_inv.
  - destruct (down s), ((wg s =? 0) && negb (drained s)); intros [= <-]; by apply close_done_inv.
  - destruct (down s); intros [= <-]. by apply for_conns_inv.
  - destruct (drained s), (down s); intros [= <-]; by apply set_down_inv.
Qed.

Lemma reach_inv c0 i0 s : reach c0 i0 s -> life_inv s.
Proof. induction 1; [apply new_life_inv|by eapply exec_inv]. Qed.

(** A step of a connection changes neither the configuration nor [Shutdown],
    and no goroutine but its own. *)
Lemma advance_frame i inp s s' : advance i inp s = Some s' ->
  cap s' = cap s /\ idle s' = idle s /\ down s' = down s /\ drained s' = drained s /\
  exists g, threads s' = alter g i (threads s).
Proof.
  unfold advance, acquireSlot, releaseSlot, read_step. intros E.
  destruct (threads s !! i) as [c|]; [|done]. simpl in E.
  destruct (ph c); try discriminate E; repeat (case_match; try discriminate E); injection E as <-;
    (do 4 (split; [done|])); eexists; reflexivity.
Qed.

Lemma exec_cap a s s' : exec a s = Some s' -> cap s' = cap s /\ idle s' = idle s.
Proof.
  destruct a as [|i inp| | | |]; simpl; intros E; [by simplify_eq|apply advance_frame in E; naive_solver|..];
    repeat (case_match; try discriminate E); by simplify_eq.
Qed.

Lemma reach_cap c0 i0 s : reach c0 i0 s -> cap s = c0.
Proof. induction 1 as [|s a s' _ IH E]; [done|]. apply exec_cap in E as [-> _]. done. Qed.

Lemma run_reach c0 i0 acts : forall s s', reach c0 i0 s -> run acts s = Some s' -> reach c0 i0 s'.
Proof.
  induction acts as [|a acts IH]; intros s s' Hr; simpl; [by intros [= <-]|].
  destruct (exec a s) as [s1|] eqn:E; simpl; [|done]. apply IH. by eapply reach_step.
Qed.

Lemma cnt_mono f g l : (forall p, f p = true -> g p = true) -> cnt f l <= cnt g l.
Proof.
  intros Hfg. unfold cnt. induction l as [|c l IH]; [done|]. unfold sumZ in *. simpl.
  pose proof (Hfg (ph c)). destruct (f (ph c)), (g (ph c)); simpl; naive_solver lia.
Qed.

Lemma cnt_zero f l : Forall (fun c => f (ph c) = false) l -> cnt f l = 0.
Proof. unfold cnt, sumZ. induction 1 as [|c l Hc _ IH]; [done|]. simpl. by rewrite Hc, IH. Qed.

Lemma cnt_zero_inv f l i c : cnt f l = 0 -> l !! i = Some c -> f (ph c) = false.
Proof.
  intros Hz Hi. destruct (f (ph c)) eqn:E; [|done]. exfalso.
  pose proof (cnt_alter f (fun _ => Conn Accepted NoDeadline false 0) l i c Hi) as Ha.
  apply list_elem_of_split_length in Hi as (l1 & l2 & -> & _).
  change (l1 ++ c :: l2) with (l1 ++ [c] ++ l2) in Hz. rewrite !cnt_app in Hz.
  pose proof (cnt_nonneg f l1). pose proof (cnt_nonneg f l2).
  unfold cnt at 2, sumZ in Hz. cbn in Hz. rewrite E in Hz. simpl in Hz. lia.
Qed.

(** Outside [in_group] a goroutine has not started serving or has finished. *)
Lemma group_empty s : life_inv s -> wg s = 0 -> conns s = ∅ /\ active s = 0 /\
  forall i c, threads s !! i = Some c -> in_group (ph c) = false.
Proof.
  intros HI Hwg. pose proof (inv_wg s HI) as Hc. rewrite Hwg in Hc. symmetry in Hc.
  assert (Hout : forall i c, threads s !! i = Some c -> in_group (ph c) = false)
    by (intros i c; by apply cnt_zero_inv).
  split_and!; [| |done].
  - apply leibniz_equiv. intros i. rewrite (inv_conns s HI). split; [|set_solver].
    intros (c & Hi & Hp). apply Hout in Hi. unfold in_conns in Hp. by rewrite Hi in Hp.
  - rewrite (inv_active s HI). pose proof (cnt_nonneg is_active (threads s)).
    pose proof (cnt_mono is_active in_group (threads s) ltac:(by intros [])). lia.
Qed.

(** ** The course of a shutdown *)

(** What each action needs of [Shutdown] and does to it. *)
Lemma exec_down a s s' : exec a s = Some s' ->
  match a with
  | Accept | Step _ _ => down s' = down s /\ drained s' = drained s
  | ShutdownStart => down s = NotCalled /\ down s' = Waiting /\ drained s' = drained s
  | WaitReturns => down s <> NotCalled /\ down s' = down s /\ wg s = 0 /\ drained s = false /\ drained s' = true
  | ShutdownExpire => down s = Waiting /\ down s' = Forced /\ drained s' = drained s
  | ShutdownReturn => drained s = true /\ drained s' = true /\
      (down s = Waiting /\ down s' = Returned true \/ down s = Forced /\ down s' = Returned false)
  end.
Proof.
  destruct a as [|i inp| | | |]; simpl; intros E.
  - by simplify_eq.
  - apply advance_frame in E. naive_solver.
  - destruct (down s); by simplify_eq.
  - destruct (down s) eqn:Ed, (Z.eqb_spec (wg s) 0), (drained s); try discriminate E; by injection E as <-.
  - destruct (down s); by simplify_eq.
  - destruct (drained s) eqn:?, (down s); simplify_eq; naive_solver.
Qed.

Lemma run_snoc acts a : forall s s2,
  run (acts ++ [a]) s = Some s2 <-> exists s1, run acts s = Some s1 /\ exec a s1 = Some s2.
Proof.
  induction acts as [|b acts IH]; intros s s2; cbn [run app].
  - destruct (exec a s) eqn:E; simpl; naive_solver.
  - destruct (exec b s) as [s'|]; simpl; [apply IH|naive_solver].
Qed.

Definition was_called (d : shutdown) : bool := match d with NotCalled => false | _ => true end.
Definition has_returned (d : shutdown) : bool := match d with Returned _ => true | _ => false end.
Definition was_forced (d : shutdown) : bool := match d with Forced | Returned false => true | _ => false end.

(** What the actions so far say about [Shutdown]. *)
Record history (s0 : life) (acts : list action) (s : life) : Prop := {
  hist_start : ShutdownStart ∈ acts <-> was_called (down s) = true;
  hist_return : ShutdownReturn ∈ acts <-> has_returned (down s) = true;
  hist_returned : has_returned (down s) = true -> drained s = true;
  hist_expire : ShutdownExpire ∈ acts <-> was_forced (down s) = true;
  hist_drained : drained s = true -> exists before after s1,
    acts = before ++ WaitReturns :: after /\ run before s0 = Some s1 /\ wg s1 = 0 /\
    ShutdownStart ∈ before /\ ShutdownReturn ∉ before
}.

Lemma history_step s0 acts a s s' :
  run acts s0 = Some s -> history s0 acts s -> exec a s = Some s' -> history s0 (acts ++ [a]) s'.
Proof.
  intros Hrun [H1 H2 H3 H4 H5] E. pose proof (exec_down a s s' E) as Hd.
  assert (Hkeep : drained s = true -> exists before after s1,
    acts ++ [a] = before ++ WaitReturns :: after /\ run before s0 = Some s1 /\ wg s1 = 0 /\
    ShutdownStart ∈ before /\ ShutdownReturn ∉ before).
  { intros (before & after & s1 & -> & ?)%H5. exists before, (after ++ [a]), s1. by rewrite <- app_assoc. }
  assert (Hin : forall b, b ∈ acts ++ [a] <-> b ∈ acts \/ b = a)
    by (intros b; rewrite elem_of_app, list_elem_of_singleton; done).
  destruct a as [|i inp| | | |]; (split; [rewrite Hin, H1|rewrite Hin, H2| |rewrite Hin, H4|]);
    destruct_and?; destruct_or?; destruct_and?;
    repeat match goal with H : down s' = _ |- _ => rewrite H in * | H : drained s' = _ |- _ => rewrite H in * end;
    repeat match goal with H : down s = _ |- _ => rewrite H in * end; cbn in *;
    try done; try (intuition (congruence || discriminate); fail).
  intros _. exists acts, [], s. do 3 (split; [done|]). split; [by apply H1; destruct (down s)|].
  intros Hx%H2%H3. congruence.
Qed.

Lemma run_history c0 i0 acts : forall s, run acts (new_life c0 i0) = Some s -> history (new_life c0 i0) acts s.
Proof.
  induction acts as [|a acts IH] using rev_ind; intros s.
  - intros [= <-]. split; rewrite ?elem_of_nil; naive_solver.
  - intros (s1 & H1 & H2)%run_snoc. by eapply history_step; eauto.
Qed.

(** Two connections with a cap of one: the second is refused, the first served. *)
Definition demo_acts : list action :=
  [Accept; Accept; Step 0 More; Step 0 More; Step 1 More; Step 1 More; Step 1 More] ++
  replicate 4 (Step 0 More) ++ [Step 0 (Data 1); Step 0 More] ++ replicate 6 (Step 0 Stop).

Definition demo_life : life :=
  match run demo_acts (new_life (WithMaxConnections 1) false) with Some s => s | None => new_life None false end.

Lemma demo_life_reach : reach (WithMaxConnections 1) false demo_life.
Proof. eapply (run_reach _ _ demo_acts); [apply reach_init|vm_compute; reflexivity]. Qed.

(** ** Theorems *)

(** C11: The connection cap holds under every interleaving: with
    [WithMaxConnections n] at most [n] goroutines hold a slot at any moment,
    the semaphore counts exactly those, and [connectionsActive] is exactly the
    number of connections being served, hence at most [n]. *)
Theorem max_connections (n : Z) (idle0 : bool) (s : life) :
  0 < n -> reach (WithMaxConnections n) idle0 s ->
  sem s = cnt holds_slot (threads s) /\ sem s <= n /\
  active s = cnt is_active (threads s) /\ 0 <= active s <= sem s.
Proof.
  intros Hn Hr. pose proof (reach_inv _ _ _ Hr) as HI. pose proof (reach_cap _ _ _ Hr) as Hc.
  unfold WithMaxConnections in Hc. destruct (Z.ltb_spec 0 n); [|lia].
  pose proof (inv_sem s HI) as Hs. rewrite Hc in Hs. rewrite (inv_active s HI).
  pose proof (inv_cap s HI n Hc Hn). pose proof (cnt_nonneg is_active (threads s)).
  pose proof (cnt_mono is_active holds_slot (threads s) ltac:(by intros [])). lia.
Qed.

Lemma max_connections_witness :
  sem demo_life = cnt holds_slot (threads demo_life) /\ sem demo_life <= 1 /\
  active demo_life = cnt is_active (threads demo_life) /\ 0 <= active demo_life <= sem demo_life.
Proof. apply (max_connections 1 false demo_life); [lia|exact demo_life_reach]. Defined.

(** C23: No leak: once every goroutine has returned, on whatever path, the
    semaphore is empty, the wait group is at zero, no connection is registered
    or counted active, and every connection opened was either served or
    counted as rejected. *)
Theorem quiescent_clean (cap0 : option Z) (idle0 : bool) (s : life) :
  reach cap0 idle0 s -> Forall (fun c => ph c = Gone \/ ph c = Turned) (threads s) ->
  sem s = 0 /\ wg s = 0 /\ conns s = ∅ /\ active s = 0 /\ opened s = len (threads s) /\
  rejected s = len (filter (fun c => ph c = Turned) (threads s)).
Proof.
  intros Hr HF. pose proof (reach_inv _ _ _ Hr) as HI.
  assert (Hz : forall f, f Gone = false -> f Turned = false -> cnt f (threads s) = 0).
  { intros f H1 H2. apply cnt_zero. eapply Forall_impl; [exact HF|]. by intros c [-> | ->]. }
  rewrite (inv_sem s HI), (inv_wg s HI), (inv_active s HI), (inv_opened s HI), (inv_rejected s HI).
  rewrite (Hz in_group), (Hz is_active), (Hz holds_slot) by done. split_and!; [by destruct (cap s)|done| |done|..].
  - apply leibniz_equiv. intros i. rewrite (inv_conns s HI). split; [|set_solver].
    intros (c & Hc & Hp). rewrite Forall_lookup in HF. destruct (HF i c Hc) as [E|E]; by rewrite E in Hp.
  - clear -HF. unfold cnt. induction HF as [|c l Hc _ IH]; [done|]. unfold sumZ in *. simpl.
    rewrite len_cons, IH. by destruct Hc as [-> | ->].
  - clear -HF. unfold cnt. induction HF as [|c l Hc _ IH]; [done|]. unfold sumZ in *. simpl.
    rewrite filter_cons, IH. destruct Hc as [-> | ->]; simpl; [done|]. by rewrite len_cons.
Qed.

Lemma quiescent_clean_witness :
  opened demo_life = 2 /\ rejected demo_life = 1 /\ sem demo_life = 0 /\ wg demo_life = 0 /\
  conns demo_life = ∅ /\ active demo_life = 0.
Proof.
  destruct (quiescent_clean (WithMaxConnections 1) false demo_life demo_life_reach)
    as (H1 & H2 & H3 & H4 & H5 & H6).
  - vm_compute. constructor; [left; reflexivity|]. constructor; [right; reflexivity|]. constructor.
  - split; [exact H5|]. split; [exact H6|]. split; [exact H1|]. split; [exact H2|]. split; [exact H3|exact H4].
Defined.

(** C24: [Shutdown] returns only after the drain it waits for.  However the run
    that led there interleaved, its first pass came first, then there was a
    moment at which no connection was being served (no goroutine between its
    [wg.Add] and its [wg.Done], none registered, none counted active), and only
    after that moment did [Shutdown] return.  It returned [nil] exactly if it
    never closed connections by force. *)
Theorem shutdown_waits (cap0 : option Z) (idle0 : bool) (acts : list action) (s : life) (clean : bool) :
  run acts (new_life cap0 idle0) = Some s -> down s = Returned clean ->
  exists before after (s0 : life),
    acts = before ++ WaitReturns :: after /\ run before (new_life cap0 idle0) = Some s0 /\
    ShutdownStart ∈ before /\ (ShutdownReturn ∉ before) /\
    conns s0 = ∅ /\ active s0 = 0 /\ (forall i c, threads s0 !! i = Some c -> in_group (ph c) = false) /\
    (clean = true <-> (ShutdownExpire ∉ acts)).
Proof.
  intros Hrun Hd. destruct (run_history cap0 idle0 acts s Hrun) as [_ _ Hr He Hdr].
  destruct (Hdr (Hr ltac:(by rewrite Hd))) as (before & after & s0 & -> & Hs0 & Hwg & Hin & Hout).
  exists before, after, s0.
  destruct (group_empty s0 (reach_inv _ _ _ (run_reach _ _ _ _ _ (reach_init _ _) Hs0)) Hwg) as (? & ? & ?).
  split_and!; try done; rewrite He, Hd; destruct clean; simpl; naive_solver.
Qed.

(** A connection that is closed by force while it is read, with one more
    command in its buffer. *)
Definition demo_forcing : list action :=
  [Accept] ++ replicate 6 (Step 0 More) ++ [Step 0 (Data 2); ShutdownStart; ShutdownExpire; Step 0 More; Step 0 More;
    Step 0 More; Step 0 More; Step 0 More; Step 0 More] ++ replicate 5 (Step 0 Stop) ++ [WaitReturns; ShutdownReturn].

Definition demo_forced : life :=
  match run demo_forcing (new_life None false) with Some s => s | None => new_life None false end.

Lemma shutdown_waits_witness :
  exists before after (s0 : life),
    demo_forcing = before ++ WaitReturns :: after /\ run before (new_life None false) = Some s0 /\
    ShutdownStart ∈ before /\ (ShutdownReturn ∉ before) /\ conns s0 = ∅ /\ active s0 = 0 /\
    (forall i c, threads s0 !! i = Some c -> in_group (ph c) = false) /\
    (false = true <-> (ShutdownExpire ∉ demo_forcing)).
Proof. apply (shutdown_waits None false demo_forcing demo_forced false); vm_compute; reflexivity. Defined.


(** C40: With an idle timeout a handler overwrites the deadline [Shutdown] set.
    The connection is registered and handles a command when the first pass of
    [Shutdown] gives it a deadline in the past; two steps of its own later it
    is reading under a full idle deadline and can receive the next command,
    while [Shutdown] waits.  Without an idle timeout the deadline of [Shutdown]
    stays, and nothing more can be received. *)
Theorem idle_deadline_overrides_shutdown :
  forall idle0, exists s0 s1 s2,
    reach None idle0 s0 /\ threads s0 = [Conn Working (if idle0 then IdleDeadline else NoDeadline) false 0] /\
    exec ShutdownStart s0 = Some s1 /\ conns s1 = {[0%nat]} /\ threads s1 = [Conn Working PastDeadline false 0] /\
    run [Step 0 More; Step 0 More] s1 = Some s2 /\ down s2 = Waiting /\ exec WaitReturns s2 = None /\
    threads s2 = [Conn Reading (if idle0 then IdleDeadline else PastDeadline) false 0] /\
    forall n, exec (Step 0 (Data n)) s2 =
      if idle0 then Some (set_conn 0 (fun _ => Conn Reading IdleDeadline false n) s2) else None.
Proof.
  intros []; do 3 eexists.
  all: split; [eapply (run_reach _ _ ([Accept] ++ replicate 6 (Step 0 More) ++ [Step 0 (Data 1); Step 0 More]));
    [apply reach_init|vm_compute; reflexivity]|].
  all: split; [reflexivity|].
  all: split; [vm_compute; reflexivity|]. 
  all: do 2 (split; [vm_compute; reflexivity|]).
  all: split; [vm_compute; reflexivity|].
  all: do 3 (split; [reflexivity|]).
  all: intros n; reflexivity.
Qed.
