(* ===== verification/Config.v ===== *)
(** * The configuration file ([src/internal/config/config.go])

    [Load] scans the file line by line, sets fields, and validates the result.
    The errors keep the part the caller can see: which line failed and why. *)

From S2P Require Import Prelude Strconv Float64 GoStrings.
From S2P Require Import Shard Store.

(** ** What the parser uses of the library *)

(** [strings.TrimSpace], on runes. *)
Fixpoint drop_spaces (l : list (Z * bytes)) : list (Z * bytes) :=
  match l with
  | (r, b) :: l' => if isSpace r then drop_spaces l' else l
  | [] => []
  end.

Definition TrimSpace (s : bytes) : bytes :=
  concat (map snd (rev (drop_spaces (rev (drop_spaces (segments s)))))).

(** [strings.Cut(s, sep)] for a one-byte separator. *)
Fixpoint Cut (sep : ascii) (s : bytes) : option (bytes * bytes) :=
  match s with
  | [] => None
  | c :: s' =>
      if decide (c = sep) then Some ([], s')
      else '(a, b) ← Cut sep s'; Some (c :: a, b)
  end.

(** [strconv.Atoi]: an optional sign and decimal digits, within 64 bits. *)
Definition Atoi (s : bytes) : Z + num_error :=
  let '(neg, digits) :=
    match s with
    | c :: s' => if decide (c = "-"%char) then (true, s')
                 else if decide (c = "+"%char) then (false, s') else (false, s)
    | [] => (false, s)
    end in
  match ParseUint digits with
  | inr e => inr e
  | inl n =>
      if (negb neg && (MaxInt64 <? n)) || (neg && (MaxInt64 + 1 <? n)) then inr ErrRange
      else inl (if neg then - n else n)
  end.

(** ** [time.ParseDuration] *)

(** [leadingInt]: the digits in front and the rest; [None] on overflow. *)
Fixpoint leadingInt (x : Z) (s : bytes) : option (Z * bytes) :=
  match s with
  | c :: s' =>
      if is_digit c then
        if 2 ^ 63 / 10 <? x then None
        else let x := x * 10 + digit_value c in
             if 2 ^ 63 <? x then None else leadingInt x s'
      else Some (x, s)
  | [] => Some (x, [])
  end.

(** [leadingFraction]: the digits after the point as [x / scale]; digits that
    would overflow are skipped. *)
Fixpoint leadingFraction (x : Z) (scale : float64) (overflow : bool) (s : bytes) : Z * float64 * bytes :=
  match s with
  | c :: s' =>
      if is_digit c then
        if overflow then leadingFraction x scale true s'
        else if (2 ^ 63 - 1) / 10 <? x then leadingFraction x scale true s'
        else let y := x * 10 + digit_value c in
             if 2 ^ 63 <? y then leadingFraction x scale true s'
             else leadingFraction y (fmul scale (of_int 10)) false s'
      else (x, scale, s)
  | [] => (x, scale, [])
  end.

(** The unit: everything up to the next digit or point. *)
Fixpoint span_unit (s : bytes) : bytes * bytes :=
  match s with
  | c :: s' =>
      if is_digit c || bool_decide (c = "."%char) then ([], s)
      else let '(u, rest) := span_unit s' in (c :: u, rest)
  | [] => ([], [])
  end.

(** [unitMap]; both spellings of the micro sign. *)
Definition unit_ns (u : bytes) : option Z :=
  if bool_decide (u = "ns") then Some 1
  else if bool_decide (u = "us") || bool_decide (u = ["194"; "181"; "s"]%char) ||
          bool_decide (u = ["206"; "188"; "s"]%char) then Some 1000
  else if bool_decide (u = "ms") then Some 1000000
  else if bool_decide (u = "s") then Some 1000000000
  else if bool_decide (u = "m") then Some 60000000000
  else if bool_decide (u = "h") then Some 3600000000000
  else None.

(** [uint64(float64(f) * (float64(unit) / scale))]. *)
Definition fraction_ns (f : Z) (scale : float64) (unit : Z) : Z :=
  to_int (fmul (of_int f) (fdiv (of_int unit) scale)).

(** One [number unit] group: its nanoseconds and what follows. *)
Definition duration_group (s : bytes) : option (Z * bytes) :=
  match s with
  | [] => None
  | c0 :: _ =>
      if negb (is_digit c0 || bool_decide (c0 = "."%char)) then None
      else
        '(v, s1) ← leadingInt 0 s;
        let pre := negb (bool_decide (length s1 = length s)) in
        let '(f, scale, s2, post) :=
          match s1 with
          | c :: s1' =>
              if decide (c = "."%char) then
                let '(f, scale, s2) := leadingFraction 0 (of_int 1) false s1' in
                (f, scale, s2, negb (bool_decide (length s2 = length s1')))
              else (0, of_int 1, s1, false)
          | [] => (0, of_int 1, s1, false)
          end in
        if negb pre && negb post then None
        else
          let '(u, rest) := span_unit s2 in
          match u with
          | [] => None
          | _ =>
              unit ← unit_ns u;
              if 2 ^ 63 / unit <? v then None
              else
                let v := v * unit in
                let v := if 0 <? f then uint64 (v + fraction_ns f scale unit) else v in
                if 2 ^ 63 <? v then None else Some (v, rest)
          end
  end.

Fixpoint duration_loop (fuel : nat) (d : Z) (s : bytes) : option Z :=
  match fuel, s with
  | _, [] => Some d
  | O, _ => None
  | S fuel', _ =>
      '(v, rest) ← duration_group s;
      let d := d + v in
      if 2 ^ 63 <? d then None else duration_loop fuel' d rest
  end.

(** Every group takes at least one byte, so one turn per byte is enough. *)
Definition ParseDuration (s : bytes) : option Z :=
  let '(neg, s) :=
    match s with
    | c :: s' => if decide (c = "-"%char) then (true, s')
                 else if decide (c = "+"%char) then (false, s') else (false, s)
    | [] => (false, s)
    end in
  if bool_decide (s = "0") then Some 0
  else if bool_decide (s = []) then None
  else
    d ← duration_loop (length s) 0 s;
    if neg then Some (int64 (- d))
    else if 2 ^ 63 - 1 <? d then None else Some d.

(** ** The configuration *)

Record Config := MkConfig {
  Addr : bytes;
  PprofAddr : bytes;
  Shards : Z;
  MaxValueBytes : Z;
  MaxMemoryBytes : Z;
  ItemOverheadBytes : Z;
  CleanupInterval : Z;
  TLSCert : bytes;
  TLSKey : bytes;
  AuthToken : bytes;
  IdleTimeout : Z;
  MaxConnections : Z;
  ShutdownTimeout : Z
}.

Definition second : Z := 1000000000.

Definition Default : Config :=
  MkConfig "0.0.0.0:11211" [] 16 (1024 * 1024) (64 * 1024 * 1024) 64 (60 * second) [] [] []
    (300 * second) 1024 (10 * second).

(** The fields a line can set. *)
Inductive field :=
| FAddr | FPprofAddr | FShards | FMaxValueBytes | FMaxMemoryBytes | FItemOverheadBytes
| FCleanupInterval | FTLSCert | FTLSKey | FAuthToken | FIdleTimeout | FMaxConnections | FShutdownTimeout.

Inductive field_value := Text (s : bytes) | Number (n : Z) | Duration (d : Z).

Definition assign (f : field) (v : field_value) (c : Config) : Config :=
  let '(MkConfig a p sh mv mm io ci tc tk au it mc st) := c in
  match f, v with
  | FAddr, Text x => MkConfig x p sh mv mm io ci tc tk au it mc st
  | FPprofAddr, Text x => MkConfig a x sh mv mm io ci tc tk au it mc st
  | FShards, Number x => MkConfig a p x mv mm io ci tc tk au it mc st
  | FMaxValueBytes, Number x => MkConfig a p sh x mm io ci tc tk au it mc st
  | FMaxMemoryBytes, Number x => MkConfig a p sh mv x io ci tc tk au it mc st
  | FItemOverheadBytes, Number x => MkConfig a p sh mv mm x ci tc tk au it mc st
  | FCleanupInterval, Duration x => MkConfig a p sh mv mm io x tc tk au it mc st
  | FTLSCert, Text x => MkConfig a p sh mv mm io ci x tk au it mc st
  | FTLSKey, Text x => MkConfig a p sh mv mm io ci tc x au it mc st
  | FAuthToken, Text x => MkConfig a p sh mv mm io ci tc tk x it mc st
  | FIdleTimeout, Duration x => MkConfig a p sh mv mm io ci tc tk au x mc st
  | FMaxConnections, Number x => MkConfig a p sh mv mm io ci tc tk au it x st
  | FShutdownTimeout, Duration x => MkConfig a p sh mv mm io ci tc tk au it mc x
  | _, _ => c
  end.

Inductive field_error := BadInt (e : num_error) | BadDuration | UnknownKey.

Definition parseInt (value : bytes) (f : field) (c : Config) : Config + field_error :=
  match Atoi value with
  | inr e => inr (BadInt e)
  | inl n => inl (assign f (Number n) c)
  end.

Definition parse_duration (value : bytes) (f : field) (c : Config) : Config + field_error :=
  match ParseDuration value with
  | None => inr BadDuration
  | Some d => inl (assign f (Duration d) c)
  end.

Definition setField (key value : bytes) (c : Config) : Config + field_error :=
  if bool_decide (key = "addr") then inl (assign FAddr (Text value) c)
  else if bool_decide (key = "pprof-addr") then inl (assign FPprofAddr (Text value) c)
  else if bool_decide (key = "shards") then parseInt value FShards c
  else if bool_decide (key = "max-value-bytes") then parseInt value FMaxValueBytes c
  else if bool_decide (key = "max-memory-bytes") then parseInt value FMaxMemoryBytes c
  else if bool_decide (key = "item-overhead-bytes") then parseInt value FItemOverheadBytes c
  else if bool_decide (key = "cleanup-interval") then parse_duration value FCleanupInterval c
  else if bool_decide (key = "tls-cert") then inl (assign FTLSCert (Text value) c)
  else if bool_decide (key = "tls-key") then inl (assign FTLSKey (Text value) c)
  else if bool_decide (key = "auth-token") then inl (assign FAuthToken (Text value) c)
  else if bool_decide (key = "idle-timeout") then parse_duration value FIdleTimeout c
  else if bool_decide (key = "max-connections") then parseInt value FMaxConnections c
  else if bool_decide (key = "shutdown-timeout") then parse_duration value FShutdownTimeout c
  else inr UnknownKey.

(** [validate]: the first check that fails. *)
Definition validate (c : Config) : option bytes :=
  if MaxValueBytes c <=? 0 then Some "max-value-bytes must be positive"
  else if MaxMemoryBytes c <=? 0 then Some "max-memory-bytes must be positive"
  else if ItemOverheadBytes c <? 0 then Some "item-overhead-bytes must be non-negative"
  else if MaxMemoryBytes c <? MaxValueBytes c then
    Some "max-value-bytes must be less than or equal to max-memory-bytes"
  else if CleanupInterval c <? 0 then Some "cleanup-interval must be non-negative"
  else if Shards c <=? 0 then Some "shards must be positive"
  else if xorb (bool_decide (TLSCert c = [])) (bool_decide (TLSKey c = [])) then
    Some "tls-cert and tls-key must be set together"
  else if IdleTimeout c <? 0 then Some "idle-timeout must be non-negative"
  else if MaxConnections c <? 0 then Some "max-connections must be non-negative"
  else if ShutdownTimeout c <? 0 then Some "shutdown-timeout must be non-negative"
  else None.

Definition TLSEnabled (c : Config) : bool :=
  negb (bool_decide (TLSCert c = [])) && negb (bool_decide (TLSKey c = [])).

(** ** Loading *)

Inductive load_error :=
| ErrOpen                            (* the file cannot be opened *)
| ErrLine (lineNo : Z)               (* expected key = value *)
| ErrField (lineNo : Z) (e : field_error)
| ErrTooLong                         (* bufio.Scanner: token too long *)
| ErrInvalid (message : bytes).

(** The longest line [bufio.Scanner] accepts, without its newline. *)
Definition maxLine : Z := 65535.

(** [ScanLines] drops one carriage return before the newline. *)
Definition drop_cr (l : bytes) : bytes :=
  match rev l with
  | c :: r => if decide (c = "013"%char) then rev r else l
  | [] => l
  end.

(** The raw lines of a file; a final line needs no newline. *)
Fixpoint raw_lines (cur : bytes) (s : bytes) : list bytes :=
  match s with
  | [] => match cur with [] => [] | _ => [cur] end
  | c :: s' =>
      if decide (c = "010"%char) then cur :: raw_lines [] s' else raw_lines (cur ++ [c]) s'
  end.

(** The body of the loop for one scanned line. *)
Definition load_line (lineNo : Z) (text : bytes) (c : Config) : Config + load_error :=
  let line := TrimSpace text in
  if bool_decide (line = []) || bool_decide (head line = Some "#"%char) then inl c
  else
    match Cut "="%char line with
    | None => inr (ErrLine lineNo)
    | Some (key, value) =>
        match setField (TrimSpace key) (TrimSpace value) c with
        | inr e => inr (ErrField lineNo e)
        | inl c' => inl c'
        end
    end.

Fixpoint load_lines (lineNo : Z) (ls : list bytes) (c : Config) : Config + load_error :=
  match ls with
  | [] => inl c
  | l :: ls' =>
      if maxLine <? len l then inr ErrTooLong
      else
        match load_line (lineNo + 1) (drop_cr l) c with
        | inr e => inr e
        | inl c' => load_lines (lineNo + 1) ls' c'
        end
  end.

(** [file] is the contents of the file at the path, if it can be opened. *)
Definition Load (file : option bytes) : Config + load_error :=
  match file with
  | None => inr ErrOpen
  | Some s =>
      match load_lines 0 (raw_lines [] s) Default with
      | inr e => inr e
      | inl c => match validate c with Some msg => inr (ErrInvalid msg) | None => inl c end
      end
  end.

(** The store configuration [main.run] builds. *)
Definition store_config (c : Config) : Store.Config :=
  Store.MkConfig (MaxValueBytes c) (MaxMemoryBytes c) (ItemOverheadBytes c) (Shards c).

(** ** Trimming and cutting *)

Definition edge (x : option (Z * bytes)) : bool :=
  match x with None => true | Some (r, _) => negb (isSpace r) end.

(** No white space at either end. *)
Definition trimmed (s : bytes) : bool := edge (list.head (segments s)) && edge (last (segments s)).

Lemma drop_spaces_edge l : edge (list.head l) = true -> drop_spaces l = l.
Proof. destruct l as [|[r b] l]; [done|]. simpl. by intros ->%negb_true_iff. Qed.

Lemma head_rev {A} (l : list A) : list.head (rev l) = last l.
Proof.
  induction l as [|x l IH] using rev_ind; [done|]. by rewrite rev_app_distr, last_snoc.
Qed.

Lemma TrimSpace_trimmed s : trimmed s = true -> TrimSpace s = s.
Proof.
  intros [Hh Hl]%andb_prop. unfold TrimSpace. rewrite (drop_spaces_edge (segments s)) by done.
  rewrite drop_spaces_edge by (by rewrite head_rev). by rewrite rev_involutive, segments_concat.
Qed.

Lemma segments_ascii_app s t :
  forallb visible s = true -> segments (s ++ t) = map (fun c => (byteZ c, [c])) s ++ segments t.
Proof.
  induction s as [|c s IH]; intros Hs; [done|]. simpl in Hs. apply andb_prop in Hs as [Hc Hs].
  rewrite <- app_comm_cons, segments_ascii; [simpl; by rewrite IH|].
  unfold visible in Hc. destruct (between_spec 33 126 (byteZ c)); [lia|done].
Qed.

Lemma visible_not_space c : visible c = true -> isSpace (byteZ c) = false.
Proof.
  unfold visible, isSpace. destruct (between_spec 33 126 (byteZ c)); [|done]. intros _. ranges; done || lia.
Qed.

Lemma visible_trimmed s : forallb visible s = true -> trimmed s = true.
Proof.
  intros Hs. unfold trimmed. rewrite <- (app_nil_r s), segments_ascii_app by done. simpl. rewrite app_nil_r.
  apply andb_true_intro. split.
  - destruct s as [|c s]; [done|]. simpl in *. apply andb_prop in Hs as [Hc _]. by rewrite visible_not_space.
  - destruct s as [|c s _] using rev_ind; [done|]. rewrite map_app. cbn [map]. rewrite last_snoc. simpl.
    rewrite forallb_app in Hs. apply andb_prop in Hs as [_ Hc]. simpl in Hc. rewrite andb_true_r in Hc.
    by rewrite visible_not_space.
Qed.

(** A [key=value] line is trimmed when its value is. *)
Lemma line_trimmed key value :
  key <> [] -> forallb visible key = true -> trimmed value = true -> trimmed (key ++ "=" ++ value) = true.
Proof.
  intros Hk Hv [_ Ht]%andb_prop. unfold trimmed.
  rewrite app_assoc, segments_ascii_app by (rewrite forallb_app, Hv; done).
  apply andb_true_intro. split.
  - destruct key as [|c key]; [done|]. simpl in *. apply andb_prop in Hv as [Hc _]. by rewrite visible_not_space.
  - destruct (segments value) as [|x l] eqn:E.
    + rewrite app_nil_r, map_app. cbn [map]. by rewrite last_snoc.
    + rewrite last_app. destruct (last (x :: l)) eqn:E2; [done|]. by apply last_None in E2.
Qed.

Lemma Cut_key key value : "="%char ∉ key -> Cut "="%char (key ++ "=" ++ value) = Some (key, value).
Proof.
  induction key as [|c key IH]; intros Hn; simpl; [done|].
  apply not_elem_of_cons in Hn as [Hc Hn]. rewrite decide_False by congruence. simpl in IH. by rewrite IH.
Qed.

Lemma raw_lines_line l rest : "010"%char ∉ l -> forall cur,
  raw_lines cur (l ++ ["010"%char] ++ rest) = (cur ++ l) :: raw_lines [] rest.
Proof.
  induction l as [|c l IH]; intros Hn cur; simpl; [by rewrite app_nil_r|].
  apply not_elem_of_cons in Hn as [Hc Hn]. rewrite decide_False by congruence.
  rewrite IH by done. by rewrite <- app_assoc.
Qed.

Lemma drop_cr_id l : last l <> Some "013"%char -> drop_cr l = l.
Proof.
  intros Hl. unfold drop_cr. rewrite <- head_rev in Hl. destruct (rev l) as [|c r]; [done|].
  rewrite decide_False; [done|]. simpl in Hl. congruence.
Qed.

(** ** Numbers and durations *)

Lemma FormatUint_visible n : 0 <= n <= MaxUint64 -> forallb visible (FormatUint n) = true.
Proof.
  intros Hn. destruct (FormatUint_spec n Hn) as (_ & Hd & _). apply forallb_forall.
  rewrite forallb_forall in Hd. intros c Hc%Hd. unfold is_digit in Hc. unfold visible.
  apply andb_prop in Hc as [?%Z.leb_le ?%Z.leb_le]. ranges; done || lia.
Qed.

Lemma digit_not_sign s : forallb is_digit s = true -> s <> [] ->
  exists c t, s = c :: t /\ c <> "-"%char /\ c <> "+"%char /\ is_digit c = true.
Proof.
  destruct s as [|c t]; [done|]. simpl. intros [Hc _]%andb_prop _. exists c, t.
  split_and!; try done; intros ->; discriminate Hc.
Qed.

Lemma Atoi_FormatUint n : 0 <= n <= MaxInt64 -> Atoi (FormatUint n) = inl n.
Proof.
  intros Hn. assert (Hu : 0 <= n <= MaxUint64) by (unfold MaxUint64, MaxInt64 in *; lia).
  pose proof (ParseUint_FormatUint n Hu) as Hp. destruct (FormatUint_spec n Hu) as (Hne & Hd & _).
  unfold Atoi. destruct (digit_not_sign _ Hd Hne) as (c & t & E & H1 & H2 & _).
  rewrite E in *. rewrite !decide_False by done. rewrite Hp. cbn [negb andb].
  destruct (Z.ltb_spec MaxInt64 n); [lia|done].
Qed.

Lemma digits_grow ds : forall y,
  forallb is_digit ds = true -> 0 <= y -> y <= foldl (fun n c => n * 10 + digit_value c) y ds.
Proof.
  induction ds as [|c ds IH]; intros y Hd Hy; simpl in *; [lia|].
  apply andb_prop in Hd as [Hc%is_digit_range Hd]. specialize (IH (y * 10 + digit_value c) Hd). lia.
Qed.

Lemma leadingInt_digits ds rest : forall x,
  forallb is_digit ds = true -> 0 <= x ->
  foldl (fun n c => n * 10 + digit_value c) x ds <= 2 ^ 63 - 1 ->
  (match rest with c :: _ => is_digit c = false | [] => True end) ->
  leadingInt x (ds ++ rest) = Some (foldl (fun n c => n * 10 + digit_value c) x ds, rest).
Proof.
  induction ds as [|c ds IH]; intros x Hd Hx Hle Hr; simpl in *.
  - destruct rest as [|c rest]; simpl; [done|]. by rewrite Hr.
  - apply andb_prop in Hd as [Hc Hd]. rewrite Hc. pose proof (is_digit_range c Hc).
    pose proof (digits_grow ds (x * 10 + digit_value c) Hd ltac:(lia)) as Hmono.
    destruct (Z.ltb_spec (2 ^ 63 / 10) x) as [Hlt|]; [exfalso|].
    + change (2 ^ 63 / 10) with 922337203685477580 in Hlt. lia.
    + destruct (Z.ltb_spec (2 ^ 63) (x * 10 + digit_value c)); [lia|]. apply IH; [done|lia|done|done].
Qed.

(** A number and its unit, as a duration is written. *)
Definition group_text (g : Z * bytes) : bytes := FormatUint g.1 ++ g.2.

Definition group_ns (g : Z * bytes) : Z := match unit_ns g.2 with Some ns => g.1 * ns | None => 0 end.

Definition group_ok (g : Z * bytes) : Prop :=
  0 <= g.1 <= MaxInt64 /\ group_ns g <= MaxInt64 /\ (g.2 = "ns" \/ g.2 = "s" \/ g.2 = "m" \/ g.2 = "h").

Lemma group_ok_unit g : group_ok g ->
  exists ns, unit_ns g.2 = Some ns /\ 0 < ns /\ group_ns g = g.1 * ns /\ g.1 * ns <= MaxInt64.
Proof.
  unfold group_ok, group_ns. intros (Hn & Hm & Hu).
  assert (exists ns, unit_ns g.2 = Some ns /\ 0 < ns) as (ns & E & Hpos).
  { destruct Hu as [-> | [-> | [-> | ->]]]; eexists; (split; [reflexivity|lia]). }
  rewrite E in *. eauto.
Qed.

(** What may follow a group: the end or the next number. *)
Definition next_ok (rest : bytes) : Prop := match rest with c :: _ => is_digit c = true | [] => True end.

Lemma span_unit_group g rest : group_ok g -> next_ok rest ->
  span_unit (g.2 ++ rest) = (g.2, rest) /\
  exists c t, g.2 = c :: t /\ is_digit c = false /\ c <> "."%char.
Proof.
  intros (_ & _ & Hu) Hr. destruct g as [n u]. cbn [fst snd] in *.
  assert (Hs : span_unit rest = ([], rest)).
  { destruct rest as [|c rest]; [done|]. cbn [next_ok] in Hr. cbn [span_unit]. by rewrite Hr. }
  split.
  - destruct Hu as [-> | [-> | [-> | ->]]]; cbn -[is_digit]; rewrite Hs; reflexivity.
  - destruct Hu as [-> | [-> | [-> | ->]]]; eexists _, _; (split; [reflexivity|]); done.
Qed.

Lemma group_text_digit g rest : group_ok g -> exists c t, group_text g ++ rest = c :: t /\
  c <> "-"%char /\ c <> "+"%char /\ is_digit c = true.
Proof.
  intros (Hn & _). unfold group_text.
  destruct (FormatUint_spec g.1 ltac:(unfold MaxUint64, MaxInt64 in *; lia)) as (Hne & Hdig & _).
  destruct (digit_not_sign _ Hdig Hne) as (c & t & E & H1 & H2 & Hc). rewrite E. eauto 10.
Qed.

Lemma duration_group_text g rest : group_ok g -> next_ok rest ->
  duration_group (group_text g ++ rest) = Some (group_ns g, rest).
Proof.
  intros Hg Hr. destruct (group_text_digit g rest Hg) as (c0 & t0 & E0 & _ & _ & Hc0).
  destruct (group_ok_unit g Hg) as (ns & Hns & Hpos & Ens & Hmax).
  destruct (span_unit_group g rest Hg Hr) as (Hspan & c & t & Eu & Hc & Hdot). destruct Hg as (Hn & _ & _).
  destruct (FormatUint_spec g.1 ltac:(unfold MaxUint64, MaxInt64 in *; lia)) as (Hne & Hdig & Hval & _).
  assert (Hlead : leadingInt 0 (group_text g ++ rest) = Some (g.1, g.2 ++ rest)).
  { unfold group_text. rewrite <- app_assoc. rewrite leadingInt_digits; [|done|lia| |by rewrite Eu].
    - change (foldl _ 0 _) with (dec_value (FormatUint g.1)). by rewrite Hval.
    - change (foldl _ 0 _) with (dec_value (FormatUint g.1)). unfold MaxInt64 in Hn. lia. }
  unfold duration_group. rewrite Hlead. rewrite E0 at 1. rewrite Hc0. cbn [orb negb mbind option_bind].
  rewrite bool_decide_eq_false_2.
  2: { unfold group_text. rewrite !length_app. destruct (FormatUint g.1); [done|]. cbn. lia. }
  cbn [negb andb]. rewrite Eu in *. cbn [app] in *. rewrite decide_False by done.
  cbn [negb andb]. rewrite Hspan, Hns. cbn [mbind option_bind].
  change (0 <? 0) with false. cbv iota. unfold MaxInt64 in *.
  destruct (Z.ltb_spec (2 ^ 63 / ns) g.1) ; [pose proof (Z.div_le_lower_bound (2 ^ 63) ns g.1); lia|].
  rewrite Ens. destruct (Z.ltb_spec (2 ^ 63) (g.1 * ns)); [lia|done].
Qed.

Lemma group_texts_next gs : Forall group_ok gs -> next_ok (concat (map group_text gs)).
Proof.
  intros [|g gs' Hg Hgs]; [done|]. cbn [map concat].
  destruct (group_text_digit g (concat (map group_text gs')) Hg) as (c & t & -> & _ & _ & Hc). done.
Qed.

Lemma group_ns_nonneg g : group_ok g -> 0 <= group_ns g.
Proof. intros Hg. destruct (group_ok_unit g Hg) as (ns & _ & ? & -> & _). destruct Hg. nia. Qed.

Definition groups_ns (gs : list (Z * bytes)) : Z := foldr (fun g t => group_ns g + t) 0 gs.

Lemma groups_ns_nonneg gs : Forall group_ok gs -> 0 <= groups_ns gs.
Proof. induction 1 as [|g gs Hg _ IH]; cbn [groups_ns foldr]; [lia|]. pose proof (group_ns_nonneg g Hg). unfold groups_ns in IH. lia. Qed.

Lemma duration_loop_texts gs : Forall group_ok gs -> forall fuel d,
  0 <= d -> d + groups_ns gs <= MaxInt64 -> (length gs <= fuel)%nat ->
  duration_loop fuel d (concat (map group_text gs)) = Some (d + groups_ns gs).
Proof.
  induction 1 as [|g gs Hg Hgs IH]; intros fuel d Hd Hmax Hf; cbn [map concat groups_ns foldr length] in *.
  { rewrite Z.add_0_r. by destruct fuel. }
  destruct fuel as [|fuel]; [lia|]. cbn [duration_loop].
  destruct (group_text_digit g (concat (map group_text gs)) Hg) as (c & t & E & _).
  rewrite (duration_group_text g _ Hg (group_texts_next gs Hgs)). rewrite E. cbn [mbind option_bind].
  pose proof (groups_ns_nonneg gs Hgs). pose proof (group_ns_nonneg g Hg). fold (groups_ns gs) in *.
  unfold MaxInt64 in *. destruct (Z.ltb_spec (2 ^ 63) (d + group_ns g)); [lia|].
  rewrite IH by lia. f_equal. lia.
Qed.

(** Numbers with units are read back as the sum of what they stand for. *)
Lemma ParseDuration_texts gs : gs <> [] -> Forall group_ok gs -> groups_ns gs <= MaxInt64 ->
  ParseDuration (concat (map group_text gs)) = Some (groups_ns gs).
Proof.
  intros Hne Hgs Hmax. destruct gs as [|g gs]; [done|]. pose proof (Forall_inv Hgs) as Hg.
  assert (Hlen : (length (g :: gs) <= length (concat (map group_text (g :: gs))))%nat).
  { clear Hne Hmax Hg. induction Hgs as [|x l Hx Hl IH]; [done|]. cbn [map concat length].
    destruct (group_text_digit x (concat (map group_text l)) Hx) as (c & t & E & _).
    rewrite length_app. assert (0 < length (group_text x))%nat; [|lia].
    unfold group_text. rewrite length_app. destruct Hx as (Hn & _ & [-> | [-> | [-> | ->]]]); cbn; lia. }
  pose proof (duration_loop_texts _ Hgs (length (concat (map group_text (g :: gs)))) 0 ltac:(lia) ltac:(lia) Hlen) as Hloop.
  pose proof (groups_ns_nonneg _ Hgs) as Hpos. revert Hloop Hpos Hmax.
  generalize (groups_ns (g :: gs)). intros total Hloop Hpos Hmax. cbn [map concat] in *.
  destruct (group_text_digit g (concat (map group_text gs)) Hg) as (c & t & E & H1 & H2 & Hc).
  assert (Ht : t <> []).
  { intros ->. apply (f_equal length) in E. revert E. unfold group_text. rewrite !length_app.
    destruct Hg as (Hn & _ & Hu).
    destruct (FormatUint_spec g.1 ltac:(unfold MaxUint64, MaxInt64 in *; lia)) as (Hf & _).
    destruct (FormatUint g.1); [done|]. destruct Hu as [-> | [-> | [-> | ->]]]; cbn; lia. }
  rewrite E in *. unfold ParseDuration. rewrite !decide_False by done.
  rewrite (bool_decide_eq_false_2 (_ = "0")) by (intros [= _ Hnil]; done).
  rewrite (bool_decide_eq_false_2 (_ = [])) by done. rewrite Hloop. cbn [mbind option_bind].
  unfold MaxInt64 in *. destruct (Z.ltb_spec (2 ^ 63 - 1) (0 + total)); [lia|done].
Qed.

Lemma ParseDuration_ns d :
  0 <= d <= MaxInt64 -> ParseDuration (FormatUint d ++ "ns") = Some d.
Proof.
  intros Hd. assert (E : groups_ns [(d, "ns")] = d) by (cbn [groups_ns foldr]; unfold group_ns; cbn [fst snd];
    change (unit_ns "ns") with (Some 1); cbv iota; lia).
  pose proof (ParseDuration_texts [(d, "ns")] ltac:(done)) as H. rewrite E in H.
  cbn [map concat group_text fst snd] in H. rewrite app_nil_r in H. apply H; [|lia].
  apply Forall_singleton. split_and!; cbn [fst snd]; [lia..| |by left]. rewrite <- (Z.add_0_r (group_ns _)). change (group_ns (d, "ns") + 0) with (groups_ns [(d, "ns")]). lia.
Qed.

(** ** Printing a configuration *)

Definition settings (c : Config) : list (bytes * bytes) :=
  [("addr", Addr c); ("pprof-addr", PprofAddr c); ("shards", FormatUint (Shards c));
   ("max-value-bytes", FormatUint (MaxValueBytes c)); ("max-memory-bytes", FormatUint (MaxMemoryBytes c));
   ("item-overhead-bytes", FormatUint (ItemOverheadBytes c));
   ("cleanup-interval", FormatUint (CleanupInterval c) ++ "ns"); ("tls-cert", TLSCert c); ("tls-key", TLSKey c);
   ("auth-token", AuthToken c); ("idle-timeout", FormatUint (IdleTimeout c) ++ "ns");
   ("max-connections", FormatUint (MaxConnections c));
   ("shutdown-timeout", FormatUint (ShutdownTimeout c) ++ "ns")].

Definition print_line (kv : bytes * bytes) : bytes := kv.1 ++ "=" ++ kv.2.

Definition print (c : Config) : bytes :=
  concat (map (fun kv => print_line kv ++ ["010"%char]) (settings c)).

(** Text a line can carry: no line breaks, trimmed, and not too long. *)
Definition printable (v : bytes) : bool :=
  trimmed v && forallb (fun c => negb (bool_decide (c = "010"%char)) && negb (bool_decide (c = "013"%char))) v &&
  (len v <=? 60000).

Definition int_range (n : Z) : bool := between 0 MaxInt64 n.

(** Configurations that can be written to a file. *)
Definition config_wf (c : Config) : bool :=
  forallb printable [Addr c; PprofAddr c; TLSCert c; TLSKey c; AuthToken c] &&
  forallb int_range [Shards c; MaxValueBytes c; MaxMemoryBytes c; ItemOverheadBytes c; CleanupInterval c;
                     IdleTimeout c; MaxConnections c; ShutdownTimeout c].

Definition plain_key (k : bytes) : bool :=
  negb (bool_decide (k = [])) && forallb visible k && negb (existsb (fun c => bool_decide (c = "="%char)) k) &&
  negb (bool_decide (list.head k = Some "#"%char)) && (len k <=? 100).

Lemma visible_clean s : forallb visible s = true ->
  forallb (fun c => negb (bool_decide (c = "010"%char)) && negb (bool_decide (c = "013"%char))) s = true.
Proof.
  rewrite !forallb_forall. intros Hs c Hc%Hs.
  rewrite !bool_decide_eq_false_2; [done|..]; intros ->; discriminate Hc.
Qed.

Lemma visible_printable s : forallb visible s = true -> len s <= 60000 -> printable s = true.
Proof.
  intros Hs Hl. unfold printable. rewrite visible_trimmed, visible_clean by done. simpl. by apply Z.leb_le.
Qed.

Lemma number_printable n : int_range n = true -> printable (FormatUint n) = true.
Proof.
  unfold int_range. destruct (between_spec 0 MaxInt64 n) as [Hn|]; [|done]. intros _.
  assert (Hu : 0 <= n <= MaxUint64) by (unfold MaxUint64, MaxInt64 in *; lia).
  apply visible_printable; [by apply FormatUint_visible|].
  destruct (FormatUint_spec n Hu) as (_ & _ & _ & ?). unfold len. lia.
Qed.

Lemma duration_printable n : int_range n = true -> printable (FormatUint n ++ "ns") = true.
Proof.
  unfold int_range. destruct (between_spec 0 MaxInt64 n) as [Hn|]; [|done]. intros _.
  assert (Hu : 0 <= n <= MaxUint64) by (unfold MaxUint64, MaxInt64 in *; lia).
  apply visible_printable; [by rewrite forallb_app, FormatUint_visible|].
  destruct (FormatUint_spec n Hu) as (_ & _ & _ & ?). rewrite len_app. unfold len. simpl. lia.
Qed.

(** One printed line sets one field. *)
Lemma load_line_setting n k v c :
  plain_key k = true -> printable v = true ->
  load_line n (print_line (k, v)) c =
  match setField k v c with inr e => inr (ErrField n e) | inl c' => inl c' end.
Proof.
  unfold plain_key, printable. intros [[[[Hk Hvis]%andb_prop Heq]%andb_prop Hh]%andb_prop _]%andb_prop
    [[Ht _]%andb_prop _]%andb_prop.
  apply negb_true_iff, bool_decide_eq_false in Hk. apply negb_true_iff in Heq.
  apply negb_true_iff, bool_decide_eq_false in Hh.
  unfold load_line, print_line. cbn [fst snd]. rewrite TrimSpace_trimmed by (by apply line_trimmed).
  assert (Hn : "="%char ∉ k).
  { intros Hin. apply (existsb_false_elem _ _ _ Heq) in Hin. by rewrite bool_decide_eq_true_2 in Hin. }
  rewrite (bool_decide_eq_false_2 (_ = [])) by (by destruct k).
  rewrite (bool_decide_eq_false_2 (head _ = _)) by (by destruct k). cbn [orb].
  rewrite Cut_key by done. rewrite !TrimSpace_trimmed by (done || by apply visible_trimmed). done.
Qed.

(** Setting the fields one after the other. *)
Fixpoint set_all (kvs : list (bytes * bytes)) (c : Config) : option Config :=
  match kvs with
  | [] => Some c
  | (k, v) :: kvs' =>
      match setField k v c with inl c' => set_all kvs' c' | inr _ => None end
  end.

Lemma print_line_ok k v : plain_key k = true -> printable v = true ->
  ("010"%char ∉ print_line (k, v)) /\ drop_cr (print_line (k, v)) = print_line (k, v) /\
  len (print_line (k, v)) <= maxLine.
Proof.
  unfold plain_key, printable. intros [[[[Hk Hvis]%andb_prop _]%andb_prop _]%andb_prop Hlk%Z.leb_le]%andb_prop
    [[_ Hv]%andb_prop Hlv%Z.leb_le]%andb_prop.
  apply visible_clean in Hvis. unfold print_line. cbn [fst snd].
  assert (Hall : forallb (fun c => negb (bool_decide (c = "010"%char)) && negb (bool_decide (c = "013"%char)))
    (k ++ "=" ++ v) = true) by (rewrite !forallb_app, Hvis, Hv; done).
  rewrite forallb_forall in Hall. split_and!.
  - intros Hin%list_elem_of_In%Hall. by rewrite bool_decide_eq_true_2 in Hin.
  - apply drop_cr_id. intros Hl. apply last_Some in Hl as [l E].
    specialize (Hall "013"%char). rewrite E in Hall. discriminate Hall. apply in_app_iff. right. by left.
  - rewrite !len_app. change (len "=") with 1. unfold maxLine. lia.
Qed.

Lemma load_lines_settings kvs : forall n c c',
  forallb (fun kv => plain_key kv.1 && printable kv.2) kvs = true -> set_all kvs c = Some c' ->
  load_lines n (map print_line kvs) c = inl c'.
Proof.
  induction kvs as [|[k v] kvs IH]; intros n c c' Hok Hset; simpl in *; [by simplify_eq|].
  apply andb_prop in Hok as [[Hk Hv]%andb_prop Hok].
  destruct (print_line_ok k v Hk Hv) as (_ & Hcr & Hlen). rewrite Hcr.
  destruct (Z.ltb_spec maxLine (len (print_line (k, v)))); [lia|]. rewrite load_line_setting by done.
  destruct (setField k v c) as [c1|]; [|done]. by apply IH.
Qed.

Lemma raw_lines_settings kvs :
  forallb (fun kv => plain_key kv.1 && printable kv.2) kvs = true ->
  raw_lines [] (concat (map (fun kv => print_line kv ++ ["010"%char]) kvs)) = map print_line kvs.
Proof.
  induction kvs as [|[k v] kvs IH]; intros Hok; [done|]. cbn [forallb map concat] in *.
  apply andb_prop in Hok as [[Hk Hv]%andb_prop Hok]. rewrite <- app_assoc.
  rewrite raw_lines_line by apply (print_line_ok k v Hk Hv). by rewrite IH.
Qed.

Lemma settings_ok c : config_wf c = true ->
  forallb (fun kv => plain_key kv.1 && printable kv.2) (settings c) = true.
Proof.
  unfold config_wf. cbn [forallb]. intros Hwf.
  repeat match goal with H : _ && _ = true |- _ => apply andb_prop in H as [? ?] end.
  unfold settings. cbn [forallb fst snd].
  repeat match goal with
  | H : printable _ = true |- _ => rewrite H; clear H
  | H : int_range _ = true |- _ =>
      rewrite ?(number_printable _ H), ?(duration_printable _ H); clear H
  end. vm_compute. done.
Qed.

(** Decide which key a concrete string is. *)
Ltac known_key :=
  unfold setField;
  repeat match goal with
  | |- context [bool_decide (?k = ?x)] =>
      let v := eval vm_compute in (bool_decide (k = x)) in
      match v with
      | true => rewrite (bool_decide_eq_true_2 (k = x)) by reflexivity
      | false => rewrite (bool_decide_eq_false_2 (k = x)) by discriminate
      end; cbv iota
  end.

Lemma settings_set c c0 : config_wf c = true -> set_all (settings c) c0 = Some c.
Proof.
  unfold config_wf. cbn [forallb]. intros Hwf.
  repeat match goal with H : _ && _ = true |- _ => apply andb_prop in H as [? ?] end.
  repeat match goal with H : int_range ?n = true |- _ =>
    unfold int_range in H; destruct (between_spec 0 MaxInt64 n); [clear H|discriminate H] end.
  destruct c0. unfold settings. cbn [set_all].
  repeat (known_key; unfold parseInt, parse_duration;
    rewrite ?Atoi_FormatUint, ?ParseDuration_ns by done; cbn [assign set_all]).
  by destruct c.
Qed.

(** A shard count that is zero modulo 2^32 makes every request panic. *)
Lemma route_panics config key :
  0 < Store.Shards (normalizeConfig config) -> uint32 (Store.Shards (normalizeConfig config)) = 0 ->
  shardFor key (New config) = Panicked.
Proof.
  intros Hpos Hmod. unfold shardFor, mbind, M_bind, gets, New. cbv zeta. cbn [shards].
  unfold len, shardIndex. rewrite length_replicate, Z2Nat.id, Hmod by lia. done.
Qed.

(** ** Theorems *)

Definition newline : bytes := ["010"%char].

(** C25: Every configuration file round-trips: printing any valid configuration
    as [key=value] lines and loading the file gives the configuration back,
    all thirteen fields, durations and the largest integers included. *)
Theorem config_roundtrip (c : Config) :
  config_wf c = true -> validate c = None -> Load (Some (print c)) = inl c.
Proof.
  intros Hwf Hv. pose proof (settings_ok c Hwf) as Hs. unfold Load, print.
  rewrite raw_lines_settings by done.
  rewrite (load_lines_settings (settings c) 0 Default c Hs); [by rewrite Hv|].
  by apply settings_set.
Qed.

Lemma config_roundtrip_witness :
  let c := MkConfig "127.0.0.1:7000" [] 8 1024 9223372036854775807 0 1500000000 "cert.pem" "key.pem"
    "s3cr=t #1" 0 0 9223372036854775807 in
  Load (Some (print c)) = inl c.
Proof. intros c. apply (config_roundtrip c); vm_compute; reflexivity. Defined.

(** What a configuration that loads satisfies. *)
Lemma load_valid (file : option bytes) (c : Config) :
  Load file = inl c ->
  0 < MaxValueBytes c <= MaxMemoryBytes c /\ 0 <= ItemOverheadBytes c /\ 0 < Shards c /\
  0 <= CleanupInterval c /\ 0 <= IdleTimeout c /\ 0 <= MaxConnections c /\ 0 <= ShutdownTimeout c /\
  (TLSEnabled c = true <-> TLSCert c <> [] \/ TLSKey c <> []) /\
  normalizeConfig (store_config c) = store_config c.
Proof.
  unfold Load. destruct file as [s|]; [|done].
  destruct (load_lines 0 _ Default) as [c0|]; [|done].
  destruct (validate c0) eqn:Hv; [done|]. intros [= ->]. revert Hv. unfold validate.
  destruct (xorb _ _) eqn:Hx; repeat (zcase; try done). intros _.
  unfold TLSEnabled, normalizeConfig, store_config. cbn [Store.MaxValueBytes Store.MaxMemoryBytes
    Store.ItemOverheadBytes Store.Shards].
  split_and!; try lia.
  - destruct (bool_decide_reflect (TLSCert c = [])), (bool_decide_reflect (TLSKey c = [])); simpl in *;
      try discriminate Hx; (split; [intros; first [done | by left]|by intros [?|?]]).
  - f_equal; zcase; done || lia.
Qed.

(** C26: Whatever the file says, a configuration that loads is one the server
    can use as it is: sizes are positive and consistent, intervals are not
    negative, the certificate and key come together, and the store adopts the
    four sizes unchanged instead of substituting its defaults. *)
Theorem loaded_config_valid (file : option bytes) (c : Config) :
  Load file = inl c ->
  0 < MaxValueBytes c <= MaxMemoryBytes c /\ 0 <= ItemOverheadBytes c /\ 0 < Shards c /\
  0 <= CleanupInterval c /\ 0 <= IdleTimeout c /\ 0 <= MaxConnections c /\ 0 <= ShutdownTimeout c /\
  (TLSEnabled c = true <-> TLSCert c <> [] \/ TLSKey c <> []) /\
  normalizeConfig (store_config c) = store_config c.
Proof. apply load_valid. Qed.

Lemma loaded_config_valid_witness :
  let file := "# comment" ++ newline ++ " shards = 4 " ++ newline ++ newline ++ "idle-timeout=1.5m" in
  exists c, Load (Some file) = inl c /\ IdleTimeout c = 90 * second /\
    normalizeConfig (store_config c) = store_config c.
Proof.
  intros file. eexists. split; [vm_compute; reflexivity|]. split; [vm_compute; reflexivity|].
  apply (loaded_config_valid (Some file)). vm_compute. reflexivity.
Defined.

(** C37: The configuration check accepts a number of shards that the store
    cannot route to: with [shards = 4294967296] the file loads, and every request
    that reaches the store (get, set, cas, delete, incr and the keys of mget and
    gets) divides by zero. *)
Theorem accepted_shards_panic `{Shard.MapRange} :
  exists c, Load (Some "shards = 4294967296") = inl c /\
    let kv := New (store_config c) in
    forall key value ttl expected delta now,
      Get key now kv = Panicked /\ Set_ key value ttl now kv = Panicked /\
      Cas key value ttl expected now kv = Panicked /\ Delete key now kv = Panicked /\
      Incr key delta now kv = Panicked.
Proof.
  eexists. split; [vm_compute; reflexivity|]. cbv zeta. intros key value ttl expected delta now.
  unfold Get, Set_, Cas, Delete, Incr, mbind, M_bind. by rewrite route_panics by (vm_compute; reflexivity).
Qed.

(** C38: Nor is the item overhead bounded: a file with an overhead near the
    [int] maximum loads, a three-byte item is then stored as if it were free,
    and the store reports a negative number of bytes in use. *)
Theorem accepted_overhead_overflows `{Shard.MapRange} :
  exists c s' t, Load
      (Some ("shards = 1" ++ newline ++ "item-overhead-bytes = 9223372036854775806")) = inl c /\
    Set_ "ab" "c" 0 1 (New (store_config c)) = Done (None, s') /\
    StoreStats id alone s' = Done (t, s') /\ st_MemoryBytes t < 0.
Proof.
  eexists _, _, _. split; [vm_compute; reflexivity|]. do 2 (split; [vm_compute; reflexivity|]). reflexivity.
Qed.
