(* ===== verification/Process.v ===== *)
(** * The server process ([src/cmd/minikv/main.go])

    [loadConfig] and [listen]; [run], whose accept loop, signal handling and
    shutdown drive the connections of [Lifecycle]; and [cleanupExpired], the
    goroutine that sweeps the store.  The operating system is an input: what a
    path opens to, when a signal arrives, what [Accept] returns. *)

From S2P Require Import Prelude Strconv Shard Store StoreSpec Protocol Server Config Lifecycle.

(** ** Starting up *)

(** What opening a path gives. *)
Inductive opened_file := Contents (s : bytes) | NotExist | CannotOpen.

Definition contents_of (f : opened_file) : option bytes :=
  match f with Contents s => Some s | _ => None end.

Inductive startup_error :=
| DefaultNotFound           (* no -config and no file in the current directory *)
| LoadFailed (e : load_error).

Definition defaultConfigPath : bytes := "minikv.conf".

(** [flag] is the value of [-config], empty when it is not given. *)
Definition loadConfig (flag : bytes) (open : bytes -> opened_file) : Config + startup_error :=
  let explicit := negb (bool_decide (flag = [])) in
  let resolved := if explicit then flag else defaultConfigPath in
  match Load (contents_of (open resolved)) with
  | inl cfg => inl cfg
  | inr err =>
      match open resolved with
      | NotExist => if negb explicit then inr DefaultNotFound else inr (LoadFailed err)
      | _ => inr (LoadFailed err)
      end
  end.

(** Which listener [run] binds; [keypair] says whether the certificate and key
    at two paths load, [bind] whether the address can be bound. *)
Inductive scheme := TCP | TLS.
Inductive listen_error := BadKeyPair | CannotBind.

Definition listen (keypair : bytes -> bytes -> bool) (bind : bytes -> bool) (cfg : Config)
    : scheme + listen_error :=
  if negb (TLSEnabled cfg) then if bind (Addr cfg) then inl TCP else inr CannotBind
  else if negb (keypair (TLSCert cfg) (TLSKey cfg)) then inr BadKeyPair
  else if bind (Addr cfg) then inl TLS else inr CannotBind.

(** ** [run]

    The main goroutine, the goroutine that closes the listener when a signal
    has cancelled the context, and the connections, in any interleaving.  The
    process ends with the main goroutine. *)

Inductive main_pc :=
| Starting                 (* signals are caught; in listen *)
| AcceptLoop               (* in listener.Accept *)
| Draining                 (* out of the loop: srv.Shutdown comes next *)
| InShutdown
| Exited (failed : bool).  (* run returned; [failed]: with an error *)

Record process := Process {
  server : life;
  main : main_pc;
  cancelled : bool;        (* ctx *)
  listening : bool         (* the listener is open *)
}.

(** [run] when it is called, with the server it will use: no connection yet. *)
Definition start (cfg : Config) : process :=
  Process (new_life (WithMaxConnections (MaxConnections cfg)) (0 <? IdleTimeout cfg)) Starting false false.

(** [listen] succeeded: the goroutines are started and the loop is entered. *)
Definition enter_loop (p : process) : process := Process (server p) AcceptLoop (cancelled p) true.

(** ** From the command line to the accept loop *)

(** What [main] and [run] have built when the accept loop starts. *)
Record booted := Booted {
  b_scheme : scheme;
  b_server : Server;                (* over a new store *)
  b_process : process;
  b_sweep : Z;                      (* the interval given to cleanupExpired *)
  b_ops : option bytes              (* where serveOps listens *)
}.

Inductive boot_error := BadConfig (e : startup_error) | BadListener (e : listen_error).

(** [main] up to the loop of [run]; an error ends the process with status 1.
    [now] is when the server is created. *)
Definition boot (flag : bytes) (open : bytes -> opened_file) (keypair : bytes -> bytes -> bool)
    (bind : bytes -> bool) (now : Z) : booted + boot_error :=
  match loadConfig flag open with
  | inr e => inr (BadConfig e)
  | inl cfg =>
      match listen keypair bind cfg with
      | inr e => inr (BadListener e)
      | inl sc =>
          let kv := New (store_config cfg) in
          inl (Booted sc (NewServer kv (AuthToken cfg) now) (enter_loop (start cfg)) (CleanupInterval cfg)
                 (if negb (bool_decide (PprofAddr cfg = [])) then Some (PprofAddr cfg) else None))
      end
  end.

Inductive event_of_process :=
| ListenReturns                 (* with a listener or with an error *)
| Signal                        (* SIGINT or SIGTERM: the context is cancelled *)
| CloseListener                 (* the goroutine that waits for the context *)
| AcceptConn                    (* Accept returns a connection *)
| AcceptFails                   (* Accept returns an error *)
| CallShutdown                  (* srv.Shutdown: its first critical section *)
| ShutdownStep (a : action)     (* the rest of Shutdown, or a connection *)
| ReturnFromRun.

(** A connection's step, or a step of [Shutdown] after its first pass. *)
Definition server_action (a : action) : bool :=
  match a with Step _ _ => true | _ => false end.
Definition shutdown_action (a : action) : bool :=
  match a with WaitReturns | ShutdownExpire | ShutdownReturn => true | _ => false end.

Section Run.
Context (keypair : bytes -> bytes -> bool) (bind : bytes -> bool) (cfg : Config).

Definition step_process (e : event_of_process) (p : process) : option process :=
  match main p with
  | Exited _ => None
  | pc =>
      match e with
      | ListenReturns =>
          match pc with
          | Starting =>
              match listen keypair bind cfg with
              | inl _ => Some (enter_loop p)
              | inr _ => Some (Process (server p) (Exited true) (cancelled p) false)
              end
          | _ => None
          end
      | Signal => Some (Process (server p) pc true (listening p))
      | CloseListener => if cancelled p && listening p then Some (Process (server p) pc true false) else None
      | AcceptConn =>
          match pc with
          | AcceptLoop =>
              if listening p then
                s ← exec Accept (server p); Some (Process s AcceptLoop (cancelled p) true)
              else None
          | _ => None
          end
      | AcceptFails =>
          (* ctx.Err() is Canceled, or the error is net.ErrClosed *)
          match pc with
          | AcceptLoop =>
              if cancelled p || negb (listening p)
              then Some (Process (server p) Draining (cancelled p) (listening p))
              else Some (Process (server p) (Exited true) (cancelled p) false)
          | _ => None
          end
      | CallShutdown =>
          match pc with
          | Draining => s ← exec ShutdownStart (server p); Some (Process s InShutdown (cancelled p) (listening p))
          | _ => None
          end
      | ShutdownStep a =>
          if server_action a || (shutdown_action a && match pc with InShutdown => true | _ => false end)
          then s ← exec a (server p); Some (Process s pc (cancelled p) (listening p))
          else None
      | ReturnFromRun =>
          match pc, down (server p) with
          | InShutdown, Returned _ => Some (Process (server p) (Exited false) (cancelled p) false)
          | _, _ => None
          end
      end
  end.

(** The states of a process that runs [run] from its first line. *)
Inductive running : process -> Prop :=
| running_start : running (start cfg)
| running_step p e p' : running p -> step_process e p = Some p' -> running p'.

Fixpoint run_process (es : list event_of_process) (p : process) : option process :=
  match es with [] => Some p | e :: es' => p' ← step_process e p; run_process es' p' end.
End Run.

(** ** The sweeper *)

(** What the [select] of [cleanupExpired] receives. *)
Inductive wakeup := Tick (clock : nat -> Z) | Done_.

Section Sweeper.
Context `{MapRange}.

Fixpoint sweeper_loop (ws : list wakeup) : M Store unit :=
  match ws with
  | [] => mret tt                                   (* still waiting *)
  | Done_ :: _ => mret tt
  | Tick clock :: ws' => CleanupExpired clock ;; sweeper_loop ws'
  end.

(** [time.NewTicker] panics for a negative interval. *)
Definition sweeper (interval : Z) (ws : list wakeup) : M Store unit :=
  if interval =? 0 then mret tt
  else if interval <? 0 then panic
  else sweeper_loop ws.
End Sweeper.
