(* ===== verification/ProcessProps.v ===== *)
(** * How the process starts, serves and ends

    Every state of a running process holds a reachable [life], so the theorems
    of [Lifecycle] hold inside it.  On top of that: when [run] returns and what
    is left then, that a signal always leads out, and that a forced shutdown
    comes to its end under every schedule. *)

From S2P Require Import Prelude Shard ShardSpec ShardRefine Store StoreSpec StoreProps.
From S2P Require Import Protocol Server Config Lifecycle Process.

(** ** Process states *)


Section Coherence.
Context (keypair : bytes -> bytes -> bool) (bind : bytes -> bool) (cfg : Config).

(** The main goroutine and [Shutdown] are in step. *)
Definition coherent (p : process) : Prop :=
  match main p with
  | Starting => down (server p) = NotCalled /\ threads (server p) = []
  | AcceptLoop => down (server p) = NotCalled /\ (listening p = false -> cancelled p = true)
  | Draining => down (server p) = NotCalled /\ cancelled p = true
  | InShutdown => down (server p) <> NotCalled /\ cancelled p = true
  | Exited true => down (server p) = NotCalled /\
      (threads (server p) = [] /\ (exists e, listen keypair bind cfg = inr e) \/
       cancelled p = false /\ (exists sc, listen keypair bind cfg = inl sc))
  | Exited false => cancelled p = true /\ has_returned (down (server p)) = true
  end /\
  (main p <> Starting -> main p <> Exited true -> exists sc, listen keypair bind cfg = inl sc).

Ltac step_as E s pc := unfold step_process in E; cbn [server main cancelled listening] in E; destruct pc; try discriminate E.

(** What a step of the process does to the server. *)
Lemma step_cases e p p' : step_process keypair bind cfg e p = Some p' ->
  server p' = server p \/
  exists a, exec a (server p) = Some (server p') /\ (a = Accept -> main p = AcceptLoop /\ listening p = true).
Proof.
  intros E. destruct p as [s pc can lis].
  assert (Hx : forall a (o : main_pc) (b c : bool), (s' ← exec a s; Some (Process s' o b c)) = Some p' ->
    exec a s = Some (server p')).
  { intros a o b c. destruct (exec a s); simpl; [|done]. by intros [= <-]. }
  destruct e as [| | | | | |a|].
  - left. step_as E s pc. destruct (listen _ _ _); by injection E as <-.
  - left. step_as E s pc; by injection E as <-.
  - left. step_as E s pc; destruct (can && lis); try discriminate E; by injection E as <-.
  - right. exists Accept. step_as E s pc. destruct lis; [|discriminate E]. split; [by eapply Hx|done].
  - left. step_as E s pc. destruct (can || negb lis); by injection E as <-.
  - right. exists ShutdownStart. step_as E s pc. split; [by eapply Hx|done].
  - right. exists a. step_as E s pc; destruct a; cbn [server_action shutdown_action orb andb] in E;
      try discriminate E; (split; [by eapply Hx|done]).
  - left. step_as E s pc. destruct (down s); try discriminate E; by injection E as <-.
Qed.

Lemma step_coherent e p p' : coherent p -> step_process keypair bind cfg e p = Some p' -> coherent p'.
Proof.
  intros [Hco Hl] E. destruct p as [s pc can lis]. unfold coherent in *. cbn [server main cancelled listening] in *.
  destruct e as [| | | | | |a|].
  - step_as E s pc. destruct (listen keypair bind cfg) eqn:El; injection E as <-; cbn; naive_solver.
  - step_as E s pc; injection E as <-; cbn; naive_solver.
  - step_as E s pc; destruct can, lis; try discriminate E; injection E as <-; cbn; naive_solver.
  - step_as E s pc. destruct lis; [|discriminate E]. injection E as <-. cbn. naive_solver.
  - step_as E s pc. destruct can, lis; injection E as <-; cbn; naive_solver.
  - step_as E s pc. destruct (exec ShutdownStart s) as [s'|] eqn:Ex; [|done]. injection E as <-.
    apply exec_down in Ex as (_ & Hd & _). cbn. rewrite Hd. naive_solver.
  - assert (Hx : exists s', exec a s = Some s' /\ p' = Process s' pc can lis /\
      (server_action a || (shutdown_action a && match pc with InShutdown => true | _ => false end)) = true).
    { step_as E s pc; (destruct (server_action a || _); [|discriminate E]);
        (destruct (exec a s) as [s'|]; [|discriminate E]); injection E as <-; by exists s'. }
    destruct Hx as (s' & Ex & -> & Hg). pose proof (exec_down _ _ _ Ex) as Hd. cbn [main server cancelled listening].
    destruct a as [|i inp| | | |]; try done.
    + destruct Hd as [-> _]. destruct pc; try naive_solver.
      destruct Hco as [_ Hth]. simpl in Ex. unfold advance in Ex. by rewrite Hth in Ex.
    + destruct pc; try done. destruct Hd as (? & -> & _). naive_solver.
    + destruct pc; try done. destruct Hd as (? & -> & _). naive_solver.
    + destruct pc; try done. destruct Hd as (_ & _ & [[_ ->]|[_ ->]]); naive_solver.
  - step_as E s pc. destruct (down s) eqn:Ed; try discriminate E. injection E as <-. cbn. rewrite Ed. naive_solver.
Qed.

Lemma running_reach p : running keypair bind cfg p ->
  reach (WithMaxConnections (MaxConnections cfg)) (0 <? IdleTimeout cfg) (server p) /\ coherent p.
Proof.
  induction 1 as [|p e p' _ [Hr Hc] E]; [split; [apply reach_init|]; by split|].
  split; [|by eapply step_coherent]. destruct (step_cases e p p' E) as [->|(a & Ea & _)]; [done|by eapply reach_step].
Qed.

Lemma run_process_running es : forall p p',
  running keypair bind cfg p -> run_process keypair bind cfg es p = Some p' -> running keypair bind cfg p'.
Proof.
  induction es as [|e es IH]; intros p p' Hp; simpl; [by intros [= <-]|].
  destruct (step_process keypair bind cfg e p) as [p1|] eqn:E; simpl; [|done]. apply IH. by eapply running_step.
Qed.

Lemma entered_running sc : listen keypair bind cfg = inl sc -> running keypair bind cfg (enter_loop (start cfg)).
Proof.
  intros El. eapply (running_step _ _ _ _ ListenReturns); [apply running_start|].
  unfold step_process. simpl. by rewrite El.
Qed.
End Coherence.

(** ** Draining *)

(** How many steps a connection whose input has ended still takes. *)
Definition steps_left (p : phase) : nat :=
  match p with
  | Gone | Turned => 0
  | Departed | Refused => 1
  | Deregistered => 2
  | Inactive => 3
  | Closed => 4
  | Leaving => 5
  | Reading => 6
  | LoopTop => 7
  | Working | Registered => 8
  | Joined => 9
  | Slotted => 10
  | Opened => 11
  | Accepted => 12
  end.

(** A command in the buffer takes three more. *)
Definition weight (c : conn) : nat := steps_left (ph c) + 3 * pending c.
Definition todo (s : life) : nat := sum_list (map weight (threads s)).

(** The goroutine has not come to [registerConn] yet. *)
Definition registering (p : phase) : bool :=
  match p with Accepted | Opened | Slotted | Joined => true | _ => false end.

(** The connection receives nothing more: it is closed, or its goroutine has
    left the loop. *)
Definition ending (c : conn) : Prop := is_closed c = true \/ (steps_left (ph c) <= 5)%nat.

Definition winding (s : life) : Prop := forall i c, threads s !! i = Some c -> ending c.

Lemma todo_alter l i c (g : conn -> conn) : l !! i = Some c ->
  (sum_list (map weight (alter g i l)) + weight c = sum_list (map weight l) + weight (g c))%nat.
Proof.
  revert i. induction l as [|d l IH]; intros [|i] Hi; simplify_eq/=; [lia|]. specialize (IH i Hi). lia.
Qed.

Lemma todo_advance i s s' c g : threads s !! i = Some c -> threads s' = alter g i (threads s) ->
  (weight (g c) < weight c)%nat -> (todo s' < todo s)%nat.
Proof. intros Hi Ht Hlt. unfold todo. rewrite Ht. pose proof (todo_alter _ i c g Hi). lia. Qed.

Lemma winding_alter (l : list conn) (i : nat) (g : conn -> conn) c : (forall j d, l !! j = Some d -> ending d) -> l !! i = Some c -> ending (g c) ->
  forall j d, alter g i l !! j = Some d -> ending d.
Proof.
  intros Hw Hi Hg j d Hj. destruct (decide (j = i)) as [->|Hne].
  - rewrite list_lookup_alter_eq, Hi in Hj. by injection Hj as <-.
  - rewrite list_lookup_alter_ne in Hj by done. by eapply Hw.
Qed.

Ltac lighter := eexists; (split; [reflexivity|]); unfold weight, ending in *; cbn in *; split; [intuition lia|lia].

(** One step of an ending connection. *)
Lemma advance_ending i inp s s' c : threads s !! i = Some c -> ending c -> advance i inp s = Some s' ->
  exists g, threads s' = alter g i (threads s) /\ ending (g c) /\ (weight (g c) < weight c)%nat.
Proof.
  intros Hi He E. unfold advance in E. rewrite Hi in E. simpl in E.
  destruct c as [p d cl n]. cbn [ph pending] in *.
  destruct p; try discriminate E; try (injection E as <-; lighter).
  - injection E as <-. unfold acquireSlot. destruct (cap s); [destruct (_ <? _)|]; lighter.
  - unfold read_step, readable in E. cbn [pending is_closed] in E.
    assert (cl = true) as -> by (destruct He as [|He]; [done|cbn in He; lia]).
    destruct n as [|n], inp; try discriminate E; injection E as <-; lighter.
  - destruct inp; try discriminate E; injection E as <-; lighter.
  - injection E as <-. unfold releaseSlot. destruct (cap s); lighter.
Qed.

Lemma step_winding i inp s s' : winding s -> exec (Step i inp) s = Some s' ->
  winding s' /\ (todo s' < todo s)%nat.
Proof.
  intros Hw E. simpl in E.
  destruct (threads s !! i) as [c|] eqn:Hi; [|unfold advance in E; by rewrite Hi in E].
  destruct (advance_ending i inp s s' c Hi (Hw i c Hi) E) as (g & Ht & Hg & Hlt).
  split; [|by eapply todo_advance].
  intros j d Hj. rewrite Ht in Hj. by eapply winding_alter.
Qed.

(** After the forced closing only goroutines that have not registered are not
    winding down. *)
Lemma expire_winding s s' : life_inv s -> exec ShutdownExpire s = Some s' ->
  (forall i c, threads s !! i = Some c -> registering (ph c) = false) -> winding s'.
Proof.
  intros HI E Hreg i c Hi. simpl in E. destruct (down s); try discriminate E. injection E as <-. cbn in Hi.
  rewrite list_lookup_imap in Hi. destruct (threads s !! i) as [d|] eqn:Hd; [|done]. injection Hi as <-.
  specialize (Hreg i d Hd). case_decide as Hc; [by left|]. right.
  rewrite (inv_conns s HI) in Hc. destruct (in_conns (ph d)) eqn:Hin; [exfalso; eauto|].
  destruct (ph d); cbn in *; try discriminate; lia.
Qed.

Definition finished (c : conn) : Prop := ph c = Gone \/ ph c = Turned.

Global Instance finished_dec c : Decision (finished c).
Proof. unfold finished. apply _. Defined.

(** Nothing arrives from the client. *)
Definition silent (inp : input) : bool := match inp with Data _ => false | _ => true end.

(** A goroutine that has not returned can always take a step towards its end,
    without any more input. *)
Lemma silent_step s i c : threads s !! i = Some c -> ~ finished c ->
  exists inp s', silent inp = true /\ exec (Step i inp) s = Some s' /\ (todo s' < todo s)%nat.
Proof.
  intros Hi Hf. exists (match ph c, pending c with Reading, S _ => More | _, _ => Stop end).
  assert (Hx : exists s' g, exec (Step i (match ph c, pending c with Reading, S _ => More | _, _ => Stop end)) s = Some s' /\
    threads s' = alter g i (threads s) /\ (weight (g c) < weight c)%nat).
  { simpl. unfold advance, read_step, acquireSlot, releaseSlot. rewrite Hi. simpl. unfold finished in Hf.
    destruct c as [p d cl n]. cbn [ph pending] in *.
    destruct p, n; try (exfalso; naive_solver); repeat case_match; do 2 eexists;
      (split; [reflexivity|]); (split; [reflexivity|]); unfold weight; cbn; lia. }
  destruct Hx as (s' & g & E & Ht & Hw). exists s'. split_and!; [by destruct (ph c), (pending c)|done|].
  by eapply todo_advance.
Qed.

Lemma unfinished (l : list conn) : Forall finished l \/ exists i c, l !! i = Some c /\ ~ finished c.
Proof.
  destruct (Forall_Exists_dec finished (fun c => ~ finished c) (fun c => decide (finished c)) l) as [|HE]; [by left|].
  right. apply Exists_exists in HE as (c & Hin & Hc). apply list_elem_of_lookup in Hin as [i Hi]. eauto.
Qed.

Lemma finished_wg s : life_inv s -> Forall finished (threads s) -> wg s = 0.
Proof.
  intros HI HF. rewrite (inv_wg s HI). apply cnt_zero. eapply Forall_impl; [exact HF|]. by intros c [-> | ->].
Qed.

(** [Shutdown] itself still has up to two steps to take. *)
Definition ahead (s : life) : nat :=
  todo s + (if drained s then 0 else 1) + (if has_returned (down s) then 0 else 1).

Lemma forced_step a s s' : winding s -> was_forced (down s) = true -> a <> Accept -> exec a s = Some s' ->
  winding s' /\ was_forced (down s') = true /\ (ahead s' < ahead s)%nat.
Proof.
  intros Hw Hf Ha E. pose proof (exec_down a s s' E) as Hd. unfold ahead. destruct a as [|i inp| | | |].
  - done.
  - destruct Hd as [-> ->]. apply step_winding in E as [? ?]; [|done]. split_and!; [done..|]. lia.
  - destruct Hd as (Hn & _). by rewrite Hn in Hf.
  - destruct Hd as (_ & -> & _ & -> & ->). simpl in E.
    assert (s' = close_done s) as -> by (destruct (down s); repeat case_match; congruence).
    split_and!; [done..|unfold todo; simpl; lia].
  - destruct Hd as (Hn & _). by rewrite Hn in Hf.
  - destruct Hd as (-> & -> & [[Hn ->]|[Hn ->]]); rewrite Hn in *; [done|]. simpl in E. rewrite Hn in E.
    destruct (drained s); [|discriminate E]. injection E as <-. split_and!; [done..|unfold todo; simpl; lia].
Qed.

Lemma forced_run acts : forall s s', winding s -> was_forced (down s) = true ->
  Forall (fun a => a <> Accept) acts -> Lifecycle.run acts s = Some s' ->
  winding s' /\ was_forced (down s') = true /\ (length acts + ahead s' <= ahead s)%nat.
Proof.
  induction acts as [|a acts IH]; intros s s' Hw Hf HF; cbn [Lifecycle.run length].
  - intros [= <-]. split_and!; [done..|lia].
  - apply Forall_cons in HF as [Ha HF]. destruct (exec a s) as [s1|] eqn:E; simpl; [|done]. intros Hr.
    destruct (forced_step a s s1 Hw Hf Ha E) as (W1 & F1 & L1). destruct (IH s1 s' W1 F1 HF Hr) as (? & ? & ?).
    split_and!; [done..|lia].
Qed.

(** Where nothing can move, [Shutdown] has returned. *)
Lemma forced_stuck c0 i0 s : reach c0 i0 s -> was_forced (down s) = true ->
  (forall a, a <> Accept -> exec a s = None) -> down s = Returned false.
Proof.
  intros Hr Hf Hstuck.
  assert (HF : Forall finished (threads s)).
  { destruct (unfinished (threads s)) as [|(i & c & Hi & Hc)]; [done|].
    destruct (silent_step s i c Hi Hc) as (inp & s' & _ & E & _). by rewrite (Hstuck (Step i inp)) in E. }
  pose proof (Hstuck WaitReturns ltac:(done)) as Hwait. pose proof (Hstuck ShutdownReturn ltac:(done)) as Hret.
  simpl in Hwait, Hret. rewrite (finished_wg s (reach_inv _ _ _ Hr) HF) in Hwait.
  destruct (down s) as [| | |[]], (drained s); done.
Qed.

(** ** The sweeper *)

Lemma cleanup_loop_events `{MapRange} clock n : forall i tot s r s',
  cleanup_loop n i clock tot s = Done (r, s') ->
  exists rs, run_events (map (fun j => EvSweep j (clock j)) (seq i n)) s = Done (rs, s').
Proof.
  induction n as [|n IH]; intros i tot s r s'; cbn [cleanup_loop seq map run_events].
  - intros [= _ <-]. by exists [].
  - unfold mbind, M_bind, run_event. destruct (on_shard i _ s) as [[k s1]| |] eqn:E; [|done|done].
    intros Hl. apply IH in Hl as [rs Hrs]. exists (RCount k :: rs). unfold mbind, M_bind. rewrite E. cbn. by rewrite Hrs.
Qed.

Lemma run_events_app `{MapRange} es1 : forall es2 s rs1 s1 rs2 s2,
  run_events es1 s = Done (rs1, s1) -> run_events es2 s1 = Done (rs2, s2) ->
  run_events (es1 ++ es2) s = Done (rs1 ++ rs2, s2).
Proof.
  induction es1 as [|e es1 IH]; intros es2 s rs1 s1 rs2 s2; cbn [run_events app].
  - intros [= <- <-]. done.
  - unfold mbind, M_bind. destruct (run_event e s) as [[r s']| |]; [|done|done].
    destruct (run_events es1 s') as [[rs s'']| |] eqn:E; [|done|done]. intros [= <- <-] H2.
    by rewrite (IH _ _ _ _ _ _ E H2).
Qed.

(** One tick extends a history by a sweep of every shard. *)
Lemma tick_reach `{MapRange} (config : Store.Config) es rs s clock : config_ok config -> store_reach config es rs s ->
  exists k rs' s', CleanupExpired clock s = Done (k, s') /\
    store_reach config (es ++ map (fun j => EvSweep j (clock j)) (seq 0 (num_shards config))) (rs ++ rs') s'.
Proof.
  intros Hok Hr. pose proof (reach_shards config Hok _ _ _ Hr) as Hn.
  destruct (reach_rel config Hok _ _ _ Hr) as (_ & Hrel & _).
  destruct (wp_Done _ _ _ (CleanupExpired_ok config Hok clock s _ Hrel)) as (k & s' & E & _).
  exists k. unfold CleanupExpired, mbind, M_bind, gets in E. rewrite Hn in E.
  destruct (cleanup_loop_events _ _ _ _ _ _ _ E) as [rs' Hrs]. exists rs', s'.
  split; [unfold CleanupExpired, mbind, M_bind, gets; by rewrite Hn|].
  destruct Hr as [HF Hrun]. split; [|by eapply run_events_app].
  apply Forall_app. split; [done|]. apply Forall_map, Forall_seq. intros j Hj. simpl. lia.
Qed.

(** The sweeps of the ticks that the sweeper handles: per tick one of every
    shard, in order, each at the instant its clock was read. *)
Fixpoint sweeps (n : nat) (ws : list wakeup) : list event :=
  match ws with
  | Tick clock :: ws' => map (fun j => EvSweep j (clock j)) (seq 0 n) ++ sweeps n ws'
  | _ => []
  end.

Lemma sweeper_loop_reach `{MapRange} (config : Store.Config) ws : config_ok config -> forall es rs s,
  store_reach config es rs s ->
  exists rs' s', sweeper_loop ws s = Done (tt, s') /\
    store_reach config (es ++ sweeps (num_shards config) ws) (rs ++ rs') s'.
Proof.
  intros Hok. induction ws as [|[clock|] ws IH]; intros es rs s Hr; cbn [sweeper_loop sweeps].
  1,3: exists [], s; by rewrite !app_nil_r.
  destruct (tick_reach config es rs s clock Hok Hr) as (k & rs1 & s1 & E & Hr1).
  destruct (IH _ _ _ Hr1) as (rs2 & s2 & E2 & Hr2).
  exists (rs1 ++ rs2), s2. rewrite !app_assoc. split; [|exact Hr2]. unfold mbind, M_bind. by rewrite E.
Qed.

(** ** After [Shutdown] *)

Definition no_accept (a : action) : Prop := a <> Accept.

(** [s] is what became of a state in which no connection was being served; no
    connection has been accepted since. *)
Definition after_drain (c0 : option Z) (i0 : bool) (s : life) : Prop :=
  exists s0 acts, reach c0 i0 s0 /\ wg s0 = 0 /\ Forall no_accept acts /\
    (has_returned (down s) = true -> ShutdownReturn ∈ acts) /\ Lifecycle.run (WaitReturns :: acts) s0 = Some s.

Lemma drained_called c0 i0 s : reach c0 i0 s -> (drained s = true -> down s <> NotCalled) /\
  (has_returned (down s) = true -> drained s = true).
Proof.
  induction 1 as [|s a s' _ [IH1 IH2] E]; [done|]. apply exec_down in E.
  destruct a; destruct_and?; destruct_or?; destruct_and?;
    repeat match goal with H : down s' = _ |- _ => rewrite H in * | H : drained s' = _ |- _ => rewrite H in * end;
    split; try done; naive_solver.
Qed.

Section Exit.
Context (keypair : bytes -> bytes -> bool) (bind : bytes -> bool) (cfg : Config).

Lemma running_after_drain p : running keypair bind cfg p -> drained (server p) = true ->
  after_drain (WithMaxConnections (MaxConnections cfg)) (0 <? IdleTimeout cfg) (server p).
Proof.
  induction 1 as [|p e p' Hrun IH E]; intros Hd; [done|].
  destruct (running_reach keypair bind cfg p Hrun) as [Hr [Hco _]].
  destruct (step_cases keypair bind cfg e p p' E) as [Es|(a & Ea & Hacc)]; [rewrite Es in *; eauto|].
  pose proof (exec_down _ _ _ Ea) as Hdown.
  destruct (decide (a = WaitReturns)) as [->|Hw].
  { exists (server p), []. destruct Hdown as (_ & Hsame & Hwg & Hnd & _). cbn [Lifecycle.run]. rewrite Ea. simpl.
    split_and!; try done. rewrite Hsame. intros Hx. apply (drained_called _ _ _ Hr) in Hx. congruence. }
  assert (Hd0 : drained (server p) = true) by (destruct a; naive_solver congruence).
  destruct (IH Hd0) as (s0 & acts & R0 & W0 & F0 & Hret & Hrun0).
  exists s0, (acts ++ [a]). split_and!; try done.
  - apply Forall_app. split; [done|]. constructor; [|constructor]. intros ->. destruct (Hacc eq_refl) as [Hm _].
    rewrite Hm in Hco. apply (proj1 (drained_called _ _ _ Hr)) in Hd0. naive_solver.
  - intros Hx. rewrite elem_of_app, list_elem_of_singleton.
    destruct (decide (a = ShutdownReturn)) as [->|Hnr]; [by right|]. left. apply Hret.
    destruct a; destruct_and?; repeat match goal with H : down _ = _ |- _ => rewrite H in * end; done.
  - apply (run_snoc (WaitReturns :: acts)). eauto.
Qed.

End Exit.

(** ** Starting *)

Lemma loadConfig_file flag open cfg : loadConfig flag open = inl cfg ->
  exists text, open (if bool_decide (flag = []) then defaultConfigPath else flag) = Contents text /\
    Load (Some text) = inl cfg.
Proof.
  unfold loadConfig. intros Hl.
  destruct (bool_decide (flag = [])); cbn [negb] in Hl;
    (destruct (open _) as [text| |] eqn:E; cbn [contents_of] in Hl; [|discriminate Hl..]);
    exists text; (split; [done|]); destruct (Load (Some text)); congruence.
Qed.

Lemma listen_tcp keypair bind cfg :
  listen keypair bind cfg = inl TCP -> (TLSEnabled cfg = true <-> TLSCert cfg <> [] \/ TLSKey cfg <> []) ->
  TLSCert cfg = [] /\ TLSKey cfg = [].
Proof.
  unfold listen. destruct (TLSEnabled cfg) eqn:E; cbn [negb].
  - destruct (keypair _ _), (bind _); discriminate.
  - intros _ [_ Htls]. destruct (TLSCert cfg), (TLSKey cfg); try done;
      (assert (false = true) by (apply Htls; first [by left | by right]); done).
Qed.

Section Stopping.
Context (keypair : bytes -> bytes -> bool) (bind : bytes -> bool) (cfg : Config).

Lemma served_at_most p :
  running keypair bind cfg p -> 0 < MaxConnections cfg -> active (server p) <= MaxConnections cfg.
Proof.
  intros Hp Hpos. destruct (running_reach keypair bind cfg p Hp) as [Hr _]. pose proof (reach_inv _ _ _ Hr) as HI.
  pose proof (reach_cap _ _ _ Hr) as Hc. unfold WithMaxConnections in Hc.
  destruct (Z.ltb_spec 0 (MaxConnections cfg)); [|lia].
  pose proof (inv_sem _ HI) as Hs. rewrite Hc in Hs. rewrite (inv_active _ HI).
  pose proof (inv_cap _ HI _ Hc Hpos). pose proof (cnt_mono is_active holds_slot (threads (server p)) ltac:(by intros [])).
  lia.
Qed.

(** ** Stopping *)









End Stopping.

(** ** Theorems *)

(** C13: How the process ends.  [run] returns [nil] only after a signal, once
    there was a moment at which no connection was being served, which [Shutdown]
    waited for before it returned; no connection was accepted since.  [run]
    returns an error only when [listen] fails, and then there never was a
    connection, or when [Accept] fails although there was no signal, and then
    [Shutdown] is not called. *)
Theorem process_exit keypair bind (cfg : Config) (p : process) :
  running keypair bind cfg p ->
  match main p with
  | Exited false =>
      cancelled p = true /\
      exists s0 acts, reach (WithMaxConnections (MaxConnections cfg)) (0 <? IdleTimeout cfg) s0 /\
        conns s0 = ∅ /\ active s0 = 0 /\
        (forall i c, threads s0 !! i = Some c -> in_group (ph c) = false) /\
        Forall no_accept acts /\ ShutdownReturn ∈ acts /\
        Lifecycle.run (WaitReturns :: acts) s0 = Some (server p)
  | Exited true =>
      (exists e, listen keypair bind cfg = inr e) /\ threads (server p) = [] \/
      (exists sc, listen keypair bind cfg = inl sc) /\ cancelled p = false /\ down (server p) = NotCalled
  | _ => True
  end.
Proof.
  intros Hp. destruct (running_reach keypair bind cfg p Hp) as [Hr [Hco _]].
  destruct (main p) as [| | | |[]]; try done; [naive_solver|]. destruct Hco as [Hcan Hd]. split; [done|].
  pose proof (proj2 (drained_called _ _ _ Hr) Hd) as Hdr.
  destruct (running_after_drain keypair bind cfg p Hp Hdr) as (s0 & acts & R0 & W0 & F0 & Hret & Hrun0). exists s0, acts.
  destruct (group_empty s0 (reach_inv _ _ _ R0) W0) as (? & ? & ?). split_and!; try done. by apply Hret.
Qed.

(** A process that serves one connection, is told to stop, and stops; the
    machine lets it bind its address and has no certificates. *)
Definition no_keys (cert key : bytes) : bool := false.
Definition can_bind (addr : bytes) : bool := true.

Definition demo_process_events : list event_of_process :=
  [ListenReturns; AcceptConn] ++ map ShutdownStep (replicate 6 (Step 0 More) ++ [Step 0 (Data 1); Step 0 More]) ++
  [Signal; CloseListener; AcceptFails; CallShutdown] ++
  map ShutdownStep (replicate 6 (Step 0 Stop) ++ [WaitReturns; ShutdownReturn]) ++ [ReturnFromRun].

Definition demo_run (es : list event_of_process) : process :=
  match run_process no_keys can_bind Default es (start Default) with Some p => p | None => start Default end.

Definition demo_process : process := demo_run demo_process_events.

Lemma demo_process_running : running no_keys can_bind Default demo_process.
Proof. eapply (run_process_running _ _ _ demo_process_events); [apply running_start|vm_compute; reflexivity]. Qed.

Lemma process_exit_witness :
  main demo_process = Exited false /\ cancelled demo_process = true /\
  exists s0 acts, reach (WithMaxConnections 1024) true s0 /\ conns s0 = ∅ /\ active s0 = 0 /\
    (forall i c, threads s0 !! i = Some c -> in_group (ph c) = false) /\
    Forall no_accept acts /\ ShutdownReturn ∈ acts /\
    Lifecycle.run (WaitReturns :: acts) s0 = Some (server demo_process).
Proof.
  split; [vm_compute; reflexivity|]. exact (process_exit no_keys can_bind Default demo_process demo_process_running).
Defined.




(** C29: A forced shutdown comes to its end.  If no goroutine is still on its way
    to [registerConn] when the deadline of [Shutdown] passes, then every
    schedule of the connections and of [Shutdown] from there is finite, at most
    [todo s + 2] steps long, commands left in the buffers included, and where
    none of them can go on [Shutdown] has returned the error of its context. *)
Theorem forced_shutdown_drains (cap0 : option Z) (idle0 : bool) (s0 s s' : life) (acts : list action) :
  reach cap0 idle0 s0 -> (forall i c, threads s0 !! i = Some c -> registering (ph c) = false) ->
  exec ShutdownExpire s0 = Some s ->
  Forall no_accept acts -> Lifecycle.run acts s = Some s' ->
  (length acts <= todo s + 2)%nat /\
  ((forall a, no_accept a -> exec a s' = None) -> down s' = Returned false).
Proof.
  intros Hr Hreg Hexp HF Hrun. pose proof (expire_winding s0 s (reach_inv _ _ _ Hr) Hexp Hreg) as Hw.
  assert (Hf : was_forced (down s) = true) by (by apply exec_down in Hexp as (_ & -> & _)).
  destruct (forced_run acts s s' Hw Hf HF Hrun) as (Hw' & Hf' & Hlen). split; [unfold ahead in Hlen; repeat case_match; lia|].
  intros Hstuck. assert (Hr' : reach cap0 idle0 s').
  { eapply run_reach; [|exact Hrun]. by eapply reach_step. }
  by eapply forced_stuck.
Qed.

(** A connection that is read, with one command left in its buffer, when the
    deadline passes. *)
Definition demo_expiring : life :=
  match Lifecycle.run ([Accept] ++ replicate 6 (Step 0 More) ++ [Step 0 (Data 1); ShutdownStart]) (new_life None false) with
  | Some s => s | None => new_life None false
  end.

Definition demo_drain : list action :=
  replicate 3 (Step 0 More) ++ replicate 6 (Step 0 Stop) ++ [WaitReturns; ShutdownReturn].

Lemma forced_shutdown_drains_witness :
  exists s s', exec ShutdownExpire demo_expiring = Some s /\ Lifecycle.run demo_drain s = Some s' /\
    (length demo_drain <= todo s + 2)%nat /\ down s' = Returned false.
Proof.
  do 2 eexists. split; [vm_compute; reflexivity|]. split; [vm_compute; reflexivity|].
  match goal with |- (_ <= todo ?s + 2)%nat /\ down ?s' = _ =>
    destruct (forced_shutdown_drains None false demo_expiring s s' demo_drain) as [H1 H2]
  end; [| |vm_compute; reflexivity| |vm_compute; reflexivity|split; [exact H1|apply H2]].
  - eapply (run_reach _ _ ([Accept] ++ replicate 6 (Step 0 More) ++ [Step 0 (Data 1); ShutdownStart]));
      [apply reach_init|vm_compute; reflexivity].
  - intros [|i] c Hc; vm_compute in Hc; [injection Hc as <-; reflexivity|discriminate Hc].
  - repeat constructor; discriminate.
  - intros [|[|i] inp| | | |] Ha; try reflexivity; [destruct (Ha eq_refl)].
Defined.

(** C27: What a process that starts can rely on.  Its configuration came from the
    file that was asked for, or from [minikv.conf] when none was; a plain
    listener is bound only if neither a certificate nor a key is configured; the
    server asks for exactly the configured token; it runs over a new store
    whose limits are the configured ones, unchanged by the store's defaults, so
    that every theorem about reachable stores applies; the sweeper's interval
    is not negative; and however the process goes on from there, the number of
    connections being served never exceeds the configured maximum. *)
Theorem startup_sound `{MapRange} flag open keypair bind now b :
  boot flag open keypair bind now = inl b ->
  exists text cfg,
    open (if bool_decide (flag = []) then defaultConfigPath else flag) = Contents text /\
    Load (Some text) = inl cfg /\
    (b_scheme b = TCP -> TLSCert cfg = [] /\ TLSKey cfg = []) /\
    authToken (b_server b) = AuthToken cfg /\
    store_reach (store_config cfg) [] [] (sv_store (b_server b)) /\
    normalizeConfig (store_config cfg) = store_config cfg /\
    0 <= b_sweep b /\
    forall es p, run_process keypair bind cfg es (b_process b) = Some p ->
      0 < MaxConnections cfg -> active (server p) <= MaxConnections cfg.
Proof.
  unfold boot. destruct (loadConfig flag open) as [cfg|] eqn:Hl; [|done].
  destruct (listen keypair bind cfg) as [sc|] eqn:Hs; [|done]. intros [= <-].
  destruct (loadConfig_file _ _ _ Hl) as (text & Hopen & Hload). exists text, cfg.
  destruct (load_valid _ _ Hload) as (_ & _ & _ & Hci & _ & _ & _ & Htls & Hn).
  assert (Hnew : store_reach (store_config cfg) [] [] (New (store_config cfg))) by (split; [constructor|done]).
  do 2 (split; [done|]). split; [cbn [b_scheme]; intros ->; by eapply listen_tcp|].
  do 4 (split; [done|]). intros es p Hp. apply (served_at_most keypair bind).
  eapply run_process_running; [by eapply entered_running|exact Hp].
Qed.

Lemma startup_sound_witness :
  let open path := if bool_decide (path = defaultConfigPath) then Contents "max-connections = 1" else NotExist in
  exists b, boot [] open (fun _ _ => false) (fun _ => true) 7 = inl b /\ b_scheme b = TCP /\
    exists text cfg, open defaultConfigPath = Contents text /\ Load (Some text) = inl cfg /\
      store_reach (store_config cfg) [] [] (sv_store (b_server b)).
Proof.
  intros open. destruct (boot [] open (fun _ _ => false) (fun _ => true) 7) as [b|e] eqn:E.
  2: { exfalso. assert (Hb : match boot [] open (fun _ _ => false) (fun _ => true) 7 with inl _ => true | inr _ => false end = true)
         by (vm_compute; reflexivity). rewrite E in Hb. discriminate Hb. }
  exists b. split; [reflexivity|].
  destruct (startup_sound [] open (fun _ _ => false) (fun _ => true) 7 b E)
    as (text & cfg & H1 & H2 & _ & _ & H3 & _).
  split; [|exists text, cfg; split; [exact H1|split; [exact H2|exact H3]]].
  assert (Hb : match boot [] open (fun _ _ => false) (fun _ => true) 7 with inl b => b_scheme b | inr _ => TLS end = TCP)
    by (vm_compute; reflexivity). by rewrite E in Hb.
Defined.

(** C28: The background sweeper is only ever a sequence of sweeps: with the
    interval of any configuration that loads it never panics, with interval 0
    it does nothing, and otherwise the store it leaves is the one after the
    same history followed by, for every tick it handles, one sweep of each shard
    in turn at the instant the clock was read for it, so that all theorems
    about reachable stores hold with the sweeper running. *)
Theorem sweeper_sound `{MapRange} file cfg (config : Store.Config) es rs s (ws : list wakeup) :
  Load file = inl cfg -> config_ok config -> store_reach config es rs s ->
  exists rs' s', sweeper (CleanupInterval cfg) ws s = Done (tt, s') /\
    store_reach config
      (es ++ if CleanupInterval cfg =? 0 then [] else sweeps (num_shards config) ws) (rs ++ rs') s'.
Proof.
  intros Hl Hok Hr. destruct (load_valid _ _ Hl) as (_ & _ & _ & Hi & _). unfold sweeper.
  destruct (Z.eqb_spec (CleanupInterval cfg) 0); [exists [], s; by rewrite !app_nil_r|].
  destruct (Z.ltb_spec (CleanupInterval cfg) 0); [lia|]. by apply sweeper_loop_reach.
Qed.

Lemma sweeper_sound_witness :
  exists rs' s', sweeper (CleanupInterval Default) [Tick (fun _ => 16); Done_] demo_store = Done (tt, s') /\
    store_reach demo_config (demo_events ++ [EvSweep 0 16; EvSweep 1 16]) (demo_replies ++ rs') s'.
Proof.
  apply (sweeper_sound (Some []) Default demo_config demo_events demo_replies demo_store [Tick (fun _ => 16); Done_]);
    [vm_compute; reflexivity|exact demo_config_ok|exact demo_store_reach].
Defined.
