(* ===== verification/Ops.v ===== *)
(** * The diagnostic endpoints ([src/cmd/minikv/main.go]: [serveOps])

    [healthzHandler], and [doctorHandler], which samples the server's
    statistics, judges them with floating-point ratios and prints one line per
    check.  [doctor_verdict] says which exact integer thresholds the ratios
    amount to, [uptime_line] what the uptime on the last line reads back as. *)

From Stdlib Require Import SpecFloat.
From S2P Require Import Prelude Strconv Float64 Rounding Format Shard Store StoreSpec Server Config.

(** ** Responses *)

(** What a handler sets on its [http.ResponseWriter]. *)
Record response := Response { status : Z; contentType : bytes; body : bytes }.

Definition StatusOK : Z := 200.
Definition StatusServiceUnavailable : Z := 503.
Definition text_plain : bytes := "text/plain; charset=utf-8".

Definition newline : bytes := ["010"%char].

Definition healthzHandler : response := Response StatusOK text_plain ("ok" ++ newline).

(** ** The checks of [doctorHandler]

    A check yields a line, for [failures] or for [ok]. *)

Inductive check := Fails (line : bytes) | Passes (line : bytes).

Definition memory_check (st : Stats) : check :=
  let pressure :=
    if 0 <? st_MaxMemoryBytes st
    then fdiv (of_int (st_MemoryBytes st)) (of_int (st_MaxMemoryBytes st))
    else of_int 0 in
  let percent := FormatFixed 0 (fmul pressure (of_int 100)) in
  if fltb f095 pressure
  then Fails ("memory_pressure: high (" ++ percent ++ "% of budget)")
  else Passes ("memory_pressure: ok (" ++ percent ++ "% of budget)").

(** The loop over [ItemsPerShard]. *)
Definition min_max (minItems maxItems : Z) (ns : list Z) : Z * Z :=
  foldl (fun '(lo, hi) n => ((if n <? lo then n else lo), (if hi <? n then n else hi))) (minItems, maxItems) ns.

(** [None]: [ItemsPerShard[0]] of an empty slice panics. *)
Definition balance_check (st : Stats) : option check :=
  if 100 <=? st_Items st then
    first ← st_ItemsPerShard st !! 0%nat;
    let '(minItems, maxItems) := min_max first first (st_ItemsPerShard st) in
    let minItems := if minItems =? 0 then 1 else minItems in
    let ratio := fdiv (of_int maxItems) (of_int minItems) in
    let text := FormatFixed 1 ratio in
    Some (if fltb (of_int 4) ratio
          then Fails ("shard_balance: imbalanced (max/min ratio " ++ text ++ "x)")
          else Passes ("shard_balance: ok (max/min ratio " ++ text ++ "x)"))
  else Some (Passes ("shard_balance: ok (only " ++ FormatInt (st_Items st) ++ " items, ratio not meaningful)")).

(** Uptime is informational. *)
Definition uptime_check (uptime : Z) : check := Passes ("uptime: " ++ duration_string (Round 1000000000 uptime)).

Definition failures (cs : list check) : list bytes :=
  omap (fun c => match c with Fails l => Some l | Passes _ => None end) cs.
Definition passes (cs : list check) : list bytes :=
  omap (fun c => match c with Fails _ => None | Passes l => Some l end) cs.

Definition doctor_checks (st : ServerStats) : option (list check) :=
  balance ← balance_check (ss_Store st);
  Some [memory_check (ss_Store st); balance; uptime_check (ss_Uptime st)].

(** The response to the checks. *)
Definition doctor_report (cs : list check) : response :=
  Response (if bool_decide (failures cs = []) then StatusOK else StatusServiceUnavailable) text_plain
    (concat (map (fun line => "FAIL " ++ line ++ newline) (failures cs)) ++
     concat (map (fun line => "OK   " ++ line ++ newline) (passes cs))).

(** The handler: it samples the statistics while the others use the server. *)
Definition doctorHandler `{MapRange} (env : environment) : M shared response :=
  st ← TakeStats env;
  cs ← must (doctor_checks st);
  mret (doctor_report cs).

(** ** The routes of [serveOps] *)

Inductive route := Healthz | Doctor | PprofIndex | PprofCmdline | PprofProfile | PprofSymbol | PprofTrace.

Definition ops_routes : list (bytes * route) :=
  [("/healthz", Healthz); ("/doctor", Doctor); ("/debug/pprof/", PprofIndex);
   ("/debug/pprof/cmdline", PprofCmdline); ("/debug/pprof/profile", PprofProfile);
   ("/debug/pprof/symbol", PprofSymbol); ("/debug/pprof/trace", PprofTrace)].

(** [http.ServeMux] on a clean path: a pattern that ends in a slash matches
    what it is a prefix of, any other pattern itself; the longest match wins. *)
Definition pattern_matches (pattern path : bytes) : bool :=
  if bool_decide (last pattern = Some "/"%char) then bool_decide (take (length pattern) path = pattern)
  else bool_decide (path = pattern).

Definition longest (best : option (bytes * route)) (r : bytes * route) : option (bytes * route) :=
  match best with
  | Some b => if (length b.1 <? length r.1)%nat then Some r else best
  | None => Some r
  end.

Definition mux (path : bytes) : option route :=
  snd <$> foldl longest None (filter (fun r => pattern_matches r.1 path) ops_routes).
