(* ===== verification/OpsProps.v ===== *)
(** * What the diagnostic endpoints report

    [/doctor] on every store that requests and sweeps can build: the verdict is
    decided by exact integer thresholds although the code divides in floating
    point, and the uptime it prints is the nearest whole second. *)

From Stdlib Require Import SpecFloat.
From S2P Require Import Prelude Strconv Float64 Rounding Format Shard ShardSpec Store StoreSpec StoreProps.
From S2P Require Import Server ServerSpec ServerProps Config Ops.

(** ** The extremes of a list *)

Lemma min_max_spec ns : forall lo hi,
  let '(lo', hi') := min_max lo hi ns in
  (lo' = lo \/ In lo' ns) /\ (hi' = hi \/ In hi' ns) /\ lo' <= lo /\ hi <= hi' /\
  Forall (fun n => lo' <= n <= hi') ns.
Proof.
  induction ns as [|n ns IH]; intros lo hi; cbn [min_max foldl]; [split_and!; auto; lia|].
  set (lo1 := if n <? lo then n else lo). set (hi1 := if hi <? n then n else hi).
  specialize (IH lo1 hi1). unfold min_max in IH.
  destruct (foldl _ (lo1, hi1) ns) as [lo' hi']. destruct IH as (H1 & H2 & H3 & H4 & H5).
  assert (Hlo : (lo1 = lo \/ lo1 = n) /\ lo1 <= lo /\ lo1 <= n)
    by (unfold lo1; destruct (Z.ltb_spec n lo); auto with lia).
  assert (Hhi : (hi1 = hi \/ hi1 = n) /\ hi <= hi1 /\ n <= hi1)
    by (unfold hi1; destruct (Z.ltb_spec hi n); auto with lia).
  cbn [In]. split_and!; [naive_solver|naive_solver|lia|lia|]. constructor; [lia|done].
Qed.

Lemma min_max_extremes n ns :
  let '(lo, hi) := min_max n n (n :: ns) in
  In lo (n :: ns) /\ In hi (n :: ns) /\ Forall (fun x => lo <= x <= hi) (n :: ns).
Proof.
  pose proof (min_max_spec (n :: ns) n n) as H. destruct (min_max n n (n :: ns)) as [lo hi].
  destruct H as ([->|?] & [->|?] & _ & _ & ?); split_and!; auto; by left.
Qed.

(** ** The checks as integer comparisons *)

Lemma of_int_zero_left b : 0 < b < 2 ^ 53 -> fdiv (of_int 0) (of_int b) = S754_zero false.
Proof. intros Hb. by destruct (of_int_exact b Hb) as (m & e & -> & _). Qed.

Definition fails (c : check) : bool := match c with Fails _ => true | Passes _ => false end.

Lemma memory_check_fails st :
  0 <= st_MemoryBytes st <= 2 ^ 50 -> 0 < st_MaxMemoryBytes st < 2 ^ 50 ->
  fails (memory_check st) = (95 * st_MaxMemoryBytes st <? 100 * st_MemoryBytes st).
Proof.
  intros Hm Hx. unfold memory_check. cbv zeta. destruct (Z.ltb_spec 0 (st_MaxMemoryBytes st)); [|lia].
  assert (E : fltb f095 (fdiv (of_int (st_MemoryBytes st)) (of_int (st_MaxMemoryBytes st))) =
    (95 * st_MaxMemoryBytes st <? 100 * st_MemoryBytes st)).
  { destruct (decide (st_MemoryBytes st = 0)) as [->|]; [|apply quotient_above_095; lia].
    rewrite of_int_zero_left by lia. destruct (Z.ltb_spec (95 * st_MaxMemoryBytes st) (100 * 0)); [lia|done]. }
  rewrite E. by destruct (_ <? _).
Qed.

Lemma ratio_above_4 a b : 0 < a <= 2 ^ 50 -> 0 < b < 2 ^ 50 ->
  fltb (of_int 4) (fdiv (of_int a) (of_int b)) = (4 * b <? a).
Proof.
  assert (E : of_int 4 = S754_finite false 4503599627370496 (-50)) by (vm_compute; reflexivity).
  apply (quotient_above 4 4503599627370496 (-50)); [unfold normal; lia|lia|done|reflexivity|lia].
Qed.

(** Some shard holds more than four times what some other holds, an empty one
    counting as one item. *)
Definition imbalanced (ns : list Z) : Prop := exists hi lo, In hi ns /\ In lo ns /\ 4 * Z.max 1 lo < hi.

Lemma balance_check_fails st :
  Forall (fun n => 0 <= n < 2 ^ 50) (st_ItemsPerShard st) -> st_ItemsPerShard st <> [] ->
  exists c, balance_check st = Some c /\
    (fails c = true <-> 100 <= st_Items st /\ imbalanced (st_ItemsPerShard st)).
Proof.
  intros Hns Hne. unfold balance_check. destruct (Z.leb_spec 100 (st_Items st)) as [Hi|Hi].
  2: { eexists. split; [done|]. split; [done|lia]. }
  destruct (st_ItemsPerShard st) as [|n ns]; [done|]. cbn [lookup list_lookup mbind option_bind].
  pose proof (min_max_extremes n ns) as Hext. destruct (min_max n n (n :: ns)) as [lo hi].
  destruct Hext as (Hlo & Hhi & Hall). eexists. split; [done|].
  rewrite Forall_forall in Hns, Hall. pose proof (Hns lo ltac:(by apply list_elem_of_In)) as Hlo'.
  pose proof (Hns hi ltac:(by apply list_elem_of_In)) as Hhi'.
  set (lo1 := if lo =? 0 then 1 else lo).
  assert (El : lo1 = Z.max 1 lo) by (unfold lo1; destruct (Z.eqb_spec lo 0); lia).
  assert (E : fltb (of_int 4) (fdiv (of_int hi) (of_int lo1)) = (4 * lo1 <? hi)).
  { destruct (decide (hi = 0)) as [->|]; [|apply ratio_above_4; lia].
    rewrite of_int_zero_left by lia. destruct (Z.ltb_spec (4 * lo1) 0); [lia|done]. }
  transitivity (4 * lo1 < hi).
  { rewrite E. destruct (Z.ltb_spec (4 * lo1) hi); cbn [fails]; split; done || lia. }
  rewrite El. split; [intros ?; split; [done|]; by exists hi, lo|].
  intros (_ & h & l & Hh & Hl & Hlt). apply list_elem_of_In in Hh, Hl.
  pose proof (Hall h Hh). pose proof (Hall l Hl). lia.
Qed.

(** ** The response *)

Lemma failures_nil cs : failures cs = [] <-> existsb fails cs = false.
Proof.
  induction cs as [|c cs IH]; [done|]. destruct c; cbn [failures omap list_omap existsb fails orb]; [done|apply IH].
Qed.

(** The status is 503 when a check fails, and then the body says so first. *)
Lemma doctor_report_status cs :
  let r := doctor_report cs in
  status r = (if existsb fails cs then 503 else 200) /\
  (existsb fails cs = true <-> take 5 (body r) = "FAIL ").
Proof.
  cbv zeta. unfold doctor_report. cbn [status body]. destruct (existsb fails cs) eqn:E.
  - rewrite bool_decide_eq_false_2 by (rewrite failures_nil; congruence). split; [done|].
    destruct (failures cs) as [|l ls] eqn:Ef; [|done]. apply failures_nil in Ef. congruence.
  - apply failures_nil in E. rewrite E. rewrite bool_decide_eq_true_2 by done. split; [done|]. split; [done|].
    cbn [map concat]. destruct (passes cs) as [|l ls]; done.
Qed.

(** ** Durations in whole seconds *)

Lemma Round_second d : 0 <= d -> d + second <= MaxInt64 ->
  Round second d = (d + 500000000) / second * second.
Proof.
  intros H0 H1. unfold Round, second, lessThanHalf, MaxInt64 in *.
  change (1000000000 <=? 0) with false. cbv iota zeta.
  destruct (Z.ltb_spec d 0); [lia|]. rewrite Z.rem_mod_nonneg by lia.
  pose proof (Z.div_mod d 1000000000 ltac:(lia)) as E. pose proof (Z.mod_pos_bound d 1000000000 ltac:(lia)) as Hr.
  set (r := d mod 1000000000) in *. set (q := d / 1000000000) in *.
  assert (Hq : 0 <= q) by (apply Z.div_pos; lia).
  rewrite !uint64_id by (rewrite ?uint64_id by (unfold MaxUint64; lia); unfold MaxUint64; lia).
  destruct (Z.ltb_spec (r + r) 1000000000).
  - rewrite int64_id by (unfold MaxInt64; lia).
    rewrite <- (Z.div_unique (d + 500000000) 1000000000 q (r + 500000000)) by lia. lia.
  - rewrite int64_id by (unfold MaxInt64; lia). destruct (Z.ltb_spec d (d + 1000000000 - r)); [|lia].
    rewrite <- (Z.div_unique (d + 500000000) 1000000000 (q + 1) (r - 500000000)) by lia. lia.
Qed.

Lemma fmtFrac_whole k : forall v acc, fmtFrac_loop k (v * 10 ^ Z.of_nat k) false acc = (acc, v).
Proof.
  induction k as [|k IH]; intros v acc; cbn [fmtFrac_loop].
  - change (10 ^ Z.of_nat 0) with 1. by rewrite Z.mul_1_r.
  - rewrite Nat2Z.inj_succ, Z.pow_succ_r by lia.
    replace (v * (10 * 10 ^ Z.of_nat k)) with (v * 10 ^ Z.of_nat k * 10) by lia.
    rewrite Z.mod_mul, Z.div_mul by lia. apply IH.
Qed.

Lemma format_loop_app f : forall n acc, format_loop f n acc = format_loop f n [] ++ acc.
Proof.
  induction f as [|f IH]; intros n acc; cbn [format_loop]; [done|].
  destruct (n <? 10); [done|]. rewrite IH, (IH _ [_]), <- app_assoc. done.
Qed.

Lemma fmtInt_app v acc : fmtInt v acc = FormatUint v ++ acc.
Proof. apply format_loop_app. Qed.

(** Hours, minutes and seconds, without leading zero groups. *)
Definition clock_groups (s : Z) : list (Z * bytes) :=
  if s <? 60 then [(s, "s")]
  else if s <? 3600 then [(s / 60, "m"); (s mod 60, "s")]
  else [(s / 3600, "h"); (s / 60 mod 60, "m"); (s mod 60, "s")].

Lemma duration_string_seconds s : 0 <= s -> s * second <= MaxInt64 ->
  duration_string (s * second) = concat (map group_text (clock_groups s)).
Proof.
  intros H0 H1. unfold duration_string, second, MaxInt64 in *. destruct (Z.ltb_spec (s * 1000000000) 0); [lia|].
  rewrite uint64_id by (unfold MaxUint64; lia).
  destruct (Z.ltb_spec (s * 1000000000) 1000000000).
  { assert (s = 0) as -> by lia. reflexivity. }
  unfold fmtFrac. rewrite (fmtFrac_whole 9 s).
  assert (Hm : s / 60 = 0 <-> s < 60) by (pose proof (Z.div_mod s 60); pose proof (Z.mod_pos_bound s 60); lia).
  assert (Hh : s / 60 / 60 = s / 3600) by (rewrite Z.div_div by lia; done).
  rewrite Hh. unfold clock_groups. destruct (Z.ltb_spec s 60).
  { rewrite (proj2 Hm) by done. change (0 <? 0) with false. cbv iota.
    rewrite Z.mod_small by lia. cbn [map concat]. rewrite app_nil_r. apply fmtInt_app. }
  destruct (Z.ltb_spec 0 (s / 60)); [|pose proof (Z.div_pos s 60); lia].
  pose proof (Z.div_mod s 3600 ltac:(lia)). pose proof (Z.mod_pos_bound s 3600 ltac:(lia)).
  destruct (Z.ltb_spec s 3600).
  - destruct (Z.ltb_spec 0 (s / 3600)); [lia|]. rewrite (Z.mod_small (s / 60) 60).
    + rewrite !fmtInt_app. unfold group_text. cbn [map concat fst snd]. by rewrite app_nil_r, <- !app_assoc.
    + split; [apply Z.div_pos; lia|apply Z.div_lt_upper_bound; lia].
  - destruct (Z.ltb_spec 0 (s / 3600)); [|lia].
    rewrite !fmtInt_app. unfold group_text. cbn [map concat fst snd]. by rewrite app_nil_r, <- !app_assoc.
Qed.

Lemma group_ns_clock n : group_ns (n, "s") = n * 1000000000 /\ group_ns (n, "m") = n * 60000000000 /\
  group_ns (n, "h") = n * 3600000000000.
Proof. split_and!; reflexivity. Qed.

Lemma clock_groups_ok s : 0 <= s -> s * second <= MaxInt64 ->
  Forall group_ok (clock_groups s) /\ groups_ns (clock_groups s) = s * second.
Proof.
  intros H0 H1. unfold second, MaxInt64 in *.
  pose proof (Z.div_mod s 60 ltac:(lia)). pose proof (Z.mod_pos_bound s 60 ltac:(lia)).
  pose proof (Z.div_mod (s / 60) 60 ltac:(lia)) as Em. pose proof (Z.mod_pos_bound (s / 60) 60 ltac:(lia)).
  rewrite Z.div_div in Em by lia. change (60 * 60) with 3600 in Em. pose proof (Z.div_pos s 3600 ltac:(lia) ltac:(lia)).
  assert (Hok : forall n u, 0 <= n <= s -> group_ns (n, u) <= s * 1000000000 -> u = "s" \/ u = "m" \/ u = "h" ->
    group_ok (n, u)).
  { intros n u Hn Hg Hu. split_and!; cbn [fst snd]; [lia|unfold MaxInt64; lia|unfold MaxInt64; lia|naive_solver]. }
  pose proof group_ns_clock as Hns.
  unfold clock_groups. destruct (Z.ltb_spec s 60); [|destruct (Z.ltb_spec s 3600)]; unfold groups_ns; cbn [foldr].
  - destruct (Hns s) as (E & _ & _). rewrite E. split; [|lia]. constructor; [|done]. apply Hok; auto; lia.
  - destruct (Hns (s / 60)) as (_ & E1 & _), (Hns (s mod 60)) as (E2 & _ & _). rewrite E1, E2.
    split; [|lia]. repeat (constructor; [apply Hok; auto; lia|]). done.
  - destruct (Hns (s / 3600)) as (_ & _ & E0), (Hns (s / 60 mod 60)) as (_ & E1 & _), (Hns (s mod 60)) as (E2 & _ & _).
    rewrite E0, E1, E2. split; [|lia]. repeat (constructor; [apply Hok; auto; lia|]). done.
Qed.

Lemma parse_seconds s : 0 <= s -> s * second <= MaxInt64 ->
  ParseDuration (duration_string (s * second)) = Some (s * second).
Proof.
  intros H0 H1. rewrite duration_string_seconds by done. destruct (clock_groups_ok s H0 H1) as [Hok E].
  rewrite ParseDuration_texts; [by rewrite E| |done|by rewrite E].
  unfold clock_groups. by destruct (s <? 60), (s <? 3600).
Qed.

(** ** Sampling a reachable server *)

Definition shards_budget (config : Store.Config) : Z :=
  Z.of_nat (num_shards config) * perShardMemory (normalizeConfig config).

(** The store at every interruption of a goroutine that starts at step [n]. *)
Definition store_snapshots (config : Store.Config) (es : list event) (env : environment) (n k : nat) : astore :=
  snapshots (limits_of config) (fun j => i_events (others env (n + j)%nat)) (abstract config es) k.

Lemma later_store L env v k :
  as_store (later L env k v) = snapshots L (fun j => i_events (others env (as_ticks v + j)%nat)) (as_store v) k /\
  as_ticks (later L env k v) = (as_ticks v + k)%nat.
Proof.
  induction k as [|k [E1 E2]]; [split; [done|by rewrite Nat.add_0_r]|].
  change (later L env (S k) v) with (spec_tick L env (later L env k v)). cbn [spec_tick spec_interfere as_store as_ticks snapshots].
  rewrite E1, E2. split; [done|lia].
Qed.

Lemma later_later L env m n v : later L env m (later L env n v) = later L env (m + n) v.
Proof. unfold later. by rewrite Nat.iter_add. Qed.

Section Sampled.
Context `{MapRange} (config : Store.Config) (Hok : config_ok config).
Context (env : environment) (Henv : env_ok (limits_of config) (num_shards config) env).
Context (es : list event) (rs : list reply) (x : shared) (Hr : store_reach config es rs (sv_store (on_server x))).

(** What each shard holds when the handler reads its totals: after the clock and
    sixteen counters, at the first of the three reads of the shard. *)
Definition handler_saw (i : nat) : entries :=
  c_entries (cache_at i (store_snapshots config es env (steps x) (17 + (3 * i + 1)))).

Lemma TakeStats_reach :
  exists st x', TakeStats env x = Done (st, x') /\
    ss_Uptime st = clock env (steps x) - startedAt (on_server x) /\
    let N := num_shards config in
    st_Items (ss_Store st) = sumZ (map (fun i => len (handler_saw i)) (seq 0 N)) /\
    st_ItemsPerShard (ss_Store st) = map (fun i => len (handler_saw i)) (seq 0 N) /\
    st_MemoryBytes (ss_Store st) = sumZ (map (fun i => total (handler_saw i)) (seq 0 N)) /\
    st_MaxMemoryBytes (ss_Store st) = shards_budget config /\
    0 <= st_MemoryBytes (ss_Store st) <= shards_budget config.
Proof.
  pose proof (limits_of_ok config Hok) as HL. pose proof (shard_budget config Hok) as [_ Hb].
  destruct (reach_abstract config Hok _ _ _ Hr) as [Hrel Hlen].
  set (v := AServer (abstract config es) (counts (on_server x)) (connectionsActive (on_server x)) (steps x)).
  assert (Hx : shares (limits_of config) (num_shards config) (authToken (on_server x)) (startedAt (on_server x)) x v)
    by (by split).
  destruct (wp_Done _ _ _ (TakeStats_ok _ HL (num_shards config) env Henv _ _ ltac:(cbn; lia) x v Hx))
    as (st & x' & E & -> & _).
  eexists _, x'. split; [exact E|]. split; [done|]. cbn [spec_server_stats ss_Store]. change (as_store v) with (abstract config es).
  rewrite Hlen. unfold spec_stats, spec_stats_upto. cbn [st_Items st_ItemsPerShard st_MemoryBytes st_MaxMemoryBytes].
  assert (Hseen : forall i, seen (fun k => as_store (later (limits_of config) env k (later (limits_of config) env 17 v))) i =
    handler_saw i).
  { intros i. unfold seen, handler_saw, store_snapshots. rewrite later_later, (proj1 (later_store _ _ _ _)).
    cbn [v as_store as_ticks]. by rewrite (Nat.add_comm (3 * i + 1) 17). }
  repeat rewrite (map_ext _ _ (fun i => f_equal len (Hseen i))).
  rewrite (map_ext _ _ (fun i => f_equal total (Hseen i))). split_and!; try done.
  all: destruct (reach_rel config Hok _ _ _ Hr) as (_ & _ & Ha).
  all: apply (sum_seq_bounds (fun i => total (handler_saw i)) (l_maxMemory (limits_of config)) (num_shards config)).
  all: intros i _; apply awf_total; [apply HL|]; apply snapshots_awf; [apply HL|exact Ha].
Qed.
End Sampled.

(** ** Theorems *)

(** C14: [/doctor] judges exactly.  On every store that requests and sweeps can
    build, whatever other goroutines do to the server while the handler samples
    it, with a budget below 2^50 bytes and fewer than 2^50 items seen, the handler
    answers without a panic; it answers 503 when the items it saw in the shards
    take more than 95 percent of the shards' budgets, or when there are at least
    100 of them and one shard held more than four times another (an empty one
    counting as one), and 200 otherwise.  No floating-point rounding moves
    either threshold, and the body starts with FAIL exactly when the status is
    503.  If no request or sweep came in between, what it saw is what is
    resident. *)
Theorem doctor_verdict `{MapRange} (config : Store.Config) env es rs (x : shared) :
  config_ok config -> env_ok (limits_of config) (num_shards config) env ->
  store_reach config es rs (sv_store (on_server x)) ->
  let saw := map (handler_saw config env es x) (seq 0 (num_shards config)) in
  let used := sumZ (map total saw) in
  let counts := map len saw in
  let budget := shards_budget config in
  budget < 2 ^ 50 -> sumZ counts < 2 ^ 50 ->
  (exists r x', doctorHandler env x = Done (r, x') /\ (status r = 200 \/ status r = 503) /\
    (status r = 503 <-> 95 * budget < 100 * used \/ 100 <= sumZ counts /\ imbalanced counts) /\
    (status r = 503 <-> take 5 (body r) = "FAIL ")) /\
  ((forall k, i_events (others env k) = []) -> saw = resident (sv_store (on_server x))).
Proof.
  intros Hok Henv Hr saw used counts budget Hb Hi. split.
  - destruct (TakeStats_reach config Hok env Henv es rs x Hr) as (st & x' & E & _ & Ei & Ep & Em & Ex & Hu).
    rewrite <- (map_map (handler_saw config env es x)) in Ei, Ep, Em. fold saw in Ei, Ep, Em.
    fold used in Em. fold counts in Ei, Ep. fold budget in Ex, Hu.
    pose proof (normalize_bounds config) as (_ & _ & _ & H4). pose proof (shard_budget config Hok) as [H0 _].
    assert (Hn : (0 < num_shards config)%nat) by (unfold num_shards; lia).
    assert (Hb0 : 0 < budget) by (unfold budget, shards_budget; nia).
    destruct (balance_check_fails (ss_Store st)) as (c & Ec & Hf).
    { rewrite Ep. eapply Forall_impl; [apply (sumZ_bounds_elem counts)|].
      - apply Forall_map, Forall_forall. intros. apply len_nonneg.
      - simpl. lia. }
    { rewrite Ep. intros Hnil. apply (f_equal length) in Hnil. unfold counts, saw in Hnil.
      rewrite !length_map, length_seq in Hnil. cbn in Hnil. lia. }
    rewrite Ei, Ep in Hf. pose proof (memory_check_fails (ss_Store st)) as Hm. rewrite Em, Ex in Hm.
    rewrite Em in Hu. specialize (Hm ltac:(lia) ltac:(lia)).
    exists (doctor_report [memory_check (ss_Store st); c; uptime_check (ss_Uptime st)]), x'. split.
    { unfold doctorHandler, mbind, M_bind. rewrite E. unfold doctor_checks. by rewrite Ec. }
    destruct (doctor_report_status [memory_check (ss_Store st); c; uptime_check (ss_Uptime st)]) as [-> Ht].
    cbn [existsb fails] in *. rewrite Hm in *.
    destruct (Z.ltb_spec (95 * budget) (100 * used)), (fails c); cbn [orb] in *; split_and!; naive_solver lia.
  - intros Hq. unfold saw. rewrite <- (map_id (resident _)), (resident_at config Hok (fun es => es) _ _ _ Hr).
    apply map_ext. intros i. unfold handler_saw, store_snapshots. do 2 f_equal. by apply snapshots_still.
Qed.

Definition demo_server : Server := NewServer demo_store "" 0.

(** Another client deletes a key while the handler samples the counters. *)
Definition demo_doctor_env : environment :=
  Env (fun _ => 3723499999999)
    (fun n => Interference (if bool_decide (n = 5%nat) then [EvOp (OpDelete "y") 30] else []) [] 0).

Lemma demo_doctor_env_ok : env_ok (limits_of demo_config) (num_shards demo_config) demo_doctor_env.
Proof. intros n. cbn. case_bool_decide; repeat constructor; eauto. Qed.

Lemma doctor_verdict_witness :
  exists r x', doctorHandler demo_doctor_env (Shared demo_server 0) = Done (r, x') /\ status r = 200 /\
  body r = "OK   memory_pressure: ok (12% of budget)" ++ newline ++
    "OK   shard_balance: ok (only 1 items, ratio not meaningful)" ++ newline ++
    "OK   uptime: 1h2m3s" ++ newline.
Proof.
  destruct (doctor_verdict demo_config demo_doctor_env demo_events demo_replies (Shared demo_server 0)
    demo_config_ok demo_doctor_env_ok demo_store_reach) as [(r & x' & Hr & _ & Hs & _) _]; [vm_compute; reflexivity..|].
  exists r, x'. split; [exact Hr|]. vm_compute in Hr. injection Hr as <- _. split; reflexivity.
Defined.

Lemma bind_Done {S A B} (m : M S A) (k : A -> M S B) s b s2 :
  (m ≫= k) s = Done (b, s2) -> exists a s1, m s = Done (a, s1) /\ k a s1 = Done (b, s2).
Proof. unfold mbind, M_bind. destruct (m s) as [[a s1]| |]; [eauto|done..]. Qed.

(** Whenever [Stats] returns, its uptime is that of the clock it read. *)
Lemma TakeStats_uptime `{MapRange} env x st x' : TakeStats env x = Done (st, x') ->
  ss_Uptime st = clock env (steps x) - startedAt (on_server x).
Proof.
  unfold TakeStats. intros (started & x0 & [= <- <-] & E)%bind_Done.
  apply bind_Done in E as (now & x1 & Hc & E). unfold read_clock in Hc.
  apply bind_Done in Hc as (n & x2 & [= <- <-] & Hc). apply bind_Done in Hc as ([] & x3 & _ & [= <- _]).
  do 17 (apply bind_Done in E as (? & ? & _ & E)). by injection E as <- _.
Qed.

(** C33: The last line of [/doctor] is the uptime to the nearest second: the
    text after "uptime: " is a duration that Go's own parser, the one the
    configuration uses, reads back as a whole number of seconds at most half a
    second away from the time since the server was created, by the clock the
    handler read first. *)
Theorem uptime_line `{MapRange} env (x : shared) r x' :
  let uptime := clock env (steps x) - startedAt (on_server x) in
  0 <= uptime -> uptime + second <= MaxInt64 -> doctorHandler env x = Done (r, x') ->
  exists pre text d, body r = pre ++ "OK   uptime: " ++ text ++ newline /\
    ParseDuration text = Some d /\ d mod second = 0 /\ 2 * Z.abs (d - uptime) <= second.
Proof.
  intros uptime H0 H1 Hr. unfold doctorHandler in Hr.
  apply bind_Done in Hr as (st & x1 & Hst & Hr). apply bind_Done in Hr as (cs & x2 & Hcs & [= <- _]).
  apply TakeStats_uptime in Hst. fold uptime in Hst. unfold doctor_checks in Hcs. rewrite Hst in Hcs.
  destruct (balance_check (ss_Store st)) as [c|]; [|done]. cbn [mbind option_bind must] in Hcs. injection Hcs as <- _.
  unfold doctor_report. cbn [body]. set (m := memory_check _).
  assert (Ep : exists ls, passes [m; c; uptime_check uptime] =
    ls ++ ["uptime: " ++ duration_string (Round second uptime)]).
  { destruct m, c; [exists []|eexists [_]|eexists [_]|eexists [_; _]]; reflexivity. }
  destruct Ep as (ls & ->). rewrite map_app, concat_app. cbn [map concat]. rewrite app_nil_r.
  exists (concat (map (fun line => "FAIL " ++ line ++ newline) (failures [m; c; uptime_check uptime])) ++
    concat (map (fun line => "OK   " ++ line ++ newline) ls)), (duration_string (Round second uptime)).
  rewrite Round_second by done. set (q := (uptime + 500000000) / second).
  pose proof (Z.div_mod (uptime + 500000000) second ltac:(done)) as E.
  pose proof (Z.mod_pos_bound (uptime + 500000000) second ltac:(done)) as Hm. fold q in E.
  assert (0 <= q) by (apply Z.div_pos; unfold second; lia). unfold second in *.
  exists (q * 1000000000). split_and!.
  - by rewrite <- !app_assoc.
  - apply parse_seconds; unfold second; lia.
  - apply Z.mod_mul. lia.
  - lia.
Qed.

Lemma uptime_line_witness : exists r x' pre text d,
  doctorHandler demo_doctor_env (Shared demo_server 0) = Done (r, x') /\
  body r = pre ++ "OK   uptime: " ++ text ++ newline /\ ParseDuration text = Some d /\ d mod second = 0.
Proof.
  destruct (doctorHandler demo_doctor_env (Shared demo_server 0)) as [[r x']| |] eqn:E;
    [|vm_compute in E; discriminate E..].
  destruct (uptime_line demo_doctor_env (Shared demo_server 0) r x') as (pre & text & d & H1 & H2 & H3 & _);
    [vm_compute; congruence..|exact E|]. exists r, x', pre, text, d.
  split; [reflexivity|]. split; [exact H1|]. split; [exact H2|exact H3].
Defined.

(** Where the two endpoints are served, and what else is. *)
Example mux_examples :
  map mux ["/healthz"; "/doctor"; "/debug/pprof/"; "/debug/pprof/heap"; "/debug/pprof/trace"; "/"; "/healthz/x"] =
  [Some Healthz; Some Doctor; Some PprofIndex; Some PprofIndex; Some PprofTrace; None; None].
Proof. vm_compute. reflexivity. Qed.
