(* ===== verification/Client.v ===== *)
(** * The benchmark's clients and workload ([src/internal/benchmark])

    [clients.go]: what each client writes for a request and how it reads the
    reply, for MiniKV, memcached and Redis.  [runner.go]: how the keys of a run
    are divided among the workers and named. *)

From S2P Require Import Prelude Strconv Shard GoStrings Bufio Protocol Config.

(** ** Reading replies *)

(** Why a client call fails; [nil] is success. *)
Inductive client_error :=
| Unprepared                    (* the context is done, or no deadline could be set *)
| WriteFailed
| ReadFailed (e : read_error)
| NoCRLF                        (* a line or value does not end with CRLF *)
| ShortValue                    (* io.ReadFull *)
| Unexpected (line : bytes).    (* a reply the client does not understand *)

(** The line without its CRLF. *)
Definition strip_crlf (l : bytes) : option bytes :=
  match rev l with
  | n :: r :: l' =>
      if decide (n = "010"%char /\ r = "013"%char) then Some (rev l') else None
  | _ => None
  end.

Definition readCRLFLine : M reader (bytes + client_error) :=
  r ← ReadString "010"%char;
  mret (match r with
        | inr e => inr (ReadFailed e)
        | inl l => match strip_crlf l with Some l' => inl l' | None => inr NoCRLF end
        end).

Definition readSizedValue (size : Z) : M reader (bytes + client_error) :=
  r ← make_read (int64 (size + 2));
  mret (match r with
        | None => inr ShortValue
        | Some value =>
            if bool_decide (value !! Z.to_nat size = Some "013"%char) &&
               bool_decide (value !! Z.to_nat (size + 1) = Some "010"%char)
            then inl (take (Z.to_nat size) value)
            else inr NoCRLF
        end).

(** [strconv.Atoi], and a negative size is rejected too. *)
Definition parse_size (t : bytes) : option Z :=
  match Atoi t with inl n => if n <? 0 then None else Some n | inr _ => None end.

(** The value and the [END] line that follow an accepted header. *)
Definition read_get_body (size : Z) : M reader (option bytes + client_error) :=
  v ← readSizedValue size;
  match v with
  | inr err => mret (inr err)
  | inl value =>
      e ← readCRLFLine;
      mret (match e with
            | inr err => inr err
            | inl last_line => if bool_decide (last_line = "END") then inl (Some value)
                          else inr (Unexpected last_line)
            end)
  end.

(** [readMiniKVGet] and [readMemcachedGet] differ in the number of header
    fields and in which one is the size. *)
Definition read_get (size_token : list bytes -> option bytes) (key : bytes)
    : M reader (option bytes + client_error) :=
  l ← readCRLFLine;
  match l with
  | inr err => mret (inr err)
  | inl line =>
      if bool_decide (line = "END") then mret (inl None)
      else
        match Fields line with
        | "VALUE" :: k :: more =>
            match (if bool_decide (k = key) then size_token more else None) with
            | None => mret (inr (Unexpected line))
            | Some t =>
                match parse_size t with
                | None => mret (inr (Unexpected t))
                | Some size => read_get_body size
                end
            end
        | _ => mret (inr (Unexpected line))
        end
  end.

Definition readMiniKVGet : bytes -> M reader (option bytes + client_error) :=
  read_get (fun more => match more with [t] => Some t | _ => None end).

Definition readMemcachedGet : bytes -> M reader (option bytes + client_error) :=
  read_get (fun more => match more with [_; t] => Some t | _ => None end).

Definition readRedisBulkString : M reader (option bytes + client_error) :=
  l ← readCRLFLine;
  match l with
  | inr err => mret (inr err)
  | inl line =>
      if bool_decide (list.head line = Some "-"%char) then mret (inr (Unexpected line))
      else if bool_decide (line = "$-1") then mret (inl None)
      else
        match line with
        | "$"%char :: t =>
            match parse_size t with
            | None => mret (inr (Unexpected line))
            | Some size =>
                v ← readSizedValue size;
                mret (match v with inr err => inr err | inl value => inl (Some value) end)
            end
        | _ => mret (inr (Unexpected line))
        end
  end.

(** The reply line of a write: [want] is success. *)
Definition read_ack (want : bytes) : M reader (option client_error) :=
  l ← readCRLFLine;
  mret (match l with
        | inr err => Some err
        | inl line => if bool_decide (line = want) then None else Some (Unexpected line)
        end).

(** ** Clients

    One connection: what the service sends back and what was written to it.
    The context and the deadline belong to the run-time system: [prepared] is
    what [prepare] returned. *)

Record textClient := TextClient { c_reader : reader; c_writer : writer }.

(** [prepare]; [ctx_done] is whether the context has an error, [set_deadline]
    whether the connection takes a deadline. *)
Definition prepare (timeout : Z) (ctx_done set_deadline : bool) : option client_error :=
  if ctx_done then Some Unprepared
  else if timeout =? 0 then None
  else if set_deadline then None else Some Unprepared.

(** [dialTextClient] on what the dialer returned: the bytes the peer will send,
    and how many it takes before writing fails. *)
Definition dialTextClient (conn : option (reader * option nat)) : option textClient :=
  '(r, limit) ← conn; Some (TextClient r (new_writer limit)).

Definition on_reply {A} (m : M reader A) : M textClient A :=
  zoom c_reader (fun r c => TextClient r (c_writer c)) m.
Definition on_request {A} (m : M writer A) : M textClient A :=
  zoom c_writer (fun w c => TextClient (c_reader c) w) m.

Definition send_part (m : M writer bool) : M textClient (option client_error) :=
  ok ← on_request m; mret (if (ok : bool) then None else Some WriteFailed).

(** Write the parts of a request one after the other; the first error ends it. *)
Fixpoint send_parts (parts : list bytes) : M textClient (option client_error) :=
  match parts with
  | [] => send_part Flush
  | p :: parts' =>
      r ← send_part (Write p);
      match r with Some e => mret (Some e) | None => send_parts parts' end
  end.

(** A request and then its reply. *)
Definition request {A} (prepared : option client_error) (parts : list bytes)
    (reply : M reader A) (failure : client_error -> A) : M textClient A :=
  match prepared with
  | Some e => mret (failure e)
  | None =>
      r ← send_parts parts;
      match r with Some e => mret (failure e) | None => on_reply reply end
  end.

Definition resp_bulk (part : bytes) : bytes := "$" ++ FormatInt (len part) ++ CRLF ++ part ++ CRLF.
Definition writeRESPArray (parts : list bytes) : list bytes :=
  ("*" ++ FormatInt (len parts) ++ CRLF) :: map resp_bulk parts.

(** The [Client] interface and its three implementations. *)
Record Client := MkClient {
  Name : bytes;
  ClientSet : option client_error -> bytes -> bytes -> M textClient (option client_error);
  ClientGet : option client_error -> bytes -> M textClient (option bytes + client_error)
}.

Definition miniKVClient : Client := MkClient "minikv"
  (fun prepared key value =>
     request prepared ["set " ++ key ++ " " ++ FormatInt (len value) ++ CRLF; value; CRLF]
       (read_ack "STORED") Some)
  (fun prepared key => request prepared ["get " ++ key ++ CRLF] (readMiniKVGet key) inr).

Definition redisClient : Client := MkClient "redis"
  (fun prepared key value =>
     request prepared (writeRESPArray ["SET"; key; value]) (read_ack "+OK") Some)
  (fun prepared key => request prepared (writeRESPArray ["GET"; key]) readRedisBulkString inr).

Definition memcachedClient : Client := MkClient "memcached"
  (fun prepared key value =>
     request prepared ["set " ++ key ++ " 0 0 " ++ FormatInt (len value) ++ CRLF; value; CRLF]
       (read_ack "STORED") Some)
  (fun prepared key => request prepared ["get " ++ key ++ CRLF] (readMemcachedGet key) inr).

(** ** The workload *)

(** The half-open range of keys of one worker. *)
Definition workerSlice (total concurrency worker : Z) : Z * Z :=
  let base := Z.quot total concurrency in
  let extra := Z.rem total concurrency in
  let start := worker * base + Z.min worker extra in
  let width := if worker <? extra then base + 1 else base in
  (start, start + width).

(** The keys [for i := start; i < end; i++] visits. *)
Definition range (s : Z * Z) : list Z := map Z.of_nat (seq (Z.to_nat s.1) (Z.to_nat (s.2 - s.1))).

Definition workloadKey (prefix : bytes) (run index : Z) : bytes :=
  prefix ++ ":" ++ FormatInt run ++ ":" ++ FormatInt index.

(** ** Lemmas *)

Lemma strip_crlf_ok l : strip_crlf (l ++ CRLF) = Some l.
Proof. unfold strip_crlf, CRLF. rewrite rev_app_distr. simpl. by rewrite rev_involutive. Qed.

(** A CRLF line without a newline inside is read back. *)
Lemma readCRLFLine_ok l rest e :
  "010"%char ∉ l -> readCRLFLine (Reader (l ++ CRLF ++ rest) e) = Done (inl l, Reader rest e).
Proof.
  intros Hn. unfold readCRLFLine, mbind, M_bind.
  replace (l ++ CRLF ++ rest) with ((l ++ ["013"%char]) ++ ["010"%char] ++ rest) by (by rewrite <- app_assoc).
  rewrite ReadString_line.
  - rewrite <- app_assoc. change (["013"%char] ++ ["010"%char]) with CRLF. by rewrite strip_crlf_ok.
  - rewrite not_elem_of_app. split; [done|]. intros ?%list_elem_of_singleton. discriminate.
Qed.

Lemma readSizedValue_ok v rest e :
  value_wf v = true -> readSizedValue (len v) (Reader (v ++ CRLF ++ rest) e) = Done (inl v, Reader rest e).
Proof.
  intros Hv. pose proof (read_value_ok v (fun v => cmd_set [] v 0) rest e Hv) as Hr.
  unfold readSizedValue, read_value, mbind, M_bind, fail, mret, M_ret in *.
  destruct (make_read _ _) as [[[value|] r]| |]; simpl in *; try discriminate Hr.
  destruct (_ && _); [|discriminate Hr]. by injection Hr as -> ->.
Qed.

Lemma FormatInt_nonneg n : 0 <= n -> FormatInt n = FormatUint n.
Proof. intros Hn. unfold FormatInt. destruct (Z.ltb_spec n 0); [lia|done]. Qed.

Lemma parse_size_ok v : value_wf v = true -> parse_size (FormatInt (len v)) = Some (len v).
Proof.
  intros Hv. destruct (value_size v Hv) as [Hr _]. unfold parse_size.
  rewrite FormatInt_nonneg, Atoi_FormatUint by lia. destruct (Z.ltb_spec (len v) 0); [lia|done].
Qed.

Lemma read_get_body_ok v rest e :
  value_wf v = true ->
  read_get_body (len v) (Reader (v ++ CRLF ++ "END" ++ CRLF ++ rest) e) = Done (inl (Some v), Reader rest e).
Proof.
  intros Hv. unfold read_get_body, mbind, M_bind. rewrite readSizedValue_ok by done.
  rewrite readCRLFLine_ok; [done|]. vm_compute. intros H. repeat (apply elem_of_cons in H as [H|H]; [discriminate|]).
  by apply elem_of_nil in H.
Qed.

Lemma send_part_ok p c : healthy (c_writer c) ->
  wp (send_part (Write p)) c (fun r c' => r = None /\ healthy (c_writer c') /\ c_reader c' = c_reader c /\
    stream (c_writer c') = stream (c_writer c) ++ p).
Proof.
  intros Hw. destruct (Write_healthy p _ Hw) as (w' & E & H1 & H2). unfold send_part, on_request. wp_steps.
  eapply Done_wp; [exact E|]. by wp_steps.
Qed.

(** On a healthy connection a request is delivered whole, then its reply is read. *)
Lemma send_parts_ok parts : forall c, healthy (c_writer c) ->
  wp (send_parts parts) c (fun r c' => r = None /\ healthy (c_writer c') /\ c_reader c' = c_reader c /\
    sent (c_writer c') = stream (c_writer c) ++ concat parts /\ buffered (c_writer c') = []).
Proof.
  induction parts as [|p parts IH]; intros c Hw; cbn [send_parts concat].
  - unfold send_part, on_request. wp_steps. eapply Done_wp; [by apply Flush_healthy|]. wp_steps.
    by rewrite app_nil_r.
  - wp_steps. wp_use (send_part_ok p c Hw). intros r c1 (-> & H1 & R1 & S1). cbn beta iota.
    wp_use (IH c1 H1). intros r c2 (-> & H2 & R2 & S2 & B2). rewrite S2, S1, R2, <- app_assoc. done.
Qed.

Lemma request_ok {A} parts (reply : M reader A) failure c a rd :
  healthy (c_writer c) -> reply (c_reader c) = Done (a, rd) ->
  wp (request None parts reply failure) c (fun r c' => r = a /\ healthy (c_writer c') /\
    c_reader c' = rd /\ sent (c_writer c') = stream (c_writer c) ++ concat parts /\
    buffered (c_writer c') = []).
Proof.
  intros Hw Hr. unfold request. wp_steps. wp_use (send_parts_ok parts c Hw).
  intros r c1 (-> & H1 & R1 & S1 & B1). unfold on_reply. cbn beta iota. wp_steps. rewrite R1.
  by eapply Done_wp.
Qed.
