(* ===== verification/ClientProps.v ===== *)
(** * Clients against the server, and the workload

    The benchmark's MiniKV client and the server agree on the protocol: what
    the client writes, the server reads, and the other way round.  The keys of
    a run are divided among the workers without gaps or overlaps. *)

From S2P Require Import Prelude Strconv Shard ShardSpec ShardRefine Store StoreSpec StoreProps.
From S2P Require Import GoStrings Bufio Protocol Server ServerSpec ServerProps SessionProps Config Client.

(** ** Requests *)

(** What the MiniKV client writes for a call, as one byte string. *)
Definition set_request (key value : bytes) : bytes :=
  "set " ++ key ++ " " ++ FormatInt (len value) ++ CRLF ++ value ++ CRLF.
Definition get_request (key : bytes) : bytes := "get " ++ key ++ CRLF.

Lemma get_request_wire key : key_wf key = true -> reads_as (get_request key) (cmd_key Cmd.OpGet key).
Proof.
  intros Hk. assert (Hwf : command_wf (cmd_key Cmd.OpGet key) = true).
  { unfold command_wf. simpl. by rewrite bool_decide_eq_true_2. }
  split; [done|]. intros rest.
  replace (get_request key) with (encode (cmd_key Cmd.OpGet key)).
  - apply ReadCommand_encode; [done|]. apply andb_prop in Hk as [[Hlen _]%validKey_spec _].
    unfold line_fits. apply Z.leb_le. unfold MaxKeyBytes in Hlen. unfold words. cbn [cmd_Op cmd_Key cmd_key join].
    rewrite !len_app. change (Z.of_nat bufSize) with 4096. change (len "get") with 3. change (len " ") with 1. lia.
  - unfold get_request, encode, payload. cbn. by rewrite ?app_nil_r.
Qed.

(** The client's [set] has no TTL field; the server reads the same command. *)
Lemma set_request_wire key v :
  key_wf key = true -> value_wf v = true -> reads_as (set_request key v) (cmd_set key v 0).
Proof.
  intros Hkey Hv. pose proof Hkey as [Hk Ht]%andb_prop. destruct (value_size v Hv) as [Hr Hu].
  split.
  { unfold command_wf. simpl. by rewrite bool_decide_eq_true_2, Hkey, Hv. }
  intros rest. assert (Heq : set_request key v ++ rest =
    join ["set"; key; FormatUint (len v)] ++ CRLF ++ (v ++ CRLF ++ rest)).
  { unfold set_request. rewrite FormatInt_nonneg by lia. cbn [join]. rewrite <- !app_assoc. done. }
  rewrite Heq, ReadCommand_line.
  - known_word. unfold read_set. rewrite Hk. cbn [negb]. rewrite parseByteCount_FormatUint by done.
    by apply read_value_ok.
  - cbn [forallb]. by rewrite Ht, (FormatUint_token _ Hu).
  - apply validKey_spec in Hk as [Hlen _]. unfold MaxKeyBytes in Hlen.
    assert (Hf : len (FormatUint (len v)) <= 20).
    { unfold is_uint64 in Hu. destruct (between_spec 0 MaxUint64 (len v)) as [Hb|]; [|done].
      destruct (FormatUint_spec _ Hb) as (_ & _ & _ & ?). unfold len at 1. lia. }
    cbn [join]. rewrite !len_app.
    change (len "set") with 3. change (len " ") with 1. change (Z.of_nat bufSize) with 4096. lia.
Qed.

(** ** Replies *)

Lemma readMiniKVGet_hit key it rest e :
  token key = true -> value_wf (Value it) = true ->
  readMiniKVGet key (Reader (item_block value_header key it ++ line "END" ++ rest) e) =
  Done (inl (Some (Value it)), Reader rest e).
Proof.
  intros Ht Hv. destruct (value_size _ Hv) as [Hr Hu].
  assert (Htok : forallb token ["VALUE"; key; FormatUint (len (Value it))] = true).
  { cbn [forallb]. by rewrite Ht, (FormatUint_token _ Hu). }
  assert (Hh : value_header key it = join ["VALUE"; key; FormatUint (len (Value it))]).
  { unfold value_header. rewrite FormatInt_nonneg by lia. done. }
  unfold item_block, line. rewrite <- !app_assoc. unfold readMiniKVGet, read_get, mbind, M_bind.
  rewrite Hh, readCRLFLine_ok by (by apply join_no_newline).
  rewrite bool_decide_eq_false_2 by done. rewrite Fields_join by done.
  rewrite bool_decide_eq_true_2 by done. rewrite <- (FormatInt_nonneg (len (Value it))) by lia.
  rewrite parse_size_ok by done. by apply read_get_body_ok.
Qed.

Lemma readMiniKVGet_miss key rest e :
  readMiniKVGet key (Reader (line "END" ++ rest) e) = Done (inl None, Reader rest e).
Proof.
  unfold readMiniKVGet, read_get, line, mbind, M_bind. rewrite <- app_assoc, readCRLFLine_ok; [done|].
  vm_compute. intros H. repeat (apply elem_of_cons in H as [H|H]; [discriminate|]). by apply elem_of_nil in H.
Qed.

Lemma read_ack_line want l rest e :
  "010"%char ∉ l -> read_ack want (Reader (line l ++ rest) e) =
    Done (if bool_decide (l = want) then None else Some (Unexpected l), Reader rest e).
Proof.
  intros Hn. unfold read_ack, line, mbind, M_bind. rewrite <- app_assoc, readCRLFLine_ok by done.
  by destruct (bool_decide (l = want)).
Qed.

(** ** Calls

    A sequence of calls of the MiniKV client on one connection. *)

Inductive call := CallSet (key value : bytes) | CallGet (key : bytes).
Inductive answer := ASet (r : option client_error) | AGet (r : option bytes + client_error).

Definition call_wf (c : call) : bool :=
  match c with CallSet k v => key_wf k && value_wf v | CallGet k => key_wf k end.

Definition make_call (c : call) : M textClient answer :=
  match c with
  | CallSet k v => r ← ClientSet miniKVClient None k v; mret (ASet r)
  | CallGet k => r ← ClientGet miniKVClient None k; mret (AGet r)
  end.

Fixpoint make_calls (cs : list call) : M textClient (list answer) :=
  match cs with
  | [] => mret []
  | c :: cs' => a ← make_call c; r ← make_calls cs'; mret (a :: r)
  end.

Definition call_request (c : call) : bytes :=
  match c with CallSet k v => set_request k v | CallGet k => get_request k end.
Definition call_command (c : call) : Command :=
  match c with CallSet k v => cmd_set k v 0 | CallGet k => cmd_key Cmd.OpGet k end.

(** What the abstract store answers to a call. *)
Definition call_op (c : call) : op :=
  match c with CallSet k v => OpSet k v 0 | CallGet k => OpGet k end.

Definition spec_answer (r : reply) : answer :=
  match r with
  | RError e =>
      ASet (match e with
            | None => None
            | Some _ => match set_reply e with Some l => Some (Unexpected l) | None => None end
            end)
  | RItem it => AGet (inl (it' ← it; Some (Value it')))
  | _ => ASet None
  end.

(** One call against the abstract server: its answer and what it leaves. *)
Definition spec_call (L : limits) (env : environment) (c : call) (v : aserver) : reply * aserver :=
  spec_op L env (call_op c) (count (op_counter (cmd_Op (call_command c))) v).

Fixpoint spec_calls (L : limits) (env : environment) (cs : list call) (v : aserver) : list answer * aserver :=
  match cs with
  | [] => ([], v)
  | c :: cs' =>
      let '(r, v') := spec_call L env c v in
      let '(rs, v'') := spec_calls L env cs' v' in
      (spec_answer r :: rs, v'')
  end.

Section Calls.
Context `{MapRange} (L : limits) (HL : int_limits L) (env : environment) (t0 : Z).
Context (Hvalue : l_maxValue L + 2 <= maxAlloc).

Lemma spec_op_awf o v : awf L (as_store v) -> awf L (as_store (snd (spec_op L env o v))) /\
  exists now a, awf L a /\ fst (spec_op L env o v) = fst (spec_event L (EvOp o now) a).
Proof.
  intros Ha. unfold spec_op. set (now := clock env (as_ticks v)).
  assert (Ht : awf L (as_store (spec_tick L env v))) by (apply spec_events_awf; [apply HL|done]).
  pose proof (spec_event_awf L (proj1 HL) (EvOp o now) _ Ht) as He.
  split; [|exists now, (as_store (spec_tick L env v)); split; [done|]]; by destruct (spec_event L (EvOp o now) _).
Qed.

Lemma get_reply k v : awf L (as_store v) ->
  exists o, fst (spec_op L env (OpGet k) v) = RItem o /\
    forall it, o = Some it -> value_wf (Value it) = true.
Proof.
  intros Ha. destruct (spec_op_awf (OpGet k) v Ha) as (_ & now & a & [HF H0] & ->).
  unfold spec_event, shard_step. simpl.
  destruct (lookup_lt_is_Some_2 (a_caches a) (index k (length (a_caches a)))) as [c Hc]; [by apply index_lt|].
  rewrite Hc. simpl. destruct (find_key k (c_entries c)) as [e|] eqn:He; [|by exists None].
  destruct (expired e now); simpl; eexists; split; try done. intros it [= <-]. simpl.
  apply Z.leb_le. rewrite Forall_lookup in HF. pose proof (wf_entries _ _ (HF _ _ Hc)) as Hwf.
  apply find_key_Some in He as (l1 & l2 & E & _). rewrite E in Hwf.
  apply Forall_app in Hwf as [_ [[_ Hlen] _]%Forall_cons]. lia.
Qed.

Lemma set_reply_line k x v : awf L (as_store v) ->
  exists e l, fst (spec_op L env (OpSet k x 0) v) = RError e /\ set_reply e = Some l /\
    ("010"%char ∉ l) /\ ASet (if bool_decide (l = "STORED") then None else Some (Unexpected l)) = spec_answer (RError e).
Proof.
  intros Ha. destruct (spec_op_awf (OpSet k x 0) v Ha) as (_ & now & a & [HF H0] & ->).
  unfold spec_event, shard_step. simpl.
  destruct (lookup_lt_is_Some_2 (a_caches a) (index k (length (a_caches a)))) as [c Hc]; [by apply index_lt|].
  rewrite Hc. simpl.
  repeat (case_match; simplify_eq/=); eexists _, _; (split; [reflexivity|]); (split; [reflexivity|]);
    (split; [apply (bool_decide_unpack _); vm_compute; done|done]).
Qed.

(** One call: the text the server specifies for it is what the client reads. *)
Lemma call_ok c v cl rest :
  awf L (as_store v) -> call_wf c = true -> healthy (c_writer cl) ->
  let '(r, v') := spec_call L env c v in
  exists txt, spec_turn L env [] t0 true (call_command c) v = (txt, true, v') /\
    (c_reader cl = Reader (txt ++ rest) EOF ->
     wp (make_call c) cl (fun r' cl' => r' = spec_answer r /\ healthy (c_writer cl') /\
       c_reader cl' = Reader rest EOF /\ sent (c_writer cl') = stream (c_writer cl) ++ call_request c /\
       buffered (c_writer cl') = [])).
Proof.
  intros Ha Hwf Hw. unfold spec_turn, spec_call.
  destruct c as [k x|k]; cbn [call_op call_command call_wf make_call call_request cmd_set cmd_key cmd_Op] in *;
    rewrite bool_decide_eq_false_2 by done; cbn [negb op_counter].
  - set (v1 := count cmdSet v) in *. destruct (set_reply_line k x v1 Ha) as (e & l & Hr & Hl & Hnl & Hans).
    unfold spec_command, spec_reply. cbn [cmd_set cmd_Op cmd_TTLSeconds cmd_Key cmd_Value].
    change (maxTTLSeconds <? 0) with false. change (ttl_of 0) with 0. cbn iota.
    destruct (spec_op L env (OpSet k x 0) v1) as [r v']. cbn in Hr. subst r. exists (line l). cbn [reply_text error_text].
    rewrite Hl. split; [done|]. intros Hrd. wp_steps. cbn [ClientSet miniKVClient].
    wp_use (request_ok _ (read_ack "STORED") Some cl _ (Reader rest EOF) Hw); [by rewrite Hrd, read_ack_line|].
    intros r' cl' (-> & H1 & H2 & H3 & H4). wp_steps. rewrite Hans. split_and!; try done.
    rewrite H3. unfold set_request. cbn [concat]. by rewrite app_nil_r, <- !app_assoc.
  - set (v1 := count cmdGet v) in *. destruct (get_reply k v1 Ha) as (o & Hr & Hv). apply andb_prop in Hwf as [_ Ht].
    unfold spec_command. cbn [cmd_key cmd_Op cmd_Key spec_items].
    destruct (spec_op L env (OpGet k) v1) as [r v']. cbn in Hr. subst r. eexists. split; [reflexivity|].
    intros Hrd. wp_steps. cbn [ClientGet miniKVClient].
    wp_use (request_ok _ (readMiniKVGet k) inr cl (inl (it ← o; Some (Value it))) (Reader rest EOF) Hw).
    + rewrite Hrd, <- app_assoc. destruct o as [it|]; [apply readMiniKVGet_hit; auto|apply readMiniKVGet_miss].
    + intros r' cl' (-> & H1 & H2 & H3 & H4). wp_steps. split_and!; try done.
      rewrite H3. unfold get_request. cbn [concat]. by rewrite app_nil_r.
Qed.

Lemma calls_ok cs : forall v cl,
  awf L (as_store v) -> forallb call_wf cs = true -> healthy (c_writer cl) ->
  let '(txt, v') := spec_run L env [] t0 true (map call_command cs) v in
  c_reader cl = Reader txt EOF ->
  snd (spec_calls L env cs v) = v' /\
  wp (make_calls cs) cl (fun rs cl' => rs = fst (spec_calls L env cs v) /\
    c_reader cl' = Reader [] EOF /\ stream (c_writer cl') = stream (c_writer cl) ++ concat (map call_request cs)).
Proof.
  induction cs as [|c cs IH]; intros v cl Ha Hwf Hw; cbn [map spec_run spec_calls make_calls concat].
  - intros Hrd. split; [done|]. wp_steps. by rewrite app_nil_r.
  - cbn [forallb] in Hwf. apply andb_prop in Hwf as [Hc Hwf].
    pose proof (call_ok c v cl) as Hcall.
    pose proof (proj1 (spec_op_awf (call_op c) (count (op_counter (cmd_Op (call_command c))) v) Ha)) as Ha'.
    fold (spec_call L env c v) in Ha'. destruct (spec_call L env c v) as [r v1]. cbn [snd] in Ha'.
    destruct (Hcall [] Ha Hc Hw) as (txt & E & _). rewrite E.
    destruct (spec_run L env [] t0 true (map call_command cs) v1) as [rest v2] eqn:Es.
    destruct (Hcall rest Ha Hc Hw) as (txt' & E' & Hrun). rewrite E in E'. injection E' as <-.
    intros Hrd. specialize (Hrun Hrd).
    assert (Hrest : forall cl', healthy (c_writer cl') -> c_reader cl' = Reader rest EOF -> _)
      by (intros cl' Hw'; pose proof (IH v1 cl' Ha' Hwf Hw') as Hrest; rewrite Es in Hrest; exact Hrest).
    destruct (spec_calls L env cs v1) as [rs v3]. cbn [fst snd] in *.
    split.
    { destruct (wp_Done _ _ _ Hrun) as (? & cl' & _ & _ & H1 & H2 & _). by apply (Hrest cl'). }
    wp_steps. wp_use Hrun. intros r' cl1 (-> & H1 & H2 & H3 & H4). wp_steps.
    wp_use (proj2 (Hrest cl1 H1 H2)). intros rs' cl2 (-> & R2 & S2). wp_steps. split_and!; [done..|].
    rewrite S2. unfold stream at 1. by rewrite H3, H4, app_nil_r, <- app_assoc.
Qed.
End Calls.

Lemma call_wires cs : forallb call_wf cs = true -> Forall2 reads_as (map call_request cs) (map call_command cs).
Proof.
  induction cs as [|c cs IH]; [constructor|]. cbn [forallb map]. intros [Hc Hwf]%andb_prop.
  constructor; [|by apply IH]. destruct c as [k v|k]; simpl in Hc; [|by apply get_request_wire].
  apply andb_prop in Hc as [? ?]. by apply set_request_wire.
Qed.

(** ** The division of keys *)

Lemma workerSlice_spec total c w :
  0 < c -> 0 <= total -> 0 <= w < c ->
  let '(start, stop) := workerSlice total c w in
  start = w * (total / c) + Z.min w (total mod c) /\
  stop = (w + 1) * (total / c) + Z.min (w + 1) (total mod c).
Proof.
  intros Hc Ht Hw. unfold workerSlice. rewrite Z.quot_div_nonneg, Z.rem_mod_nonneg by lia.
  split; [done|]. zcase; lia.
Qed.

Lemma slices_concat total c : 0 < c -> 0 <= total -> forall n, (Z.of_nat n <= c) ->
  concat (map (fun w => range (workerSlice total c (Z.of_nat w))) (seq 0 n)) =
  map Z.of_nat (seq 0 (Z.to_nat (Z.of_nat n * (total / c) + Z.min (Z.of_nat n) (total mod c)))).
Proof.
  intros Hc Ht. pose proof (Z.mod_pos_bound total c Hc). pose proof (Z.div_pos total c Ht Hc).
  induction n as [|n IH]; intros Hn.
  - by replace (Z.to_nat _) with 0%nat by lia.
  - rewrite seq_S, map_app, concat_app, IH by lia. simpl. rewrite app_nil_r.
    pose proof (workerSlice_spec total c (Z.of_nat n) Hc Ht ltac:(lia)) as Hs.
    destruct (workerSlice total c (Z.of_nat n)) as [start stop]. destruct Hs as [-> ->].
    unfold range. cbn [fst snd]. set (a := Z.of_nat n * (total / c) + Z.min (Z.of_nat n) (total mod c)).
    replace (Z.of_nat (S n)) with (Z.of_nat n + 1) by lia.
    set (b := (Z.of_nat n + 1) * (total / c) + Z.min (Z.of_nat n + 1) (total mod c)).
    assert (Hab : 0 <= a <= b) by (unfold a, b; nia).
    rewrite <- map_app. f_equal. replace (Z.to_nat b) with (Z.to_nat a + Z.to_nat (b - a))%nat by lia.
    by rewrite seq_app.
Qed.

(** All the slices, one after the other, are all the keys. *)
Lemma slices_all total c : 0 < c -> 0 <= total ->
  concat (map (fun w => range (workerSlice total c (0 + Z.of_nat w))) (seq 0 (Z.to_nat c))) =
  map Z.of_nat (seq 0 (Z.to_nat total)).
Proof.
  intros Hc Ht. pose proof (Z.mod_pos_bound total c Hc). rewrite slices_concat by lia. do 3 f_equal.
  rewrite Z2Nat.id by lia. pose proof (Z.div_mod total c). lia.
Qed.

(** ** Theorems *)

(** C10: Client and server agree, end to end.  For any sequence of [Set] and
    [Get] calls of the MiniKV client on one connection to a server in any
    reachable state, whatever other clients do meanwhile: the server answers the
    bytes the client writes, reading those answers the client writes exactly
    these bytes, and every call returns what the abstract store answers at that
    point (stored, the error line, the value, or no value), with nothing left
    unread and the store changed accordingly. *)
Theorem client_session `{MapRange} config es rs kv env t0 m (calls : list call) :
  config_ok config -> keys_fit (limits_of config) -> l_maxValue (limits_of config) + 2 <= maxAlloc ->
  store_reach config es rs kv -> env_ok (limits_of config) (num_shards config) env ->
  forallb call_wf calls = true -> is_server env m ->
  let '(answers, v) := spec_calls (limits_of config) env calls (new_aserver config es) in
  exists requests s' cl',
    m (new_session kv [] t0 (Reader requests EOF) None) = Done (None, s') /\
    make_calls calls (TextClient (Reader (sent (out s')) EOF) (new_writer None)) = Done (answers, cl') /\
    stream (c_writer cl') = requests /\ unread (c_reader cl') = [] /\
    store_rel (good (limits_of config)) (sv_store (srv s')) (as_store v).
Proof.
  intros Hok Hfit Hv Hr Henv Hwf Hm. destruct (reach_rel config Hok _ _ _ Hr) as (_ & _ & Ha).
  pose proof (connection_runs config es rs kv env _ _ [] t0 m Hok Hfit Hr Henv (call_wires calls Hwf) Hm) as Hserve.
  pose proof (calls_ok _ (limits_of_ok config Hok) env t0 Hv calls (new_aserver config es)) as Hcalls.
  change (bool_decide (([] : bytes) = [])) with true in Hserve.
  destruct (spec_run _ env [] t0 true (map call_command calls) _) as [txt v'].
  destruct Hserve as (s' & Hrun & Hsent & _ & Hrel & _).
  destruct (Hcalls (TextClient (Reader txt EOF) (new_writer None)) Ha Hwf ltac:(done) eq_refl) as [Hsnd Hwp].
  destruct (spec_calls _ env calls _) as [answers v'']. simpl in Hsnd, Hwp. subst v''.
  destruct (wp_Done _ _ _ Hwp) as (rs' & cl' & E & -> & Hrd & Hst).
  exists (concat (map call_request calls)), s', cl'. rewrite Hsent, Hrd. done.
Qed.

Definition demo_calls : list call :=
  [CallSet "k" "one"; CallGet "k"; CallGet "no"; CallSet "k" "far too long for the demo store"; CallGet "k"].

Lemma client_session_witness :
  let '(answers, v) := spec_calls (limits_of demo_config) demo_env demo_calls (new_aserver demo_config []) in
  exists requests s' cl',
    serveConn demo_env (new_session (New demo_config) [] 0 (Reader requests EOF) None) = Done (None, s') /\
    make_calls demo_calls (TextClient (Reader (sent (out s')) EOF) (new_writer None)) = Done (answers, cl') /\
    stream (c_writer cl') = requests /\ unread (c_reader cl') = [] /\
    store_rel (good (limits_of demo_config)) (sv_store (srv s')) (as_store v).
Proof.
  apply (client_session demo_config [] [] (New demo_config) demo_env 0 (serveConn demo_env) demo_calls
    demo_config_ok); [vm_compute; congruence|vm_compute; congruence|exact demo_new_reach|exact demo_env_ok|
    vm_compute; reflexivity|].
  right. reflexivity.
Defined.

(** The answers of the demonstration: another client replaces the value before
    the first [Get]. *)
Example demo_answers : fst (spec_calls (limits_of demo_config) demo_env demo_calls (new_aserver demo_config [])) =
  [ASet None; AGet (inl (Some "zz")); AGet (inl None);
   ASet (Some (Unexpected "SERVER_ERROR value too large")); AGet (inl (Some "zz"))].
Proof. vm_compute. reflexivity. Qed.

(** The workers' slices partition the keys: one after the other they are
    exactly the keys 0 to [total-1], each once and in order, and no two
    workers' shares differ by more than one. *)
Theorem workers_partition (total concurrency : Z) :
  0 < concurrency -> 0 <= total ->
  concat (map (fun w => range (workerSlice total concurrency (Z.of_nat w))) (seq 0 (Z.to_nat concurrency))) =
    map Z.of_nat (seq 0 (Z.to_nat total)) /\
  forall w, 0 <= w < concurrency ->
    let '(start, stop) := workerSlice total concurrency w in
    total / concurrency <= stop - start <= total / concurrency + 1.
Proof.
  intros Hc Ht. pose proof (Z.mod_pos_bound total concurrency Hc). split.
  - by apply slices_all.
  - intros w Hw. pose proof (workerSlice_spec total concurrency w Hc Ht Hw) as Hs.
    destruct (workerSlice total concurrency w). lia.
Qed.

Lemma workers_partition_witness :
  concat (map (fun w => range (workerSlice 10 4 (Z.of_nat w))) (seq 0 4)) = map Z.of_nat (seq 0 10).
Proof. apply (workers_partition 10 4); lia. Defined.
