(* ===== verification/Benchmark.v ===== *)
(** * The benchmark ([src/internal/benchmark/runner.go] and [stats.go])

    [Run]: dial one client per worker, then in every run write all keys and
    read them back, and summarise the latencies.  What the clock measures and
    whether a context or deadline stops a call are inputs. *)

From stdpp Require Import sorting.
From S2P Require Import Prelude Float64 Strconv GoStrings Bufio Protocol Client.

(** ** Statistics *)

Record Summary := MkSummary {
  Count : Z; Min : Z; Mean : Z; P50 : Z; P95 : Z; Max : Z; OpsPerSec : float64
}.

Definition zero_summary : Summary := MkSummary 0 0 0 0 0 0 (of_int 0).

(** [sort.Slice] with [<]; equal durations are indistinguishable. *)
Definition sort (samples : list Z) : list Z := merge_sort Z.le samples.

(** [total += sample]. *)
Definition add_all (l : list Z) : Z := fold_left (fun t x => int64 (t + x)) l 0.

Definition rank (p : float64) (n : Z) : Z := ceil_to_int (fmul (fdiv p (of_int 100)) (of_int n)) - 1.

(** [None] is an index out of range. *)
Definition percentile (sorted : list Z) (p : float64) : option Z :=
  let index := rank p (len sorted) in
  let index := if index <? 0 then 0 else index in
  let index := if len sorted <=? index then len sorted - 1 else index in
  if index <? 0 then None else sorted !! Z.to_nat index.

Definition Summarize (samples : list Z) (wallClock : Z) : option Summary :=
  if bool_decide (samples = []) then Some zero_summary
  else
    let sorted := sort samples in
    let opsPerSec := if 0 <? wallClock then fdiv (of_int (len sorted)) (Seconds wallClock) else of_int 0 in
    first ← head sorted;
    p50 ← percentile sorted (of_int 50);
    p95 ← percentile sorted (of_int 95);
    top ← last sorted;
    Some (MkSummary (len sorted) first (Z.quot (add_all sorted) (len sorted)) p50 p95 top opsPerSec).

(** ** Running *)

Record Workload := MkWorkload {
  Runs : Z; Keys : Z; ValueBytes : Z; KeyPrefix : bytes; Concurrency : Z
}.

Record Result := MkResult { Service : bytes; ResultOf : bytes; ResultSummary : Summary }.

Inductive phase := phaseWrite | phaseRead.

Inductive op_error := OpFailed (e : client_error) | KeyMissing | ValueMismatch.

Inductive run_error :=
| RunsNotPositive | KeysNotPositive | ValueBytesNotPositive | ConcurrencyExceedsKeys
| DialFailed (worker : nat)
| CallFailed (p : phase) (run index : Z) (e : op_error).

(** The connections of the workers, and how many were closed. *)
Record world := World { links : list textClient; closed : nat }.

(** [make] of [n] elements of [size] bytes. *)
Definition alloc {S} (n size : Z) : M S unit :=
  if (n <? 0) || (maxAlloc <? n * size) then panic else mret tt.

Section Running.
Context (client : Client).
Context (prepared : phase -> Z -> Z -> option client_error).   (* by run and key *)
Context (elapsed : phase -> Z -> Z -> Z).                      (* latency, by run and key *)
Context (wall : phase -> Z -> Z).                              (* duration of a phase, by run *)
Context (dial : nat -> option textClient).                     (* the connection of a worker *)

(** One call of a worker; [None] is success. *)
Definition operate (p : phase) (run i : Z) (key payload : bytes) : M textClient (option op_error) :=
  match p with
  | phaseWrite =>
      r ← ClientSet client (prepared p run i) key payload;
      mret (match r with Some e => Some (OpFailed e) | None => None end)
  | phaseRead =>
      r ← ClientGet client (prepared p run i) key;
      mret (match r with
            | inr e => Some (OpFailed e)
            | inl None => Some KeyMissing
            | inl (Some value) => if bool_decide (value = payload) then None else Some ValueMismatch
            end)
  end.

(** The loop of a worker over its keys. *)
Fixpoint worker_loop (p : phase) (run : Z) (prefix payload : bytes) (ks : list Z) (latencies : list Z)
    : M textClient (list Z + run_error) :=
  match ks with
  | [] => mret (inl latencies)
  | i :: ks' =>
      r ← operate p run i (workloadKey prefix run i) payload;
      match r with
      | Some e => mret (inr (CallFailed p run i e))
      | None => worker_loop p run prefix payload ks' (latencies ++ [elapsed p run i])
      end
  end.

(** The workers, each on its own connection and its own slice. *)
Fixpoint run_workers (p : phase) (run : Z) (wl : Workload) (payload : bytes) (concurrency w : Z)
    (cs : list textClient) : outcome (list (list Z + run_error) * list textClient) :=
  match cs with
  | [] => Done ([], [])
  | c :: cs' =>
      match worker_loop p run (KeyPrefix wl) payload (range (workerSlice (Keys wl) concurrency w)) [] c with
      | Done (r, c') =>
          match run_workers p run wl payload concurrency (w + 1) cs' with
          | Done (rs, cs'') => Done (r :: rs, c' :: cs'')
          | Panicked => Panicked
          | OutOfFuel => OutOfFuel
          end
      | Panicked => Panicked
      | OutOfFuel => OutOfFuel
      end
  end.

(** The first error, by worker, or all the latencies. *)
Fixpoint merge_results (rs : list (list Z + run_error)) : list Z + run_error :=
  match rs with
  | [] => inl []
  | inr e :: _ => inr e
  | inl l :: rs' => match merge_results rs' with inl m => inl (l ++ m) | inr e => inr e end
  end.

Definition runPhase (p : phase) (run : Z) (wl : Workload) (payload : bytes) : M world (list Z + run_error) :=
  n ← gets (fun s => len (links s));
  alloc n 24 ;;
  rs ← (fun s => match run_workers p run wl payload n 0 (links s) with
                 | Done (rs, cs) => Done (rs, World cs (closed s))
                 | Panicked => Panicked
                 | OutOfFuel => OutOfFuel
                 end);
  match merge_results rs with
  | inr e => mret (inr e)
  | inl merged => alloc (Keys wl) 8 ;; mret (inl merged)
  end.

(** The loop over the runs: write latencies and their wall clock, read
    latencies and theirs. *)
Fixpoint run_loop (fuel : nat) (run : Z) (wl : Workload) (payload : bytes)
    (writes reads : list Z) (writeWall readWall : Z)
    : M world (list Z * list Z * Z * Z + run_error) :=
  match fuel with
  | O => mret (inl (writes, reads, writeWall, readWall))
  | S fuel' =>
      w ← runPhase phaseWrite run wl payload;
      match w with
      | inr e => mret (inr e)
      | inl runWrites =>
          r ← runPhase phaseRead run wl payload;
          match r with
          | inr e => mret (inr e)
          | inl runReads =>
              run_loop fuel' (run + 1) wl payload (writes ++ runWrites) (reads ++ runReads)
                (int64 (writeWall + wall phaseWrite run)) (int64 (readWall + wall phaseRead run))
          end
      end
  end.

Definition closeAll : M world unit := modify (fun s => World (links s) (closed s + length (links s))).

(** Dial [n] more clients, the next one being the [i]-th. *)
Fixpoint dial_loop (n i : nat) : M world (option run_error) :=
  match n with
  | O => mret None
  | S n' =>
      match dial i with
      | None => closeAll ;; mret (Some (DialFailed i))
      | Some c => modify (fun s => World (links s ++ [c]) (closed s)) ;; dial_loop n' (S i)
      end
  end.

Definition dialAll (n : Z) : M world (option run_error) := alloc n 16 ;; dial_loop (Z.to_nat n) 0.

(** [Run] once the clients are connected. *)
Definition run_all (wl : Workload) : M world (list Result + run_error) :=
  alloc (ValueBytes wl) 1 ;;
  let payload := replicate (Z.to_nat (ValueBytes wl)) "x"%char in
  alloc (int64 (Runs wl * Keys wl)) 8 ;;
  r ← run_loop (Z.to_nat (Runs wl)) 0 wl payload [] [] 0 0;
  match r with
  | inr e => mret (inr e)
  | inl (writes, reads, writeWall, readWall) =>
      sw ← must (Summarize writes writeWall);
      sr ← must (Summarize reads readWall);
      mret (inl [MkResult (Name client) "write" sw; MkResult (Name client) "read" sr])
  end.

(** The defaults [Run] fills in. *)
Definition with_defaults (wl : Workload) : Workload :=
  MkWorkload (Runs wl) (Keys wl) (ValueBytes wl)
    (if bool_decide (KeyPrefix wl = []) then "minikv-bench" else KeyPrefix wl)
    (if Concurrency wl <=? 0 then 1 else Concurrency wl).

Definition Run (wl : Workload) : M world (list Result + run_error) :=
  if Runs wl <=? 0 then mret (inr RunsNotPositive)
  else if Keys wl <=? 0 then mret (inr KeysNotPositive)
  else if ValueBytes wl <=? 0 then mret (inr ValueBytesNotPositive)
  else
    let wl := with_defaults wl in
    if Keys wl <? Concurrency wl then mret (inr ConcurrencyExceedsKeys)
    else
      d ← dialAll (Concurrency wl);
      match d with
      | Some e => mret (inr e)
      | None => r ← run_all wl; closeAll ;; mret r
      end.
End Running.
