(* ===== verification/BenchmarkProps.v ===== *)
(** * What a benchmark reports

    A run that succeeds has measured every key of every run exactly once, in
    both phases; its summary gives the true extremes, the mean and the
    nearest-rank percentiles; and every connection it opened is closed. *)

From Stdlib Require Import SpecFloat.
From stdpp Require Import sorting.
From S2P Require Import Prelude Float64 Rounding Strconv Bufio Protocol Client ClientProps Benchmark.

(** ** Sorted samples *)

Lemma sort_perm l : sort l ≡ₚ l.
Proof. apply merge_sort_Permutation. Qed.

Lemma sort_len l : len (sort l) = len l.
Proof. unfold len. by rewrite sort_perm. Qed.

Global Instance Zle_total : Total Z.le.
Proof. intros x y. lia. Qed.

Lemma sort_sorted l : StronglySorted Z.le (sort l).
Proof. apply StronglySorted_merge_sort; [intros x y z; lia|apply _]. Qed.

Lemma sorted_lookup l : StronglySorted Z.le l -> forall i j x y,
  l !! i = Some x -> l !! j = Some y -> (i <= j)%nat -> x <= y.
Proof.
  induction 1 as [|a l Hs IH Hall]; intros [|i] [|j] x y Hx Hy Hij; simplify_eq/=; try lia; [|eapply IH; eauto; lia].
  rewrite Forall_lookup in Hall. by eapply Hall.
Qed.

(** ** Percentiles *)

(** [x] is the nearest-rank [p]-th percentile of [l]: at least [p] percent of
    the values are at most [x], and fewer are below it. *)
Definition nearest_rank (p : Z) (l : list Z) (x : Z) : Prop :=
  x ∈ l /\ p * len l <= 100 * len (filter (fun y => y <= x) l) /\
  100 * len (filter (fun y => y < x) l) < p * len l.

Lemma filter_le_take l i x : StronglySorted Z.le l -> l !! i = Some x ->
  Z.of_nat i < len (filter (fun y => y <= x) l) /\ len (filter (fun y => y < x) l) <= Z.of_nat i.
Proof.
  intros Hs Hx. rewrite <- (take_drop_middle l i x Hx) at 1 2. rewrite !filter_app, !len_app.
  assert (Hlt : (i < length l)%nat) by (by eapply lookup_lt_Some).
  split.
  - rewrite (filter_keep _ (take i l)).
    + rewrite filter_cons_True by lia. rewrite len_cons. unfold len at 1. rewrite length_take.
      pose proof (len_nonneg (filter (fun y => y <= x) (drop (S i) l))). lia.
    + intros y Hy. apply elem_of_take in Hy as (j & Hj & ?). eapply (sorted_lookup l Hs j i); eauto; lia.
  - rewrite filter_cons_False by lia.
    assert (E : filter (fun y => y < x) (drop (S i) l) = []).
    { apply elem_of_nil_inv. intros y [? (j & Hj)%list_elem_of_lookup]%list_elem_of_filter. rewrite lookup_drop in Hj.
      pose proof (sorted_lookup l Hs i (S i + j) x y Hx Hj). lia. }
    rewrite E. unfold len. simpl. pose proof (length_filter (fun y => y < x) (take i l)) as Hf.
    rewrite length_take in Hf. lia.
Qed.

(** The rank the floating-point product gives is the exact one. *)
Lemma rank_exact p n : p = 50 \/ p = 95 -> 1 <= n <= 2 ^ 48 -> rank (of_int p) n = (p * n + 99) / 100 - 1.
Proof.
  intros Hp Hn. unfold rank. f_equal.
  destruct Hp as [->| ->]; [change (fdiv (of_int 50) (of_int 100)) with (S754_finite false 4503599627370496 (-53))
    |change (fdiv (of_int 95) (of_int 100)) with f095];
    (apply ceil_percent; [unfold normal; lia|lia|done|lia|lia]).
Qed.

(** Whatever the rank, the result is one of the samples. *)
Lemma percentile_some l p : l <> [] -> exists x, percentile (sort l) p = Some x /\ x ∈ l.
Proof.
  intros Hl. unfold percentile. rewrite sort_len.
  assert (0 < len l) by (destruct l; [done|]; rewrite len_cons; pose proof (len_nonneg l); lia).
  set (i := rank p (len l)). set (j := if i <? 0 then 0 else i). set (k := if len l <=? j then len l - 1 else j).
  assert (Hk : 0 <= k < len l) by (unfold k, j; repeat zcase; lia).
  destruct (Z.ltb_spec k 0); [lia|].
  destruct (lookup_lt_is_Some_2 (sort l) (Z.to_nat k)) as [x Hx].
  { rewrite (Permutation_length (sort_perm l)). unfold len in Hk. lia. }
  exists x. split; [done|]. rewrite <- (sort_perm l). by eapply list_elem_of_lookup_2.
Qed.

Lemma percentile_rank l p : p = 50 \/ p = 95 -> 1 <= len l <= 2 ^ 48 ->
  exists x, percentile (sort l) (of_int p) = Some x /\ nearest_rank p l x.
Proof.
  intros Hp Hl. destruct (percentile_some l (of_int p)) as (x & Hx & Hin).
  { intros ->. unfold len in Hl. simpl in Hl. lia. }
  exists x. split; [done|]. split; [done|]. revert Hx. unfold percentile. rewrite sort_len, rank_exact by done.
  pose proof (Z.div_mod (p * len l + 99) 100 ltac:(lia)).
  pose proof (Z.mod_pos_bound (p * len l + 99) 100 ltac:(lia)).
  assert (Hr : 0 <= (p * len l + 99) / 100 - 1 < len l) by (destruct Hp as [->| ->]; lia).
  set (r := (p * len l + 99) / 100 - 1) in *.
  destruct (Z.ltb_spec r 0); [lia|]. destruct (Z.leb_spec (len l) r); [lia|]. destruct (Z.ltb_spec r 0); [lia|].
  intros Hx. destruct (filter_le_take _ _ _ (sort_sorted l) Hx) as [Hle Hlt].
  assert (Hf : forall P `{!forall y : Z, Decision (P y)}, len (filter P (sort l)) = len (filter P l)).
  { intros P ?. unfold len. by rewrite sort_perm. }
  rewrite !Hf in *. lia.
Qed.

(** ** The mean *)

Lemma add_all_from l : Forall (fun x => 0 <= x) l -> forall t, 0 <= t -> t + sumZ l <= MaxInt64 ->
  fold_left (fun t x => int64 (t + x)) l t = t + sumZ l.
Proof.
  induction 1 as [|x l Hx HF IH]; intros t Ht Hmax; [unfold sumZ; simpl; lia|].
  pose proof (sumZ_nonneg l HF). cbn [fold_left]. change (sumZ (x :: l)) with (x + sumZ l) in *.
  rewrite int64_id by lia. rewrite IH; lia.
Qed.

Lemma add_all_sort l : Forall (fun x => 0 <= x) l -> sumZ l <= MaxInt64 -> add_all (sort l) = sumZ l.
Proof.
  intros HF Hmax. assert (E : sumZ (sort l) = sumZ l) by (by rewrite sort_perm).
  unfold add_all. rewrite add_all_from; [lia|by rewrite sort_perm|lia|lia].
Qed.

(** ** The whole summary *)

Lemma sorted_ends l : l <> [] -> exists a b, head (sort l) = Some a /\ last (sort l) = Some b /\
  a ∈ l /\ b ∈ l /\ forall x, x ∈ l -> a <= x <= b.
Proof.
  intros Hl. assert (Hlen : (0 < length (sort l))%nat).
  { rewrite (Permutation_length (sort_perm l)). destruct l; [done|]. simpl. lia. }
  destruct (lookup_lt_is_Some_2 (sort l) 0 Hlen) as [a Ha].
  destruct (lookup_lt_is_Some_2 (sort l) (pred (length (sort l))) ltac:(lia)) as [b Hb].
  exists a, b. rewrite head_lookup, last_lookup. split_and!; try done.
  1,2: rewrite <- (sort_perm l); by eapply list_elem_of_lookup_2.
  intros x Hx. rewrite <- (sort_perm l) in Hx. apply list_elem_of_lookup in Hx as (i & Hi).
  pose proof (lookup_lt_Some _ _ _ Hi).
  split; [apply (sorted_lookup _ (sort_sorted l) 0 i)|apply (sorted_lookup _ (sort_sorted l) i (pred (length (sort l))))];
    done || lia.
Qed.

(** C35: A summary is what its fields say, for any samples: it never panics,
    counts them all, gives their true minimum and maximum, the mean where the
    total fits, and the median and the 95th percentile are the exact
    nearest-rank ones: for any number of samples that can be allocated the
    floating-point rank is not off by one. *)
Theorem summary_correct (samples : list Z) (wallClock : Z) :
  samples <> [] ->
  exists s, Summarize samples wallClock = Some s /\ Count s = len samples /\
    Min s ∈ samples /\ Max s ∈ samples /\ (forall x, x ∈ samples -> Min s <= x <= Max s) /\
    P50 s ∈ samples /\ P95 s ∈ samples /\
    (len samples <= 2 ^ 48 -> nearest_rank 50 samples (P50 s) /\ nearest_rank 95 samples (P95 s)) /\
    (Forall (fun x => 0 <= x) samples -> sumZ samples <= MaxInt64 -> Mean s = sumZ samples / len samples).
Proof.
  intros Hl. assert (Hpos : 1 <= len samples).
  { destruct samples; [done|]. rewrite len_cons. pose proof (len_nonneg samples). lia. }
  destruct (sorted_ends samples Hl) as (a & b & Ha & Hb & Hina & Hinb & Hall).
  destruct (percentile_some samples (of_int 50) Hl) as (p50 & H50 & Hin50).
  destruct (percentile_some samples (of_int 95) Hl) as (p95 & H95 & Hin95).
  unfold Summarize. rewrite bool_decide_eq_false_2 by done. rewrite Ha, Hb, H50, H95. cbn [mbind option_bind].
  eexists. split; [reflexivity|]. cbn [Count Min Max P50 P95 Mean]. rewrite sort_len.
  split_and!; try done.
  - intros Hmax. destruct (percentile_rank samples 50) as (x & Hx & Hr); [auto|lia|].
    destruct (percentile_rank samples 95) as (y & Hy & Hr'); [auto|lia|]. by simplify_eq.
  - intros HF Hsum. rewrite add_all_sort by done.
    pose proof (sumZ_nonneg samples HF). rewrite Z.quot_div_nonneg; lia.
Qed.

Lemma summary_correct_witness :
  exists s, Summarize [30; 10; 20; 20] 1000 = Some s /\ Count s = 4 /\ Min s = 10 /\ P50 s = 20 /\ Mean s = 20 /\
    nearest_rank 95 [30; 10; 20; 20] (P95 s).
Proof.
  destruct (summary_correct [30; 10; 20; 20] 1000 ltac:(discriminate)) as
    (s & E & Hc & _ & _ & _ & _ & _ & Hp & Hm).
  exists s. split; [exact E|]. split; [exact Hc|]. vm_compute in E. injection E as <-.
  split; [reflexivity|]. split; [reflexivity|]. split; [reflexivity|].
  apply Hp. vm_compute. congruence.
Defined.

(** ** Runs *)

Section Measured.
Context (client : Client) (prepared : phase -> Z -> Z -> option client_error).
Context (elapsed : phase -> Z -> Z -> Z) (wall : phase -> Z -> Z) (dial : nat -> option textClient).

Abbreviation worker := (worker_loop client prepared elapsed).

(** All the keys, or runs, below [n]. *)
Definition below (n : Z) : list Z := map Z.of_nat (seq 0 (Z.to_nat n)).

(** The latencies of one phase of a run, and of all runs from [run] on. *)
Definition latencies (p : phase) (keys run : Z) : list Z := map (elapsed p run) (below keys).
Definition all_latencies (p : phase) (keys : Z) (runs : list Z) : list Z :=
  concat (map (latencies p keys) runs).

(** The wall clock of one phase over the runs, added up as the code does. *)
Definition add_walls (p : phase) (runs : list Z) (start : Z) : Z :=
  foldl (fun t run => int64 (t + wall p run)) start runs.

Lemma worker_measures p run prefix payload ks : forall acc c l c',
  worker p run prefix payload ks acc c = Done (inl l, c') -> l = acc ++ map (elapsed p run) ks.
Proof.
  induction ks as [|i ks IH]; intros acc c l c'; cbn [worker_loop].
  - intros [= <- _]. by rewrite app_nil_r.
  - unfold mbind, M_bind. destruct (operate _ _ _ _ _ _ _ _) as [[[e|] c1]| |]; try discriminate.
    intros H%IH. by rewrite <- app_assoc in H.
Qed.

Lemma workers_measure p run wl payload n cs : forall w rs cs' l,
  run_workers client prepared elapsed p run wl payload n w cs = Done (rs, cs') ->
  length cs' = length cs /\
  (merge_results rs = inl l -> l = map (elapsed p run)
    (concat (map (fun j => range (workerSlice (Keys wl) n (w + Z.of_nat j))) (seq 0 (length cs))))).
Proof.
  induction cs as [|c cs IH]; intros w rs cs' l; cbn [run_workers].
  - intros [= <- <-]. split; [done|]. by intros [= <-].
  - destruct (worker _ _ _ _ _ _ c) as [[r c1]| |] eqn:Ew; try discriminate.
    destruct (run_workers _ _ _ _ _ _ _ _ _ cs) as [[rs1 cs1]| |] eqn:Er; try discriminate.
    intros [= <- <-]. destruct (IH _ _ _ [] Er) as [Hlen _]. split; [simpl; by f_equal|].
    cbn [merge_results]. destruct r as [l1|]; [|discriminate].
    destruct (merge_results rs1) as [m|] eqn:Em; [|discriminate]. intros [= <-].
    destruct (IH _ _ _ m Er) as [_ Hm]. rewrite (Hm Em), (worker_measures _ _ _ _ _ _ _ _ _ Ew).
    cbn [app length seq map concat]. rewrite map_app. f_equal; [do 3 f_equal; lia|].
    f_equal. f_equal. rewrite <- seq_shift, map_map. apply map_ext. intros j. do 2 f_equal. lia.
Qed.

(** A phase measures every key once, and leaves the connections open. *)
Lemma runPhase_measures p run wl payload s r s' :
  0 < len (links s) -> 0 <= Keys wl ->
  runPhase client prepared elapsed p run wl payload s = Done (r, s') ->
  length (links s') = length (links s) /\ closed s' = closed s /\
  forall l, r = inl l -> l = latencies p (Keys wl) run.
Proof.
  intros Hn Hk. unfold runPhase, alloc, mbind, M_bind, gets.
  destruct (_ || _); [discriminate|]. cbn.
  destruct (run_workers _ _ _ _ _ _ _ _ _ _) as [[rs cs]| |] eqn:Er; try discriminate.
  destruct (merge_results rs) as [m|e] eqn:Em.
  - destruct (_ || _); [discriminate|]. intros [= <- <-].
    destruct (workers_measure _ _ _ _ _ _ _ _ _ m Er) as [Hl Hm]. split_and!; [done..|].
    intros l [= <-]. rewrite (Hm Em). unfold latencies, below. f_equal.
    replace (length (links s)) with (Z.to_nat (len (links s))) by (unfold len; lia).
    by apply slices_all.
  - intros [= <- <-]. destruct (workers_measure _ _ _ _ _ _ _ _ _ [] Er) as [Hl _]. by split_and!.
Qed.

Abbreviation measure_all p wl runs := (all_latencies p (Keys wl) runs).

Lemma run_loop_measures wl payload fuel : forall run writes reads ww rw s r s',
  0 < len (links s) -> 0 <= Keys wl ->
  run_loop client prepared elapsed wall fuel run wl payload writes reads ww rw s = Done (r, s') ->
  length (links s') = length (links s) /\ closed s' = closed s /\
  forall ws rs ww' rw', r = inl (ws, rs, ww', rw') ->
    let runs := map (fun j => run + Z.of_nat j) (seq 0 fuel) in
    ws = writes ++ measure_all phaseWrite wl runs /\ rs = reads ++ measure_all phaseRead wl runs /\
    ww' = add_walls phaseWrite runs ww /\ rw' = add_walls phaseRead runs rw.
Proof.
  induction fuel as [|fuel IH]; intros run writes reads ww rw s r s' Hn Hk; cbn [run_loop].
  - intros [= <- <-]. split_and!; [done..|]. intros ws rs ww' rw' [= <- <- <- <-]. by rewrite !app_nil_r.
  - unfold mbind, M_bind. destruct (runPhase _ _ _ phaseWrite _ _ _ s) as [[w s1]| |] eqn:Ew; try discriminate.
    destruct (runPhase_measures _ _ _ _ _ _ _ Hn Hk Ew) as (L1 & C1 & Hw).
    destruct w as [l1|e]; [|intros [= <- <-]; by split_and!].
    destruct (runPhase _ _ _ phaseRead _ _ _ s1) as [[x s2]| |] eqn:Er; try discriminate.
    assert (Hn1 : 0 < len (links s1)) by (unfold len in *; by rewrite L1).
    destruct (runPhase_measures _ _ _ _ _ _ _ Hn1 Hk Er) as (L2 & C2 & Hr).
    destruct x as [l2|e]; [|intros [= <- <-]; rewrite L2, C2; by split_and!].
    intros Hloop. apply IH in Hloop as (L3 & C3 & H3); [|unfold len in *; by rewrite L2|done].
    rewrite L3, C3, L2, C2. split_and!; [done..|]. intros ws rs ww' rw' Hres. destruct (H3 _ _ _ _ Hres) as (-> & -> & -> & ->).
    rewrite (Hw l1 eq_refl), (Hr l2 eq_refl), <- !app_assoc. cbn [seq map]. rewrite Z.add_0_r.
    assert (E : map (fun j => run + 1 + Z.of_nat j) (seq 0 fuel) = map (fun j => run + Z.of_nat j) (seq 1 fuel)).
    { rewrite <- seq_shift, map_map. apply map_ext. intros j. lia. }
    by rewrite E.
Qed.

Lemma dial_loop_links n : forall i s r s',
  dial_loop dial n i s = Done (r, s') -> closed s = 0%nat ->
  match r with
  | None => length (links s') = (length (links s) + n)%nat /\ closed s' = 0%nat
  | Some _ => closed s' = length (links s')
  end.
Proof.
  induction n as [|n IH]; intros i s r s'; cbn [dial_loop].
  - intros [= <- <-]. by rewrite Nat.add_0_r.
  - destruct (dial i) as [c|].
    + unfold mbind, M_bind, modify. intros H Hc. apply IH in H; [|done]. cbn [links closed] in H.
      destruct r; [done|]. rewrite length_app in H. cbn in H. split; [lia|tauto].
    + intros [= <- <-] Hc. simpl. lia.
Qed.

(** The samples' number. *)
Lemma all_latencies_len p keys runs : 0 <= keys -> len (all_latencies p keys runs) = len runs * keys.
Proof.
  intros Hk. unfold all_latencies. induction runs as [|r runs IH]; [done|]. cbn [map concat].
  rewrite len_app, IH, len_cons. unfold latencies, below, len at 1. rewrite !length_map, length_seq. lia.
Qed.
End Measured.

Lemma Summarize_count l w s : Summarize l w = Some s -> Count s = len l.
Proof.
  unfold Summarize. destruct (bool_decide_reflect (l = [])) as [->|Hl]; [by intros [= <-]|].
  destruct (head _), (percentile _ _), (percentile _ _), (last _); try discriminate.
  intros [= <-]. apply sort_len.
Qed.

(** What the summaries of a workload are: those of all the latencies of a phase
    over its wall clock in all the runs. *)
Definition reports (client : Client) (elapsed : phase -> Z -> Z -> Z) (wall : phase -> Z -> Z) (wl : Workload)
    (results : list Result) : Prop :=
  let summary p := Summarize (all_latencies elapsed p (Keys wl) (below (Runs wl))) (add_walls wall p (below (Runs wl)) 0) in
  exists sw sr, results = [MkResult (Name client) "write" sw; MkResult (Name client) "read" sr] /\
    summary phaseWrite = Some sw /\ summary phaseRead = Some sr.

Lemma run_all_measures client prepared elapsed wall wl s r s' :
  0 < len (links s) -> 0 <= Keys wl ->
  run_all client prepared elapsed wall wl s = Done (r, s') ->
  length (links s') = length (links s) /\ closed s' = closed s /\
  forall results, r = inl results -> reports client elapsed wall wl results.
Proof.
  intros Hn Hk. unfold run_all, alloc, mbind, M_bind.
  destruct (_ || _); [discriminate|]. cbn. destruct (_ || _); [discriminate|]. cbn.
  destruct (run_loop _ _ _ _ _ _ _ _ _ _ _ _ s) as [[x s1]| |] eqn:El; try discriminate.
  destruct (run_loop_measures _ _ _ _ _ _ _ _ _ _ _ _ _ _ _ Hn Hk El) as (L1 & C1 & Hx).
  destruct x as [[[[ws rs] ww] rw]|e]; [|intros [= <- <-]; by split_and!].
  destruct (Hx _ _ _ _ eq_refl) as (-> & -> & -> & ->). cbn [app].
  change (map (fun j => 0 + Z.of_nat j) (seq 0 (Z.to_nat (Runs wl)))) with (below (Runs wl)).
  destruct (Summarize _ (add_walls wall phaseWrite _ _)) as [sw|] eqn:Ew; [|discriminate]. cbn [must].
  destruct (Summarize _ (add_walls wall phaseRead _ _)) as [sr|] eqn:Er; [|discriminate]. intros [= <- <-].
  split_and!; [done..|]. intros results [= <-]. by exists sw, sr.
Qed.

(** Everything a finished run measured and closed. *)
Lemma Run_measures client prepared elapsed wall dial (wl : Workload) r s' :
  Run client prepared elapsed wall dial wl (World [] 0) = Done (r, s') ->
  closed s' = length (links s') /\
  forall results, r = inl results ->
    reports client elapsed wall wl results /\
    forall x, x ∈ results -> Count (ResultSummary x) = Runs wl * Keys wl.
Proof.
  unfold Run. destruct (Z.leb_spec (Runs wl) 0); [by intros [= <- <-]|].
  destruct (Z.leb_spec (Keys wl) 0); [by intros [= <- <-]|].
  destruct (Z.leb_spec (ValueBytes wl) 0); [by intros [= <- <-]|].
  set (wl' := with_defaults wl). destruct (Z.ltb_spec (Keys wl') (Concurrency wl')); [by intros [= <- <-]|].
  assert (Hc : 0 < if Concurrency wl <=? 0 then 1 else Concurrency wl) by (zcase; lia).
  unfold dialAll, alloc, mbind, M_bind. destruct (_ || _); [discriminate|]. cbn.
  destruct (dial_loop dial _ 0 _) as [[d s1]| |] eqn:Ed; try discriminate.
  pose proof (dial_loop_links _ _ _ _ _ _ Ed eq_refl) as Hd.
  destruct d as [e|]; [intros [= <- <-]; by split|]. destruct Hd as [Hd Hc1]. cbn in Hd.
  destruct (run_all _ _ _ _ _ s1) as [[x s2]| |] eqn:Er; try discriminate. intros [= <- <-].
  apply run_all_measures in Er as (L2 & C2 & Hx); [|unfold len; lia|subst wl'; cbn; lia]. cbn [links closed].
  split; [lia|]. intros results Hres. pose proof (Hx results Hres) as (sw & sr & -> & Hw & Hr).
  split; [by exists sw, sr|]. cbn [with_defaults wl' Keys Runs] in Hw, Hr.
  apply Summarize_count in Hw, Hr. rewrite all_latencies_len in Hw, Hr by lia.
  assert (Hb : len (below (Runs wl)) = Runs wl) by (unfold len, below; rewrite length_map, length_seq; lia).
  intros y Hy. repeat (apply elem_of_cons in Hy as [->|Hy]; [cbn [ResultSummary]; lia|]). by apply elem_of_nil in Hy.
Qed.

(** C34: A benchmark that reports results has measured everything: the two
    summaries are those of the latency of every key in every run, each once
    and in order, for the writes and for the reads, over the sum of the wall
    clocks of that phase in all runs, so both count [Runs * Keys] samples.  And however it ends, with results or an error,
    every connection it opened has been closed. *)
Theorem benchmark_measures_all client prepared elapsed wall dial (wl : Workload) r s' :
  Run client prepared elapsed wall dial wl (World [] 0) = Done (r, s') ->
  closed s' = length (links s') /\
  forall results, r = inl results ->
    reports client elapsed wall wl results /\
    forall x, x ∈ results -> Count (ResultSummary x) = Runs wl * Keys wl.
Proof. apply Run_measures. Qed.

(** One worker, one run, one key, against a peer that answers as MiniKV does. *)
Definition demo_peer : textClient :=
  TextClient (Reader ("STORED" ++ CRLF ++ "VALUE p:0:0 2" ++ CRLF ++ "xx" ++ CRLF ++ "END" ++ CRLF) EOF) (new_writer None).

Lemma benchmark_measures_all_witness :
  exists r s', Run miniKVClient (fun _ _ _ => None) (fun _ _ _ => 7) (fun _ _ => 9) (fun _ => Some demo_peer)
      (MkWorkload 1 1 2 "p" 0) (World [] 0) = Done (inl r, s') /\ closed s' = 1%nat /\
    forall x, x ∈ r -> Count (ResultSummary x) = 1.
Proof.
  eexists _, _. split; [vm_compute; reflexivity|]. split; [vm_compute; reflexivity|].
  eapply (benchmark_measures_all miniKVClient (fun _ _ _ => None) (fun _ _ _ => 7) (fun _ _ => 9)
    (fun _ => Some demo_peer) (MkWorkload 1 1 2 "p" 0)); [vm_compute; reflexivity|reflexivity].
Defined.
