(* ===== verification/BenchCli.v ===== *)
(** * The benchmark command ([src/cmd/minikv-bench/main.go])

    [selectServices], [formatDuration] and [printResult], and [main], which runs
    the benchmark against each selected service in turn.  The flags, and what
    each service's connections do, are inputs. *)

From S2P Require Import Prelude Strconv Float64 Format GoStrings Bufio Config Client Benchmark.

(** ** Services *)

Record service := MkService { svc_name : bytes; svc_addr : bytes; svc_client : Client }.

(** The flags with their defaults. *)
Record flags := MkFlags {
  servicesFlag : bytes; minikvAddr : bytes; redisAddr : bytes; memcachedAddr : bytes;
  runs : Z; keys : Z; valueBytes : Z; prefix : bytes; timeout : Z; concurrency : Z
}.

Definition default_flags : flags :=
  MkFlags "minikv,redis,memcached" "127.0.0.1:11211" "127.0.0.1:6379" "127.0.0.1:11212"
    5 1000 128 "minikv-bench" (3 * second) 1.

Definition registry (f : flags) : gmap bytes service :=
  <["minikv" := MkService "minikv" (minikvAddr f) miniKVClient]>
  (<["redis" := MkService "redis" (redisAddr f) redisClient]>
  (<["memcached" := MkService "memcached" (memcachedAddr f) memcachedClient]> ∅)).

(** [strings.Split(s, sep)] for a one-byte separator. *)
Fixpoint split_on (sep : ascii) (cur s : bytes) : list bytes :=
  match s with
  | [] => [cur]
  | c :: s' => if decide (c = sep) then cur :: split_on sep [] s' else split_on sep (cur ++ [c]) s'
  end.

Definition Split (s : bytes) : list bytes := split_on ","%char [] s.

Inductive select_error := UnknownService (name : bytes) | NoService.

(** The loop over the tokens. *)
Fixpoint select_loop (tokens : list bytes) (reg : gmap bytes service) (selected : list service)
    : list service + select_error :=
  match tokens with
  | [] => match selected with [] => inr NoService | _ => inl selected end
  | token :: tokens' =>
      let name := TrimSpace token in
      if bool_decide (name = []) then select_loop tokens' reg selected
      else
        match reg !! name with
        | None => inr (UnknownService name)
        | Some svc => select_loop tokens' reg (selected ++ [svc])
        end
  end.

Definition selectServices (raw : bytes) (reg : gmap bytes service) : list service + select_error :=
  select_loop (Split raw) reg [].

(** ** Printing *)

Definition tab : bytes := ["009"%char].
Definition newline : bytes := ["010"%char].

(** [duration.Microseconds()] truncates. *)
Definition Microseconds (d : Z) : Z := Z.quot d 1000.

Definition formatDuration (d : Z) : bytes :=
  FormatFixed 3 (fdiv (of_int (Microseconds d)) (of_int 1000)) ++ "ms".

(** The cells of a line, with tabs between them. *)
Definition print_row (cells : list bytes) : bytes :=
  match cells with
  | [] => newline
  | c :: cs => c ++ concat (map (fun x => tab ++ x) cs) ++ newline
  end.

Definition printResult (result : Result) : bytes :=
  let summary := ResultSummary result in
  print_row [Service result; ResultOf result; FormatInt (Count summary); formatDuration (Min summary);
    formatDuration (Mean summary); formatDuration (P50 summary); formatDuration (P95 summary);
    formatDuration (Max summary); FormatFixed 2 (OpsPerSec summary)].

Definition header : bytes :=
  print_row ["service"; "workload"; "count"; "min"; "mean"; "p50"; "p95"; "max"; "ops/sec"].

(** ** [main] *)

(** What happens while one service is benchmarked. *)
Record surroundings := Surroundings {
  set_deadline : phase -> Z -> Z -> bool;       (* by run and key *)
  elapsed : phase -> Z -> Z -> Z;
  wall : phase -> Z -> Z;
  connects : bytes -> nat -> option (reader * option nat)   (* by address and worker *)
}.

(** How the program ends: its status is zero only for [Finished]. *)
Inductive ending :=
| Finished
| BadServices (e : select_error)             (* log.Fatal *)
| RunFailed (svc : service) (e : run_error). (* os.Exit(1) *)

Definition bench_service (f : flags) (wl : Workload) (svc : service) (e : surroundings)
    : M world (list Result + run_error) :=
  Run (svc_client svc) (fun p run i => prepare (timeout f) false (set_deadline e p run i))
    (elapsed e) (wall e) (fun worker => dialTextClient (connects e (svc_addr svc) worker)) wl.

(** The loop over the services: what is printed, and how it ends.  [env i]
    surrounds the [i]-th. *)
Fixpoint bench_loop (f : flags) (wl : Workload) (env : nat -> surroundings) (i : nat) (svcs : list service)
    : outcome (bytes * ending) :=
  match svcs with
  | [] => Done ([], Finished)
  | svc :: svcs' =>
      match bench_service f wl svc (env i) (World [] 0) with
      | Done (inr e, _) => Done ([], RunFailed svc e)
      | Done (inl results, _) =>
          match bench_loop f wl env (S i) svcs' with
          | Done (text, fin) => Done (concat (map printResult results) ++ text, fin)
          | Panicked => Panicked
          | OutOfFuel => OutOfFuel
          end
      | Panicked => Panicked
      | OutOfFuel => OutOfFuel
      end
  end.

Definition bench_main (f : flags) (env : nat -> surroundings) : outcome (bytes * ending) :=
  match selectServices (servicesFlag f) (registry f) with
  | inr e => Done ([], BadServices e)
  | inl selected =>
      let wl := MkWorkload (runs f) (keys f) (valueBytes f) (prefix f) (concurrency f) in
      match bench_loop f wl env 0 selected with
      | Done (text, fin) => Done (header ++ text, fin)
      | Panicked => Panicked
      | OutOfFuel => OutOfFuel
      end
  end.

Example selectServices_examples :
  map (fun raw => match selectServices raw (registry default_flags) with
                  | inl svcs => inl (map svc_name svcs) | inr e => inr e end)
    [" redis ,minikv,,redis"; "minikv,mysql,other"; " , ,"; ""] =
  [inl ["redis"; "minikv"; "redis"]; inr (UnknownService "mysql"); inr NoService; inr NoService].
Proof. vm_compute. reflexivity. Qed.

Example formatDuration_examples :
  map formatDuration [0; 1999; 1500000; 12345678901; -2500] = ["0.000ms"; "0.001ms"; "1.500ms"; "12345.678ms"; "-0.002ms"].
Proof. vm_compute. reflexivity. Qed.
