(* ===== verification/BenchCliProps.v ===== *)
(** * What the benchmark command prints

    Which services a list of names selects, that the printed milliseconds are
    the exact microseconds, and that the table has the two lines of every
    selected service, in order, up to the first one that fails. *)

From S2P Require Import Prelude Strconv Float64 Rounding Format GoStrings Bufio Config Client.
From S2P Require Import Benchmark BenchmarkProps BenchCli.

(** ** Splitting a list of names *)

Lemma split_on_clean sep w s : sep ∉ w -> forall cur,
  split_on sep cur (w ++ s) = split_on sep (cur ++ w) s.
Proof.
  induction w as [|c w IH]; intros Hw cur; cbn [app split_on]; [by rewrite app_nil_r|].
  apply not_elem_of_cons in Hw as [Hc Hw]. rewrite decide_False by done. rewrite IH by done.
  by rewrite <- app_assoc.
Qed.

(** Parts without a comma, with commas between them. *)
Fixpoint comma_join (parts : list bytes) : bytes :=
  match parts with
  | [] => []
  | [w] => w
  | w :: parts' => w ++ "," ++ comma_join parts'
  end.

Lemma Split_join parts : parts <> [] -> Forall (fun w => ","%char ∉ w) parts -> Split (comma_join parts) = parts.
Proof.
  intros Hne Hall. unfold Split. induction Hall as [|w parts Hw Hall IH]; [done|].
  destruct parts as [|w2 parts].
  - cbn [comma_join]. rewrite <- (app_nil_r w) at 1. rewrite split_on_clean by done. done.
  - change (comma_join (w :: w2 :: parts)) with (w ++ "," ++ comma_join (w2 :: parts)).
    rewrite split_on_clean by done. cbn [app split_on]. rewrite decide_True by done. by rewrite IH.
Qed.

(** ** Selecting services *)

(** The names that count: trimmed and not empty. *)
Definition names (raw : bytes) : list bytes := filter (fun n => n <> []) (map TrimSpace (Split raw)).

Definition select_result (reg : gmap bytes service) (ns : list bytes) (selected : list service)
    (r : list service + select_error) : Prop :=
  match r with
  | inl svcs => exists more, svcs = selected ++ more /\ svcs <> [] /\ Forall2 (fun n s => reg !! n = Some s) ns more
  | inr (UnknownService n) =>
      exists pre post, ns = pre ++ n :: post /\ reg !! n = None /\ Forall (fun m => is_Some (reg !! m)) pre
  | inr NoService => selected = [] /\ ns = []
  end.

Lemma select_loop_result reg tokens : forall selected,
  select_result reg (filter (fun n => n <> []) (map TrimSpace tokens)) selected (select_loop tokens reg selected).
Proof.
  induction tokens as [|t tokens IH]; intros selected; cbn [map select_loop].
  - destruct selected as [|s selected]; [done|]. exists []. rewrite app_nil_r. by split_and!.
  - rewrite filter_cons. destruct (decide (TrimSpace t = [])) as [E|E].
    { rewrite bool_decide_eq_true_2, decide_False by (done || by intros ?). apply IH. }
    rewrite bool_decide_eq_false_2, decide_True by done.
    destruct (reg !! TrimSpace t) as [svc|] eqn:El; [|by exists [], (filter (fun n => n <> []) (map TrimSpace tokens))].
    specialize (IH (selected ++ [svc])). destruct (select_loop tokens reg _) as [svcs|[n|]]; cbn [select_result] in *.
    + destruct IH as (more & -> & Hne & HF). exists (svc :: more). rewrite <- app_assoc in *. split_and!; [done..|].
      by constructor.
    + destruct IH as (pre & post & -> & Hn & Hpre). exists (TrimSpace t :: pre), post. split_and!; [done..|].
      by constructor.
    + destruct IH as [Hs _]. by destruct selected.
Qed.

(** [selectServices] takes the names in the list in order, a repeated one
    each time, ignoring blanks around a name and empty entries: it returns
    their services exactly when all are registered and there is at least one,
    otherwise it reports the first name that is not registered, or that there
    is none.  Names without commas, joined by commas, are the names it sees. *)
Theorem select_services (raw : bytes) (reg : gmap bytes service) :
  match selectServices raw reg with
  | inl svcs => svcs <> [] /\ Forall2 (fun n s => reg !! n = Some s) (names raw) svcs
  | inr (UnknownService n) =>
      exists pre post, names raw = pre ++ n :: post /\ reg !! n = None /\ Forall (fun m => is_Some (reg !! m)) pre
  | inr NoService => names raw = []
  end /\
  (forall ns, ns <> [] -> Forall (fun w => (","%char ∉ w) /\ trimmed w = true /\ w <> []) ns -> names (comma_join ns) = ns).
Proof.
  split.
  - pose proof (select_loop_result reg (Split raw) []) as H. unfold selectServices, names.
    destruct (select_loop (Split raw) reg []) as [svcs|[n|]]; cbn [select_result] in H; [|done|by destruct H].
    by destruct H as (more & -> & Hne & HF).
  - intros ns Hne Hns. unfold names. rewrite Split_join; [|done|eapply Forall_impl; [exact Hns|naive_solver]].
    clear Hne. induction Hns as [|w ns (_ & Ht & Hw) _ IH]; [done|]. cbn [map].
    rewrite TrimSpace_trimmed, filter_cons, decide_True by done. by rewrite IH.
Qed.

(** ** Milliseconds *)

(** C32: The durations in the table are exact: for every measured duration up
    to 2^51 microseconds, dividing by 1000 in floating point and printing three
    decimals shows its whole milliseconds and the three digits of its
    microseconds, so the text determines the duration to the microsecond. *)
Theorem duration_exact (d : Z) :
  0 <= d <= 2 ^ 51 * 1000 ->
  let us := d / 1000 in
  formatDuration d = FormatUint (us / 1000) ++ "." ++ pad_digits 3 (us mod 1000) ++ "ms" /\
  exists ip fp, formatDuration d = ip ++ "." ++ fp ++ "ms" /\ length fp = 3%nat /\
    forallb is_digit (ip ++ fp) = true /\ dec_value (ip ++ fp) = us.
Proof.
  intros Hd us. assert (Hus : 0 <= us <= 2 ^ 51).
  { split; [apply Z.div_pos; lia|]. apply Z.div_le_upper_bound; lia. }
  assert (E : formatDuration d = decimal 3 us ++ "ms").
  { unfold formatDuration, Microseconds. rewrite Z.quot_div_nonneg by lia. fold us.
    change 1000 with (10 ^ Z.of_nat 3). by rewrite FormatFixed_quotient by lia. }
  rewrite E. split.
  - rewrite decimal_uint by lia. by rewrite <- !app_assoc.
  - destruct (decimal_spec 3 us ltac:(lia)) as (ip & fp & -> & _ & Hd3 & Hl & Hv).
    exists ip, fp. split_and!; [by rewrite <- !app_assoc|done..].
Qed.

Lemma duration_exact_witness : exists ip fp, formatDuration 12345678901 = ip ++ "." ++ fp ++ "ms" /\
  dec_value (ip ++ fp) = 12345678.
Proof.
  destruct (duration_exact 12345678901 ltac:(lia)) as [_ (ip & fp & H1 & _ & _ & H2)]. exists ip, fp.
  split; [exact H1|exact H2].
Defined.

(** ** The table *)

Section Table.
Context (f : flags) (wl : Workload) (env : nat -> surroundings).

(** [rss] are the measurements of the services [svcs], the first being the
    [i]-th: two summaries each, over all latencies. *)
Definition measured (i : nat) (svcs : list service) (rss : list (list Result)) : Prop :=
  length rss = length svcs /\
  forall j svc rs, svcs !! j = Some svc -> rss !! j = Some rs ->
    reports (svc_client svc) (elapsed (env (i + j)%nat)) (wall (env (i + j)%nat)) wl rs /\
    forall x, x ∈ rs -> Count (ResultSummary x) = Runs wl * Keys wl.

Lemma measured_nil i : measured i [] [].
Proof. split; [done|]. intros j svc rs Hj. by rewrite lookup_nil in Hj. Qed.

Lemma measured_cons i svc rs svcs rss :
  reports (svc_client svc) (elapsed (env i)) (wall (env i)) wl rs ->
  (forall x, x ∈ rs -> Count (ResultSummary x) = Runs wl * Keys wl) ->
  measured (S i) svcs rss -> measured i (svc :: svcs) (rs :: rss).
Proof.
  intros Hr Hc [Hl Hm]. split; [cbn; lia|]. intros [|j] svc' rs'; cbn [lookup list_lookup].
  - intros [= <-] [= <-]. rewrite Nat.add_0_r. done.
  - rewrite Nat.add_succ_r. apply Hm.
Qed.

Lemma bench_loop_table svcs : forall i text fin,
  bench_loop f wl env i svcs = Done (text, fin) ->
  exists finished rest rss, svcs = finished ++ rest /\ measured i finished rss /\
    text = concat (map printResult (concat rss)) /\
    match rest with
    | [] => fin = Finished
    | svc :: _ => exists e s', fin = RunFailed svc e /\
        bench_service f wl svc (env (i + length finished)%nat) (World [] 0) = Done (inr e, s')
    end.
Proof.
  induction svcs as [|svc svcs IH]; intros i text fin; cbn [bench_loop].
  { intros [= <- <-]. exists [], [], []. split_and!; [done|apply measured_nil|done..]. }
  destruct (bench_service f wl svc (env i) (World [] 0)) as [[[results|e] s']| |] eqn:Er; try discriminate.
  - destruct (bench_loop f wl env (S i) svcs) as [[text' fin']| |] eqn:El; try discriminate. intros [= <- <-].
    destruct (IH _ _ _ El) as (finished & rest & rss & -> & Hm & -> & Hrest).
    apply Run_measures in Er as [_ Hr]. destruct (Hr results eq_refl) as [Hrep Hcount].
    exists (svc :: finished), rest, (results :: rss). split_and!; [done|by apply measured_cons| |].
    + cbn [concat]. by rewrite map_app, concat_app.
    + cbn [length]. by rewrite Nat.add_succ_r.
  - intros [= <- <-]. exists [], (svc :: svcs), []. split_and!; [done|apply measured_nil|done|].
    exists e, s'. by rewrite Nat.add_0_r.
Qed.
End Table.

(** C31: What the benchmark command prints is what it measured.  When the list of
    services is bad it prints no table.  Otherwise it prints the header and, in
    the order the services were named, two lines for each of them: the
    summaries of the latencies of all writes and of all reads, each over
    [runs * keys] samples and the wall clock of that phase in all runs.  It stops at the first service whose benchmark
    fails, with that service's error, and ends successfully only when there is
    none. *)
Theorem bench_report (f : flags) (env : nat -> surroundings) out fin :
  bench_main f env = Done (out, fin) ->
  let wl := MkWorkload (runs f) (keys f) (valueBytes f) (prefix f) (concurrency f) in
  match selectServices (servicesFlag f) (registry f) with
  | inr e => out = [] /\ fin = BadServices e
  | inl svcs =>
      exists finished rest rss, svcs = finished ++ rest /\ measured wl env 0 finished rss /\
        out = header ++ concat (map printResult (concat rss)) /\
        match rest with
        | [] => fin = Finished
        | svc :: _ => exists e s', fin = RunFailed svc e /\
            bench_service f wl svc (env (length finished)) (World [] 0) = Done (inr e, s')
        end
  end.
Proof.
  intros Hmain wl. unfold bench_main in Hmain. destruct (selectServices _ _) as [svcs|e].
  - fold wl in Hmain. destruct (bench_loop f wl env 0 svcs) as [[text fin']| |] eqn:El; try discriminate.
    injection Hmain as <- <-. destruct (bench_loop_table _ _ _ _ _ _ _ El) as (fi & rest & rss & H1 & H2 & -> & H3).
    by exists fi, rest, rss.
  - by injection Hmain as <- <-.
Qed.

(** One key, one run, against a MiniKV peer; the second service is down. *)
Definition demo_flags : flags := MkFlags "minikv, redis" "a:1" "b:2" "c:3" 1 1 2 "p" 0 1.

Definition demo_env (i : nat) : surroundings :=
  Surroundings (fun _ _ _ => true) (fun _ _ _ => 1500000) (fun _ _ => 2000000)
    (fun addr _ => if bool_decide (addr = "a:1") then Some (c_reader demo_peer, None) else None).

Definition ended (r : outcome (bytes * ending)) : option (bytes * bytes) :=
  match r with Done (out, RunFailed svc (DialFailed 0)) => Some (out, svc_name svc) | _ => None end.

Lemma bench_report_witness :
  let row op := "minikv" ++ tab ++ op ++ tab ++ "1" ++ tab ++ "1.500ms" ++ tab ++ "1.500ms" ++ tab ++
    "1.500ms" ++ tab ++ "1.500ms" ++ tab ++ "1.500ms" ++ tab ++ "500.00" ++ newline in
  ended (bench_main demo_flags demo_env) = Some (header ++ row "write" ++ row "read", "redis" : bytes) /\
  exists finished rss, map svc_name finished = ["minikv"] /\
    measured (MkWorkload 1 1 2 "p" 1) demo_env 0 finished rss.
Proof.
  intros row. assert (Hend : ended (bench_main demo_flags demo_env) =
    Some (header ++ row "write" ++ row "read", "redis" : bytes)) by (vm_compute; reflexivity).
  split; [exact Hend|].
  assert (Hsel : match selectServices (servicesFlag demo_flags) (registry demo_flags) with
    | inl svcs => map svc_name svcs = ["minikv"; "redis"] | inr _ => False end) by (vm_compute; reflexivity).
  destruct (bench_main demo_flags demo_env) as [[out fin]| |] eqn:E; [|discriminate Hend..].
  pose proof (bench_report demo_flags demo_env out fin E) as H. cbv zeta in H.
  destruct (selectServices _ _) as [svcs|]; [|destruct Hsel].
  destruct H as (fi & rest & rss & -> & H2 & _ & H3). exists fi, rss. split; [|exact H2].
  rewrite map_app in Hsel. destruct rest as [|svc rest]; [subst fin; discriminate Hend|].
  destruct H3 as (e & s' & -> & _). assert (Hn : svc_name svc = "redis") by (destruct e as [| | | |[|w]|]; try discriminate Hend; by injection Hend).
  cbn [map] in Hsel. rewrite Hn in Hsel. destruct (map svc_name fi) as [|x [|y l]]; [discriminate Hsel| |].
  - by injection Hsel as ->.
  - apply (f_equal length) in Hsel. cbn in Hsel. rewrite length_app in Hsel. cbn in Hsel. lia.
Defined.
